(* ===== verification/_CoqProject ===== *)
-Q . S2P
Prelude.v
Ids.v
Json.v
Broadcast.v
Channels.v
Types.v
Network.v
Spec.v
RunLog.v
Catalog.v
PgCatalog.v
Domains.v
Events.v
Gateway.v
Post.v
Rpc.v
Frames.v
Errors.v
Wire.v
ErrorChain.v
Vfs.v
Inodes.v
Tree.v
TreeLaws.v
Snapshots.v
Sessions.v
Hitl.v
Checkpointer.v
CheckpointerLaws.v
Controller.v
Secrets.v
Rows.v
Postgres.v
PostgresLaws.v
PgStores.v
VarFs.v
Objects.v
WorkspaceVfs.v
Stores.v
Models.v
RunFrame.v
Executors.v
Builtin.v
Consult.v
Script.v
Macros.v
Hash.v
Annuary.v
Lease.v
LeaseLaws.v
Streams.v
Worker.v
WorkerClient.v
FrameJob.v
Assembly.v
MacroLaws.v
Text.v
Cli.v
LiveSession.v
Repl.v
HitlForm.v
Socket.v
Chat.v
Editor.v
Api.v
Panel.v
Mux.v
