(* ===== verification/Prelude.v ===== *)
(** * Marie: a verification library

    Marie runs sessions of agents.  A session is a tree of frames; each frame
    runs a node of a graph, an expert (a language model with tools) or a tool
    on some worker, reads and writes the channels it inherited, may ask for
    other frames or for answers of a person, and hands its exported channels to
    its parent when it ends.  The library models the program as written in
    [src/marie-core/src] (paths below are relative to it), [src/marie-macros/src],
    [src/marie-cli/src], [src/marie-gateway/src], and the parts of
    [src/marie-axum], [src/marie-ws], [src/marie-leptos] and [src/marie-web-example]
    that keep a state; each definition keeps the name of the code it translates
    where it can.

    ** How the code is modelled

    - A call gives [Ok], [Err] or [Panic] ([Res]); a method that changes its
      object is a function of the state monad [M S E] ([Prelude]).  A panic keeps
      the state reached.  An operation of the model holds its lock for as long as
      it lasts; the container of [Assembly], whose code releases it between two
      operations, is a program of single operations, which others can cut.
    - An asynchronous task is a value of the model: a loop over a channel is a
      function of one turn, and a history is a list of turns, so that a theorem
      that quantifies over the list covers every interleaving.
    - Machine integers are [Z] with their wrap-around or their checks written
      out; texts that the code cuts by bytes are strings of bytes, and those it
      reads by characters ([Text]) are lists of code points.
    - A trait is a class: a component is proved against the class and an
      implementation is an instance that proves its laws ([StoreCatalog],
      [StoreSecret], [StoreSessionFrame], [RouteEvents], [RoutePostMessage], ...).
    - What is not code of the repository is a parameter with its documented
      laws: the random generator ([Xoshiro]), the order of a [HashMap]
      ([HashIter]), doubles ([F64], [FloatScore], [ParseF64]), letter case
      ([Unicode]), serde ([JsonCodec], [SnapshotJson]), the ciphers ([Ciphers]),
      the broadcast channel of tokio ([Broadcast]), peer ids ([PeerIds]),
      openraft ([Membership]), the provider of a model ([Provider]), the texts
      of foreign errors ([ErrorText]), the Rune virtual machine ([Rune]), the
      parsers of syn ([Syn]), the doubles of a browser ([Doubles]), JSON as bytes
      ([JsonBytes], [ValueText]), the variables of a workspace ([VarStore]), the
      store of objects ([ObjectStore]), replicated documents ([Document]), dates as
      texts ([Dates]), what PostgreSQL does of its own to a document and a date
      ([Pg]), and the clients and types that the gateway, the web socket and the
      pages take from a version of [marie-core] that is not in the repository
      ([Upstream], [WsUpstream], [OldTypes] and the record [Clients]).  Every class
      has an instance, used by the witnesses.
    - A table of PostgreSQL is a map by its primary key, and a statement is a
      function of the tables, done at once; a foreign key is checked where a
      statement writes, and a unique key refuses an insertion.  A JSONB column
      refuses some documents and normalises the numbers of the others ([takes],
      [stored]).

    ** The parts, in the order of the files

    Foundations: [Prelude] (outcomes, state monad, tactics, hints, lists),
    [Ids] ([id.rs]), [Json] (JSON values and their order), [Broadcast] (the table of
    broadcast channels that events and post share), [Channels]
    ([session/channel.rs]), [Types] (the data that components exchange),
    [Spec] ([session/spec.rs]), [Errors] and [ErrorChain] ([error.rs], the error that
    travels).

    A session: [RunLog] ([session/run_log.rs], the journal that replays a node
    and its four waiting macros), [Frames] and [Tree] with [TreeLaws]
    ([session/frames]: the stores, the write-back container and the arena of
    linked nodes), [Snapshots] ([session/snapshot]), [Sessions] ([session/model.rs],
    [session/logs], the unit of work), [Hitl] ([hitl]), [Checkpointer] with
    [CheckpointerLaws] ([session/checkpointer]: every handler of an event of a
    session), [Controller] (its loop, and [session/controller.rs]), [RunFrame]
    ([session/worker.rs], the job that runs a frame), [Wire] (the JSON that its
    arguments and its response travel as), [FrameJob] (the job from its
    submission to its answer), [Builtin] ([graph/builtin.rs], the node that asks an
    expert), [Script] ([graph/script.rs], the node that runs a script as a
    coroutine, each command of which is a wait of the journal), [Executors]
    ([tools/executor.rs], [graph/executor.rs]: native tools and nodes, with what runs
    them).

    Macros: [Macros] and [MacroLaws] ([marie-macros/src/lib.rs]: the grammar of
    [rpc!], [job!], [tool!], [node!] and [core_spec!], their errors, the names and
    fields that they generate, and the code of a specification, with what it
    evaluates to).

    What a session names: [Catalog] ([catalog]), [Domains] (the graphs, tools and
    experts kept in it), [Secrets] ([secret]), [Models] ([model]), [Consult]
    ([expert/mod.rs], an expert asked outside of a session).

    PostgreSQL: [Rows] (the JSON of the columns, from the types of frames,
    snapshots, questions, journals and sessions), [Postgres] (the tables of a
    session and the statements of [session/store/mod.rs] and of the files
    [postgres.rs]), [PostgresLaws] (what these stores promise), [PgCatalog]
    ([catalog/store.rs], an instance of the class of [Catalog]), [PgStores]
    ([secret/store.rs] and [tools/catalog/store.rs], with the actor of the tools,
    over the class [ToolStore]).

    Files: [Vfs] ([persistency/filesystem.rs], [alias.rs]: a router of file systems
    and its aliases), [VarFs] ([var.rs], variables as files), [Inodes] and [Objects]
    ([inode.rs]: the tree of files, and their bytes in a store of objects),
    [WorkspaceVfs] ([vfs.rs], what a session sees), [Stores] ([store.rs],
    [session.rs], [workspace.rs]: documents by identifier).  No module declares the
    files of [persistency] but [postgres.rs], so that they are not compiled; they are
    modelled as they are written.

    The cluster: [Network] ([network/swarm.rs], the actor of the swarm), [Events]
    ([events]), [Post] ([post]), [Rpc] ([rpc]), [Hash] ([hrw.rs]), [Annuary]
    ([annuary]), [Lease] with [LeaseLaws] ([lease]), [Streams] ([stream.rs], the pool of
    the timers), [Worker] and [WorkerClient] ([worker]), [Assembly] ([di.rs],
    [entrypoint.rs] and the constructor of every part: who shares what in a process),
    [Gateway] ([marie-gateway/src], the actor that serves a user from
    outside).

    The command line: [Text] (what it uses of the text operations of Rust),
    [Cli] ([repl/tokenizer.rs], [repl/args.rs]), [LiveSession]
    ([states/executing_session.rs]), [Repl] ([repl/mod.rs] and the other files of
    [states]).

    Browsers: [HitlForm] ([marie-leptos/src/hitl_form.rs], a form and the path of a
    file it uploads), [Socket] ([marie-axum/src/ws.rs], the server of a browser's
    socket), [Chat] ([marie-web-example/src/components/chat_view.rs], the page of a
    session, whose tasks mingle), [Editor]
    ([marie-leptos/src/state_graph_editor.rs], the graph under the mouse), [Api]
    ([marie-web-example/src/api.rs], [dto.rs], [hitl_upload.rs]: what the server does
    for the pages), [Panel] ([config_panel.rs]: the four sections of the page of the
    catalogues, whose answers can overtake one another), [Mux]
    ([marie-ws/src/layer.rs], channels over one socket).

    ** How they meet

    A [Repl] command calls the domains; a session it creates is followed by
    [LiveSession], whose answers [Hitl] validates.  A [Controller] feeds the events of a
    session to its [Checkpointer], which commits updates through [Channels] and
    [Spec], creates frames in [Tree], and hands them to a [WorkerClient]; the
    [Worker] picked by [Annuary] and [Hash] runs [RunFrame], which replays the
    journal of [RunLog] or consults a model of [Models], whose key is in the vault
    of [Secrets].  Nodes speak through [Rpc], over [Post] or [Events], over the
    [Network].  Several theorems cross these borders: [peer_is_learned]
    (directory, procedure calls, post office), [models_insert_roundtrip] (models,
    catalogue, vault), [typed_answers_accepted] (what is typed, what the service
    accepts), [typed_graph_is_saved] (characters of the command line, to the
    version in the catalogue), [expert_job_outcome] (a provider's stream, to the
    frame's answer), [node_job_replays] (job, graph, journal), [remote_run_is_local]
    (client, wire, worker, wire: a frame run on a worker gives what running it here
    would), [script_replays] (script, journal), [form_answers_accepted] (widgets,
    what the service accepts), [consult_agrees_with_session] (the expert of the
    command line, the expert of a session), [session_mounted] (routers, aliases, tree
    of files), [panel_shows_catalogue] (page, server functions, catalogues),
    [rows_show_graph] (the form of a graph, the editor), [pg_frames_refine] (rows,
    their JSON, the store in memory), [sources_expand] (the specifications written in
    the sources, expanded by the macro, are those of [Spec]).

    ** What the theorems show

    - Sessions.  A commit writes, for each exported channel, the fold of its
      reducer over the contributions in order ([commit_snapshot_spec],
      [reduce_batches]); specifications merge associatively ([merge_assoc]); the
      arena stays a forest under insertion, and removal takes exactly the
      subtree and ends ([tree_insert_spec], [remove_exact],
      [remove_terminates]); a parent is not resumed before its children have ended, a
      failure that the policy does not tolerate reaches it, and the end of a run
      is handled once ([fan_in_waits], [failure_propagates],
      [run_end_handled_once]); a replayed node behaves as if it had never been
      interrupted ([replay_refines], [script_replays], and [ask_expert_replays]
      for a built-in node); what a job carries is read back as it was written,
      but for an answer [null] ([job_survives_wire]).
    - Macros.  What is parsed, what is refused and with which error
      ([parse_channel_exact]), every specification is read back as written,
      and the code generated from it gives the specification that it means or
      panics on a value without JSON ([spec_block_roundtrip]), and no loop of the parsers runs for ever
      ([macros_terminate]).
    - Catalogue, models, secrets.  A published version never changes; what is
      published, stored or created is read back; rotating keys never locks a node
      out and keeps readable what was written under a key that is kept; asking an
      expert changes nothing ([consult_agrees_with_session]).
    - PostgreSQL.  The tables of a session answer what the stores in memory may
      answer ([pg_frames_refine], [pg_logs_refine], [pg_hitls_refine],
      [pg_snapshots_refine], [pg_session_kept]); publications made at the same time
      never replace one another ([publications_never_lost]); a secret and a tool are
      read back as stored ([pg_secrets_kept], [pg_tools_refine]); the actor of the
      tools answers every command, in order ([tool_actor_serves]).
    - Cluster.  At most one holder of a lease, whose epochs count the grants; the
      nodes picked for a key are the best scored, and two directories that agree
      pick alike; a job that is scheduled reaches its outcome, and every handle of a
      job holds the state that its client tracks ([handles_in_sync]); whatever the
      interleaving, a caller gets the answer to its own call; a subscriber gets
      the events of its topic, in order, but for those the channel lost; a
      gateway touches and relays nothing that its user was not granted, and
      replies once to each command, in order ([gateway_confines],
      [gateway_replies_in_order]).
    - Processes.  There is one instance of each part, whatever the order in which
      the parts are asked for, one after another; uses that overlap share the parts
      that were there before them, and can make two of one that was not
      ([container_shares], [concurrent_resolves_make_two]); but a local process cannot run a
      session ([local_sessions_panic]); a pool of streams loses and repeats nothing
      ([pool_delivers]), and the timers of jobs are never armed
      ([timers_never_armed]); a native tool runs on what it is called with
      ([registered_tool_runs]).
    - Files.  A catalogue changes nothing outside of its scope, and what is
      made is found ([scope_confined], [made_is_found]); what is written is read
      back ([object_roundtrip], [var_written]); the longest mount answers and
      aliases end ([mounts_route], [aliases_followed]); a session sees its files
      and those of its workspace, for as long as its root is there
      ([session_mounted]); a store of documents is a
      map ([doc_stores_refine_map]).
    - Command line.  A command or a value is read back as written, but for a
      backslash before a quote; no line but [delete session] and [create session]
      panics as long as the parts that the process calls and the conversation of a
      session do not, and the stack of states keeps its shape.
    - Browsers.  A form is answered only once, by a connection it was pushed to
      ([forms_answered_once]); the page never loses its socket ([chat_keeps_socket]);
      the identifiers and edges of an edited graph stay well formed, and each row
      of its form shows what its node or edge runs ([editor_keeps_graph],
      [rows_show_graph]); a list shows what the server keeps once every call has
      been answered in order ([panel_shows_catalogue]); what is put in a catalogue
      is listed ([put_is_listed]); a text that is not an identifier reaches no
      client ([bad_ids_touch_nothing]); a channel carries its own messages, in order
      ([mux_delivers]); an uploaded file stays in its directory
      ([upload_path_confined]).

    The other theorems of the files, which the ones above do not use, state the
    defects that modelling showed: each is a consequence of the code as it is.

    ** Bounds and fuel

    Recursion that is not structural is bounded by a measure, and the bound is
    proved to be enough.  [Tree.walk] steps at most once per slot of the arena,
    since the links of a well-formed arena do not repeat; [Tree.remove_loop] is
    bounded by the number of children left ([remove_terminates]);
    [Cli.parse_value] by the length of the text, which each nesting shortens
    ([parse_value_total]); decimals of a 64-bit integer have at most 20 digits;
    [Script.drive] makes at most one turn more than the journal has entries
    ([script_terminates]); the parsers of [Macros] consume a token each turn;
    [Editor.free_id] tries one identifier more than there are nodes;
    [Mux.mux_next] reads the messages that are there.

    ** Not modelled

    - The connections of PostgreSQL, its migrations, the order in which it does
      the statements of different tasks - but for the publications of [PgCatalog] -
      and the columns that no statement reads.
    - libp2p, openraft, the HTTP client, the ciphers: third-party code.
    - The Rune interpreter, and the rendering of its diagnostics.
    - Layers and sinks: types without behaviour of their own.
    - The tokens that the macros lay out with [quote!] for an item; [Macros] gives
      the parts that are computed.  The code of a specification is modelled.
    - [worker/watchdog.rs] and [worker/layers.rs]: written against earlier
      versions of the modules they name; no module declares them, so they are not
      compiled.  [network/persistency] is one comment.
    - Markup, the calls of a canvas, HTTP routes, and the layout of what the command line prints.
    - Memory, wall-clock progress and the limits of caches.  A clock is an
      argument of the operation that reads it.

    - [tools/catalog/mod.rs], a replicated catalogue of tools that no module
      declares.

    ** What is left

    The group membership of a lease server beyond its bootstrap, and the rendering
    of listings. *)

From stdpp Require Export base gmap strings list fin_maps.
From Stdlib Require Export ZArith Lia.

(** ** Outcomes of a Rust call

    A call returns [Ok a], returns [Err e], or panics ([unwrap] on [None],
    [todo!()], an index out of range ...). *)

Inductive Res (E A : Type) : Type :=
  | Ok (a : A)
  | Err (e : E)
  | Panic.

Arguments Ok {E A} a.
Arguments Err {E A} e.
Arguments Panic {E A}.

Global Instance res_ret E : MRet (Res E) := λ A a, Ok a.
Global Instance res_bind E : MBind (Res E) := λ A B k m,
  match m with
  | Ok a => k a
  | Err e => Err e
  | Panic => Panic
  end.

Global Instance res_fmap E : FMap (Res E) := λ A B f m,
  match m with
  | Ok a => Ok (f a)
  | Err e => Err e
  | Panic => Panic
  end.

Definition of_option {E A} (e : E) (o : option A) : Res E A :=
  match o with
  | Some a => Ok a
  | None => Err e
  end.

(** [Option::expect] and [Option::unwrap]. *)
Definition unwrap {E A} (o : option A) : Res E A :=
  match o with
  | Some a => Ok a
  | None => Panic
  end.

Definition map_err {E F A} (f : E → F) (r : Res E A) : Res F A :=
  match r with
  | Ok a => Ok a
  | Err e => Err (f e)
  | Panic => Panic
  end.

Lemma res_bind_ok {E A B} (m : Res E A) (k : A → Res E B) b :
  m ≫= k = Ok b ↔ ∃ a, m = Ok a ∧ k a = Ok b.
Proof.
  unfold mbind, res_bind. destruct m as [x|e|]; split.
  1: by eauto.
  1: by intros (y&Hy&Hk); simplify_eq.
  all: try done; by intros (y&Hy&Hk).
Qed.

(** ** A state, error and panic monad

    A handler that runs over a component's state keeps the mutations made
    before an error: the state is returned on every outcome. *)

Definition M (S E A : Type) : Type := S → Res E A * S.

Global Instance m_ret S E : MRet (M S E) := λ A a s, (Ok a, s).
Global Instance m_bind S E : MBind (M S E) := λ A B k m s,
  match m s with
  | (Ok a, s') => k a s'
  | (Err e, s') => (Err e, s')
  | (Panic, s') => (Panic, s')
  end.

Section monad.
Context {S E : Type}.

Definition get : M S E S := λ s, (Ok s, s).
Definition put (s : S) : M S E () := λ _, (Ok (), s).
Definition modify (f : S → S) : M S E () := λ s, (Ok (), f s).
Definition gets {A} (f : S → A) : M S E A := λ s, (Ok (f s), s).
Definition throw {A} (e : E) : M S E A := λ s, (Err e, s).
Definition panic {A} : M S E A := λ s, (Panic, s).
Definition lift {A} (r : Res E A) : M S E A := λ s, (r, s).

(** The result of an [async fn] that is awaited and then discarded,
    [f().await;]: an error is dropped, a panic still unwinds. *)
Definition ignore {A} (m : M S E A) : M S E () := λ s,
  match m s with
  | (Panic, s') => (Panic, s')
  | (_, s') => (Ok (), s')
  end.

(** [for x in l { f(x)? }] *)
Fixpoint mfor {A} (l : list A) (f : A → M S E ()) : M S E () :=
  match l with
  | [] => mret ()
  | x :: l => f x ≫= λ _, mfor l f
  end.

Fixpoint mmap {A B} (f : A → M S E B) (l : list A) : M S E (list B) :=
  match l with
  | [] => mret []
  | x :: l => f x ≫= λ y, mmap f l ≫= λ ys, mret (y :: ys)
  end.
End monad.

(** The state after a call, and its outcome. *)
Definition run_state {S E A} (m : M S E A) (s : S) : S := (m s).2.
Definition run_res {S E A} (m : M S E A) (s : S) : Res E A := (m s).1.

Lemma run_pair {S E A} (m : M S E A) s r : run_res m s = r → m s = (r, run_state m s).
Proof. unfold run_res, run_state. destruct (m s). simpl. by intros ->. Qed.

Lemma m_bind_ret {S E A B} (a : A) (k : A → M S E B) s :
  (mret a ≫= k) s = k a s.
Proof. done. Qed.

Lemma m_bind_assoc {S E A B C} (m : M S E A) (f : A → M S E B) (g : B → M S E C) s :
  ((m ≫= f) ≫= g) s = (m ≫= λ a, f a ≫= g) s.
Proof. unfold mbind, m_bind. by destruct (m s) as [[] ?]. Qed.

Lemma m_bind_ok {S E A B} (m : M S E A) (k : A → M S E B) s b s' :
  (m ≫= k) s = (Ok b, s') ↔ ∃ a s1, m s = (Ok a, s1) ∧ k a s1 = (Ok b, s').
Proof.
  unfold mbind, m_bind. destruct (m s) as [[a|e|] s1]; naive_solver.
Qed.

(** A property of states that a computation keeps, whatever its outcome. *)
Definition keeps {S E A} (P : S → Prop) (m : M S E A) : Prop :=
  ∀ s, P s → P (run_state m s).

Section keeps.
Context {S E : Type} (P : S → Prop).

Lemma keeps_ret {A} (a : A) : keeps P (mret a : M S E A).
Proof. intros s Hs; exact Hs. Qed.

Lemma keeps_bind {A B} (m : M S E A) (k : A → M S E B) :
  keeps P m → (∀ a, keeps P (k a)) → keeps P (m ≫= k).
Proof.
  intros Hm Hk s Hs. specialize (Hm s Hs). revert Hm.
  unfold run_state, mbind, m_bind. destruct (m s) as [[a|e|] s1]; simpl; auto.
  apply Hk.
Qed.

Lemma keeps_gets {A} (f : S → A) : keeps P (gets f : M S E A).
Proof. intros s Hs; exact Hs. Qed.
Lemma keeps_throw {A} (e : E) : keeps P (throw e : M S E A).
Proof. intros s Hs; exact Hs. Qed.
Lemma keeps_panic {A} : keeps P (panic : M S E A).
Proof. intros s Hs; exact Hs. Qed.
Lemma keeps_lift {A} (r : Res E A) : keeps P (lift r : M S E A).
Proof. intros s Hs; exact Hs. Qed.

Lemma keeps_modify (f : S → S) : (∀ s, P s → P (f s)) → keeps P (modify f : M S E ()).
Proof. intros Hf s Hs. by apply Hf. Qed.

Lemma keeps_ignore {A} (m : M S E A) : keeps P m → keeps P (ignore m).
Proof.
  intros Hm s Hs. specialize (Hm s Hs). revert Hm.
  unfold run_state, ignore. by destruct (m s) as [[a|e|] s1].
Qed.

Lemma keeps_mfor {A} (l : list A) (f : A → M S E ()) :
  (∀ x, keeps P (f x)) → keeps P (mfor l f).
Proof.
  intros Hf. induction l as [|x l IH]; simpl; [apply keeps_ret|].
  by apply keeps_bind.
Qed.

Lemma keeps_mmap {A B} (f : A → M S E B) (l : list A) :
  (∀ x, keeps P (f x)) → keeps P (mmap f l).
Proof.
  intros Hf. induction l as [|x l IH]; simpl; [apply keeps_ret|].
  apply keeps_bind; [done|]. intros y. apply keeps_bind; [done|].
  intros ys. apply keeps_ret.
Qed.
End keeps.

(** A computation that ends or panics, but returns no error. *)
Definition no_err {S E A} (m : M S E A) : Prop := ∀ s e s', m s ≠ (Err e, s').

Section no_err.
Context {S E : Type}.
Lemma no_err_ret {A} (a : A) : no_err (mret a : M S E A).
Proof. done. Qed.
Lemma no_err_gets {A} (f : S → A) : no_err (gets f : M S E A).
Proof. done. Qed.
Lemma no_err_modify (f : S → S) : no_err (modify f : M S E ()).
Proof. done. Qed.
Lemma no_err_bind {A B} (m : M S E A) (k : A → M S E B) :
  no_err m → (∀ a, no_err (k a)) → no_err (m ≫= k).
Proof.
  intros Hm Hk s e s'. unfold mbind, m_bind. specialize (Hm s).
  destruct (m s) as [[a|x|] s1]; [apply Hk| |done]. intros [= -> ->]. by eapply Hm.
Qed.
End no_err.

Create HintDb keeps.
#[export] Hint Resolve no_err_ret no_err_gets no_err_modify no_err_bind : keeps.
#[export] Hint Resolve keeps_ret keeps_bind keeps_gets keeps_throw keeps_panic
  keeps_lift keeps_ignore keeps_mfor keeps_mmap : keeps.

(** ** Machine integers

    A [u8], [u32] or [u64] is a [Z]; the wrapping operations reduce modulo
    the width. *)

Definition wrap8 (z : Z) : Z := (z mod 2 ^ 8)%Z.
Definition wrap32 (z : Z) : Z := (z mod 2 ^ 32)%Z.
Definition wrap64 (z : Z) : Z := (z mod 2 ^ 64)%Z.

Definition is_u8 (z : Z) : Prop := (0 ≤ z < 2 ^ 8)%Z.
Definition is_u32 (z : Z) : Prop := (0 ≤ z < 2 ^ 32)%Z.
Definition is_u64 (z : Z) : Prop := (0 ≤ z < 2 ^ 64)%Z.

Lemma wrap32_id z : is_u32 z → wrap32 z = z.
Proof. intros. by apply Z.mod_small. Qed.
Lemma wrap64_id z : is_u64 z → wrap64 z = z.
Proof. intros. by apply Z.mod_small. Qed.
Lemma wrap64_range z : is_u64 (wrap64 z).
Proof. apply Z.mod_pos_bound. lia. Qed.
Lemma wrap32_range z : is_u32 (wrap32 z).
Proof. apply Z.mod_pos_bound. lia. Qed.

Create HintDb width.
#[export] Hint Resolve wrap64_range wrap32_range : width.
#[export] Hint Rewrite @lookup_insert_eq @lookup_delete_eq : maps.

(** ** Iteration over a hash map

    The standard library leaves the iteration order of a [HashMap]
    unspecified.  A definition that iterates over one takes the order as a
    parameter: some enumeration of the map's bindings. *)

Class HashIter := {
  hash_iter : ∀ {K V} `{Countable K}, gmap K V → list (K * V);
  hash_iter_perm : ∀ {K V} `{Countable K} (m : gmap K V),
    hash_iter m ≡ₚ map_to_list m
}.

(** One such order, used to evaluate examples. *)
Definition canonical_iter : HashIter := {|
  hash_iter := λ K V _ _ m, map_to_list m;
  hash_iter_perm := λ K V _ _ m, reflexivity _
|}.

Lemma elem_of_hash_iter `{HashIter} {K V} `{Countable K} (m : gmap K V) k v :
  (k, v) ∈ hash_iter m ↔ m !! k = Some v.
Proof. by rewrite hash_iter_perm, elem_of_map_to_list. Qed.

(** ** Lists *)

Lemma last_app_singleton {A} (l : list A) x : last (l ++ [x]) = Some x.
Proof. apply last_snoc. Qed.

(** The first entry of a table with the name, or an error. *)
Fixpoint select {A} (name : string) (table : list (string * A)) (other : A) : A :=
  match table with
  | [] => other
  | (n, a) :: table => if decide (name = n) then a else select name table other
  end.

(** Destructs the scrutinee of the first [match] of the goal. *)
Ltac case_match_eq := case_match; simplify_eq/=.
