(* ===== verification/Ids.v ===== *)
(** * Identifiers ([marie-core/src/id.rs] and the newtypes over it)

    [ID] is a pair of [u64]; its textual form is 32 hexadecimal digits.  The
    file models the printer, the parser (with the standard library's
    [u64::from_str_radix]) and the generator, whose random source is a
    parameter, then the identifier newtypes used as map keys elsewhere. *)

From S2P Require Import Prelude.
From Stdlib Require Import Ascii String.
Local Open Scope Z_scope.

(** ** [ID] *)

Record ID := mkID { id0 : Z; id1 : Z }.

Global Instance ID_eq_dec : EqDecision ID.
Proof. solve_decision. Defined.
Global Instance ID_countable : Countable ID.
Proof.
  apply (inj_countable' (λ i, (id0 i, id1 i)) (λ p, mkID p.1 p.2)).
  by intros [].
Defined.

Definition ID_wf (i : ID) : Prop := is_u64 (id0 i) ∧ is_u64 (id1 i).

(** ** Hexadecimal digits *)

Definition digit_char (d : Z) : ascii :=
  if d <? 10 then ascii_of_nat (48 + Z.to_nat d) else ascii_of_nat (87 + Z.to_nat d).

(** [char::to_digit(16)] *)
Definition to_digit (c : ascii) : option Z :=
  let n := Z.of_nat (nat_of_ascii c) in
  if (48 <=? n) && (n <=? 57) then Some (n - 48)
  else if (97 <=? n) && (n <=? 102) then Some (n - 87)
  else if (65 <=? n) && (n <=? 70) then Some (n - 55)
  else None.

(** The [k] low-order digits of [z], most significant first. *)
Fixpoint hex_digits (k : nat) (z : Z) : list ascii :=
  match k with
  | O => []
  | S k => hex_digits k (z / 16) ++ [digit_char (z mod 16)]
  end.

(** [format!("{:016x}", z)] *)
Definition hex016 (z : Z) : list ascii := hex_digits 16 z.

(** [impl Display for ID] *)
Definition ID_fmt (i : ID) : list ascii := hex016 (id0 i) ++ hex016 (id1 i).
Definition ID_to_string (i : ID) : string := string_of_list_ascii (ID_fmt i).

(** [u64::from_str_radix(src, 16)] *)
Inductive ParseIntError := Empty | InvalidDigit | PosOverflow.

Fixpoint parse_digits (acc : Z) (ds : list ascii) : Res ParseIntError Z :=
  match ds with
  | [] => Ok acc
  | c :: ds =>
      match to_digit c with
      | None => Err InvalidDigit
      | Some d =>
          if 2 ^ 64 <=? acc * 16 then Err PosOverflow
          else if 2 ^ 64 <=? acc * 16 + d then Err PosOverflow
          else parse_digits (acc * 16 + d) ds
      end
  end.

Definition is_sign (c : ascii) : bool := Ascii.eqb c "+" || Ascii.eqb c "-".

Definition from_str_radix16 (src : list ascii) : Res ParseIntError Z :=
  match src with
  | [] => Err Empty
  | [c] => if is_sign c then Err InvalidDigit else parse_digits 0 [c]
  | c :: ds => if Ascii.eqb c "+" then parse_digits 0 ds else parse_digits 0 src
  end.

(** [str::is_char_boundary] for an index inside the string: the byte there is
    not a UTF-8 continuation byte. *)
Definition is_char_boundary (s : list ascii) (i : nat) : bool :=
  match s !! i with
  | None => bool_decide (i = List.length s)
  | Some c => negb ((128 <=? Z.of_nat (nat_of_ascii c)) && (Z.of_nat (nat_of_ascii c) <? 192))
  end.

(** [&s[a..b]]: panics off a character boundary or out of range. *)
Definition str_slice {E} (s : list ascii) (a b : nat) : Res E (list ascii) :=
  if (a <=? b)%nat && (b <=? List.length s)%nat && is_char_boundary s a && is_char_boundary s b
  then Ok (take (b - a) (drop a s)) else Panic.

Inductive IdError := BadLength | ParseInt (e : ParseIntError) | BadBytes.

(** [impl FromStr for ID] *)
Definition ID_from_bytes_str (s : list ascii) : Res IdError ID :=
  if negb (List.length s =? 32)%nat then Err BadLength
  else
    h0 ← str_slice s 0 16;
    i0 ← map_err ParseInt (from_str_radix16 h0);
    h1 ← str_slice s 16 32;
    i1 ← map_err ParseInt (from_str_radix16 h1);
    Ok (mkID i0 i1).

Definition ID_from_str (s : string) : Res IdError ID :=
  ID_from_bytes_str (list_ascii_of_string s).

(** ** Bytes

    [bytemuck] views the two words as the bytes they are stored in, least
    significant first on the platforms the program is built for, and views
    bytes as two words when there are sixteen of them, at an address that a
    [u64] may have. *)

Fixpoint le_bytes (k : nat) (z : Z) : list Z :=
  match k with O => [] | S k => z mod 2 ^ 8 :: le_bytes k (z / 2 ^ 8) end.
Fixpoint of_le_bytes (l : list Z) : Z :=
  match l with [] => 0 | b :: l => b + 2 ^ 8 * of_le_bytes l end.

(** [impl AsRef<[u8]> for ID], and [as_bytes]. *)
Definition ID_as_ref (i : ID) : list Z := le_bytes 8 (id0 i) ++ le_bytes 8 (id1 i).

(** [impl TryFrom<&[u8]> for ID] *)
Definition ID_try_from (aligned : bool) (bytes : list Z) : Res IdError ID :=
  if aligned && (List.length bytes =? 16)%nat
  then Ok (mkID (of_le_bytes (take 8 bytes)) (of_le_bytes (drop 8 bytes))) else Err BadBytes.

(** [format!("{:x}", z)]: without the leading zeros. *)
Fixpoint skip_zeros (l : list ascii) : list ascii :=
  match l with
  | c :: l' => match l' with [] => l | _ => if Ascii.eqb c "0" then skip_zeros l' else l end
  | [] => l
  end.
Definition hex (z : Z) : list ascii := skip_zeros (hex016 z).

(** ** The generator

    The random source ([rand_xoshiro], [getrandom]) is third-party code. *)

Class Xoshiro := {
  rng : Type;
  rng_from_seed : list Z → rng;
  next_u64 : rng → Z * rng;
  next_u64_range : ∀ r, is_u64 (next_u64 r).1
}.

(** A counter in place of the random source, for the examples. *)
Definition counter_rng : Xoshiro := {|
  rng := Z;
  rng_from_seed := λ seed, default 0%Z (head seed);
  next_u64 := λ r, (wrap64 r, (r + 1)%Z);
  next_u64_range := λ r, wrap64_range r
|}.

Section generator.
Context `{Xoshiro}.

Record IdGenerator := mkIdGenerator { g_rng : rng; session_prefix : Z }.

Definition new_from_seed (seed : list Z) : IdGenerator :=
  let '(prefix, master_rng) := next_u64 (rng_from_seed seed) in
  mkIdGenerator master_rng prefix.

(** [Default::default]: [entropy] is what [getrandom] filled the seed with,
    or [None] when it failed. *)
Definition generator_default (entropy : option (list Z)) : IdGenerator :=
  let seed := match entropy with Some s => s | None => replicate 32 42 end in
  let '(prefix, master_rng) := next_u64 (rng_from_seed seed) in
  mkIdGenerator master_rng prefix.

(** The generator is shared: its clones advance the same source. *)
Definition next_id (g : IdGenerator) : ID * IdGenerator :=
  let '(local_id, r) := next_u64 (g_rng g) in
  (mkID (session_prefix g) local_id, mkIdGenerator r (session_prefix g)).

Definition next_id_str (g : IdGenerator) : list ascii * IdGenerator :=
  let '(local_id, r) := next_u64 (g_rng g) in
  (hex (session_prefix g) ++ hex local_id, mkIdGenerator r (session_prefix g)).

Definition generate_id (entropy : option (list Z)) : ID :=
  (next_id (generator_default entropy)).1.
End generator.

(** ** Newtypes *)

Record SessionId := mkSessionId { session_id_ : ID }.
Record FrameId := mkFrameId { frame_id_ : ID }.
Record HitlId := mkHitlId { hitl_id_ : ID }.
Record ToolCallId := mkToolCallId { tool_call_id_ : ID }.
Record SessionLogId := mkSessionLogId { session_log_id_ : ID }.
Record JobId := mkJobId { job_id_ : ID }.

Ltac solve_newtype mk un :=
  refine (inj_countable' un mk _); by intros [].

Global Instance SessionId_eq_dec : EqDecision SessionId. Proof. solve_decision. Defined.
Global Instance FrameId_eq_dec : EqDecision FrameId. Proof. solve_decision. Defined.
Global Instance HitlId_eq_dec : EqDecision HitlId. Proof. solve_decision. Defined.
Global Instance ToolCallId_eq_dec : EqDecision ToolCallId. Proof. solve_decision. Defined.
Global Instance SessionLogId_eq_dec : EqDecision SessionLogId. Proof. solve_decision. Defined.
Global Instance JobId_eq_dec : EqDecision JobId. Proof. solve_decision. Defined.
Global Instance SessionId_countable : Countable SessionId.
Proof. solve_newtype mkSessionId session_id_. Defined.
Global Instance FrameId_countable : Countable FrameId.
Proof. solve_newtype mkFrameId frame_id_. Defined.
Global Instance HitlId_countable : Countable HitlId.
Proof. solve_newtype mkHitlId hitl_id_. Defined.
Global Instance ToolCallId_countable : Countable ToolCallId.
Proof. solve_newtype mkToolCallId tool_call_id_. Defined.
Global Instance SessionLogId_countable : Countable SessionLogId.
Proof. solve_newtype mkSessionLogId session_log_id_. Defined.
Global Instance JobId_countable : Countable JobId.
Proof. solve_newtype mkJobId job_id_. Defined.

(** [impl FromStr for SessionId] (and the other newtypes): parse the [ID]. *)
Definition SessionId_from_str (s : string) : Res IdError SessionId :=
  i ← ID_from_str s; Ok (mkSessionId i).
Definition FrameId_from_str (s : string) : Res IdError FrameId :=
  i ← ID_from_str s; Ok (mkFrameId i).
Definition HitlId_from_str (s : string) : Res IdError HitlId :=
  i ← ID_from_str s; Ok (mkHitlId i).

(** ** Lemmas *)

(** The sixteen digits, checked by computation. *)
Lemma digits_ok :
  forallb (λ d, bool_decide (to_digit (digit_char d) = Some d)
    && negb (is_sign (digit_char d)) && (nat_of_ascii (digit_char d) <? 128)%nat)
    (seqZ 0 16) = true.
Proof. vm_compute. reflexivity. Qed.

Lemma digit_ok d : 0 ≤ d < 16 →
  to_digit (digit_char d) = Some d ∧ is_sign (digit_char d) = false ∧
  (nat_of_ascii (digit_char d) < 128)%nat.
Proof.
  intros Hd. pose proof digits_ok as Hok.
  rewrite forallb_forall in Hok. specialize (Hok d).
  rewrite <- list_elem_of_In, elem_of_seqZ in Hok.
  specialize (Hok ltac:(lia)).
  apply andb_true_iff in Hok as [[H1 H2]%andb_true_iff H3].
  apply bool_decide_eq_true in H1. apply negb_true_iff in H2. apply Nat.ltb_lt in H3.
  done.
Qed.

Lemma to_digit_char d : 0 ≤ d < 16 → to_digit (digit_char d) = Some d.
Proof. intros. by apply digit_ok. Qed.

Lemma length_hex_digits k z : List.length (hex_digits k z) = k.
Proof.
  revert z. induction k as [|k IH]; intros z; simpl; [done|].
  rewrite length_app, IH. simpl. lia.
Qed.

Lemma parse_digits_app acc l1 l2 a :
  parse_digits acc l1 = Ok a → parse_digits acc (l1 ++ l2) = parse_digits a l2.
Proof.
  revert acc. induction l1 as [|c l1 IH]; intros acc; simpl; [by intros [= ->]|].
  repeat case_match; try done. apply IH.
Qed.

Lemma parse_hex_digits k z :
  (k ≤ 16)%nat → 0 ≤ z < 16 ^ Z.of_nat k → parse_digits 0 (hex_digits k z) = Ok z.
Proof.
  revert z. induction k as [|k IH]; intros z Hk Hz.
  { simpl in *. f_equal. lia. }
  rewrite Nat2Z.inj_succ, Z.pow_succ_r in Hz by lia.
  assert (0 ≤ z / 16 < 16 ^ Z.of_nat k) as Hq.
  { split; [apply Z.div_pos; lia|]. apply Z.div_lt_upper_bound; lia. }
  assert (16 ^ Z.of_nat k ≤ 2 ^ 60) as Hp.
  { change (2 ^ 60) with (16 ^ 15). apply Z.pow_le_mono_r; lia. }
  cbn [hex_digits]. erewrite parse_digits_app by (apply IH; [lia|done]).
  pose proof (Z.mod_pos_bound z 16 ltac:(lia)). cbn [parse_digits].
  rewrite to_digit_char by lia.
  pose proof (Z.div_mod z 16 ltac:(lia)).
  destruct (Z.leb_spec (2 ^ 64) (z / 16 * 16)); [lia|].
  destruct (Z.leb_spec (2 ^ 64) (z / 16 * 16 + z mod 16)); [lia|].
  f_equal. lia.
Qed.

Definition plain (c : ascii) : Prop := is_sign c = false ∧ (nat_of_ascii c < 128)%nat.

Lemma hex_digits_plain k z : Forall plain (hex_digits k z).
Proof.
  revert z. induction k as [|k IH]; intros z; simpl; [constructor|].
  apply Forall_app; split; [done|]. constructor; [|constructor].
  apply digit_ok, Z.mod_pos_bound. lia.
Qed.

Lemma from_str_radix16_plain c s :
  Forall plain (c :: s) → from_str_radix16 (c :: s) = parse_digits 0 (c :: s).
Proof.
  intros [[Hsign _] _]%Forall_cons. unfold is_sign in Hsign.
  apply orb_false_iff in Hsign as [Hp Hm]. unfold from_str_radix16, is_sign.
  rewrite Hp, Hm. by destruct s.
Qed.

Lemma from_str_radix16_hex016 z : is_u64 z → from_str_radix16 (hex016 z) = Ok z.
Proof.
  intros Hz. pose proof (hex_digits_plain 16 z) as Hpl.
  pose proof (length_hex_digits 16 z) as Hlen.
  pose proof (parse_hex_digits 16 z ltac:(lia) ltac:(exact Hz)) as Hparse.
  unfold hex016. destruct (hex_digits 16 z) as [|c s]; [done|].
  by rewrite from_str_radix16_plain.
Qed.

Lemma is_char_boundary_plain s i :
  Forall plain s → (i ≤ List.length s)%nat → is_char_boundary s i = true.
Proof.
  intros Hs Hi. unfold is_char_boundary. destruct (s !! i) as [c|] eqn:Hc.
  - pose proof (Forall_lookup_1 _ _ _ _ Hs Hc) as [_ ?].
    destruct (Z.leb_spec 128 (Z.of_nat (nat_of_ascii c))); [lia|done].
  - apply lookup_ge_None in Hc. apply bool_decide_eq_true. lia.
Qed.

Lemma str_slice_plain {E} s a b :
  Forall plain s → (a ≤ b)%nat → (b ≤ List.length s)%nat →
  str_slice s a b = Ok (take (b - a) (drop a s)) :> Res E _.
Proof.
  intros Hs Hab Hb. unfold str_slice.
  rewrite !is_char_boundary_plain by (done || lia).
  by rewrite (proj2 (Nat.leb_le _ _) Hab), (proj2 (Nat.leb_le _ _) Hb).
Qed.

Lemma ID_fmt_plain i : Forall plain (ID_fmt i).
Proof. apply Forall_app; split; apply hex_digits_plain. Qed.

Lemma length_ID_fmt i : List.length (ID_fmt i) = 32%nat.
Proof. unfold ID_fmt, hex016. by rewrite length_app, !length_hex_digits. Qed.

Lemma ID_fmt_halves i :
  take 16 (ID_fmt i) = hex016 (id0 i) ∧ take 16 (drop 16 (ID_fmt i)) = hex016 (id1 i).
Proof.
  pose proof (length_hex_digits 16 (id0 i)) as L0.
  pose proof (length_hex_digits 16 (id1 i)) as L1.
  unfold ID_fmt, hex016. rewrite take_app_length', drop_app_length' by done.
  split; [done|]. by rewrite take_ge by lia.
Qed.

(** Printing an identifier and parsing the text back gives the identifier. *)
Theorem ID_roundtrip (i : ID) :
  ID_wf i → ID_from_str (ID_to_string i) = Ok i.
Proof.
  intros [H0 H1]. unfold ID_from_str, ID_to_string, ID_from_bytes_str.
  rewrite list_ascii_of_string_of_list_ascii, length_ID_fmt.
  rewrite !str_slice_plain by (apply ID_fmt_plain || rewrite ?length_ID_fmt; lia).
  destruct (ID_fmt_halves i) as [Hl Hr].
  change (16 - 0)%nat with 16%nat. change (32 - 16)%nat with 16%nat.
  rewrite drop_0, Hl, Hr. unfold mbind, res_bind. cbn [negb Nat.eqb].
  rewrite !from_str_radix16_hex016 by assumption. by destruct i.
Qed.

Lemma ID_roundtrip_witness :
  ID_from_str (ID_to_string (mkID 255 (2 ^ 64 - 1))) = Ok (mkID 255 (2 ^ 64 - 1)).
Proof. apply (ID_roundtrip (mkID 255 (2 ^ 64 - 1))). split; split; simpl; lia. Defined.

Lemma to_digit_nonneg c d : to_digit c = Some d → 0 ≤ d.
Proof.
  unfold to_digit.
  destruct (Z.leb_spec 48 (Z.of_nat (nat_of_ascii c)));
  destruct (Z.leb_spec 97 (Z.of_nat (nat_of_ascii c)));
  destruct (Z.leb_spec 65 (Z.of_nat (nat_of_ascii c)));
  repeat case_match; simpl; intros; simplify_eq; try done; lia.
Qed.

Lemma parse_digits_range acc ds z :
  is_u64 acc → parse_digits acc ds = Ok z → is_u64 z.
Proof.
  revert acc. induction ds as [|c ds IH]; intros acc Hacc; simpl; [by intros [= ->]|].
  destruct (to_digit c) as [d|] eqn:Hd; [|done].
  pose proof (to_digit_nonneg _ _ Hd).
  destruct (Z.leb_spec (2 ^ 64) (acc * 16)); [done|].
  destruct (Z.leb_spec (2 ^ 64) (acc * 16 + d)); [done|].
  apply IH. unfold is_u64 in *. lia.
Qed.

Lemma from_str_radix16_range s z : from_str_radix16 s = Ok z → is_u64 z.
Proof.
  assert (is_u64 0) by (unfold is_u64; lia).
  unfold from_str_radix16.
  destruct s as [|c [|c' s]]; [done|destruct (is_sign c)|destruct (Ascii.eqb c "+")];
    try done; by apply parse_digits_range.
Qed.

Lemma map_err_ok {E F A} (f : E → F) (r : Res E A) a : map_err f r = Ok a ↔ r = Ok a.
Proof. destruct r; simpl; split; congruence. Qed.

(** Whatever text is accepted, both halves of the identifier fit a [u64],
    and the only accepted length is 32 bytes. *)
Theorem ID_from_str_wf (s : string) (i : ID) :
  ID_from_str s = Ok i → ID_wf i ∧ String.length s = 32%nat.
Proof.
  unfold ID_from_str, ID_from_bytes_str.
  destruct (Nat.eqb_spec (List.length (list_ascii_of_string s)) 32) as [L|]; [|done].
  cbn [negb]. intros (h0&_&(i0&E0&(h1&_&(i1&E1&[= <-])%res_bind_ok)%res_bind_ok)%res_bind_ok)%res_bind_ok.
  split.
  - apply map_err_ok in E0, E1. split; by eapply from_str_radix16_range.
  - rewrite <- L. clear. induction s; simpl; congruence.
Qed.

Lemma ID_from_str_wf_witness :
  ID_wf (mkID 1 2) ∧
  String.length "00000000000000010000000000000002" = 32%nat.
Proof.
  apply (ID_from_str_wf "00000000000000010000000000000002" (mkID 1 2)).
  vm_compute. reflexivity.
Defined.

(** The parser accepts more than the printer emits: a half may carry a plus
    sign, as [u64::from_str_radix] allows, so two texts can name one
    identifier. *)
Lemma ID_from_str_not_injective :
  ID_from_str "+000000000000001+000000000000002" =
  ID_from_str "00000000000000010000000000000002".
Proof. vm_compute. reflexivity. Qed.

(** ** Bytes and short texts *)

Lemma length_le_bytes k z : List.length (le_bytes k z) = k.
Proof. revert z. induction k as [|k IH]; intros z; simpl; [done|]. by rewrite IH. Qed.

Lemma of_le_bytes_le_bytes k z : 0 ≤ z < 2 ^ (8 * Z.of_nat k) → of_le_bytes (le_bytes k z) = z.
Proof.
  revert z. induction k as [|k IH]; intros z Hz; cbn [le_bytes of_le_bytes]; [simpl in Hz; lia|].
  rewrite IH; [pose proof (Z.div_mod z (2 ^ 8)); lia|].
  replace (8 * Z.of_nat (S k)) with (8 + 8 * Z.of_nat k) in Hz by lia. rewrite Z.pow_add_r in Hz by lia.
  split; [apply Z.div_pos; lia|]. apply Z.div_lt_upper_bound; lia.
Qed.

(** The bytes of an identifier give it back where a [u64] may be; elsewhere,
    or in another number, they are refused. *)
Theorem ID_bytes_roundtrip (i : ID) :
  ID_wf i →
  ID_try_from true (ID_as_ref i) = Ok i ∧ ID_try_from false (ID_as_ref i) = Err BadBytes ∧
  ∀ b aligned, ID_try_from aligned (b :: ID_as_ref i) = Err BadBytes.
Proof.
  intros [H0 H1]. unfold ID_try_from, ID_as_ref. cbn [List.length]. rewrite length_app, !length_le_bytes.
  split; [|by split; [|intros b []]]. simpl andb.
  rewrite take_app_length', drop_app_length' by by rewrite length_le_bytes.
  rewrite !of_le_bytes_le_bytes by done. by destruct i.
Qed.

Lemma ID_bytes_roundtrip_witness : ID_try_from true (ID_as_ref (mkID 258 7)) = Ok (mkID 258 7).
Proof. apply (ID_bytes_roundtrip (mkID 258 7)). split; split; simpl; lia. Defined.

Lemma parse_skip_zeros l : parse_digits 0 (skip_zeros l) = parse_digits 0 l.
Proof.
  induction l as [|c [|c' l] IH]; [done..|].
  change (skip_zeros (c :: c' :: l)) with (if Ascii.eqb c "0" then skip_zeros (c' :: l) else c :: c' :: l).
  destruct (Ascii.eqb_spec c "0") as [->|]; [|done]. rewrite IH. reflexivity.
Qed.

Lemma hex_inj z w : is_u64 z → is_u64 w → hex z = hex w → z = w.
Proof.
  intros Hz Hw He. apply (f_equal (parse_digits 0)) in He. unfold hex, hex016 in He.
  rewrite !parse_skip_zeros, !parse_hex_digits in He by (done || lia). by injection He.
Qed.

(** The texts of one generator differ as its numbers do ... *)
Theorem next_id_str_distinct `{Xoshiro} (g g' : IdGenerator) :
  is_u64 (session_prefix g) → session_prefix g = session_prefix g' →
  (next_id_str g).1 = (next_id_str g').1 → (next_u64 (g_rng g)).1 = (next_u64 (g_rng g')).1.
Proof.
  intros Hp Hg. unfold next_id_str.
  pose proof (next_u64_range (g_rng g)) as Hr. pose proof (next_u64_range (g_rng g')) as Hr'.
  destruct (next_u64 (g_rng g)) as [n r], (next_u64 (g_rng g')) as [n' r']. simpl in *.
  rewrite Hg. intros Heq%app_inv_head. by apply hex_inj.
Qed.

Lemma next_id_str_distinct_witness :
  let g := @mkIdGenerator counter_rng 5 1 in
  (@next_u64 counter_rng (@g_rng counter_rng g)).1 = 5.
Proof. apply (@next_id_str_distinct counter_rng (@mkIdGenerator counter_rng 5 1) (@mkIdGenerator counter_rng 5 1)); [split; simpl; lia|reflexivity..]. Defined.

(** ... but the two numbers of a text are not separated, so that generators
    with other prefixes can give the same text. *)
Theorem next_id_str_ambiguous :
  (@next_id_str counter_rng (@mkIdGenerator counter_rng 0x213 0x1)).1 =
  (@next_id_str counter_rng (@mkIdGenerator counter_rng 0x13 0x12)).1.
Proof. vm_compute. reflexivity. Qed.
