(* ===== verification/Json.v ===== *)
(** * JSON values

    The constructors of [serde_json::Value] that the code matches on and
    builds.  A number is an integer or the 64 bits of a double; the two
    floating-point operations the code performs on doubles are the
    parameters of [F64]. *)

From S2P Require Import Prelude.
From Stdlib Require Import Ascii String.
Local Open Scope Z_scope.

Inductive Number := NInt (z : Z) | NFloat (bits : Z).

Inductive Value :=
  | Null
  | Bool (b : bool)
  | Num (n : Number)
  | Str (s : string)
  | Array (l : list Value)
  | Object (m : list (string * Value)).

(** A double is finite when its exponent field is not all ones. *)
Definition f64_finite (bits : Z) : bool :=
  negb (Z.land (Z.shiftr bits 52) 2047 =? 2047).

Class F64 := {
  f64_of_int : Z → Z;             (* [i as f64] *)
  f64_max : Z → Z → Z;            (* [f64::max] *)
  f64_of_int_finite : ∀ z, f64_finite (f64_of_int z) = true;
  f64_max_choice : ∀ a b, f64_max a b = a ∨ f64_max a b = b
}.

(** [Value::as_f64] *)
Definition as_f64 `{F64} (v : Value) : option Z :=
  match v with
  | Num (NInt z) => Some (f64_of_int z)
  | Num (NFloat b) => Some b
  | _ => None
  end.

(** [json!(n)] of a double: [Number::from_f64], [null] when not finite. *)
Definition json_of_f64 (b : Z) : Value :=
  if f64_finite b then Num (NFloat b) else Null.

(** A number held by a [Value] is never a NaN or an infinity. *)
Definition number_wf (v : Value) : Prop :=
  match v with
  | Num (NFloat b) => f64_finite b = true
  | _ => True
  end.

Lemma as_f64_finite `{F64} v b :
  number_wf v → as_f64 v = Some b → f64_finite b = true.
Proof.
  destruct v as [| |[z|z]| | |]; simpl; intros ? [= <-]; [apply f64_of_int_finite|done].
Qed.

(** [serde_json::Map::insert]: the map is kept sorted by key. *)
Fixpoint obj_insert (k : string) (v : Value) (m : list (string * Value)) :
    list (string * Value) :=
  match m with
  | [] => [(k, v)]
  | (k', v') :: m' =>
      match String.compare k k' with
      | Eq => (k, v) :: m'
      | Lt => (k, v) :: m
      | Gt => (k', v') :: obj_insert k v m'
      end
  end.

Fixpoint obj_get (k : string) (m : list (string * Value)) : option Value :=
  match m with
  | [] => None
  | (k', v) :: m => if decide (k = k') then Some v else obj_get k m
  end.

Lemma string_compare_eq k k' : String.compare k k' = Eq → k = k'.
Proof. apply String.compare_eq_iff. Qed.

Lemma string_compare_refl k : String.compare k k = Eq.
Proof.
  induction k as [|c k IH]; [done|]. unfold String.compare. fold String.compare.
  unfold Ascii.compare. by rewrite N.compare_refl.
Qed.

Lemma obj_get_insert_eq k v m : obj_get k (obj_insert k v m) = Some v.
Proof.
  induction m as [|[k' v'] m IH]; simpl; [by rewrite decide_True|].
  destruct (String.compare k k') eqn:E; simpl; [by rewrite decide_True..|].
  rewrite decide_False; [done|]. intros ->. by rewrite string_compare_refl in E.
Qed.

Lemma obj_get_insert_ne k k' v m :
  k ≠ k' → obj_get k' (obj_insert k v m) = obj_get k' m.
Proof.
  intros Hne. induction m as [|[k2 v2] m IH]; simpl; [by rewrite decide_False|].
  destruct (String.compare k k2) eqn:E; simpl.
  - apply string_compare_eq in E as ->. by rewrite !decide_False by done.
  - by rewrite decide_False by done.
  - by rewrite IH.
Qed.

(** A concrete instance, for examples: doubles as the bits of small integers,
    ordered as integers. *)
Definition f64_int : F64.
Proof.
  refine {| f64_of_int := λ z, Z.land z (2 ^ 52 - 1); f64_max := Z.max |}.
  - intros z. unfold f64_finite. apply negb_true_iff, Z.eqb_neq.
    rewrite Z.shiftr_land, (Z.shiftr_eq_0 (2 ^ 52 - 1)) by (simpl; lia).
    by rewrite Z.land_0_r, Z.land_0_l.
  - intros. lia.
Defined.

(** ** Values can be numbered *)

Section value_ind.
Context (P : Value → Prop) (Hnull : P Null) (Hbool : ∀ b, P (Bool b)) (Hnum : ∀ n, P (Num n))
  (Hstr : ∀ s, P (Str s)) (Harr : ∀ l, Forall P l → P (Array l))
  (Hobj : ∀ m, Forall (λ p, P p.2) m → P (Object m)).

Fixpoint value_ind' (v : Value) : P v :=
  match v with
  | Null => Hnull
  | Bool b => Hbool b
  | Num n => Hnum n
  | Str s => Hstr s
  | Array l => Harr l ((fix go (l : list Value) : Forall P l :=
      match l with [] => Forall_nil_2 _ | v :: l => Forall_cons_2 _ _ _ (value_ind' v) (go l) end) l)
  | Object m => Hobj m ((fix go (m : list (string * Value)) : Forall (λ p, P p.2) m :=
      match m with
      | [] => Forall_nil_2 _
      | p :: m => Forall_cons_2 _ p m (value_ind' p.2) (go m)
      end) m)
  end.
End value_ind.

Global Instance Number_eq_dec : EqDecision Number. Proof. solve_decision. Defined.
Global Instance Number_countable : Countable Number.
Proof.
  apply (inj_countable' (λ n, match n with NInt z => inl z | NFloat b => inr b end)
    (λ s, match s with inl z => NInt z | inr b => NFloat b end)). by intros [].
Defined.

Notation value_leaf := (unit + bool + Number + string)%type.

Fixpoint value_tree (v : Value) : gen_tree value_leaf :=
  match v with
  | Null => GenLeaf (inl (inl (inl ())))
  | Bool b => GenLeaf (inl (inl (inr b)))
  | Num n => GenLeaf (inl (inr n))
  | Str s => GenLeaf (inr s)
  | Array l => GenNode 0 (map value_tree l)
  | Object m => GenNode 1 (map (λ p, GenNode 2 [GenLeaf (inr p.1); value_tree p.2]) m)
  end.

Fixpoint value_of_tree (t : gen_tree value_leaf) : Value :=
  match t with
  | GenLeaf (inl (inl (inl _))) => Null
  | GenLeaf (inl (inl (inr b))) => Bool b
  | GenLeaf (inl (inr n)) => Num n
  | GenLeaf (inr s) => Str s
  | GenNode 0 l => Array (map value_of_tree l)
  | GenNode _ l => Object (map (λ t,
      match t with
      | GenNode _ [GenLeaf (inr k); t] => (k, value_of_tree t)
      | _ => (EmptyString, Null)
      end) l)
  end.

Lemma value_of_to_tree v : value_of_tree (value_tree v) = v.
Proof.
  induction v as [| | | |l IH|m IH] using value_ind'; simpl; try done; f_equal; rewrite map_map.
  - induction IH as [|v l Hv _ IH]; simpl; [done|]. by rewrite Hv, IH.
  - induction IH as [|[k v] m Hv _ IH]; simpl in *; [done|]. by rewrite Hv, IH.
Qed.

Global Instance Value_eq_dec : EqDecision Value.
Proof. refine (inj_eq_dec value_tree); intros v v' E; by rewrite <- (value_of_to_tree v), E, value_of_to_tree. Defined.
Global Instance Value_countable : Countable Value := inj_countable' value_tree value_of_tree value_of_to_tree.
