(* ===== verification/Broadcast.v ===== *)
(** * Broadcast channels and named hubs ([events/mod.rs], [post/mod.rs])

    [tokio::sync::broadcast] is third-party code: [Broadcast] is what its
    documentation promises, for channels whose capacity is a power of two, as
    every capacity in the code is.  A hub is a map from names to such channels:
    [LocalEventRouter] and [LocalPostMessageRouter] are two copies of it. *)

From S2P Require Import Prelude.

(** The last [n] elements of a list. *)
Definition lastn {A} (n : nat) (l : list A) : list A := drop (length l - n) l.

(** [unread] is what a receiver would still be given: a slow receiver loses
    the oldest values, which [BroadcastStream] reports as an error that every
    caller drops. *)
Class Broadcast := {
  sender : Type → Type;
  receiver : Type;
  receiver_eq_dec :: EqDecision receiver;
  capacity : ∀ {A}, sender A → nat;
  unread : ∀ {A}, sender A → receiver → option (list A);
  broadcast_channel : ∀ {A}, nat → sender A;
  broadcast_subscribe : ∀ {A}, sender A → receiver * sender A;
  broadcast_send : ∀ {A}, A → sender A → sender A;
  broadcast_recv : ∀ {A}, receiver → sender A → option A * sender A;

  capacity_channel : ∀ {A} n, capacity (broadcast_channel (A:=A) n) = n;
  capacity_subscribe : ∀ {A} (s : sender A), capacity (broadcast_subscribe s).2 = capacity s;
  capacity_send : ∀ {A} a (s : sender A), capacity (broadcast_send a s) = capacity s;
  capacity_recv : ∀ {A} r (s : sender A), capacity (broadcast_recv r s).2 = capacity s;
  unread_channel : ∀ {A} n r, unread (broadcast_channel (A:=A) n) r = None;
  unread_subscribe : ∀ {A} (s s' : sender A) r, broadcast_subscribe s = (r, s') →
    unread s r = None ∧ unread s' r = Some [] ∧ ∀ r', r' ≠ r → unread s' r' = unread s r';
  unread_send : ∀ {A} a (s : sender A) r,
    unread (broadcast_send a s) r = (λ l, lastn (capacity s) (l ++ [a])) <$> unread s r;
  unread_recv : ∀ {A} r (s s' : sender A) o, broadcast_recv r s = (o, s') →
    o = unread s r ≫= head ∧ unread s' r = tail <$> unread s r ∧
    ∀ r', r' ≠ r → unread s' r' = unread s r'
}.

(** ** Hubs *)

Section hub.
Context `{Broadcast} {A : Type}.

(** Channels outlive their name: removing a name drops its sender, not what
    the receivers have left to read. *)
Record Hub := mkHub { hub_names : gmap string nat; hub_channels : list (sender A) }.

Definition hub_new : Hub := mkHub ∅ [].

Definition CHANNEL_CAPACITY : nat := 256.

(** [entry(name).or_insert_with(|| broadcast::channel(CHANNEL_CAPACITY).0)] *)
Definition hub_channel (name : string) (h : Hub) : nat * Hub :=
  match hub_names h !! name with
  | Some i => (i, h)
  | None =>
      let i := length (hub_channels h) in
      (i, mkHub (<[name := i]> (hub_names h)) (hub_channels h ++ [broadcast_channel CHANNEL_CAPACITY]))
  end.

(** Nothing is sent, nor any channel created, for a name that nobody uses. *)
Definition hub_publish (name : string) (a : A) (h : Hub) : Hub :=
  match hub_names h !! name with
  | Some i => mkHub (hub_names h) (alter (broadcast_send a) i (hub_channels h))
  | None => h
  end.

Definition hub_remove (name : string) (h : Hub) : Hub :=
  mkHub (base.delete name (hub_names h)) (hub_channels h).

(** A receiver and the channel it reads. *)
Definition HubStream : Type := nat * receiver.

Definition hub_stream (name : string) (h : Hub) : option HubStream * Hub :=
  let '(i, h) := hub_channel name h in
  match hub_channels h !! i with
  | Some tx =>
      let '(r, tx) := broadcast_subscribe tx in
      (Some (i, r), mkHub (hub_names h) (<[i := tx]> (hub_channels h)))
  | None => (None, h)
  end.

(** [BroadcastStream] with the errors filtered out. *)
Definition hub_poll (s : HubStream) (h : Hub) : option A * Hub :=
  match hub_channels h !! s.1 with
  | Some tx =>
      let '(o, tx) := broadcast_recv s.2 tx in
      (o, mkHub (hub_names h) (<[s.1 := tx]> (hub_channels h)))
  | None => (None, h)
  end.

(** ** Laws *)

Definition hub_unread (h : Hub) (s : HubStream) : option (list A) :=
  hub_channels h !! s.1 ≫= λ tx, unread tx s.2.

(** Every name has a channel of its own, of the declared capacity. *)
Definition hub_ok (h : Hub) : Prop :=
  (∀ name i, hub_names h !! name = Some i → is_Some (hub_channels h !! i)) ∧
  (∀ name name' i, hub_names h !! name = Some i → hub_names h !! name' = Some i → name = name') ∧
  ∀ i tx, hub_channels h !! i = Some tx → capacity tx = CHANNEL_CAPACITY.

Lemma hub_new_ok : hub_ok hub_new.
Proof. split_and!; intros *; simpl; by rewrite ?lookup_empty, ?lookup_nil. Qed.

Lemma hub_channel_ok name h i h' :
  hub_channel name h = (i, h') → hub_ok h →
  hub_ok h' ∧ hub_names h' !! name = Some i ∧ is_Some (hub_channels h' !! i) ∧
  (∀ s, hub_unread h' s = hub_unread h s) ∧
  (∀ name' j, hub_names h !! name' = Some j → hub_names h' !! name' = Some j).
Proof.
  unfold hub_channel. intros Heq (Hs&Hi&Hc). destruct (hub_names h !! name) as [j|] eqn:E.
  - injection Heq as <- <-. split_and!; try done. by eapply Hs.
  - injection Heq as <- <-. simpl.
    assert (∀ n, hub_names h !! n = Some (length (hub_channels h)) → False) as Hfresh.
    { intros n Hn. destruct (Hs _ _ Hn) as [tx Htx]. apply lookup_lt_Some in Htx. lia. }
    assert (hub_channels h !! length (hub_channels h) = None) as Hend by by apply lookup_ge_None_2.
    split_and!.
    + split_and!; simpl.
      * intros n i Hn. rewrite lookup_insert in Hn. case_decide; simplify_eq.
        -- rewrite lookup_app_r, Nat.sub_diag by lia. by eexists.
        -- destruct (Hs _ _ Hn) as [tx Htx]. rewrite (lookup_app_l_Some _ _ _ _ Htx). by eexists.
      * intros n n' i Hn Hn'. rewrite lookup_insert in Hn, Hn'.
        repeat case_decide; simplify_eq; [done|by exfalso; eapply Hfresh..|by eapply Hi].
      * intros i tx Htx%lookup_app_Some. destruct Htx as [Htx|[_ Htx]]; [by eapply Hc|].
        apply list_lookup_singleton_Some in Htx as [_ <-]. apply capacity_channel.
    + apply lookup_insert_eq.
    + rewrite lookup_app_r, Nat.sub_diag by lia. by eexists.
    + intros [i r]. unfold hub_unread. simpl. destruct (decide (i = length (hub_channels h))) as [->|Hne].
      * rewrite Hend, lookup_app_r, Nat.sub_diag by lia. simpl. apply unread_channel.
      * destruct (hub_channels h !! i) as [tx|] eqn:Ei; [by rewrite (lookup_app_l_Some _ _ _ _ Ei)|].
        rewrite lookup_ge_None_2; [done|]. rewrite length_app. simpl.
        apply lookup_ge_None_1 in Ei. lia.
    + intros n j Hn. rewrite lookup_insert. case_decide; [|done]. congruence.
Qed.

(** Replacing a channel by one of the same capacity. *)
Lemma hub_set_ok h i tx tx' :
  hub_channels h !! i = Some tx → capacity tx' = capacity tx → hub_ok h →
  hub_ok (mkHub (hub_names h) (<[i := tx']> (hub_channels h))).
Proof.
  intros Hi Hcap (Hs&Hinj&Hc). split_and!; simpl; [|done|].
  - intros n j Hn. destruct (Hs _ _ Hn) as [t Ht].
    destruct (decide (i = j)) as [->|]; [|by rewrite list_lookup_insert_ne].
    rewrite list_lookup_insert_eq by by eapply lookup_lt_Some. by eexists.
  - intros j t Ht. destruct (decide (i = j)) as [->|]; [|rewrite list_lookup_insert_ne in Ht by done; by eapply Hc].
    rewrite list_lookup_insert_eq in Ht by by eapply lookup_lt_Some. simplify_eq. rewrite Hcap. by eapply Hc.
Qed.

Lemma hub_set_unread h i tx tx' r :
  hub_channels h !! i = Some tx →
  (∀ r', r' ≠ r → unread tx' r' = unread tx r') →
  hub_unread (mkHub (hub_names h) (<[i := tx']> (hub_channels h))) (i, r) = unread tx' r ∧
  ∀ s, s ≠ (i, r) →
    hub_unread (mkHub (hub_names h) (<[i := tx']> (hub_channels h))) s = hub_unread h s.
Proof.
  intros Hi Ho. unfold hub_unread; simpl. split.
  - by rewrite list_lookup_insert_eq by by eapply lookup_lt_Some.
  - intros [j r'] Hne. simpl. destruct (decide (i = j)) as [->|]; [|by rewrite list_lookup_insert_ne].
    rewrite list_lookup_insert_eq by by eapply lookup_lt_Some. rewrite Hi. simpl. apply Ho. congruence.
Qed.

Lemma hub_stream_ok name h o h' :
  hub_stream name h = (o, h') → hub_ok h →
  hub_ok h' ∧ ∃ s, o = Some s ∧ hub_names h' !! name = Some s.1 ∧
    hub_unread h s = None ∧ hub_unread h' s = Some [] ∧
    (∀ s', s' ≠ s → hub_unread h' s' = hub_unread h s') ∧
    (∀ name' j, hub_names h !! name' = Some j → hub_names h' !! name' = Some j).
Proof.
  unfold hub_stream. intros Heq Hok. destruct (hub_channel name h) as [i h1] eqn:E.
  apply hub_channel_ok in E as (Hok1&Hn&[tx Htx]&Hu&Hk); [|done]. rewrite Htx in Heq.
  destruct (broadcast_subscribe tx) as [r tx'] eqn:Es. injection Heq as <- <-.
  pose proof (capacity_subscribe tx) as Hcap. rewrite Es in Hcap.
  destruct (unread_subscribe _ _ _ Es) as (Hr&Hr'&Ho).
  split; [by eapply hub_set_ok|]. exists (i, r).
  destruct (hub_set_unread h1 i tx tx' r Htx Ho) as [Hs Hs'].
  split_and!; [done|done| |by rewrite Hs| |done].
  - rewrite <- Hu. unfold hub_unread. simpl. by rewrite Htx.
  - intros s' Hne. by rewrite Hs', Hu.
Qed.

Lemma hub_publish_ok name a h s :
  hub_ok h → hub_ok (hub_publish name a h) ∧
  hub_names (hub_publish name a h) = hub_names h ∧
  hub_unread (hub_publish name a h) s =
    if decide (hub_names h !! name = Some s.1)
    then (λ l, lastn CHANNEL_CAPACITY (l ++ [a])) <$> hub_unread h s else hub_unread h s.
Proof.
  intros Hok. pose proof Hok as (Hs&Hinj&Hc). unfold hub_publish.
  destruct (hub_names h !! name) as [i|] eqn:E; [|by rewrite decide_False].
  destruct (Hs _ _ E) as [tx Htx].
  assert (alter (broadcast_send a) i (hub_channels h) = <[i := broadcast_send a tx]> (hub_channels h)) as ->.
  { apply list_eq. intros j. destruct (decide (i = j)) as [->|].
    - by rewrite list_lookup_alter_eq, list_lookup_insert_eq, Htx by by eapply lookup_lt_Some.
    - by rewrite list_lookup_alter_ne, list_lookup_insert_ne. }
  split_and!; [eapply hub_set_ok; [done|apply capacity_send|done]|done|].
  destruct s as [j r]. unfold hub_unread. simpl. case_decide as Hd; simplify_eq.
  - rewrite list_lookup_insert_eq, Htx by by eapply lookup_lt_Some. simpl.
    by rewrite unread_send, (Hc _ _ Htx).
  - rewrite list_lookup_insert_ne; [done|congruence].
Qed.

Lemma hub_poll_ok s h o h' :
  hub_poll s h = (o, h') → hub_ok h →
  hub_ok h' ∧ hub_names h' = hub_names h ∧ o = hub_unread h s ≫= head ∧
  hub_unread h' s = tail <$> hub_unread h s ∧ ∀ s', s' ≠ s → hub_unread h' s' = hub_unread h s'.
Proof.
  unfold hub_poll. destruct s as [i r]. simpl. intros Heq Hok. destruct (hub_channels h !! i) as [tx|] eqn:Hi.
  - destruct (broadcast_recv r tx) as [x tx'] eqn:Er. injection Heq as <- <-.
    pose proof (capacity_recv r tx) as Hcap. rewrite Er in Hcap.
    destruct (unread_recv _ _ _ _ Er) as (->&Ht&Ho).
    destruct (hub_set_unread h i tx tx' r Hi Ho) as [Hs Hs'].
    unfold hub_unread at 1 3. simpl. rewrite Hi. simpl.
    split_and!; [by eapply hub_set_ok|done|done|by rewrite Hs|done].
  - injection Heq as <- <-. unfold hub_unread. simpl. rewrite Hi. done.
Qed.
End hub.

Arguments Hub {_} A.

Lemma lastn_all {A} n (l : list A) : length l ≤ n → lastn n l = l.
Proof. intros Hl. unfold lastn. by replace (length l - n) with 0 by lia. Qed.

Lemma lastn_snoc {A} n (l : list A) a : lastn n (lastn n l ++ [a]) = lastn n (l ++ [a]).
Proof.
  unfold lastn. rewrite !length_app, length_drop. simpl.
  rewrite <- (drop_app_le l [a] (length l - n)) by lia. rewrite drop_drop. f_equal. lia.
Qed.

Lemma length_lastn {A} n (l : list A) : length (lastn n l) = n `min` length l.
Proof. unfold lastn. rewrite length_drop. lia. Qed.

(** ** A concrete channel, for the examples *)

Record Queues (A : Type) := mkQueues {
  q_capacity : nat; q_next : nat; q_unread : gmap nat (list A) }.
Arguments mkQueues {A}.
Arguments q_capacity {A}.
Arguments q_next {A}.
Arguments q_unread {A}.

(** Receivers are numbered; a number in use is never given again. *)
Definition queues_fresh {A} (q : Queues A) : nat :=
  foldr Nat.max 0 (S <$> (map_to_list (q_unread q)).*1).

Lemma foldr_max_above (l : list nat) (k : nat) : k ∈ l → k < foldr Nat.max 0 (S <$> l).
Proof.
  induction l as [|k' l IH]; [by intros ?%elem_of_nil|]. rewrite fmap_cons. simpl.
  intros [->|Hk]%elem_of_cons; [lia|]. specialize (IH Hk). lia.
Qed.

Lemma queues_fresh_None {A} (q : Queues A) : q_unread q !! queues_fresh q = None.
Proof.
  destruct (q_unread q !! queues_fresh q) as [l|] eqn:E; [exfalso|done].
  apply elem_of_map_to_list, (list_elem_of_fmap_2 fst), foldr_max_above in E.
  change (queues_fresh q < queues_fresh q) in E. lia.
Qed.

Program Definition queues : Broadcast := {|
  sender := Queues;
  receiver := nat;
  capacity := λ A, q_capacity;
  unread := λ A q r, q_unread q !! r;
  broadcast_channel := λ A n, mkQueues n 0 ∅;
  broadcast_subscribe := λ A q, let r := queues_fresh q in
    (r, mkQueues (q_capacity q) (S r) (<[r := []]> (q_unread q)));
  broadcast_send := λ A a q,
    mkQueues (q_capacity q) (q_next q) ((λ l, lastn (q_capacity q) (l ++ [a])) <$> q_unread q);
  broadcast_recv := λ A r q,
    (q_unread q !! r ≫= head, mkQueues (q_capacity q) (q_next q) (alter tail r (q_unread q)))
|}.
Next Obligation. done. Qed.
Next Obligation. done. Qed.
Next Obligation. done. Qed.
Next Obligation. done. Qed.
Next Obligation. intros A n r. apply lookup_empty. Qed.
Next Obligation.
  intros A q q' r [= <- <-]. simpl.
  split_and!; [apply queues_fresh_None|apply lookup_insert_eq|]. intros. by rewrite lookup_insert_ne.
Qed.
Next Obligation. intros A a q r. simpl. apply lookup_fmap. Qed.
Next Obligation.
  intros A r q q' o [= <- <-]. simpl. split_and!; [done|apply lookup_alter_eq|].
  intros. by rewrite lookup_alter_ne.
Qed.
