(* ===== verification/Channels.v ===== *)
(** * Channels ([marie-core/src/session/channel.rs])

    A frame's channels map names to JSON values; contributions to a channel
    are combined by the channel's reducer; a run reads and writes through a
    tracker that records its updates. *)

From S2P Require Import Prelude Ids Json.

Notation ChannelName := string (only parsing).

Inductive Reducer := LastWriteWins | Append | Max.

Global Instance Reducer_eq_dec : EqDecision Reducer.
Proof. solve_decision. Defined.

Record ChannelSpec := mkChannelSpec { cs_name : ChannelName; cs_reducer : Reducer }.

Global Instance ChannelSpec_eq_dec : EqDecision ChannelSpec.
Proof. solve_decision. Defined.

(** [best.map_or(n, |b| b.max(n))], over the contributions that are numbers. *)
Definition max_step `{F64} (best : option Z) (c : Value) : option Z :=
  match as_f64 c with
  | Some n => Some (match best with None => n | Some b => f64_max b n end)
  | None => best
  end.

(** [Reducer::reduce] *)
Definition reduce `{F64} (r : Reducer) (current : option Value) (contributions : list Value)
    : Value :=
  match r with
  | LastWriteWins =>
      match last contributions with
      | Some v => v
      | None => default Null current
      end
  | Append =>
      let vec := match current with Some (Array vec) => vec | _ => [] end in
      Array (vec ++ contributions)
  | Max =>
      match foldl max_step (current ≫= as_f64) contributions with
      | Some n => json_of_f64 n
      | None => Null
      end
  end.

Record ChannelUpdate := mkChannelUpdate {
  cu_name : ChannelName;
  cu_value : Value;
  contributor : FrameId
}.

Notation Channels := (gmap string Value) (only parsing).

(** [Channels::get], [Channels::write], [Channels::extend]. *)
Definition channels_get (c : Channels) (name : ChannelName) : option Value := c !! name.
Definition channels_write (c : Channels) (name : ChannelName) (v : Value) : Channels :=
  <[name := v]> c.
Definition channels_extend (c : Channels) (l : list (ChannelName * Value)) : Channels :=
  foldl (λ c p, <[p.1 := p.2]> c) c l.

(** ** The tracker of a run *)

Record ChannelsTracker := mkTracker {
  t_frame_id : FrameId;
  t_channels : Channels;
  t_updates : list ChannelUpdate
}.

Definition tracker_new (f : FrameId) (c : Channels) : ChannelsTracker := mkTracker f c [].

Definition into_updates (t : ChannelsTracker) : list ChannelUpdate := t_updates t.

Definition tracker_write (t : ChannelsTracker) (name : ChannelName) (v : Value)
    : ChannelsTracker :=
  mkTracker (t_frame_id t) (t_channels t)
    (t_updates t ++ [mkChannelUpdate name v (t_frame_id t)]).

Inductive ChannelError := NoChannel (name : ChannelName) | BadValue (v : Value).

(** [ChannelsTracker::read]: the run's own last write, else the inherited
    value.  Deserialisation into [V] is [serde]'s. *)
Definition read_value (t : ChannelsTracker) (name : ChannelName) : Res ChannelError Value :=
  match snd <$> list_find (λ u, cu_name u = name) (reverse (t_updates t)) with
  | Some u => Ok (cu_value u)
  | None => of_option (NoChannel name) (channels_get (t_channels t) name)
  end.

Definition tracker_read {V} (from_value : Value → option V)
    (t : ChannelsTracker) (name : ChannelName) : Res ChannelError V :=
  v ← read_value t name; of_option (BadValue v) (from_value v).

(** ** Lemmas *)

Lemma last_app_ne {A} (l1 l2 : list A) : l2 ≠ [] → last (l1 ++ l2) = last l2.
Proof.
  intros H. destruct (last_is_Some l2) as [_ Hs].
  rewrite last_app. destruct (Hs H) as [x ->]. done.
Qed.

Lemma max_fold_finite `{F64} l best :
  (∀ b, best = Some b → f64_finite b = true) → Forall number_wf l →
  ∀ b, foldl max_step best l = Some b → f64_finite b = true.
Proof.
  intros Hb Hl. revert best Hb. induction Hl as [|c l Hc Hl IH]; intros best Hb b; simpl; [apply Hb|].
  apply IH. intros b'. unfold max_step. destruct (as_f64 c) as [n|] eqn:E; [|apply Hb].
  pose proof (as_f64_finite _ _ Hc E). destruct best as [b0|]; intros [= <-]; [|done].
  destruct (f64_max_choice b0 n) as [-> | ->]; auto.
Qed.

Lemma foldl_app {A B} (f : A → B → A) l1 l2 a : foldl f a (l1 ++ l2) = foldl f (foldl f a l1) l2.
Proof. revert a. induction l1; simpl; auto. Qed.

(** The running maximum is recovered from the value it was stored as. *)
Lemma json_best_as_f64 `{F64} best :
  (∀ b, best = Some b → f64_finite b = true) →
  as_f64 (match best with Some n => json_of_f64 n | None => Null end) = best.
Proof.
  intros Hb. destruct best as [b|]; [|done].
  unfold json_of_f64. rewrite (Hb b eq_refl). done.
Qed.

(** C14: committing two batches of contributions to a channel one after the
    other leaves the value that committing them in one batch does, whatever
    the reducer. *)
Theorem reduce_batches `{F64} r current l1 l2 :
  (∀ v, current = Some v → number_wf v) → Forall number_wf l1 →
  reduce r (Some (reduce r current l1)) l2 = reduce r current (l1 ++ l2).
Proof.
  intros Hc Hl1. destruct r; simpl.
  - destruct (decide (l2 = [])) as [->|H2].
    + by rewrite app_nil_r.
    + rewrite last_app_ne by done.
      destruct (proj2 (last_is_Some l2) H2) as [x ->]. done.
  - by rewrite app_assoc.
  - rewrite foldl_app. rewrite json_best_as_f64; [done|].
    apply max_fold_finite; [|done]. intros b (v&->&Hv)%bind_Some.
    eapply as_f64_finite; eauto.
Qed.

Lemma reduce_batches_witness :
  @reduce f64_int Append (Some (@reduce f64_int Append (Some Null) [Str "a"])) [Str "b"]
  = Array [Str "a"; Str "b"].
Proof.
  apply (@reduce_batches f64_int Append (Some Null) [Str "a"] [Str "b"]).
  - intros v [= <-]. exact I.
  - by repeat constructor.
Defined.

(** A single contribution is not always the reduced value: the comment of
    [commit_snapshot] says every reducer then returns it. *)
Lemma reduce_single_append `{F64} v c :
  reduce Append (Some (Array [v])) [c] = Array [v; c].
Proof. done. Qed.

(** A run reads back its own last write to a channel; other channels read
    as before the write. *)
Theorem read_after_write t name v name' :
  read_value (tracker_write t name v) name' =
  if decide (name = name') then Ok v else read_value t name'.
Proof.
  unfold read_value, tracker_write. cbn [t_updates t_channels].
  rewrite reverse_snoc. cbn [list_find cu_name].
  destruct (decide (name = name')) as [|Hne]; [done|].
  by destruct (list_find _ (reverse (t_updates t))) as [[i u]|].
Qed.

Lemma into_updates_write t name v :
  into_updates (tracker_write t name v) =
  into_updates t ++ [mkChannelUpdate name v (t_frame_id t)].
Proof. done. Qed.

Lemma channels_extend_lookup c l name v :
  channels_extend c l !! name = Some v →
  c !! name = Some v ∨ (name, v) ∈ l.
Proof.
  revert c. induction l as [|[k w] l IH]; intros c; simpl; [auto|].
  intros [H|H]%IH; [|right; by right].
  destruct (decide (k = name)) as [->|]; simplify_map_eq; [right; left|]; auto.
Qed.

Lemma channels_extend_notin c l name :
  name ∉ l.*1 → channels_extend c l !! name = c !! name.
Proof.
  revert c. induction l as [|[k w] l IH]; intros c; simpl; [done|].
  intros [Hk Hl]%not_elem_of_cons. rewrite IH by done. by rewrite lookup_insert_ne.
Qed.

Lemma channels_extend_some c l name v :
  NoDup l.*1 → (name, v) ∈ l → channels_extend c l !! name = Some v.
Proof.
  revert c. induction l as [|[k w] l IH]; intros c; simpl; [by intros _ ?%elem_of_nil|].
  intros [Hk Hl]%NoDup_cons [[= -> ->]|Hin]%elem_of_cons; [|auto].
  fold (channels_extend (<[k:=w]> c) l). rewrite channels_extend_notin by done.
  by simplify_map_eq.
Qed.
