(* ===== verification/Types.v ===== *)
(** * Shared data types

    The requests, references and identifiers that the session, graph, human
    in the loop and worker components exchange: [hitl/mod.rs],
    [hitl/model.rs], [hitl/protocol.rs], [expert], [tools], [graph],
    [catalog], [node.rs] and [job]. *)

From S2P Require Import Prelude Ids Json.

(** ** Nodes of the network, as the bytes of their peer id *)

Record NodeId := mkNodeId { node_bytes : list Z }.
Global Instance NodeId_eq_dec : EqDecision NodeId. Proof. solve_decision. Defined.
Global Instance NodeId_countable : Countable NodeId.
Proof. solve_newtype mkNodeId node_bytes. Defined.

(** [impl Default for NodeId] *)
Definition NodeId_default : NodeId := mkNodeId [].

(** ** Catalogue references *)

Record CatalogItemRef := mkRef { ref_kind : string; ref_id : string; ref_version : Z }.
Global Instance CatalogItemRef_eq_dec : EqDecision CatalogItemRef.
Proof. solve_decision. Defined.

Notation GraphId := string (only parsing).
Notation GraphNodeId := string (only parsing).
Notation NodeKindId := string (only parsing).
Notation ExpertId := string (only parsing).
Notation ModelId := string (only parsing).
Notation ToolId := string (only parsing).

Record GraphRef := mkGraphRef { catalog_ref : CatalogItemRef }.
Global Instance GraphRef_eq_dec : EqDecision GraphRef. Proof. solve_decision. Defined.

(** ** Human in the loop *)

Inductive QuestionKind :=
  | ShortText
  | LongText
  | Select (options : list string)
  | Radio (options : list string)
  | Checkboxes (options : list string)
  | FileUpload (accept : list string).

Record Question := mkQuestion { q_key : string; q_label : string; q_kind : QuestionKind }.

Inductive Answer := Single (s : string) | Multiple (l : list string).

Notation Answers := (gmap string Answer) (only parsing).

Inductive Hitl := Questions (qs : list Question) | Text.

Record HitlFrame := mkHitlFrame {
  hf_session_id : SessionId; hf_id : HitlId; hf_hitl : Hitl; hf_answer : option Answers }.

Record HitlRequest := mkHitlRequest {
  hreq_session_id : SessionId; hreq_id : HitlId; hreq_hitl : Hitl }.

Record HitlResponse := mkHitlResponse {
  hres_session_id : SessionId; hres_id : HitlId; hres_answers : Answers }.

Record PendingHitl := mkPendingHitl {
  ph_session_id : SessionId; ph_id : HitlId; ph_hitl : Hitl }.

(** ** Requests an execution can make *)

Record RequestAskExpert := mkRequestAskExpert { ra_task : string; ra_expert_id : ExpertId }.
Record RequestToolCall := mkRequestToolCall { rt_name : string; rt_parameters : Value }.

Inductive ShellMode :=
  | LoopModel (system_prompt : string) (model_id : ModelId) (allowed_tools : list ToolId)
  | ExpertShell (e : ExpertId).

(** ** Jobs ([marie-core/src/job/mod.rs], [worker/mod.rs]) *)

Record JobInstance := mkJobInstance { ji_id : JobId; ji_name : string; ji_args : Value }.

Inductive WorkerError :=
  | NoJobExecutorFound (name : string)
  | NoJobFound (id : JobId)
  | Panicked (msg : string)
  | ExecutionError (e : string)
  | NoWorkerAvailable
  | ProbingTimeOut
  | AckTimeOut
  | ScheduledError (msg : string)
  | RpcErr (msg : string)
  | SerdeError (msg : string).

Inductive JobState (R : Type) :=
  | Unknown
  | PendingScheduling (instance : JobInstance) (worker : NodeId)
  | PendingAck (worker : NodeId)
  | Probing (worker : NodeId)
  | Scheduled (worker : NodeId)
  | Running (worker : NodeId)
  | Completed (r : R)
  | Failed (error : WorkerError).

Arguments Unknown {R}.
Arguments PendingScheduling {R}.
Arguments PendingAck {R}.
Arguments Probing {R}.
Arguments Scheduled {R}.
Arguments Running {R}.
Arguments Completed {R}.
Arguments Failed {R}.

(** [JobState::has_terminated], [is_probing], [is_pending_ack]. *)
Definition has_terminated {R} (s : JobState R) : bool :=
  match s with Completed _ | Failed _ => true | _ => false end.
Definition is_probing {R} (s : JobState R) : bool :=
  match s with Probing _ => true | _ => false end.
Definition is_pending_ack {R} (s : JobState R) : bool :=
  match s with PendingAck _ => true | _ => false end.

(** [JobState::deserialize]: only a result is decoded; [from_value] is
    [serde]'s decoder, with its message on failure. *)
Definition job_state_deserialize {R} (from_value : Value → R + string)
    (s : JobState Value) : Res WorkerError (JobState R) :=
  match s with
  | Unknown => Ok Unknown
  | PendingScheduling i w => Ok (PendingScheduling i w)
  | PendingAck w => Ok (PendingAck w)
  | Probing w => Ok (Probing w)
  | Scheduled w => Ok (Scheduled w)
  | Running w => Ok (Running w)
  | Completed v =>
      match from_value v with
      | inl r => Ok (Completed r)
      | inr msg => Err (SerdeError msg)
      end
  | Failed e => Ok (Failed e)
  end.
