(* ===== verification/Network.v ===== *)
(** * The network of a node ([network/mod.rs], [network/protocol.rs],
    [network/swarm.rs], [node.rs])

    An actor owns the libp2p swarm: it executes the commands of the node and
    broadcasts what the swarm reports.  libp2p is third-party code: its calls
    are a log of what is asked of it, its events are inputs of the steps, and
    the format of a peer id is a parameter. *)

From S2P Require Import Prelude Types Broadcast.

(** [PeerId::to_bytes] and [PeerId::from_bytes]; no peer id is empty. *)
Class PeerIds := {
  PeerId : Type;
  peer_to_bytes : PeerId → list Z;
  peer_from_bytes : list Z → option PeerId;
  peer_from_to_bytes : ∀ p, peer_from_bytes (peer_to_bytes p) = Some p;
  peer_from_empty : peer_from_bytes [] = None
}.

(** [impl From<PeerId> for NodeId], and the converse, which panics. *)
Definition node_of_peer `{PeerIds} (p : PeerId) : NodeId := mkNodeId (peer_to_bytes p).
Definition peer_of_node `{PeerIds} {E} (n : NodeId) : Res E PeerId :=
  unwrap (peer_from_bytes (node_bytes n)).

(** [Listen] and its reply channel are the caller's wait for the swarm to be
    started, which nothing else depends on. *)
Inductive NetworkCommand :=
  | Listen
  | Send (data : list Z) (destination : NodeId)
  | Subscribe (topic : string)
  | Unsubscribe (topic : string)
  | Publish (topic : string) (payload : list Z)
  | Shutdown.

Inductive NetworkEvent `{PeerIds} :=
  | ReceivedMessage (message : list Z) (source : NodeId)
  | BootstrapDiscovered (peer : PeerId)
  | NodeDisconnected (node : NodeId)
  | NodeConnected (node : NodeId)
  | EventReceived (id topic : string) (data : list Z) (source : PeerId).

(** What the actor asks of the swarm. *)
Inductive SwarmCall `{PeerIds} :=
  | ListenOn
  | SendRequest (p : PeerId) (data : list Z)
  | GossipSubscribe (topic : string)
  | GossipUnsubscribe (topic : string)
  | GossipPublish (topic : string) (payload : list Z)
  | Dial (p : PeerId).

(** What the swarm reports; a discovered peer comes with whether it is
    connected already. *)
Inductive SwarmEvent `{PeerIds} :=
  | OnewayRequest (peer : PeerId) (message : list Z)
  | GossipMessage (source : PeerId) (id topic : string) (data : list Z)
  | MdnsDiscovered (peers : list (PeerId * bool))
  | MdnsExpired (peers : list PeerId)
  | IdentifyReceived (peer : PeerId) (agent_version : string)
  | ConnectionClosed (peer : PeerId) (num_established : Z)
  | ConnectionEstablished (peer : PeerId) (num_established : Z)
  | OtherSwarmEvent.

Inductive Phase := ActorRunning | ActorShutdown | ActorFailed | ActorPanicked.

Definition NETWORK_EVENTS_CAPACITY : nat := 1024.

Section network.
Context `{PeerIds} `{Broadcast}.

(** The actor of [SwarmNetwork], its queue of commands and its event channel. *)
Record Network := mkNetwork {
  nw_local_id : PeerId;
  nw_phase : Phase;
  nw_commands : list NetworkCommand;
  nw_calls : list SwarmCall;
  nw_events : sender NetworkEvent }.

Definition network_new (local : PeerId) : Network :=
  mkNetwork local ActorRunning [] [] (broadcast_channel NETWORK_EVENTS_CAPACITY).

(** [NetworkStrategy::execute]: the channel of commands is unbounded. *)
Definition execute (c : NetworkCommand) (n : Network) : Network :=
  mkNetwork (nw_local_id n) (nw_phase n) (nw_commands n ++ [c]) (nw_calls n) (nw_events n).

Definition send_message (data : list Z) (to : NodeId) : Network → Network := execute (Send data to).
Definition network_subscribe (topic : string) : Network → Network := execute (Subscribe topic).
Definition network_unsubscribe (topic : string) : Network → Network := execute (Unsubscribe topic).

Definition set_phase (p : Phase) (n : Network) : Network :=
  mkNetwork (nw_local_id n) p (nw_commands n) (nw_calls n) (nw_events n).
Definition swarm_call (c : SwarmCall) (n : Network) : Network :=
  mkNetwork (nw_local_id n) (nw_phase n) (nw_commands n) (nw_calls n ++ [c]) (nw_events n).
Definition broadcast_event (e : NetworkEvent) (n : Network) : Network :=
  mkNetwork (nw_local_id n) (nw_phase n) (nw_commands n) (nw_calls n) (broadcast_send e (nw_events n)).

(** The branch of a command; [listening] is whether the swarm could listen. *)
Definition on_command (listening : bool) (c : NetworkCommand) (n : Network) : Network :=
  match c with
  | Listen => if listening then swarm_call ListenOn n else set_phase ActorFailed n
  | Send data destination =>
      match peer_of_node (E:=Empty_set) destination with
      | Ok dest => swarm_call (SendRequest dest data) n
      | _ => set_phase ActorPanicked n
      end
  | Subscribe topic => swarm_call (GossipSubscribe topic) n
  | Unsubscribe topic => swarm_call (GossipUnsubscribe topic) n
  | Publish topic payload => swarm_call (GossipPublish topic payload) n
  | Shutdown => set_phase ActorShutdown n
  end.

(** The branch of a swarm event. *)
Definition on_swarm_event (e : SwarmEvent) (n : Network) : Network :=
  match e with
  | OnewayRequest peer message => broadcast_event (ReceivedMessage message (node_of_peer peer)) n
  | GossipMessage source id topic data => broadcast_event (EventReceived id topic data source) n
  | MdnsDiscovered peers =>
      foldl (λ n p, swarm_call (Dial p.1) n) n (filter (λ p, p.2 = false) peers)
  | MdnsExpired peers =>
      foldl (λ n p, broadcast_event (NodeDisconnected (node_of_peer p)) n) n peers
  | IdentifyReceived peer agent_version =>
      if String.prefix "/marie/bootstrap" agent_version
      then broadcast_event (BootstrapDiscovered peer) n else n
  | ConnectionClosed peer num_established =>
      if (num_established =? 0)%Z then broadcast_event (NodeDisconnected (node_of_peer peer)) n else n
  | ConnectionEstablished peer num_established =>
      if (num_established =? 1)%Z then broadcast_event (NodeConnected (node_of_peer peer)) n else n
  | OtherSwarmEvent => n
  end.

(** One turn of the loop: the next command, or an event of the swarm. *)
Inductive Turn := TurnCommand (listening : bool) | TurnSwarm (e : SwarmEvent).

Definition network_turn (t : Turn) (n : Network) : Network :=
  match nw_phase n with
  | ActorRunning =>
      match t with
      | TurnCommand listening =>
          match nw_commands n with
          | [] => n
          | c :: cs =>
              on_command listening c
                (mkNetwork (nw_local_id n) (nw_phase n) cs (nw_calls n) (nw_events n))
          end
      | TurnSwarm e => on_swarm_event e n
      end
  | _ => n
  end.

Definition network_run (ts : list Turn) (n : Network) : Network := foldl (λ n t, network_turn t n) n ts.

(** ** Lemmas *)

Lemma network_run_stopped ts n : nw_phase n ≠ ActorRunning → network_run ts n = n.
Proof.
  intros Hn. induction ts as [|t ts IH]; [done|]. simpl.
  assert (network_turn t n = n) as ->; [|done]. unfold network_turn. by destruct (nw_phase n).
Qed.

(** The actor runs, and its next command is addressed to no peer. *)
Lemma bad_destination_panics listening data dest cs n :
  nw_phase n = ActorRunning → nw_commands n = Send data dest :: cs →
  peer_from_bytes (node_bytes dest) = None →
  nw_phase (network_turn (TurnCommand listening) n) = ActorPanicked ∧
  nw_calls (network_turn (TurnCommand listening) n) = nw_calls n.
Proof.
  intros Hp Hc Hd. unfold network_turn. rewrite Hp, Hc. simpl.
  unfold peer_of_node. by rewrite Hd.
Qed.
End network.

(** Sending to an identifier that is no peer's, such as the default one,
    stops the actor for good: no later command is ever executed. *)
Theorem bad_destination_stops_network `{PeerIds} `{Broadcast} (listening : bool) (data : list Z)
    (dest : NodeId) (cs : list NetworkCommand) (n : Network) (ts : list Turn) :
  nw_phase n = ActorRunning → nw_commands n = Send data dest :: cs →
  peer_from_bytes (node_bytes dest) = None →
  let n' := network_run (TurnCommand listening :: ts) n in
  nw_phase n' = ActorPanicked ∧ nw_calls n' = nw_calls n ∧ nw_commands n' = cs.
Proof.
  intros Hp Hc Hd n'. subst n'. simpl.
  destruct (bad_destination_panics listening data dest cs n Hp Hc Hd) as [Hph Hcalls].
  unfold network_run. simpl. change (foldl _ ?x ts) with (network_run ts x).
  rewrite network_run_stopped by (rewrite Hph; done). split_and!; [done..|].
  unfold network_turn. rewrite Hp, Hc. simpl. unfold peer_of_node. by rewrite Hd.
Qed.

(** Peer ids as non-empty byte strings, for the examples. *)
Definition byte_peers : PeerIds := {|
  PeerId := Z * list Z;
  peer_to_bytes := λ p, p.1 :: p.2;
  peer_from_bytes := λ l, match l with [] => None | b :: l => Some (b, l) end;
  peer_from_to_bytes := λ p, match p with (_, _) => eq_refl end;
  peer_from_empty := eq_refl |}.
