(* ===== verification/Spec.v ===== *)
(** * Frame specifications ([marie-core/src/session/spec.rs])

    A [CommonSpec] declares a frame's channels, which of them it inherits,
    exports and imports, and their default values.  The [core_spec!] macro
    ([marie-macros/src/lib.rs]) is the function from the declared channels to
    that record. *)

From S2P Require Import Prelude Json Channels.

Record Budget := mkBudget { max_step : option Z; max_tokens : option Z }.
Definition budget_default : Budget := mkBudget None None.

Record CommonSpec := mkCommonSpec {
  budget : Budget;
  spec_channels : list ChannelSpec;
  inherited_channels : list ChannelName;
  exported_channels : list ChannelName;
  imported_channels : list ChannelName;
  default_values : Channels;
  overrides_channels : Channels
}.

Definition spec_default : CommonSpec := mkCommonSpec budget_default [] [] [] [] ∅ ∅.

(** ** The macro *)

Record SpecChannel := mkSpecChannel {
  sc_name : ChannelName;
  sc_reducer : Reducer;
  sc_inherited : bool;
  sc_exported : bool;
  sc_imported : bool;
  sc_default : option Value;
  sc_overrides : option Value
}.

Definition chan (name : ChannelName) (r : Reducer) : SpecChannel :=
  mkSpecChannel name r false false false None None.

Definition names_where (p : SpecChannel → bool) (cs : list SpecChannel) : list ChannelName :=
  sc_name <$> filter (λ c, p c = true) cs.

Definition values_where (p : SpecChannel → option Value) (cs : list SpecChannel)
    : list (ChannelName * Value) :=
  omap (λ c, (λ v, (sc_name c, v)) <$> p c) cs.

(** [build_common_spec]; a [HashMap::from] keeps the last value of a name. *)
Definition build_common_spec (b : option Budget) (cs : list SpecChannel) : CommonSpec := {|
  budget := default budget_default b;
  spec_channels := (λ c, mkChannelSpec (sc_name c) (sc_reducer c)) <$> cs;
  inherited_channels := names_where sc_inherited cs;
  exported_channels := names_where sc_exported cs;
  imported_channels := names_where sc_imported cs;
  default_values := channels_extend ∅ (values_where sc_default cs);
  overrides_channels := channels_extend ∅ (values_where sc_overrides cs)
|}.

(** [CommonSpec::overrides] *)
Definition overrides (s : CommonSpec) (name : ChannelName) (v : Value) : CommonSpec :=
  mkCommonSpec (budget s) (spec_channels s) (inherited_channels s) (exported_channels s)
    (imported_channels s) (default_values s) (<[name := v]> (overrides_channels s)).

(** ** The built-in specifications *)

Definition spec_shell : CommonSpec := build_common_spec None [
  mkSpecChannel "tool_result" LastWriteWins false false true None None;
  mkSpecChannel "expert_answer" LastWriteWins false false true None None;
  mkSpecChannel "hitl_answer" LastWriteWins false false true None None].

Definition spec_graph : CommonSpec := build_common_spec None [
  mkSpecChannel "graph_result" LastWriteWins false true false None None].

Definition spec_tool : CommonSpec := build_common_spec None [
  mkSpecChannel "tool_result" LastWriteWins false true false None None].

Definition spec_tool_aggregator : CommonSpec := build_common_spec None [
  mkSpecChannel "tool_result" Append false true true None None].

(** An empty [Context] and an empty [Vec<Value>] serialise as []. *)
Definition spec_expert : CommonSpec := build_common_spec None [
  mkSpecChannel "expert_task" LastWriteWins true false false None None;
  mkSpecChannel "expert_answer" LastWriteWins false true true None None;
  mkSpecChannel "expert_context" LastWriteWins false false false (Some (Array [])) None;
  mkSpecChannel "tool_result" LastWriteWins true false true (Some (Array [])) None].

Definition spec_expert_aggregator : CommonSpec := build_common_spec None [
  mkSpecChannel "expert_task" LastWriteWins true false false None None;
  mkSpecChannel "expert_answer" Append true true true None None].

Definition spec_hitl : CommonSpec :=
  mkCommonSpec budget_default [mkChannelSpec "hitl_answer" LastWriteWins]
    [] ["hitl_answer"] [] ∅ ∅.

(** ** Merging *)

(** [union]: appends the names of [b] that are not there yet. *)
Definition union (a b : list ChannelName) : list ChannelName :=
  foldl (λ a name, if decide (name ∈ a) then a else a ++ [name]) a b.

(** Replaces the first channel of the same name, or pushes. *)
Fixpoint upsert_channel (channels : list ChannelSpec) (c : ChannelSpec) : list ChannelSpec :=
  match channels with
  | [] => [c]
  | c' :: cs =>
      if decide (cs_name c' = cs_name c) then c :: cs else c' :: upsert_channel cs c
  end.

Definition opt_or {A} (a b : option A) : option A :=
  match a with Some _ => a | None => b end.

(** [CommonSpec::merge]; [HashMap::extend] overwrites. *)
Definition merge (a b : CommonSpec) : CommonSpec := {|
  budget := mkBudget (opt_or (max_step (budget b)) (max_step (budget a)))
                     (opt_or (max_tokens (budget b)) (max_tokens (budget a)));
  spec_channels := foldl upsert_channel (spec_channels a) (spec_channels b);
  inherited_channels := union (inherited_channels a) (inherited_channels b);
  exported_channels := union (exported_channels a) (exported_channels b);
  imported_channels := union (imported_channels a) (imported_channels b);
  default_values := default_values b ∪ default_values a;
  overrides_channels := overrides_channels b ∪ overrides_channels a
|}.

(** The reducer a frame uses for a channel: the declared one of the first
    channel of that name. *)
Fixpoint find_channel (channels : list ChannelSpec) (name : ChannelName) : option ChannelSpec :=
  match channels with
  | [] => None
  | c :: cs => if decide (cs_name c = name) then Some c else find_channel cs name
  end.

Definition reducer_of (s : CommonSpec) (name : ChannelName) : Reducer :=
  match find_channel (spec_channels s) name with
  | Some c => cs_reducer c
  | None => LastWriteWins
  end.

(** ** Lemmas *)

Lemma elem_of_name_union a b x : x ∈ union a b ↔ x ∈ a ∨ x ∈ b.
Proof.
  unfold union. revert a. induction b as [|y b IH]; intros a; simpl; [set_solver|].
  rewrite IH. case_decide; set_solver.
Qed.

Lemma union_NoDup a b : NoDup a → NoDup (union a b).
Proof.
  unfold union. revert a. induction b as [|y b IH]; intros a Ha; simpl; [done|].
  apply IH. case_decide; [done|]. apply NoDup_app; split; [done|].
  split; [set_solver|]. apply NoDup_singleton.
Qed.

Lemma union_prefix a b : a `prefix_of` union a b.
Proof.
  unfold union. revert a. induction b as [|y b IH]; intros a; simpl; [done|].
  etrans; [|apply IH]. case_decide; [done|]. by eexists.
Qed.

Lemma find_upsert cs c name :
  find_channel (upsert_channel cs c) name =
  if decide (cs_name c = name) then Some c else find_channel cs name.
Proof.
  induction cs as [|c' cs IH]; simpl; [done|].
  destruct (decide (cs_name c' = cs_name c)) as [E|E]; simpl.
  - rewrite E. by destruct (decide (cs_name c = name)).
  - rewrite IH. destruct (decide (cs_name c' = name)) as [<-|]; [|done].
    by rewrite decide_False by congruence.
Qed.

Lemma upsert_names cs c :
  cs_name <$> upsert_channel cs c =
  if decide (cs_name c ∈ cs_name <$> cs) then cs_name <$> cs
  else (cs_name <$> cs) ++ [cs_name c].
Proof.
  induction cs as [|c' cs IH]; csimpl; [done|].
  destruct (decide (cs_name c' = cs_name c)) as [E|E]; csimpl.
  - rewrite E, decide_True; [done|left].
  - rewrite IH. destruct (decide (cs_name c ∈ cs_name <$> cs)).
    + rewrite decide_True; [done|by right].
    + rewrite decide_False; [done|]. by intros [|]%elem_of_cons.
Qed.

Lemma find_channel_app l1 l2 name :
  find_channel (l1 ++ l2) name =
  opt_or (find_channel l1 name) (find_channel l2 name).
Proof. induction l1 as [|c l1 IH]; simpl; [done|]. by case_decide. Qed.

Lemma find_merged a b name :
  find_channel (foldl upsert_channel a b) name =
  opt_or (find_channel (reverse b) name) (find_channel a name).
Proof.
  revert a. induction b as [|c b IH]; intros a; simpl; [done|].
  rewrite IH, reverse_cons, find_channel_app, find_upsert. simpl.
  destruct (find_channel (reverse b) name); simpl; [done|].
  by case_decide.
Qed.

Lemma merged_names a b :
  cs_name <$> foldl upsert_channel a b = union (cs_name <$> a) (cs_name <$> b).
Proof.
  revert a. induction b as [|c b IH]; intros a; simpl; [done|].
  rewrite IH, upsert_names. unfold union. csimpl. by case_decide.
Qed.

Lemma lookup_union_or (m1 m2 : Channels) n : (m1 ∪ m2) !! n = opt_or (m1 !! n) (m2 !! n).
Proof. rewrite lookup_union. by destruct (m1 !! n), (m2 !! n). Qed.

(** Merging applies the second specification over the first: the
    declaration of a channel, a default, an override or a budget limit comes
    from it when it has one, the channel lists are joined, and no channel is
    declared twice if the first specification declared none twice. *)
Theorem merge_spec (a b : CommonSpec) :
  (∀ name, find_channel (spec_channels (merge a b)) name =
           opt_or (find_channel (reverse (spec_channels b)) name)
                  (find_channel (spec_channels a) name)) ∧
  (∀ name, default_values (merge a b) !! name =
           opt_or (default_values b !! name) (default_values a !! name)) ∧
  (∀ name, overrides_channels (merge a b) !! name =
           opt_or (overrides_channels b !! name) (overrides_channels a !! name)) ∧
  (∀ name, name ∈ imported_channels (merge a b) ↔
           name ∈ imported_channels a ∨ name ∈ imported_channels b) ∧
  (∀ name, name ∈ inherited_channels (merge a b) ↔
           name ∈ inherited_channels a ∨ name ∈ inherited_channels b) ∧
  (∀ name, name ∈ exported_channels (merge a b) ↔
           name ∈ exported_channels a ∨ name ∈ exported_channels b) ∧
  (NoDup (cs_name <$> spec_channels a) → NoDup (cs_name <$> spec_channels (merge a b))).
Proof.
  split_and!; try (intros; apply elem_of_name_union).
  - intros name. apply find_merged.
  - intros name. apply lookup_union_or.
  - intros name. apply lookup_union_or.
  - intros Ha. simpl. rewrite merged_names. by apply union_NoDup.
Qed.

(** Two specifications a frame cannot tell apart: the same limits, the same
    declaration for each channel name, the same values, the same channel sets. *)
Record spec_equiv (a b : CommonSpec) : Prop := {
  se_budget : budget a = budget b;
  se_channel : ∀ n, find_channel (spec_channels a) n = find_channel (spec_channels b) n;
  se_inherited : ∀ n, n ∈ inherited_channels a ↔ n ∈ inherited_channels b;
  se_exported : ∀ n, n ∈ exported_channels a ↔ n ∈ exported_channels b;
  se_imported : ∀ n, n ∈ imported_channels a ↔ n ∈ imported_channels b;
  se_defaults : default_values a = default_values b;
  se_overrides : overrides_channels a = overrides_channels b
}.

Global Instance spec_equiv_equivalence : Equivalence spec_equiv.
Proof.
  split.
  - intros a. by split.
  - intros a b []. split; naive_solver.
  - intros a b c [] []. split; try congruence; naive_solver.
Qed.

Lemma find_channel_None l n : n ∉ cs_name <$> l → find_channel l n = None.
Proof.
  induction l as [|c l IH]; csimpl; [done|]. intros [Hc Hl]%not_elem_of_cons.
  rewrite decide_False by done. auto.
Qed.

Lemma find_channel_reverse l n :
  NoDup (cs_name <$> l) → find_channel (reverse l) n = find_channel l n.
Proof.
  induction l as [|c l IH]; csimpl; [done|]. intros [Hc Hl]%NoDup_cons.
  rewrite reverse_cons, find_channel_app, IH by done. simpl.
  case_decide as E; [|by destruct (find_channel l n)].
  subst. by rewrite find_channel_None.
Qed.

Lemma opt_or_assoc {A} (a b c : option A) : opt_or (opt_or a b) c = opt_or a (opt_or b c).
Proof. by destruct a. Qed.

(** The name lists of an equivalent specification may differ in order only:
    what a frame inherits is the same set. *)
Global Instance merge_proper_l b :
  Proper (spec_equiv ==> spec_equiv) (λ a, merge a b).
Proof.
  intros a a' [Hb Hc Hi He Hm Hd Ho]. split; simpl.
  - by rewrite Hb.
  - intros n. by rewrite !find_merged, Hc.
  - intros n. by rewrite !elem_of_name_union, Hi.
  - intros n. by rewrite !elem_of_name_union, He.
  - intros n. by rewrite !elem_of_name_union, Hm.
  - by rewrite Hd.
  - by rewrite Ho.
Qed.

(** C15: merging specifications is associative, up to the order of the channel
    lists, when the middle one declares each channel once; and where both of
    two specifications declare a channel or a limit, the one merged in wins. *)
Theorem merge_assoc (a b c : CommonSpec) :
  NoDup (cs_name <$> spec_channels b) →
  spec_equiv (merge (merge a b) c) (merge a (merge b c)) ∧
  (∀ n, find_channel (spec_channels (merge a b)) n =
        opt_or (find_channel (spec_channels b) n) (find_channel (spec_channels a) n)) ∧
  max_step (budget (merge a b)) = opt_or (max_step (budget b)) (max_step (budget a)) ∧
  max_tokens (budget (merge a b)) = opt_or (max_tokens (budget b)) (max_tokens (budget a)).
Proof.
  intros Hb. split; [split; simpl|].
  - f_equal; symmetry; apply opt_or_assoc.
  - intros n. rewrite !find_merged.
    rewrite (find_channel_reverse (foldl upsert_channel _ _)).
    2: { rewrite merged_names. by apply union_NoDup. }
    by rewrite find_merged, opt_or_assoc, (find_channel_reverse (spec_channels b)).
  - intros n. rewrite !elem_of_name_union. tauto.
  - intros n. rewrite !elem_of_name_union. tauto.
  - intros n. rewrite !elem_of_name_union. tauto.
  - by rewrite (assoc_L (∪)).
  - by rewrite (assoc_L (∪)).
  - split; [|done]. intros n. simpl. by rewrite find_merged, find_channel_reverse.
Qed.

Lemma merge_assoc_witness :
  spec_equiv (merge (merge spec_tool spec_expert) spec_tool_aggregator)
             (merge spec_tool (merge spec_expert spec_tool_aggregator)).
Proof.
  eapply proj1, (merge_assoc spec_tool spec_expert spec_tool_aggregator).
  apply (bool_decide_unpack _). vm_compute. exact I.
Defined.

(** Every channel a tool call or an expert exports is imported by the
    aggregator that runs it. *)
Theorem aggregators_import_child_exports :
  Forall (λ n, n ∈ imported_channels spec_tool_aggregator) (exported_channels spec_tool) ∧
  Forall (λ n, n ∈ imported_channels spec_expert_aggregator) (exported_channels spec_expert).
Proof. split; vm_compute; repeat constructor. Qed.
