(* ===== verification/RunLog.v ===== *)
(** * The replay journal ([marie-core/src/session/run_log.rs],
    [graph/run_log_macros.rs])

    A node body that must wait reserves a journal entry, checks whether it is
    resolved, and returns early when it is not.  Once the answer is recorded
    the body is run again from its start over the persisted journal. *)

From S2P Require Import Prelude Ids Json Types.

(** ** Results of a run ([session/protocol.rs]) *)

Record Branch := mkBranch { br_start : GraphNodeId; br_overrides : gmap string Value }.

Inductive FrameResult :=
  | FRequestHitl (h : Hitl)
  | FConsultExperts (reqs : list RequestAskExpert)
  | FCallTools (reqs : list RequestToolCall)
  | FExecuteGraph (g : GraphId)
  | FContinue
  | FGoTo (n : GraphNodeId)
  | FFork (branches : list Branch) (join : GraphNodeId)
  | FCompleted
  | FFailed (msg : string).

(** ** Journal entries *)

Inductive RunLogContent :=
  | ConsultExpertsLog (requests : list RequestAskExpert)
  | CallToolsLog (requests : list RequestToolCall)
  | GraphLog (graph_id : GraphId)
  | HitlLog (request : Hitl).

Record RunLog := mkRunLog { rl_index : Z; rl_content : RunLogContent; rl_value : option Value }.

Record RunLogs := mkRunLogs { entries : list RunLog; persisted_len : nat; cursor : nat }.

(** [RunLogs::new] *)
Definition run_logs_new (persisted : list RunLog) : RunLogs :=
  mkRunLogs persisted (length persisted) 0.

(** [RunLogs::reserve_log]; the handle is the position. *)
Definition reserve_log (l : RunLogs) (content : RunLogContent) : RunLogs * nat :=
  let index := cursor l in
  let es := if decide (length (entries l) ≤ index)
    then entries l ++ [mkRunLog (wrap32 (Z.of_nat index)) content None] else entries l in
  (mkRunLogs es (persisted_len l) (S index), index).

(** [RunLogs::check]: indexing panics out of range. *)
Definition check {E} (l : RunLogs) (r : nat) : Res E (option Value) :=
  match entries l !! r with
  | Some e => Ok (rl_value e)
  | None => Panic
  end.

(** [RunLogs::into_new_logs] *)
Definition into_new_logs (l : RunLogs) : list RunLog := drop (persisted_len l) (entries l).

(** ** The four macros

    A node body runs over its journal and ends with a [FrameResult], which
    the macros may return early.  [k] is the rest of the body. *)

Definition NodeBody : Type := RunLogs → RunLogs * Res () FrameResult.

Definition reserve_or_yield (content : RunLogContent) (yield : FrameResult)
    (k : Value → NodeBody) : NodeBody := λ l,
  let '(l, r) := reserve_log l content in
  match check l r with
  | Ok (Some v) => k v l
  | Ok None => (l, Ok yield)
  | Err e => (l, Err e)
  | Panic => (l, Panic)
  end.

(** The resolved value must be an array with an answer per request.  What then
    converts each answer to the type that the body gives it, and panics when it
    cannot, is left to [k]. *)
Definition with_answers (n : nat) (k : list Value → NodeBody) (v : Value) : NodeBody := λ l,
  match v with
  | Array vs => if decide (n ≤ length vs) then k (take n vs) l else (l, Panic)
  | _ => (l, Panic)
  end.

Definition ask_experts (requests : list RequestAskExpert) (k : list Value → NodeBody) : NodeBody :=
  reserve_or_yield (ConsultExpertsLog requests) (FConsultExperts requests)
    (with_answers (length requests) k).

Definition call_tools (requests : list RequestToolCall) (k : list Value → NodeBody) : NodeBody :=
  reserve_or_yield (CallToolsLog requests) (FCallTools requests)
    (with_answers (length requests) k).

Definition hitl (request : Hitl) (k : Value → NodeBody) : NodeBody :=
  reserve_or_yield (HitlLog request) (FRequestHitl request) k.

Definition graph (graph_id : GraphId) (k : list (string * Value) → NodeBody) : NodeBody :=
  reserve_or_yield (GraphLog graph_id) (FExecuteGraph graph_id)
    (λ v l, match v with Object m => k m l | _ => (l, Panic) end).

(** ** Bodies that only wait through the macros

    A body's source, as a tree: it ends, or it asks and goes on with the
    answer. *)

Inductive Ask :=
  | AskExperts (requests : list RequestAskExpert)
  | AskTools (requests : list RequestToolCall)
  | AskHitl (request : Hitl)
  | AskGraph (g : GraphId).

Inductive Body :=
  | Ends (r : FrameResult)
  | Asks (a : Ask) (k : Value → Body).

Definition ask_content (a : Ask) : RunLogContent :=
  match a with
  | AskExperts rs => ConsultExpertsLog rs
  | AskTools rs => CallToolsLog rs
  | AskHitl h => HitlLog h
  | AskGraph g => GraphLog g
  end.

Definition ask_yield (a : Ask) : FrameResult :=
  match a with
  | AskExperts rs => FConsultExperts rs
  | AskTools rs => FCallTools rs
  | AskHitl h => FRequestHitl h
  | AskGraph g => FExecuteGraph g
  end.

(** The answer is one the macro accepts (it does not panic decoding it). *)
Definition accepts (a : Ask) (v : Value) : Prop :=
  match a, v with
  | AskExperts rs, Array vs => length rs ≤ length vs
  | AskTools rs, Array vs => length rs ≤ length vs
  | AskGraph _, Object _ => True
  | AskHitl _, _ => True
  | _, _ => False
  end.

(** What the continuation receives: the decoded answers. *)
Definition decode (a : Ask) (v : Value) : Value :=
  match a, v with
  | AskExperts rs, Array vs => Array (take (length rs) vs)
  | AskTools rs, Array vs => Array (take (length rs) vs)
  | _, _ => v
  end.

Definition run_ask (a : Ask) (k : Value → NodeBody) : NodeBody :=
  match a with
  | AskExperts rs => ask_experts rs (λ vs, k (Array vs))
  | AskTools rs => call_tools rs (λ vs, k (Array vs))
  | AskHitl h => hitl h k
  | AskGraph g => graph g (λ m, k (Object m))
  end.

Fixpoint run_body (b : Body) : NodeBody :=
  match b with
  | Ends r => λ l, (l, Ok r)
  | Asks a k => run_ask a (λ v, run_body (k v))
  end.

(** The specification: the body that remains once the answers [vs] have been
    given, in order. *)
Fixpoint follow (b : Body) (vs : list Value) : Body :=
  match b, vs with
  | Asks a k, v :: vs => follow (k (decode a v)) vs
  | _, _ => b
  end.

(** The answers fit the questions the body asks. *)
Fixpoint answers_fit (b : Body) (vs : list Value) : Prop :=
  match b, vs with
  | Asks a k, v :: vs => accepts a v ∧ answers_fit (k (decode a v)) vs
  | _, _ => True
  end.

Definition resolved_with (es : list RunLog) (vs : list Value) : Prop :=
  rl_value <$> es = Some <$> vs.

(** What a run that has reached [b] does next. *)
Definition next_step (b : Body) (n : nat) : list RunLog * FrameResult :=
  match b with
  | Ends r => ([], r)
  | Asks a _ => ([mkRunLog (wrap32 (Z.of_nat n)) (ask_content a) None], ask_yield a)
  end.

(** ** Lemmas *)

Lemma reserve_log_persisted l c e :
  entries l !! cursor l = Some e →
  reserve_log l c = (mkRunLogs (entries l) (persisted_len l) (S (cursor l)), cursor l).
Proof.
  intros He. unfold reserve_log. rewrite decide_False; [done|].
  apply lookup_lt_Some in He. lia.
Qed.

Lemma reserve_log_new l c :
  cursor l = length (entries l) →
  reserve_log l c =
    (mkRunLogs (entries l ++ [mkRunLog (wrap32 (Z.of_nat (cursor l))) c None])
       (persisted_len l) (S (cursor l)), cursor l).
Proof. intros He. unfold reserve_log. by rewrite decide_True by lia. Qed.

Lemma run_ask_resolved a k l e v :
  entries l !! cursor l = Some e → rl_value e = Some v → accepts a v →
  run_ask a k l =
    k (decode a v) (mkRunLogs (entries l) (persisted_len l) (S (cursor l))).
Proof.
  intros He Hv Ha. destruct a, v; try done; simpl in Ha;
    unfold run_ask, ask_experts, call_tools, hitl, graph, reserve_or_yield, with_answers;
    rewrite (reserve_log_persisted _ _ e) by done; unfold check;
    cbn [entries]; rewrite He, Hv; try done; by rewrite decide_True by done.
Qed.

Lemma run_ask_new a k l :
  cursor l = length (entries l) →
  run_ask a k l =
    (mkRunLogs (entries l ++ [mkRunLog (wrap32 (Z.of_nat (cursor l))) (ask_content a) None])
       (persisted_len l) (S (cursor l)), Ok (ask_yield a)).
Proof.
  intros Hc. destruct a;
    unfold run_ask, ask_experts, call_tools, hitl, graph, reserve_or_yield;
    rewrite reserve_log_new by done; unfold check; cbn [entries];
    by rewrite Hc, lookup_app_r, Nat.sub_diag by done.
Qed.

(** The run from the middle of a journal whose remaining entries hold [vs]. *)
Lemma run_body_from b vs l :
  rl_value <$> drop (cursor l) (entries l) = Some <$> vs →
  cursor l ≤ length (entries l) → answers_fit b vs →
  ∃ c, run_body b l =
    (mkRunLogs (entries l ++ (next_step (follow b vs) (length (entries l))).1)
       (persisted_len l) c, Ok (next_step (follow b vs) (length (entries l))).2).
Proof.
  revert b l. induction vs as [|v vs IH]; intros b l Hvs Hc Hfit.
  - destruct b as [r|a k]; simpl.
    + exists (cursor l). rewrite app_nil_r. by destruct l.
    + apply fmap_nil_inv, (f_equal length) in Hvs. rewrite length_drop in Hvs. simpl in Hvs.
      exists (S (cursor l)). rewrite run_ask_new by lia. repeat f_equal. lia.
  - destruct b as [r|a k]; simpl.
    + exists (cursor l). rewrite app_nil_r. by destruct l.
    + destruct (drop (cursor l) (entries l)) as [|e es] eqn:Hd; [done|].
      simpl in Hvs. injection Hvs as Hv Hvs. destruct Hfit as [Ha Hfit].
      assert (entries l !! cursor l = Some e) as He.
      { rewrite <- (Nat.add_0_r (cursor l)), <- lookup_drop, Hd. done. }
      rewrite (run_ask_resolved a _ l e v) by done.
      apply (IH (k (decode a v)) (mkRunLogs (entries l) (persisted_len l) (S (cursor l)))).
      * simpl. rewrite (drop_S _ _ _ He) in Hd. injection Hd as ->. done.
      * simpl. apply lookup_lt_Some in He. lia.
      * done.
Qed.

(** C4: running a body again over a journal whose entries all hold their
    answers refines following the body through those answers: nothing already
    recorded is changed, and at most one entry is added, the unresolved one of
    the question the body then yields. *)
Theorem replay_refines (b : Body) (persisted : list RunLog) (vs : list Value) :
  resolved_with persisted vs → answers_fit b vs →
  ∃ l, run_body b (run_logs_new persisted) =
         (l, Ok (next_step (follow b vs) (length persisted)).2) ∧
       into_new_logs l = (next_step (follow b vs) (length persisted)).1 ∧
       take (length persisted) (entries l) = persisted.
Proof.
  intros Hvs Hfit.
  destruct (run_body_from b vs (run_logs_new persisted)) as [c Hrun];
    [by rewrite drop_0 | simpl; lia | done|].
  eexists. split; [apply Hrun|]. unfold into_new_logs. simpl.
  by rewrite drop_app_length, take_app_length.
Qed.

(** A body that asks for a tool, then for a human, and ends. *)
Definition two_questions : Body :=
  Asks (AskTools [mkRequestToolCall "t" Null]) (λ _,
    Asks (AskHitl Text) (λ v, match v with Str "ok" => Ends FCompleted | _ => Ends FContinue end)).

Lemma replay_refines_witness :
  ∃ l, run_body two_questions (run_logs_new
         [mkRunLog 0 (CallToolsLog [mkRequestToolCall "t" Null]) (Some (Array [Num (NInt 3)]))]) =
         (l, Ok (FRequestHitl Text)) ∧
       into_new_logs l = [mkRunLog 1 (HitlLog Text) None] ∧
       take 1 (entries l) =
         [mkRunLog 0 (CallToolsLog [mkRequestToolCall "t" Null]) (Some (Array [Num (NInt 3)]))].
Proof.
  apply (replay_refines two_questions
    [mkRunLog 0 (CallToolsLog [mkRequestToolCall "t" Null]) (Some (Array [Num (NInt 3)]))]
    [Array [Num (NInt 3)]]).
  - done.
  - simpl. split; [lia|done].
Defined.

(** The number of new entries never exceeds one. *)
Lemma next_step_length b n : length (next_step b n).1 ≤ 1.
Proof. destruct b; simpl; lia. Qed.
