(* ===== verification/Catalog.v ===== *)
(** * The versioned catalogue ([marie-core/src/catalog])

    [StoreCatalog] is the interface of a storage backend with what its
    clients rely on; [InMemoryCatalog] implements it; [Catalog] publishes and
    reads typed items over any backend. *)

From S2P Require Import Prelude Json Types.

(** ** The backend interface *)

Record StoredItem := mkStored { si_data : list Z; si_deprecated : bool; si_deleted : bool }.

Definition active (i : StoredItem) : bool := negb (si_deprecated i) && negb (si_deleted i).

(** [versions.iter().enumerate().rev().find(active)] *)
Fixpoint last_active_from (n : nat) (versions : list StoredItem) : option nat :=
  match versions with
  | [] => None
  | i :: rest =>
      match last_active_from (S n) rest with
      | Some v => Some v
      | None => if active i then Some n else None
      end
  end.

Definition last_active (versions : list StoredItem) : option nat := last_active_from 0 versions.

(** What a reader of one version sees. *)
Definition visible (versions : list StoredItem) (v : Z) : option (list Z) :=
  match versions !! Z.to_nat v with
  | Some i => if si_deleted i then None else Some (si_data i)
  | None => None
  end.

Definition deprecate_item (i : StoredItem) : StoredItem := mkStored (si_data i) true (si_deleted i).
Definition delete_item (i : StoredItem) : StoredItem := mkStored (si_data i) (si_deprecated i) true.

Inductive StoreFailure := store_failure (msg : string).

(** [cat_view] is the versions a backend holds for each (kind, id). *)
Class StoreCatalog (S : Type) := {
  cat_view : S → string * string → list StoredItem;
  insert_catalog_item : string → string → list Z → M S StoreFailure CatalogItemRef;
  get_catalog_item : string → string → Z → M S StoreFailure (option (list Z));
  last_catalog_ref : string → string → M S StoreFailure (option CatalogItemRef);
  list_catalog_refs : string → M S StoreFailure (list CatalogItemRef);
  deprecate_catalog_item : string → string → M S StoreFailure ();
  delete_catalog_item : string → string → M S StoreFailure ();

  insert_ok : ∀ kind id data s r s', insert_catalog_item kind id data s = (Ok r, s') →
    r = mkRef kind id (Z.of_nat (length (cat_view s (kind, id)))) ∧
    cat_view s' (kind, id) = cat_view s (kind, id) ++ [mkStored data false false] ∧
    (∀ k, k ≠ (kind, id) → cat_view s' k = cat_view s k);
  get_ok : ∀ kind id v s o s', get_catalog_item kind id v s = (Ok o, s') →
    o = visible (cat_view s (kind, id)) v ∧ ∀ k, cat_view s' k = cat_view s k;
  last_ok : ∀ kind id s o s', last_catalog_ref kind id s = (Ok o, s') →
    o = (λ v, mkRef kind id (Z.of_nat v)) <$> last_active (cat_view s (kind, id)) ∧
    ∀ k, cat_view s' k = cat_view s k;
  list_ok : ∀ kind s l s', list_catalog_refs kind s = (Ok l, s') →
    (∀ r, r ∈ l ↔ ref_kind r = kind ∧
       Z.of_nat <$> last_active (cat_view s (kind, ref_id r)) = Some (ref_version r)) ∧
    ∀ k, cat_view s' k = cat_view s k;
  deprecate_ok : ∀ kind id s s', deprecate_catalog_item kind id s = (Ok (), s') →
    cat_view s' (kind, id) = deprecate_item <$> cat_view s (kind, id) ∧
    (∀ k, k ≠ (kind, id) → cat_view s' k = cat_view s k);
  delete_ok : ∀ kind id s s', delete_catalog_item kind id s = (Ok (), s') →
    cat_view s' (kind, id) = delete_item <$> cat_view s (kind, id) ∧
    (∀ k, k ≠ (kind, id) → cat_view s' k = cat_view s k)
}.

(** ** The in-memory backend ([catalog/in_memory.rs]) *)

Module InMemory.
Notation InMemoryCatalog := (gmap (string * string) (list StoredItem)) (only parsing).

Definition view (s : InMemoryCatalog) (k : string * string) : list StoredItem :=
  default [] (s !! k).

Definition insert (kind id : string) (data : list Z) : M InMemoryCatalog StoreFailure CatalogItemRef :=
  λ items,
    let versions := view items (kind, id) in
    let version := Z.of_nat (length versions) in
    (Ok (mkRef kind id version),
     <[(kind, id) := versions ++ [mkStored data false false]]> items).

Definition get_item (kind id : string) (version : Z) : M InMemoryCatalog StoreFailure (option (list Z)) :=
  λ items,
    (Ok (versions ← items !! (kind, id);
         item ← versions !! Z.to_nat version;
         if si_deleted item then None else Some (si_data item)), items).

Definition last_ref (kind id : string) : M InMemoryCatalog StoreFailure (option CatalogItemRef) :=
  λ items,
    (Ok (versions ← items !! (kind, id);
         (λ v, mkRef kind id (Z.of_nat v)) <$> last_active versions), items).

(** The enumeration order of the items is the hash map's. *)
Definition list_refs `{HashIter} (kind : string) : M InMemoryCatalog StoreFailure (list CatalogItemRef) :=
  λ items,
    (Ok (omap (λ '((_, id), versions),
               (λ v, mkRef kind id (Z.of_nat v)) <$> last_active versions)
           (filter (λ p, p.1.1 = kind) (hash_iter items))), items).

Definition deprecate (kind id : string) : M InMemoryCatalog StoreFailure () :=
  λ items, (Ok (), alter (fmap deprecate_item) (kind, id) items).

Definition delete_all (kind id : string) : M InMemoryCatalog StoreFailure () :=
  λ items, (Ok (), alter (fmap delete_item) (kind, id) items).

Lemma view_alter (f : StoredItem → StoredItem) (kind id : string) (items : InMemoryCatalog) :
  view (alter (fmap f) (kind, id) items) (kind, id) = f <$> view items (kind, id).
Proof. unfold view. rewrite lookup_alter_eq. by destruct (items !! _). Qed.

Lemma view_alter_ne (f : StoredItem → StoredItem) (k k' : string * string) (items : InMemoryCatalog) :
  k' ≠ k → view (alter (fmap f) k items) k' = view items k'.
Proof. intros. unfold view. by rewrite lookup_alter_ne. Qed.

Lemma elem_of_list_refs `{HashIter} (kind : string) (items : InMemoryCatalog) r :
  r ∈ omap (λ '((_, id), versions),
               (λ v, mkRef kind id (Z.of_nat v)) <$> last_active versions)
           (filter (λ p, p.1.1 = kind) (hash_iter items)) ↔
  ref_kind r = kind ∧
    Z.of_nat <$> last_active (view items (kind, ref_id r)) = Some (ref_version r).
Proof.
  rewrite list_elem_of_omap. split.
  - intros ([[k' id] vs]&[Hk Hin]%list_elem_of_filter&(v&Hv&->)%fmap_Some).
    simpl in Hk. subst k'. apply elem_of_hash_iter in Hin. split; [done|].
    assert (view items (kind, id) = vs) as Hview by (unfold view; by rewrite Hin).
    cbn [ref_id]. by rewrite Hview, Hv.
  - intros [<- (v&Hv&Hr)%fmap_Some]. exists (ref_kind r, ref_id r, view items (ref_kind r, ref_id r)).
    split.
    + apply list_elem_of_filter. split; [done|]. apply elem_of_hash_iter.
      unfold view in *. by destruct (items !! _).
    + rewrite Hv. destruct r; simpl in *. by rewrite Hr.
Qed.

(** The in-memory backend keeps the interface's promises. *)
#[global] Instance store `{HashIter} : StoreCatalog InMemoryCatalog.
Proof.
  refine {|
    cat_view := view;
    insert_catalog_item := insert; get_catalog_item := get_item;
    last_catalog_ref := last_ref; list_catalog_refs := list_refs;
    deprecate_catalog_item := deprecate; delete_catalog_item := delete_all |}.
  - intros kind id data s r s' [= <- <-]. unfold view.
    rewrite lookup_insert_eq. split_and!; [done..|]. intros k Hk. by rewrite lookup_insert_ne.
  - intros kind id v s o s' [= <- <-]. unfold visible, view.
    split; [|done]. by destruct (s !! _).
  - intros kind id s o s' [= <- <-]. unfold view. split; [|done]. by destruct (s !! _).
  - intros kind s l s' [= <- <-]. split; [|done]. apply elem_of_list_refs.
  - intros kind id s s' [= <-]. split; [apply view_alter|]. intros. by apply view_alter_ne.
  - intros kind id s s' [= <-]. split; [apply view_alter|]. intros. by apply view_alter_ne.
Defined.
End InMemory.

(** ** Typed items ([catalog/mod.rs])

    [to_vec] and [from_slice] are [serde_json]'s encoding of the item type. *)

Class Catalogable (C : Type) := {
  KIND : string;
  item_id : C → string;
  to_vec : C → list Z;
  from_slice : list Z → option C;
  from_to_vec : ∀ c, from_slice (to_vec c) = Some c
}.

Inductive CatalogError :=
  | CStore (e : StoreFailure)
  | CNotFound (kind id : string)
  | CDeserialize.

Section catalog.
Context {S : Type} `{StoreCatalog S} {C : Type} `{Catalogable C}.

Definition cat_store {A} (m : M S StoreFailure A) : M S CatalogError A :=
  λ s, let '(r, s') := m s in (map_err CStore r, s').

Definition or_not_found {A} (kind id : string) (o : option A) : M S CatalogError A :=
  lift (of_option (CNotFound kind id) o).

Definition publish (item : C) : M S CatalogError CatalogItemRef :=
  cat_store (insert_catalog_item KIND (item_id item) (to_vec item)).

Definition deref (r : CatalogItemRef) : M S CatalogError C :=
  data ← cat_store (get_catalog_item (ref_kind r) (ref_id r) (ref_version r));
  data ← or_not_found (ref_kind r) (ref_id r) data;
  lift (of_option CDeserialize (from_slice data)).

Definition latest_ref (id : string) : M S CatalogError CatalogItemRef :=
  r ← cat_store (last_catalog_ref KIND id);
  or_not_found KIND id r.

Definition latest (id : string) : M S CatalogError C :=
  r ← latest_ref id; deref r.

Definition catalog_list : M S CatalogError (list CatalogItemRef) :=
  cat_store (list_catalog_refs KIND).
End catalog.

Definition catalog_deprecate {S : Type} `{StoreCatalog S} (r : CatalogItemRef) : M S CatalogError () :=
  cat_store (deprecate_catalog_item (ref_kind r) (ref_id r)).

Definition catalog_delete {S : Type} `{StoreCatalog S} (r : CatalogItemRef) : M S CatalogError () :=
  cat_store (delete_catalog_item (ref_kind r) (ref_id r)).

(** A [NotFound] read as an absence, as the domain catalogues do. *)
Definition absent_ok {S A B : Type} (f : A → B) (m : M S CatalogError A) : M S CatalogError (option B) :=
  λ s, match m s with
       | (Ok a, s') => (Ok (Some (f a)), s')
       | (Err (CNotFound _ _), s') => (Ok None, s')
       | (Err e, s') => (Err e, s')
       | (Panic, s') => (Panic, s')
       end.

(** ** Lemmas *)

Lemma last_active_from_app n l1 l2 :
  last_active_from n (l1 ++ l2) =
  match last_active_from (n + length l1) l2 with
  | Some v => Some v
  | None => last_active_from n l1
  end.
Proof.
  revert n. induction l1 as [|i l1 IH]; intros n; simpl.
  { rewrite Nat.add_0_r. by destruct (last_active_from n l2). }
  rewrite IH, <- plus_n_Sm. simpl. by destruct (last_active_from (S (n + length l1)) l2).
Qed.

Lemma last_active_snoc l i :
  active i = true → last_active (l ++ [i]) = Some (length l).
Proof. intros Hi. unfold last_active. rewrite last_active_from_app. simpl. by rewrite Hi. Qed.

Lemma last_active_from_spec n l v :
  last_active_from n l = Some v →
  n ≤ v ∧ ∃ i, l !! (v - n) = Some i ∧ active i = true.
Proof.
  revert n. induction l as [|i l IH]; intros n; simpl; [done|].
  destruct (last_active_from (S n) l) as [w|] eqn:E.
  - intros [= <-]. destruct (IH _ E) as (Hle&j&Hj&Ha). split; [lia|].
    exists j. split; [|done]. by replace (w - n) with (S (w - S n)) by lia.
  - destruct (active i) eqn:Ha; [|done]. intros [= <-]. split; [done|].
    exists i. by rewrite Nat.sub_diag.
Qed.

Lemma last_active_None l (f : StoredItem → StoredItem) :
  (∀ i, active (f i) = false) → last_active (f <$> l) = None.
Proof.
  intros Hf. unfold last_active. generalize 0.
  induction l as [|i l IH]; intros n; simpl; [done|]. by rewrite IH, Hf.
Qed.

Lemma visible_app l l' v d : visible l v = Some d → visible (l ++ l') v = Some d.
Proof.
  unfold visible. destruct (l !! Z.to_nat v) as [i|] eqn:E; [|done].
  by rewrite (lookup_app_l_Some _ _ _ _ E).
Qed.

Lemma visible_deprecate l v : visible (deprecate_item <$> l) v = visible l v.
Proof. unfold visible. rewrite list_lookup_fmap. by destruct (l !! _). Qed.

Lemma visible_delete l v : visible (delete_item <$> l) v = None.
Proof. unfold visible. rewrite list_lookup_fmap. by destruct (l !! _). Qed.

Section laws.
Context {S : Type} `{SC : StoreCatalog S}.

Lemma cat_store_ok {A} (m : M S StoreFailure A) s a s' :
  cat_store m s = (Ok a, s') ↔ m s = (Ok a, s').
Proof.
  unfold cat_store. destruct (m s) as [[x|e|] s1]; simpl; split; intros; simplify_eq; done.
Qed.

Section typed.
Context {C : Type} `{HC : Catalogable C}.

(** What a typed read returns, in terms of the versions the backend holds. *)
Lemma deref_ok r s c s' :
  deref (C:=C) r s = (Ok c, s') →
  visible (cat_view s (ref_kind r, ref_id r)) (ref_version r) ≫= from_slice = Some c ∧
  ∀ k, cat_view s' k = cat_view s k.
Proof.
  unfold deref. intros (o&s1&[Ho Hv]%cat_store_ok%get_ok&
    (d&s2&[Hd ->]%pair_equal_spec&Hc)%m_bind_ok)%m_bind_ok.
  destruct o as [d'|]; simpl in Hd; [|done]. injection Hd as ->.
  unfold lift in Hc. injection Hc as Hc ->.
  rewrite <- Ho. simpl. destruct (from_slice d) eqn:E; simpl in Hc; by simplify_eq.
Qed.

Lemma latest_ref_ok id s r s' :
  latest_ref (C:=C) id s = (Ok r, s') →
  (λ v, mkRef KIND id (Z.of_nat v)) <$> last_active (cat_view s (KIND, id)) = Some r ∧
  ∀ k, cat_view s' k = cat_view s k.
Proof.
  unfold latest_ref. intros (o&s1&[Ho Hv]%cat_store_ok%last_ok&Hr)%m_bind_ok.
  unfold or_not_found, lift in Hr. injection Hr as Hr ->.
  rewrite <- Ho. by destruct o; simplify_eq/=.
Qed.

Lemma publish_ok item s r s' :
  publish (C:=C) item s = (Ok r, s') →
  r = mkRef KIND (item_id item) (Z.of_nat (length (cat_view s (KIND, item_id item)))) ∧
  cat_view s' (KIND, item_id item) =
    cat_view s (KIND, item_id item) ++ [mkStored (to_vec item) false false] ∧
  (∀ k, k ≠ (KIND, item_id item) → cat_view s' k = cat_view s k).
Proof. intros Hp%cat_store_ok%insert_ok. done. Qed.
End typed.
End laws.

(** ** Properties *)

(** The steps that change a catalogue, over any backend and item types. *)
Inductive cat_step {S : Type} `{StoreCatalog S} (s s' : S) : Prop :=
  | step_publish {C : Type} `{Catalogable C} (item : C) r :
      publish item s = (Ok r, s') → cat_step s s'
  | step_deprecate r : catalog_deprecate r s = (Ok (), s') → cat_step s s'
  | step_delete r : catalog_delete r s = (Ok (), s') → cat_step s s'.

(** [later] shows at most what [now] shows of the versions [now] has. *)
Definition only_hides (now later : list StoredItem) : Prop :=
  length now ≤ length later ∧
  ∀ i, i < length now → si_data <$> later !! i = si_data <$> now !! i.

Lemma only_hides_visible now later v d d' :
  only_hides now later → visible now v = Some d → visible later v = Some d' → d' = d.
Proof.
  intros [_ Hd]. unfold visible.
  destruct (now !! Z.to_nat v) as [i|] eqn:E; [|done].
  specialize (Hd (Z.to_nat v) (lookup_lt_Some _ _ _ E)). rewrite E in Hd.
  destruct (later !! Z.to_nat v) as [j|]; [|done].
  simpl in Hd. repeat case_match; naive_solver.
Qed.

Lemma only_hides_fmap f l : (∀ i, si_data (f i) = si_data i) → only_hides l (f <$> l).
Proof.
  intros Hf. split; [by rewrite length_fmap|]. intros i _. rewrite list_lookup_fmap.
  destruct (l !! i); simpl; [by rewrite Hf|done].
Qed.

Lemma only_hides_app l l' : only_hides l (l ++ l').
Proof.
  split; [rewrite length_app; lia|]. intros i Hi. by rewrite lookup_app_l.
Qed.

Global Instance only_hides_preorder : PreOrder only_hides.
Proof.
  split; [done|]. intros l1 l2 l3 [Hl Hd] [Hl' Hd']. split; [lia|].
  intros i Hi. rewrite Hd' by lia. by apply Hd.
Qed.

Section properties.
Context {S : Type} `{SC : StoreCatalog S}.

Lemma cat_step_only_hides s s' k :
  cat_step s s' → only_hides (cat_view s k) (cat_view s' k).
Proof.
  intros [C HC item r Hp|r Hp|r Hp].
  - apply publish_ok in Hp as (_&Hv&Hne).
    destruct (decide (k = (KIND, item_id item))) as [->|].
    + rewrite Hv. apply only_hides_app.
    + by rewrite Hne.
  - apply cat_store_ok, deprecate_ok in Hp as [Hv Hne].
    destruct (decide (k = (ref_kind r, ref_id r))) as [->|].
    + rewrite Hv. by apply only_hides_fmap.
    + by rewrite Hne.
  - apply cat_store_ok, delete_ok in Hp as [Hv Hne].
    destruct (decide (k = (ref_kind r, ref_id r))) as [->|].
    + rewrite Hv. by apply only_hides_fmap.
    + by rewrite Hne.
Qed.

Lemma cat_steps_only_hides s s' k :
  rtc cat_step s s' → only_hides (cat_view s k) (cat_view s' k).
Proof.
  induction 1 as [|s s1 s' Hs _ IH]; [done|].
  etrans; [by apply cat_step_only_hides|done].
Qed.
End properties.

(** C16: a published version never changes: after any sequence of publications,
    deprecations and deletions, reading a reference that could be read before
    either fails or gives the same item, over any backend. *)
Theorem published_immutable {S : Type} `{SC : StoreCatalog S} {C : Type} `{HC : Catalogable C}
    (s s' s1 s1' : S) (r : CatalogItemRef) (c c' : C) :
  rtc cat_step s s' → deref r s = (Ok c, s1) → deref r s' = (Ok c', s1') → c' = c.
Proof.
  intros Hsteps [Hc _]%deref_ok [Hc' _]%deref_ok.
  pose proof (cat_steps_only_hides _ _ (ref_kind r, ref_id r) Hsteps) as Hh.
  apply bind_Some in Hc as (d&Hd&Hc), Hc' as (d'&Hd'&Hc').
  pose proof (only_hides_visible _ _ _ _ _ Hh Hd Hd'). naive_solver.
Qed.

Section in_memory.
Context `{HI : HashIter} {C : Type} `{HC : Catalogable C}.
Implicit Types s : gmap (string * string) (list StoredItem).

Lemma deref_in_memory r s :
  deref r s = (match visible (InMemory.view s (ref_kind r, ref_id r)) (ref_version r) with
               | None => Err (CNotFound (ref_kind r) (ref_id r))
               | Some d => of_option CDeserialize (from_slice d)
               end, s).
Proof.
  unfold deref, cat_store, or_not_found, lift, mbind, m_bind. simpl.
  unfold visible, InMemory.view.
  destruct (s !! (ref_kind r, ref_id r)) as [l|]; simpl; [|done].
  destruct (l !! Z.to_nat (ref_version r)) as [i|]; simpl; [|done].
  by destruct (si_deleted i).
Qed.

Lemma latest_ref_in_memory id s :
  latest_ref (C:=C) id s =
    (match last_active (InMemory.view s (KIND, id)) with
     | None => Err (CNotFound KIND id)
     | Some v => Ok (mkRef KIND id (Z.of_nat v))
     end, s).
Proof.
  unfold latest_ref, cat_store, or_not_found, lift, mbind, m_bind. simpl.
  unfold InMemory.view. destruct (s !! (KIND, id)) as [l|]; [|done].
  simpl. by destruct (last_active l).
Qed.

Lemma latest_in_memory id s :
  latest (C:=C) id s =
    match last_active (InMemory.view s (KIND, id)) with
    | None => (Err (CNotFound KIND id), s)
    | Some v => deref (mkRef KIND id (Z.of_nat v)) s
    end.
Proof.
  unfold latest, mbind, m_bind. rewrite latest_ref_in_memory.
  by destruct (last_active _).
Qed.

Lemma latest_snoc_in_memory id s l (item : C) :
  InMemory.view s (KIND, id) = l ++ [mkStored (to_vec item) false false] →
  latest id s = (Ok item, s).
Proof.
  intros Hv. rewrite latest_in_memory, Hv, last_active_snoc, deref_in_memory by done. simpl.
  unfold visible. rewrite Hv, Nat2Z.id, lookup_app_r, Nat.sub_diag by lia. simpl. by rewrite from_to_vec.
Qed.

Lemma visible_publish (item : C) s k v d :
  visible (InMemory.view s k) v = Some d →
  visible (InMemory.view (run_state (publish item) s) k) v = Some d.
Proof.
  intros Hd. unfold run_state, publish, cat_store. simpl. unfold InMemory.view at 1.
  rewrite lookup_insert. case_decide as E; [subst; by apply visible_app|done].
Qed.
End in_memory.

Lemma publish_reads_back `{HI : HashIter} {C : Type} `{HC : Catalogable C}
    (item : C) (s : gmap (string * string) (list StoredItem)) :
  ∃ r s1, publish item s = (Ok r, s1) ∧ deref r s1 = (Ok item, s1) ∧
    latest (item_id item) s1 = (Ok item, s1).
Proof.
  set (k := (KIND, item_id item)). set (s1 := run_state (publish item) s).
  assert (InMemory.view s1 k = InMemory.view s k ++ [mkStored (to_vec item) false false]) as Hv.
  { unfold s1, run_state, publish, cat_store, InMemory.view at 1. simpl.
    by rewrite lookup_insert_eq. }
  set (r := mkRef KIND (item_id item) (Z.of_nat (length (InMemory.view s k)))).
  assert (deref r s1 = (Ok item, s1)) as Hr.
  { rewrite deref_in_memory. simpl. fold k. unfold visible.
    rewrite Hv, Nat2Z.id, lookup_app_r, Nat.sub_diag by lia. simpl. by rewrite from_to_vec. }
  exists r, s1. split_and!; [done|done|]. by eapply latest_snoc_in_memory.
Qed.

(** In the in-memory catalogue a publication returns a reference that
    reads back the item, becomes the latest version of its identifier, and
    leaves every reference that could be read readable with the same item. *)
Theorem publish_roundtrip `{HI : HashIter} {C : Type} `{HC : Catalogable C}
    (item : C) (s : gmap (string * string) (list StoredItem)) :
  ∃ r s1, publish item s = (Ok r, s1) ∧ deref r s1 = (Ok item, s1) ∧
    latest (item_id item) s1 = (Ok item, s1) ∧
    ∀ r' (c : C), run_res (deref r') s = Ok c → run_res (deref r') s1 = Ok c.
Proof.
  destruct (publish_reads_back item s) as (r&s1&Hp&Hd&Hl). exists r, s1. split_and!; [done..|].
  assert (s1 = run_state (publish item) s) as -> by (unfold run_state; by rewrite Hp).
  intros r' c. unfold run_res. rewrite !deref_in_memory. simpl.
  destruct (visible (InMemory.view s _) _) as [d|] eqn:Ed; [|done].
  by rewrite (visible_publish _ _ _ _ d).
Qed.

(** Deprecating an item hides it from the lookup of its latest version and
    keeps every version readable; deleting it hides all of its versions;
    neither touches another item. *)
Theorem deprecate_delete `{HI : HashIter} {C : Type} `{HC : Catalogable C}
    (r : CatalogItemRef) (s : gmap (string * string) (list StoredItem)) :
  let dep := run_state (catalog_deprecate r) s in
  let del := run_state (catalog_delete r) s in
  (ref_kind r = KIND →
     run_res (latest (C:=C) (ref_id r)) dep = Err (CNotFound KIND (ref_id r)) ∧
     run_res (latest (C:=C) (ref_id r)) del = Err (CNotFound KIND (ref_id r))) ∧
  (∀ r', run_res (deref (C:=C) r') dep = run_res (deref r') s) ∧
  (∀ r', run_res (deref (C:=C) r') del =
    if decide ((ref_kind r', ref_id r') = (ref_kind r, ref_id r))
    then Err (CNotFound (ref_kind r') (ref_id r')) else run_res (deref r') s).
Proof.
  intros dep del.
  assert (∀ k, InMemory.view dep k = if decide (k = (ref_kind r, ref_id r))
    then deprecate_item <$> InMemory.view s k else InMemory.view s k) as Hdep.
  { intros k. case_decide; subst; [apply InMemory.view_alter|by apply InMemory.view_alter_ne]. }
  assert (∀ k, InMemory.view del k = if decide (k = (ref_kind r, ref_id r))
    then delete_item <$> InMemory.view s k else InMemory.view s k) as Hdel.
  { intros k. case_decide; subst; [apply InMemory.view_alter|by apply InMemory.view_alter_ne]. }
  split_and!.
  - intros HK. unfold run_res. rewrite !latest_in_memory, Hdep, Hdel, HK, !decide_True by done.
    rewrite !last_active_None; [done|..]; intros []; unfold active; simpl; [|done].
    apply andb_false_r.
  - intros r'. unfold run_res. rewrite !deref_in_memory, Hdep. simpl.
    case_decide; [|done]. by rewrite visible_deprecate.
  - intros r'. unfold run_res. rewrite !deref_in_memory, Hdel. simpl.
    case_decide; [|done]. by rewrite visible_delete.
Qed.

(** ** Witnesses: a catalogue of numbers, all under one identifier *)

Definition number_item : Catalogable Z := {|
  KIND := "/numbers"; item_id := λ _, "n"; to_vec := λ z, [z];
  from_slice := λ l, match l with [z] => Some z | _ => None end;
  from_to_vec := λ z, eq_refl |}.

Notation demo_store := (@InMemory.store canonical_iter) (only parsing).
Definition demo_publish (z : Z) : M (gmap (string * string) (list StoredItem)) CatalogError CatalogItemRef :=
  @publish _ demo_store _ number_item z.

Lemma published_immutable_witness : 7%Z = 7%Z.
Proof.
  set (s := run_state (demo_publish 7) ∅).
  set (s' := run_state (catalog_deprecate (H:=demo_store) (mkRef "/numbers" "n" 0))
                (run_state (demo_publish 8) s)).
  apply (@published_immutable _ demo_store _ number_item s s' s s'
    (mkRef "/numbers" "n" 0) 7%Z 7%Z).
  - eapply rtc_l; [by apply (@step_publish _ demo_store _ _ _ number_item 8%Z (mkRef "/numbers" "n" 1))|].
    eapply rtc_l; [by apply (step_deprecate _ _ (mkRef "/numbers" "n" 0))|]. apply rtc_refl.
  - vm_cast_no_check (eq_refl (@Ok CatalogError Z 7%Z, s)).
  - vm_cast_no_check (eq_refl (@Ok CatalogError Z 7%Z, s')).
Defined.

Lemma deprecate_delete_witness :
  run_res (@latest _ demo_store _ number_item "n")
    (run_state (catalog_deprecate (H:=demo_store) (mkRef "/numbers" "n" 0))
      (run_state (demo_publish 7) ∅)) = Err (CNotFound "/numbers" "n").
Proof.
  destruct (@deprecate_delete canonical_iter _ number_item (mkRef "/numbers" "n" 0)
    (run_state (demo_publish 7) ∅)) as (H&_).
  destruct (H eq_refl) as [Hd _]. exact Hd.
Defined.
