(* ===== verification/PgCatalog.v ===== *)
(** * The catalogue in PostgreSQL ([catalog/store.rs], [migrations/0003_catalog.sql])

    The table of the versions, with its primary key, and the statements of the
    store.  The table keeps the interface of [Catalog], so that what is proved of
    a catalogue over that interface holds of it; and two publications at the same
    time never lose one another. *)

From S2P Require Import Prelude Json Types Catalog.
Local Open Scope Z_scope.

(** Whether [deleted_at] is null is what the statements read of it. *)
Record CatRow := mkCatRow { cr_data : list Z; cr_deprecated : bool; cr_deleted : bool }.

(** By the primary key: kind and identifier, and version. *)
Notation Table := (gmap (string * string * Z) CatRow) (only parsing).

(** [MAX], and [ORDER BY version DESC LIMIT 1] *)
Definition max_of (l : list Z) : option Z :=
  foldr (λ v b, Some (match b with Some w => Z.max v w | None => v end)) None l.

Section statements.
Context `{HashIter}.

Definition versions_where (P : CatRow → bool) (k : string * string) (t : Table) : list Z :=
  (filter (λ p, p.1.1 = k ∧ P p.2 = true) (hash_iter t)).*1.*2.

(** [COALESCE(MAX(version), -1) + 1], in the width of the column. *)
Definition next_version (k : string * string) : M Table StoreFailure Z := λ t,
  let v := default (-1) (max_of (versions_where (λ _, true) k t)) + 1 in
  (if v <? 2 ^ 63 then Ok v else Err (store_failure "bigint out of range"), t).

(** The insertion of a version that is taken is refused. *)
Definition insert_version (k : string * string) (v : Z) (data : list Z) : M Table StoreFailure () := λ t,
  match t !! (k, v) with
  | Some _ => (Err (store_failure "duplicate key value"), t)
  | None => (Ok (), <[(k, v) := mkCatRow data false false]> t)
  end.

Definition pg_insert (kind id : string) (data : list Z) : M Table StoreFailure CatalogItemRef :=
  v ← next_version (kind, id);
  _ ← insert_version (kind, id) v data;
  mret (mkRef kind id v).

(** [as i64] on a [u64]; the integers that are not of this type are put at the
    nearest end of its range. *)
Definition as_i64 (v : Z) : Z := if v <? 2 ^ 63 then Z.max 0 v else Z.min (-1) (v - 2 ^ 64).

Definition pg_get (kind id : string) (version : Z) : M Table StoreFailure (option (list Z)) := λ t,
  (Ok (r ← t !! (kind, id, as_i64 version); if cr_deleted r then None else Some (cr_data r)), t).

Definition row_active (r : CatRow) : bool := negb (cr_deprecated r) && negb (cr_deleted r).

Definition pg_last (kind id : string) : M Table StoreFailure (option CatalogItemRef) := λ t,
  (Ok (mkRef kind id <$> max_of (versions_where row_active (kind, id) t)), t).

(** [SELECT DISTINCT ON (id) .. ORDER BY id, version DESC]: the order of the texts
    is the server's. *)
Definition pg_list (kind : string) : M Table StoreFailure (list CatalogItemRef) := λ t,
  (Ok (omap (λ id, mkRef kind id <$> max_of (versions_where row_active (kind, id) t))
        (remove_dups ((filter (λ p, p.1.1.1 = kind ∧ row_active p.2 = true) (hash_iter t)).*1.*1.*2))), t).

Definition update_where (k : string * string) (f : CatRow → CatRow) (t : Table) : Table :=
  map_imap (λ i r, Some (if decide (i.1 = k) then f r else r)) t.
Definition pg_deprecate (kind id : string) : M Table StoreFailure () := λ t,
  (Ok (), update_where (kind, id) (λ r, mkCatRow (cr_data r) true (cr_deleted r)) t).
Definition pg_delete (kind id : string) : M Table StoreFailure () := λ t,
  (Ok (), update_where (kind, id) (λ r, mkCatRow (cr_data r) (cr_deprecated r) true) t).

(** ** The versions of an item *)

Lemma max_of_spec l : match max_of l with
  | Some v => v ∈ l ∧ ∀ w, w ∈ l → w ≤ v
  | None => l = []
  end.
Proof.
  induction l as [|v l IH]; simpl; [done|]. destruct (max_of l) as [w|].
  - destruct IH as [Hin Hmax]. split.
    + destruct (Z.max_spec v w) as [[_ ->]|[_ ->]]; [by right|by left].
    + intros x [->|Hx]%elem_of_cons; [lia|]. specialize (Hmax x Hx). lia.
  - subst l. split; [by left|]. intros x [->|Hx%elem_of_nil]%elem_of_cons; [done|done].
Qed.

Lemma elem_of_versions P k t v : v ∈ versions_where P k t ↔ ∃ r, t !! (k, v) = Some r ∧ P r = true.
Proof.
  unfold versions_where. rewrite list_elem_of_fmap. setoid_rewrite list_elem_of_fmap. split.
  - intros ([k' v']&->&([[k2 v2] r]&[= -> ->]&[[Hk HP] Hi%elem_of_hash_iter]%list_elem_of_filter)). simpl in *. subst k2. eauto.
  - intros (r&Hr&HP). exists (k, v). split; [done|]. exists ((k, v), r). split; [done|]. apply list_elem_of_filter.
    split; [done|]. by apply elem_of_hash_iter.
Qed.

(** The versions of an item follow one another from 0, and fit the column. *)
Definition contiguous (t : Table) : Prop := ∀ k, ∃ n : nat, Z.of_nat n ≤ 2 ^ 63 ∧ ∀ v, is_Some (t !! (k, v)) ↔ 0 ≤ v < Z.of_nat n.

Definition stored (r : CatRow) : StoredItem := mkStored (cr_data r) (cr_deprecated r) (cr_deleted r).
Definition pg_count (k : string * string) (t : Table) : nat :=
  Z.to_nat (default (-1) (max_of (versions_where (λ _, true) k t)) + 1).
Definition pg_view (t : Table) (k : string * string) : list StoredItem :=
  omap (λ i, stored <$> t !! (k, Z.of_nat i)) (seq 0 (pg_count k t)).

Lemma pg_count_spec t k n : (∀ v, is_Some (t !! (k, v)) ↔ 0 ≤ v < Z.of_nat n) → pg_count k t = n.
Proof.
  intros Hn. unfold pg_count. pose proof (max_of_spec (versions_where (λ _, true) k t)) as Hm.
  destruct (max_of _) as [v|]; simpl.
  - destruct Hm as [Hin Hmax]. apply elem_of_versions in Hin as (r&Hr&_).
    assert (is_Some (t !! (k, v))) as Hv%Hn by (by rewrite Hr).
    assert (is_Some (t !! (k, Z.of_nat n - 1))) as [r' Hr'] by (apply Hn; lia).
    assert (Z.of_nat n - 1 ≤ v) by (apply Hmax, elem_of_versions; eauto). lia.
  - destruct n as [|n]; [done|]. assert (is_Some (t !! (k, 0))) as [r Hr] by (apply Hn; lia).
    assert (0 ∈ versions_where (λ _, true) k t) as Hin by (apply elem_of_versions; eauto). rewrite Hm in Hin.
    by apply elem_of_nil in Hin.
Qed.

Lemma omap_seq_full {A} (f : nat → option A) j n i : (∀ i, j ≤ i < j + n → is_Some (f i))%nat →
  omap f (seq j n) !! i = if decide (i < n)%nat then f (j + i)%nat else None.
Proof.
  revert j i. induction n as [|n IH]; intros j i Hf; cbn [seq omap list_omap]; [by rewrite decide_False by lia|].
  destruct (Hf j) as [a Ha]; [lia|]. rewrite Ha. destruct i as [|i]; cbn [lookup list_lookup].
  - by rewrite decide_True, Nat.add_0_r, Ha by lia.
  - change (list_lookup i ?l) with (l !! i). rewrite IH by (intros; apply Hf; lia). rewrite Nat.add_succ_comm.
    destruct (decide (i < n)%nat), (decide (S i < S n)%nat); try lia; done.
Qed.

Lemma lookup_pg_view t k i : contiguous t → pg_view t k !! i = stored <$> t !! (k, Z.of_nat i).
Proof.
  intros Ht. destruct (Ht k) as (n&Hb&Hn). unfold pg_view. rewrite (pg_count_spec _ _ _ Hn), omap_seq_full.
  - destruct (decide (i < n)%nat) as [Hi|Hi]; [done|]. destruct (t !! (k, Z.of_nat i)) eqn:E; [|done].
    exfalso. apply Hi. assert (is_Some (t !! (k, Z.of_nat i))) as ?%Hn by (by rewrite E). lia.
  - intros j Hj. assert (is_Some (t !! (k, Z.of_nat j))) as [r ->] by (apply Hn; lia). by eexists.
Qed.

Lemma length_pg_view t k : contiguous t → length (pg_view t k) = pg_count k t.
Proof.
  intros Ht. destruct (Ht k) as (n&Hb&Hn). rewrite (pg_count_spec _ _ _ Hn).
  assert (∀ i, is_Some (pg_view t k !! i) ↔ (i < n)%nat) as Hi.
  { intros i. rewrite lookup_pg_view, fmap_is_Some, Hn by done. lia. }
  destruct (lt_eq_lt_dec (length (pg_view t k)) n) as [[Hlt|He]|Hgt]; [|done|].
  - apply Hi, lookup_lt_is_Some in Hlt. lia.
  - apply lookup_lt_is_Some, Hi in Hgt. lia.
Qed.
End statements.

(** ** The table keeps the interface *)

Section interface.
Context `{HashIter}.

Lemma next_version_ok t k v t' : next_version k t = (Ok v, t') → t' = t ∧ (0 ≤ v → v = Z.of_nat (pg_count k t)).
Proof.
  unfold next_version, pg_count. set (m := default (-1) _). destruct (Z.ltb_spec (m + 1) (2 ^ 63)); [|done].
  intros [= <- <-]. split; [done|lia].
Qed.

Lemma next_version_count t k v t' : contiguous t → next_version k t = (Ok v, t') →
  t' = t ∧ v = Z.of_nat (pg_count k t) ∧ v < 2 ^ 63.
Proof.
  intros Ht Hv. destruct (next_version_ok _ _ _ _ Hv) as [-> He]. split; [done|].
  assert (v < 2 ^ 63) as Hmax by (unfold next_version in Hv; case_match eqn:Ev; simplify_eq; lia).
  split; [|exact Hmax]. apply He. unfold next_version in Hv. pose proof (max_of_spec (versions_where (λ _, true) k t)) as Hm.
  destruct (max_of _) as [w|]; simpl in Hv; [|by injection Hv as <-]. destruct Hm as [Hin _].
  apply elem_of_versions in Hin as (r&Hr&_). destruct (Ht k) as (n&Hb&Hn).
  assert (is_Some (t !! (k, w))) as ?%Hn by (by rewrite Hr). destruct (w + 1 <? 2 ^ 63); [|done]. injection Hv as <-. lia.
Qed.

Lemma count_fresh t k : contiguous t → t !! (k, Z.of_nat (pg_count k t)) = None.
Proof.
  intros Ht. destruct (Ht k) as (n&Hb&Hn). rewrite (pg_count_spec _ _ _ Hn). apply eq_None_not_Some. intros ?%Hn. lia.
Qed.

Lemma contiguous_append t k r : contiguous t → Z.of_nat (pg_count k t) < 2 ^ 63 →
  contiguous (<[(k, Z.of_nat (pg_count k t)) := r]> t).
Proof.
  intros Ht Hc k'. destruct (Ht k') as (n&Hb&Hn). destruct (decide (k' = k)) as [->|Hk].
  - rewrite (pg_count_spec _ _ _ Hn) in *. exists (S n). split; [lia|]. intros v. destruct (decide (v = Z.of_nat n)) as [->|Hv].
    + rewrite lookup_insert_eq. split; [lia|eauto].
    + rewrite lookup_insert_ne by congruence. rewrite Hn. lia.
  - exists n. split; [done|]. intros v. rewrite lookup_insert_ne by congruence. apply Hn.
Qed.

Lemma contiguous_same t t' : (∀ i, is_Some (t' !! i) ↔ is_Some (t !! i)) → contiguous t → contiguous t'.
Proof. intros Hs Ht k. destruct (Ht k) as (n&Hb&Hn). exists n. split; [done|]. intros v. by rewrite Hs. Qed.

Lemma lookup_update k f t i : update_where k f t !! i = (λ r, if decide (i.1 = k) then f r else r) <$> t !! i.
Proof. unfold update_where. rewrite map_lookup_imap. by destruct (t !! i). Qed.
Lemma contiguous_update k f t : contiguous t → contiguous (update_where k f t).
Proof. apply contiguous_same. intros i. by rewrite lookup_update, fmap_is_Some. Qed.

Lemma contiguous_empty : contiguous ∅.
Proof. intros k. exists 0%nat. split; [lia|]. intros v. rewrite lookup_empty. split; [by intros []|lia]. Qed.

Lemma contiguous_insert kind id data t : contiguous t → contiguous (pg_insert kind id data t).2.
Proof.
  intros Ht. unfold pg_insert, mbind, m_bind. destruct (next_version (kind, id) t) as [[v|e|] t1] eqn:E; simpl.
  - apply next_version_count in E as (->&->&Hv); [|done]. unfold insert_version. rewrite count_fresh by done.
    by apply contiguous_append.
  - unfold next_version in E. case_match; by simplify_eq.
  - unfold next_version in E. by case_match.
Qed.

(** What a publication does to the versions. *)
Lemma pg_view_append t k r : contiguous t → Z.of_nat (pg_count k t) < 2 ^ 63 →
  pg_view (<[(k, Z.of_nat (pg_count k t)) := r]> t) k = pg_view t k ++ [stored r].
Proof.
  intros Ht Hc. apply list_eq. intros i. rewrite lookup_pg_view by (by apply contiguous_append).
  destruct (decide (i = pg_count k t)) as [->|Hi].
  - rewrite lookup_insert_eq, lookup_app_r, length_pg_view, Nat.sub_diag by (rewrite ?length_pg_view by done; lia || done). done.
  - rewrite lookup_insert_ne by (intros [= E]; lia). destruct (decide (i < pg_count k t)%nat).
    + rewrite lookup_app_l by (rewrite length_pg_view by done; lia). by rewrite lookup_pg_view.
    + rewrite lookup_app_r by (rewrite length_pg_view by done; lia). rewrite length_pg_view by done.
      destruct (i - pg_count k t)%nat eqn:E; [lia|]. simpl. rewrite <- lookup_pg_view by done.
      apply lookup_ge_None. rewrite length_pg_view by done. lia.
Qed.

Lemma pg_view_other t t' k : contiguous t → contiguous t' → (∀ v, t' !! (k, v) = t !! (k, v)) → pg_view t' k = pg_view t k.
Proof. intros Ht Ht' Hs. apply list_eq. intros i. by rewrite !lookup_pg_view, Hs. Qed.

Lemma pg_view_update k f g t : contiguous t → (∀ r, stored (f r) = g (stored r)) →
  pg_view (update_where k f t) k = g <$> pg_view t k.
Proof.
  intros Ht Hf. apply list_eq. intros i. rewrite list_lookup_fmap, !lookup_pg_view, lookup_update by (try apply contiguous_update; done).
  destruct (t !! (k, Z.of_nat i)); simpl; [|done]. by rewrite decide_True, Hf.
Qed.
End interface.

Lemma last_active_from_max n l :
  match last_active_from n l with
  | Some v => (n ≤ v)%nat ∧ (∃ i, l !! (v - n)%nat = Some i ∧ active i = true) ∧
      ∀ w i, l !! w = Some i → active i = true → (n + w ≤ v)%nat
  | None => ∀ w i, l !! w = Some i → active i = false
  end.
Proof.
  revert n. induction l as [|a l IH]; intros n; simpl; [by intros w i|]. specialize (IH (S n)).
  destruct (last_active_from (S n) l) as [v|].
  - destruct IH as (Hle&(i&Hi&Ha)&Hmax). split; [lia|]. split.
    + exists i. split; [|done]. by replace (v - n)%nat with (S (v - S n)) by lia.
    + intros [|w] j Hj Hja; [lia|]. specialize (Hmax w j Hj Hja). lia.
  - destruct (active a) eqn:Ha.
    + split; [done|]. split; [exists a; by rewrite Nat.sub_diag|]. intros [|w] j Hj Hja; [lia|].
      simpl in Hj. by rewrite (IH w j Hj) in Hja.
    + intros [|w] j Hj; [by injection Hj as <-|]. by apply (IH w).
Qed.

Section instance.
Context `{HashIter}.

Lemma max_active t k : contiguous t → max_of (versions_where row_active k t) = Z.of_nat <$> last_active (pg_view t k).
Proof.
  intros Ht. pose proof (max_of_spec (versions_where row_active k t)) as Hm.
  pose proof (last_active_from_max 0 (pg_view t k)) as Hl. unfold last_active.
  assert (∀ v r, t !! (k, v) = Some r → row_active r = true →
    0 ≤ v ∧ ∃ i, pg_view t k !! Z.to_nat v = Some i ∧ active i = true) as Hrow.
  { intros v r Hr Ha. destruct (Ht k) as (n&Hb&Hn). assert (0 ≤ v < Z.of_nat n) as Hv by (apply Hn; by rewrite Hr).
    split; [lia|]. exists (stored r). split; [|done]. rewrite lookup_pg_view, Z2Nat.id by (done || lia). by rewrite Hr. }
  assert (∀ w i, pg_view t k !! w = Some i → active i = true → Z.of_nat w ∈ versions_where row_active k t) as Hview.
  { intros w i. rewrite lookup_pg_view by done. intros (r&Hr&->)%fmap_Some Ha. apply elem_of_versions. by exists r. }
  destruct (max_of _) as [v|].
  - destruct Hm as [Hin Hmax]. apply elem_of_versions in Hin as (r&Hr&Ha). destruct (Hrow v r Hr Ha) as (Hv&i&Hi&Hia).
    destruct (last_active_from 0 (pg_view t k)) as [w|]; [|by rewrite (Hl _ _ Hi) in Hia].
    destruct Hl as (_&(j&Hj&Hja)&Hwmax). rewrite Nat.sub_0_r in Hj. specialize (Hwmax _ _ Hi Hia).
    specialize (Hmax _ (Hview _ _ Hj Hja)). simpl. f_equal. lia.
  - destruct (last_active_from 0 (pg_view t k)) as [w|]; [|done]. destruct Hl as (_&(j&Hj&Hja)&_). rewrite Nat.sub_0_r in Hj.
    apply Hview in Hj; [|done]. rewrite Hm in Hj. by apply elem_of_nil in Hj.
Qed.

Lemma elem_of_pg_list kind t l t' r : contiguous t → pg_list kind t = (Ok l, t') →
  r ∈ l ↔ ref_kind r = kind ∧ Z.of_nat <$> last_active (pg_view t (kind, ref_id r)) = Some (ref_version r).
Proof.
  intros Ht [= <- <-]. rewrite list_elem_of_omap. setoid_rewrite elem_of_remove_dups. split.
  - intros (id&Hid&(v&Hv&->)%fmap_Some). split; [done|]. cbn [ref_id ref_version]. by rewrite <- max_active.
  - intros [<- Hv]. exists (ref_id r). rewrite max_active, Hv by done. split; [|by destruct r].
    rewrite <- max_active in Hv by done. pose proof (max_of_spec (versions_where row_active (ref_kind r, ref_id r) t)) as Hm.
    rewrite Hv in Hm. destruct Hm as [(row&Hr&Ha)%elem_of_versions _].
    apply list_elem_of_fmap. exists (ref_kind r, ref_id r). split; [done|].
    apply list_elem_of_fmap. exists ((ref_kind r, ref_id r), ref_version r). split; [done|].
    apply list_elem_of_fmap. exists (((ref_kind r, ref_id r), ref_version r), row). split; [done|].
    apply list_elem_of_filter. split; [done|]. by apply elem_of_hash_iter.
Qed.

Record PgCatalog := mkPgCatalog { pg_rows : Table; pg_rows_ok : contiguous pg_rows }.

Definition on_rows {E A} (m : M Table E A) (Hm : ∀ t, contiguous t → contiguous (m t).2) : M PgCatalog E A := λ s,
  ((m (pg_rows s)).1, mkPgCatalog (m (pg_rows s)).2 (Hm _ (pg_rows_ok s))).

Lemma on_rows_ok {E A} (m : M Table E A) Hm s r s' : on_rows m Hm s = (r, s') → m (pg_rows s) = (r, pg_rows s').
Proof. unfold on_rows. intros [= <- <-]. apply surjective_pairing. Qed.

(** [impl StoreCatalog for PgStore] keeps what the catalogue relies on. *)
#[global] Instance pg_store : StoreCatalog PgCatalog.
Proof.
  refine {|
    cat_view := λ s, pg_view (pg_rows s);
    insert_catalog_item := λ kind id data, on_rows (pg_insert kind id data) (contiguous_insert kind id data);
    get_catalog_item := λ kind id v, on_rows (pg_get kind id v) (λ t Ht, Ht);
    last_catalog_ref := λ kind id, on_rows (pg_last kind id) (λ t Ht, Ht);
    list_catalog_refs := λ kind, on_rows (pg_list kind) (λ t Ht, Ht);
    deprecate_catalog_item := λ kind id, on_rows (pg_deprecate kind id) (contiguous_update _ _);
    delete_catalog_item := λ kind id, on_rows (pg_delete kind id) (contiguous_update _ _) |}.
  - intros kind id data s r s' Hi%on_rows_ok. destruct s as [t Ht], s' as [t' Ht']. cbn [pg_rows] in *.
    unfold pg_insert, mbind, m_bind in Hi. destruct (next_version (kind, id) t) as [[v|e|] t1] eqn:E; [|done..].
    apply next_version_count in E as (->&->&Hc); [|done]. unfold insert_version in Hi. rewrite count_fresh in Hi by done.
    injection Hi as <- <-. rewrite length_pg_view, pg_view_append by done. split; [done|]. split; [done|].
    intros k Hk. apply pg_view_other; [done..|]. intros v. by rewrite lookup_insert_ne by congruence.
  - intros kind id v s o s' Hi%on_rows_ok. destruct s as [t Ht], s' as [t' Ht']. cbn [pg_rows] in *.
    injection Hi as <- <-. split; [|intros k; apply pg_view_other; done]. unfold visible.
    rewrite lookup_pg_view by done. unfold as_i64. destruct (Z.ltb_spec v (2 ^ 63)).
    + replace (Z.of_nat (Z.to_nat v)) with (Z.max 0 v) by lia. by destruct (t !! _).
    + destruct (Ht (kind, id)) as (n&Hb&Hn). assert (∀ w, t !! (kind, id, w) = None ∨ 0 ≤ w < 2 ^ 63) as Hw.
      { intros w. destruct (t !! (kind, id, w)) eqn:E; [right|by left]. assert (is_Some (t !! (kind, id, w))) as ?%Hn by (by rewrite E). lia. }
      destruct (Hw (Z.min (-1) (v - 2 ^ 64))) as [->|]; [|lia]. destruct (Hw (Z.of_nat (Z.to_nat v))) as [->|]; [done|lia].
  - intros kind id s o s' Hi%on_rows_ok. destruct s as [t Ht], s' as [t' Ht']. cbn [pg_rows] in *.
    injection Hi as <- <-. rewrite max_active by done. split; [|intros k; apply pg_view_other; done].
    by destruct (last_active _).
  - intros kind s l s' Hi%on_rows_ok. destruct s as [t Ht], s' as [t' Ht']. cbn [pg_rows] in *. split.
    + intros r. by eapply elem_of_pg_list.
    + injection Hi as _ <-. intros k. by apply pg_view_other.
  - intros kind id s s' Hi%on_rows_ok. destruct s as [t Ht], s' as [t' Ht']. cbn [pg_rows] in *. injection Hi as <-.
    split; [by apply pg_view_update|]. intros k Hk. apply pg_view_other; [done..|]. intros v.
    rewrite lookup_update. destruct (t !! (k, v)); cbn [fmap option_fmap option_map fst]; [|done]. by rewrite decide_False.
  - intros kind id s s' Hi%on_rows_ok. destruct s as [t Ht], s' as [t' Ht']. cbn [pg_rows] in *. injection Hi as <-.
    split; [by apply pg_view_update|]. intros k Hk. apply pg_view_other; [done..|]. intros v.
    rewrite lookup_update. destruct (t !! (k, v)); cbn [fmap option_fmap option_map fst]; [|done]. by rewrite decide_False.
Defined.
End instance.

(** ** Publications at the same time

    A publication reads the last version and writes the next one; between the two
    others may read and write.  The primary key refuses the second of two that
    chose the same version. *)

Section concurrent.
Context `{HashIter}.

Record PubState := mkPub {
  pub_table : Table; pub_pending : list (string * string * Z * list Z); pub_done : list (string * string * Z * list Z) }.

Inductive PubStep :=
  | Chooses (kind id : string) (data : list Z)
  | Writes (i : nat)
  | Deprecates (kind id : string)
  | Deletes (kind id : string).

Definition pub_step (st : PubStep) (s : PubState) : PubState :=
  match st with
  | Chooses kind id data =>
      match next_version (kind, id) (pub_table s) with
      | (Ok v, t) => mkPub t (pub_pending s ++ [((kind, id), v, data)]) (pub_done s)
      | (_, t) => mkPub t (pub_pending s) (pub_done s)
      end
  | Writes i =>
      match pub_pending s !! i with
      | Some (k, v, data) =>
          match insert_version k v data (pub_table s) with
          | (Ok _, t) => mkPub t (base.delete i (pub_pending s)) (pub_done s ++ [(k, v, data)])
          | (_, t) => mkPub t (base.delete i (pub_pending s)) (pub_done s)
          end
      | None => s
      end
  | Deprecates kind id => mkPub (run_state (pg_deprecate kind id) (pub_table s)) (pub_pending s) (pub_done s)
  | Deletes kind id => mkPub (run_state (pg_delete kind id) (pub_table s)) (pub_pending s) (pub_done s)
  end.
Definition pub_run (l : list PubStep) (s : PubState) : PubState := foldl (λ s st, pub_step st s) s l.

(** The versions that were chosen are those of the table, or the next ones. *)
Record pub_ok (t0 : Table) (s : PubState) : Prop := {
  pub_contiguous : contiguous (pub_table s);
  pub_chosen : ∀ k v d, (k, v, d) ∈ pub_pending s → 0 ≤ v ≤ Z.of_nat (pg_count k (pub_table s)) ∧ v < 2 ^ 63;
  pub_kept : ∀ k v r, t0 !! (k, v) = Some r → cr_data <$> pub_table s !! (k, v) = Some (cr_data r);
  pub_written : ∀ k v d, (k, v, d) ∈ pub_done s → cr_data <$> pub_table s !! (k, v) = Some d;
  pub_distinct : NoDup (pub_done s).*1 }.

Lemma pg_count_insert t k v data t' : contiguous t → insert_version k v data t = (Ok (), t') → v = Z.of_nat (pg_count k t) →
  ∀ k', (pg_count k' t ≤ pg_count k' t')%nat.
Proof.
  intros Ht Hi -> k'. unfold insert_version in Hi. rewrite count_fresh in Hi by done. injection Hi as <-.
  destruct (Ht k') as (n&Hb&Hn). rewrite (pg_count_spec _ _ _ Hn). destruct (decide (k' = k)) as [->|Hk].
  - rewrite (pg_count_spec _ k (S n)); [lia|]. rewrite (pg_count_spec _ _ _ Hn). intros v.
    destruct (decide (v = Z.of_nat n)) as [->|Hv]; [rewrite lookup_insert_eq; split; [lia|eauto]|].
    rewrite lookup_insert_ne by congruence. rewrite Hn. lia.
  - rewrite (pg_count_spec _ k' n); [done|]. intros v. rewrite lookup_insert_ne by congruence. apply Hn.
Qed.

Lemma pg_count_update k f t k' : contiguous t → pg_count k' (update_where k f t) = pg_count k' t.
Proof.
  intros Ht. destruct (Ht k') as (n&Hb&Hn). rewrite (pg_count_spec _ _ _ Hn). apply pg_count_spec. intros v.
  by rewrite lookup_update, fmap_is_Some.
Qed.

Lemma pub_update_ok t0 s k f : (∀ r, cr_data (f r) = cr_data r) → pub_ok t0 s →
  pub_ok t0 (mkPub (update_where k f (pub_table s)) (pub_pending s) (pub_done s)).
Proof.
  intros Hf []. assert (∀ i, cr_data <$> update_where k f (pub_table s) !! i = cr_data <$> pub_table s !! i) as Hd.
  { intros i. rewrite lookup_update. destruct (pub_table s !! i); simpl; [|done]. case_decide; by rewrite ?Hf. }
  split; simpl; [by apply contiguous_update| | | |done].
  - intros k' v d Hin. rewrite pg_count_update by done. by eapply pub_chosen0.
  - intros k' v r Hr. rewrite Hd. by apply pub_kept0.
  - intros k' v d Hin. rewrite Hd. by apply pub_written0.
Qed.

Lemma pub_step_ok t0 st s : pub_ok t0 s → pub_ok t0 (pub_step st s).
Proof.
  intros Hs. destruct st as [kind id data|i|kind id|kind id]; [| |by apply pub_update_ok..]; pose proof Hs as [Hc Hp Hk Hw Hd]; cbn [pub_step].
  - destruct (next_version (kind, id) (pub_table s)) as [[v|e|] t] eqn:E.
    + destruct (next_version_count _ _ _ _ Hc E) as (->&->&Hv). split; simpl; [exact Hc| |exact Hk|exact Hw|exact Hd].
      intros k v d [Hin|[= -> -> ->]%list_elem_of_singleton]%elem_of_app; [by eapply Hp|]. lia.
    + unfold next_version in E. case_match; simplify_eq. by destruct s.
    + unfold next_version in E. by case_match.
  - destruct (pub_pending s !! i) as [[[k v] data]|] eqn:Hi; [|done].
    assert (∀ k v d, (k, v, d) ∈ base.delete i (pub_pending s) → (k, v, d) ∈ pub_pending s) as Hsub.
    { intros k' v' d' Hin. eapply elem_of_submseteq; [exact Hin|apply sublist_submseteq, sublist_delete]. }
    destruct (Hp k v data) as [Hv Hv63]; [by eapply list_elem_of_lookup_2|].
    destruct (pub_table s !! (k, v)) as [r|] eqn:Er.
    { unfold insert_version. rewrite Er. split; simpl; [exact Hc| |exact Hk|exact Hw|exact Hd]. intros k' v' d' Hin%Hsub. by eapply Hp. }
    assert (v = Z.of_nat (pg_count k (pub_table s))) as Hvc.
    { destruct (Hc k) as (n&Hb&Hn). rewrite (pg_count_spec _ _ _ Hn) in *. apply eq_None_not_Some in Er. rewrite Hn in Er. lia. }
    destruct (insert_version k v data (pub_table s)) as [[[]|e|] t'] eqn:Ei; [|by unfold insert_version in Ei; rewrite Er in Ei..].
    pose proof (pg_count_insert _ _ _ _ _ Hc Ei Hvc) as Hcount. unfold insert_version in Ei. rewrite Er in Ei. injection Ei as <-.
    assert (∀ k' v' d', cr_data <$> pub_table s !! (k', v') = Some d' →
      cr_data <$> <[(k, v) := mkCatRow data false false]> (pub_table s) !! (k', v') = Some d') as Hkeep.
    { intros k' v' d' Hd'. rewrite lookup_insert_ne; [done|]. intros [= <- <-]. by rewrite Er in Hd'. }
    split; simpl.
    + rewrite Hvc. apply contiguous_append; [done|]. by rewrite <- Hvc.
    + intros k' v' d' Hin%Hsub. destruct (Hp _ _ _ Hin). specialize (Hcount k'). lia.
    + intros k' v' r Hr. by apply Hkeep, Hk.
    + intros k' v' d' [Hin|[= -> -> ->]%list_elem_of_singleton]%elem_of_app; [by apply Hkeep, Hw|]. by rewrite lookup_insert_eq.
    + rewrite fmap_app. apply NoDup_app. split; [done|]. split; [|by apply NoDup_singleton].
      intros kv Hin ->%list_elem_of_singleton. apply list_elem_of_fmap in Hin as ([kv' d]&E&Hin). simpl in E. subst kv'.
      apply Hw in Hin. by rewrite Er in Hin.
Qed.
End concurrent.

(** C32: Whatever publications are made at the same time, and whatever is deprecated
    and deleted meanwhile, each publication that succeeds has a version of its own,
    which keeps what it published; nothing that was in the table is replaced, and
    the versions of an item follow one another without a gap. *)
Theorem publications_never_lost `{HashIter} (t : Table) (steps : list PubStep) :
  contiguous t →
  let s := pub_run steps (mkPub t [] []) in
  contiguous (pub_table s) ∧ NoDup (pub_done s).*1 ∧
  (∀ k v d, (k, v, d) ∈ pub_done s → cr_data <$> pub_table s !! (k, v) = Some d ∧ t !! (k, v) = None) ∧
  ∀ k v r, t !! (k, v) = Some r → cr_data <$> pub_table s !! (k, v) = Some (cr_data r).
Proof.
  intros Ht s. assert (pub_ok t s ∧ ∀ k v d, (k, v, d) ∈ pub_done s → t !! (k, v) = None) as [[] Hnew].
  { unfold s, pub_run. assert (pub_ok t (mkPub t [] []) ∧ ∀ k v d, (k, v, d) ∈ pub_done (mkPub t [] []) → t !! (k, v) = None) as Hi.
    { split; [|by intros k v d ?%elem_of_nil]. split; simpl; [done|by intros k v d ?%elem_of_nil|by intros k v r ->|
        by intros k v d ?%elem_of_nil|constructor]. }
    revert Hi. generalize (mkPub t [] []). clear s. induction steps as [|st steps IH]; intros s [Hs Hn]; simpl; [done|].
    apply IH. split; [by apply pub_step_ok|]. intros k v d Hin.
    destruct (t !! (k, v)) as [r|] eqn:Er; [exfalso|done].
    pose proof (pub_kept _ _ Hs _ _ _ Er) as Hk. destruct (pub_table s !! (k, v)) as [r'|] eqn:Er'; [|done].
    destruct st as [kind id data|i|kind id|kind id]; cbn [pub_step pub_done] in Hin; try (by rewrite (Hn _ _ _ Hin) in Er).
    - destruct (next_version _ _) as [[]]; by rewrite (Hn _ _ _ Hin) in Er.
    - destruct (pub_pending s !! i) as [[[k' v'] d']|]; [|by rewrite (Hn _ _ _ Hin) in Er].
      unfold insert_version in Hin. destruct (pub_table s !! (k', v')) eqn:Ek; cbn [pub_done] in Hin;
        [by rewrite (Hn _ _ _ Hin) in Er|].
      apply elem_of_app in Hin as [Hin|[= -> -> ->]%list_elem_of_singleton]; [by rewrite (Hn _ _ _ Hin) in Er|congruence]. }
  split; [done|]. split; [done|]. split; [|done]. intros k v d Hin. split; [by apply pub_written0|by eapply Hnew].
Qed.

(** ** Examples *)

#[local] Existing Instance canonical_iter.

(** Two publications choose version 0; the first that writes has it, the second is
    refused, and a third has version 1. *)
Definition pub_race : list PubStep :=
  [Chooses "/graphs" "g" [1]; Chooses "/graphs" "g" [2]; Writes 1; Writes 0; Chooses "/graphs" "g" [3]; Deprecates "/graphs" "g"; Writes 0].

Example pub_race_result : pub_done (pub_run pub_race (mkPub ∅ [] [])) = [("/graphs", "g", 0, [2]); ("/graphs", "g", 1, [3])].
Proof. vm_compute. reflexivity. Qed.

Lemma publications_never_lost_witness :
  let s := pub_run pub_race (mkPub ∅ [] []) in
  contiguous (pub_table s) ∧ cr_data <$> pub_table s !! ("/graphs", "g", 0) = Some [2].
Proof.
  destruct (publications_never_lost ∅ pub_race contiguous_empty) as (Hc&_&Hw&_). split; [exact Hc|].
  apply (Hw ("/graphs", "g") 0 [2]). by vm_compute; left.
Defined.

(** What is proved of a catalogue holds of the table: here an item of the table
    that is read by its version after it was published again. *)
Definition empty_catalog : PgCatalog := mkPgCatalog ∅ contiguous_empty.
Example pg_versions_kept :
  run_res (_ ← insert_catalog_item "/graphs" "g" [1]; _ ← insert_catalog_item "/graphs" "g" [2];
           _ ← deprecate_catalog_item "/graphs" "g"; _ ← insert_catalog_item "/graphs" "g" [3];
           a ← get_catalog_item "/graphs" "g" 0; l ← list_catalog_refs "/graphs"; mret (a, l)) empty_catalog
  = Ok (Some [1], [mkRef "/graphs" "g" 2]).
Proof. vm_compute. reflexivity. Qed.
