(* ===== verification/Domains.v ===== *)
(** * The domain catalogues: graphs, tools, experts
    ([graph/mod.rs], [graph/graph.rs], [graph/node.rs], [tools/mod.rs],
    [expert/mod.rs])

    Each wraps the generic catalogue over one item type; graphs and tools also
    keep a registry of native definitions. *)

From S2P Require Import Prelude Json Channels Types Spec Catalog.

(** ** Graphs *)

Record NodeSpec := mkNodeSpec { ns_kind : NodeKindId; ns_common : CommonSpec }.

Record GraphSpec := mkGraphSpec {
  gs_id : GraphId;
  gs_nodes : gmap string NodeSpec;
  gs_edges : gmap string GraphNodeId;
  gs_entry : GraphNodeId;
  gs_common : CommonSpec
}.

Definition graph_spec_new (id : GraphId) (entry : GraphNodeId) (common : CommonSpec) : GraphSpec :=
  mkGraphSpec id ∅ ∅ entry common.

Definition add_node (g : GraphSpec) (id : GraphNodeId) (params : NodeSpec) : GraphSpec :=
  mkGraphSpec (gs_id g) (<[id := params]> (gs_nodes g)) (gs_edges g) (gs_entry g) (gs_common g).

Definition add_edge (g : GraphSpec) (src dest : GraphNodeId) : GraphSpec :=
  mkGraphSpec (gs_id g) (gs_nodes g) (<[src := dest]> (gs_edges g)) (gs_entry g) (gs_common g).

(** ** A registry of native definitions over a catalogue *)

(** [serde_json]'s encoding of an item type, and that it round-trips. *)
Class JsonCodec (C : Type) := {
  encode : C → list Z;
  decode : list Z → option C;
  decode_encode : ∀ c, decode (encode c) = Some c
}.

(** A codec that numbers the values of a countable type, for the examples. *)
Definition numbered {C : Type} `{Countable C} : JsonCodec C := {|
  encode := λ c, [Zpos (countable.encode c)];
  decode := λ l, match l with [Zpos p] => countable.decode p | _ => None end;
  decode_encode := countable.decode_encode |}.

(** [impl CatalogItem for GraphSpec] *)
#[export] Instance GraphSpec_item `{JsonCodec GraphSpec} : Catalogable GraphSpec := {|
  KIND := "/marie/catalog/graphs"; item_id := gs_id; to_vec := encode;
  from_slice := decode; from_to_vec := decode_encode |}.

Record Domain (S N : Type) := mkDomain { d_catalog : S; d_native : gmap string N }.
Arguments mkDomain {S N}.
Arguments d_catalog {S N}.
Arguments d_native {S N}.

Definition on_catalog {S N E A} (m : M S E A) : M (Domain S N) E A := λ d,
  let '(r, s) := m (d_catalog d) in (r, mkDomain s (d_native d)).

Definition native_insert {S N E} (id : string) (n : N) : M (Domain S N) E () := λ d,
  (Ok (), mkDomain (d_catalog d) (<[id := n]> (d_native d))).

(** The loop of every [list]: dereference each reference, stopping at the
    first error. *)
Definition deref_all {S : Type} `{StoreCatalog S} {C : Type} `{Catalogable C}
    (refs : list CatalogItemRef) : M S CatalogError (list C) :=
  mmap deref refs.

Section graphs.
Context {S : Type} `{StoreCatalog S} `{JsonCodec GraphSpec}.
Notation GM := (M (Domain S CommonSpec) CatalogError).

Definition graphs_register (id : NodeKindId) (spec : CommonSpec) : GM () :=
  native_insert id spec.

Definition graphs_insert (g : GraphSpec) : GM GraphRef :=
  r ← on_catalog (publish g); mret (mkGraphRef r).

Definition graphs_replace (g : GraphSpec) : GM GraphRef :=
  _ ← on_catalog (latest_ref (C:=GraphSpec) (gs_id g));
  r ← on_catalog (publish g); mret (mkGraphRef r).

Definition graphs_delete (id : GraphId) : GM () :=
  r ← on_catalog (latest_ref (C:=GraphSpec) id);
  on_catalog (catalog_delete r).

Definition graphs_latest (id : GraphId) : GM (option GraphRef) :=
  on_catalog (absent_ok mkGraphRef (latest_ref (C:=GraphSpec) id)).

Definition graphs_get (r : GraphRef) : GM GraphSpec :=
  on_catalog (deref (catalog_ref r)).

Definition graphs_list : GM (list GraphSpec) :=
  refs ← on_catalog (catalog_list (C:=GraphSpec));
  on_catalog (deref_all refs).
End graphs.

(** ** Tools *)

Inductive ToolExecution := Native.

Record Tool := mkTool {
  tool_name : ToolId; tool_description : string; parameters_schema : Value;
  tool_execution : ToolExecution }.

#[export] Instance Tool_item `{JsonCodec Tool} : Catalogable Tool := {|
  KIND := "/marie/catalog/tools"; item_id := tool_name; to_vec := encode;
  from_slice := decode; from_to_vec := decode_encode |}.

Inductive ToolRef := TCatalog (r : CatalogItemRef) | TNative (id : ToolId).

Section tools.
Context {S : Type} `{StoreCatalog S} `{JsonCodec Tool}.
Notation TM := (M (Domain S Tool) CatalogError).

Definition tools_register (def : Tool) : TM () := native_insert (tool_name def) def.

Definition tools_insert (t : Tool) : TM ToolRef :=
  r ← on_catalog (publish t); mret (TCatalog r).

Definition tools_replace (t : Tool) : TM ToolRef :=
  _ ← on_catalog (latest_ref (C:=Tool) (tool_name t));
  r ← on_catalog (publish t); mret (TCatalog r).

Definition tools_delete (id : ToolId) : TM () :=
  r ← on_catalog (latest_ref (C:=Tool) id);
  on_catalog (catalog_delete r).

Definition tools_latest (id : ToolId) : TM (option ToolRef) := λ d,
  match d_native d !! id with
  | Some _ => (Ok (Some (TNative id)), d)
  | None => on_catalog (absent_ok TCatalog (latest_ref (C:=Tool) id)) d
  end.

Definition tools_get (id : ToolId) : TM (option Tool) := λ d,
  match d_native d !! id with
  | Some t => (Ok (Some t), d)
  | None => on_catalog (absent_ok (λ t, t) (latest (C:=Tool) id)) d
  end.

Definition tools_deref (r : ToolRef) : TM (option Tool) := λ d,
  match r with
  | TNative id => (Ok (d_native d !! id), d)
  | TCatalog r => on_catalog (absent_ok (λ t, t) (deref (C:=Tool) r)) d
  end.

(** The native tools come first, in the hash map's order. *)
Definition tools_list `{HashIter} : TM (list Tool) := λ d,
  (refs ← on_catalog (catalog_list (C:=Tool));
   items ← on_catalog (deref_all refs);
   mret ((hash_iter (d_native d)).*2 ++ items)) d.
End tools.

(** ** Experts *)

Record Expert := mkExpert {
  ex_id : ExpertId; ex_prompt : string; ex_model_id : ModelId; ex_allowed_tools : list ToolId }.

#[export] Instance Expert_item `{JsonCodec Expert} : Catalogable Expert := {|
  KIND := "/marie/catalog/experts"; item_id := ex_id; to_vec := encode;
  from_slice := decode; from_to_vec := decode_encode |}.

Section experts.
Context {S : Type} `{StoreCatalog S} `{JsonCodec Expert}.
Notation EM := (M S CatalogError).

Definition experts_create (e : Expert) : EM CatalogItemRef := publish e.

Definition experts_get (id : ExpertId) : EM (option Expert) :=
  absent_ok (λ e, e) (latest (C:=Expert) id).

Definition experts_delete (id : ExpertId) : EM () :=
  r ← latest_ref (C:=Expert) id; catalog_delete r.

Definition experts_list : EM (list Expert) :=
  refs ← catalog_list (C:=Expert); deref_all refs.

Definition experts_replace (e : Expert) : EM CatalogItemRef :=
  _ ← latest_ref (C:=Expert) (ex_id e); publish e.
End experts.

(** ** Lemmas and properties *)

(** A tool registered natively hides any catalogue entry of the same name,
    in every lookup, whatever the backend does. *)
Theorem tools_native_first {S : Type} `{StoreCatalog S} `{JsonCodec Tool}
    (t : Tool) (d : Domain S Tool) :
  let d' := run_state (tools_register t) d in
  tools_get (tool_name t) d' = (Ok (Some t), d') ∧
  tools_latest (tool_name t) d' = (Ok (Some (TNative (tool_name t))), d') ∧
  tools_deref (TNative (tool_name t)) d' = (Ok (Some t), d') ∧
  ∀ id, id ≠ tool_name t →
    run_res (tools_get id) d' = run_res (tools_get id) d.
Proof.
  intros d'. unfold tools_get, tools_latest, tools_deref, d', run_state, tools_register, native_insert.
  simpl. rewrite lookup_insert_eq. split_and!; [done..|].
  intros id Hid. unfold run_res. simpl. rewrite lookup_insert_ne by done.
  destruct (d_native d !! id); [done|]. unfold on_catalog. simpl.
  by destruct (absent_ok _ _ _).
Qed.

Section graph_properties.
Context `{HI : HashIter} `{HG : JsonCodec GraphSpec}.
Notation state := (Domain (gmap (string * string) (list StoredItem)) CommonSpec).

Lemma graphs_latest_in_memory (id : string) (d : state) :
  graphs_latest id d =
    (Ok ((λ v, mkGraphRef (mkRef KIND id (Z.of_nat v))) <$>
           last_active (InMemory.view (d_catalog d) (KIND, id))), d).
Proof.
  unfold graphs_latest, on_catalog, absent_ok. rewrite latest_ref_in_memory.
  destruct (last_active _); by destruct d.
Qed.

Lemma graphs_insert_latest (g : GraphSpec) (d : state) :
  ∃ r d', graphs_insert g d = (Ok r, d') ∧ graphs_latest (gs_id g) d' = (Ok (Some r), d') ∧
          graphs_get r d' = (Ok g, d').
Proof.
  destruct (publish_reads_back g (d_catalog d)) as (r&s1&Hp&Hr&_).
  exists (mkGraphRef r), (mkDomain s1 (d_native d)). split_and!.
  - unfold graphs_insert, mbind, m_bind, on_catalog. by rewrite Hp.
  - rewrite graphs_latest_in_memory. simpl.
    apply publish_ok in Hp as (->&Hv&_). simpl in Hv. rewrite Hv. by rewrite last_active_snoc.
  - unfold graphs_get, on_catalog. simpl. by rewrite Hr.
Qed.

Lemma graphs_replace_active (g : GraphSpec) (d : state) :
  graphs_replace g d =
    match last_active (InMemory.view (d_catalog d) (KIND, gs_id g)) with
    | None => (Err (CNotFound KIND (gs_id g)), d)
    | Some _ => graphs_insert g d
    end.
Proof.
  unfold graphs_replace, mbind at 1, m_bind. unfold on_catalog at 1. rewrite latest_ref_in_memory.
  by destruct (last_active _), d.
Qed.

(** Replacing a graph that has no active version fails with [NotFound]
    and publishes nothing; otherwise it behaves as publishing a new version,
    which the next lookup returns and dereferences to the new graph. *)
Theorem graphs_replace_spec (g : GraphSpec) (d : state) :
  match last_active (InMemory.view (d_catalog d) (KIND, gs_id g)) with
  | None => graphs_replace g d = (Err (CNotFound KIND (gs_id g)), d)
  | Some _ =>
      graphs_replace g d = graphs_insert g d ∧
      ∃ r d', graphs_insert g d = (Ok r, d') ∧
              graphs_latest (gs_id g) d' = (Ok (Some r), d') ∧
              graphs_get r d' = (Ok g, d')
  end.
Proof.
  rewrite graphs_replace_active. destruct (last_active _) as [v|]; [|done].
  split; [done|]. apply graphs_insert_latest.
Qed.
End graph_properties.
