(* ===== verification/Events.v ===== *)
(** * Events ([marie-core/src/events/mod.rs])

    An [EventBus] gives an event to the subscribers of each of its topics,
    through a router: the hub of the process, or that hub and the gossip of the
    network.  [EventBus::stream_events] subscribes the router to a topic when
    its first subscription is created. *)

From S2P Require Import Prelude Types Domains Broadcast Network.

Record EventEnvelope (T : Type) := mkEnvelope { ev_id : string; ev_topic : string; ev_payload : T }.
Arguments mkEnvelope {T}.
Arguments ev_id {T}.
Arguments ev_topic {T}.
Arguments ev_payload {T}.
Notation RawEvent := (EventEnvelope (list Z)) (only parsing).

(** [trait Event], with the codec of its type. *)
Class Event (E : Type) := {
  event_codec :: JsonCodec E;
  event_id : E → string;
  event_topics : E → list string
}.

(** [EventEnvelope::deserialize] *)
Definition event_deserialize {E} `{JsonCodec E} (env : RawEvent) : option (EventEnvelope E) :=
  mkEnvelope (ev_id env) (ev_topic env) <$> decode (ev_payload env).

(** ** Routers: [trait RouteEvents] *)

Class RouteEvents (R : Type) := {
  RouterStream : Type;
  router_emit : RawEvent → R → R;
  router_subscribe : string → R → R;
  router_unsubscribe : string → R → R;
  router_stream_events : string → R → option RouterStream * R
}.

Section routers.
Context `{Broadcast}.

(** [LocalEventRouter] *)
Definition local_emit (env : RawEvent) (h : Hub RawEvent) : Hub RawEvent :=
  hub_publish (ev_topic env) env h.
Definition local_subscribe (topic : string) (h : Hub RawEvent) : Hub RawEvent :=
  (hub_channel topic h).2.
Definition local_unsubscribe (topic : string) (h : Hub RawEvent) : Hub RawEvent := hub_remove topic h.
Definition local_stream_events (topic : string) (h : Hub RawEvent) : option HubStream * Hub RawEvent :=
  hub_stream topic h.

#[global] Instance LocalEventRouter : RouteEvents (Hub RawEvent) := {|
  RouterStream := HubStream;
  router_emit := local_emit; router_subscribe := local_subscribe;
  router_unsubscribe := local_unsubscribe; router_stream_events := local_stream_events |}.

Context `{PeerIds}.

(** [NetworkEventRouter] *)
Record NetworkEventRouter := mkNetworkRouter { nr_network : Network; nr_local : Hub RawEvent }.

(** [NetworkStrategy::emit_event]: the identifier of the event is not sent. *)
Definition emit_event (env : RawEvent) (n : Network) : Network :=
  execute (Publish (ev_topic env) (ev_payload env)) n.

Definition network_emit (env : RawEvent) (r : NetworkEventRouter) : NetworkEventRouter :=
  mkNetworkRouter (emit_event env (nr_network r)) (local_emit env (nr_local r)).
Definition network_router_subscribe (topic : string) (r : NetworkEventRouter) : NetworkEventRouter :=
  mkNetworkRouter (network_subscribe topic (nr_network r)) (local_subscribe topic (nr_local r)).
Definition network_router_unsubscribe (topic : string) (r : NetworkEventRouter) : NetworkEventRouter :=
  mkNetworkRouter (network_unsubscribe topic (nr_network r)) (local_unsubscribe topic (nr_local r)).

(** The two streams that [stream::select] merges, and the topic of the second. *)
Record NetworkStream := mkNetworkStream {
  ns_topic : string; ns_receiver : receiver; ns_local : HubStream }.

Definition network_stream_events (topic : string) (r : NetworkEventRouter) :
    option NetworkStream * NetworkEventRouter :=
  let n := nr_network r in
  let '(rx, events) := broadcast_subscribe (nw_events n) in
  let n := mkNetwork (nw_local_id n) (nw_phase n) (nw_commands n) (nw_calls n) events in
  let '(local, h) := local_stream_events topic (nr_local r) in
  (mkNetworkStream topic rx <$> local, mkNetworkRouter n h).

#[global] Instance NetworkRouter : RouteEvents NetworkEventRouter := {|
  RouterStream := NetworkStream;
  router_emit := network_emit; router_subscribe := network_router_subscribe;
  router_unsubscribe := network_router_unsubscribe; router_stream_events := network_stream_events |}.

(** What the network side of a stream keeps of an event. *)
Definition network_match (topic : string) (e : NetworkEvent) : option RawEvent :=
  match e with
  | EventReceived i event_topic data _ =>
      if decide (event_topic = topic) then Some (mkEnvelope i event_topic data) else None
  | _ => None
  end.

(** A turn of [stream::select], which alternates between the two sides. *)
Definition network_poll (from_local : bool) (s : NetworkStream) (r : NetworkEventRouter) :
    option RawEvent * NetworkEventRouter :=
  if from_local
  then let '(o, h) := hub_poll (ns_local s) (nr_local r) in (o, mkNetworkRouter (nr_network r) h)
  else
    let n := nr_network r in
    let '(o, events) := broadcast_recv (ns_receiver s) (nw_events n) in
    (o ≫= network_match (ns_topic s),
     mkNetworkRouter (mkNetwork (nw_local_id n) (nw_phase n) (nw_commands n) (nw_calls n) events) (nr_local r)).
End routers.

(** ** The bus *)

Section bus.
Context {R : Type} `{RouteEvents R}.

Record EventBus := mkEventBus { bus_router : R; bus_counter : gmap string Z }.

Definition bus_new (router : R) : EventBus := mkEventBus router ∅.

Record EventSubscription := mkSubscription { sub_topic : string; sub_stream : RouterStream }.

(** One envelope for each topic of the event. *)
Definition bus_emit {E} `{Event E} (e : E) (b : EventBus) : EventBus :=
  mkEventBus
    (foldl (λ r topic, router_emit (mkEnvelope (event_id e) topic (encode e)) r)
       (bus_router b) (event_topics e))
    (bus_counter b).

(** The count wraps, as [+=] does outside of debug builds. *)
Definition inc_sub (topic : string) (b : EventBus) : EventBus :=
  let count := wrap32 (default 0%Z (bus_counter b !! topic) + 1) in
  mkEventBus (if (count =? 1)%Z then router_subscribe topic (bus_router b) else bus_router b)
    (<[topic := count]> (bus_counter b)).

(** The new value is computed and never stored; nothing calls this. *)
Definition dec_sub (topic : string) (b : EventBus) : EventBus :=
  let count := default 0%Z (bus_counter b !! topic) in
  mkEventBus (if (count <=? 1)%Z then router_unsubscribe topic (bus_router b) else bus_router b)
    (<[topic := count]> (bus_counter b)).

(** [stream_events], then [EventSubscription::new]. *)
Definition bus_stream_events (topic : string) (b : EventBus) : option EventSubscription * EventBus :=
  let '(s, r) := router_stream_events topic (bus_router b) in
  (mkSubscription topic <$> s, inc_sub topic (mkEventBus r (bus_counter b))).

(** What a subscription yields of a raw event. *)
Definition sub_accept {E} `{JsonCodec E} (topic : string) (env : RawEvent) : option E :=
  if decide (ev_topic env = topic) then ev_payload <$> event_deserialize env else None.
End bus.

Arguments EventBus R : clear implicits.
Arguments EventSubscription R {_}.

(** ** Delivery through the local router *)

Section delivery.
Context `{Broadcast} {E : Type} `{Event E}.
Notation Bus := (EventBus (Hub RawEvent)).
Implicit Types b : Bus.

(** What the holders of a local bus do with it. *)
Inductive BusAction :=
  | Emit (e : E)
  | Open (topic : string)
  | Poll (s : HubStream).

Definition bus_act (a : BusAction) b : Bus :=
  match a with
  | Emit e => bus_emit e b
  | Open topic => (bus_stream_events topic b).2
  | Poll s => mkEventBus (hub_poll s (bus_router b)).2 (bus_counter b)
  end.

Definition bus_run (acts : list BusAction) b : Bus := foldl (λ b a, bus_act a b) b acts.

(** [n] turns of a subscription: the events it yields. *)
Fixpoint drain (n : nat) (sub : EventSubscription (Hub RawEvent)) b : list E :=
  match n with
  | O => []
  | S n =>
      let '(o, h) := hub_poll (sub_stream sub) (bus_router b) in
      match o ≫= sub_accept (sub_topic sub) with
      | Some e => e :: drain n sub (mkEventBus h (bus_counter b))
      | None => drain n sub (mkEventBus h (bus_counter b))
      end
  end.

(** The events emitted on a topic, once for each time an event names it. *)
Definition emitted (topic : string) (acts : list BusAction) : list E :=
  acts ≫= λ a, match a with Emit e => (λ _, e) <$> filter (λ t, t = topic) (event_topics e) | _ => [] end.

Definition envelope_on (topic : string) (e : E) : RawEvent := mkEnvelope (event_id e) topic (encode e).

(** The stream [s] is open on [topic] and has been sent [l] since. *)
Definition attached (topic : string) (s : HubStream) (l : list RawEvent) b : Prop :=
  hub_ok (bus_router b) ∧ hub_names (bus_router b) !! topic = Some s.1 ∧
  hub_unread (bus_router b) s = Some (lastn CHANNEL_CAPACITY l).

Lemma attached_emit topic s l b e :
  attached topic s l b →
  attached topic s (l ++ ((λ _, envelope_on topic e) <$> filter (λ t, t = topic) (event_topics e))) (bus_emit e b).
Proof.
  unfold attached, bus_emit. simpl. generalize (bus_router b). intros h. revert h l.
  induction (event_topics e) as [|t ts IH]; intros h l (Hok&Hn&Hu); simpl; [by rewrite app_nil_r|].
  destruct (hub_publish_ok t (mkEnvelope (event_id e) t (encode e)) h s Hok) as (Hok'&Hn'&Hu').
  rewrite Hu in Hu'.
  destruct (decide (t = topic)) as [->|Ht].
  - rewrite decide_True in Hu' by done. simpl in Hu'. rewrite lastn_snoc in Hu'.
    rewrite filter_cons_True by done. rewrite fmap_cons, cons_middle, app_assoc.
    apply IH. split_and!; [done|unfold local_emit; cbn [ev_topic]; by rewrite Hn'|done].
  - rewrite decide_False in Hu'.
    2: { intros Heq. apply Ht. destruct Hok as (_&Hinj&_). by eapply Hinj. }
    rewrite filter_cons_False by done. apply IH. split_and!; [done|unfold local_emit; cbn [ev_topic]; by rewrite Hn'|done].
Qed.

Lemma hub_channel_attached name (h h' : Hub (EventEnvelope (list Z))) i : hub_channel name h = (i, h') → hub_ok h →
  hub_ok h' ∧ (∀ s, hub_unread h' s = hub_unread h s) ∧
  (∀ name' j, hub_names h !! name' = Some j → hub_names h' !! name' = Some j).
Proof. intros Hc Hok. by destruct (hub_channel_ok _ _ _ _ Hc Hok) as (?&_&_&?&?). Qed.

Lemma attached_inc_sub topic s l b t : attached topic s l b → attached topic s l (inc_sub t b).
Proof.
  intros (Hok&Hn&Hu). unfold attached, inc_sub. simpl. case_match; [|done].
  unfold local_subscribe. destruct (hub_channel t (bus_router b)) as [i h] eqn:E0.
  destruct (hub_channel_attached _ _ _ _ E0 Hok) as (?&Hsame&Hkeep). simpl.
  split_and!; [done|by apply Hkeep|by rewrite Hsame].
Qed.

Lemma bus_stream_attached topic b o b' :
  bus_stream_events topic b = (o, b') → hub_ok (bus_router b) →
  ∃ s, o = Some (mkSubscription topic s) ∧ attached topic s [] b' ∧ hub_unread (bus_router b) s = None.
Proof.
  unfold bus_stream_events. simpl. unfold local_stream_events.
  destruct (hub_stream topic (bus_router b)) as [os h] eqn:Es. intros [= <- <-] Hok.
  destruct (hub_stream_ok _ _ _ _ Es Hok) as (Hok'&s&->&Hn&Hn0&Hu&_). exists s.
  split; [done|]. split; [|done]. by apply attached_inc_sub.
Qed.

Lemma attached_act topic s l b a :
  attached topic s l b → a ≠ Poll s →
  attached topic s (l ++ (envelope_on topic <$> emitted topic [a])) (bus_act a b).
Proof.
  intros Ha Hne. destruct a as [e|t|s']; unfold emitted; simpl; rewrite ?app_nil_r.
  - replace (envelope_on topic <$> ((λ _, e) <$> filter (λ t, t = topic) (event_topics e)))
      with ((λ _, envelope_on topic e) <$> filter (λ t, t = topic) (event_topics e)) by
      (induction (filter _ _); [done|]; simpl; by f_equal). by apply attached_emit.
  - destruct Ha as (Hok&Hn&Hu). unfold bus_stream_events. simpl. unfold local_stream_events.
    destruct (hub_stream t (bus_router b)) as [os h] eqn:Es. simpl. apply attached_inc_sub.
    destruct (hub_stream_ok _ _ _ _ Es Hok) as (Hok'&s'&_&_&Hnone&_&Ho&Hk).
    split_and!; [done|by apply Hk|]. simpl. rewrite Ho; [done|]. intros ->. congruence.
  - destruct Ha as (Hok&Hn&Hu). unfold attached. simpl.
    destruct (hub_poll s' (bus_router b)) as [o h] eqn:Ep. simpl.
    destruct (hub_poll_ok _ _ _ _ Ep Hok) as (?&->&_&_&Ho). split_and!; [done..|].
    rewrite Ho; [done|congruence].
Qed.

Lemma attached_run topic s acts l b :
  attached topic s l b → Forall (λ a, a ≠ Poll s) acts →
  attached topic s (l ++ (envelope_on topic <$> emitted topic acts)) (bus_run acts b).
Proof.
  intros Ha Hf. revert l b Ha. induction Hf as [|a acts Hne _ IH]; intros l b Ha.
  { unfold emitted. simpl. by rewrite app_nil_r. }
  pose proof (IH _ _ (attached_act _ _ _ _ a Ha Hne)) as Hr.
  assert (emitted topic (a :: acts) = emitted topic [a] ++ emitted topic acts) as ->
    by (unfold emitted; simpl; by rewrite app_nil_r).
  rewrite fmap_app, app_assoc. exact Hr.
Qed.

Lemma drain_envelopes topic s es b :
  hub_ok (bus_router b) → hub_unread (bus_router b) s = Some (envelope_on topic <$> es) →
  drain (length es) (mkSubscription topic s) b = es.
Proof.
  revert b. induction es as [|e es IH]; intros b Hok Hu; [done|]. simpl.
  destruct (hub_poll s (bus_router b)) as [o h] eqn:Ep.
  destruct (hub_poll_ok _ _ _ _ Ep Hok) as (Hok'&_&->&Ht&_). rewrite Hu in *. simpl in *.
  unfold sub_accept at 1. simpl. rewrite decide_True by done. unfold event_deserialize. simpl.
  rewrite decode_encode. simpl. f_equal. by apply IH.
Qed.
End delivery.

(** A subscription to a topic of a local bus yields, in order, exactly the
    events emitted on that topic after it was opened, whatever else is
    emitted, opened or read meanwhile: all of them when at most 256 are
    waiting, the last 256 otherwise.  Nothing emitted before is seen. *)
Theorem event_delivery `{Broadcast} {E : Type} `{Event E} (topic : string)
    (b b1 : EventBus (Hub (EventEnvelope (list Z)))) (o : option (EventSubscription (Hub (EventEnvelope (list Z)))))
    (acts : list (BusAction (E:=E))) :
  hub_ok (bus_router b) → bus_stream_events topic b = (o, b1) →
  ∃ sub, o = Some sub ∧
    (Forall (λ a, a ≠ Poll (sub_stream sub)) acts →
     let pending := lastn CHANNEL_CAPACITY (emitted topic acts) in
     drain (length pending) sub (bus_run acts b1) = pending).
Proof.
  intros Hok Hs. destruct (bus_stream_attached _ _ _ _ Hs Hok) as (s&->&Ha&_).
  eexists. split; [done|]. intros Hf pending.
  destruct (attached_run _ _ _ _ _ Ha Hf) as (Hok'&_&Hu). simpl in Hu.
  apply drain_envelopes; [done|]. rewrite Hu. unfold pending, lastn. f_equal.
  by rewrite length_fmap, fmap_drop.
Qed.

(** On a bus over the network an emission reaches the subscribers of the
    process as on a local bus, and is handed to the gossip once for each topic,
    in order; what the gossip delivers is kept by a stream exactly when it is
    on the stream's topic. *)
Theorem network_emission `{Broadcast} `{PeerIds} {E : Type} `{Event E} (e : E)
    (b : EventBus NetworkEventRouter) (topic i t : string) (data : list Z) (source : PeerId) :
  let b' := bus_emit e b in
  nr_local (bus_router b') =
    bus_router (bus_emit e (mkEventBus (nr_local (bus_router b)) (bus_counter b))) ∧
  nw_commands (nr_network (bus_router b')) =
    nw_commands (nr_network (bus_router b)) ++ ((λ t, Publish t (encode e)) <$> event_topics e) ∧
  network_match topic (EventReceived i t data source) =
    (if decide (t = topic) then Some (mkEnvelope i t data) else None).
Proof.
  unfold bus_emit. simpl. destruct (bus_router b) as [n h]. simpl.
  split; [|split; [|done]].
  - revert n h. induction (event_topics e) as [|t' ts IH]; intros n h; [done|]. simpl. apply IH.
  - revert n h. induction (event_topics e) as [|t' ts IH]; intros n h; simpl; [by rewrite app_nil_r|].
    etrans; [apply (IH (emit_event (mkEnvelope (event_id e) t' (encode e)) n))|].
    simpl. by rewrite <- app_assoc.
Qed.

(** Giving a subscription back never lowers the count of its topic: a second
    release of a topic with two subscriptions still does not unsubscribe. *)
Lemma dec_sub_keeps_count {R : Type} `{RouteEvents R} (topic : string) (b : EventBus R) (n : Z) :
  bus_counter b !! topic = Some n → bus_counter (dec_sub topic b) !! topic = Some n.
Proof. intros Hn. unfold dec_sub. simpl. by rewrite lookup_insert_eq, Hn. Qed.

(** ** Witnesses: notes, each under its own text and under a common topic *)

Definition note_codec : JsonCodec Z := {|
  encode := λ z, [z]; decode := λ l, match l with [z] => Some z | _ => None end;
  decode_encode := λ z, eq_refl |}.
Definition notes : Event Z := {|
  event_codec := note_codec; event_id := λ _, "";
  event_topics := λ z, if (z <? 10)%Z then ["all"; "small"] else ["all"] |}.

Definition demo_subscription : @EventSubscription _ (@LocalEventRouter queues) :=
  @mkSubscription _ (@LocalEventRouter queues) "small" (0, 0).
Definition demo_actions : list (@BusAction queues Z) :=
  [Emit 3%Z; Emit 42%Z; Open "all"; Emit 5%Z; @Poll queues Z (1, 0)].

Lemma event_delivery_witness :
  let b1 := (@bus_stream_events _ (@LocalEventRouter queues) "small" (bus_new (@hub_new queues _))).2 in
  @drain queues Z notes 2 demo_subscription (@bus_run queues Z notes demo_actions b1) = [3; 5]%Z.
Proof.
  intros b1.
  destruct (@event_delivery queues Z notes "small" (bus_new (@hub_new queues _)) b1
    (Some demo_subscription) demo_actions) as (sub&Hsub&Hd).
  - apply hub_new_ok.
  - apply injective_projections; reflexivity.
  - injection Hsub as <-. apply Hd. repeat constructor; discriminate.
Defined.
