(* ===== verification/Gateway.v ===== *)
(** * The gateway of a connection ([marie-gateway/src/lib.rs], [protocol.rs])

    An actor serves one user outside of the cluster: it executes the commands
    it receives on the sessions and workspaces the user has been granted, and
    relays their events and no others.  The clients of the cluster that it
    calls belong to a version of [marie-core] that is not in the repository:
    they are an interface, and what the actor asks of them is recorded. *)

From S2P Require Import Prelude Ids Json Types Broadcast Network Events.

(** ** What the actor calls *)

(** [SessionClient], [WorkspaceClient] and the predicates of [GatewayArgs]:
    a call per method, by the type of its result. *)
Inductive UpCall {WorkspaceId HitlFrameId UpSession UpWorkspace : Type} : Type → Type :=
  | CheckSession (id : SessionId) : UpCall bool
  | CheckWorkspace (id : WorkspaceId) : UpCall bool
  | SessionsGet (id : SessionId) : UpCall UpSession
  | SessionsInsert (id : SessionId) : UpCall ()
  | SessionsRemove (id : SessionId) : UpCall ()
  | SessionsAppendLog (id : SessionId) (line : string) : UpCall ()
  | SessionsQueryState (id : SessionId) (path : string) : UpCall (list Value)
  | SessionsPatchVars (id : SessionId) (path : string) (value : Value) : UpCall ()
  | SessionsReportUserInput (id : SessionId) (hitl_id : option HitlFrameId) (answers : Answers) : UpCall HitlFrameId
  | WorkspacesCreate (id : WorkspaceId) : UpCall ()
  | WorkspacesGet (id : WorkspaceId) : UpCall UpWorkspace
  | WorkspacesRemove (id : WorkspaceId) : UpCall ()
  | WorkspacesSessions (id : WorkspaceId) : UpCall (list SessionId)
  | WorkspacesQueryVars (id : WorkspaceId) (path : string) : UpCall (list Value)
  | WorkspacesPatchVars (id : WorkspaceId) (path : string) (value : Value) : UpCall ()
  | WorkspacesAddSession (id : WorkspaceId) (session : SessionId) : UpCall ()
  | WorkspacesRemoveSession (id : WorkspaceId) (session : SessionId) : UpCall ()
  | WorkspacesCreateSession (id : WorkspaceId) : UpCall SessionId.
Arguments UpCall : clear implicits.

(** [W] is the rest of the cluster; an error is its text. *)
Class Upstream (W : Type) := {
  WorkspaceId : Type;
  workspace_eq :: EqDecision WorkspaceId;
  workspace_countable :: Countable WorkspaceId;
  HitlFrameId : Type;
  UpSession : Type;
  UpWorkspace : Type;
  UpSessionEvent : Type;
  UpWorkspaceEvent : Type;
  session_id_of : UpSessionEvent → SessionId;
  workspace_id_of : UpWorkspaceEvent → WorkspaceId;
  is_session_event : RawEvent → bool;
  session_event_from : RawEvent → option UpSessionEvent;
  is_workspace_event : RawEvent → bool;
  workspace_event_from : RawEvent → option UpWorkspaceEvent;
  session_global_topics : list string;
  workspace_global_topics : list string;
  call_upstream : ∀ {A}, UpCall WorkspaceId HitlFrameId UpSession UpWorkspace A → M W string A
}.

Section gateway.
Context {W : Type} `{Upstream W}.
Notation Call := (UpCall WorkspaceId HitlFrameId UpSession UpWorkspace).

(** ** The protocol ([protocol.rs]) *)

Inductive MarieGatewayCommand :=
  | AccessSession (id : SessionId)
  | AccessWorkspace (id : WorkspaceId)
  | GetSession (id : SessionId)
  | RemoveSession (id : SessionId)
  | AppendSessionLog (session_id : SessionId) (line : string)
  | QuerySessionVars (session_id : SessionId) (path : string)
  | PatchSessionVars (session_id : SessionId) (path : string) (value : Value)
  | ReportUserInput (session_id : SessionId) (hitl_id : option HitlFrameId) (answers : Answers)
  | CreateWorkspace (id : WorkspaceId)
  | GetWorkspace (id : WorkspaceId)
  | RemoveWorkspace (id : WorkspaceId)
  | ListWorkspaceSessions (id : WorkspaceId)
  | QueryWorkspaceVars (workspace_id : WorkspaceId) (path : string)
  | PatchWorkspaceVars (workspace_id : WorkspaceId) (path : string) (value : Value)
  | AddSessionToWorkspace (workspace_id : WorkspaceId) (session_id : SessionId)
  | RemoveSessionFromWorkspace (workspace_id : WorkspaceId) (session_id : SessionId)
  | CreateSession (workspace_id : WorkspaceId).

Definition required_session (c : MarieGatewayCommand) : option SessionId :=
  match c with
  | GetSession i | RemoveSession i | AppendSessionLog i _ | QuerySessionVars i _
  | PatchSessionVars i _ _ | ReportUserInput i _ _ => Some i
  | _ => None
  end.

Definition required_workspace (c : MarieGatewayCommand) : option WorkspaceId :=
  match c with
  | GetWorkspace w | RemoveWorkspace w | ListWorkspaceSessions w | CreateSession w
  | QueryWorkspaceVars w _ | PatchWorkspaceVars w _ _ | AddSessionToWorkspace w _
  | RemoveSessionFromWorkspace w _ => Some w
  | _ => None
  end.

Inductive MarieGatewayEvent :=
  | RelayedSession (e : UpSessionEvent)
  | RelayedWorkspace (e : UpWorkspaceEvent)
  | SessionAccessGranted (id : SessionId)
  | SessionAccessDenied (id : SessionId)
  | WorkspaceAccessGranted (id : WorkspaceId)
  | WorkspaceAccessDenied (id : WorkspaceId)
  | SessionFetched (s : UpSession)
  | SessionRemoved (id : SessionId)
  | SessionLogAppended (id : SessionId)
  | SessionVarsQueried (session_id : SessionId) (values : list Value)
  | SessionVarsPatched (id : SessionId)
  | UserInputReported (session_id : SessionId) (hitl_id : HitlFrameId)
  | WorkspaceCreated (id : WorkspaceId)
  | WorkspaceFetched (w : UpWorkspace)
  | WorkspaceRemoved (id : WorkspaceId)
  | WorkspaceSessionsListed (workspace_id : WorkspaceId) (sessions : list SessionId)
  | WorkspaceVarsQueried (workspace_id : WorkspaceId) (values : list Value)
  | WorkspaceVarsPatched (id : WorkspaceId)
  | SessionAddedToWorkspace (workspace_id : WorkspaceId) (session_id : SessionId)
  | SessionRemovedFromWorkspace (workspace_id : WorkspaceId) (session_id : SessionId)
  | SessionCreated (workspace_id : WorkspaceId) (session_id : SessionId)
  | CommandRejected (reason : string)
  | CommandFailed (reason : string).

(** ** The actor ([lib.rs]) *)

(** What the actor does outside of itself: a call, with its result, or an
    event handed to the connection. *)
Inductive Action :=
  | Asked {A} (c : Call A) (r : A + string)
  | Sent (e : MarieGatewayEvent).

Inductive GatewayPhase := GatewayRunning | GatewayStopped | GatewayPanicked.

Record MarieGatewayActor := mkGateway {
  gw_phase : GatewayPhase;
  authorized_sessions : gset SessionId;
  authorized_workspaces : gset WorkspaceId;
  gw_trace : list Action;
  gw_world : W }.
Notation GM := (M MarieGatewayActor Empty_set).

(** [MarieGatewayActor::create] *)
Definition gateway_create (w : W) : MarieGatewayActor := mkGateway GatewayRunning ∅ ∅ [] w.
Definition gateway_subscribe `{PeerIds} `{Broadcast} (n : Network) : Network :=
  foldl (λ n topic, network_subscribe topic n) n (session_global_topics ++ workspace_global_topics).

(** [client.method(..).await], whose error is then matched on. *)
Definition ask {A} (c : Call A) : GM (A + string) := λ g,
  let record r w := mkGateway (gw_phase g) (authorized_sessions g) (authorized_workspaces g)
                      (gw_trace g ++ [Asked c r]) w in
  match call_upstream c (gw_world g) with
  | (Ok a, w) => (Ok (inl a), record (inl a) w)
  | (Err msg, w) => (Ok (inr msg), record (inr msg) w)
  | (Panic, w) => (Panic, mkGateway (gw_phase g) (authorized_sessions g) (authorized_workspaces g) (gw_trace g) w)
  end.

(** [let _ = self.foreign_tx.send(e).await] *)
Definition send (e : MarieGatewayEvent) : GM () := modify (λ g,
  mkGateway (gw_phase g) (authorized_sessions g) (authorized_workspaces g) (gw_trace g ++ [Sent e]) (gw_world g)).

Definition authorize_session (i : SessionId) : GM () := modify (λ g,
  mkGateway (gw_phase g) ({[ i ]} ∪ authorized_sessions g) (authorized_workspaces g) (gw_trace g) (gw_world g)).
Definition authorize_workspace (i : WorkspaceId) : GM () := modify (λ g,
  mkGateway (gw_phase g) (authorized_sessions g) ({[ i ]} ∪ authorized_workspaces g) (gw_trace g) (gw_world g)).

(** [match call { Ok(a) => reply(a), Err(err) => CommandFailed { .. } }] *)
Definition reply_with {A} (c : Call A) (reply : A → MarieGatewayEvent) : GM MarieGatewayEvent :=
  r ← ask c;
  mret (match r with inl a => reply a | inr err => CommandFailed err end).

(** The empty session that is inserted has the identifier given to it. *)
Definition handle_create_session (w : WorkspaceId) : GM MarieGatewayEvent :=
  created ← ask (WorkspacesCreateSession w);
  match created with
  | inr err => mret (CommandFailed ("échec de rattachement au workspace : " ++ err))
  | inl i =>
      inserted ← ask (SessionsInsert i);
      match inserted with
      | inl _ => _ ← authorize_session i; mret (SessionCreated w i)
      | inr err =>
          _ ← ask (WorkspacesRemoveSession w i);
          mret (CommandFailed ("échec de création de session : " ++ err))
      end
  end.

Definition gateway_dispatch (c : MarieGatewayCommand) : GM MarieGatewayEvent :=
  match c with
  | AccessSession _ | AccessWorkspace _ => panic
  | GetSession i => reply_with (SessionsGet i) SessionFetched
  | RemoveSession i => reply_with (SessionsRemove i) (λ _, SessionRemoved i)
  | AppendSessionLog i line => reply_with (SessionsAppendLog i line) (λ _, SessionLogAppended i)
  | QuerySessionVars i path => reply_with (SessionsQueryState i path) (SessionVarsQueried i)
  | PatchSessionVars i path value => reply_with (SessionsPatchVars i path value) (λ _, SessionVarsPatched i)
  | ReportUserInput i hitl_id answers =>
      reply_with (SessionsReportUserInput i hitl_id answers) (UserInputReported i)
  | CreateWorkspace w =>
      created ← ask (WorkspacesCreate w);
      match created with
      | inl _ => _ ← authorize_workspace w; mret (WorkspaceCreated w)
      | inr err => mret (CommandFailed err)
      end
  | GetWorkspace w => reply_with (WorkspacesGet w) WorkspaceFetched
  | RemoveWorkspace w => reply_with (WorkspacesRemove w) (λ _, WorkspaceRemoved w)
  | ListWorkspaceSessions w => reply_with (WorkspacesSessions w) (WorkspaceSessionsListed w)
  | QueryWorkspaceVars w path => reply_with (WorkspacesQueryVars w path) (WorkspaceVarsQueried w)
  | PatchWorkspaceVars w path value => reply_with (WorkspacesPatchVars w path value) (λ _, WorkspaceVarsPatched w)
  | AddSessionToWorkspace w i => reply_with (WorkspacesAddSession w i) (λ _, SessionAddedToWorkspace w i)
  | RemoveSessionFromWorkspace w i =>
      reply_with (WorkspacesRemoveSession w i) (λ _, SessionRemovedFromWorkspace w i)
  | CreateSession w => handle_create_session w
  end.

Definition session_ok (c : MarieGatewayCommand) (g : MarieGatewayActor) : bool :=
  match required_session c with Some i => bool_decide (i ∈ authorized_sessions g) | None => true end.
Definition workspace_ok (c : MarieGatewayCommand) (g : MarieGatewayActor) : bool :=
  match required_workspace c with Some w => bool_decide (w ∈ authorized_workspaces g) | None => true end.

Definition NOT_AUTHORIZED : string := "accès non autorisé pour cette session/workspace".

(** The reply to a command. *)
Definition gateway_reply (c : MarieGatewayCommand) : GM MarieGatewayEvent :=
  match c with
  | AccessSession i =>
      r ← ask (CheckSession i);
      match r with
      | inl true => _ ← authorize_session i; mret (SessionAccessGranted i)
      | inl false => mret (SessionAccessDenied i)
      | inr err => mret (CommandFailed err)
      end
  | AccessWorkspace w =>
      r ← ask (CheckWorkspace w);
      match r with
      | inl true => _ ← authorize_workspace w; mret (WorkspaceAccessGranted w)
      | inl false => mret (WorkspaceAccessDenied w)
      | inr err => mret (CommandFailed err)
      end
  | other =>
      authorized ← gets (λ g, session_ok other g && workspace_ok other g);
      if negb authorized then mret (CommandRejected NOT_AUTHORIZED) else gateway_dispatch other
  end.

Definition handle_command (c : MarieGatewayCommand) : GM () := reply ← gateway_reply c; send reply.

Definition handle_network_message (msg : RawEvent) : GM () :=
  if is_session_event msg then
    match session_event_from msg with
    | Some e =>
        authorized ← gets (λ g, bool_decide (session_id_of e ∈ authorized_sessions g));
        if authorized : bool then send (RelayedSession e) else mret ()
    | None => mret ()
    end
  else if is_workspace_event msg then
    match workspace_event_from msg with
    | Some e =>
        authorized ← gets (λ g, bool_decide (workspace_id_of e ∈ authorized_workspaces g));
        if authorized : bool then send (RelayedWorkspace e) else mret ()
    | None => mret ()
    end
  else mret ().

(** One turn of the loop of [run]. *)
Inductive GatewayTurn :=
  | ControlShutdown
  | ForeignCommand (c : MarieGatewayCommand)
  | ForeignClosed
  | NetworkMessage (msg : RawEvent).

Definition set_gateway_phase (p : GatewayPhase) (g : MarieGatewayActor) : MarieGatewayActor :=
  mkGateway p (authorized_sessions g) (authorized_workspaces g) (gw_trace g) (gw_world g).

Definition gateway_turn (t : GatewayTurn) (g : MarieGatewayActor) : MarieGatewayActor :=
  match gw_phase g with
  | GatewayRunning =>
      let after (r : Res Empty_set () * MarieGatewayActor) :=
        match r with (Ok _, g) => g | (_, g) => set_gateway_phase GatewayPanicked g end in
      match t with
      | ControlShutdown | ForeignClosed => set_gateway_phase GatewayStopped g
      | ForeignCommand c => after (handle_command c g)
      | NetworkMessage msg => after (handle_network_message msg g)
      end
  | _ => g
  end.

Definition gateway_run (ts : list GatewayTurn) (g : MarieGatewayActor) : MarieGatewayActor :=
  foldl (λ g t, gateway_turn t g) g ts.

(** ** What the actor may do *)

(** The identifiers that a call reads or changes. *)
Definition needs_session {A} (c : Call A) : option SessionId :=
  match c with
  | SessionsGet i | SessionsRemove i | SessionsAppendLog i _ | SessionsQueryState i _
  | SessionsPatchVars i _ _ | SessionsReportUserInput i _ _ => Some i
  | _ => None
  end.
Definition needs_workspace {A} (c : Call A) : option WorkspaceId :=
  match c with
  | WorkspacesGet w | WorkspacesRemove w | WorkspacesSessions w | WorkspacesQueryVars w _
  | WorkspacesPatchVars w _ _ | WorkspacesAddSession w _ | WorkspacesRemoveSession w _
  | WorkspacesCreateSession w => Some w
  | _ => None
  end.

(** The user was granted an identifier by the application, or created it. *)
Definition granted_session (t : list Action) (i : SessionId) : Prop :=
  Asked (CheckSession i) (inl true) ∈ t ∨ Asked (SessionsInsert i) (inl ()) ∈ t.
Definition granted_workspace (t : list Action) (w : WorkspaceId) : Prop :=
  Asked (CheckWorkspace w) (inl true) ∈ t ∨ Asked (WorkspacesCreate w) (inl ()) ∈ t.

(** An action, after those of [t].  A session is inserted under the identifier
    that a workspace gave it. *)
Definition permitted (t : list Action) (x : Action) : Prop :=
  match x with
  | Asked c _ =>
      (∀ i, needs_session c = Some i → granted_session t i) ∧
      (∀ w, needs_workspace c = Some w → granted_workspace t w) ∧
      match c with
      | SessionsInsert i => ∃ w, Asked (WorkspacesCreateSession w) (inl i) ∈ t
      | _ => True
      end
  | Sent (RelayedSession e) => granted_session t (session_id_of e)
  | Sent (RelayedWorkspace e) => granted_workspace t (workspace_id_of e)
  | Sent _ => True
  end.

Definition trace_ok (t : list Action) : Prop :=
  ∀ before x after, t = before ++ x :: after → permitted before x.

Definition confined (g : MarieGatewayActor) : Prop :=
  trace_ok (gw_trace g) ∧
  (∀ i, i ∈ authorized_sessions g → granted_session (gw_trace g) i) ∧
  (∀ w, w ∈ authorized_workspaces g → granted_workspace (gw_trace g) w).

Lemma trace_ok_snoc t x : trace_ok t → permitted t x → trace_ok (t ++ [x]).
Proof.
  intros Ht Hx before y after E. destruct (exists_last (l:=y :: after)) as (after'&z&E'); [done|].
  rewrite E', app_assoc in E. apply app_inj_tail in E as [-> ->].
  destruct after' as [|y' after']; simplify_eq/=.
  - by rewrite app_nil_r in Hx.
  - by eapply Ht.
Qed.

Lemma granted_session_app t x i : granted_session t i → granted_session (t ++ [x]) i.
Proof. unfold granted_session. rewrite !elem_of_app. tauto. Qed.
Lemma granted_workspace_app t x w : granted_workspace t w → granted_workspace (t ++ [x]) w.
Proof. unfold granted_workspace. rewrite !elem_of_app. tauto. Qed.
Hint Resolve granted_session_app granted_workspace_app : core.

(** A step of the actor that ends in a confined state, and in [Q] when it
    returns. *)
Definition safe {A} (P : MarieGatewayActor → Prop) (m : GM A) (Q : A → MarieGatewayActor → Prop) : Prop :=
  ∀ g, P g → match m g with (Ok a, g') => Q a g' | (Err _, _) => False | (Panic, g') => confined g' end.

Lemma safe_bind {A B} P (m : GM A) (k : A → GM B) R Q :
  safe P m R → (∀ a, safe (R a) (k a) Q) → safe P (m ≫= k) Q.
Proof.
  intros Hm Hk g Hg. specialize (Hm g Hg). unfold mbind, m_bind.
  destruct (m g) as [[a|[]|] g1]; [by apply Hk|done].
Qed.

(** Confined, authorized for the sessions [ss] and the workspaces [ws], and
    having done [past]. *)
Record within (ss : list SessionId) (ws : list WorkspaceId) (past : list Action) (g : MarieGatewayActor) : Prop := {
  within_confined : confined g;
  within_sessions : ∀ i, i ∈ ss → i ∈ authorized_sessions g;
  within_workspaces : ∀ w, w ∈ ws → w ∈ authorized_workspaces g;
  within_past : ∀ x, x ∈ past → x ∈ gw_trace g }.

Lemma safe_ask {A} ss ws past (c : Call A) :
  (∀ i, needs_session c = Some i → i ∈ ss) → (∀ w, needs_workspace c = Some w → w ∈ ws) →
  match c with SessionsInsert i => ∃ w, Asked (WorkspacesCreateSession w) (inl i) ∈ past | _ => True end →
  safe (within ss ws past) (ask c) (λ r, within ss ws (Asked c r :: past)).
Proof.
  intros Hs Hw Hi g [(Ht&Has&Haw) Hss Hws Hp]. unfold ask.
  assert (∀ r, permitted (gw_trace g) (Asked c r)) as Hperm.
  { intros r. simpl. split_and!; [auto..|]. destruct c; try done. destruct Hi as [w Hi]. exists w. auto. }
  destruct (call_upstream c (gw_world g)) as [[a|msg|] w]; [| |by split_and!].
  all: split; simpl; [split_and!; simpl; [by apply trace_ok_snoc|auto..]|done..|].
  all: intros x [->|Hx]%elem_of_cons; apply elem_of_app; [right; by left|left; auto].
Qed.

Lemma safe_authorize_session ss ws past i :
  granted_session past i →
  safe (within ss ws past) (authorize_session i) (λ _, within (i :: ss) ws past).
Proof.
  intros Hg g [(Ht&Has&Haw) Hss Hws Hp]. split; simpl; [split_and!; simpl; [done| |done]|set_solver|done..].
  intros j [->%elem_of_singleton|Hj]%elem_of_union; [|auto].
  destruct Hg as [Hg|Hg]; [left|right]; auto.
Qed.

Lemma safe_authorize_workspace ss ws past w :
  granted_workspace past w →
  safe (within ss ws past) (authorize_workspace w) (λ _, within ss (w :: ws) past).
Proof.
  intros Hg g [(Ht&Has&Haw) Hss Hws Hp]. split; simpl; [split_and!; simpl; [done..|]|done|set_solver|done].
  intros j [->%elem_of_singleton|Hj]%elem_of_union; [|auto].
  destruct Hg as [Hg|Hg]; [left|right]; auto.
Qed.

(** An event that answers a command, and is not relayed. *)
Definition is_reply (e : MarieGatewayEvent) : bool :=
  match e with RelayedSession _ | RelayedWorkspace _ => false | _ => true end.

Definition replied (e : MarieGatewayEvent) (g : MarieGatewayActor) : Prop := confined g ∧ is_reply e = true.

Lemma safe_reply ss ws past (e : MarieGatewayEvent) :
  is_reply e = true → safe (within ss ws past) (mret e) replied.
Proof. intros He g [Hg _ _ _]. by split. Qed.

(** A call without a duty of its own. *)
Lemma safe_reply_with {A} ss ws past (c : Call A) (reply : A → MarieGatewayEvent) :
  (∀ i, needs_session c = Some i → i ∈ ss) → (∀ w, needs_workspace c = Some w → w ∈ ws) →
  match c with SessionsInsert _ => False | _ => True end → (∀ a, is_reply (reply a) = true) →
  safe (within ss ws past) (reply_with c reply) replied.
Proof.
  intros Hs Hw Hc Hr. eapply safe_bind; [apply safe_ask; [done..|by destruct c]|].
  intros r. apply safe_reply. destruct r; [apply Hr|done].
Qed.

Lemma safe_create_session ss ws past w :
  w ∈ ws → safe (within ss ws past) (handle_create_session w) replied.
Proof.
  intros Hw. eapply safe_bind; [apply safe_ask; [done| |done]; by intros ? [= <-]|].
  intros [i|err]; [|by apply safe_reply].
  eapply safe_bind; [apply safe_ask; [done..|]; exists w; by left|].
  intros [[]|err]; eapply safe_bind.
  - apply safe_authorize_session. right. by left.
  - intros ?. by apply safe_reply.
  - apply safe_ask; [done| |done]. by intros ? [= <-].
  - intros ?. by apply safe_reply.
Qed.

Lemma safe_dispatch ss ws past c :
  (∀ i, required_session c = Some i → i ∈ ss) → (∀ w, required_workspace c = Some w → w ∈ ws) →
  safe (within ss ws past) (gateway_dispatch c) replied.
Proof.
  intros Hs Hw. destruct c; cbn [gateway_dispatch];
    try (by apply safe_reply_with); try (by intros g [Hg _ _ _]).
  - eapply safe_bind; [by apply safe_ask|]. intros [[]|err]; [|by apply safe_reply].
    eapply safe_bind; [apply safe_authorize_workspace; right; by left|]. intros ?. by apply safe_reply.
  - apply safe_create_session. by apply Hw.
Qed.

Lemma confined_within g : confined g → within [] [] [] g.
Proof. intros Hg. split; [done|..]; by intros ? ?%elem_of_nil. Qed.

Lemma authorized_within c g :
  confined g → session_ok c g && workspace_ok c g = true →
  within (option_list (required_session c)) (option_list (required_workspace c)) [] g.
Proof.
  intros Hg [Hs Hw]%andb_true_iff. split; [done|..]; unfold session_ok, workspace_ok in *.
  - intros i Hi. destruct (required_session c); [|by apply elem_of_nil in Hi].
    apply list_elem_of_singleton in Hi as ->. by apply bool_decide_eq_true in Hs.
  - intros w Hi. destruct (required_workspace c); [|by apply elem_of_nil in Hi].
    apply list_elem_of_singleton in Hi as ->. by apply bool_decide_eq_true in Hw.
  - by intros ? ?%elem_of_nil.
Qed.

Lemma safe_gated c :
  safe confined (authorized ← gets (λ g, session_ok c g && workspace_ok c g);
    if negb authorized then mret (CommandRejected NOT_AUTHORIZED) else gateway_dispatch c) replied.
Proof.
  intros g Hg. unfold mbind, m_bind, gets. cbn. destruct (_ && _) eqn:E; [|done].
  apply (safe_dispatch (option_list (required_session c)) (option_list (required_workspace c)) [] c);
    [by intros ? ->; left..|by apply authorized_within].
Qed.

Lemma safe_access {A} (c : Call A) (k : A + string → GM MarieGatewayEvent) :
  needs_session c = None → needs_workspace c = None → match c with SessionsInsert _ => False | _ => True end →
  (∀ r, safe (within [] [] [Asked c r]) (k r) replied) → safe confined (r ← ask c; k r) replied.
Proof.
  intros Hs Hw Hc Hk g Hg. apply confined_within in Hg. revert g Hg.
  eapply safe_bind; [|exact Hk]. apply safe_ask; [by rewrite Hs|by rewrite Hw|by destruct c].
Qed.

Lemma safe_gateway_reply c : safe confined (gateway_reply c) replied.
Proof.
  destruct c; try apply safe_gated; (apply safe_access; [done..|]);
    intros [[]|err]; try (by apply safe_reply); eapply safe_bind.
  - apply safe_authorize_session. left. by left.
  - intros ?. by apply safe_reply.
  - apply safe_authorize_workspace. left. by left.
  - intros ?. by apply safe_reply.
Qed.

Lemma confined_send e g :
  confined g → permitted (gw_trace g) (Sent e) → confined (run_state (send e) g).
Proof. intros (Ht&Hs&Hw) He. split_and!; simpl; [by apply trace_ok_snoc|auto..]. Qed.

Lemma confined_command c g : confined g → confined (run_state (handle_command c) g).
Proof.
  intros Hg. pose proof (safe_gateway_reply c g Hg) as Hr. unfold run_state, handle_command, mbind, m_bind.
  destruct (gateway_reply c g) as [[e|[]|] g1]; [|done]. destruct Hr as [Hg1 He].
  apply (confined_send e g1 Hg1). by destruct e.
Qed.

Lemma confined_message msg g : confined g → confined (run_state (handle_network_message msg) g).
Proof.
  intros Hg. unfold handle_network_message, run_state, mbind, m_bind, gets. cbn.
  repeat (case_match; cbn; try done).
  all: (apply confined_send; [done|]); simpl; destruct Hg as (_&Hs&Hw).
  - apply Hs. by eapply bool_decide_eq_true_1.
  - apply Hw. by eapply bool_decide_eq_true_1.
Qed.

Lemma confined_turn t g : confined g → confined (gateway_turn t g).
Proof.
  intros Hg. unfold gateway_turn. destruct (gw_phase g); [|done..]. destruct t as [|c| |msg]; [done| |done|].
  - pose proof (confined_command c g Hg) as Hc. unfold run_state in Hc. by destruct (handle_command c g) as [[]].
  - pose proof (confined_message msg g Hg) as Hc. unfold run_state in Hc.
    by destruct (handle_network_message msg g) as [[]].
Qed.

Lemma confined_create w : confined (gateway_create w).
Proof.
  split_and!; simpl; [|by intros ? ?%elem_of_empty..]. intros before x after E.
  by destruct before.
Qed.

Lemma confined_run ts g : confined g → confined (gateway_run ts g).
Proof. revert g. induction ts as [|t ts IH]; intros g Hg; [done|]. by apply IH, confined_turn. Qed.

(** ** Replies *)

Definition replies (t : list Action) : list MarieGatewayEvent :=
  omap (λ x, match x with Sent e => if is_reply e then Some e else None | Asked _ _ => None end) t.

(** What a command that was executed is answered. *)
Definition success (c : MarieGatewayCommand) (e : MarieGatewayEvent) : Prop :=
  match c with
  | AccessSession i => e = SessionAccessGranted i ∨ e = SessionAccessDenied i
  | AccessWorkspace w => e = WorkspaceAccessGranted w ∨ e = WorkspaceAccessDenied w
  | GetSession _ => ∃ s, e = SessionFetched s
  | RemoveSession i => e = SessionRemoved i
  | AppendSessionLog i _ => e = SessionLogAppended i
  | QuerySessionVars i _ => ∃ values, e = SessionVarsQueried i values
  | PatchSessionVars i _ _ => e = SessionVarsPatched i
  | ReportUserInput i _ _ => ∃ h, e = UserInputReported i h
  | CreateWorkspace w => e = WorkspaceCreated w
  | GetWorkspace _ => ∃ x, e = WorkspaceFetched x
  | RemoveWorkspace w => e = WorkspaceRemoved w
  | ListWorkspaceSessions w => ∃ l, e = WorkspaceSessionsListed w l
  | QueryWorkspaceVars w _ => ∃ values, e = WorkspaceVarsQueried w values
  | PatchWorkspaceVars w _ _ => e = WorkspaceVarsPatched w
  | AddSessionToWorkspace w i => e = SessionAddedToWorkspace w i
  | RemoveSessionFromWorkspace w i => e = SessionRemovedFromWorkspace w i
  | CreateSession w => ∃ i, e = SessionCreated w i
  end.

(** A command is rejected only when it bears an identifier that must have been
    authorized. *)
Definition answers (c : MarieGatewayCommand) (e : MarieGatewayEvent) : Prop :=
  success c e ∨ (∃ reason, e = CommandFailed reason) ∨
  (e = CommandRejected NOT_AUTHORIZED ∧ (is_Some (required_session c) ∨ is_Some (required_workspace c))).

(** A computation that replies nothing by itself and leaves the loop running,
    with what it returns. *)
Definition mute {A} (Q : A → Prop) (m : GM A) : Prop :=
  ∀ g, replies (gw_trace (m g).2) = replies (gw_trace g) ∧ gw_phase (m g).2 = gw_phase g ∧
    match (m g).1 with Ok a => Q a | Err _ => False | Panic => True end.

Lemma mute_ret {A} (Q : A → Prop) a : Q a → mute Q (mret a).
Proof. by intros Ha g. Qed.

Lemma mute_bind {A B} (R : A → Prop) (Q : B → Prop) (m : GM A) (k : A → GM B) :
  mute R m → (∀ a, R a → mute Q (k a)) → mute Q (m ≫= k).
Proof.
  intros Hm Hk g. destruct (Hm g) as (Hr&Hp&Ha). unfold mbind, m_bind.
  destruct (m g) as [[a|[]|] g1]; simpl in *; [|done]. destruct (Hk a Ha g1) as (Hr1&Hp1&Hq).
  split_and!; [congruence..|done].
Qed.

Lemma mute_ask {A} (c : Call A) : mute (λ _, True) (ask c).
Proof.
  intros g. unfold ask. destruct (call_upstream c (gw_world g)) as [[a|msg|] w]; simpl; [..|done].
  all: unfold replies; by rewrite omap_app, app_nil_r.
Qed.

Lemma mute_authorize_session i : mute (λ _, True) (authorize_session i).
Proof. by intros g. Qed.
Lemma mute_authorize_workspace w : mute (λ _, True) (authorize_workspace w).
Proof. by intros g. Qed.

Lemma mute_reply_with {A} c (call : Call A) (reply : A → MarieGatewayEvent) :
  (∀ a, success c (reply a)) → mute (answers c) (reply_with call reply).
Proof.
  intros Hr. eapply mute_bind; [apply mute_ask|]. intros [a|err] _; apply mute_ret.
  - by left.
  - right. left. by eexists.
Qed.

Lemma answers_failed c reason : answers c (CommandFailed reason).
Proof. right. left. by eexists. Qed.

Lemma mute_dispatch c : mute (answers c) (gateway_dispatch c).
Proof.
  destruct c; cbn [gateway_dispatch];
    try (apply mute_reply_with; intros ?; simpl; by eauto); try by intros g.
  - eapply mute_bind; [apply mute_ask|]. intros [[]|err] _; [|apply mute_ret, answers_failed].
    eapply mute_bind; [apply mute_authorize_workspace|]. intros _ _. apply mute_ret. by left.
  - eapply mute_bind; [apply mute_ask|]. intros [i|err] _; [|apply mute_ret, answers_failed].
    eapply mute_bind; [apply mute_ask|]. intros [[]|err] _.
    + eapply mute_bind; [apply mute_authorize_session|]. intros _ _. apply mute_ret. left. by exists i.
    + eapply mute_bind; [apply mute_ask|]. intros _ _. apply mute_ret, answers_failed.
Qed.

Lemma gate_closed c g :
  session_ok c g && workspace_ok c g = false →
  is_Some (required_session c) ∨ is_Some (required_workspace c).
Proof.
  unfold session_ok, workspace_ok. destruct (required_session c); [by left|].
  destruct (required_workspace c); [by right|done].
Qed.

Lemma mute_gateway_reply c : mute (answers c) (gateway_reply c).
Proof.
  assert (mute (answers c) (authorized ← gets (λ g, session_ok c g && workspace_ok c g);
    if negb authorized then mret (CommandRejected NOT_AUTHORIZED) else gateway_dispatch c)) as Hgated.
  { intros g. unfold mbind, m_bind, gets. cbn. destruct (_ && _) eqn:E; [apply mute_dispatch|].
    split_and!; [done..|]. right. right. split; [done|]. by eapply gate_closed. }
  destruct c; try exact Hgated; (eapply mute_bind; [apply mute_ask|]);
    intros [[]|err] _; try apply mute_ret, answers_failed; try (apply mute_ret; left; by right).
  - eapply mute_bind; [apply mute_authorize_session|]. intros _ _. apply mute_ret. left. by left.
  - eapply mute_bind; [apply mute_authorize_workspace|]. intros _ _. apply mute_ret. left. by left.
Qed.

Lemma answers_is_reply c e : answers c e → is_reply e = true.
Proof. intros [Hs|[[reason ->]|[-> _]]]; [|done..]. destruct c; naive_solver. Qed.

Lemma replies_app t x :
  replies (t ++ [Sent x]) = replies t ++ (if is_reply x then [x] else []).
Proof. unfold replies. rewrite omap_app. simpl. by destruct (is_reply x). Qed.

Lemma command_turn c g :
  gw_phase g = GatewayRunning →
  let g' := gateway_turn (ForeignCommand c) g in
  (∃ e, answers c e ∧ replies (gw_trace g') = replies (gw_trace g) ++ [e] ∧ gw_phase g' = GatewayRunning) ∨
  (replies (gw_trace g') = replies (gw_trace g) ∧ gw_phase g' = GatewayPanicked).
Proof.
  intros Hp g'. subst g'. unfold gateway_turn. rewrite Hp. cbn. destruct (mute_gateway_reply c g) as (Hr&Hp'&He).
  unfold handle_command, mbind, m_bind. destruct (gateway_reply c g) as [[e|[]|] g1]; cbn in *; [left|by right].
  exists e. rewrite replies_app, (answers_is_reply c e He), Hr. by rewrite Hp'.
Qed.

Lemma message_relays msg g :
  handle_network_message msg g = (Ok (), g) ∨
  ∃ e, is_reply e = false ∧ handle_network_message msg g = send e g.
Proof.
  unfold handle_network_message, mbind, m_bind, gets. cbn.
  destruct (is_session_event msg); [|destruct (is_workspace_event msg); [|by left]].
  - destruct (session_event_from msg) as [e|]; [|by left].
    destruct (bool_decide _); [right|by left]. by exists (RelayedSession e).
  - destruct (workspace_event_from msg) as [e|]; [|by left].
    destruct (bool_decide _); [right|by left]. by exists (RelayedWorkspace e).
Qed.

Lemma message_turn msg g :
  gw_phase g = GatewayRunning →
  let g' := gateway_turn (NetworkMessage msg) g in
  replies (gw_trace g') = replies (gw_trace g) ∧ gw_phase g' = GatewayRunning.
Proof.
  intros Hp g'. subst g'. unfold gateway_turn. rewrite Hp.
  destruct (message_relays msg g) as [->|(e&He&->)]; [done|]. cbn. by rewrite replies_app, He, app_nil_r.
Qed.

Lemma gateway_run_stopped ts g : gw_phase g ≠ GatewayRunning → gateway_run ts g = g.
Proof.
  intros Hg. induction ts as [|t ts IH]; [done|]. simpl.
  assert (gateway_turn t g = g) as ->; [|done]. unfold gateway_turn. by destruct (gw_phase g).
Qed.

(** The commands that a history gives to the actor. *)
Definition commands_of (ts : list GatewayTurn) : list MarieGatewayCommand :=
  omap (λ t, match t with ForeignCommand c => Some c | _ => None end) ts.

Lemma run_replies ts g :
  gw_phase g = GatewayRunning →
  let g' := gateway_run ts g in
  ∃ handled rest rs, commands_of ts = handled ++ rest ∧
    replies (gw_trace g') = replies (gw_trace g) ++ rs ∧ Forall2 answers handled rs ∧
    (gw_phase g' = GatewayRunning → rest = []).
Proof.
  revert g. induction ts as [|t ts IH]; intros g Hp.
  { exists [], [], []. split_and!; [done|by rewrite app_nil_r|done|done]. }
  assert (∀ g', gw_phase g' ≠ GatewayRunning → replies (gw_trace g') = replies (gw_trace g) →
    ∃ handled rest rs, commands_of (t :: ts) = handled ++ rest ∧
      replies (gw_trace (gateway_run ts g')) = replies (gw_trace g) ++ rs ∧ Forall2 answers handled rs ∧
      (gw_phase (gateway_run ts g') = GatewayRunning → rest = [])) as Hend.
  { intros g' Hg' Hr. exists [], (commands_of (t :: ts)), []. rewrite gateway_run_stopped by done.
    split_and!; [done|by rewrite app_nil_r|done|done]. }
  change (gateway_run (t :: ts) g) with (gateway_run ts (gateway_turn t g)).
  destruct t as [|c| |msg]; try (apply Hend; unfold gateway_turn; by rewrite Hp).
  - destruct (command_turn c g Hp) as [(e&He&Hr&Hp')|[Hr Hp']]; [|apply Hend; [by rewrite Hp'|done]].
    destruct (IH _ Hp') as (handled&rest&rs&Hc&Hrs&Hf&Hrest). exists (c :: handled), rest, (e :: rs).
    split_and!; [by apply (f_equal (cons c)) in Hc|by rewrite Hrs, Hr, <- app_assoc|by constructor|done].
  - destruct (message_turn msg g Hp) as [Hr Hp'].
    destruct (IH _ Hp') as (handled&rest&rs&Hc&Hrs&Hf&Hrest). exists handled, rest, rs.
    split_and!; [done|by rewrite Hrs, Hr|done..].
Qed.
End gateway.

(** ** Properties *)

(** C13: Whatever the user sends and whatever the cluster publishes, in any
    order, the actor reads or changes a session or a workspace, and relays an
    event of it, only after the application has granted it to this user or
    this user has created it; and it creates a session only under an
    identifier that a granted workspace gave it. *)
Theorem gateway_confines {W : Type} `{Upstream W} (w : W) (ts : list GatewayTurn) :
  trace_ok (gw_trace (gateway_run ts (gateway_create w))).
Proof. apply (confined_run ts), confined_create. Qed.

(** Each command that the actor takes is answered once, in the order of the
    commands, and by an event that bears its identifiers, a failure or, for a
    command that needs an authorization, a rejection; a command is left without
    an answer only when the actor has stopped. *)
Theorem gateway_replies_in_order {W : Type} `{Upstream W} (w : W) (ts : list GatewayTurn) :
  let g := gateway_run ts (gateway_create w) in
  ∃ handled rest, commands_of ts = handled ++ rest ∧ Forall2 answers handled (replies (gw_trace g)) ∧
    (gw_phase g = GatewayRunning → rest = []).
Proof.
  destruct (run_replies ts (gateway_create w) eq_refl) as (handled&rest&rs&Hc&Hr&Hf&Hrest).
  exists handled, rest. simpl in Hr. by rewrite Hr.
Qed.

(** A command that needs an identifier which is not authorized is rejected,
    and nothing is asked of the cluster. *)
Theorem unauthorized_is_rejected {W : Type} `{Upstream W} (c : MarieGatewayCommand) (g : MarieGatewayActor) :
  session_ok c g && workspace_ok c g = false →
  handle_command c g = send (CommandRejected NOT_AUTHORIZED) g.
Proof.
  intros Hc. pose proof (gate_closed _ _ Hc) as Hreq. unfold handle_command.
  destruct c; try (by destruct Hreq as [[? ?]|[? ?]]).
  all: unfold gateway_reply, gets, mbind, m_bind; cbv beta iota; by rewrite Hc.
Qed.

(** Attaching a session to a workspace, or detaching it, needs no access to
    that session. *)
Theorem attach_needs_no_session {W : Type} `{Upstream W} (w : WorkspaceId) (i : SessionId) (g : MarieGatewayActor)
    (w' : W) :
  w ∈ authorized_workspaces g → i ∉ authorized_sessions g →
  call_upstream (WorkspacesAddSession w i) (gw_world g) = (Ok (), w') →
  gw_trace (run_state (handle_command (AddSessionToWorkspace w i)) g) =
    gw_trace g ++ [Asked (WorkspacesAddSession w i) (inl ()); Sent (SessionAddedToWorkspace w i)].
Proof.
  intros Hw _ Hc. unfold run_state, handle_command, gateway_reply, gets, mbind, m_bind. cbn.
  rewrite bool_decide_eq_true_2 by done. cbn. unfold reply_with, ask, mbind, m_bind. rewrite Hc. cbn.
  by rewrite <- app_assoc.
Qed.

(** ** A cluster with one session and one workspace *)

Definition demo_session (n : Z) : SessionId := mkSessionId (mkID 0 n).

(** Access is granted to session 1; a workspace creates session 7, whose
    insertion is refused. *)
Definition demo_upstream : Upstream () := {|
  WorkspaceId := Z; HitlFrameId := Z; UpSession := SessionId; UpWorkspace := Z;
  UpSessionEvent := SessionId; UpWorkspaceEvent := Z;
  session_id_of := id; workspace_id_of := id;
  is_session_event := λ env, bool_decide (ev_topic env = "sessions"%string);
  session_event_from := λ env, match ev_payload env with [n] => Some (demo_session n) | _ => None end;
  is_workspace_event := λ env, bool_decide (ev_topic env = "workspaces"%string);
  workspace_event_from := λ env, match ev_payload env with [n] => Some n | _ => None end;
  session_global_topics := ["sessions"]%string; workspace_global_topics := ["workspaces"]%string;
  call_upstream := λ A c, match c in UpCall _ _ _ _ A return M () string A with
    | CheckSession i => mret (bool_decide (i = demo_session 1))
    | CheckWorkspace _ => throw "no such workspace"%string
    | SessionsGet i => mret i
    | SessionsInsert _ => throw "full"%string
    | SessionsRemove _ | SessionsAppendLog _ _ | SessionsPatchVars _ _ _ => mret ()
    | SessionsQueryState _ _ | WorkspacesQueryVars _ _ => mret []
    | SessionsReportUserInput _ h _ => mret (default 0%Z h)
    | WorkspacesCreate _ | WorkspacesRemove _ | WorkspacesPatchVars _ _ _ => mret ()
    | WorkspacesGet w => mret w
    | WorkspacesSessions _ => mret []
    | WorkspacesAddSession _ _ | WorkspacesRemoveSession _ _ => mret ()
    | WorkspacesCreateSession _ => mret (demo_session 7)
    end |}.

Definition demo_message (n : Z) : RawEvent := mkEnvelope "e" "sessions" [n].

Example demo_gateway :
  let _ := demo_upstream in
  let g := gateway_run
    [ForeignCommand (GetSession (demo_session 1)); NetworkMessage (demo_message 1);
     ForeignCommand (AccessSession (demo_session 2)); ForeignCommand (AccessSession (demo_session 1));
     NetworkMessage (demo_message 2); NetworkMessage (demo_message 1);
     ForeignCommand (GetSession (demo_session 1)); ForeignCommand (CreateWorkspace 3%Z);
     ForeignCommand (CreateSession 3%Z); ForeignCommand (GetSession (demo_session 7));
     ForeignClosed; ForeignCommand (GetWorkspace 3%Z)] (gateway_create ()) in
  omap (λ x, match x with Sent e => Some e | Asked _ _ => None end) (gw_trace g) =
    [CommandRejected NOT_AUTHORIZED; SessionAccessDenied (demo_session 2); SessionAccessGranted (demo_session 1);
     RelayedSession (demo_session 1 : UpSessionEvent); SessionFetched (demo_session 1 : UpSession);
     WorkspaceCreated 3%Z; CommandFailed "échec de création de session : full"; CommandRejected NOT_AUTHORIZED].
Proof. vm_compute. reflexivity. Qed.
