(* ===== verification/Post.v ===== *)
(** * Messages between nodes ([marie-core/src/post/mod.rs])

    A [PostOffice] sends a message on the channel of its type to one node,
    through a router: the hub of the process, or the network with that hub for
    the messages the node sends itself. *)

From S2P Require Import Prelude Types Domains Broadcast Network.

Record MessageEnveloppe (T : Type) := mkMessage {
  msg_channel : string; msg_destination : NodeId; msg_source : NodeId; msg_payload : T }.
Arguments mkMessage {T}.
Arguments msg_channel {T}.
Arguments msg_destination {T}.
Arguments msg_source {T}.
Arguments msg_payload {T}.
Notation RawMessage := (MessageEnveloppe (list Z)) (only parsing).

(** [trait Message], with the codec of its type. *)
Class Message (T : Type) := {
  message_codec :: JsonCodec T;
  CHANNEL : string
}.

Inductive PostError :=
  | SerializerError (msg : string)
  | DeserializeError (msg : string).

Definition message_serialize {T} `{JsonCodec T} (m : MessageEnveloppe T) : RawMessage :=
  mkMessage (msg_channel m) (msg_destination m) (msg_source m) (encode (msg_payload m)).

Definition message_deserialize {T} `{JsonCodec T} (m : RawMessage) : option (MessageEnveloppe T) :=
  mkMessage (msg_channel m) (msg_destination m) (msg_source m) <$> decode (msg_payload m).

(** ** Routers: [trait RoutePostMessage] *)

Class RoutePostMessage (P : Type) := {
  PostStream : Type;
  route_send : RawMessage → M P PostError ();
  route_stream : string → P → option PostStream * P
}.

Section routers.
Context `{Broadcast}.

(** [LocalPostMessageRouter]: the destination plays no part. *)
Definition local_send (m : RawMessage) : M (Hub RawMessage) PostError () :=
  modify (hub_publish (msg_channel m) m).

Definition local_stream_messages (channel : string) (h : Hub RawMessage) :
    option HubStream * Hub RawMessage := hub_stream channel h.

#[global] Instance LocalPostMessageRouter : RoutePostMessage (Hub RawMessage) := {|
  PostStream := HubStream; route_send := local_send; route_stream := local_stream_messages |}.

Context `{PeerIds} `{JsonCodec (MessageEnveloppe (list Z))}.

(** [NetworkPostMessageRouter] *)
Record NetworkPostMessageRouter := mkNetworkPost {
  np_network : Network; np_local_id : NodeId; np_local : Hub RawMessage }.

Definition network_post_new (n : Network) : NetworkPostMessageRouter :=
  mkNetworkPost n (node_of_peer (nw_local_id n)) hub_new.

Definition is_local (destination : NodeId) (p : NetworkPostMessageRouter) : bool :=
  bool_decide (destination = np_local_id p).

Definition network_send (m : RawMessage) : M NetworkPostMessageRouter PostError () := λ p,
  if is_local (msg_destination m) p
  then (Ok (), mkNetworkPost (np_network p) (np_local_id p) (run_state (local_send m) (np_local p)))
  else (Ok (), mkNetworkPost (send_message (encode m) (msg_destination m) (np_network p))
                 (np_local_id p) (np_local p)).

Record NetworkPostStream := mkPostStream {
  ps_channel : string; ps_receiver : receiver; ps_local : HubStream }.

Definition network_stream_messages (channel : string) (p : NetworkPostMessageRouter) :
    option NetworkPostStream * NetworkPostMessageRouter :=
  let n := np_network p in
  let '(rx, events) := broadcast_subscribe (nw_events n) in
  let n := mkNetwork (nw_local_id n) (nw_phase n) (nw_commands n) (nw_calls n) events in
  let '(local, h) := local_stream_messages channel (np_local p) in
  (mkPostStream channel rx <$> local, mkNetworkPost n (np_local_id p) h).

#[global] Instance NetworkPostRouter : RoutePostMessage NetworkPostMessageRouter := {|
  PostStream := NetworkPostStream; route_send := network_send; route_stream := network_stream_messages |}.

(** What the network side of a stream keeps of an event: the source that the
    network knows is dropped, the one the envelope claims is kept. *)
Definition message_match (channel : string) (e : NetworkEvent) : option RawMessage :=
  match e with
  | ReceivedMessage message _ =>
      match decode message with
      | Some env => if decide (msg_channel env = channel) then Some env else None
      | None => None
      end
  | _ => None
  end.
End routers.

(** ** The post office *)

(** [PostOffice::send]: the source is always the default identifier. *)
Definition post_send {P} `{RoutePostMessage P} {T} `{Message T} (msg : T) (destination : NodeId) :
    M P PostError () :=
  route_send (message_serialize (mkMessage CHANNEL destination NodeId_default msg)).

(** [PostOffice::stream_messages] *)
Definition post_stream {P} `{RoutePostMessage P} (T : Type) `{Message T} (p : P) : option PostStream * P :=
  route_stream CHANNEL p.

(** ** Laws *)

Lemma network_post_remote `{Broadcast} `{PeerIds} `{JsonCodec (MessageEnveloppe (list Z))} {T} `{Message T}
    (msg : T) (destination : NodeId) (p : NetworkPostMessageRouter) :
  destination ≠ np_local_id p →
  post_send msg destination p =
    (Ok (), mkNetworkPost
      (send_message (encode (message_serialize (mkMessage CHANNEL destination NodeId_default msg))) destination
        (np_network p)) (np_local_id p) (np_local p)).
Proof.
  intros Hne. unfold post_send, route_send, NetworkPostRouter, network_send, is_local, message_serialize.
  cbn [msg_destination]. by rewrite bool_decide_false.
Qed.

Section post_laws.
Context `{Broadcast}.

(** [P] holds of all that the streams of a hub have left to read. *)
Definition hub_all {A} (P : A → Prop) (h : Hub A) : Prop :=
  ∀ s l, hub_unread h s = Some l → Forall P l.

Lemma hub_all_new {A} (P : A → Prop) : hub_all P hub_new.
Proof. by intros [[|i] r] l. Qed.

Lemma hub_all_impl {A} (P Q : A → Prop) h : (∀ a, P a → Q a) → hub_all P h → hub_all Q h.
Proof. intros HPQ Hp s l Hl. eapply Forall_impl; [by eapply Hp|done]. Qed.

Lemma hub_all_publish {A} (P : A → Prop) name a h :
  hub_ok h → P a → hub_all P h → hub_all P (hub_publish name a h).
Proof.
  intros Hok Ha Hp s l. destruct (hub_publish_ok name a h s Hok) as (_&_&->).
  case_decide; [|apply Hp]. intros (l'&Hl'&->)%fmap_Some. unfold lastn.
  apply Forall_drop, Forall_app. split; [by eapply Hp|by constructor].
Qed.

Lemma hub_all_stream {A} (P : A → Prop) name h o h' :
  hub_ok h → hub_stream name h = (o, h') → hub_all P h → hub_all P h'.
Proof.
  intros Hok Hs Hp. destruct (hub_stream_ok _ _ _ _ Hs Hok) as (_&s&_&_&_&Hu&Ho&_).
  intros s' l Hl. destruct (decide (s' = s)) as [->|]; [by simplify_eq|]. rewrite Ho in Hl by done. by eapply Hp.
Qed.

Lemma hub_all_poll {A} (P : A → Prop) s h o h' :
  hub_ok h → hub_poll s h = (o, h') → hub_all P h →
  hub_all P h' ∧ ∀ a, o = Some a → P a.
Proof.
  intros Hok Hs Hp. destruct (hub_poll_ok _ _ _ _ Hs Hok) as (_&_&Ho&Ht&Hs').
  split.
  - intros s' l Hl. destruct (decide (s' = s)) as [->|]; [|rewrite Hs' in Hl by done; by eapply Hp].
    rewrite Ht in Hl. apply fmap_Some in Hl as (l'&Hl'&->). apply Hp in Hl'.
    destruct Hl' as [|a l' Ha Hl']; [by constructor|done].
  - intros a ->. symmetry in Ho. apply bind_Some in Ho as (l&Hl&Hh). apply Hp in Hl.
    by destruct Hl; simplify_eq/=.
Qed.
End post_laws.

(** On a local router a message reaches every open stream of its channel,
    whatever its destination, and its envelope names no source. *)
Theorem local_post_ignores_destination `{Broadcast} {T : Type} `{Message T} (msg : T)
    (destination : NodeId) (h : Hub (MessageEnveloppe (list Z))) (s : HubStream) (l : list (MessageEnveloppe (list Z))) :
  hub_ok h → hub_names h !! CHANNEL = Some s.1 → hub_unread h s = Some l →
  let env := mkMessage CHANNEL destination NodeId_default (encode msg) in
  run_res (post_send msg destination) h = Ok () ∧
  hub_unread (run_state (post_send msg destination) h) s = Some (lastn CHANNEL_CAPACITY (l ++ [env])).
Proof.
  intros Hok Hn Hu env. split; [done|].
  destruct (hub_publish_ok CHANNEL env h s Hok) as (_&_&Hp). rewrite decide_True, Hu in Hp by done. done.
Qed.
