(* ===== verification/Rpc.v ===== *)
(** * Remote procedure calls ([marie-core/src/rpc])

    A client sends a call on the channel of the RPC messages, keeps a one-shot
    channel for its reply under the call's identifier, and waits.  A server
    runs each call it reads in a task of its own and sends the reply to the
    source of the call's envelope. *)

From S2P Require Import Prelude Ids Json Types Domains Broadcast Network Post.

(** ** Messages ([protocol.rs]) *)

Record RpcId := mkRpcId { rpc_id_ : ID }.
Global Instance RpcId_eq_dec : EqDecision RpcId. Proof. solve_decision. Defined.
Global Instance RpcId_countable : Countable RpcId.
Proof. solve_newtype mkRpcId rpc_id_. Defined.

Inductive RpcError :=
  | RDeserializeError (msg : string)
  | RPostError (e : PostError)
  | TimeOut
  | NoExecutorFound (name : string)
  | RpcShutdown.

Record RpcCall := mkCall { call_id : RpcId; call_name : string; call_args : Value }.
Record RpcReply := mkReply { reply_id : RpcId; reply_result : RpcError + Value }.

Inductive RpcMessage :=
  | Call (c : RpcCall)
  | Ack (id : RpcId)
  | Reply (r : RpcReply).

#[export] Instance RpcMessage_message `{JsonCodec RpcMessage} : Message RpcMessage := {|
  CHANNEL := "/marie/rpc" |}.

(** ** The client ([client.rs]) *)

(** A [oneshot] channel: its sender has not sent, has sent, or is gone. *)
Inductive OneShot :=
  | Waiting
  | Sent (result : RpcError + Value)
  | Dropped.

(** [sent_at] is never read. *)
Record RpcTracker := mkTracker { sent_at : Z; tx : nat }.

(** The calls made, in order, each with its one-shot channel. *)
Record RpcClient := mkRpcClient {
  rc_tracked : gmap RpcId RpcTracker;
  rc_calls : list (RpcCall * OneShot) }.

Definition set_oneshot (cell : nat) (o : OneShot) (l : list (RpcCall * OneShot)) :=
  alter (λ p, (p.1, o)) cell l.

(** A tracker that is replaced is dropped, and its sender with it. *)
Definition track (id : RpcId) (t : RpcTracker) (c : RpcClient) : RpcClient :=
  mkRpcClient (<[id := t]> (rc_tracked c))
    (match rc_tracked c !! id with
     | Some old => set_oneshot (tx old) Dropped (rc_calls c)
     | None => rc_calls c
     end).

(** An acknowledgement is looked up and nothing else. *)
Definition handle_ack (id : RpcId) (c : RpcClient) : RpcClient := c.

Definition handle_reply (r : RpcReply) (c : RpcClient) : RpcClient :=
  match rc_tracked c !! reply_id r with
  | Some t => mkRpcClient (base.delete (reply_id r) (rc_tracked c))
                (set_oneshot (tx t) (Sent (reply_result r)) (rc_calls c))
  | None => c
  end.

(** The branch of [RpcClient::run]. *)
Definition on_client_message (m : RpcMessage) (c : RpcClient) : RpcClient :=
  match m with
  | Reply r => handle_reply r c
  | Ack id => handle_ack id c
  | Call _ => c
  end.

Section client.
Context {P : Type} `{RoutePostMessage P} `{JsonCodec RpcMessage}.

(** [call], up to the wait: the call is tracked, then sent. *)
Definition rpc_call (id : RpcId) (now : Z) (name : string) (args : Value) (destination : NodeId) :
    M (RpcClient * P) RpcError nat := λ '(c, p),
  let call := mkCall id name args in
  let cell := length (rc_calls c) in
  let c := track id (mkTracker now cell) (mkRpcClient (rc_tracked c) (rc_calls c ++ [(call, Waiting)])) in
  match post_send (Call call) destination p with
  | (Ok _, p) => (Ok cell, (c, p))
  | (Err e, p) => (Err (RPostError e), (c, p))
  | (Panic, p) => (Panic, (c, p))
  end.

(** The wait: [None] while there is no reply. *)
Definition rpc_await {R} (from_value : Value → R + string) (cell : nat) (c : RpcClient) :
    option (Res RpcError R) :=
  match rc_calls c !! cell with
  | Some (_, Sent (inr v)) =>
      Some (match from_value v with inl r => Ok r | inr msg => Err (RDeserializeError msg) end)
  | Some (_, Sent (inl e)) => Some (Err e)
  | Some (_, Dropped) => Some Panic
  | Some (_, Waiting) | None => None
  end.

(** [invoke]: only the first destination is used; none at all panics. *)
Definition rpc_invoke (id : RpcId) (now : Z) (name : string) (args : Value) (destinations : list NodeId) :
    M (RpcClient * P) RpcError nat :=
  match destinations with
  | [] => panic
  | d :: _ => rpc_call id now name args d
  end.
End client.

(** ** The server ([server.rs]) *)

(** [RpcExecutor]: [None] when it panics, which is what decoding the
    arguments does when it fails. *)
Definition RpcExecutor : Type := Value → NodeId → option Value.

Definition rpc_executor_new {Args R} (from_value : Value → option Args) (to_value : R → Value)
    (f : Args → NodeId → option R) : RpcExecutor := λ args source,
  match from_value args with
  | Some a => to_value <$> f a source
  | None => None
  end.

Notation RpcServer := (gmap string RpcExecutor) (only parsing).

Definition rpc_register (name : string) (e : RpcExecutor) (s : RpcServer) : RpcServer := <[name := e]> s.

Definition execute_call (s : RpcServer) (c : RpcCall) (source : NodeId) : option (RpcError + Value) :=
  match s !! call_name c with
  | None => Some (inl (NoExecutorFound (call_name c)))
  | Some e => inr <$> e (call_args c) source
  end.

(** The task of one call; the result of sending the reply is dropped. *)
Definition handle_call {P} `{RoutePostMessage P} `{JsonCodec RpcMessage} (s : RpcServer) (c : RpcCall)
    (source : NodeId) : M P PostError () :=
  match execute_call s c source with
  | Some result => ignore (post_send (Reply (mkReply (call_id c) result)) source)
  | None => mret ()
  end.

(** The branch of [RpcServer::run]: the task that it spawns. *)
Definition on_server_message (m : MessageEnveloppe RpcMessage) : option (RpcCall * NodeId) :=
  match msg_payload m with
  | Call c => Some (c, msg_source m)
  | _ => None
  end.

(** ** A client and a server that share the post office of a process *)

Section local.
Context `{Broadcast} `{JsonCodec RpcMessage}.
Notation Office := (Hub (MessageEnveloppe (list Z))).

Record Rpc := mkRpc {
  rpc_post : Office;
  rpc_client : RpcClient;
  client_stream : HubStream;
  server_stream : HubStream;
  server_tasks : list (RpcCall * NodeId) }.

(** One turn of the client's callers, of the server's loop, of one of its
    tasks, or of the client's loop. *)
Inductive RpcTurn :=
  | TurnCall (id : RpcId) (now : Z) (name : string) (args : Value) (destination : NodeId)
  | TurnServer
  | TurnTask (i : nat)
  | TurnClient.

(** [filter_map(deserialize)], on the next item of a stream. *)
Definition next_message (s : HubStream) (h : Office) : option (MessageEnveloppe RpcMessage) * Office :=
  let '(o, h) := hub_poll s h in (o ≫= message_deserialize, h).

Definition rpc_turn (server : RpcServer) (t : RpcTurn) (r : Rpc) : Rpc :=
  match t with
  | TurnCall id now name args destination =>
      let '(_, (c, h)) := rpc_call id now name args destination (rpc_client r, rpc_post r) in
      mkRpc h c (client_stream r) (server_stream r) (server_tasks r)
  | TurnServer =>
      let '(o, h) := next_message (server_stream r) (rpc_post r) in
      mkRpc h (rpc_client r) (client_stream r) (server_stream r)
        (server_tasks r ++ option_list (o ≫= on_server_message))
  | TurnTask i =>
      match server_tasks r !! i with
      | Some (c, source) =>
          mkRpc (run_state (handle_call server c source) (rpc_post r)) (rpc_client r)
            (client_stream r) (server_stream r) (base.delete i (server_tasks r))
      | None => r
      end
  | TurnClient =>
      let '(o, h) := next_message (client_stream r) (rpc_post r) in
      mkRpc h (match o with Some m => on_client_message (msg_payload m) (rpc_client r) | None => rpc_client r end)
        (client_stream r) (server_stream r) (server_tasks r)
  end.

Definition rpc_run (server : RpcServer) (ts : list RpcTurn) (r : Rpc) : Rpc :=
  foldl (λ r t, rpc_turn server t r) r ts.

(** Both loops have opened their stream; nothing else has happened. *)
Definition rpc_start : option Rpc :=
  let '(s, h) := post_stream RpcMessage (hub_new (A:=MessageEnveloppe (list Z))) in
  let '(c, h) := post_stream RpcMessage h in
  match s, c with
  | Some s, Some c => Some (mkRpc h (mkRpcClient ∅ []) c s [])
  | _, _ => None
  end.

(** ** What the calls are answered *)

(** The source of every envelope is the default identifier. *)
Definition answer (server : RpcServer) (c : RpcCall) : option (RpcError + Value) :=
  execute_call server c NodeId_default.

Definition message_good (server : RpcServer) (made : list RpcCall) (m : RpcMessage) : Prop :=
  match m with
  | Call c => c ∈ made
  | Reply r => ∃ c, c ∈ made ∧ call_id c = reply_id r ∧ answer server c = Some (reply_result r)
  | Ack _ => True
  end.

Definition envelope_good (server : RpcServer) (made : list RpcCall) (e : MessageEnveloppe (list Z)) : Prop :=
  msg_source e = NodeId_default ∧ ∀ m, decode (msg_payload e) = Some m → message_good server made m.

Record rpc_inv (server : RpcServer) (r : Rpc) : Prop := {
  inv_hub : hub_ok (rpc_post r);
  inv_messages : hub_all (envelope_good server (rc_calls (rpc_client r)).*1) (rpc_post r);
  inv_tasks : Forall (λ t, t.1 ∈ (rc_calls (rpc_client r)).*1 ∧ t.2 = NodeId_default) (server_tasks r);
  inv_tracked : ∀ id t, rc_tracked (rpc_client r) !! id = Some t →
    ∃ c, rc_calls (rpc_client r) !! tx t = Some (c, Waiting) ∧ call_id c = id;
  inv_sent : ∀ n c res, rc_calls (rpc_client r) !! n = Some (c, Sent res) →
    ∃ c', c' ∈ (rc_calls (rpc_client r)).*1 ∧ call_id c' = call_id c ∧ answer server c' = Some res;
  inv_dropped : NoDup (call_id <$> (rc_calls (rpc_client r)).*1) →
    ∀ n c, rc_calls (rpc_client r) !! n ≠ Some (c, Dropped) }.

Lemma message_good_mono server made made' m :
  made ⊆ made' → message_good server made m → message_good server made' m.
Proof. intros Hs. destruct m; simpl; [auto|done|]. intros (c&Hc&?&?). exists c. auto. Qed.

Lemma envelope_good_mono server made made' e :
  made ⊆ made' → envelope_good server made e → envelope_good server made' e.
Proof. intros Hs [He Hm]. split; [done|]. intros m Hd. by eapply message_good_mono, Hm. Qed.

Lemma set_oneshot_calls cell o l : (set_oneshot cell o l).*1 = l.*1.
Proof.
  apply list_eq. intros i. unfold set_oneshot. rewrite !list_lookup_fmap.
  destruct (decide (cell = i)) as [->|].
  - rewrite list_lookup_alter_eq. by destruct (l !! i) as [[]|].
  - by rewrite list_lookup_alter_ne.
Qed.

Lemma set_oneshot_lookup cell o l n :
  set_oneshot cell o l !! n =
    if decide (cell = n) then (λ p, (p.1, o)) <$> l !! n else l !! n.
Proof.
  unfold set_oneshot. case_decide as Hd; [subst; by rewrite list_lookup_alter_eq|].
  by rewrite list_lookup_alter_ne.
Qed.

Lemma envelope_good_encode server made destination m :
  message_good server made m →
  envelope_good server made (message_serialize (mkMessage CHANNEL destination NodeId_default m)).
Proof. intros Hm. split; [done|]. simpl. intros m'. rewrite decode_encode. by intros [= <-]. Qed.

Lemma next_message_good server made s h o h' :
  hub_ok h → next_message s h = (o, h') → hub_all (envelope_good server made) h →
  hub_ok h' ∧ hub_all (envelope_good server made) h' ∧
  ∀ m, o = Some m → msg_source m = NodeId_default ∧ message_good server made (msg_payload m).
Proof.
  unfold next_message. intros Hok Hn Hall. destruct (hub_poll s h) as [x h1] eqn:Ep. injection Hn as <- <-.
  destruct (hub_all_poll _ _ _ _ _ Hok Ep Hall) as [Hall' Hx].
  split_and!; [by destruct (hub_poll_ok _ _ _ _ Ep Hok)|done|].
  intros m (e&->&Hd)%bind_Some. destruct (Hx _ eq_refl) as [Hs Hm]. unfold message_deserialize in Hd.
  apply fmap_Some in Hd as (p&Hp&->). simpl. auto.
Qed.

Lemma rpc_inv_call server r id now name args destination :
  rpc_inv server r → rpc_inv server (rpc_turn server (TurnCall id now name args destination) r).
Proof.
  intros [Hok Hm Ht Htr Hs Hd]. destruct r as [h [tracked calls] cs ss tasks]; simpl in *.
  set (call := mkCall id name args).
  assert (calls.*1 ⊆ (calls ++ [(call, Waiting)]).*1) as Hsub by (rewrite fmap_app; set_solver).
  unfold track. simpl.
  set (calls' := match tracked !! id with Some old => _ | None => _ end).
  assert (calls'.*1 = (calls ++ [(call, Waiting)]).*1) as Hc.
  { unfold calls'. destruct (tracked !! id); [apply set_oneshot_calls|done]. }
  assert (∀ n c o, calls' !! n = Some (c, o) → o ≠ Dropped → (calls ++ [(call, Waiting)]) !! n = Some (c, o)) as Hl.
  { intros n c o. unfold calls'. destruct (tracked !! id) as [old|]; [|done].
    rewrite set_oneshot_lookup. destruct (decide (tx old = n)); [|done]. by intros ([]&?&?)%fmap_Some; simplify_eq. }
  split; simpl; rewrite ?Hc.
  - by apply hub_publish_ok.
  - apply hub_all_publish; [done| |].
    + apply envelope_good_encode. simpl. rewrite fmap_app. set_solver.
    + eapply hub_all_impl, Hm. intros e. by apply envelope_good_mono.
  - eapply Forall_impl; [done|]. intros t [Hin ?]. split; [by apply Hsub|done].
  - intros id' t. destruct (decide (id' = id)) as [->|Hne].
    + rewrite lookup_insert_eq. intros [= <-]. simpl. exists call. split; [|done].
      unfold calls'. destruct (tracked !! id) as [old|] eqn:Eo.
      * rewrite set_oneshot_lookup. destruct (Htr _ _ Eo) as (c&Hlc&_).
        apply lookup_lt_Some in Hlc as ?. rewrite decide_False by lia. by apply list_lookup_middle.
      * by apply list_lookup_middle.
    + rewrite lookup_insert_ne by done. intros Hid. destruct (Htr _ _ Hid) as (c&Hlc&Hcid). exists c. split; [|done].
      unfold calls'. destruct (tracked !! id) as [old|] eqn:Eo; [|by apply lookup_app_l_Some].
      rewrite set_oneshot_lookup. destruct (Htr _ _ Eo) as (c'&Hlc'&Hcid').
      rewrite decide_False; [by apply lookup_app_l_Some|]. intros Heq. rewrite Heq in Hlc'. congruence.
  - intros n c res Hn%Hl; [|done]. apply lookup_app_Some in Hn as [Hn|[_ Hn]].
    + destruct (Hs _ _ _ Hn) as (c'&?&?&?). exists c'. auto.
    + by apply list_lookup_singleton_Some in Hn as [_ ?].
  - rewrite !fmap_app. intros Hnd n c Hn. pose proof Hnd as (Hnd1&Hdis&_)%NoDup_app. revert Hn. unfold calls'.
    assert ((calls ++ [(call, Waiting)]) !! n ≠ Some (c, Dropped)) as Hnot.
    { rewrite lookup_app_Some. intros [Hn|[_ Hn]]; [by eapply Hd|].
      by apply list_lookup_singleton_Some in Hn as [_ ?]. }
    destruct (tracked !! id) as [old|] eqn:Eo; [exfalso|done].
    destruct (Htr _ _ Eo) as (c0&Hc0&Hid). apply (Hdis (call_id c0)).
    + apply list_elem_of_fmap_2, (list_elem_of_fmap_2 fst _ (c0, Waiting)). by eapply list_elem_of_lookup_2.
    + rewrite Hid. by apply list_elem_of_singleton.
Qed.

Lemma rpc_inv_client server r : rpc_inv server r → rpc_inv server (rpc_turn server TurnClient r).
Proof.
  intros [Hok Hm Ht Htr Hs Hd]. simpl.
  destruct (next_message (client_stream r) (rpc_post r)) as [o h] eqn:E.
  destruct (next_message_good server _ _ _ _ _ Hok E Hm) as (Hok'&Hm'&Ho).
  destruct r as [h0 [tracked calls] cs ss tasks]; simpl in *.
  destruct o as [[ch d src [c|id|[id result]]]|]; [by split..| |by split].
  destruct (Ho _ eq_refl) as [_ (c&Hc&Hid&Hans)]. simpl in Hid, Hans. subst id.
  simpl. unfold handle_reply. simpl. destruct (tracked !! call_id c) as [t|] eqn:Et; [|by split].
  destruct (Htr _ _ Et) as (c0&Hc0&Hid0).
  split; simpl; rewrite ?set_oneshot_calls; try done.
  - intros id' t' [Hne Hid']%lookup_delete_Some. destruct (Htr _ _ Hid') as (c'&Hc'&<-). exists c'.
    rewrite set_oneshot_lookup, decide_False; [done|]. intros Heq. rewrite Heq in Hc0. congruence.
  - intros n c' res. rewrite set_oneshot_lookup. destruct (decide (tx t = n)) as [<-|]; [|apply Hs].
    rewrite Hc0. intros [= <- <-]. exists c. by rewrite Hid0.
  - intros Hnd n c'. rewrite set_oneshot_lookup. destruct (decide (tx t = n)) as [<-|]; [|by apply Hd].
    by rewrite Hc0.
Qed.

Lemma rpc_inv_server server r : rpc_inv server r → rpc_inv server (rpc_turn server TurnServer r).
Proof.
  intros [Hok Hm Ht Htr Hs Hd]. simpl.
  destruct (next_message (server_stream r) (rpc_post r)) as [o h] eqn:E.
  destruct (next_message_good server _ _ _ _ _ Hok E Hm) as (Hok'&Hm'&Ho).
  split; simpl; try done. apply Forall_app. split; [done|].
  destruct o as [[ch d src [c|id|rep]]|]; simpl; [|by constructor..].
  destruct (Ho _ eq_refl) as [Hsrc Hc]. by constructor.
Qed.

Lemma rpc_inv_task server r i : rpc_inv server r → rpc_inv server (rpc_turn server (TurnTask i) r).
Proof.
  intros [Hok Hm Ht Htr Hs Hd]. simpl. destruct (server_tasks r !! i) as [[c src]|] eqn:Ei; [|by split].
  pose proof (proj1 (Forall_lookup _ _) Ht _ _ Ei) as [Hc Hsrc]. simpl in Hc, Hsrc. subst src.
  assert (Forall (λ t, t.1 ∈ (rc_calls (rpc_client r)).*1 ∧ t.2 = NodeId_default)
    (base.delete i (server_tasks r))) as Ht'.
  { rewrite delete_take_drop. apply Forall_app. split; [by apply Forall_take|by apply Forall_drop]. }
  unfold handle_call. destruct (execute_call server c NodeId_default) as [res|] eqn:Ea; split; simpl; try done.
  - by apply (hub_publish_ok _ _ _ (client_stream r)).
  - apply hub_all_publish; [done| |done]. apply envelope_good_encode. exists c. done.
Qed.

Lemma rpc_inv_turn server t r : rpc_inv server r → rpc_inv server (rpc_turn server t r).
Proof. destruct t; [apply rpc_inv_call|apply rpc_inv_server|apply rpc_inv_task|apply rpc_inv_client]. Qed.

Lemma rpc_inv_run server ts r : rpc_inv server r → rpc_inv server (rpc_run server ts r).
Proof. revert r. induction ts as [|t ts IH]; intros r Hr; [done|]. by apply IH, rpc_inv_turn. Qed.

Lemma rpc_inv_start server r : rpc_start = Some r → rpc_inv server r.
Proof.
  unfold rpc_start, post_stream; simpl. unfold local_stream_messages.
  destruct (hub_stream "/marie/rpc" hub_new) as [s h] eqn:E1.
  destruct (hub_stream "/marie/rpc" h) as [c h'] eqn:E2.
  destruct s as [s|]; [|done]. destruct c as [c|]; [|done]. intros [= <-].
  destruct (hub_stream_ok _ _ _ _ E1 hub_new_ok) as [Hok _].
  split; simpl.
  - by eapply hub_stream_ok.
  - eapply hub_all_stream; [exact Hok|exact E2|]. eapply hub_all_stream; [apply hub_new_ok|exact E1|apply hub_all_new].
  - by constructor.
  - done.
  - done.
  - done.
Qed.

(** Whatever the order of the turns, and whatever the channel loses, a call
    that gets a result gets what the server's executor answers to it. *)
Lemma rpc_sent_answer server r n c res :
  rpc_inv server r → NoDup (call_id <$> (rc_calls (rpc_client r)).*1) →
  rc_calls (rpc_client r) !! n = Some (c, Sent res) → answer server c = Some res.
Proof.
  intros Hr Hnd Hn. destruct (inv_sent _ _ Hr _ _ _ Hn) as (c'&Hc'&Hid&<-). f_equal.
  apply list_elem_of_lookup in Hc' as [j Hj].
  assert ((rc_calls (rpc_client r)).*1 !! n = Some c) as Hn' by by rewrite list_lookup_fmap, Hn.
  assert (n = j) as <-; [|congruence].
  eapply NoDup_lookup; [exact Hnd|by rewrite list_lookup_fmap, Hn'|by rewrite list_lookup_fmap, Hj, <- Hid].
Qed.

(** The calls that a sequence of turns makes. *)
Definition turn_call (t : RpcTurn) : option RpcCall :=
  match t with TurnCall id _ name args _ => Some (mkCall id name args) | _ => None end.

Lemma rpc_turn_calls server t r :
  (rc_calls (rpc_client (rpc_turn server t r))).*1 =
    (rc_calls (rpc_client r)).*1 ++ option_list (turn_call t).
Proof.
  destruct t as [id now name args d| |i|]; simpl; rewrite ?app_nil_r.
  - unfold track. simpl. destruct (rc_tracked (rpc_client r) !! id); simpl;
      by rewrite ?set_oneshot_calls, fmap_app.
  - by destruct (next_message _ _).
  - by destruct (server_tasks r !! i) as [[]|].
  - destruct (next_message _ _) as [[[? ? ? [| |rep]]|] ?]; simpl; try done.
    unfold handle_reply. destruct (rc_tracked _ !! _); [apply set_oneshot_calls|done].
Qed.

Lemma rpc_run_calls server ts r :
  (rc_calls (rpc_client (rpc_run server ts r))).*1 = (rc_calls (rpc_client r)).*1 ++ omap turn_call ts.
Proof.
  revert r. induction ts as [|t ts IH]; intros r; simpl; [by rewrite app_nil_r|].
  etrans; [apply (IH (rpc_turn server t r))|]. rewrite rpc_turn_calls, <- app_assoc. f_equal.
  by destruct (turn_call t).
Qed.

Lemma rpc_start_calls r : rpc_start = Some r → rc_calls (rpc_client r) = [].
Proof.
  unfold rpc_start. destruct (post_stream _ hub_new) as [s h]. destruct (post_stream _ h) as [c h'].
  destruct s, c; try done. by intros [= <-].
Qed.

(** Nothing is on its way: both loops have read all that was sent. *)
Record rpc_idle (r : Rpc) : Prop := {
  idle_hub : hub_ok (rpc_post r);
  idle_streams : client_stream r ≠ server_stream r;
  idle_client : hub_names (rpc_post r) !! "/marie/rpc" = Some (client_stream r).1 ∧
    hub_unread (rpc_post r) (client_stream r) = Some [];
  idle_server : hub_names (rpc_post r) !! "/marie/rpc" = Some (server_stream r).1 ∧
    hub_unread (rpc_post r) (server_stream r) = Some [];
  idle_tasks : server_tasks r = [] }.

Lemma rpc_start_idle r : rpc_start = Some r → rpc_idle r.
Proof.
  unfold rpc_start, post_stream; simpl. unfold local_stream_messages.
  destruct (hub_stream "/marie/rpc" hub_new) as [s h] eqn:E1.
  destruct (hub_stream "/marie/rpc" h) as [c h'] eqn:E2.
  destruct (hub_stream_ok _ _ _ _ E1 hub_new_ok) as (Hok&s'&->&Hn&_&Hu&_).
  destruct (hub_stream_ok _ _ _ _ E2 Hok) as (Hok'&c'&->&Hn'&Hf&Hu'&Ho&Hk). intros [= <-].
  assert (c' ≠ s') as Hne by (intros ->; congruence).
  split; simpl; try done. split; [by apply Hk|]. by rewrite Ho.
Qed.

Notation sent m := (message_serialize (mkMessage CHANNEL NodeId_default NodeId_default m)).

Lemma hub_send_unread (m : MessageEnveloppe (list Z)) h s l :
  hub_ok h → hub_names h !! msg_channel m = Some s.1 → hub_unread h s = Some l →
  length l < CHANNEL_CAPACITY →
  hub_unread (hub_publish (msg_channel m) m h) s = Some (l ++ [m]).
Proof.
  intros Hok Hn Hu Hl. destruct (hub_publish_ok (msg_channel m) m h s Hok) as (_&_&->).
  rewrite decide_True, Hu by done. simpl. f_equal. apply lastn_all. rewrite length_app. simpl. lia.
Qed.

Lemma next_message_spec s h m d l :
  hub_ok h → hub_unread h s = Some (message_serialize (mkMessage CHANNEL d NodeId_default m) :: l) →
  ∃ h', next_message s h = (Some (mkMessage "/marie/rpc" d NodeId_default m), h') ∧ hub_ok h' ∧
    hub_names h' = hub_names h ∧ hub_unread h' s = Some l ∧ ∀ s', s' ≠ s → hub_unread h' s' = hub_unread h s'.
Proof.
  intros Hok Hu. unfold next_message. destruct (hub_poll s h) as [o h'] eqn:Ep. exists h'.
  destruct (hub_poll_ok _ _ _ _ Ep Hok) as (Hok'&Hn&->&Ht&Ho). rewrite Hu in *. simpl in *.
  unfold message_deserialize. simpl. by rewrite decode_encode.
Qed.

Lemma hub_send_one (m : MessageEnveloppe (list Z)) h s l :
  hub_ok h → hub_names h !! msg_channel m = Some s.1 → hub_unread h s = Some l → length l ≤ 1 →
  hub_unread (hub_publish (msg_channel m) m h) s = Some (l ++ [m]).
Proof.
  intros Hok Hn Hu Hl. apply hub_send_unread; [done..|]. unfold CHANNEL_CAPACITY.
  lia.
Qed.

Lemma rpc_turn_server server h c cs ss tasks m h' :
  next_message ss h = (Some m, h') →
  rpc_turn server TurnServer (mkRpc h c cs ss tasks) =
    mkRpc h' c cs ss (tasks ++ option_list (on_server_message m)).
Proof. intros Hn. cbn. by rewrite Hn. Qed.

Lemma rpc_turn_client server h c cs ss tasks m h' :
  next_message cs h = (Some m, h') →
  rpc_turn server TurnClient (mkRpc h c cs ss tasks) =
    mkRpc h' (on_client_message (msg_payload m) c) cs ss tasks.
Proof. intros Hn. cbn. by rewrite Hn. Qed.

Definition await_turns : list RpcTurn := [TurnServer; TurnTask 0; TurnServer; TurnClient; TurnClient].

Lemma rpc_completes server r id now name args d res :
  rpc_idle r → answer server (mkCall id name args) = Some res →
  let r' := rpc_run server (TurnCall id now name args d :: await_turns) r in
  rpc_idle r' ∧
  rc_calls (rpc_client r') !! length (rc_calls (rpc_client r)) = Some (mkCall id name args, Sent res).
Proof.
  intros [Hok Hne [Hnc Huc] [Hns Hus] Ht] Ha r'. destruct r as [h [tracked calls] cs ss tasks].
  cbn [rpc_post rpc_client client_stream server_stream server_tasks rc_calls] in *. subst tasks.
  set (c := mkCall id name args) in *. set (m1 := message_serialize (mkMessage CHANNEL d NodeId_default (Call c))).
  set (h1 := hub_publish CHANNEL m1 h). set (c1 := track id (mkTracker now (length calls))
    (mkRpcClient tracked (calls ++ [(c, Waiting)]))).
  assert (rpc_turn server (TurnCall id now name args d) (mkRpc h (mkRpcClient tracked calls) cs ss []) =
    mkRpc h1 c1 cs ss []) as E1 by done.
  assert (hub_ok h1 ∧ hub_names h1 = hub_names h) as [Hok1 Hn1].
  { destruct (hub_publish_ok CHANNEL m1 h ss Hok) as (?&?&_). done. }
  assert (hub_unread h1 cs = Some [m1]) as Huc1 by (apply (hub_send_one m1 h cs []); done || (simpl; lia)).
  assert (hub_unread h1 ss = Some [m1]) as Hus1 by (apply (hub_send_one m1 h ss []); done || (simpl; lia)).
  clearbody h1. destruct (next_message_spec ss h1 (Call c) d [] Hok1 Hus1) as (h2&N2&Hok2&Hn2&Hus2&Ho2).
  set (m3 := message_serialize (mkMessage CHANNEL NodeId_default NodeId_default (Reply (mkReply id res)))).
  set (h3 := hub_publish CHANNEL m3 h2).
  assert (hub_ok h3 ∧ hub_names h3 = hub_names h2) as [Hok3 Hn3].
  { destruct (hub_publish_ok CHANNEL m3 h2 ss Hok2) as (?&?&_). done. }
  assert (hub_unread h3 cs = Some [m1; m3]) as Huc3.
  { apply (hub_send_one m3 h2 cs [m1]); [done|simpl; by rewrite Hn2, Hn1|by rewrite Ho2|simpl; lia]. }
  assert (hub_unread h3 ss = Some [m3]) as Hus3.
  { apply (hub_send_one m3 h2 ss []); [done|simpl; by rewrite Hn2, Hn1|done|simpl; lia]. }
  assert (rpc_turn server (TurnTask 0) (mkRpc h2 c1 cs ss [(c, NodeId_default)]) = mkRpc h3 c1 cs ss []) as E3.
  { cbn. unfold handle_call. change (execute_call server c _) with (answer server c). by rewrite Ha. }
  clearbody h3.
  destruct (next_message_spec ss h3 _ NodeId_default [] Hok3 Hus3) as (h4&N4&Hok4&Hn4&Hus4&Ho4).
  destruct (next_message_spec cs h4 (Call c) d [m3] Hok4) as (h5&N5&Hok5&Hn5&Huc5&Ho5); [by rewrite Ho4|].
  destruct (next_message_spec cs h5 _ NodeId_default [] Hok5 Huc5) as (h6&N6&Hok6&Hn6&Huc6&Ho6).
  assert (r' = mkRpc h6 (handle_reply (mkReply id res) c1) cs ss []) as ->.
  { subst r'. unfold rpc_run, await_turns. cbn [foldl]. rewrite E1, (rpc_turn_server _ _ _ _ _ _ _ _ N2).
    cbn [app on_server_message msg_payload msg_source]. change (option_list (Some (c, NodeId_default))) with [(c, NodeId_default)]. rewrite E3, (rpc_turn_server _ _ _ _ _ _ _ _ N4), (rpc_turn_client _ _ _ _ _ _ _ _ N5).
    exact (rpc_turn_client server _ _ _ _ _ _ _ N6). }
  assert (hub_names h6 = hub_names h) as Hn by congruence. clear E1 E3.
  split.
  - split; cbn; rewrite ?Hn; try done. by rewrite Ho6, Ho5.
  - subst c1. unfold handle_reply, track. cbn. rewrite lookup_insert_eq. cbn.
    rewrite list_lookup_alter_eq.
    destruct (tracked !! id); [rewrite set_oneshot_lookup; case_decide|]; by rewrite list_lookup_middle.
Qed.
End local.

Lemma execute_call_some server c source e v :
  server !! call_name c = Some e → e (call_args c) source = Some v →
  execute_call server c source = Some (inr v).
Proof. intros He Hv. unfold execute_call. rewrite He. simpl. by rewrite Hv. Qed.

(** ** What a caller gets *)

(** C10: whatever the order in which the callers, the two loops and the tasks
    of the server run, and whatever the channel of the messages loses to a
    slow reader, a caller gets no other answer than what the executor of the
    server returns for the arguments of its own call; a call whose executor
    panics is never answered; no waiting caller is ever told of a time-out,
    nor loses its one-shot channel.  The identifiers generated for the calls are
    distinct, and the client and the server have opened their streams. *)
Theorem rpc_answers_match `{Broadcast} `{JsonCodec RpcMessage} (server : gmap string RpcExecutor)
    (ts : list RpcTurn) (r0 : Rpc) (n : nat) (c : RpcCall) (o : OneShot) :
  rpc_start = Some r0 →
  NoDup (call_id <$> omap turn_call ts) →
  rc_calls (rpc_client (rpc_run server ts r0)) !! n = Some (c, o) →
  omap turn_call ts !! n = Some c ∧
  (o = Waiting ∨ ∃ res, o = Sent res ∧ execute_call server c NodeId_default = Some res ∧ res ≠ inl TimeOut).
Proof.
  intros Hs Hnd Hn. pose proof (rpc_run_calls server ts r0) as Hc.
  rewrite (rpc_start_calls _ Hs) in Hc. simpl in Hc.
  pose proof (rpc_inv_run server ts r0 (rpc_inv_start server r0 Hs)) as Hinv.
  split; [by rewrite <- Hc, list_lookup_fmap, Hn|].
  destruct o as [|res|]; [by left|right|].
  2: { exfalso. eapply (inv_dropped _ _ Hinv); [|exact Hn]. by rewrite Hc. }
  assert (execute_call server c NodeId_default = Some res) as Hr.
  { eapply rpc_sent_answer; [exact Hinv| |exact Hn]. by rewrite Hc. }
  exists res. split_and!; [done..|]. intros ->. revert Hr. unfold execute_call.
  destruct (server !! call_name c) as [e|]; [|done]. by destruct (e _ _).
Qed.

(** C11: a call made when nothing is on its way, and whose executor returns, is
    answered by five more turns, after which nothing is on its way again; the
    caller gets the value the executor returned, decoded. *)
Theorem rpc_call_completes `{Broadcast} `{JsonCodec RpcMessage} {R : Type} (from_value : Value → R + string)
    (server : gmap string RpcExecutor) (r : Rpc) (id : RpcId) (now : Z) (name : string) (args : Value)
    (d : NodeId) (e : RpcExecutor) (v : Value) :
  rpc_idle r → server !! name = Some e → e args NodeId_default = Some v →
  let r' := rpc_run server (TurnCall id now name args d :: await_turns) r in
  rpc_idle r' ∧
  rpc_await from_value (length (rc_calls (rpc_client r))) (rpc_client r') =
    Some (match from_value v with inl a => Ok a | inr msg => Err (RDeserializeError msg) end).
Proof.
  intros Hi He Hv r'.
  destruct (rpc_completes server r id now name args d (inr v) Hi) as [Hi' Hc].
  { by eapply execute_call_some. }
  split; [done|]. unfold rpc_await. subst r'. by rewrite Hc.
Qed.

(** Over the network, a server that answers a call addresses its answer to
    the default identifier, which is no peer's: the actor of the network takes
    that command and stops for good, and nothing the node sends afterwards
    leaves it. *)
Theorem remote_answer_stops_network `{Broadcast} `{PeerIds} `{JsonCodec RpcMessage}
    `{JsonCodec (MessageEnveloppe (list Z))} (server : gmap string RpcExecutor) (c : RpcCall)
    (res : RpcError + Value) (source destination : NodeId) (caller p : NetworkPostMessageRouter)
    (listening : bool) (ts : list Turn) :
  destination ≠ np_local_id caller →
  execute_call server c NodeId_default = Some res →
  np_local_id p ≠ NodeId_default → nw_phase (np_network p) = ActorRunning → nw_commands (np_network p) = [] →
  ∃ data task,
    nw_commands (np_network (run_state (post_send (Call c) destination) caller)) =
      nw_commands (np_network caller) ++ [Send data destination] ∧
    ((message_match CHANNEL (ReceivedMessage data source) ≫= message_deserialize) ≫= on_server_message) = Some task ∧
    let p' := run_state (handle_call server task.1 task.2) p in
    let n := network_run (TurnCommand listening :: ts) (np_network p') in
    nw_phase n = ActorPanicked ∧ nw_calls n = nw_calls (np_network p).
Proof.
  intros Hd He Hp Hph Hc. exists (encode (message_serialize (mkMessage CHANNEL destination NodeId_default (Call c)))).
  exists (c, NodeId_default). split_and!.
  - unfold run_state. by rewrite network_post_remote.
  - cbn [message_match]. rewrite decode_encode. simpl. unfold message_deserialize. simpl. by rewrite decode_encode.
  - unfold handle_call. cbn [fst snd]. rewrite He. unfold ignore, run_state.
    rewrite network_post_remote by congruence. cbn [snd np_network]. set (data := encode _). destruct (bad_destination_panics listening data NodeId_default []
      (send_message data NodeId_default (np_network p))) as [Hn1 Hn2]; simpl; [done|by rewrite Hc|apply peer_from_empty|].
    unfold network_run. simpl. change (foldl _ ?x ts) with (network_run ts x).
    rewrite network_run_stopped by (rewrite Hn1; done). by rewrite Hn1, Hn2.
Qed.

(** ** Witnesses *)

Global Instance PostError_eq_dec : EqDecision PostError. Proof. solve_decision. Defined.
Global Instance RpcError_eq_dec : EqDecision RpcError. Proof. solve_decision. Defined.
Global Instance RpcError_countable : Countable RpcError.
Proof.
  apply (inj_countable' (λ e, match e with
      | RDeserializeError m => inl (inl (inl m))
      | RPostError (SerializerError m) => inl (inl (inr m))
      | RPostError (DeserializeError m) => inl (inr m)
      | NoExecutorFound n => inr (inl n)
      | TimeOut => inr (inr true)
      | RpcShutdown => inr (inr false)
      end)
    (λ s, match s with
      | inl (inl (inl m)) => RDeserializeError m
      | inl (inl (inr m)) => RPostError (SerializerError m)
      | inl (inr m) => RPostError (DeserializeError m)
      | inr (inl n) => NoExecutorFound n
      | inr (inr true) => TimeOut
      | inr (inr false) => RpcShutdown
      end)). by intros [|[]| | |].
Defined.
Global Instance RpcCall_eq_dec : EqDecision RpcCall. Proof. solve_decision. Defined.
Global Instance RpcReply_eq_dec : EqDecision RpcReply. Proof. solve_decision. Defined.
Global Instance RpcMessage_eq_dec : EqDecision RpcMessage. Proof. solve_decision. Defined.
Global Instance RpcMessage_countable : Countable RpcMessage.
Proof.
  apply (inj_countable' (λ m, match m with
      | Call c => inl (call_id c, call_name c, call_args c)
      | Ack id => inr (inl id)
      | Reply r => inr (inr (reply_id r, reply_result r))
      end)
    (λ s, match s with
      | inl p => Call (mkCall p.1.1 p.1.2 p.2)
      | inr (inl id) => Ack id
      | inr (inr p) => Reply (mkReply p.1 p.2)
      end)). by intros [[]| |[]].
Defined.
Global Instance Enveloppe_eq_dec {T} `{EqDecision T} : EqDecision (MessageEnveloppe T).
Proof. solve_decision. Defined.
Global Instance Enveloppe_countable {T} `{Countable T} : Countable (MessageEnveloppe T).
Proof.
  apply (inj_countable' (λ m, (msg_channel m, node_bytes (msg_destination m), node_bytes (msg_source m), msg_payload m))
    (λ p, mkMessage p.1.1.1 (mkNodeId p.1.1.2) (mkNodeId p.1.2) p.2)). by intros [? [] [] ?].
Defined.

Notation demo_codec := (@numbered RpcMessage _ _).
Definition demo_server : gmap string RpcExecutor :=
  {[ "echo" := λ v _, Some v; "broken" := λ _ _, None ]}.
Definition demo_turns : list RpcTurn :=
  [TurnCall (mkRpcId (mkID 0 1)) 0 "broken" Null NodeId_default;
   TurnCall (mkRpcId (mkID 0 2)) 0 "echo" (Str "hi") NodeId_default;
   TurnCall (mkRpcId (mkID 0 3)) 0 "none" Null NodeId_default;
   TurnServer; TurnServer; TurnServer; TurnTask 2; TurnTask 1; TurnTask 0;
   TurnClient; TurnClient; TurnClient; TurnClient; TurnClient].
Definition demo_start : @Rpc queues :=
  @mkRpc queues
    (@mkHub queues _ {[ "/marie/rpc" := 0 ]} [mkQueues 256 2 {[ 0 := []; 1 := [] ]}])
    (mkRpcClient ∅ []) (0, 1) (0, 0) [].
Lemma demo_start_ok : @rpc_start queues demo_codec = Some demo_start.
Proof. vm_compute. reflexivity. Qed.

Lemma rpc_answers_match_witness :
  (snd <$> rc_calls (rpc_client (@rpc_run queues demo_codec demo_server demo_turns demo_start))) =
    [Waiting; Sent (inr (Str "hi")); Sent (inl (NoExecutorFound "none"))] ∧
  execute_call demo_server (mkCall (mkRpcId (mkID 0 2)) "echo" (Str "hi")) NodeId_default =
    Some (inr (Str "hi")).
Proof.
  split; [vm_compute; reflexivity|].
  destruct (@rpc_answers_match queues demo_codec demo_server demo_turns demo_start 1
    (mkCall (mkRpcId (mkID 0 2)) "echo" (Str "hi")) (Sent (inr (Str "hi")))) as [_ [Ho|(res&Ho&He&_)]].
  - apply demo_start_ok.
  - apply (bool_decide_unpack _). vm_compute. exact I.
  - vm_compute. reflexivity.
  - discriminate Ho.
  - injection Ho as <-. exact He.
Defined.

Lemma rpc_call_completes_witness :
  rpc_await (λ v, match v with Str s => inl s | _ => inr "not a string" end) 0
    (rpc_client (@rpc_run queues demo_codec demo_server
      (TurnCall (mkRpcId (mkID 0 2)) 0 "echo" (Str "hi") NodeId_default :: await_turns) demo_start))
  = Some (Ok "hi").
Proof.
  apply (@rpc_call_completes queues demo_codec string
    (λ v, match v with Str s => inl s | _ => inr "not a string" end) demo_server demo_start
    (mkRpcId (mkID 0 2)) 0 "echo" (Str "hi") NodeId_default (λ v _, Some v) (Str "hi")).
  - exact (@rpc_start_idle queues demo_codec demo_start demo_start_ok).
  - reflexivity.
  - reflexivity.
Defined.

Definition demo_node (b : Z) : @NetworkPostMessageRouter queues byte_peers :=
  @network_post_new queues byte_peers (@network_new byte_peers queues (b, [])).

Lemma remote_answer_stops_network_witness :
  ∃ p', nw_phase (@network_run byte_peers queues [TurnCommand true]
    (@np_network queues byte_peers p')) = ActorPanicked.
Proof.
  destruct (@remote_answer_stops_network queues byte_peers demo_codec numbered demo_server
    (mkCall (mkRpcId (mkID 0 2)) "echo" (Str "hi")) (inr (Str "hi")) (mkNodeId [1]%Z) (mkNodeId [2]%Z)
    (demo_node 1) (demo_node 2) true []) as (data&task&_&_&H&_).
  - discriminate.
  - reflexivity.
  - discriminate.
  - reflexivity.
  - reflexivity.
  - eexists. exact H.
Defined.
