(* ===== verification/Frames.v ===== *)
(** * Frames ([marie-core/src/session/frames], less the tree)

    The record of a frame, its statuses and policies, the container that
    tracks unsaved changes, the storage interface and its in-memory backend. *)

From S2P Require Import Prelude Ids Json Channels Types Spec RunLog.

(** ** References and responses *)

Record SnapshotRef := mkSnapshotRef {
  sr_session_id : SessionId; sr_frame_id : FrameId; sr_superstep : Z }.
Global Instance SnapshotRef_eq_dec : EqDecision SnapshotRef. Proof. solve_decision. Defined.
Global Instance SnapshotRef_countable : Countable SnapshotRef.
Proof.
  refine (inj_countable' (λ r, (sr_session_id r, sr_frame_id r, sr_superstep r))
            (λ '(s, f, n), mkSnapshotRef s f n) _). by intros [].
Defined.

Record FrameResponse := mkFrameResponse {
  fr_frame_id : FrameId; fr_updates : list ChannelUpdate;
  fr_new_logs : list RunLog; fr_result : FrameResult }.

(** ** Status *)

Inductive FrameStatus :=
  | SPending
  | SRunCompleted (r : FrameResponse)
  | SRunFailed (msg : string)
  | SFailed (msg : string)
  | SCompleted
  | SReady
  | SRunning (j : JobState Value)
  | SRunExhausted
  | SWaitingChildren.

Definition frame_status_default : FrameStatus := SPending.

Definition status_has_terminated (s : FrameStatus) : bool :=
  match s with SFailed _ | SCompleted => true | _ => false end.
Definition has_completed (s : FrameStatus) : bool :=
  match s with SCompleted => true | _ => false end.
Definition has_failed (s : FrameStatus) : bool :=
  match s with SFailed _ => true | _ => false end.

(** ** Policies *)

Inductive ReducePolicy := DontReduce | Reduce.
Inductive OnStartPolicy :=
  | StartRunFrame
  | AppendGraphThread (g : GraphRef) (start : GraphNodeId)
  | AppendGraphSpan (g : GraphRef) (join : GraphNodeId) (branches : list Branch)
  | AppendGraphNode (g : GraphRef) (start : GraphNodeId).
Inductive OnResumePolicy := ResumeRunFrame | MarkComplete.
Inductive ChildFailurePolicy := FailIfAtLeastHasFailed (n : nat) | DontFail.
Inductive ResumePolicy := Sequential | RHitl | FanIn.

Global Instance ReducePolicy_eq_dec : EqDecision ReducePolicy. Proof. solve_decision. Defined.
Global Instance ResumePolicy_eq_dec : EqDecision ResumePolicy. Proof. solve_decision. Defined.

Record FramePolicy := mkFramePolicy {
  on_child_failed : ChildFailurePolicy; resume_policy : ResumePolicy;
  reduce_policy : ReducePolicy; on_resume_policy : OnResumePolicy;
  on_start_policy : OnStartPolicy }.

Definition policy_default : FramePolicy :=
  mkFramePolicy DontFail Sequential DontReduce ResumeRunFrame StartRunFrame.

Definition with_resume_policy (p : FramePolicy) (r : ResumePolicy) : FramePolicy :=
  mkFramePolicy (on_child_failed p) r (reduce_policy p) (on_resume_policy p) (on_start_policy p).
Definition with_reduce_policy (p : FramePolicy) (r : ReducePolicy) : FramePolicy :=
  mkFramePolicy (on_child_failed p) (resume_policy p) r (on_resume_policy p) (on_start_policy p).
Definition with_on_resume_policy (p : FramePolicy) (r : OnResumePolicy) : FramePolicy :=
  mkFramePolicy (on_child_failed p) (resume_policy p) (reduce_policy p) r (on_start_policy p).

(** ** What a frame is *)

Inductive FrameKind :=
  | KVoid
  | KShell (m : ShellMode)
  | KHitl (h : HitlId)
  | KExpertConsultation
  | KToolCall (id : ToolCallId) (name : ToolId) (parameters : Value)
  | KGraph (g : GraphRef)
  | KGraphNode (g : GraphRef) (node_id : GraphNodeId)
  | KGraphThread (g : GraphRef)
  | KGraphSpan (g : GraphRef) (join : GraphNodeId).

(** [frame.data == FrameKind::Hitl(hitl_id)] *)
Definition is_hitl_kind (h : HitlId) (k : FrameKind) : bool :=
  match k with KHitl h' => bool_decide (h' = h) | _ => false end.

Inductive FrameSpecRef :=
  | RefGraph (g : GraphRef) | RefToolAggregator | RefToolCall
  | RefExpert | RefExpertAggregator | RefHitl.

Definition into_graph_ref {E} (r : FrameSpecRef) : Res E GraphRef :=
  match r with RefGraph g => Ok g | _ => Panic end.

Record NewFrameNodeArgs := mkArgs {
  a_session_id : SessionId; a_spec_ref : FrameSpecRef; a_data : FrameKind;
  a_inherited : Channels; a_forked_from : option SnapshotRef;
  a_frame_policy : FramePolicy; a_barrier : bool; a_superstep : Z }.

(** The builder's defaults. *)
Definition args (session : SessionId) (spec : FrameSpecRef) (data : FrameKind) : NewFrameNodeArgs :=
  mkArgs session spec data ∅ None policy_default false 0.

Record FrameNode := mkFrameNode {
  session_id : SessionId;
  id : FrameId;
  status : FrameStatus;
  frame_policy : FramePolicy;
  superstep : Z;
  barrier : bool;
  forked_from : option SnapshotRef;
  fn_inherited : Channels;
  spec_ref : FrameSpecRef;
  data : FrameKind;
  logs : list RunLog;
  hitl_aliases : gmap Z HitlId;
  is_root : bool;
  parent : option FrameId;
  next_sibling : option FrameId;
  prev_sibling : option FrameId;
  children : list FrameId
}.

(** [FrameNode::new] *)
Definition frame_node_new (i : FrameId) (a : NewFrameNodeArgs) : FrameNode :=
  mkFrameNode (a_session_id a) i frame_status_default (a_frame_policy a) (a_superstep a)
    (a_barrier a) (a_forked_from a) (a_inherited a) (a_spec_ref a) (a_data a)
    [] ∅ false None None None [].

(** Field updates. *)
Definition upd_status (s : FrameStatus) (n : FrameNode) : FrameNode :=
  mkFrameNode (session_id n) (id n) s (frame_policy n) (superstep n) (barrier n) (forked_from n)
    (fn_inherited n) (spec_ref n) (data n) (logs n) (hitl_aliases n) (is_root n) (parent n)
    (next_sibling n) (prev_sibling n) (children n).
Definition upd_policy (p : FramePolicy) (n : FrameNode) : FrameNode :=
  mkFrameNode (session_id n) (id n) (status n) p (superstep n) (barrier n) (forked_from n)
    (fn_inherited n) (spec_ref n) (data n) (logs n) (hitl_aliases n) (is_root n) (parent n)
    (next_sibling n) (prev_sibling n) (children n).
Definition upd_superstep (s : Z) (n : FrameNode) : FrameNode :=
  mkFrameNode (session_id n) (id n) (status n) (frame_policy n) s (barrier n) (forked_from n)
    (fn_inherited n) (spec_ref n) (data n) (logs n) (hitl_aliases n) (is_root n) (parent n)
    (next_sibling n) (prev_sibling n) (children n).
Definition upd_inherited (c : Channels) (n : FrameNode) : FrameNode :=
  mkFrameNode (session_id n) (id n) (status n) (frame_policy n) (superstep n) (barrier n)
    (forked_from n) c (spec_ref n) (data n) (logs n) (hitl_aliases n) (is_root n) (parent n)
    (next_sibling n) (prev_sibling n) (children n).
Definition upd_data (d : FrameKind) (n : FrameNode) : FrameNode :=
  mkFrameNode (session_id n) (id n) (status n) (frame_policy n) (superstep n) (barrier n)
    (forked_from n) (fn_inherited n) (spec_ref n) d (logs n) (hitl_aliases n) (is_root n)
    (parent n) (next_sibling n) (prev_sibling n) (children n).
Definition upd_logs (l : list RunLog) (n : FrameNode) : FrameNode :=
  mkFrameNode (session_id n) (id n) (status n) (frame_policy n) (superstep n) (barrier n)
    (forked_from n) (fn_inherited n) (spec_ref n) (data n) l (hitl_aliases n) (is_root n)
    (parent n) (next_sibling n) (prev_sibling n) (children n).
Definition upd_aliases (m : gmap Z HitlId) (n : FrameNode) : FrameNode :=
  mkFrameNode (session_id n) (id n) (status n) (frame_policy n) (superstep n) (barrier n)
    (forked_from n) (fn_inherited n) (spec_ref n) (data n) (logs n) m (is_root n)
    (parent n) (next_sibling n) (prev_sibling n) (children n).
Definition upd_root (b : bool) (n : FrameNode) : FrameNode :=
  mkFrameNode (session_id n) (id n) (status n) (frame_policy n) (superstep n) (barrier n)
    (forked_from n) (fn_inherited n) (spec_ref n) (data n) (logs n) (hitl_aliases n) b
    (parent n) (next_sibling n) (prev_sibling n) (children n).
(** The four links at once: parent, next and previous sibling, children. *)
Definition upd_links (p nx pv : option FrameId) (c : list FrameId) (n : FrameNode) : FrameNode :=
  mkFrameNode (session_id n) (id n) (status n) (frame_policy n) (superstep n) (barrier n)
    (forked_from n) (fn_inherited n) (spec_ref n) (data n) (logs n) (hitl_aliases n) (is_root n)
    p nx pv c.
Definition upd_parent (p : option FrameId) (n : FrameNode) : FrameNode :=
  upd_links p (next_sibling n) (prev_sibling n) (children n) n.
Definition upd_next (x : option FrameId) (n : FrameNode) : FrameNode :=
  upd_links (parent n) x (prev_sibling n) (children n) n.
Definition upd_prev (x : option FrameId) (n : FrameNode) : FrameNode :=
  upd_links (parent n) (next_sibling n) x (children n) n.
Definition upd_children (c : list FrameId) (n : FrameNode) : FrameNode :=
  upd_links (parent n) (next_sibling n) (prev_sibling n) c n.

Definition is_waiting_children (n : FrameNode) : bool :=
  match status n with SWaitingChildren => true | _ => false end.
Definition node_has_terminated (n : FrameNode) : bool :=
  match status n with SFailed _ | SCompleted => true | _ => false end.
Definition iter_children (n : FrameNode) : list FrameId := children n.

(** [FrameNode::bind_hitl_to_log], [hitl_id_of_log], [log_index_of_hitl]. *)
Definition node_bind_hitl_to_log (index : Z) (h : HitlId) (n : FrameNode) : FrameNode :=
  upd_aliases (<[index := h]> (hitl_aliases n)) n.
Definition hitl_id_of_log (n : FrameNode) (index : Z) : option HitlId := hitl_aliases n !! index.
Definition log_index_of_hitl `{HashIter} (n : FrameNode) (h : HitlId) : option Z :=
  fst <$> (snd <$> list_find (λ p, p.2 = h) (hash_iter (hitl_aliases n))).

(** ** Storage *)

Inductive FrameStoreError :=
  | FrameNotFound (s : SessionId) (f : FrameId)
  | NoRootFrame (s : SessionId)
  | FrameBackend (msg : string).

(** What the tree relies on: a backend holds at most one node for each
    (session, frame), under the node's own identifiers. *)
Class StoreSessionFrame (S : Type) := {
  fs_view : S → SessionId * FrameId → option FrameNode;
  fs_keyed : S → Prop;
  get_root_frame_id : SessionId → M S FrameStoreError FrameId;
  set_root_frame_id : SessionId → FrameId → M S FrameStoreError FrameId;
  get_frame : SessionId → FrameId → M S FrameStoreError FrameNode;
  bind_hitl_to_frame : SessionId → FrameId → HitlId → M S FrameStoreError ();
  get_frame_id_by_hitl_id : SessionId → HitlId → M S FrameStoreError (option FrameId);
  upsert_frame : FrameNode → M S FrameStoreError FrameNode;
  delete_frame : SessionId → FrameId → M S FrameStoreError FrameNode;

  keyed_ok : ∀ s k n, fs_keyed s → fs_view s k = Some n → k = (session_id n, id n);
  get_frame_ok : ∀ sid f s n s', get_frame sid f s = (Ok n, s') →
    fs_view s (sid, f) = Some n ∧ ∀ k, fs_view s' k = fs_view s k;
  upsert_frame_ok : ∀ n s n' s', upsert_frame n s = (Ok n', s') →
    n' = n ∧ fs_view s' (session_id n, id n) = Some n ∧
    (∀ k, k ≠ (session_id n, id n) → fs_view s' k = fs_view s k);
  delete_frame_ok : ∀ sid f s n s', delete_frame sid f s = (Ok n, s') →
    fs_view s (sid, f) = Some n ∧ fs_view s' (sid, f) = None ∧
    (∀ k, k ≠ (sid, f) → fs_view s' k = fs_view s k);
  set_root_ok : ∀ sid f s f' s', fs_keyed s → set_root_frame_id sid f s = (Ok f', s') →
    f' = f ∧ ∀ g, fs_view s' (sid, g) = upd_root (bool_decide (g = f)) <$> fs_view s (sid, g);
  get_root_ok : ∀ sid s f s', fs_keyed s → get_root_frame_id sid s = (Ok f, s') →
    (∃ n, fs_view s (sid, f) = Some n ∧ is_root n = true) ∧ ∀ k, fs_view s' k = fs_view s k
}.

(** ** The in-memory backend *)

Module InMemoryFrames.
Notation Frames := (gmap (SessionId * FrameId) FrameNode) (only parsing).

Definition get_root `{HashIter} (sid : SessionId) : M Frames FrameStoreError FrameId := λ frames,
  (of_option (NoRootFrame sid)
     (id ∘ snd ∘ snd <$>
        list_find (λ p, session_id p.2 = sid ∧ is_root p.2 = true) (hash_iter frames)), frames).

Definition set_root (sid : SessionId) (f : FrameId) : M Frames FrameStoreError FrameId := λ frames,
  match frames !! (sid, f) with
  | None => (Err (FrameNotFound sid f), frames)
  | Some _ =>
      (Ok f, map_imap (λ k n, Some (if decide (k.1 = sid)
                                    then upd_root (bool_decide (k.2 = f)) n else n)) frames)
  end.

Definition get (sid : SessionId) (f : FrameId) : M Frames FrameStoreError FrameNode := λ frames,
  (of_option (FrameNotFound sid f) (frames !! (sid, f)), frames).

Definition bind_hitl (sid : SessionId) (f : FrameId) (h : HitlId) : M Frames FrameStoreError () :=
  λ frames,
    match frames !! (sid, f) with
    | None => (Err (FrameNotFound sid f), frames)
    | Some n => (Ok (), <[(sid, f) := upd_data (KHitl h) n]> frames)
    end.

Definition get_by_hitl `{HashIter} (sid : SessionId) (h : HitlId)
    : M Frames FrameStoreError (option FrameId) := λ frames,
  (Ok (id ∘ snd ∘ snd <$>
         list_find (λ p, session_id p.2 = sid ∧ is_hitl_kind h (data p.2) = true)
           (hash_iter frames)), frames).

Definition upsert (n : FrameNode) : M Frames FrameStoreError FrameNode := λ frames,
  (Ok n, <[(session_id n, id n) := n]> frames).

Definition delete (sid : SessionId) (f : FrameId) : M Frames FrameStoreError FrameNode := λ frames,
  match frames !! (sid, f) with
  | None => (Err (FrameNotFound sid f), frames)
  | Some n => (Ok n, base.delete (sid, f) frames)
  end.

Definition keyed (frames : Frames) : Prop :=
  ∀ k n, frames !! k = Some n → k = (session_id n, id n).

Lemma get_root_spec `{HashIter} (sid : SessionId) (frames : Frames) (f : FrameId) s' :
  keyed frames → get_root sid frames = (Ok f, s') →
  (∃ n, frames !! (sid, f) = Some n ∧ is_root n = true) ∧ s' = frames.
Proof.
  intros Hk [= Hf <-]. split; [|done].
  destruct (list_find _ _) as [[i [k n]]|] eqn:E; [|done]. simplify_eq/=.
  apply list_find_Some in E as (Hin&[Hs Hr]&_). simpl in *.
  apply list_elem_of_lookup_2, elem_of_hash_iter in Hin.
  pose proof (Hk _ _ Hin) as ->. subst sid. eauto.
Qed.

#[global] Instance store `{HashIter} : StoreSessionFrame Frames.
Proof.
  refine {|
    fs_view := λ s k, s !! k; fs_keyed := keyed;
    get_root_frame_id := get_root; set_root_frame_id := set_root; get_frame := get;
    bind_hitl_to_frame := bind_hitl; get_frame_id_by_hitl_id := get_by_hitl;
    upsert_frame := upsert; delete_frame := delete |}.
  - intros s k n Hk Hn. by apply Hk.
  - intros sid f s n s' [= Hn <-]. by destruct (s !! (sid, f)); simplify_eq/=.
  - intros n s n' s' [= <- <-]. rewrite lookup_insert_eq. split_and!; [done..|].
    intros k Hk. by rewrite lookup_insert_ne.
  - unfold delete. intros sid f s n s' Hd. destruct (s !! (sid, f)) eqn:E; [|done].
    injection Hd as <- <-. rewrite lookup_delete_eq. split_and!; [done..|].
    intros k Hk. by rewrite lookup_delete_ne.
  - unfold set_root. intros sid f s f' s' Hk Hr. destruct (s !! (sid, f)); [|done].
    injection Hr as <- <-. split; [done|]. intros g. rewrite map_lookup_imap.
    destruct (s !! (sid, g)); simpl; [|done]. by rewrite decide_True.
  - intros sid s f s' Hk Hr. by destruct (get_root_spec _ _ _ _ Hk Hr) as [? ->].
Defined.

Lemma keyed_empty : keyed ∅.
Proof. intros k n Hk. by rewrite lookup_empty in Hk. Qed.

Lemma keyed_upsert n s : keyed s → keyed (run_state (upsert n) s).
Proof.
  intros Hs k m. unfold run_state, upsert. simpl.
  intros [[<- <-]|[_ Hk]]%lookup_insert_Some; [done|]. by apply Hs.
Qed.

(** Saving a node leaves the other roots as they are. *)
Lemma upsert_keeps_roots n s k m :
  k ≠ (session_id n, id n) → s !! k = Some m →
  run_state (upsert n) s !! k = Some m.
Proof. intros Hk Hm. unfold run_state, upsert. simpl. by rewrite lookup_insert_ne. Qed.
End InMemoryFrames.

(** ** Containers *)

Record FrameNodeContainer := mkContainer { c_node : FrameNode; dirty : bool; deleted : bool }.

Section container.
Context {FS : Type} `{StoreSessionFrame FS}.

(** [FrameNodeContainer::new] *)
Definition container_new (sid : SessionId) (f : FrameId) : M FS FrameStoreError FrameNodeContainer :=
  node ← get_frame sid f; mret (mkContainer node false false).

Definition from_new_node (n : FrameNode) : FrameNodeContainer := mkContainer n true false.

(** A field assignment through [DerefMut]. *)
Definition deref_mut (f : FrameNode → FrameNode) (c : FrameNodeContainer) : FrameNodeContainer :=
  mkContainer (f (c_node c)) true (deleted c).

(** [flush] returns the container it leaves; [delete] too. *)
Definition flush (c : FrameNodeContainer) : M FS FrameStoreError FrameNodeContainer :=
  if negb (dirty c) then mret c
  else _ ← upsert_frame (c_node c); mret (mkContainer (c_node c) false (deleted c)).

Definition container_delete (c : FrameNodeContainer) : M FS FrameStoreError FrameNodeContainer :=
  _ ← delete_frame (session_id (c_node c)) (id (c_node c));
  mret (mkContainer (c_node c) false (deleted c)).

(** [Drop]: the spawned save of an unsaved node; its error is only traced. *)
Definition container_drop (c : FrameNodeContainer) : M FS FrameStoreError () :=
  if negb (dirty c) then mret () else ignore (upsert_frame (c_node c)).
End container.

(** ** Properties *)

(** Choosing a root leaves exactly one root in the session: the next
    lookup of the root finds the chosen frame, over any backend. *)
Theorem set_root_unique {FS : Type} `{StoreSessionFrame FS} (sid : SessionId) (f g r : FrameId)
    (s s' s'' : FS) :
  fs_keyed s → fs_keyed s' →
  set_root_frame_id sid f s = (Ok r, s') → get_root_frame_id sid s' = (Ok g, s'') → g = f.
Proof.
  intros Hk Hk' Hs Hg. apply set_root_ok in Hs as [-> Hv]; [|done].
  apply get_root_ok in Hg as [(n&Hn&Hr) _]; [|done].
  rewrite Hv in Hn. destruct (fs_view s (sid, g)); simplify_eq/=.
  by apply bool_decide_eq_true in Hr.
Qed.

(** Two frames of one session, both saved as roots. *)
Definition sid0 : SessionId := mkSessionId (mkID 0 0).
Definition fid (n : Z) : FrameId := mkFrameId (mkID 0 n).
Definition root_node (n : Z) : FrameNode :=
  upd_root true (frame_node_new (fid n) (args sid0 RefToolCall KVoid)).
Definition two_roots : gmap (SessionId * FrameId) FrameNode :=
  run_state (InMemoryFrames.upsert (root_node 2))
    (run_state (InMemoryFrames.upsert (root_node 1)) ∅).

Lemma two_roots_keyed : InMemoryFrames.keyed two_roots.
Proof. by apply InMemoryFrames.keyed_upsert, InMemoryFrames.keyed_upsert, InMemoryFrames.keyed_empty. Qed.

Lemma keyed_set_root sid f s :
  InMemoryFrames.keyed s → InMemoryFrames.keyed (run_state (InMemoryFrames.set_root sid f) s).
Proof.
  intros Hs k n. unfold run_state, InMemoryFrames.set_root.
  destruct (s !! (sid, f)); simpl; [|apply Hs].
  rewrite map_lookup_imap. intros (m&Hm&Hn)%bind_Some. rewrite (Hs _ _ Hm).
  injection Hn as <-. by case_decide.
Qed.

(** Saving a node marked as root does not lower the root the session
    already has, although [FrameNode::is_root] says the save does: a session
    can have two. *)
Theorem upsert_does_not_lower_roots :
  is_root <$> two_roots !! (sid0, fid 1) = Some true ∧
  is_root <$> two_roots !! (sid0, fid 2) = Some true.
Proof. by vm_compute. Qed.

Lemma set_root_unique_witness :
  let s := @InMemoryFrames.store canonical_iter in
  let s1 := run_state (InMemoryFrames.set_root sid0 (fid 1)) two_roots in
  run_res (@get_root_frame_id _ s sid0) s1 = Ok (fid 1) ∧ fid 1 = fid 1.
Proof.
  intros s s1. split; [by vm_compute|].
  apply (@set_root_unique _ s sid0 (fid 1) (fid 1) (fid 1) two_roots s1 s1).
  - apply two_roots_keyed.
  - apply keyed_set_root, two_roots_keyed.
  - vm_compute. reflexivity.
  - vm_compute. reflexivity.
Defined.

(** Flushing a container saves its node exactly when it has unsaved
    changes, and a second flush does nothing. *)
Theorem flush_saves {FS : Type} `{StoreSessionFrame FS} (c c' : FrameNodeContainer) (s s' : FS) :
  flush c s = (Ok c', s') →
  c_node c' = c_node c ∧ dirty c' = false ∧ flush c' s' = (Ok c', s') ∧
  (dirty c = true → fs_view s' (session_id (c_node c), id (c_node c)) = Some (c_node c)) ∧
  (dirty c = false → s' = s).
Proof.
  unfold flush. destruct (dirty c) eqn:Hd; simpl.
  - intros (n&s1&Hu&[= <- <-])%m_bind_ok. apply upsert_frame_ok in Hu as (_&Hv&_). done.
  - intros [= <- <-]. by rewrite Hd.
Qed.

Lemma flush_saves_witness :
  let c := from_new_node (root_node 1) in
  let s := @InMemoryFrames.store canonical_iter in
  (run_state (@flush _ s c) ∅) !! (sid0, fid 1) = Some (root_node 1).
Proof.
  intros c s.
  apply (@flush_saves _ s c (mkContainer (root_node 1) false false) ∅
           (run_state (@flush _ s c) ∅)); vm_compute; reflexivity.
Defined.
