(* ===== verification/Errors.v ===== *)
(** * Errors of the session subsystem

    [crate::Error] keeps the failure of a storage backend; [HitlError] and
    [SessionError] are the errors of [hitl/service.rs] and
    [session/controller.rs]. *)

From S2P Require Import Prelude Ids Types Frames Catalog.

Inductive Error :=
  | EFrame (e : FrameStoreError)
  | ESnapshotNotFound (s : SessionId) (f : FrameId) (superstep : Z)
  | EHitlNotFound (s : SessionId) (h : HitlId)
  | ESessionNotFound (s : SessionId)
  | EOther (msg : string).

(** Why an answer is refused, in place of the French message. *)
Inductive Refusal :=
  | MissingAnswer (key : string)
  | NotAnOption (choice key : string)
  | MissingFilename (key : string)
  | BadExtension (filename key : string)
  | WrongShape (key : string).

Inductive HitlError :=
  | HStorage (e : Error)
  | ValidationError (why : Refusal).

Inductive SessionError :=
  | StorageError (e : Error)
  | StaleSuperstep (expected got : Z)
  | SCatalogError (e : CatalogError)
  | GraphNotFound (g : GraphId)
  | SWorkerError (e : WorkerError)
  | SHitlError (e : HitlError).

(** [.map_err(f)?] on a stateful call, and a call on a part of the state. *)
Definition m_map_err {S E F A} (f : E → F) (m : M S E A) : M S F A := λ s,
  let '(r, s') := m s in (map_err f r, s').

Definition zoom {S T E A} (proj : S → T) (inj : T → S → S) (m : M T E A) : M S E A := λ s,
  let '(r, t) := m (proj s) in (r, inj t s).

(** [.await.expect(..)], [.unwrap()]: an error panics. *)
Definition or_panic {S E F A} (m : M S E A) : M S F A := λ s,
  match m s with
  | (Ok a, s') => (Ok a, s')
  | (_, s') => (Panic, s')
  end.

Lemma keeps_map_err {S E F A} (P : S → Prop) (f : E → F) (m : M S E A) :
  keeps P m → keeps P (m_map_err f m).
Proof.
  intros Hm s Hs. specialize (Hm s Hs). revert Hm.
  unfold run_state, m_map_err. by destruct (m s).
Qed.

Lemma keeps_or_panic {S E F A} (P : S → Prop) (m : M S E A) :
  keeps P m → keeps P (or_panic (F:=F) m).
Proof.
  intros Hm s Hs. specialize (Hm s Hs). revert Hm.
  unfold run_state, or_panic. by destruct (m s) as [[] ?].
Qed.

Lemma keeps_zoom {S T E A} (P : S → Prop) proj inj (m : M T E A) :
  (∀ s, P s → P (inj (m (proj s)).2 s)) → keeps P (zoom proj inj m).
Proof.
  intros Hm s Hs. specialize (Hm s Hs). revert Hm.
  unfold run_state, zoom. by destruct (m (proj s)).
Qed.

Lemma no_err_zoom {S T E A} (proj : S → T) inj (m : M T E A) : no_err m → no_err (zoom proj inj m).
Proof.
  intros Hm s e s'. unfold zoom. specialize (Hm (proj s)). destruct (m (proj s)) as [r t].
  intros [= -> _]. by eapply Hm.
Qed.

Lemma no_err_or_panic {S E F A} (m : M S E A) : no_err (or_panic (F:=F) m).
Proof. intros s e s'. unfold or_panic. by destruct (m s) as [[] ?]. Qed.

#[export] Hint Resolve keeps_map_err keeps_or_panic no_err_zoom no_err_or_panic : keeps.
