(* ===== verification/Wire.v ===== *)
(** * What crosses the network, as JSON

    The form that [serde] derives for the requests, results, journals and jobs
    that components exchange ([hitl/mod.rs], [hitl/model.rs], [expert/mod.rs],
    [tools/mod.rs], [shell/mod.rs], [session/protocol.rs], [session/run_log.rs],
    [session/channel.rs], [session/frames/data.rs], [session/worker.rs]), with the
    attributes of each type. *)

From S2P Require Import Prelude Ids Json Channels Types Spec RunLog Frames.
From Stdlib Require Import Ascii String.
Local Open Scope Z_scope.

(** ** Encoding and decoding

    The text of a decoding error is not modelled.  [sendable] is what the
    encoding of a value needs to be read back. *)

Class Wire (A : Type) := {
  to_value : A → Value;
  from_value : Value → Res () A;
  sendable : A → Prop;
  wire_roundtrip : ∀ a, sendable a → from_value (to_value a) = Ok a
}.

Definition malformed {A} : Res () A := Err ().

(** A struct: its fields in an object, which keeps its keys sorted. *)
Definition struct (fields : list (string * Value)) : list (string * Value) :=
  foldl (λ m p, obj_insert p.1 p.2 m) [] fields.

Definition as_object (v : Value) : Res () (list (string * Value)) :=
  match v with Object m => Ok m | _ => malformed end.

(** A missing field is an error, except for an option. *)
Definition field {A} `{Wire A} (name : string) (m : list (string * Value)) : Res () A :=
  match obj_get name m with Some v => from_value v | None => malformed end.
Definition field_opt {A} `{Wire (option A)} (name : string) (m : list (string * Value)) : Res () (option A) :=
  match obj_get name m with Some v => from_value v | None => Ok None end.

(** A variant that carries data: an object with one key. *)
Definition variant (name : string) (v : Value) : Value := Object [(name, v)].

Inductive Tagged := UnitVariant (name : string) | DataVariant (name : string) (v : Value).

Definition as_variant (v : Value) : Res () Tagged :=
  match v with
  | Str s => Ok (UnitVariant s)
  | Object [(name, v)] => Ok (DataVariant name v)
  | _ => malformed
  end.

(** ** Strings, values, lists, options, maps, integers *)

#[export] Instance wire_value : Wire Value.
Proof. refine {| to_value := λ v, v; from_value := Ok; sendable := λ _, True |}. done. Defined.

#[export] Instance wire_string : Wire string.
Proof.
  refine {| to_value := Str; from_value := λ v, match v with Str s => Ok s | _ => malformed end;
            sendable := λ _, True |}. done.
Defined.

Fixpoint res_map {A B} (f : A → Res () B) (l : list A) : Res () (list B) :=
  match l with
  | [] => Ok []
  | a :: l => b ← f a; bs ← res_map f l; Ok (b :: bs)
  end.

Lemma res_map_ok {A B} (g : B → A) (f : A → Res () B) (l : list B) :
  Forall (λ b, f (g b) = Ok b) l → res_map f (g <$> l) = Ok l.
Proof. induction 1 as [|b l Hb _ IH]; [done|]. csimpl. by rewrite Hb; simpl; rewrite IH. Qed.

#[export] Instance wire_list {A} `{Wire A} : Wire (list A).
Proof.
  refine {| to_value := λ l, Array (to_value <$> l);
            from_value := λ v, match v with Array l => res_map from_value l | _ => malformed end;
            sendable := Forall sendable |}.
  intros l Hl. apply res_map_ok. eapply Forall_impl; [done|]. apply wire_roundtrip.
Defined.

(** [None] is [null], and so is [Some] of what is encoded as [null]. *)
#[export] Instance wire_option {A} `{Wire A} : Wire (option A).
Proof.
  refine {| to_value := λ o, match o with Some a => to_value a | None => Null end;
            from_value := λ v, match v with Null => Ok None | v => a ← from_value v; Ok (Some a) end;
            sendable := λ o, match o with Some a => sendable a ∧ to_value a ≠ Null | None => True end |}.
  intros [a|]; [|done]. intros [Ha Hn].
  apply wire_roundtrip in Ha. by destruct (to_value a); simpl; rewrite ?Ha.
Defined.

Lemma obj_get_struct (fields : list (string * Value)) m k :
  NoDup fields.*1 →
  obj_get k (foldl (λ m p, obj_insert p.1 p.2 m) m fields) =
    match (list_to_map fields : gmap string Value) !! k with Some v => Some v | None => obj_get k m end.
Proof.
  revert m. induction fields as [|[n v] l IH]; intros m; [done|]. csimpl.
  intros [Hn Hl]%NoDup_cons. rewrite IH by done. destruct (decide (k = n)) as [->|].
  - rewrite not_elem_of_list_to_map_1 by done. by rewrite lookup_insert_eq, obj_get_insert_eq.
  - by rewrite lookup_insert_ne, obj_get_insert_ne by done.
Qed.

Lemma list_to_map_obj_get (m : list (string * Value)) k : (list_to_map m : gmap string Value) !! k = obj_get k m.
Proof.
  induction m as [|[n v] m IH]; [done|]. simpl. destruct (decide (k = n)) as [->|].
  - by rewrite lookup_insert_eq.
  - by rewrite lookup_insert_ne.
Qed.

(** A [HashMap] of string keys. *)
Definition map_to_value {A} `{Wire A} (m : gmap string A) : Value :=
  Object (struct (prod_map Datatypes.id to_value <$> map_to_list m)).
Definition map_from_value {A} `{Wire A} (v : Value) : Res () (gmap string A) :=
  m ← as_object v;
  l ← res_map (λ p, a ← from_value p.2; Ok (p.1, a)) m;
  Ok (list_to_map l).

Lemma elem_of_obj_insert k v m p : p ∈ obj_insert k v m → p = (k, v) ∨ p ∈ m.
Proof.
  induction m as [|[k' v'] m IH]; simpl; [set_solver|].
  destruct (String.compare k k'); [set_solver..|]. intros [->|Hp]%elem_of_cons; [set_solver|].
  destruct (IH Hp); set_solver.
Qed.

Lemma elem_of_struct fields m p :
  p ∈ foldl (λ m p, obj_insert p.1 p.2 m) m fields → p ∈ fields ∨ p ∈ m.
Proof.
  revert m. induction fields as [|[k v] l IH]; intros m; simpl; [by right|].
  intros Hp. destruct (IH _ Hp) as [|[->|]%elem_of_obj_insert]; set_solver.
Qed.

Lemma res_map_entries {A} `{Wire A} (m : list (string * Value)) :
  Forall (λ p, ∃ a, p.2 = to_value a ∧ sendable a) m →
  ∃ l : list (string * A), res_map (λ p, a ← from_value p.2; Ok (p.1, a)) m = Ok l ∧
    m = prod_map Datatypes.id to_value <$> l ∧ Forall (λ p, sendable p.2) l.
Proof.
  induction 1 as [|[k v] m (a&Ha&Hs) _ (l&Hl&->&Hf)]; [by exists []|]. simpl in Ha. subst v.
  exists ((k, a) :: l). split_and!; [|done|by constructor].
  cbn [res_map]. simpl. rewrite wire_roundtrip by done. simpl. by rewrite Hl.
Qed.

Lemma to_value_inj {A} `{Wire A} a b : sendable a → sendable b → to_value a = to_value b → a = b.
Proof. intros Ha%wire_roundtrip Hb%wire_roundtrip E. rewrite E in Ha. congruence. Qed.

Lemma map_wire_roundtrip {A} `{Wire A} (m : gmap string A) :
  map_Forall (λ _, sendable) m → map_from_value (map_to_value m) = Ok m.
Proof.
  intros Hm. unfold map_from_value, map_to_value. simpl.
  set (fields := prod_map Datatypes.id to_value <$> map_to_list m).
  assert (NoDup fields.*1) as Hn.
  { unfold fields. rewrite <- list_fmap_compose. exact (NoDup_fst_map_to_list m). }
  destruct (res_map_entries (struct fields)) as (l&Hl&Hs&Hf).
  { apply Forall_forall. intros p [Hp|Hp]%elem_of_struct; [|by apply elem_of_nil in Hp].
    unfold fields in Hp. apply list_elem_of_fmap in Hp as ([k a]&->&Hp%elem_of_map_to_list).
    exists a. split; [done|]. by apply (Hm k). }
  rewrite Hl. simpl. f_equal. apply map_eq. intros k.
  assert (to_value <$> (list_to_map l : gmap string A) !! k = to_value <$> m !! k) as Hk.
  { rewrite <- !lookup_fmap, <- list_to_map_fmap, <- Hs, list_to_map_obj_get. unfold struct.
    rewrite obj_get_struct by done. unfold fields. rewrite list_to_map_fmap, list_to_map_to_list.
    by destruct ((to_value <$> m) !! k). }
  destruct (list_to_map l !! k) as [a|] eqn:Ea, (m !! k) as [b|] eqn:Eb; simplify_eq/=; try done.
  f_equal. apply to_value_inj; [| |done].
  - apply elem_of_list_to_map_2 in Ea. rewrite Forall_forall in Hf. by apply Hf in Ea.
  - by apply (Hm k).
Qed.

#[export] Instance wire_map {A} `{Wire A} : Wire (gmap string A).
Proof.
  refine {| to_value := map_to_value; from_value := map_from_value;
            sendable := map_Forall (λ _, sendable) |}.
  apply map_wire_roundtrip.
Defined.

Definition uint_to_value (z : Z) : Value := Num (NInt z).
Definition uint_from_value (bits : Z) (v : Value) : Res () Z :=
  match v with
  | Num (NInt z) => if (0 <=? z) && (z <? 2 ^ bits) then Ok z else malformed
  | _ => malformed
  end.

Lemma uint_roundtrip bits z : 0 ≤ z < 2 ^ bits → uint_from_value bits (uint_to_value z) = Ok z.
Proof.
  intros [Hl Hu]. simpl. rewrite (proj2 (Z.leb_le _ _) Hl), (proj2 (Z.ltb_lt _ _) Hu). done.
Qed.

(** ** Identifiers: their text, which is parsed back *)

Definition ID_to_value (i : ID) : Value := Str (ID_to_string i).
Definition ID_from_value (v : Value) : Res () ID :=
  match v with Str s => map_err (λ _, ()) (ID_from_str s) | _ => malformed end.

#[export] Instance wire_id : Wire ID.
Proof.
  refine {| to_value := ID_to_value; from_value := ID_from_value; sendable := ID_wf |}.
  unfold ID_from_value, ID_to_value.
  intros i Hi. by rewrite ID_roundtrip.
Defined.

(** A newtype is encoded as what it holds. *)
Definition wire_newtype {A B} `{Wire A} (mk : A → B) (un : B → A) (Hmk : ∀ b, mk (un b) = b) : Wire B.
Proof.
  refine {| to_value := λ b, to_value (un b); from_value := λ v, a ← from_value v; Ok (mk a);
            sendable := λ b, sendable (un b) |}.
  intros b Hb. rewrite wire_roundtrip by done. simpl. by rewrite Hmk.
Defined.

#[export] Instance wire_session_id : Wire SessionId := wire_newtype mkSessionId session_id_ (λ '(mkSessionId _), eq_refl).
#[export] Instance wire_frame_id : Wire FrameId := wire_newtype mkFrameId frame_id_ (λ '(mkFrameId _), eq_refl).
#[export] Instance wire_tool_call_id : Wire ToolCallId := wire_newtype mkToolCallId tool_call_id_ (λ '(mkToolCallId _), eq_refl).
#[export] Instance wire_hitl_id : Wire HitlId := wire_newtype mkHitlId hitl_id_ (λ '(mkHitlId _), eq_refl).

(** ** Structs and variants, read back *)

Lemma obj_get_struct_nil fields k : NoDup fields.*1 → obj_get k (struct fields) = obj_get k fields.
Proof.
  intros Hn. unfold struct. rewrite obj_get_struct by done. rewrite list_to_map_obj_get. simpl.
  by destruct (obj_get k fields).
Qed.

Lemma field_struct {A} `{Wire A} name fields (a : A) :
  bool_decide (NoDup fields.*1) = true → obj_get name fields = Some (to_value a) → sendable a →
  field name (struct fields) = Ok a.
Proof.
  intros Hn%bool_decide_eq_true_1 Hg Ha. unfold field. rewrite obj_get_struct_nil, Hg by done.
  by apply wire_roundtrip.
Qed.

Lemma field_opt_struct {A} `{Wire (option A)} name fields (a : option A) :
  bool_decide (NoDup fields.*1) = true → obj_get name fields = Some (to_value a) → sendable a →
  field_opt name (struct fields) = Ok a.
Proof.
  intros Hn%bool_decide_eq_true_1 Hg Ha. unfold field_opt. rewrite obj_get_struct_nil, Hg by done.
  by apply wire_roundtrip.
Qed.

Lemma bind_field {A B} `{Wire A} name fields (a : A) (k : A → Res () B) r :
  bool_decide (NoDup fields.*1) = true → obj_get name fields = Some (to_value a) → sendable a → k a = r →
  field name (struct fields) ≫= k = r.
Proof. intros Hn Hg Ha Hk. by rewrite (field_struct _ _ a). Qed.

Lemma bind_field_opt {A B} `{Wire (option A)} name fields (a : option A) (k : option A → Res () B) r :
  bool_decide (NoDup fields.*1) = true → obj_get name fields = Some (to_value a) → sendable a → k a = r →
  field_opt name (struct fields) ≫= k = r.
Proof. intros Hn Hg Ha Hk. by rewrite (field_opt_struct _ _ a). Qed.

Lemma bind_ok {A B} (a : A) (k : A → Res () B) r : k a = r → Ok a ≫= k = r.
Proof. done. Qed.

Lemma bind_wire {A B} `{Wire A} (a : A) (k : A → Res () B) r :
  sendable a → k a = r → from_value (to_value a) ≫= k = r.
Proof. intros Ha Hk. by rewrite wire_roundtrip. Qed.

Lemma bind_bind {A B C} (m : Res () A) (f : A → Res () B) (g : B → Res () C) r :
  m ≫= (λ a, f a ≫= g) = r → (m ≫= f) ≫= g = r.
Proof. by destruct m. Qed.

(** Reads the fields in order; what is left is that they are [sendable]. *)
Ltac wire_fields :=
  repeat first
    [ progress cbn [as_object as_variant variant select]
    | match goal with
      | |- Ok _ ≫= _ = _ => apply bind_ok
      | |- (_ ≫= _) ≫= _ = _ => apply bind_bind
      | |- from_value (to_value _) ≫= _ = _ => eapply bind_wire; [by auto|]
      end
    | eapply bind_field; [reflexivity|reflexivity| |]
    | eapply bind_field_opt; [reflexivity|reflexivity| |]
    | match goal with |- context [decide (?a = ?b)] =>
        first [rewrite (decide_True _ _ (eq_refl : a = b)) | rewrite (decide_False (P := a = b)) by discriminate]
      end
    | reflexivity ].

(** ** Requests *)

Definition request_ask_expert_to_value (r : RequestAskExpert) : Value :=
  Object (struct [("task", to_value (ra_task r)); ("expert_id", to_value (ra_expert_id r))]).
Definition request_ask_expert_from_value (v : Value) : Res () RequestAskExpert :=
  m ← as_object v; task ← field "task" m; expert_id ← field "expert_id" m;
  Ok (mkRequestAskExpert task expert_id).

#[export] Instance wire_request_ask_expert : Wire RequestAskExpert.
Proof.
  refine {| to_value := request_ask_expert_to_value; from_value := request_ask_expert_from_value;
            sendable := λ _, True |}.
  intros [task expert_id] _. unfold request_ask_expert_from_value, request_ask_expert_to_value. wire_fields; auto.
Defined.

Definition request_tool_call_to_value (r : RequestToolCall) : Value :=
  Object (struct [("name", to_value (rt_name r)); ("parameters", to_value (rt_parameters r))]).
Definition request_tool_call_from_value (v : Value) : Res () RequestToolCall :=
  m ← as_object v; name ← field "name" m; parameters ← field "parameters" m;
  Ok (mkRequestToolCall name parameters).

#[export] Instance wire_request_tool_call : Wire RequestToolCall.
Proof.
  refine {| to_value := request_tool_call_to_value; from_value := request_tool_call_from_value;
            sendable := λ _, True |}.
  intros [name parameters] _. unfold request_tool_call_from_value, request_tool_call_to_value. wire_fields; auto.
Defined.

(** [#[serde(tag = "kind", rename_all = "snake_case")]], flattened into
    [Question]: the tag and the options are fields of the question. *)
Definition question_kind_fields (k : QuestionKind) : list (string * Value) :=
  match k with
  | ShortText => [("kind", Str "short_text")]
  | LongText => [("kind", Str "long_text")]
  | Select options => [("kind", Str "select"); ("options", to_value options)]
  | Radio options => [("kind", Str "radio"); ("options", to_value options)]
  | Checkboxes options => [("kind", Str "checkboxes"); ("options", to_value options)]
  | FileUpload accept => [("kind", Str "file_upload"); ("accept", to_value accept)]
  end.
Definition question_kind_from (m : list (string * Value)) : Res () QuestionKind :=
  kind ← (field "kind" m : Res () string);
  select kind [
    ("short_text", Ok ShortText);
    ("long_text", Ok LongText);
    ("select", options ← field "options" m; Ok (Select options));
    ("radio", options ← field "options" m; Ok (Radio options));
    ("checkboxes", options ← field "options" m; Ok (Checkboxes options));
    ("file_upload", accept ← field "accept" m; Ok (FileUpload accept))] malformed.

Definition question_to_value (q : Question) : Value :=
  Object (struct (("key", to_value (q_key q)) :: ("label", to_value (q_label q)) :: question_kind_fields (q_kind q))).
Definition question_from_value (v : Value) : Res () Question :=
  m ← as_object v; key ← field "key" m; label ← field "label" m; kind ← question_kind_from m;
  Ok (mkQuestion key label kind).

Lemma sendable_list {A} `{Wire A} (l : list A) : (∀ a : A, sendable a) → sendable l.
Proof. intros Ha. simpl. by induction l; constructor. Qed.
Lemma sendable_map {A} `{Wire A} (m : gmap string A) : (∀ a : A, sendable a) → sendable m.
Proof. intros Ha k a _. apply Ha. Qed.
#[export] Hint Resolve sendable_list sendable_map : core.
#[export] Hint Extern 1 (sendable _) => exact I : core.

#[export] Instance wire_question : Wire Question.
Proof.
  refine {| to_value := question_to_value; from_value := question_from_value; sendable := λ _, True |}.
  intros [key label kind] _. unfold question_from_value, question_to_value, question_kind_from.
  destruct kind; wire_fields; auto.
Defined.

(** A unit variant may also be written as an object that holds [null]. *)
Definition unit_variant {A} (v : Value) (a : A) : Res () A :=
  match v with Null => Ok a | _ => malformed end.

Definition hitl_to_value (h : Hitl) : Value :=
  match h with Questions qs => variant "Questions" (to_value qs) | Text => Str "Text" end.
Definition hitl_from_value (v : Value) : Res () Hitl :=
  t ← as_variant v;
  match t with
  | UnitVariant n => select n [("Text", Ok Text)] malformed
  | DataVariant n v =>
      select n [("Questions", qs ← from_value v; Ok (Questions qs)); ("Text", unit_variant v Text)] malformed
  end.

#[export] Instance wire_hitl : Wire Hitl.
Proof.
  refine {| to_value := hitl_to_value; from_value := hitl_from_value; sendable := λ _, True |}.
  intros [qs|] _; unfold hitl_to_value, hitl_from_value; wire_fields; auto.
Defined.

(** ** Results of a run *)

Definition branch_to_value (b : Branch) : Value :=
  Object (struct [("start", to_value (br_start b)); ("overrides", to_value (br_overrides b))]).
Definition branch_from_value (v : Value) : Res () Branch :=
  m ← as_object v; start ← field "start" m; overrides ← field "overrides" m; Ok (mkBranch start overrides).

#[export] Instance wire_branch : Wire Branch.
Proof.
  refine {| to_value := branch_to_value; from_value := branch_from_value; sendable := λ _, True |}.
  intros [start overrides] _. unfold branch_to_value, branch_from_value. wire_fields; auto.
Defined.

Definition frame_result_to_value (r : FrameResult) : Value :=
  match r with
  | FRequestHitl h => variant "RequestHitl" (to_value h)
  | FConsultExperts reqs => variant "ConsultExperts" (to_value reqs)
  | FCallTools reqs => variant "CallTools" (to_value reqs)
  | FExecuteGraph g => variant "ExecuteGraph" (to_value g)
  | FContinue => Str "Continue"
  | FGoTo n => variant "GoTo" (to_value n)
  | FFork branches join =>
      variant "Fork" (Object (struct [("branches", to_value branches); ("join", to_value join)]))
  | FCompleted => Str "Completed"
  | FFailed msg => variant "Failed" (to_value msg)
  end.
Definition frame_result_from_value (v : Value) : Res () FrameResult :=
  t ← as_variant v;
  match t with
  | UnitVariant n => select n [("Continue", Ok FContinue); ("Completed", Ok FCompleted)] malformed
  | DataVariant n v => select n [
      ("RequestHitl", h ← from_value v; Ok (FRequestHitl h));
      ("ConsultExperts", reqs ← from_value v; Ok (FConsultExperts reqs));
      ("CallTools", reqs ← from_value v; Ok (FCallTools reqs));
      ("ExecuteGraph", g ← from_value v; Ok (FExecuteGraph g));
      ("Continue", unit_variant v FContinue);
      ("GoTo", n ← from_value v; Ok (FGoTo n));
      ("Fork", m ← as_object v; branches ← field "branches" m; join ← field "join" m; Ok (FFork branches join));
      ("Completed", unit_variant v FCompleted);
      ("Failed", msg ← from_value v; Ok (FFailed msg))] malformed
  end.

#[export] Instance wire_frame_result : Wire FrameResult.
Proof.
  refine {| to_value := frame_result_to_value; from_value := frame_result_from_value; sendable := λ _, True |}.
  intros r _. unfold frame_result_to_value, frame_result_from_value. destruct r; wire_fields; auto.
Defined.

(** ** The journal *)

Definition run_log_content_to_value (c : RunLogContent) : Value :=
  match c with
  | ConsultExpertsLog requests =>
      variant "ConsultExpertsLog" (Object (struct [("requests", to_value requests)]))
  | CallToolsLog requests => variant "CallToolsLog" (Object (struct [("requests", to_value requests)]))
  | GraphLog graph_id => variant "GraphLog" (Object (struct [("graph_id", to_value graph_id)]))
  | HitlLog request => variant "HitlLog" (Object (struct [("request", to_value request)]))
  end.
Definition run_log_content_from_value (v : Value) : Res () RunLogContent :=
  t ← as_variant v;
  match t with
  | UnitVariant _ => malformed
  | DataVariant n v => select n [
      ("ConsultExpertsLog", m ← as_object v; requests ← field "requests" m; Ok (ConsultExpertsLog requests));
      ("CallToolsLog", m ← as_object v; requests ← field "requests" m; Ok (CallToolsLog requests));
      ("GraphLog", m ← as_object v; graph_id ← field "graph_id" m; Ok (GraphLog graph_id));
      ("HitlLog", m ← as_object v; request ← field "request" m; Ok (HitlLog request))] malformed
  end.

#[export] Instance wire_run_log_content : Wire RunLogContent.
Proof.
  refine {| to_value := run_log_content_to_value; from_value := run_log_content_from_value;
            sendable := λ _, True |}.
  intros c _. unfold run_log_content_to_value, run_log_content_from_value. destruct c; wire_fields; auto.
Defined.

Definition field_uint (bits : Z) (name : string) (m : list (string * Value)) : Res () Z :=
  match obj_get name m with Some v => uint_from_value bits v | None => malformed end.

Lemma bind_field_uint {B} bits name fields z (k : Z → Res () B) r :
  bool_decide (NoDup fields.*1) = true → obj_get name fields = Some (uint_to_value z) → 0 ≤ z < 2 ^ bits →
  k z = r → field_uint bits name (struct fields) ≫= k = r.
Proof.
  intros Hn%bool_decide_eq_true_1 Hg Hz Hk. unfold field_uint.
  by rewrite obj_get_struct_nil, Hg, uint_roundtrip.
Qed.

Definition run_log_to_value (l : RunLog) : Value :=
  Object (struct [("index", uint_to_value (rl_index l)); ("content", to_value (rl_content l));
                  ("value", to_value (rl_value l))]).
Definition run_log_from_value (v : Value) : Res () RunLog :=
  m ← as_object v; index ← field_uint 32 "index" m; content ← field "content" m;
  value ← field_opt "value" m; Ok (mkRunLog index content value).

#[export] Instance wire_run_log : Wire RunLog.
Proof.
  refine {| to_value := run_log_to_value; from_value := run_log_from_value;
            sendable := λ l, 0 ≤ rl_index l < 2 ^ 32 ∧ sendable (rl_value l) |}.
  intros [index content value] [Hi Hv]. unfold run_log_to_value, run_log_from_value. cbn [rl_index rl_value rl_content] in *.
  wire_fields. eapply bind_field_uint; [reflexivity..|done|]. wire_fields; auto.
Defined.

Definition channel_update_to_value (u : ChannelUpdate) : Value :=
  Object (struct [("name", to_value (cu_name u)); ("value", to_value (cu_value u));
                  ("contributor", to_value (contributor u))]).
Definition channel_update_from_value (v : Value) : Res () ChannelUpdate :=
  m ← as_object v; name ← field "name" m; value ← field "value" m; contributor ← field "contributor" m;
  Ok (mkChannelUpdate name value contributor).

#[export] Instance wire_channel_update : Wire ChannelUpdate.
Proof.
  refine {| to_value := channel_update_to_value; from_value := channel_update_from_value;
            sendable := λ u, sendable (contributor u) |}.
  intros [name value contributor] Hu. unfold channel_update_to_value, channel_update_from_value. wire_fields; auto.
Defined.

Definition frame_response_to_value (r : FrameResponse) : Value :=
  Object (struct [("frame_id", to_value (fr_frame_id r)); ("updates", to_value (fr_updates r));
                  ("new_logs", to_value (fr_new_logs r)); ("result", to_value (fr_result r))]).
Definition frame_response_from_value (v : Value) : Res () FrameResponse :=
  m ← as_object v; frame_id ← field "frame_id" m; updates ← field "updates" m;
  new_logs ← field "new_logs" m; result ← field "result" m;
  Ok (mkFrameResponse frame_id updates new_logs result).

Definition frame_response_sendable (r : FrameResponse) : Prop :=
  sendable (fr_frame_id r) ∧ sendable (fr_updates r) ∧ sendable (fr_new_logs r).

Lemma frame_response_roundtrip r :
  frame_response_sendable r → frame_response_from_value (frame_response_to_value r) = Ok r.
Proof.
  destruct r as [f u l r]. intros (Hf&Hu&Hl).
  unfold frame_response_to_value, frame_response_from_value. wire_fields; auto.
Qed.

#[export] Instance wire_frame_response : Wire FrameResponse := {|
  to_value := frame_response_to_value; from_value := frame_response_from_value;
  sendable := frame_response_sendable; wire_roundtrip := frame_response_roundtrip |}.

(** ** The job of a frame *)

(** The arguments of the job ([session/worker.rs]). *)
Record RunFrameArgs := mkRunFrameArgs {
  rf_session_id : SessionId; rf_frame_id : FrameId; rf_channels : Channels;
  rf_logs : list RunLog; rf_data : FrameKind }.

Definition shell_mode_to_value (m : ShellMode) : Value :=
  match m with
  | LoopModel system_prompt model_id allowed_tools =>
      variant "LoopModel" (Object (struct [("system_prompt", to_value system_prompt);
        ("model_id", to_value model_id); ("allowed_tools", to_value allowed_tools)]))
  | ExpertShell e => variant "Expert" (to_value e)
  end.
Definition shell_mode_from_value (v : Value) : Res () ShellMode :=
  t ← as_variant v;
  match t with
  | UnitVariant _ => malformed
  | DataVariant n v => select n [
      ("LoopModel", m ← as_object v; system_prompt ← field "system_prompt" m;
         model_id ← field "model_id" m; allowed_tools ← field "allowed_tools" m;
         Ok (LoopModel system_prompt model_id allowed_tools));
      ("Expert", e ← from_value v; Ok (ExpertShell e))] malformed
  end.

#[export] Instance wire_shell_mode : Wire ShellMode.
Proof.
  refine {| to_value := shell_mode_to_value; from_value := shell_mode_from_value; sendable := λ _, True |}.
  intros m _. unfold shell_mode_to_value, shell_mode_from_value. destruct m; wire_fields; auto.
Defined.

Definition graph_ref_to_value (g : GraphRef) : Value :=
  let r := catalog_ref g in
  Object (struct [("kind", to_value (ref_kind r)); ("id", to_value (ref_id r));
                  ("version", uint_to_value (ref_version r))]).
Definition graph_ref_from_value (v : Value) : Res () GraphRef :=
  m ← as_object v; kind ← field "kind" m; id ← field "id" m; version ← field_uint 64 "version" m;
  Ok (mkGraphRef (mkRef kind id version)).

#[export] Instance wire_graph_ref : Wire GraphRef.
Proof.
  refine {| to_value := graph_ref_to_value; from_value := graph_ref_from_value;
            sendable := λ g, 0 ≤ ref_version (catalog_ref g) < 2 ^ 64 |}.
  intros [[kind id version]] Hv. unfold graph_ref_to_value, graph_ref_from_value. wire_fields; [done..|].
  eapply bind_field_uint; [reflexivity..|done|]. done.
Defined.

(** [#[serde(tag = "kind")]]: the tag is a field beside those of the variant.
    A variant that holds one value is encoded by adding the tag to the fields
    of that value, which must have fields: it is an error on a text, which is
    what an identifier is. *)
Definition tagged (kind : string) (fields : list (string * Value)) : Res () Value :=
  Ok (Object (struct (("kind", Str kind) :: fields))).
Definition tagged_newtype (kind : string) (v : Value) : Res () Value :=
  match v with Object fields => tagged kind fields | _ => malformed end.

Definition frame_kind_to_value (k : FrameKind) : Res () Value :=
  match k with
  | KVoid => tagged "Void" []
  | KShell m => tagged_newtype "Shell" (to_value m)
  | KHitl h => tagged_newtype "Hitl" (to_value h)
  | KExpertConsultation => tagged "ExpertConsultation" []
  | KToolCall i name parameters =>
      tagged "ToolCall" [("id", to_value i); ("name", to_value name); ("parameters", to_value parameters)]
  | KGraph g => tagged "Graph" [("graph_ref", to_value g)]
  | KGraphNode g node_id => tagged "GraphNode" [("graph_ref", to_value g); ("node_id", to_value node_id)]
  | KGraphThread g => tagged "GraphThread" [("graph_ref", to_value g)]
  | KGraphSpan g join => tagged "GraphSpan" [("graph_ref", to_value g); ("join", to_value join)]
  end.

(** What a newtype variant reads: the object without its tag. *)
Definition untagged (m : list (string * Value)) : Value := Object (filter (λ p, p.1 ≠ "kind") m).

Definition frame_kind_from_value (v : Value) : Res () FrameKind :=
  m ← as_object v; kind ← (field "kind" m : Res () string);
  select kind [
    ("Void", Ok KVoid);
    ("Shell", mode ← from_value (untagged m); Ok (KShell mode));
    ("Hitl", h ← from_value (untagged m); Ok (KHitl h));
    ("ExpertConsultation", Ok KExpertConsultation);
    ("ToolCall", i ← field "id" m; name ← field "name" m; parameters ← field "parameters" m;
       Ok (KToolCall i name parameters));
    ("Graph", g ← field "graph_ref" m; Ok (KGraph g));
    ("GraphNode", g ← field "graph_ref" m; node_id ← field "node_id" m; Ok (KGraphNode g node_id));
    ("GraphThread", g ← field "graph_ref" m; Ok (KGraphThread g));
    ("GraphSpan", g ← field "graph_ref" m; join ← field "join" m; Ok (KGraphSpan g join))] malformed.

Definition run_frame_args_to_value (a : RunFrameArgs) : Res () Value :=
  data ← frame_kind_to_value (rf_data a);
  Ok (Object (struct [("session_id", to_value (rf_session_id a)); ("frame_id", to_value (rf_frame_id a));
    ("channels", to_value (rf_channels a)); ("logs", to_value (rf_logs a)); ("data", data)])).
Definition run_frame_args_from_value (v : Value) : Res () RunFrameArgs :=
  m ← as_object v; session_id ← field "session_id" m; frame_id ← field "frame_id" m;
  channels ← field "channels" m; logs ← field "logs" m; data ← (field "data" m : Res () Value);
  data ← frame_kind_from_value data;
  Ok (mkRunFrameArgs session_id frame_id channels logs data).

(** ** Lemmas *)

Definition frame_kind_sendable (k : FrameKind) : Prop :=
  match k with
  | KToolCall i _ _ => sendable i
  | KGraph g | KGraphNode g _ | KGraphThread g | KGraphSpan g _ => sendable g
  | _ => True
  end.

Definition run_frame_args_sendable (a : RunFrameArgs) : Prop :=
  sendable (rf_session_id a) ∧ sendable (rf_frame_id a) ∧ sendable (rf_logs a) ∧ frame_kind_sendable (rf_data a).

Definition is_hitl (k : FrameKind) : bool := match k with KHitl _ => true | _ => false end.

Lemma frame_kind_to_value_spec k :
  match frame_kind_to_value k with
  | Ok v => is_hitl k = false ∧ (frame_kind_sendable k → frame_kind_from_value v = Ok k)
  | Err _ => is_hitl k = true
  | Panic => False
  end.
Proof.
  unfold frame_kind_from_value. destruct k as [|[]|h| | | | | |]; cbn [frame_kind_to_value tagged]; try done;
    (split; [done|]); intros Hk; wire_fields; auto.
  exact (bind_wire (LoopModel system_prompt model_id allowed_tools) (λ mode, Ok (KShell mode)) _ I eq_refl).
Qed.

Lemma frame_kind_hitl h : frame_kind_to_value (KHitl h) = malformed.
Proof. done. Qed.

Lemma run_frame_args_encode a :
  is_hitl (rf_data a) = false → ∃ v, run_frame_args_to_value a = Ok v ∧
    (run_frame_args_sendable a → run_frame_args_from_value v = Ok a).
Proof.
  intros Hh. unfold run_frame_args_to_value. pose proof (frame_kind_to_value_spec (rf_data a)) as Hk.
  destruct (frame_kind_to_value (rf_data a)) as [d|[]|]; [|congruence|done]. destruct Hk as [_ Hk].
  eexists. split; [reflexivity|]. intros (Hs&Hf&Hl&Hd%Hk). unfold run_frame_args_from_value.
  destruct a as [s f c l k]. simpl in Hs, Hf, Hl, Hd. wire_fields; auto. rewrite Hd. wire_fields.
Qed.

(** ** Properties *)

(** C26: What a worker and a checkpointer exchange survives the network.  The
    arguments of a job have a JSON form exactly when the frame is not a
    question to a human, and both they and the response are read back as they
    were written, provided that identifiers and numbers have the width of
    their types and that no answer recorded in a journal is [null]. *)
Theorem job_survives_wire (a : RunFrameArgs) (r : FrameResponse) :
  ((∃ v, run_frame_args_to_value a = Ok v) ↔ is_hitl (rf_data a) = false) ∧
  (run_frame_args_sendable a → ∀ v, run_frame_args_to_value a = Ok v → run_frame_args_from_value v = Ok a) ∧
  (frame_response_sendable r → frame_response_from_value (frame_response_to_value r) = Ok r).
Proof.
  destruct (is_hitl (rf_data a)) eqn:Hh.
  - assert (run_frame_args_to_value a = malformed) as ->.
    { unfold run_frame_args_to_value. by destruct (rf_data a). }
    split_and!; [by split; [intros [? ?]|]|done|apply frame_response_roundtrip].
  - destruct (run_frame_args_encode a Hh) as (v&Hv&Hr).
    split_and!; [by split; [|eauto]| |apply frame_response_roundtrip].
    intros Ha v' Hv'. rewrite Hv in Hv'. simplify_eq. auto.
Qed.

(** An answer that is [null] is lost: a journal entry that holds it is read
    back as one that has no answer yet, and its node asks again. *)
Theorem null_answer_is_lost (l : RunLog) :
  0 ≤ rl_index l < 2 ^ 32 → rl_value l = Some Null →
  run_log_from_value (run_log_to_value l) = Ok (mkRunLog (rl_index l) (rl_content l) None).
Proof.
  intros Hi Hv. unfold run_log_from_value, run_log_to_value. rewrite Hv.
  wire_fields. eapply bind_field_uint; [reflexivity..|done|].
  eapply bind_field; [reflexivity|reflexivity|exact I|].
  by eapply (bind_field_opt _ _ None).
Qed.

(** ** A node's job *)

Definition demo_wire_id (n : Z) : ID := mkID 255 n.
Definition demo_wire_args : RunFrameArgs :=
  mkRunFrameArgs (mkSessionId (demo_wire_id 1)) (mkFrameId (demo_wire_id 2)) {["task" := Str "6*7"]}
    [mkRunLog 0 (ConsultExpertsLog [mkRequestAskExpert "6*7" "e"]) (Some (Array [Str "42"]))]
    (KGraphNode (mkGraphRef (mkRef "/marie/catalog/graphs" "g" 1)) "n").
Definition demo_wire_response : FrameResponse :=
  mkFrameResponse (mkFrameId (demo_wire_id 2))
    [mkChannelUpdate "answer" (Str "42") (mkFrameId (demo_wire_id 2))]
    [mkRunLog 1 (HitlLog (Questions [mkQuestion "k" "l" (Checkboxes ["a"; "b"])])) None]
    (FFork [mkBranch "n" {["x" := Num (NInt 1)]}] "j").

Lemma demo_wire_args_sendable : run_frame_args_sendable demo_wire_args.
Proof. split_and!; try done. constructor; [|done]. split; [done|]. by split. Qed.
Lemma demo_wire_response_sendable : frame_response_sendable demo_wire_response.
Proof.
  assert (ID_wf (demo_wire_id 2)) as Hi by done.
  split_and!; [exact Hi| |]; (constructor; [|constructor]); [exact Hi|]. by split.
Qed.

Lemma job_survives_wire_witness :
  (∃ v, run_frame_args_to_value demo_wire_args = Ok v ∧ run_frame_args_from_value v = Ok demo_wire_args) ∧
  frame_response_from_value (frame_response_to_value demo_wire_response) = Ok demo_wire_response.
Proof.
  destruct (job_survives_wire demo_wire_args demo_wire_response) as (He&Ha&Hr). split.
  - destruct (proj2 He eq_refl) as [v Hv]. exists v. split; [exact Hv|].
    exact (Ha demo_wire_args_sendable v Hv).
  - exact (Hr demo_wire_response_sendable).
Defined.

Lemma null_answer_is_lost_witness :
  run_log_from_value (run_log_to_value (mkRunLog 0 (HitlLog Text) (Some Null))) =
  Ok (mkRunLog 0 (HitlLog Text) None).
Proof. apply (null_answer_is_lost (mkRunLog 0 (HitlLog Text) (Some Null))); done. Defined.

(** The JSON text of a response is what [serde] writes. *)
Example demo_wire_json :
  frame_result_to_value (FRequestHitl (Questions [mkQuestion "k" "l" ShortText])) =
    Object [("RequestHitl", Object [("Questions",
      Array [Object [("key", Str "k"); ("kind", Str "short_text"); ("label", Str "l")]])])].
Proof. reflexivity. Qed.
