(* ===== verification/ErrorChain.v ===== *)
(** * The portable error ([marie-core/src/error.rs])

    [crate::Error] keeps the messages of an error and of its causes, so that it
    can be sent to another node.  The other files keep its kind ([Errors]); this
    one models the value itself, its context, its texts and its JSON. *)

From S2P Require Import Prelude Ids Json Types Wire.

(** The two traits of the standard library that it reads: [Display], and
    [source] as the list of the successive causes. *)
Record StdError := mkStdError { std_display : string; std_sources : list string }.

Record ErrorChain := mkChain { chain : list string }.

#[export] Instance ErrorChain_eq_dec : EqDecision ErrorChain.
Proof. solve_decision. Defined.

(** [Error::msg], and the [err!] macro *)
Definition msg (message : string) : ErrorChain := mkChain [message].

Definition context (e : ErrorChain) (c : string) : ErrorChain := mkChain (c :: chain e).

(** [&self.chain[0]] panics on an empty chain, and so does [root_cause]. *)
Definition message {E} (e : ErrorChain) : Res E string := unwrap (head (chain e)).
Definition root_cause {E} (e : ErrorChain) : Res E string := unwrap (last (chain e)).

(** [impl From<E> for Error] *)
Definition from_std (e : StdError) : ErrorChain := mkChain (std_display e :: std_sources e).

(** [anyhow::Error::chain]: the error first, then its causes. *)
Definition from_anyhow (e : StdError) : ErrorChain := mkChain (std_display e :: std_sources e).

(** [impl Display], and [impl Debug] *)
Definition error_display {E} (e : ErrorChain) : Res E string := message e.

Definition NEWLINE : string := String (Ascii.ascii_of_nat 10) "".

Fixpoint causes (i : nat) (l : list string) : string :=
  match l with
  | [] => ""
  | c :: l => NEWLINE +:+ "    " +:+ pretty.pretty i +:+ ": " +:+ c +:+ causes (S i) l
  end.

Definition error_debug {E} (e : ErrorChain) : Res E string :=
  m ← message e;
  Ok (match tail (chain e) with
      | [] => m
      | l => m +:+ NEWLINE +:+ NEWLINE +:+ "Caused by:" +:+ causes 0 l
      end).

(** [Context for Result]: [Into] is the conversion of the error. *)
Definition with_context {E A} (into : E → ErrorChain) (c : string) (r : Res E A) : Res ErrorChain A :=
  map_err (λ e, context (into e) c) r.

(** [ensure!] *)
Definition ensure (cond : bool) (message : string) : Res ErrorChain () :=
  if cond then Ok () else Err (msg message).

(** [#[derive(Serialize, Deserialize)]] *)
Definition chain_to_value (e : ErrorChain) : Value := Object (struct [("chain", to_value (chain e))]).
Definition chain_from_value (v : Value) : Res () ErrorChain :=
  m ← as_object v; l ← field "chain" m; Ok (mkChain l).

#[export] Instance wire_chain : Wire ErrorChain.
Proof.
  refine {| to_value := chain_to_value; from_value := chain_from_value; sendable := λ e, sendable (chain e) |}.
  intros [l] Hl. unfold chain_to_value, chain_from_value. wire_fields; auto.
Defined.

(** ** Laws *)

(** The errors that the functions of the module build. *)
Inductive built : ErrorChain → Prop :=
  | built_msg m : built (msg m)
  | built_std e : built (from_std e)
  | built_anyhow e : built (from_anyhow e)
  | built_context e c : built e → built (context e c).

Lemma built_nonempty e : built e → chain e ≠ [].
Proof. by destruct 1. Qed.

Lemma last_cons_nonempty {A} (x : A) (l : list A) : l ≠ [] → last (x :: l) = last l.
Proof. by destruct l. Qed.

(** An error that the program builds has a message and a root cause; a context
    becomes its message and leaves its cause; and a node that receives it reads
    the same chain. *)
Theorem error_chain_travels (e : ErrorChain) (c : string) :
  built e →
  (∃ m r, message (E:=()) e = Ok m ∧ root_cause (E:=()) e = Ok r ∧
     message (E:=()) (context e c) = Ok c ∧ root_cause (E:=()) (context e c) = Ok r) ∧
  from_value (to_value (context e c)) = Ok (context e c).
Proof.
  intros Hb. pose proof (built_nonempty e Hb) as Hne. split.
  - unfold message, root_cause, context. simpl chain.
    rewrite (last_cons_nonempty c) by done.
    destruct (chain e) as [|m l]; [done|].
    destruct (last (m :: l)) as [r|] eqn:Hr; [by exists m, r|].
    apply last_None in Hr. done.
  - apply wire_roundtrip. simpl. by apply Forall_true.
Qed.

Lemma error_chain_travels_witness :
  from_value (to_value (context (msg "disk full") "saving")) = Ok (mkChain ["saving"; "disk full"]).
Proof. apply (error_chain_travels (msg "disk full") "saving"). constructor. Defined.

(** But an empty chain is read as well, and it cannot be shown. *)
Theorem empty_chain_panics :
  ∃ e, from_value (Object (struct [("chain", Array [])])) = Ok e ∧
    error_display (E:=()) e = Panic ∧ error_debug (E:=()) e = Panic ∧ root_cause (E:=()) e = Panic.
Proof. exists (mkChain []). split_and!; reflexivity. Qed.

(** [with_context] leaves a value alone, and keeps the causes of an error. *)
Lemma with_context_spec {E A} (into : E → ErrorChain) (c : string) (r : Res E A) :
  match r with
  | Ok a => with_context into c r = Ok a
  | Err e => with_context into c r = Err (mkChain (c :: chain (into e)))
  | Panic => with_context into c r = Panic
  end.
Proof. by destruct r. Qed.

Example debug_of_two_causes :
  error_debug (E:=()) (context (context (msg "c") "b") "a") =
  Ok ("a" +:+ NEWLINE +:+ NEWLINE +:+ "Caused by:" +:+ NEWLINE +:+ "    0: b" +:+ NEWLINE +:+ "    1: c").
Proof. vm_compute. reflexivity. Qed.
