(* ===== verification/Vfs.v ===== *)
(** * Virtual file systems ([persistency/filesystem.rs], [persistency/alias.rs])

    A [VFS] routes a path to the file system mounted at its longest prefix,
    after it has followed the aliases of the path, as one follows a symbolic
    link.  A [VFS] is a file system, so that one is mounted inside another. *)

From Stdlib Require Import Ascii Sorting.Sorted.
From S2P Require Import Prelude Ids Json Types Wire ErrorChain.

(** ** Text *)

(** [str::strip_prefix] *)
Fixpoint strip_prefix (p s : string) : option string :=
  match p, s with
  | EmptyString, _ => Some s
  | String a p, String b s => if decide (a = b) then strip_prefix p s else None
  | String _ _, EmptyString => None
  end.

Definition starts_slash (s : string) : bool :=
  match s with String c _ => bool_decide (c = "/"%char) | EmptyString => false end.

Lemma strip_prefix_spec p s r : strip_prefix p s = Some r ↔ s = p +:+ r.
Proof.
  revert s. induction p as [|a p IH]; intros s; simpl.
  { split; [by intros [= ->]|by intros ->]. }
  destruct s as [|b s]; [done|]. case_decide as Hab.
  { subst b. rewrite IH. split; [by intros ->|by intros [= ->]]. }
  split; [done|]. intros [= Hba _]. by destruct Hab.
Qed.

Lemma strip_prefix_app p r : strip_prefix p (p +:+ r) = Some r.
Proof. by apply strip_prefix_spec. Qed.

(** [str::split], and the segments of a path: those of
    [path.split('/')] that are not empty. *)
Fixpoint split_at (c : ascii) (s : string) : list string :=
  match s with
  | EmptyString => [""]
  | String a s =>
      if decide (a = c) then "" :: split_at c s
      else match split_at c s with
           | [] => [String a ""]
           | x :: l => String a x :: l
           end
  end.

Definition segments (path : string) : list string := filter (λ s, s ≠ "") (split_at "/" path).

(** The path is the prefix, or below it. *)
Definition covers (p path : string) : Prop := ∃ r, path = p +:+ r ∧ (r = "" ∨ starts_slash r = true).

Lemma covers_spec p path :
  covers p path ↔ match strip_prefix p path with Some r => r = "" ∨ starts_slash r = true | None => False end.
Proof.
  destruct (strip_prefix p path) as [r|] eqn:E.
  - apply strip_prefix_spec in E as ->. split; [|by exists r].
    intros (r'&E&Hr). assert (Some r' = Some r) as [= ->]; [|done].
    rewrite <- (strip_prefix_app p r), E. symmetry. apply strip_prefix_app.
  - split; [|done]. intros (r&->&_). by rewrite strip_prefix_app in E.
Qed.

#[export] Instance covers_dec p path : Decision (covers p path).
Proof.
  assert (Decision (match strip_prefix p path with Some r => r = "" ∨ starts_slash r = true | None => False end)) as [Hc|Hc].
  - destruct (strip_prefix p path); apply _.
  - left. by apply covers_spec.
  - right. by rewrite covers_spec.
Defined.

Lemma string_app_assoc (s t u : string) : s +:+ (t +:+ u) = (s +:+ t) +:+ u.
Proof. induction s as [|a s IH]; [done|]. exact (f_equal (String a) IH). Qed.

Lemma string_app_length (s t : string) : String.length (s +:+ t) = String.length s + String.length t.
Proof. induction s as [|a s IH]; simpl; [done|]. by rewrite IH. Qed.

Lemma string_app_inj (p p' r r' : string) : p +:+ r = p' +:+ r' → String.length p = String.length p' → p = p' ∧ r = r'.
Proof.
  revert p'. induction p as [|a p IH]; intros [|a' p'] He Hl; try done. injection He as -> He. injection Hl as Hl.
  destruct (IH p' He Hl) as [-> ->]. done.
Qed.

(** Two prefixes of a path that have the same length are the same. *)
Lemma covers_length p p' path : covers p path → covers p' path → String.length p = String.length p' → p = p'.
Proof. intros (r&->&_) (r'&He&_) Hl. by apply (string_app_inj p p' r r'). Qed.

(** ** Interfaces *)

Record OpenOptions := mkOpen {
  o_read : bool; o_write : bool; o_append : bool; o_truncate : bool; o_create : bool; o_create_new : bool }.

(** [trait FileSystem]: [W] is what the file systems keep, [D] the descriptors. *)
Record FileSystem (W D : Type) := mkFs {
  fs_mkdir : string → M W ErrorChain ();
  fs_ls : string → M W ErrorChain (list string);
  fs_open : string → OpenOptions → M W ErrorChain D;
  fs_remove : string → M W ErrorChain () }.
Arguments mkFs {W D}. Arguments fs_mkdir {W D}. Arguments fs_ls {W D}. Arguments fs_open {W D}. Arguments fs_remove {W D}.

(** [trait AliasCatalog] *)
Record AliasCatalog (W : Type) := mkAlias {
  resolve_prefix : string → M W ErrorChain (option string);
  alias_set : string → string → M W ErrorChain ();
  alias_remove : string → M W ErrorChain ();
  alias_list : M W ErrorChain (list (string * string)) }.
Arguments mkAlias {W}. Arguments resolve_prefix {W}. Arguments alias_set {W}. Arguments alias_remove {W}.
Arguments alias_list {W}.

(** ** The router *)

Definition MAX_ALIAS_HOPS : nat := 8.

Section vfs.
Context {W D : Type}.
Notation Fs := (FileSystem W D).

Record VFS := mkVfs { mounts : list (string * Fs); aliases : option (AliasCatalog W) }.

Definition vfs_new : VFS := mkVfs [] None.
Definition with_aliases (a : AliasCatalog W) : VFS := mkVfs [] (Some a).

(** [mounts.sort_by(|(a, _), (b, _)| b.len().cmp(&a.len()))]: a stable sort,
    longest prefix first. *)
Fixpoint sort_insert (x : string * Fs) (l : list (string * Fs)) : list (string * Fs) :=
  match l with
  | [] => [x]
  | y :: l' => if String.length y.1 <=? String.length x.1 then x :: l else y :: sort_insert x l'
  end%nat.
Definition sort_mounts (l : list (string * Fs)) : list (string * Fs) := foldr sort_insert [] l.

Definition mount (prefix : string) (fs : Fs) (v : VFS) : VFS :=
  mkVfs (sort_mounts (filter (λ m, m.1 ≠ prefix) (mounts v) ++ [(prefix, fs)])) (aliases v).

Definition alias (from to : string) (v : VFS) : M W ErrorChain () :=
  match aliases v with
  | None => throw (msg "ce VFS n'a pas de table d'alias")
  | Some a => alias_set a from to
  end.

(** [for _ in 0..MAX_ALIAS_HOPS] *)
Fixpoint follow (a : AliasCatalog W) (hops : nat) (current : string) : M W ErrorChain string :=
  match hops with
  | O => mret current
  | S hops =>
      rewritten ← resolve_prefix a current;
      match rewritten with
      | Some r => if decide (r = current) then mret current else follow a hops r
      | None => mret current
      end
  end.

Definition resolve_aliases (v : VFS) (path : string) : M W ErrorChain string :=
  match aliases v with
  | Some a => follow a MAX_ALIAS_HOPS path
  | None => mret path
  end.

Fixpoint first_mount (l : list (string * Fs)) (path : string) : option (Fs * string) :=
  match l with
  | [] => None
  | (prefix, fs) :: l =>
      match strip_prefix prefix path with
      | Some rest =>
          if decide (rest = "") then Some (fs, "/")
          else if starts_slash rest then Some (fs, rest) else first_mount l path
      | None => first_mount l path
      end
  end.

Definition resolve_mount (v : VFS) (path : string) : option (Fs * string) := first_mount (mounts v) path.

Definition resolve (v : VFS) (path : string) : M W ErrorChain (Fs * string) :=
  path ← resolve_aliases v path;
  lift (of_option (msg ("aucun montage ne couvre " +:+ path)) (resolve_mount v path)).

(** [impl FileSystem for VFS] *)
Definition vfs_fs (v : VFS) : Fs :=
  mkFs (λ path, '(fs, sub) ← resolve v path; fs_mkdir fs sub)
    (λ path, '(fs, sub) ← resolve v path; fs_ls fs sub)
    (λ path options, '(fs, sub) ← resolve v path; fs_open fs sub options)
    (λ path, '(fs, sub) ← resolve v path; fs_remove fs sub).

(** ** Mounts *)

Lemma sort_insert_perm x l : sort_insert x l ≡ₚ x :: l.
Proof.
  induction l as [|y l IH]; simpl; [done|]. destruct (_ <=? _)%nat; [done|]. rewrite IH. apply Permutation_swap.
Qed.
Lemma sort_mounts_perm l : sort_mounts l ≡ₚ l.
Proof. induction l as [|x l IH]; simpl; [done|]. rewrite sort_insert_perm. by constructor. Qed.

Definition longer (x y : string * Fs) : Prop := (String.length y.1 ≤ String.length x.1)%nat.

Lemma sort_insert_sorted x l : StronglySorted longer l → StronglySorted longer (sort_insert x l).
Proof.
  induction 1 as [|y l Hl IH Hy]; simpl; [repeat constructor|].
  destruct (Nat.leb_spec (String.length y.1) (String.length x.1)) as [Hle|Hlt].
  - constructor; [by constructor|]. constructor; [done|]. eapply Forall_impl; [exact Hy|].
    intros z. unfold longer. lia.
  - constructor; [done|]. rewrite sort_insert_perm. constructor; [unfold longer; lia|done].
Qed.
Lemma sort_mounts_sorted l : StronglySorted longer (sort_mounts l).
Proof. induction l; simpl; [constructor|by apply sort_insert_sorted]. Qed.

(** Sorted, one mount per prefix. *)
Definition mounts_ok (v : VFS) : Prop := StronglySorted longer (mounts v) ∧ NoDup (mounts v).*1.

Lemma mounts_ok_mount p fs v : mounts_ok v → mounts_ok (mount p fs v).
Proof.
  intros [_ Hn]. split; [apply sort_mounts_sorted|]. simpl. rewrite (sort_mounts_perm _), fmap_app. simpl.
  apply NoDup_app. split_and!.
  - eapply sublist_NoDup; [exact Hn|]. apply fmap_sublist, sublist_filter.
  - intros q (m&->&[Hm _]%list_elem_of_filter)%list_elem_of_fmap. by rewrite list_elem_of_singleton.
  - apply NoDup_singleton.
Qed.

(** What is mounted at a prefix. *)
Lemma elem_of_mount p fs v q f :
  (q, f) ∈ mounts (mount p fs v) ↔ (q = p ∧ f = fs) ∨ (q ≠ p ∧ (q, f) ∈ mounts v).
Proof.
  simpl. rewrite (sort_mounts_perm _), elem_of_app, list_elem_of_filter, list_elem_of_singleton. simpl. naive_solver.
Qed.

Lemma first_mount_spec l path fs sub :
  StronglySorted longer l → first_mount l path = Some (fs, sub) →
  ∃ p r, (p, fs) ∈ l ∧ path = p +:+ r ∧ (r = "" ∧ sub = "/" ∨ starts_slash r = true ∧ sub = r) ∧
    ∀ q f, (q, f) ∈ l → covers q path → (String.length q ≤ String.length p)%nat.
Proof.
  induction 1 as [|[p f] l Hl IH Hp]; simpl; [done|].
  assert (∀ r, path = p +:+ r → ∀ q f', (q, f') ∈ (p, f) :: l → covers q path → (String.length q ≤ String.length p)%nat) as Hlong.
  { intros r _ q f' Hin _. apply elem_of_cons in Hin as [[= -> _]|Hin]; [done|].
    rewrite Forall_forall in Hp. apply (Hp _ Hin). }
  assert (first_mount l path = Some (fs, sub) → ¬ covers p path →
    ∃ p' r, (p', fs) ∈ (p, f) :: l ∧ path = p' +:+ r ∧ (r = "" ∧ sub = "/" ∨ starts_slash r = true ∧ sub = r) ∧
      ∀ q f', (q, f') ∈ (p, f) :: l → covers q path → (String.length q ≤ String.length p')%nat) as Hskip.
  { intros (p'&r&Hin&Hpath&Hsub&Hmax)%IH Hno. exists p', r. split_and!; [by right|done|done|].
    intros q f' [[= -> ->]|Hq]%elem_of_cons Hc; [done|]. by eapply Hmax. }
  destruct (strip_prefix p path) as [r|] eqn:E.
  - apply strip_prefix_spec in E as ->. case_decide as Hr.
    + intros [= <- <-]. exists p, r. split_and!; [by left|done|by left|by apply (Hlong r)].
    + destruct (starts_slash r) eqn:Hs.
      * intros [= <- <-]. exists p, r. split_and!; [by left|done|by right|by apply (Hlong r)].
      * intros Hf. apply Hskip; [done|]. intros (r'&He&Hr').
        destruct (string_app_inj p p r r' He eq_refl) as [_ ->]. destruct Hr'; congruence.
  - intros Hf. apply Hskip; [done|]. intros (r&->&_). by rewrite strip_prefix_app in E.
Qed.

Lemma first_mount_none l path : first_mount l path = None ↔ ∀ p f, (p, f) ∈ l → ¬ covers p path.
Proof.
  induction l as [|[p f] l IH]; simpl.
  - split; [|done]. by intros _ p f ?%elem_of_nil.
  - assert ((∀ q g, (q, g) ∈ (p, f) :: l → ¬ covers q path) ↔
      ¬ covers p path ∧ ∀ q g, (q, g) ∈ l → ¬ covers q path) as ->.
    { split; [intros Ha; split; [apply (Ha p f); by left|intros q g ?; apply (Ha q g); by right]|].
      intros [H1 H2] q g [[= -> ->]|?]%elem_of_cons; [done|by eapply H2]. }
    rewrite <- IH. destruct (strip_prefix p path) as [r|] eqn:E.
    + apply strip_prefix_spec in E as ->. case_decide as Hr.
      * split; [done|]. intros [Hc _]. destruct Hc. exists r. auto.
      * destruct (starts_slash r) eqn:Hs.
        -- split; [done|]. intros [Hc _]. destruct Hc. exists r. auto.
        -- split; [|tauto]. intros Hf. split; [|done]. intros (r'&He&Hr').
           destruct (string_app_inj p p r r' He eq_refl) as [_ ->]. destruct Hr'; congruence.
    + split; [|tauto]. intros Hf. split; [|done]. intros (r&->&_). by rewrite strip_prefix_app in E.
Qed.

(** The file system last mounted at a prefix. *)
Definition last_at (p : string) (ms : list (string * Fs)) : option Fs := snd <$> last (filter (λ m, m.1 = p) ms).

Definition mount_all (ms : list (string * Fs)) (v : VFS) : VFS := foldl (λ v m, mount m.1 m.2 v) v ms.

Lemma last_at_snoc p ms m : last_at p (ms ++ [m]) = if decide (m.1 = p) then Some m.2 else last_at p ms.
Proof.
  unfold last_at. rewrite filter_app, filter_cons, filter_nil. case_decide; [by rewrite last_snoc|by rewrite app_nil_r].
Qed.

Lemma mount_all_ok ms al : mounts_ok (mount_all ms (mkVfs [] al)) ∧
  ∀ p f, (p, f) ∈ mounts (mount_all ms (mkVfs [] al)) ↔ last_at p ms = Some f.
Proof.
  unfold mount_all. induction ms as [|m ms IH] using rev_ind.
  - split; [split; constructor|]. intros p f. split; [by intros ?%elem_of_nil|done].
  - rewrite foldl_app. cbn [foldl]. destruct IH as [Hok Hin]. split; [by apply mounts_ok_mount|].
    intros p f. rewrite elem_of_mount, Hin, last_at_snoc.
    case_decide as Hm; [|naive_solver]. subst p. split; [by intros [[_ ->]|[[] _]]|]. intros [= <-]. auto.
Qed.

Lemma last_at_is_Some p ms : is_Some (last_at p ms) ↔ p ∈ ms.*1.
Proof.
  unfold last_at. rewrite fmap_is_Some, last_is_Some, list_elem_of_fmap. split.
  - intros Hne. destruct (filter _ ms) as [|m l] eqn:E; [done|]. exists m.
    assert (m ∈ filter (λ m, m.1 = p) ms) as [Hm Hin]%list_elem_of_filter by (rewrite E; by left). done.
  - intros (m&->&Hin) He. assert (m ∈ filter (λ m', m'.1 = m.1) ms) as Hf by by apply list_elem_of_filter.
    rewrite He in Hf. by apply elem_of_nil in Hf.
Qed.
End vfs.
Arguments VFS : clear implicits.

(** Whatever was mounted and in whatever order, a path is given to the file
    system last mounted at the longest of the prefixes that cover it, with the
    rest of the path, or [/] when nothing is left; no mount answers exactly when
    none covers the path. *)
Theorem mounts_route {W D} (ms : list (string * FileSystem W D)) (al : option (AliasCatalog W)) (path : string) :
  match resolve_mount (mount_all ms (mkVfs [] al)) path with
  | Some (fs, sub) =>
      ∃ p r, last_at p ms = Some fs ∧ path = p +:+ r ∧ (r = "" ∧ sub = "/" ∨ starts_slash r = true ∧ sub = r) ∧
        ∀ q, q ∈ ms.*1 → covers q path → (String.length q ≤ String.length p)%nat
  | None => ∀ q, q ∈ ms.*1 → ¬ covers q path
  end.
Proof.
  destruct (mount_all_ok ms al) as [[Hs _] Hin]. unfold resolve_mount.
  destruct (first_mount _ path) as [[fs sub]|] eqn:E.
  - apply first_mount_spec in E as (p&r&Hp&Hpath&Hsub&Hmax); [|done]. exists p, r. split; [by apply Hin|].
    split; [done|]. split; [done|]. intros q [f Hq%Hin]%last_at_is_Some. by eapply Hmax.
  - rewrite first_mount_none in E. intros q [f Hq%Hin]%last_at_is_Some. by eapply E.
Qed.

(** ** Aliases kept in a table ([PostgresAliasCatalog]) *)

(** The rows of [fs_alias], unique by scope and path. *)
Definition FsAlias : Type := gmap (string * string) string.

Definition workspace_scope (workspace_id : string) : string := "workspace:" +:+ workspace_id.
Definition session_scope (session_id : SessionId) : string := "session:" +:+ ID_to_string (session_id_ session_id).

(** [max_by_key(|(from, _)| from.len())]: the last of the longest. *)
Definition longest_step (best : option (string * string)) (x : string * string) : option (string * string) :=
  match best with
  | Some b => if (String.length x.1 <? String.length b.1)%nat then Some b else Some x
  | None => Some x
  end.
Definition longest (l : list (string * string)) : option (string * string) := foldl longest_step None l.

(** [&path[n..]] *)
Fixpoint skip (n : nat) (s : string) : string :=
  match n, s with S n, String _ s => skip n s | _, _ => s end.

Section table.
Context `{HashIter}.
Notation AM := (M FsAlias ErrorChain).

(** [SELECT from_path, to_path FROM fs_alias WHERE scope = $1], in no given
    order. *)
Definition select_aliases (scope : string) (t : FsAlias) : list (string * string) :=
  omap (λ r, if decide (r.1.1 = scope) then Some (r.1.2, r.2) else None) (hash_iter t).

Definition postgres_list (scope : string) : AM (list (string * string)) := gets (select_aliases scope).

Definition postgres_resolve_prefix (scope path : string) : AM (option string) :=
  aliases ← postgres_list scope;
  mret ((λ a, a.2 +:+ skip (String.length a.1) path) <$> longest (filter (λ a, covers a.1 path) aliases)).

Definition postgres_set (scope from to : string) : AM () := modify (λ t, <[(scope, from) := to]> t).
Definition postgres_remove (scope from : string) : AM () := modify (λ t, base.delete (scope, from) t).

Definition postgres_alias (scope : string) : AliasCatalog FsAlias :=
  mkAlias (postgres_resolve_prefix scope) (postgres_set scope) (postgres_remove scope) (postgres_list scope).

Lemma longest_spec l b :
  match foldl longest_step b l with
  | Some x => (b = Some x ∨ x ∈ l) ∧ ∀ y, b = Some y ∨ y ∈ l → (String.length y.1 ≤ String.length x.1)%nat
  | None => b = None ∧ l = []
  end.
Proof.
  revert b. induction l as [|x l IH]; intros b; simpl.
  - destruct b as [b|]; [|done]. split; [by left|]. intros y [[= ->]|?%elem_of_nil]; [done|done].
  - specialize (IH (longest_step b x)). destruct (foldl _ _ l) as [z|].
    2: { destruct IH as [Hn _]. unfold longest_step in Hn. by destruct b; repeat case_match. }
    destruct IH as [Hz Hmax].
    assert (∃ w, longest_step b x = Some w ∧ (b = Some w ∨ w = x) ∧
      (String.length x.1 ≤ String.length w.1)%nat ∧ ∀ y, b = Some y → (String.length y.1 ≤ String.length w.1)%nat) as (w&Hw&Hbw&Hx&Hb).
    { unfold longest_step. destruct b as [b|]; [|exists x; naive_solver].
      destruct (Nat.ltb_spec (String.length x.1) (String.length b.1)); eexists; split_and!; eauto; try lia.
      all: intros y [= <-]; lia. }
    assert (String.length w.1 ≤ String.length z.1)%nat as Hwz by (apply Hmax; by left).
    split.
    + destruct Hz as [Hz|Hz]; [|right; by right]. rewrite Hw in Hz. injection Hz as <-.
      destruct Hbw as [->| ->]; [by left|right; by left].
    + intros y [Hy|[->|Hy]%elem_of_cons].
      * etrans; [by apply Hb|done].
      * lia.
      * apply Hmax. by right.
Qed.

Lemma elem_of_select scope t a : a ∈ select_aliases scope t ↔ t !! (scope, a.1) = Some a.2.
Proof.
  unfold select_aliases. rewrite list_elem_of_omap. split.
  - intros ([[s f] to]&Hr&Ha). simpl in Ha. case_decide; simplify_eq/=. by apply elem_of_hash_iter in Hr.
  - intros Ht. exists ((scope, a.1), a.2). split; [by apply elem_of_hash_iter|]. simpl.
    rewrite decide_True by done. by destruct a.
Qed.

Lemma skip_app p r : skip (String.length p) (p +:+ r) = r.
Proof. by induction p. Qed.

(** The rewriting of a path, as one function of the table. *)
Definition rewrite_once (scope : string) (t : FsAlias) (path : string) : option string :=
  match run_res (postgres_resolve_prefix scope path) t with Ok o => o | _ => None end.

Lemma resolve_prefix_eq scope path t : postgres_resolve_prefix scope path t = (Ok (rewrite_once scope t path), t).
Proof. done. Qed.

(** A path is rewritten by the longest alias of the scope that covers it, the
    rest of the path being kept; it has no rewriting exactly when no alias covers
    it. *)
Lemma rewrite_once_spec scope t path :
  match rewrite_once scope t path with
  | Some path' =>
      ∃ from to r, t !! (scope, from) = Some to ∧ path = from +:+ r ∧ (r = "" ∨ starts_slash r = true) ∧
        path' = to +:+ r ∧ ∀ f, is_Some (t !! (scope, f)) → covers f path → (String.length f ≤ String.length from)%nat
  | None => ∀ f, is_Some (t !! (scope, f)) → ¬ covers f path
  end.
Proof.
  set (l := filter (λ a, covers a.1 path) (select_aliases scope t)).
  assert (rewrite_once scope t path = (λ a, a.2 +:+ skip (String.length a.1) path) <$> longest l) as -> by done.
  assert (∀ f to, t !! (scope, f) = Some to → covers f path → (f, to) ∈ l) as Hin.
  { intros f to Ht Hc. apply list_elem_of_filter. split; [done|]. by apply elem_of_select. }
  pose proof (longest_spec l None) as Hl. unfold longest. destruct (foldl longest_step None l) as [[from to]|]; simpl.
  - destruct Hl as [[?|Ha] Hmax]; [done|]. apply list_elem_of_filter in Ha as [(r&Hp&Hr) Ha%elem_of_select]. simpl in *.
    exists from, to, r. split_and!; [done..| |].
    + rewrite Hp. by rewrite skip_app.
    + intros f [to' Hf] Hc. apply (Hmax (f, to')). right. by apply Hin.
  - destruct Hl as [_ Hl]. intros f [to Hf] Hc. specialize (Hin f to Hf Hc). rewrite Hl in Hin.
    by apply elem_of_nil in Hin.
Qed.
End table.

(** The order in which the rows are read does not matter. *)
Lemma rewrite_once_order (i i' : HashIter) scope t path :
  @rewrite_once i scope t path = @rewrite_once i' scope t path.
Proof.
  pose proof (@rewrite_once_spec i scope t path) as Hs. pose proof (@rewrite_once_spec i' scope t path) as Hs'.
  destruct (@rewrite_once i scope t path) as [p|], (@rewrite_once i' scope t path) as [p'|].
  - destruct Hs as (f&to&r&Hf&Hp&Hr&->&Hmax). destruct Hs' as (f'&to'&r'&Hf'&Hp'&Hr'&->&Hmax').
    assert (covers f path) as Hc by by exists r. assert (covers f' path) as Hc' by by exists r'.
    assert (f = f') as <-.
    { eapply covers_length; [done..|]. apply Nat.le_antisymm; [apply Hmax'|apply Hmax]; eauto. }
    rewrite Hp in Hp'. destruct (string_app_inj f f r r' Hp' eq_refl) as [_ ->]. congruence.
  - destruct Hs as (f&to&r&Hf&Hp&Hr&_). destruct (Hs' f); [by eexists|by exists r].
  - destruct Hs' as (f&to&r&Hf&Hp&Hr&_). destruct (Hs f); [by eexists|by exists r].
  - done.
Qed.

(** A rewriting that changes the path, and a path that has none. *)
Definition rewrites `{HashIter} (scope : string) (t : FsAlias) (p q : string) : Prop :=
  rewrite_once scope t p = Some q ∧ p ≠ q.
Definition settled `{HashIter} (scope : string) (t : FsAlias) (p : string) : Prop :=
  ∀ q, ¬ rewrites scope t p q.

Lemma follow_spec `{HashIter} scope t n path :
  ∃ k q, (k ≤ n)%nat ∧ nsteps (rewrites scope t) k path q ∧ follow (postgres_alias scope) n path t = (Ok q, t) ∧
    (k = n ∨ settled scope t q).
Proof.
  revert path. induction n as [|n IH]; intros path; simpl.
  { exists 0%nat, path. split_and!; [done|constructor|done|by left]. }
  unfold mbind, m_bind. rewrite resolve_prefix_eq. destruct (rewrite_once scope t path) as [p|] eqn:E.
  - case_decide as Hp.
    + exists 0%nat, path. split_and!; [lia|constructor|done|]. right. intros q [Hq Hne]. congruence.
    + destruct (IH p) as (k&q&Hk&Hst&Hf&Hq). exists (S k), q. split_and!; [lia| |exact Hf|].
      * econstructor; [|done]. split; [done|congruence].
      * destruct Hq; [left; lia|by right].
  - exists 0%nat, path. split_and!; [lia|constructor|done|]. right. intros q [Hq _]. congruence.
Qed.

(** Following the aliases of a path never fails nor changes the table: it ends
    with a path reached by rewritings at the longest alias that covers it, which
    no alias changes further unless eight were done; so that aliases in a cycle
    end as well. *)
Theorem aliases_followed `{HashIter} {D} (scope : string) (t : FsAlias) (ms : list (string * FileSystem FsAlias D)) (path : string) :
  ∃ k q, (k ≤ 8)%nat ∧ nsteps (rewrites scope t) k path q ∧
    resolve_aliases (mkVfs ms (Some (postgres_alias scope))) path t = (Ok q, t) ∧
    (k = 8%nat ∨ settled scope t q) ∧
    ∀ p p', rewrites scope t p p' → ∃ from to r,
      t !! (scope, from) = Some to ∧ p = from +:+ r ∧ (r = "" ∨ starts_slash r = true) ∧ p' = to +:+ r ∧
      ∀ f, is_Some (t !! (scope, f)) → covers f p → (String.length f ≤ String.length from)%nat.
Proof.
  destruct (follow_spec scope t MAX_ALIAS_HOPS path) as (k&q&Hk&Hst&Hf&Hq). exists k, q. split_and!; try done.
  intros p p' [Hr _]. pose proof (rewrite_once_spec scope t p) as Hs. by rewrite Hr in Hs.
Qed.

(** Aliases in a cycle, and one that is below its own target. *)
Definition demo_aliases : FsAlias :=
  {[ ("w", "/a") := "/b"; ("w", "/b") := "/a"; ("w", "/current") := "/session/files"; ("w", "/loop") := "/loop/x" ]}.
Definition demo_vfs : VFS FsAlias () := with_aliases (@postgres_alias canonical_iter "w").
Example demo_aliases_run :
  run_res (resolve_aliases demo_vfs "/current/report.md") demo_aliases = Ok "/session/files/report.md" ∧
  run_res (resolve_aliases demo_vfs "/currently") demo_aliases = Ok "/currently" ∧
  run_res (resolve_aliases demo_vfs "/a") demo_aliases = Ok "/a" ∧
  run_res (resolve_aliases demo_vfs "/loop") demo_aliases = Ok "/loop/x/x/x/x/x/x/x/x".
Proof. vm_compute. done. Qed.

(** A mount at the root covers the root alone: what is left of a longer path
    does not start with a slash. *)
Theorem root_mount_covers_root_only {W D} (fs : FileSystem W D) (al : option (AliasCatalog W)) (c : ascii) (path : string) :
  c ≠ "/"%char → resolve_mount (mount "/" fs (mkVfs [] al)) (String "/" (String c path)) = None.
Proof. intros Hc. unfold resolve_mount. simpl. by rewrite bool_decide_false. Qed.

Lemma root_mount_covers_root_only_witness :
  resolve_mount (mount "/" (vfs_fs demo_vfs) (mkVfs [] None)) "/var" = None.
Proof. apply (root_mount_covers_root_only (vfs_fs demo_vfs) None "v" "ar"). done. Defined.
