(* ===== verification/Inodes.v ===== *)
(** * The tree of files ([persistency/inode.rs]: the catalogue)

    Every scope keeps its files in one table: a row names its parent, and a
    catalogue resolves paths from a root of its own.  A query is a function of
    the table, with the constraints that the code relies on: a name is unique
    below its parent, a parent exists, and a deletion takes what is below. *)

From S2P Require Import Prelude Ids Json Types Errors ErrorChain Vfs.

Inductive InodeKind := Dir | File.
#[export] Instance InodeKind_eq_dec : EqDecision InodeKind. Proof. solve_decision. Defined.

(** A row of [fs_inode], and what the code reads of it. *)
Record Row := mkRow {
  r_parent : option Z; r_name : string; r_kind : InodeKind; r_key : option string; r_size : Z }.
Record Inode := mkInode { in_id : Z; in_kind : InodeKind; object_key : option string; in_size : Z }.

(** The table, with the sequence of its identifiers. *)
Record FsInode := mkTable { t_rows : gmap Z Row; t_next : Z }.

(** Errors of the database. *)
Definition ROW_NOT_FOUND : ErrorChain := msg "no row".
Definition FOREIGN_KEY : ErrorChain := msg "foreign key".

(** [row_to_inode] *)
Definition row_to_inode (i : Z) (r : Row) : Inode := mkInode i (r_kind r) (r_key r) (r_size r).

(** ** Queries *)

Notation TM := (M FsInode ErrorChain).

Definition find_row (P : Row → bool) (t : FsInode) : option Z :=
  fst <$> head (filter (λ x, P x.2 = true) (map_to_list (t_rows t))).

(** [SELECT id FROM fs_inode WHERE parent_id = $1 AND name = $2] *)
Definition is_child (p : Z) (name : string) (r : Row) : bool :=
  bool_decide (r_parent r = Some p) && bool_decide (r_name r = name).
Definition select_child (p : Z) (name : string) (t : FsInode) : option Z := find_row (is_child p name) t.

(** [SELECT id FROM fs_inode WHERE parent_id IS NULL] *)
Definition is_root (r : Row) : bool := bool_decide (r_parent r = None).
Definition select_root (t : FsInode) : option Z := find_row is_root t.

(** An insertion takes the next identifier even when it then conflicts. *)
Definition take_id (t : FsInode) : FsInode := mkTable (t_rows t) (t_next t + 1).
Definition insert_row (r : Row) (t : FsInode) : FsInode := mkTable (<[t_next t := r]> (t_rows t)) (t_next t + 1).

Definition dir_row (parent : option Z) (name : string) : Row := mkRow parent name Dir None 0.
Definition file_row (parent : Z) (name key : string) : Row := mkRow (Some parent) name File (Some key) 0.

(** [INSERT .. ON CONFLICT (parent_id, name) DO NOTHING RETURNING id] *)
Definition insert_dir (p : Z) (name : string) : TM (option Z) := λ t,
  match t_rows t !! p, select_child p name t with
  | None, _ => (Err FOREIGN_KEY, take_id t)
  | Some _, Some _ => (Ok None, take_id t)
  | Some _, None => (Ok (Some (t_next t)), insert_row (dir_row (Some p) name) t)
  end.

(** [INSERT .. ON CONFLICT (parent_id, name) DO UPDATE .. RETURNING ..] *)
Definition upsert_file (p : Z) (name key : string) : TM Inode := λ t,
  match t_rows t !! p, select_child p name t with
  | None, _ => (Err FOREIGN_KEY, take_id t)
  | Some _, Some i =>
      (Ok (row_to_inode i (file_row p name key)), mkTable (<[i := file_row p name key]> (t_rows t)) (t_next t + 1))
  | Some _, None => (Ok (row_to_inode (t_next t) (file_row p name key)), insert_row (file_row p name key) t)
  end.

(** The rows of the recursive query, which are those that [ON DELETE CASCADE]
    takes: climbing from the row meets [a]. *)
Fixpoint climbs (fuel : nat) (t : FsInode) (a i : Z) : bool :=
  bool_decide (i = a) ||
  match fuel, t_rows t !! i with
  | S fuel, Some (mkRow (Some p) _ _ _ _) => climbs fuel t a p
  | _, _ => false
  end.
Definition in_subtree (t : FsInode) (a i : Z) : bool := climbs (Z.to_nat i) t a i.

Definition delete_subtree (a : Z) (t : FsInode) : FsInode :=
  mkTable (filter (λ x, in_subtree t a x.1 = false) (t_rows t)) (t_next t).

(** ** The functions of the file *)

Definition ensure_global_root : TM Z := λ t,
  match select_root t with
  | Some i => (Ok i, t)
  | None => (Ok (t_next t), insert_row (dir_row None "") t)
  end.

Definition ensure_child_dir (parent : Z) (name : string) : TM Z :=
  inserted ← insert_dir parent name;
  match inserted with
  | Some i => mret i
  | None => t ← get; lift (of_option ROW_NOT_FOUND (select_child parent name t))
  end.

Fixpoint ensure_path (current : Z) (segments : list string) : TM Z :=
  match segments with
  | [] => mret current
  | s :: segments => next ← ensure_child_dir current s; ensure_path next segments
  end.

(** [PostgresInodeCatalog::for_workspace] and [for_session]: the root of the
    catalogue. *)
Definition for_workspace (workspace_id : string) : TM Z :=
  root ← ensure_global_root; ensure_path root ["workspaces"; workspace_id].
Definition for_session (workspace_id session_id : string) : TM Z :=
  root ← ensure_global_root; ensure_path root ["workspaces"; workspace_id; "sessions"; session_id].

Fixpoint walk_from (t : FsInode) (current : Z) (segments : list string) : option Z :=
  match segments with
  | [] => Some current
  | s :: segments => next ← select_child current s t; walk_from t next segments
  end.

(** ** The catalogue: [root] is [root_id], and the state holds its generator. *)

Section catalog.
Context `{HashIter} `{Xoshiro} (root : Z).
Notation CM := (M (FsInode * IdGenerator) ErrorChain).

Definition on_table {A} (m : TM A) : CM A := zoom fst (λ t s, (t, s.2)) m.

Definition walk (path : string) : TM (option Z) := gets (λ t, walk_from t root (segments path)).

Definition load (i : Z) : TM Inode := λ t,
  (row ← of_option ROW_NOT_FOUND (t_rows t !! i); Ok (row_to_inode i row), t).

Definition NO_SEGMENT : ErrorChain := msg "chemin vide : la racine du scope existe déjà".

Definition resolve_parent (path : string) : TM (Z * string) :=
  match last (segments path) with
  | None => throw NO_SEGMENT
  | Some leaf => p ← ensure_path root (removelast (segments path)); mret (p, leaf)
  end.

Definition resolve_inode (path : string) : TM (option Inode) :=
  found ← walk path;
  match found with
  | Some i => inode ← load i; mret (Some inode)
  | None => mret None
  end.

Definition children (path : string) : TM (list (string * Inode)) :=
  found ← walk path;
  match found with
  | None => throw (msg ("dossier introuvable : " +:+ path))
  | Some i => gets (λ t, omap (λ x, if decide (r_parent x.2 = Some i) then Some (r_name x.2, row_to_inode x.1 x.2) else None)
                      (hash_iter (t_rows t)))
  end.

Definition mkdir (path : string) : TM Inode :=
  '(parent, leaf) ← resolve_parent path;
  i ← ensure_child_dir parent leaf;
  load i.

Definition create_file (path : string) : CM Inode :=
  '(parent, leaf) ← on_table (resolve_parent path);
  i ← (λ s, let '(i, g) := next_id s.2 in (Ok i, (s.1, g)));
  on_table (upsert_file parent leaf ("fs/" +:+ ID_to_string i)).

Definition remove (path : string) : TM (list string) :=
  found ← walk path;
  match found with
  | None => mret []
  | Some i =>
      object_keys ← gets (λ t, omap (λ x, if in_subtree t i x.1 && bool_decide (r_kind x.2 = File) then r_key x.2 else None)
                            (hash_iter (t_rows t)));
      _ ← modify (delete_subtree i);
      mret object_keys
  end.
End catalog.

(** ** The tree *)

Definition table_ok (t : FsInode) : Prop :=
  (∀ i r, t_rows t !! i = Some r → 0 < i < t_next t ∧
     (∀ p, r_parent r = Some p → p < i ∧ is_Some (t_rows t !! p)) ∧ (r_kind r = File → is_Some (r_key r)))%Z ∧
  (∀ i j r s, t_rows t !! i = Some r → t_rows t !! j = Some s → r_parent r = r_parent s →
     (r_parent r = None ∨ r_name r = r_name s) → i = j) ∧ (0 < t_next t)%Z.

Inductive under (t : FsInode) (a : Z) : Z → Prop :=
  | under_refl : under t a a
  | under_child i r p : t_rows t !! i = Some r → r_parent r = Some p → under t a p → under t a i.

Lemma under_trans t a b c : under t a b → under t b c → under t a c.
Proof. intros Hab. induction 1 as [|i r p Hi Hp _ IH]; [done|]. by econstructor. Qed.

Lemma climbs_under fuel t a i : climbs fuel t a i = true → under t a i.
Proof.
  revert i. induction fuel as [|fuel IH]; intros i; simpl; rewrite orb_true_iff, bool_decide_eq_true.
  - intros [->|?]; [constructor|done].
  - intros [->|Hc]; [constructor|]. destruct (t_rows t !! i) as [[[p|] n k key z]|] eqn:E; [|done..].
    eapply under_child; [exact E|reflexivity|by apply IH].
Qed.

Lemma under_climbs t a i fuel : table_ok t → under t a i → (Z.to_nat i ≤ fuel)%nat → climbs fuel t a i = true.
Proof.
  intros [Hok _] Hu. revert fuel. induction Hu as [|i r p Hi Hp _ IH]; intros fuel Hf.
  - destruct fuel; simpl; by rewrite bool_decide_true.
  - destruct (Hok i r Hi) as (Hpos&Hpar&_). destruct (Hpar p Hp) as [Hlt [s Hs]].
    destruct (Hok p s Hs) as (Hpos'&_). destruct fuel as [|fuel]; [lia|]. simpl. rewrite Hi. destruct r. simpl in Hp.
    subst. rewrite IH by lia. apply orb_true_r.
Qed.

Lemma in_subtree_spec t a i : table_ok t → in_subtree t a i = true ↔ under t a i.
Proof. intros Hok. split; [apply climbs_under|]. intros Hu. by apply under_climbs. Qed.

Lemma find_row_Some P t i : find_row P t = Some i → ∃ r, t_rows t !! i = Some r ∧ P r = true.
Proof.
  unfold find_row. destruct (filter _ _) as [|[j r] l] eqn:E; [done|]. intros [= <-]. exists r.
  assert ((j, r) ∈ filter (λ x : Z * Row, P x.2 = true) (map_to_list (t_rows t))) as [HP Hin]%list_elem_of_filter
    by (rewrite E; by left). split; [|done]. by apply elem_of_map_to_list.
Qed.

Lemma find_row_None P t : find_row P t = None ↔ ∀ i r, t_rows t !! i = Some r → P r = false.
Proof.
  unfold find_row. split.
  - intros E i r Hi. apply not_true_iff_false. intros HP.
    assert ((i, r) ∈ filter (λ x : Z * Row, P x.2 = true) (map_to_list (t_rows t))) as Hin.
    { apply list_elem_of_filter. split; [done|]. by apply elem_of_map_to_list. }
    destruct (filter _ _); [by apply elem_of_nil in Hin|done].
  - intros Hn. destruct (filter _ _) as [|[j r] l] eqn:E; [done|].
    assert ((j, r) ∈ filter (λ x : Z * Row, P x.2 = true) (map_to_list (t_rows t))) as [HP Hin]%list_elem_of_filter
      by (rewrite E; by left). apply elem_of_map_to_list in Hin. simpl in HP. by rewrite (Hn j r Hin) in HP.
Qed.

Lemma is_child_spec p n r : is_child p n r = true ↔ r_parent r = Some p ∧ r_name r = n.
Proof. unfold is_child. by rewrite andb_true_iff, !bool_decide_eq_true. Qed.

Lemma select_child_spec t p n i :
  table_ok t → select_child p n t = Some i ↔ ∃ r, t_rows t !! i = Some r ∧ r_parent r = Some p ∧ r_name r = n.
Proof.
  intros (_&Hu&_). split.
  - intros (r&Hr&Hc%is_child_spec)%find_row_Some. by exists r.
  - intros (r&Hr&Hp&Hn). destruct (select_child p n t) as [j|] eqn:E.
    + apply find_row_Some in E as (s&Hs&[Hp' Hn']%is_child_spec). f_equal.
      apply (Hu j i s r); [done..|congruence|right; congruence].
    + apply (proj1 (find_row_None _ _)) with (1 := E) in Hr. apply not_true_iff_false in Hr.
      destruct Hr. by apply is_child_spec.
Qed.

(** ** Growing *)

Lemma under_mono t t' a i :
  (∀ i r, t_rows t !! i = Some r → ∃ s, t_rows t' !! i = Some s ∧ r_parent s = r_parent r) →
  under t a i → under t' a i.
Proof.
  intros Hm. induction 1 as [|i r p Hi Hp _ IH]; [constructor|].
  destruct (Hm i r Hi) as (s&Hs&Hps). econstructor; [exact Hs|by rewrite Hps|done].
Qed.

Lemma under_subseteq t t' a i : t_rows t ⊆ t_rows t' → under t a i → under t' a i.
Proof. intros Hs. apply under_mono. intros j r Hj. exists r. split; [|done]. by eapply lookup_weaken. Qed.

Lemma walk_mono t t' p segs i :
  table_ok t → table_ok t' → t_rows t ⊆ t_rows t' → walk_from t p segs = Some i → walk_from t' p segs = Some i.
Proof.
  intros Ht Ht' Hs. revert p. induction segs as [|s segs IH]; intros p; simpl; [done|].
  intros (q&Hq&Hw)%bind_Some. apply bind_Some. exists q. split; [|by apply IH].
  apply select_child_spec in Hq as (r&Hr&Hp); [|done]. apply select_child_spec; [done|]. exists r.
  split; [|done]. by eapply lookup_weaken.
Qed.

Lemma walk_under t p segs i : table_ok t → walk_from t p segs = Some i → under t p i.
Proof.
  intros Ht. revert p. induction segs as [|s segs IH]; intros p; simpl; [intros [= <-]; constructor|].
  intros (q&Hq&Hw)%bind_Some. apply IH in Hw. apply select_child_spec in Hq as (r&Hr&Hp&_); [|done].
  eapply under_trans; [|done]. econstructor; [exact Hr|exact Hp|constructor].
Qed.

Lemma walk_present t p segs i :
  table_ok t → is_Some (t_rows t !! p) → walk_from t p segs = Some i → is_Some (t_rows t !! i).
Proof.
  intros Ht. revert p. induction segs as [|s segs IH]; intros p Hp; simpl; [by intros [= <-]|].
  intros (q&Hq&Hw)%bind_Some. apply select_child_spec in Hq as (r&Hr&_); [|done]. eapply IH; [by eexists|done].
Qed.

Lemma walk_app t p segs segs' :
  walk_from t p (segs ++ segs') = q ← walk_from t p segs; walk_from t q segs'.
Proof.
  revert p. induction segs as [|s segs IH]; intros p; simpl; [done|].
  destruct (select_child p s t) as [q|]; simpl; [apply IH|done].
Qed.

(** [t'] has the rows of [t], and others below [p]. *)
Definition grown (p : Z) (t t' : FsInode) : Prop :=
  table_ok t' ∧ t_rows t ⊆ t_rows t' ∧ ∀ i, is_Some (t_rows t' !! i) → is_Some (t_rows t !! i) ∨ under t' p i.

Lemma grown_take_id p t : table_ok t → grown p t (take_id t).
Proof.
  intros (Hok&Hu&Hn). split; [|split; [done|by left]]. split; [|split; [done|simpl; lia]].
  intros i r Hi. destruct (Hok i r Hi) as (?&?). simpl. split; [lia|done].
Qed.

Lemma take_id_ok t : table_ok t → table_ok (take_id t).
Proof. intros Ht. by apply (grown_take_id 0). Qed.

Lemma grown_trans p q t1 t2 t3 : grown p t1 t2 → under t2 p q → grown q t2 t3 → grown p t1 t3.
Proof.
  intros (_&H12&Hn2) Hq (Ht3&H23&Hn3). split; [done|]. split; [by etrans|].
  intros i [Hi|Hi]%Hn3; [|right; eapply under_trans; [by eapply under_subseteq|done]].
  apply Hn2 in Hi as [Hi|Hi]; [by left|right]. by eapply under_subseteq.
Qed.

Lemma fresh_row t i : table_ok t → is_Some (t_rows t !! i) → (i < t_next t)%Z.
Proof. intros [Hok _] [r Hr]. destruct (Hok i r Hr) as (?&_). lia. Qed.

Lemma grown_insert t p r :
  table_ok t → is_Some (t_rows t !! p) → select_child p (r_name r) t = None → r_parent r = Some p →
  (r_kind r = File → is_Some (r_key r)) →
  grown p t (insert_row r t) ∧ select_child p (r_name r) (insert_row r t) = Some (t_next t).
Proof.
  intros Ht [pr Hp] Hc Hr Hk. pose proof Ht as (Hok&Hu&Hpos).
  assert (t_rows t !! t_next t = None) as Hfresh.
  { apply eq_None_not_Some. intros Hs%(fresh_row t _ Ht). lia. }
  assert (∀ i s, t_rows t !! i = Some s → i ≠ t_next t) as Hne by (intros i s Hi ->; congruence).
  assert (∀ i s, t_rows t !! i = Some s → r_parent s = Some p → r_name s = r_name r → False) as Hfree.
  { intros i s Hi Hps Hns. assert (select_child p (r_name r) t = Some i) by (apply select_child_spec; [done|by exists s]).
    congruence. }
  assert (table_ok (insert_row r t)) as Ht'.
  { split; [|split; [|simpl; lia]].
    - intros i s. simpl. rewrite lookup_insert_Some. intros [[<- <-]|[_ Hi]].
      + split; [lia|]. split; [|done]. intros q. rewrite Hr. intros [= <-].
        assert (p < t_next t)%Z by (apply fresh_row; [done|by eexists]). split; [done|].
        rewrite lookup_insert_ne by lia. by eexists.
      + destruct (Hok i s Hi) as (Hi'&Hpar&Hkey). split; [lia|]. split; [|done]. intros q Hq.
        destruct (Hpar q Hq) as [Hlt [qs Hqs]]. split; [done|]. rewrite lookup_insert_ne; [by eexists|].
        by eapply not_eq_sym, Hne.
    - intros i j s s'. simpl. rewrite !lookup_insert_Some.
      intros [[<- <-]|[_ Hi]] [[<- <-]|[_ Hj]] Hps Hn; try done.
      + exfalso. rewrite Hr in *. destruct Hn; [done|]. by eapply (Hfree j s').
      + exfalso. rewrite Hr in *. destruct Hn; [congruence|]. by eapply (Hfree i s).
      + by eapply Hu. }
  assert (select_child p (r_name r) (insert_row r t) = Some (t_next t)) as Hsel.
  { apply select_child_spec; [done|]. exists r. simpl. by rewrite lookup_insert_eq. }
  split; [|done]. split; [done|]. split; [by apply insert_subseteq|].
  intros i. simpl. rewrite lookup_insert_is_Some. intros [<-|[_ Hi]]; [right|by left].
  econstructor; [simpl; apply lookup_insert_eq|exact Hr|constructor].
Qed.

Lemma ensure_child_ok t p n :
  table_ok t → is_Some (t_rows t !! p) →
  ∃ c t', ensure_child_dir p n t = (Ok c, t') ∧ grown p t t' ∧ select_child p n t' = Some c.
Proof.
  intros Ht [pr Hp]. unfold ensure_child_dir, insert_dir, mbind, m_bind. rewrite Hp.
  destruct (select_child p n t) as [c|] eqn:E.
  - exists c, (take_id t). split_and!; [|by apply grown_take_id|exact E].
    unfold get, lift. simpl. change (select_child p n (take_id t)) with (select_child p n t). by rewrite E.
  - exists (t_next t), (insert_row (dir_row (Some p) n) t). split; [done|].
    apply (grown_insert t p (dir_row (Some p) n)); [done|by eexists|done..].
Qed.

Lemma ensure_child_absent t p n :
  t_rows t !! p = None → ensure_child_dir p n t = (Err FOREIGN_KEY, take_id t).
Proof. intros Hp. unfold ensure_child_dir, insert_dir, mbind, m_bind. by rewrite Hp. Qed.

Lemma ensure_path_ok t p segs :
  table_ok t → is_Some (t_rows t !! p) →
  ∃ c t', ensure_path p segs t = (Ok c, t') ∧ grown p t t' ∧ walk_from t' p segs = Some c ∧ is_Some (t_rows t' !! c).
Proof.
  revert t p. induction segs as [|s segs IH]; intros t p Ht Hp; simpl.
  { exists p, t. split_and!; try done. split; [done|]. split; [done|by left]. }
  destruct (ensure_child_ok t p s Ht Hp) as (q&t1&He&Hg&Hq). unfold mbind, m_bind. rewrite He.
  pose proof Hg as (Ht1&_). pose proof Hq as (r&Hr&Hpar&_)%select_child_spec; [|done].
  destruct (IH t1 q Ht1) as (c&t2&He2&Hg2&Hw&Hc); [by eexists|]. exists c, t2. split; [exact He2|].
  assert (under t1 p q) by (econstructor; [exact Hr|exact Hpar|constructor]).
  split; [by eapply grown_trans|]. split; [|done]. simpl. apply bind_Some. exists q. split; [|done].
  destruct Hg2 as (Ht2&Hs&_). apply select_child_spec; [done|].
  apply select_child_spec in Hq as (r'&Hr'&Hq); [|done]. exists r'. split; [by eapply lookup_weaken|done].
Qed.

Lemma ensure_path_absent t p s segs :
  t_rows t !! p = None → ensure_path p (s :: segs) t = (Err FOREIGN_KEY, take_id t).
Proof. intros Hp. simpl. unfold mbind, m_bind. by rewrite ensure_child_absent. Qed.

(** ** Operations *)

(** Rows keep their parents and names. *)
Definition same_names (t t' : FsInode) : Prop :=
  ∀ i r, t_rows t !! i = Some r → ∃ s, t_rows t' !! i = Some s ∧ r_parent s = r_parent r ∧ r_name s = r_name r.

Lemma same_names_subseteq t t' : t_rows t ⊆ t_rows t' → same_names t t'.
Proof. intros Hs i r Hi. exists r. split; [by eapply lookup_weaken|done]. Qed.

Lemma walk_same_names t t' p segs i :
  table_ok t → table_ok t' → same_names t t' → walk_from t p segs = Some i → walk_from t' p segs = Some i.
Proof.
  intros Ht Ht' Hs. revert p. induction segs as [|s segs IH]; intros p; simpl; [done|].
  intros (q&Hq&Hw)%bind_Some. apply bind_Some. exists q. split; [|by apply IH].
  apply select_child_spec in Hq as (r&Hr&Hp&Hn); [|done]. destruct (Hs q r Hr) as (r'&Hr'&Hp'&Hn').
  apply select_child_spec; [done|]. exists r'. split_and!; [done|congruence..].
Qed.

(** The rows that differ are below [p]. *)
Definition changed_below (p : Z) (t t' : FsInode) : Prop :=
  ∀ i, t_rows t' !! i ≠ t_rows t !! i → under t p i ∨ under t' p i.

Lemma grown_changed p t t' : grown p t t' → changed_below p t t'.
Proof.
  intros (_&Hs&Hn) i Hi. destruct (t_rows t !! i) as [r|] eqn:E.
  - by rewrite (lookup_weaken _ _ _ _ E Hs) in Hi.
  - destruct (t_rows t' !! i) as [r|] eqn:E'; [|done]. destruct (Hn i) as [[? ?]|?]; [by eexists|congruence|by right].
Qed.

Lemma changed_below_same p t t' : t_rows t' = t_rows t → changed_below p t t'.
Proof. intros He i Hi. by rewrite He in Hi. Qed.

Lemma last_removelast {A} (l : list A) (x : A) : last l = Some x → l = removelast l ++ [x].
Proof.
  intros (l'&->)%last_Some. rewrite removelast_app by done. simpl. by rewrite app_nil_r.
Qed.

Lemma resolve_parent_ok root path leaf t :
  table_ok t → is_Some (t_rows t !! root) → last (segments path) = Some leaf →
  ∃ p t', resolve_parent root path t = (Ok (p, leaf), t') ∧ grown root t t' ∧
    walk_from t' root (removelast (segments path)) = Some p ∧ is_Some (t_rows t' !! p).
Proof.
  intros Ht Hr Hl. unfold resolve_parent. rewrite Hl.
  destruct (ensure_path_ok t root (removelast (segments path)) Ht Hr) as (p&t'&He&Hg&Hw&Hp).
  exists p, t'. split; [|done]. unfold mbind, m_bind. by rewrite He.
Qed.

(** A root that is gone, or no segment: an error, and the rows stay. *)
Lemma resolve_parent_fails root path t :
  (t_rows t !! root = None ∨ segments path = []) → ∀ r t', resolve_parent root path t = (r, t') →
  (∃ e, r = Err e) ∨ (t' = t ∧ r = Ok (root, default "" (last (segments path))) ∧ t_rows t !! root = None).
Proof.
  unfold resolve_parent. destruct (last (segments path)) as [leaf|] eqn:El; [|intros _ r t' [= <- <-]; left; by eexists].
  intros [Hr|Hs] r t'; [|by rewrite Hs in El].
  destruct (removelast (segments path)) as [|s segs]; [intros [= <- <-]; by right|].
  unfold mbind at 1, m_bind. rewrite ensure_path_absent by done. intros [= <- <-]. left. by eexists.
Qed.

Lemma load_eq t i r : t_rows t !! i = Some r → load i t = (Ok (row_to_inode i r), t).
Proof. intros Hi. unfold load. by rewrite Hi. Qed.

Lemma resolve_inode_eq root path t i r :
  walk_from t root (segments path) = Some i → t_rows t !! i = Some r →
  resolve_inode root path t = (Ok (Some (row_to_inode i r)), t).
Proof.
  intros Hw Hi. unfold resolve_inode, walk, gets, mbind, m_bind. rewrite Hw. by rewrite (load_eq t i r).
Qed.

Lemma mkdir_ok root path t :
  table_ok t → is_Some (t_rows t !! root) → segments path ≠ [] →
  ∃ inode t', mkdir root path t = (Ok inode, t') ∧ grown root t t' ∧
    walk_from t' root (segments path) = Some (in_id inode) ∧ resolve_inode root path t' = (Ok (Some inode), t').
Proof.
  intros Ht Hr Hs. destruct (last (segments path)) as [leaf|] eqn:El; [|by apply last_None in El].
  destruct (resolve_parent_ok root path leaf t Ht Hr El) as (p&t1&Hp&Hg1&Hw1&Hpp). pose proof Hg1 as (Ht1&_).
  destruct (ensure_child_ok t1 p leaf Ht1 Hpp) as (c&t2&Hc&Hg2&Hsel). pose proof Hg2 as (Ht2&Hs2&_).
  pose proof Hsel as (r&Hrow&_)%select_child_spec; [|done].
  exists (row_to_inode c r), t2.
  assert (walk_from t2 root (segments path) = Some c) as Hw.
  { rewrite (last_removelast _ _ El), walk_app. apply bind_Some. exists p.
    split; [by apply (walk_mono t1 t2)|]. simpl. by rewrite Hsel. }
  split_and!.
  - unfold mkdir, mbind, m_bind. rewrite Hp, Hc. by apply load_eq.
  - eapply grown_trans; [done| |done]. by eapply walk_under.
  - exact Hw.
  - by apply resolve_inode_eq.
Qed.

Lemma upsert_ok t p n key :
  table_ok t → is_Some (t_rows t !! p) →
  ∃ i t', upsert_file p n key t = (Ok (row_to_inode i (file_row p n key)), t') ∧ table_ok t' ∧ same_names t t' ∧
    t_rows t' = <[i := file_row p n key]> (t_rows t) ∧ select_child p n t' = Some i.
Proof.
  intros Ht [pr Hp]. unfold upsert_file. rewrite Hp. destruct (select_child p n t) as [i|] eqn:E.
  - pose proof E as (r&Hr&Hpar&Hn)%select_child_spec; [|done].
    exists i, (mkTable (<[i := file_row p n key]> (t_rows t)) (t_next t + 1)). split; [done|].
    pose proof Ht as (Hok&Hu&Hpos).
    assert (same_names t (mkTable (<[i := file_row p n key]> (t_rows t)) (t_next t + 1))) as Hsame.
    { intros j s Hj. simpl. destruct (decide (i = j)) as [->|Hij].
      - rewrite lookup_insert_eq. assert (s = r) as -> by congruence. by eexists.
      - rewrite lookup_insert_ne by done. by exists s. }
    assert (∀ j s, <[i := file_row p n key]> (t_rows t) !! j = Some s →
      ∃ s0, t_rows t !! j = Some s0 ∧ r_parent s = r_parent s0 ∧ r_name s = r_name s0) as Hback.
    { intros j s. rewrite lookup_insert_Some. intros [[<- <-]|[_ Hj]]; [by exists r|by exists s]. }
    assert (table_ok (mkTable (<[i := file_row p n key]> (t_rows t)) (t_next t + 1))) as Ht'.
    { split; [|split; [|simpl; lia]].
      - intros j s Hj. simpl in Hj. destruct (Hback j s Hj) as (s0&Hs0&Hps&_).
        destruct (Hok j s0 Hs0) as (Hj'&Hpar'&Hkey). split; [simpl; lia|]. split.
        + intros q. rewrite Hps. intros Hq. destruct (Hpar' q Hq) as [Hlt [qs Hqs]]. split; [done|].
          destruct (Hsame q qs Hqs) as (s'&Hs'&_). by exists s'.
        + apply lookup_insert_Some in Hj as [[<- <-]|[_ Hj]]; [by eexists|].
          assert (s = s0) as -> by congruence. done.
      - intros j k s s' Hj Hk Hps Hns. simpl in *. destruct (Hback j s Hj) as (s0&Hs0&Ep&En).
        destruct (Hback k s' Hk) as (s1&Hs1&Ep'&En'). apply (Hu j k s0 s1); [done|done|congruence|].
        destruct Hns; [left; congruence|right; congruence]. }
    split; [done|]. split; [done|]. split; [done|]. apply select_child_spec; [done|].
    exists (file_row p n key). simpl. by rewrite lookup_insert_eq.
  - destruct (grown_insert t p (file_row p n key)) as [Hg Hsel]; [done|by eexists|done|done|by eexists|].
    exists (t_next t), (insert_row (file_row p n key) t). split; [done|]. destruct Hg as (Ht'&Hs&_).
    split; [done|]. split; [by apply same_names_subseteq|]. done.
Qed.

Lemma delete_lookup t a i :
  t_rows (delete_subtree a t) !! i = if in_subtree t a i then None else t_rows t !! i.
Proof.
  simpl. destruct (in_subtree t a i) eqn:E.
  - apply map_lookup_filter_None. right. intros r _. simpl. by rewrite E.
  - destruct (t_rows t !! i) as [r|] eqn:Er.
    + by apply map_lookup_filter_Some.
    + apply map_lookup_filter_None. by left.
Qed.

Lemma delete_ok t a : table_ok t → table_ok (delete_subtree a t) ∧ t_rows (delete_subtree a t) ⊆ t_rows t.
Proof.
  intros Ht. pose proof Ht as (Hok&Hu&Hpos).
  assert (∀ i r, t_rows (delete_subtree a t) !! i = Some r → t_rows t !! i = Some r ∧ ¬ under t a i) as Hback.
  { intros i r. rewrite delete_lookup. destruct (in_subtree t a i) eqn:E; [done|]. intros Hi. split; [done|].
    intros Hu'%in_subtree_spec; [congruence|done]. }
  split; [split; [|split; [|done]]|].
  - intros i r Hi. destruct (Hback i r Hi) as [Hi' Hnu]. destruct (Hok i r Hi') as (Hpos'&Hpar&Hk).
    split; [done|]. split; [|done]. intros p Hp. destruct (Hpar p Hp) as [Hlt Hs]. split; [done|].
    rewrite delete_lookup. destruct (in_subtree t a p) eqn:E; [|done].
    apply in_subtree_spec in E; [|done]. destruct Hnu. by econstructor.
  - intros i j r s Hi Hj. apply Hback in Hi as [Hi _]. apply Hback in Hj as [Hj _]. by apply Hu.
  - apply map_subseteq_spec. intros i r Hi. by apply Hback in Hi as [Hi _].
Qed.

(** ** Theorems of the catalogue *)

(** *** The roots of the scopes *)

Lemma global_root_ok t : table_ok t →
  ∃ r t', ensure_global_root t = (Ok r, t') ∧ table_ok t' ∧ t_rows t ⊆ t_rows t' ∧ select_root t' = Some r ∧
    is_Some (t_rows t' !! r).
Proof.
  intros Ht. pose proof Ht as (Hok&Hu&Hpos). unfold ensure_global_root. destruct (select_root t) as [r|] eqn:E.
  - exists r, t. split_and!; try done. apply find_row_Some in E as (row&Hr&_). by exists row.
  - exists (t_next t), (insert_row (dir_row None "") t). split; [done|].
    assert (∀ i r, t_rows t !! i = Some r → r_parent r ≠ None ∧ i ≠ t_next t) as Hn.
    { intros i r Hi. destruct (Hok i r Hi) as (?&_). split; [|lia]. intros Hp.
      apply (proj1 (find_row_None _ _) E) in Hi. unfold is_root in Hi. by rewrite bool_decide_true in Hi. }
    assert (t_rows t !! t_next t = None) as Hfresh by (apply eq_None_not_Some; intros [r Hr]; by apply Hn in Hr as []).
    split; [|split; [by apply insert_subseteq|split]].
    + split; [|split; [|simpl; lia]].
      * intros i r. simpl. rewrite lookup_insert_Some. intros [[<- <-]|[_ Hi]]; [by split; [lia|]|].
        destruct (Hok i r Hi) as (?&Hpar&?). split; [lia|]. split; [|done]. intros p Hp.
        destruct (Hpar p Hp) as [? [q Hq]]. split; [done|]. apply Hn in Hq as Hne. rewrite lookup_insert_ne; [by exists q|].
        by apply not_eq_sym, Hne.
      * intros i j r s. simpl. rewrite !lookup_insert_Some.
        intros [[<- <-]|[_ Hi]] [[<- <-]|[_ Hj]] Hp Hname; try done.
        -- exfalso. by apply (proj1 (Hn _ _ Hj)).
        -- exfalso. by apply (proj1 (Hn _ _ Hi)).
        -- by eapply Hu.
    + unfold select_root. destruct (find_row is_root _) as [j|] eqn:Ej.
      * apply find_row_Some in Ej as (s&Hs&Hroot). simpl in Hs. apply lookup_insert_Some in Hs as [[-> _]|[_ Hs]]; [done|].
        apply bool_decide_eq_true in Hroot. by apply Hn in Hs as [].
      * exfalso. apply (proj1 (find_row_None _ _)) with (i := t_next t) (r := dir_row None "") in Ej; [done|].
        simpl. apply lookup_insert_eq.
    + simpl. rewrite lookup_insert_eq. by eexists.
Qed.

Lemma select_root_mono t t' g : table_ok t' → t_rows t ⊆ t_rows t' → select_root t = Some g → select_root t' = Some g.
Proof.
  intros (_&Hu&_) Hs (row&Hrow&Hr)%find_row_Some. assert (t_rows t' !! g = Some row) as Hg by by eapply lookup_weaken.
  unfold select_root. destruct (find_row is_root t') as [j|] eqn:Ej.
  - apply find_row_Some in Ej as (s&Hj&Hsr). f_equal. apply bool_decide_eq_true in Hr, Hsr.
    apply (Hu j g s row); [done|done|congruence|by left].
  - apply (proj1 (find_row_None _ _) Ej) in Hg. congruence.
Qed.

(** What building the root of a scope makes: directories on the path to it. *)
Definition made_on_path (g : Z) (segs : list string) (t t' : FsInode) : Prop :=
  ∀ i r, t_rows t' !! i = Some r → t_rows t !! i = Some r ∨
    (r = dir_row (r_parent r) (r_name r) ∧ ∃ n, walk_from t' g (take n segs) = Some i).

Lemma ensure_child_made p n t c t' : ensure_child_dir p n t = (Ok c, t') →
  ∀ i r, t_rows t' !! i = Some r → t_rows t !! i = Some r ∨ (r = dir_row (Some p) n ∧ i = c).
Proof.
  unfold ensure_child_dir, insert_dir, mbind, m_bind. destruct (t_rows t !! p) as [q|]; [|done].
  destruct (select_child p n t) as [j|] eqn:E; simpl.
  - unfold get, lift. simpl. intros [= _ <-] i r Hi. by left.
  - intros [= <- <-] i r. simpl. intros [[<- <-]|[_ Hi]]%lookup_insert_Some; [by right|by left].
Qed.
Lemma ensure_path_made p segs t c t' : table_ok t → is_Some (t_rows t !! p) →
  ensure_path p segs t = (Ok c, t') → made_on_path p segs t t'.
Proof.
  revert t p. induction segs as [|s segs IH]; intros t p Ht Hp; simpl; [intros [= _ <-] i r Hi; by left|].
  destruct (ensure_child_ok t p s Ht Hp) as (q&t1&He&(Ht1&Hs1&_)&Hq). unfold mbind, m_bind. rewrite He. intros Hr i r Hi.
  pose proof Hq as (qr&Hqr&_)%select_child_spec; [|done].
  destruct (ensure_path_ok t1 q segs Ht1) as (c'&t2&He2&(Ht2&Hs2&_)&_); [by eexists|].
  assert (t2 = t') as -> by congruence. assert (select_child p s t' = Some q) as Hq'.
  { apply select_child_spec; [done|]. apply select_child_spec in Hq as (r'&Hr'&Hq); [|done]. exists r'.
    split; [by eapply lookup_weaken|done]. }
  destruct (IH t1 q Ht1 (ex_intro _ _ Hqr) Hr i r Hi) as [Hi1|(Hd&n&Hw)].
  - destruct (ensure_child_made _ _ _ _ _ He i r Hi1) as [Hi0|[-> ->]]; [by left|right]. split; [done|].
    exists 1%nat. simpl. by rewrite Hq'.
  - right. split; [done|]. exists (S n). simpl. by rewrite Hq'.
Qed.
Lemma scope_root_made segs t c t' g : table_ok t → (root ← ensure_global_root; ensure_path root segs) t = (Ok c, t') →
  select_root t' = Some g → made_on_path g segs t t'.
Proof.
  intros Ht. destruct (global_root_ok t Ht) as (g'&t0&Hg&Ht0&Hs0&Hroot&Hp). unfold mbind, m_bind. rewrite Hg. intros He Hg'.
  destruct (ensure_path_ok t0 g' segs Ht0 Hp) as (c2&t2&He2&(Ht2&Hs2&_)&_). assert (t2 = t') as -> by congruence.
  assert (g' = g) as ->.
  { apply (select_root_mono t0 t' g' Ht2 Hs2) in Hroot. congruence. }
  intros i r Hi. destruct (ensure_path_made g segs t0 c t' Ht0 Hp He i r Hi) as [Hi0|?]; [|by right].
  unfold ensure_global_root in Hg. destruct (select_root t); injection Hg as <- <-; [by left|]. simpl in Hi0.
  apply lookup_insert_Some in Hi0 as [[<- <-]|[_ Hi0]]; [right|by left]. split; [done|]. by exists 0%nat.
Qed.

(** The root of a scope is at its path from the root of the table. *)
Lemma scope_root_ok segs t : table_ok t →
  ∃ g c t', (root ← ensure_global_root; ensure_path root segs) t = (Ok c, t') ∧ table_ok t' ∧ t_rows t ⊆ t_rows t' ∧
    select_root t' = Some g ∧ walk_from t' g segs = Some c ∧ is_Some (t_rows t' !! c).
Proof.
  intros Ht. destruct (global_root_ok t Ht) as (g&t0&Hg&Ht0&Hs0&Hroot&Hp).
  destruct (ensure_path_ok t0 g segs Ht0 Hp) as (c&t'&He&(Ht'&Hs1&_)&Hw&Hc). exists g, c, t'.
  split; [unfold mbind, m_bind; by rewrite Hg|]. split_and!; [done|by etrans|by eapply select_root_mono|done..].
Qed.

(** A change of the files of a scope. *)
Inductive InodeOp := OpMkdir (path : string) | OpCreate (path : string) | OpRemove (path : string).

Section theorems.
Context `{HashIter} `{Xoshiro}.
Notation State := (FsInode * IdGenerator)%type.
Notation CM := (M State ErrorChain).

Definition inode_op (root : Z) (op : InodeOp) : CM () :=
  match op with
  | OpMkdir path => _ ← on_table (mkdir root path); mret ()
  | OpCreate path => _ ← create_file root path; mret ()
  | OpRemove path => _ ← on_table (remove root path); mret ()
  end.

(** [create_file], with the key that the generator gives. *)
Definition new_key (g : IdGenerator) : string := "fs/" +:+ ID_to_string (next_id g).1.

Lemma create_file_eq root path s :
  create_file root path s =
    match resolve_parent root path s.1 with
    | (Ok (p, leaf), t) =>
        let '(r, t') := upsert_file p leaf (new_key s.2) t in (r, (t', (next_id s.2).2))
    | (Err e, t) => (Err e, (t, s.2))
    | (Panic, t) => (Panic, (t, s.2))
    end.
Proof.
  unfold create_file, on_table, zoom, new_key, mbind, m_bind.
  destruct (resolve_parent root path s.1) as [[[p leaf]|e|] t]; [|done..]. simpl.
  destruct (next_id s.2) as [i g]. simpl. by destruct (upsert_file _ _ _ _).
Qed.

Lemma create_ok root path s :
  table_ok s.1 → is_Some (t_rows s.1 !! root) → segments path ≠ [] →
  ∃ i t', create_file root path s = (Ok (mkInode i File (Some (new_key s.2)) 0), (t', (next_id s.2).2)) ∧
    table_ok t' ∧ same_names s.1 t' ∧ changed_below root s.1 t' ∧ walk_from t' root (segments path) = Some i ∧
    resolve_inode root path t' = (Ok (Some (mkInode i File (Some (new_key s.2)) 0)), t') ∧
    ∀ j r, t_rows s.1 !! j = Some r → j ≠ i → t_rows t' !! j = Some r.
Proof.
  intros Ht Hr Hs. destruct (last (segments path)) as [leaf|] eqn:El; [|by apply last_None in El].
  destruct (resolve_parent_ok root path leaf s.1 Ht Hr El) as (p&t1&Hp&Hg1&Hw1&Hpp). pose proof Hg1 as (Ht1&Hs1&_).
  destruct (upsert_ok t1 p leaf (new_key s.2) Ht1 Hpp) as (i&t2&Hu&Ht2&Hsame&Hrows&Hsel).
  exists i, t2. rewrite create_file_eq, Hp, Hu. split; [done|].
  assert (walk_from t2 root (segments path) = Some i) as Hw.
  { rewrite (last_removelast _ _ El), walk_app. apply bind_Some. exists p.
    split; [by apply (walk_same_names t1 t2)|]. simpl. by rewrite Hsel. }
  assert (under t2 root i) as Hui by by eapply walk_under.
  split; [done|]. split; [|split; [|split; [done|split]]].
  - intros j r Hj. apply (Hsame j r). by eapply lookup_weaken.
  - intros j Hj. destruct (decide (j = i)) as [->|Hji]; [by right|].
    rewrite Hrows, lookup_insert_ne in Hj by done.
    destruct (grown_changed root s.1 t1 Hg1 j Hj) as [Hu1|Hu1]; [by left|right].
    eapply under_mono; [|exact Hu1]. intros k r Hk. destruct (Hsame k r Hk) as (r'&?&?&_). by exists r'.
  - apply resolve_inode_eq with (r := file_row p leaf (new_key s.2)); [done|]. by rewrite Hrows, lookup_insert_eq.
  - intros j r Hj Hji. rewrite Hrows, lookup_insert_ne by done. by eapply lookup_weaken.
Qed.

Lemma take_id_changes root t : table_ok t → table_ok (take_id t) ∧ changed_below root t (take_id t).
Proof. intros Ht. split; [by apply (grown_take_id root t)|by apply changed_below_same]. Qed.

(** Without its root, a catalogue leaves the rows as they are. *)
Lemma resolve_parent_gone root path t : t_rows t !! root = None →
  (∃ e, resolve_parent root path t = (Err e, t)) ∨ (∃ e, resolve_parent root path t = (Err e, take_id t)) ∨
  ∃ leaf, resolve_parent root path t = (Ok (root, leaf), t).
Proof.
  intros Hr. unfold resolve_parent. destruct (last (segments path)) as [leaf|]; [|left; by eexists].
  right. destruct (removelast (segments path)) as [|s segs]; [right; by exists leaf|left].
  exists FOREIGN_KEY. unfold mbind at 1, m_bind. by rewrite ensure_path_absent.
Qed.

Lemma mkdir_changes root path t : table_ok t →
  table_ok (run_state (mkdir root path) t) ∧ changed_below root t (run_state (mkdir root path) t).
Proof.
  intros Ht. unfold run_state. destruct (t_rows t !! root) as [r|] eqn:Hr.
  - destruct (decide (segments path = [])) as [Hs|Hs].
    + unfold mkdir, resolve_parent, mbind, m_bind. rewrite Hs. simpl. split; [done|]. by apply changed_below_same.
    + destruct (mkdir_ok root path t Ht) as (inode&t'&He&Hg&_); [by eexists|done|]. rewrite He. simpl.
      split; [apply Hg|]. by apply grown_changed.
  - unfold mkdir, mbind, m_bind. destruct (resolve_parent_gone root path t Hr) as [[e ->]|[[e ->]|[leaf ->]]]; simpl.
    + split; [done|]. by apply changed_below_same.
    + by apply take_id_changes.
    + rewrite ensure_child_absent by done. simpl. by apply take_id_changes.
Qed.

Lemma create_changes root path s : table_ok s.1 →
  table_ok (run_state (create_file root path) s).1 ∧ changed_below root s.1 (run_state (create_file root path) s).1.
Proof.
  intros Ht. unfold run_state. destruct (t_rows s.1 !! root) as [r|] eqn:Hr.
  - destruct (decide (segments path = [])) as [Hs|Hs].
    + rewrite create_file_eq. unfold resolve_parent. rewrite Hs. simpl. split; [done|]. by apply changed_below_same.
    + destruct (create_ok root path s Ht) as (i&t'&He&Ht'&_&Hc&_); [by eexists|done|]. rewrite He. by split.
  - rewrite create_file_eq. destruct (resolve_parent_gone root path s.1 Hr) as [[e ->]|[[e ->]|[leaf ->]]]; simpl.
    + split; [done|]. by apply changed_below_same.
    + by apply take_id_changes.
    + unfold upsert_file. rewrite Hr. simpl. by apply take_id_changes.
Qed.

Lemma remove_eq root path t :
  remove root path t =
    match walk_from t root (segments path) with
    | None => (Ok [], t)
    | Some i =>
        (Ok (omap (λ x, if in_subtree t i x.1 && bool_decide (r_kind x.2 = File) then r_key x.2 else None)
               (hash_iter (t_rows t))), delete_subtree i t)
    end.
Proof. unfold remove, walk, gets, modify, mbind, m_bind. by destruct (walk_from _ _ _). Qed.

Lemma remove_changes root path t : table_ok t →
  table_ok (run_state (remove root path) t) ∧ changed_below root t (run_state (remove root path) t).
Proof.
  intros Ht. unfold run_state. rewrite remove_eq. destruct (walk_from t root (segments path)) as [i|] eqn:E; simpl.
  - destruct (delete_ok t i Ht) as [Ht' _]. split; [done|]. intros j. rewrite delete_lookup.
    destruct (in_subtree t i j) eqn:Ej; [|done]. intros _. left. apply in_subtree_spec in Ej; [|done].
    eapply under_trans; [by eapply walk_under|done].
  - split; [done|]. by apply changed_below_same.
Qed.

(** Whatever the catalogue of a scope is asked, and whatever comes of it, the
    table stays a tree of named rows, and every row that appears, changes or
    disappears is below the root of the scope. *)
Theorem scope_confined (root : Z) (op : InodeOp) (s : State) :
  table_ok s.1 →
  table_ok (run_state (inode_op root op) s).1 ∧ changed_below root s.1 (run_state (inode_op root op) s).1.
Proof.
  intros Ht.
  assert (∀ A (m : CM A), (run_state (_ ← m; mret ()) s).1 = (run_state m s).1) as Hig.
  { intros A m. unfold run_state, mbind, m_bind. by destruct (m s) as [[]]. }
  assert (∀ A (m : TM A), (run_state (on_table m) s).1 = run_state m s.1) as Hon.
  { intros A m. unfold run_state, on_table, zoom. by destruct (m s.1). }
  destruct op as [path|path|path]; simpl; rewrite Hig, ?Hon.
  - by apply mkdir_changes.
  - by apply create_changes.
  - by apply remove_changes.
Qed.

(** A directory or a file that is made is found at its path: a directory
    that was there is kept, a file gets a new key, and every path that was found
    is still found, with the row it had unless the file replaced it. *)
Theorem made_is_found (root : Z) (path : string) (s : State) :
  table_ok s.1 → is_Some (t_rows s.1 !! root) → segments path ≠ [] →
  (∃ inode t, mkdir root path s.1 = (Ok inode, t) ∧ resolve_inode root path t = (Ok (Some inode), t) ∧
     (∀ old, walk_from s.1 root (segments path) = Some old → in_id inode = old) ∧
     t_rows s.1 ⊆ t_rows t) ∧
  ∃ i t, create_file root path s = (Ok (mkInode i File (Some (new_key s.2)) 0), (t, (next_id s.2).2)) ∧
    resolve_inode root path t = (Ok (Some (mkInode i File (Some (new_key s.2)) 0)), t) ∧
    ∀ path' j r, walk_from s.1 root (segments path') = Some j → t_rows s.1 !! j = Some r →
      walk_from t root (segments path') = Some j ∧ (j ≠ i → t_rows t !! j = Some r).
Proof.
  intros Ht Hr Hs. split.
  - destruct (mkdir_ok root path s.1 Ht Hr Hs) as (inode&t&He&(Ht'&Hsub&_)&Hw&Hres).
    exists inode, t. split_and!; [done..| |done]. intros old Hold.
    apply (walk_mono s.1 t) in Hold; [|done..]. congruence.
  - destruct (create_ok root path s Ht Hr Hs) as (i&t&He&Ht'&Hsame&_&_&Hres&Hrows). exists i, t.
    split_and!; [done..|]. intros path' j r Hw Hj. split; [by apply (walk_same_names s.1 t)|]. intros. by apply Hrows.
Qed.

Lemma remove_rows (root : Z) (path : string) (t : FsInode) (a : Z) :
  table_ok t → walk_from t root (segments path) = Some a →
  ∃ keys t', remove root path t = (Ok keys, t') ∧
    (∀ i, t_rows t' !! i = if in_subtree t a i then None else t_rows t !! i) ∧
    ∀ key, key ∈ keys ↔ ∃ i r, t_rows t !! i = Some r ∧ under t a i ∧ r_kind r = File ∧ r_key r = Some key.
Proof.
  intros Ht E. rewrite remove_eq, E. eexists _, (delete_subtree a t). split; [done|].
  split; [intros i; apply delete_lookup|].
  intros key. rewrite list_elem_of_omap. split.
  - intros ([i r]&Hir%elem_of_hash_iter&Hk). simpl in Hk. destruct (in_subtree t a i) eqn:Eu; [|done]. simpl in Hk.
    case_bool_decide; [|done]. exists i, r. apply in_subtree_spec in Eu; [|done]. done.
  - intros (i&r&Hir&Hu&Hkind&Hk). exists (i, r). split; [by apply elem_of_hash_iter|]. simpl.
    apply in_subtree_spec in Hu; [|done]. by rewrite Hu, bool_decide_true.
Qed.

(** The rows below a walk that succeeds in the tree that is left are left. *)
Lemma walk_left t a p segs i : table_ok t → segs ≠ [] →
  walk_from (delete_subtree a t) p segs = Some i ↔ walk_from t p segs = Some i ∧ ¬ under t a i.
Proof.
  intros Ht Hne. destruct (delete_ok t a Ht) as [Ht' Hsub]. split.
  - intros Hw. split; [by apply (walk_mono (delete_subtree a t) t)|]. intros Hu.
    assert (is_Some (t_rows (delete_subtree a t) !! i)) as [r Hi].
    { revert p Hw Hne. induction segs as [|s segs IH]; intros p Hw Hne; [done|]. simpl in Hw.
      apply bind_Some in Hw as (q&Hq&Hw). destruct segs as [|s' segs]; [|by apply (IH q)]. simpl in Hw. injection Hw as <-.
      apply select_child_spec in Hq as (r&Hr&_); [by eexists|done]. }
    rewrite delete_lookup in Hi. destruct (in_subtree t a i) eqn:Ei; [done|].
    apply in_subtree_spec in Hu; [congruence|done].
  - intros [Hw Hnu]. clear Hne. revert p Hw.
    induction segs as [|s segs IH]; intros p Hw; simpl in *; [done|]. apply bind_Some in Hw as (q&Hq&Hw).
    apply bind_Some. exists q. split; [|by apply IH]. apply walk_under in Hw as Hqi; [|done].
    apply select_child_spec in Hq as (r&Hr&Hp&Hn); [|done]. apply select_child_spec; [done|]. exists r.
    split; [|done]. rewrite delete_lookup. destruct (in_subtree t a q) eqn:Eq; [|done].
    apply in_subtree_spec in Eq; [|done]. destruct Hnu. by eapply under_trans.
Qed.

(** Removing a path that is found takes exactly the rows at and below it,
    and returns the keys of the files among them; the paths that do not go
    through it are found as before, and those that do are not found any more.
    Removing a path that is not found changes nothing. *)
Theorem remove_is_exact (root : Z) (path : string) (t : FsInode) :
  table_ok t →
  match walk_from t root (segments path) with
  | None => remove root path t = (Ok [], t)
  | Some a =>
      ∃ keys t', remove root path t = (Ok keys, t') ∧
        (∀ i, t_rows t' !! i = if in_subtree t a i then None else t_rows t !! i) ∧
        (∀ key, key ∈ keys ↔ ∃ i r, t_rows t !! i = Some r ∧ under t a i ∧ r_kind r = File ∧ r_key r = Some key) ∧
        ∀ path' i, segments path' ≠ [] →
          walk_from t' root (segments path') = Some i ↔ walk_from t root (segments path') = Some i ∧ ¬ under t a i
  end.
Proof.
  intros Ht. destruct (walk_from t root (segments path)) as [a|] eqn:E; [|by rewrite remove_eq, E].
  destruct (remove_rows root path t a Ht E) as (keys&t'&Hr&Hrows&Hkeys). exists keys, t'. split_and!; [done..|].
  intros path' i Hne. rewrite remove_eq, E in Hr. injection Hr as _ <-. by apply walk_left.
Qed.

(** Once the root of a scope is removed, which [/] does, its catalogue makes
    nothing any more, until another is built. *)
Theorem removed_root_refuses (root : Z) (path : string) (t : FsInode) :
  table_ok t → segments path ≠ [] →
  let t' := run_state (remove root "/") t in
  t_rows t' !! root = None ∧ run_res (mkdir root path) t' = Err FOREIGN_KEY ∧
  (∀ g, run_res (create_file root path) (t', g) = Err FOREIGN_KEY) ∧ run_res (resolve_inode root "/") t' = Err ROW_NOT_FOUND.
Proof.
  intros Ht Hs t'. assert (t_rows t' !! root = None) as Hr.
  { unfold t', run_state. rewrite remove_eq. change (segments "/") with (@nil string).
    cbn [walk_from snd]. rewrite delete_lookup. replace (in_subtree t root root) with true; [done|].
    symmetry. apply in_subtree_spec; [done|constructor]. }
  clearbody t'. split; [done|]. destruct (last (segments path)) as [leaf|] eqn:El; [|by apply last_None in El].
  unfold run_res. split; [|split].
  - unfold mkdir, resolve_parent, mbind, m_bind. rewrite El.
    destruct (removelast (segments path)) as [|s segs]; [simpl; by rewrite ensure_child_absent|].
    by rewrite ensure_path_absent.
  - intros g. rewrite create_file_eq. cbn [fst snd]. unfold resolve_parent. rewrite El. unfold mbind, m_bind.
    destruct (removelast (segments path)) as [|s segs]; [|by rewrite ensure_path_absent].
    simpl. unfold upsert_file. by rewrite Hr.
  - unfold resolve_inode, walk, gets, load, mbind, m_bind. change (segments "/") with (@nil string). simpl. by rewrite Hr.
Qed.
(** ** Places: a row that is still there has the place it had

    Identifiers are never given twice, and no query moves a row. *)

Definition places_kept (t t' : FsInode) : Prop :=
  (t_next t ≤ t_next t')%Z ∧
  ∀ i s, t_rows t' !! i = Some s → (i < t_next t)%Z →
    ∃ r, t_rows t !! i = Some r ∧ r_parent r = r_parent s ∧ r_name r = r_name s.

Lemma places_refl t : places_kept t t.
Proof. split; [lia|]. intros i s Hi _. by exists s. Qed.
Lemma places_trans t1 t2 t3 : places_kept t1 t2 → places_kept t2 t3 → places_kept t1 t3.
Proof.
  intros [N1 P1] [N2 P2]. split; [lia|]. intros i s Hi Hlt. destruct (P2 i s Hi) as (r&Hr&Hp&Hn); [lia|].
  destruct (P1 i r Hr Hlt) as (q&Hq&Hp'&Hn'). exists q. split; [done|]. split; congruence.
Qed.

Section places.
Context (t0 : FsInode).
Notation kept m := (keeps (places_kept t0) m).

Lemma places_take_id t : places_kept t (take_id t).
Proof. split; [simpl; lia|]. intros i s Hi _. by exists s. Qed.
Lemma places_insert r t : places_kept t (insert_row r t).
Proof. split; [simpl; lia|]. intros i s. simpl. intros [[<- _]|[_ Hi]]%lookup_insert_Some Hlt; [lia|by exists s]. Qed.
Lemma places_delete a t : places_kept t (delete_subtree a t).
Proof. split; [simpl; lia|]. intros i s Hi _. rewrite delete_lookup in Hi. exists s. by destruct (in_subtree t a i). Qed.
Lemma places_insert_dir p n : kept (insert_dir p n).
Proof.
  intros t Ht. eapply places_trans; [exact Ht|]. unfold run_state, insert_dir.
  destruct (t_rows t !! p), (select_child p n t); simpl; auto using places_take_id, places_insert.
Qed.
Lemma places_upsert p n key : kept (upsert_file p n key).
Proof.
  intros t Ht. eapply places_trans; [exact Ht|]. unfold run_state, upsert_file.
  destruct (t_rows t !! p) as [q|]; [|by apply places_take_id]. destruct (select_child p n t) as [i|] eqn:E; [|by apply places_insert].
  apply find_row_Some in E as (r&Hr&[Hp Hn]%is_child_spec). split; [simpl; lia|]. simpl. intros j s Hj _.
  apply lookup_insert_Some in Hj as [[<- <-]|[_ Hj]]; [by exists r|by exists s].
Qed.
Lemma places_get : kept (get : TM FsInode).
Proof. by intros t Ht. Qed.
Lemma places_global_root : kept ensure_global_root.
Proof.
  intros t Ht. eapply places_trans; [exact Ht|]. unfold run_state, ensure_global_root.
  destruct (select_root t); simpl; auto using places_refl, places_insert.
Qed.
#[local] Hint Resolve places_insert_dir places_get : keeps.
Lemma places_ensure_child p n : kept (ensure_child_dir p n).
Proof. apply keeps_bind; [by eauto with keeps|]. intros []; by eauto with keeps. Qed.
#[local] Hint Resolve places_ensure_child : keeps.
Lemma places_ensure_path p segs : kept (ensure_path p segs).
Proof. revert p. induction segs as [|s segs IH]; intros p; simpl; by eauto with keeps. Qed.
#[local] Hint Resolve places_ensure_path places_global_root places_upsert : keeps.
Lemma places_scope segs : kept (root ← ensure_global_root; ensure_path root segs).
Proof. by eauto with keeps. Qed.
Lemma places_resolve_parent root path : kept (resolve_parent root path).
Proof. unfold resolve_parent. destruct (last (segments path)); by eauto with keeps. Qed.
#[local] Hint Resolve places_resolve_parent : keeps.
Lemma places_mkdir root path : kept (mkdir root path).
Proof.
  apply keeps_bind; [by eauto with keeps|]. intros [p leaf]. apply keeps_bind; [by eauto with keeps|]. by intros i t Ht.
Qed.
Lemma places_remove root path : kept (remove root path).
Proof.
  intros t Ht. unfold run_state. rewrite remove_eq. destruct (walk_from t root (segments path)); [|done].
  eapply places_trans; [exact Ht|]. apply places_delete.
Qed.
Lemma places_create root path s : places_kept t0 s.1 → places_kept t0 (run_state (create_file root path) s).1.
Proof.
  intros Ht. unfold run_state. rewrite create_file_eq. pose proof (places_resolve_parent root path s.1 Ht) as Hp.
  unfold run_state in Hp. destruct (resolve_parent root path s.1) as [[[p leaf]|e|] t]; [|done..]. simpl in Hp.
  pose proof (places_upsert p leaf (new_key s.2) t Hp) as Hu. unfold run_state in Hu.
  by destruct (upsert_file p leaf (new_key s.2) t).
Qed.
End places.

(** What the nodes and the sessions do of the table: a catalogue, with its
    generator, is asked something, or the root of a scope is built. *)
Inductive Change :=
  | Asked (root : Z) (op : InodeOp) (g : IdGenerator)
  | OpensWorkspace (workspace_id : string)
  | OpensSession (workspace_id session_id : string).
Definition change (t : FsInode) (c : Change) : FsInode :=
  match c with
  | Asked root op g => (run_state (inode_op root op) (t, g)).1
  | OpensWorkspace workspace_id => run_state (for_workspace workspace_id) t
  | OpensSession workspace_id session_id => run_state (for_session workspace_id session_id) t
  end.
Definition changes (cs : list Change) (t : FsInode) : FsInode := fold_left change cs t.

Lemma inode_op_table root op s :
  (run_state (inode_op root op) s).1 =
    match op with
    | OpMkdir path => run_state (mkdir root path) s.1
    | OpCreate path => (run_state (create_file root path) s).1
    | OpRemove path => run_state (remove root path) s.1
    end.
Proof.
  destruct op as [path|path|path]; unfold inode_op, run_state, on_table, zoom, mbind, m_bind; simpl.
  - by destruct (mkdir root path s.1) as [[]].
  - by destruct (create_file root path s) as [[]].
  - by destruct (remove root path s.1) as [[]].
Qed.
Lemma change_kept t c : table_ok t → table_ok (change t c) ∧ places_kept t (change t c).
Proof.
  intros Ht. pose proof (places_refl t) as Hr.
  assert (∀ segs, table_ok (run_state (root ← ensure_global_root; ensure_path root segs) t)) as Hs.
  { intros segs. destruct (scope_root_ok segs t Ht) as (g&c'&t'&He&Ht'&_). unfold run_state. by rewrite He. }
  destruct c as [root op g|w|w sid]; simpl;
    [|by split; [apply Hs|apply places_scope]|by split; [apply Hs|apply places_scope]].
  split; [by apply scope_confined|]. rewrite inode_op_table. destruct op; simpl;
    [by apply places_mkdir|by apply places_create|by apply places_remove].
Qed.
Lemma changes_kept cs t : table_ok t → table_ok (changes cs t) ∧ places_kept t (changes cs t).
Proof.
  revert t. induction cs as [|c cs IH]; intros t Ht; simpl; [split; [done|apply places_refl]|].
  destruct (change_kept t c Ht) as [Ht1 Hp1]. destruct (IH _ Ht1) as [Ht2 Hp2]. split; [done|]. by eapply places_trans.
Qed.

(** A walk is found as long as the row that it leads to is there. *)
Lemma walk_places t t' p segs i : table_ok t → table_ok t' → places_kept t t' →
  walk_from t p segs = Some i → is_Some (t_rows t' !! i) → walk_from t' p segs = Some i.
Proof.
  intros Ht Ht' [_ Hk]. revert i. induction segs as [|s segs IH] using rev_ind; intros i; [done|].
  rewrite !walk_app. intros (q&Hq&(i'&Hsel&[= ->])%bind_Some)%bind_Some [r Hi].
  apply select_child_spec in Hsel as (r0&Hr0&Hp&Hn); [|done].
  destruct (Hk i r Hi) as (r1&Hr1&Hp1&Hn1); [by apply (fresh_row t i Ht); eexists|].
  assert (r1 = r0) as -> by congruence. destruct Ht' as (Hok&Hu&Hpos). destruct (Hok i r Hi) as (_&Hpar&_).
  destruct (Hpar q) as [_ Hqs]; [congruence|]. apply bind_Some. exists q. split; [by apply IH|].
  simpl. apply bind_Some. exists i. split; [|done]. apply select_child_spec; [done|]. exists r. split_and!; [done|congruence..].
Qed.
End theorems.

(** ** A table *)

#[local] Existing Instance canonical_iter.
#[local] Existing Instance counter_rng.

Definition demo_table : FsInode :=
  run_state (for_session "w" "s") (mkTable ∅ 1).
Definition demo_state : FsInode * IdGenerator :=
  run_state (create_file 3 "/a/b.txt") (demo_table, new_from_seed []).

Example demo_paths :
  walk_from demo_state.1 3 ["a"; "b.txt"] = Some 7%Z ∧ walk_from demo_state.1 5 [] = Some 5%Z ∧
  run_res (children 3 "/") demo_state.1 =
    Ok [("a", mkInode 6 Dir None 0); ("sessions", mkInode 4 Dir None 0)].
Proof. vm_compute. done. Qed.


Lemma demo_table_ok : table_ok demo_table.
Proof.
  assert (table_ok (mkTable ∅ 1)) as H0 by (split; [|split]; [by intros ? ? ?..|done]).
  destruct (scope_root_ok ["workspaces"; "w"; "sessions"; "s"] (mkTable ∅ 1) H0) as (g&c&t&He&Ht&_).
  unfold demo_table, run_state, for_session. by rewrite He.
Qed.

Lemma demo_state_ok : table_ok demo_state.1.
Proof. apply (create_changes 3 "/a/b.txt" (demo_table, new_from_seed [])), demo_table_ok. Qed.

Lemma scope_confined_witness : table_ok (run_state (inode_op 5 (OpCreate "/x")) demo_state).1.
Proof. apply (scope_confined 5 (OpCreate "/x") demo_state). exact demo_state_ok. Defined.

Lemma made_is_found_witness : ∃ inode t, mkdir 3 "/a/c" demo_state.1 = (Ok inode, t) ∧
  resolve_inode 3 "/a/c" t = (Ok (Some inode), t).
Proof.
  destruct (made_is_found 3 "/a/c" demo_state) as [(inode&t&Hm&Hr&_) _].
  - exact demo_state_ok.
  - vm_compute. by eexists.
  - done.
  - by exists inode, t.
Defined.

Lemma remove_is_exact_witness :
  ∃ keys t', remove 3 "/a" demo_state.1 = (Ok keys, t') ∧
    "fs/00000000000000000000000000000001" ∈ keys ∧ t_rows t' !! 7%Z = None.
Proof.
  pose proof (remove_is_exact 3 "/a" demo_state.1 demo_state_ok) as H.
  assert (walk_from demo_state.1 3 (segments "/a") = Some 6%Z) as E by (vm_compute; reflexivity). rewrite E in H.
  destruct H as (keys&t'&Hr&Hrows&Hkeys&_). exists keys, t'. split; [exact Hr|].
  assert (in_subtree demo_state.1 6 7 = true) as Hin by (vm_compute; reflexivity).
  split; [|by rewrite Hrows, Hin].
  apply Hkeys. eexists 7%Z, _. split; [vm_compute; reflexivity|].
  split; [apply in_subtree_spec; [exact demo_state_ok|exact Hin]|done].
Defined.

Lemma removed_root_refuses_witness : run_res (mkdir 5 "/x") (run_state (remove 5 "/") demo_state.1) = Err FOREIGN_KEY.
Proof. apply (removed_root_refuses 5 "/x" demo_state.1); [exact demo_state_ok|done]. Defined.
