(* ===== verification/Tree.v ===== *)
(** * The tree of frames ([session/frames/tree.rs])

    The arena is a cache without a size limit ([Cache::builder().build()]):
    a frame stays loaded until it is removed.  A lookup that misses loads the
    frame from storage.  The links of a frame (parent, siblings, children)
    are identifiers. *)

From S2P Require Import Prelude Ids Json Channels Types Spec RunLog Catalog Frames Errors.

Notation Arena := (gmap FrameId FrameNodeContainer) (only parsing).

(** ** Links inside the arena *)

(** A write through the container of [i], when it is loaded. *)
Definition amod (f : FrameNode → FrameNode) (i : FrameId) (a : Arena) : Arena :=
  alter (deref_mut f) i a.

Definition node_of (a : Arena) (i : FrameId) : option FrameNode := c_node <$> a !! i.
Definition children_in (a : Arena) (i : FrameId) : list FrameId :=
  default [] (children <$> node_of a i).

Definition link_siblings (prev next : FrameId) (a : Arena) : Arena :=
  amod (upd_prev (Some prev)) next (amod (upd_next (Some next)) prev a).

Definition detach_from_siblings (i : FrameId) (a : Arena) : Arena :=
  match a !! i with
  | None => a
  | Some c =>
      let prev := prev_sibling (c_node c) in
      let next := next_sibling (c_node c) in
      let a := match prev with Some p => amod (upd_next next) p a | None => a end in
      let a := match next with Some n => amod (upd_prev prev) n a | None => a end in
      amod (λ n, upd_next None (upd_prev None n)) i a
  end.

Definition detach_from_parent (i : FrameId) (a : Arena) : Arena :=
  match node_of a i ≫= parent with
  | None => a
  | Some p =>
      amod (upd_parent None) i
        (amod (λ n, upd_children (filter (λ c, c ≠ i) (children n)) n) p a)
  end.

Definition detach (i : FrameId) (a : Arena) : Arena :=
  detach_from_parent i (detach_from_siblings i a).

(** [Vec::insert], at an index that is in range. *)
Definition vec_insert {A} (index : nat) (x : A) (l : list A) : list A :=
  take index l ++ x :: drop index l.

Definition insert_child (p child : FrameId) (index : nat) (a : Arena) : Arena :=
  let a := detach child a in
  match a !! p with
  | None => a
  | Some c =>
      let cs := children (c_node c) in
      let index := index `min` length cs in
      let prev := match index with O => None | S i => cs !! i end in
      let next := cs !! index in
      let a := match prev with
               | Some prev => link_siblings prev child a
               | None => amod (upd_prev None) child a
               end in
      let a := match next with
               | Some next => link_siblings child next a
               | None => amod (upd_next None) child a
               end in
      let a := amod (λ n, upd_children (vec_insert index child (children n)) n) p a in
      amod (upd_parent (Some p)) child a
  end.

(** ** The tree *)

Record FrameTree (FS : Type) := mkTree {
  ft_store : FS;
  ft_session_id : SessionId;
  arena : Arena;
  (** what the system's entropy source returns next *)
  ft_entropy : list (option (list Z));
  (** saves started by dropped containers, not yet done *)
  ft_spawned : list FrameNode
}.
Arguments mkTree {FS}.
Arguments ft_store {FS}.
Arguments ft_session_id {FS}.
Arguments arena {FS}.
Arguments ft_entropy {FS}.
Arguments ft_spawned {FS}.

Definition set_store {FS} (s : FS) (t : FrameTree FS) : FrameTree FS :=
  mkTree s (ft_session_id t) (arena t) (ft_entropy t) (ft_spawned t).
Definition set_arena {FS} (a : Arena) (t : FrameTree FS) : FrameTree FS :=
  mkTree (ft_store t) (ft_session_id t) a (ft_entropy t) (ft_spawned t).

(** [FrameTree::new] *)
Definition tree_new {FS} (store : FS) (sid : SessionId) (entropy : list (option (list Z)))
    : FrameTree FS := mkTree store sid ∅ entropy [].

Section tree.
Context {FS : Type} `{StoreSessionFrame FS} `{Xoshiro}.
Notation TM := (M (FrameTree FS) SessionError).

Definition on_store {A} (m : M FS FrameStoreError A) : TM A :=
  m_map_err (λ e, StorageError (EFrame e)) (zoom ft_store set_store m).

Definition on_arena (f : Arena → Arena) : TM () := modify (λ t, set_arena (f (arena t)) t).

(** [FrameId::new]: a generator seeded for this one identifier. *)
Definition frame_id_new : TM FrameId := λ t,
  let e := default None (head (ft_entropy t)) in
  (Ok (mkFrameId (generate_id e)),
   mkTree (ft_store t) (ft_session_id t) (arena t) (tail (ft_entropy t)) (ft_spawned t)).

(** [Cache::insert]: a displaced container is dropped. *)
Definition cache_insert (i : FrameId) (c : FrameNodeContainer) : TM () := modify (λ t,
  let dropped := match arena t !! i with
                 | Some old => if dirty old then [c_node old] else []
                 | None => [] end in
  mkTree (ft_store t) (ft_session_id t) (<[i := c]> (arena t)) (ft_entropy t)
    (ft_spawned t ++ dropped)).

Definition frame_id_bound_to_hitl_id (h : HitlId) : TM (option FrameId) :=
  sid ← gets ft_session_id; on_store (get_frame_id_by_hitl_id sid h).

Definition try_get (i : FrameId) : TM FrameNodeContainer :=
  a ← gets arena;
  match a !! i with
  | Some c => mret c
  | None =>
      sid ← gets ft_session_id;
      c ← on_store (container_new sid i);
      _ ← on_arena (λ a, <[i := c]> a);
      mret c
  end.

Definition tree_get (i : FrameId) : TM FrameNodeContainer := or_panic (try_get i).

(** [self.get(id).await.lock()], read and written. *)
Definition read_node {A} (i : FrameId) (f : FrameNode → A) : TM A :=
  c ← tree_get i; mret (f (c_node c)).
Definition write_node (i : FrameId) (f : FrameNode → FrameNode) : TM () :=
  _ ← tree_get i; on_arena (amod f i).

Definition spec_ref_of (i : FrameId) : TM FrameSpecRef := read_node i spec_ref.

(** [graphs_get] is [Graphs::get] of the catalogue. *)
Definition common_spec_of (graphs_get : GraphRef → Res CatalogError CommonSpec) (i : FrameId)
    : TM CommonSpec :=
  r ← spec_ref_of i;
  match r with
  | RefGraph g => or_panic (E:=CatalogError) (lift (graphs_get g))
  | RefHitl => mret spec_hitl
  | RefToolCall => mret spec_tool
  | RefToolAggregator => mret spec_tool_aggregator
  | RefExpert => mret spec_expert
  | RefExpertAggregator => mret spec_expert_aggregator
  end.

Definition create_node (a : NewFrameNodeArgs) : TM FrameId :=
  i ← frame_id_new;
  _ ← cache_insert i (from_new_node (frame_node_new i a));
  mret i.

Definition tree_set_root (a : NewFrameNodeArgs) : TM FrameId :=
  i ← create_node a;
  _ ← on_arena (amod (upd_root true) i);
  mret i.

Definition tree_insert (p : FrameId) (a : NewFrameNodeArgs) (position : nat) : TM FrameId :=
  i ← create_node a;
  _ ← on_arena (insert_child p i position);
  mret i.

Definition tree_append (p : FrameId) (a : NewFrameNodeArgs) : TM FrameId :=
  position ← gets (λ t, length (children_in (arena t) p));
  tree_insert p a position.

Definition status_of (i : FrameId) : TM FrameStatus := read_node i status.
Definition data_of (i : FrameId) : TM FrameKind := read_node i data.
Definition policy_of (i : FrameId) : TM FramePolicy := read_node i frame_policy.
Definition set_policy_of (i : FrameId) (p : FramePolicy) : TM () := write_node i (upd_policy p).

(** The three setters build the future of [set_policy_of] and drop it: the
    policy is read, never written. *)
Definition set_resume_policy (i : FrameId) (r : ResumePolicy) : TM () :=
  policy ← policy_of i; let policy := with_resume_policy policy r in mret ().
Definition set_on_resume_policy (i : FrameId) (r : OnResumePolicy) : TM () :=
  policy ← policy_of i; let policy := with_on_resume_policy policy r in mret ().
Definition set_reduce_policy (i : FrameId) (r : ReducePolicy) : TM () :=
  policy ← policy_of i; let policy := with_reduce_policy policy r in mret ().

Definition on_resume_policy_of (i : FrameId) : TM OnResumePolicy :=
  policy ← policy_of i; mret (on_resume_policy policy).

Definition logs_of (i : FrameId) : TM (list RunLog) := read_node i logs.

(** [logs.iter().rev().find(|l| l.value.is_none())] *)
Definition last_pending (l : list RunLog) : option RunLog :=
  snd <$> list_find (λ e, rl_value e = None) (reverse l).
Definition pending_log_of (i : FrameId) : TM (option RunLog) :=
  read_node i (λ n, last_pending (logs n)).

Definition append_logs (i : FrameId) (new_logs : list RunLog) : TM () :=
  match new_logs with
  | [] => mret ()
  | _ => write_node i (λ n, upd_logs (logs n ++ new_logs) n)
  end.

(** The first entry of that index takes the value. *)
Definition resolve_entry (index : Z) (v : Value) (l : list RunLog) : list RunLog :=
  match list_find (λ e, rl_index e = index) l with
  | Some (k, e) => <[k := mkRunLog (rl_index e) (rl_content e) (Some v)]> l
  | None => l
  end.
Definition resolve_log (i : FrameId) (index : Z) (v : Value) : TM () :=
  write_node i (λ n, upd_logs (resolve_entry index v (logs n)) n).

Definition set_status (i : FrameId) (s : FrameStatus) : TM () := write_node i (upd_status s).

Definition bind_hitl_to_log (i : FrameId) (index : Z) (h : HitlId) : TM () :=
  write_node i (node_bind_hitl_to_log index h).
Definition hitl_id_bound_to_log (i : FrameId) (index : Z) : TM (option HitlId) :=
  read_node i (λ n, hitl_id_of_log n index).
Definition log_index_bound_to_hitl_id `{HashIter} (i : FrameId) (h : HitlId) : TM (option Z) :=
  read_node i (λ n, log_index_of_hitl n h).

(** The navigation reads the arena only. *)
Definition parent_of (i : FrameId) : TM (option FrameId) :=
  gets (λ t, node_of (arena t) i ≫= parent).
Definition next_sibling_of (i : FrameId) : TM (option FrameId) :=
  gets (λ t, node_of (arena t) i ≫= next_sibling).
Definition prev_sibling_of (i : FrameId) : TM (option FrameId) :=
  gets (λ t, node_of (arena t) i ≫= prev_sibling).
Definition iter_children_of (p : FrameId) : TM (list FrameId) :=
  gets (λ t, children_in (arena t) p).
Definition last_child_of (p : FrameId) : TM (option FrameId) := read_node p (last ∘ children).

(** The sibling walks; [fuel] bounds the number of links followed. *)
Fixpoint walk (step : FrameId → option FrameId) (fuel : nat) (current : option FrameId)
    : list FrameId :=
  match fuel, current with
  | S fuel, Some curr => curr :: walk step fuel (step curr)
  | _, _ => []
  end.
Definition iter_next_siblings (i : FrameId) : TM (list FrameId) := gets (λ t,
  let step c := node_of (arena t) c ≫= next_sibling in
  walk step (size (arena t)) (step i)).
Definition iter_prev_siblings (i : FrameId) : TM (list FrameId) := gets (λ t,
  let step c := node_of (arena t) c ≫= prev_sibling in
  walk step (size (arena t)) (step i)).

(** One turn of the loop of [remove]: pop, detach, push the children,
    delete from storage, forget. *)
Definition remove_one (current : FrameId) : TM (list FrameId) :=
  _ ← on_arena (detach current);
  a ← gets arena;
  cs ← match a !! current with
       | None => mret []
       | Some c =>
           c' ← on_store (container_delete c);
           _ ← on_arena (λ a, <[current := c']> a);
           mret (children (c_node c))
       end;
  _ ← on_arena (base.delete current);
  mret cs.

(** [stack] has its top first; [false] is a loop that ran out of [fuel]. *)
Fixpoint remove_loop (fuel : nat) (stack : list FrameId) : TM bool :=
  match stack with
  | [] => mret true
  | current :: stack =>
      match fuel with
      | O => mret false
      | S fuel =>
          cs ← remove_one current;
          remove_loop fuel (reverse cs ++ stack)
      end
  end.

Definition links (a : Arena) : nat :=
  map_fold (λ _ c n, length (children (c_node c)) + n) 0 a.

Definition tree_remove (i : FrameId) : TM bool :=
  fuel ← gets (λ t, S (links (arena t)));
  remove_loop fuel [i].
End tree.
