(* ===== verification/TreeLaws.v ===== *)
(** * The tree of frames: its invariant and what its operations do

    [linked] is the well-formedness of the links in the arena; insertion
    keeps it; the sibling walks follow it; removal ends and forgets exactly a
    subtree. *)

From S2P Require Import Prelude Ids Json Channels Types Spec RunLog Catalog Frames Errors Tree.

Definition pred_at {A} (i : nat) (l : list A) : option A :=
  match i with O => None | S i => l !! i end.

Record linked (a : Arena) : Prop := {
  lk_key : ∀ k n, node_of a k = Some n → id n = k;
  lk_nodup : ∀ p n, node_of a p = Some n → NoDup (children n);
  lk_child : ∀ p n i c, node_of a p = Some n → children n !! i = Some c →
    ∃ m, node_of a c = Some m ∧ parent m = Some p ∧
         prev_sibling m = pred_at i (children n) ∧ next_sibling m = children n !! S i;
  lk_parent : ∀ c m p, node_of a c = Some m → parent m = Some p →
    ∃ n, node_of a p = Some n ∧ c ∈ children n;
  lk_orphan : ∀ c m, node_of a c = Some m → parent m = None →
    prev_sibling m = None ∧ next_sibling m = None
}.

(** ** Reading a modified arena *)

Lemma node_of_amod f i (a : Arena) j :
  node_of (amod f i a) j = if decide (i = j) then f <$> node_of a j else node_of a j.
Proof.
  unfold node_of, amod. case_decide as E.
  - subst j. rewrite lookup_alter_eq. by destruct (a !! i).
  - by rewrite lookup_alter_ne.
Qed.

Lemma node_of_insert i c (a : Arena) j :
  node_of (<[i := c]> a) j = if decide (i = j) then Some (c_node c) else node_of a j.
Proof.
  unfold node_of. case_decide as E; [subst; by rewrite lookup_insert_eq|].
  by rewrite lookup_insert_ne.
Qed.

Lemma node_of_delete i (a : Arena) j :
  node_of (delete i a) j = if decide (i = j) then None else node_of a j.
Proof.
  unfold node_of. case_decide as E; [subst; by rewrite lookup_delete_eq|].
  by rewrite lookup_delete_ne.
Qed.

Lemma node_of_lookup (a : Arena) i n :
  node_of a i = Some n ↔ ∃ c, a !! i = Some c ∧ c_node c = n.
Proof. unfold node_of. rewrite fmap_Some. naive_solver. Qed.

Lemma vec_insert_lookup {A} k (x : A) l i :
  k ≤ length l →
  vec_insert k x l !! i =
    if decide (i < k) then l !! i else if decide (i = k) then Some x else l !! (i - 1).
Proof.
  intros Hk. unfold vec_insert. assert (length (take k l) = k) as Hl by (rewrite length_take; lia).
  case_decide as E1.
  - rewrite lookup_app_l by lia. by rewrite lookup_take_lt.
  - rewrite lookup_app_r by lia. rewrite Hl. case_decide as E2.
    + subst. by rewrite Nat.sub_diag.
    + destruct (i - k) as [|d] eqn:Hd; [lia|]. simpl. rewrite lookup_drop. f_equal. lia.
Qed.

Lemma elem_of_vec_insert {A} k (x y : A) l : y ∈ vec_insert k x l ↔ y = x ∨ y ∈ l.
Proof.
  unfold vec_insert. rewrite elem_of_app, elem_of_cons.
  rewrite <- (take_drop k l) at 3. rewrite elem_of_app. tauto.
Qed.

Lemma NoDup_vec_insert {A} k (x : A) l : NoDup l → x ∉ l → NoDup (vec_insert k x l).
Proof.
  intros Hl Hx. unfold vec_insert. rewrite <- Permutation_middle, take_drop.
  by constructor.
Qed.

(** ** Insertion *)

Definition link_opt (prev next : option FrameId) (a : Arena) : Arena :=
  match prev, next with Some p, Some n => link_siblings p n a | _, _ => a end.

(** A new node: nothing links to it. *)
Lemma detach_new (i : FrameId) (a : Arena) x :
  let c := from_new_node (frame_node_new i x) in
  detach i (<[i := c]> a) = <[i := c]> a.
Proof.
  intros c. unfold detach, detach_from_siblings. rewrite lookup_insert_eq. simpl.
  assert (amod (λ n, upd_next None (upd_prev None n)) i (<[i:=c]> a) = <[i:=c]> a) as ->.
  { unfold amod. by rewrite alter_insert_eq. }
  unfold detach_from_parent. rewrite node_of_insert, decide_True by done. done.
Qed.

(** The links of a node, field by field, after an insertion. *)
Record inserted (p child : FrameId) (k : nat) (cs : list FrameId) (j : FrameId)
    (n n' : FrameNode) : Prop := {
  ins_id : id n' = id n;
  ins_links : n' = upd_links (parent n') (next_sibling n') (prev_sibling n') (children n') n;
  ins_children : children n' = if decide (j = p) then vec_insert k child cs else children n;
  ins_parent : parent n' = if decide (j = child) then Some p else parent n;
  ins_next : next_sibling n' =
    if decide (j = child) then cs !! k
    else if decide (Some j = pred_at k cs) then Some child else next_sibling n;
  ins_prev : prev_sibling n' =
    if decide (j = child) then pred_at k cs
    else if decide (Some j = cs !! k) then Some child else prev_sibling n
}.

Lemma insert_child_node (p child : FrameId) (index : nat) (a : Arena) (c : FrameNodeContainer) j n :
  a !! p = Some c → detach child a = a → child ∉ children (c_node c) →
  let cs := children (c_node c) in
  let k := index `min` length cs in
  node_of a j = Some n →
  ∃ n', node_of (insert_child p child index a) j = Some n' ∧ inserted p child k cs j n n'.
Proof.
  intros Hp Hd Hc cs k Hn. unfold insert_child. rewrite Hd, Hp. cbv zeta. fold cs. fold k.
  change (match k with O => None | S i => cs !! i end) with (pred_at k cs).
  assert (∀ x, pred_at k cs = Some x → x ≠ child) as Hpc.
  { unfold pred_at. destruct k; [done|]. intros x Hx%list_elem_of_lookup_2 ->. done. }
  assert (∀ x, cs !! k = Some x → x ≠ child) as Hnc.
  { intros x Hx%list_elem_of_lookup_2 ->. done. }
  assert (j = p → children n = cs) as Hjp.
  { intros ->. apply node_of_lookup in Hn as (c'&Hc'&<-). by simplify_eq. }
  destruct (pred_at k cs) as [pv|] eqn:Epv, (cs !! k) as [nx|] eqn:Enx;
    [pose proof (Hpc _ eq_refl); pose proof (Hnc _ eq_refl)
    |pose proof (Hpc _ eq_refl)|pose proof (Hnc _ eq_refl)|];
    unfold link_siblings; rewrite !node_of_amod, Hn; simpl;
    repeat (case_decide; [subst; simpl|simpl]); try congruence;
    (eexists; split; [reflexivity|]);
    split; simpl; rewrite ?Epv, ?Enx; repeat case_decide; simplify_eq/=; try done;
    try (by destruct n); rewrite ?Hjp by done; done.
Qed.

Lemma insert_child_none (p child : FrameId) (index : nat) (a : Arena) j :
  detach child a = a → node_of a j = None → node_of (insert_child p child index a) j = None.
Proof.
  intros Hd Hn. unfold insert_child, link_siblings. rewrite Hd.
  destruct (a !! p); [|done]. cbv zeta.
  repeat case_match; rewrite !node_of_amod, Hn; by repeat case_decide.
Qed.

Module Insertion.
Section insertion.
Context (p child : FrameId) (x : NewFrameNodeArgs) (index : nat) (a : Arena) (c : FrameNodeContainer).
Hypothesis (Hl : linked a) (Hp : a !! p = Some c) (Hfresh : a !! child = None).

Definition cs : list FrameId := children (c_node c).
Definition k : nat := index `min` length cs.
Definition a1 : Arena := <[child := from_new_node (frame_node_new child x)]> a.
Definition a2 : Arena := insert_child p child index a1.

Lemma ins_p_ne : p ≠ child.
Proof. intros ->. congruence. Qed.

Lemma ins_p_node : node_of a p = Some (c_node c).
Proof. unfold node_of. by rewrite Hp. Qed.

Lemma ins_child_notin q n : node_of a q = Some n → child ∉ children n.
Proof.
  intros Hq [i Hi]%list_elem_of_lookup. apply (lk_child _ Hl _ _ _ _ Hq) in Hi as (m&Hm&_).
  unfold node_of in Hm. by rewrite Hfresh in Hm.
Qed.

(** Every node of the new arena, from the old one. *)
Lemma ins_old j n : node_of a j = Some n → ∃ n', node_of a2 j = Some n' ∧ inserted p child k cs j n n'.
Proof.
  intros Hn. apply (insert_child_node p child index a1 c); unfold a1.
  - by rewrite lookup_insert_ne by (intros E; by apply ins_p_ne).
  - apply detach_new.
  - apply (ins_child_notin p), ins_p_node.
  - rewrite node_of_insert, decide_False; [done|]. intros ->.
    unfold node_of in Hn. by rewrite Hfresh in Hn.
Qed.

Lemma ins_new :
  ∃ n', node_of a2 child = Some n' ∧ inserted p child k cs child (frame_node_new child x) n'.
Proof.
  apply (insert_child_node p child index a1 c); unfold a1.
  - by rewrite lookup_insert_ne by (intros E; by apply ins_p_ne).
  - apply detach_new.
  - apply (ins_child_notin p), ins_p_node.
  - by rewrite node_of_insert, decide_True.
Qed.

Lemma ins_inv j n' : node_of a2 j = Some n' →
  (j = child ∧ inserted p child k cs child (frame_node_new child x) n') ∨
  (j ≠ child ∧ ∃ n, node_of a j = Some n ∧ inserted p child k cs j n n').
Proof.
  intros Hn'. destruct (decide (j = child)) as [->|Hj].
  - left. destruct ins_new as (m&Hm&Hi). by simplify_eq.
  - right. split; [done|]. destruct (node_of a j) as [n|] eqn:Hn.
    + destruct (ins_old _ _ Hn) as (m&Hm&Hi). simplify_eq. eauto.
    + assert (node_of a2 j = None) as Hnone; [|congruence].
      apply insert_child_none; unfold a1; [apply detach_new|].
      by rewrite node_of_insert, decide_False by done.
Qed.

Lemma ins_k : k ≤ length cs.
Proof. unfold k. lia. Qed.

Lemma ins_cs_nodup : NoDup cs.
Proof. eapply lk_nodup; [apply Hl|apply ins_p_node]. Qed.

Lemma ins_pred i :
  pred_at i (vec_insert k child cs) =
    if decide (i ≤ k) then pred_at i cs
    else if decide (i = S k) then Some child else pred_at (i - 1) cs.
Proof.
  pose proof ins_k. unfold pred_at at 1. destruct i as [|i]; [by rewrite decide_True by lia|].
  rewrite vec_insert_lookup by done.
  repeat case_decide; try lia; simpl; rewrite ?Nat.sub_0_r; try done.
  destruct i; [lia|]. simpl. by rewrite Nat.sub_0_r.
Qed.

(** An old child keeps its parent; its siblings change next to the place of
    the new one only. *)
Lemma ins_old_child i ch :
  cs !! i = Some ch →
  ∃ m, node_of a2 ch = Some m ∧ parent m = Some p ∧
       prev_sibling m = (if decide (i = k) then Some child else pred_at i cs) ∧
       next_sibling m = (if decide (S i = k) then Some child else cs !! S i).
Proof.
  intros Hch. destruct (lk_child _ Hl _ _ _ _ ins_p_node Hch) as (m&Hm&Hmp&Hpv&Hnx).
  destruct (ins_old _ _ Hm) as (m'&Hm'&Hj). exists m'. split; [done|].
  assert (ch ≠ child) as Hne.
  { intros ->. apply (ins_child_notin _ _ ins_p_node). by eapply list_elem_of_lookup_2. }
  rewrite (ins_parent _ _ _ _ _ _ _ Hj), (ins_prev _ _ _ _ _ _ _ Hj), (ins_next _ _ _ _ _ _ _ Hj).
  rewrite !(decide_False (P := ch = child)) by done. split; [done|].
  rewrite Hpv, Hnx. fold cs. split.
  - rewrite (decide_ext (Some ch = cs !! k) (i = k)); [done|]. split; [|by intros ->].
    intros E. symmetry in E. by apply (NoDup_lookup _ _ _ _ ins_cs_nodup Hch E).
  - rewrite (decide_ext (Some ch = pred_at k cs) (S i = k)); [done|].
    unfold pred_at. destruct k as [|k']; [split; [done|lia]|].
    split; [|by intros [= ->]]. intros E. symmetry in E. f_equal.
    by apply (NoDup_lookup _ _ _ _ ins_cs_nodup Hch E).
Qed.

Lemma insert_same_parent i n' ch :
  node_of a2 p = Some n' → children n' !! i = Some ch →
  ∃ m, node_of a2 ch = Some m ∧ parent m = Some p ∧
       prev_sibling m = pred_at i (children n') ∧ next_sibling m = children n' !! S i.
Proof.
  intros Hn' Hch.
  destruct (ins_inv _ _ Hn') as [[E _]|(_&n&Hn&Hi)]; [by apply ins_p_ne in E|].
  rewrite (ins_children _ _ _ _ _ _ _ Hi), decide_True in * by done.
  rewrite ins_p_node in Hn. injection Hn as <-. pose proof ins_k as Hk.
  rewrite ins_pred. rewrite vec_insert_lookup in Hch |- * by done.
  destruct (decide (i < k)) as [Hik|Hik]; [|destruct (decide (i = k)) as [Eik|Nik]].
  - destruct (ins_old_child _ _ Hch) as (m&Hm&Hmp&Hpv&Hnx). exists m. rewrite Hpv, Hnx.
    split_and!; try done; repeat case_decide; try done; lia.
  - simplify_eq. destruct ins_new as (m'&Hm'&Hj). exists m'. split; [done|].
    rewrite (ins_parent _ _ _ _ _ _ _ Hj), (ins_prev _ _ _ _ _ _ _ Hj), (ins_next _ _ _ _ _ _ _ Hj).
    rewrite !decide_True by done. split_and!; [done|done|].
    rewrite !decide_False by lia. f_equal. lia.
  - destruct (ins_old_child _ _ Hch) as (m&Hm&Hmp&Hpv&Hnx). exists m. rewrite Hpv, Hnx.
    split_and!; try done; repeat case_decide; try done; try lia. all: f_equal; lia.
Qed.

(** A frame under another parent is left alone. *)
Lemma insert_other_parent q n' i ch :
  q ≠ p → node_of a2 q = Some n' → children n' !! i = Some ch →
  ∃ m, node_of a2 ch = Some m ∧ parent m = Some q ∧
       prev_sibling m = pred_at i (children n') ∧ next_sibling m = children n' !! S i.
Proof.
  intros Hq Hn' Hch.
  destruct (ins_inv _ _ Hn') as [[-> Hi]|(_&n&Hn&Hi)];
    rewrite (ins_children _ _ _ _ _ _ _ Hi), decide_False in * by done; [done|].
  destruct (lk_child _ Hl _ _ _ _ Hn Hch) as (m&Hm&Hmp&Hpv&Hnx).
  destruct (ins_old _ _ Hm) as (m'&Hm'&Hj). exists m'. split; [done|].
  assert (ch ≠ child) as Hne.
  { intros ->. apply (ins_child_notin _ _ Hn). by eapply list_elem_of_lookup_2. }
  assert (∀ j, cs !! j ≠ Some ch) as Hcs.
  { intros j Hj'. destruct (lk_child _ Hl _ _ _ _ ins_p_node Hj') as (m2&Hm2&Hp2&_). congruence. }
  rewrite (ins_parent _ _ _ _ _ _ _ Hj), (ins_prev _ _ _ _ _ _ _ Hj), (ins_next _ _ _ _ _ _ _ Hj).
  rewrite !(decide_False (P := ch = child)) by done.
  rewrite (decide_False (P := Some ch = cs !! k)) by (intros E; by apply (Hcs k)).
  rewrite (decide_False (P := Some ch = pred_at k cs)); [done|].
  unfold pred_at. destruct k as [|k']; [done|]. intros E. by apply (Hcs k').
Qed.

Lemma insert_children :
  children_in a2 p = vec_insert k child cs ∧
  ∀ q, q ≠ p → children_in a2 q = children_in a q.
Proof.
  split.
  - destruct (ins_old _ _ ins_p_node) as (n'&Hn'&Hi). unfold children_in. rewrite Hn'. simpl.
    by rewrite (ins_children _ _ _ _ _ _ _ Hi), decide_True.
  - intros q Hq. unfold children_in. destruct (node_of a2 q) as [n'|] eqn:Hn'.
    + simpl. destruct (ins_inv _ _ Hn') as [[-> Hi]|(_&n&Hn&Hi)];
        rewrite (ins_children _ _ _ _ _ _ _ Hi), decide_False by done.
      * unfold node_of. by rewrite Hfresh.
      * by rewrite Hn.
    + destruct (node_of a q) as [n|] eqn:Hn; [|done].
      destruct (ins_old _ _ Hn) as (n'&?&_). congruence.
Qed.

Lemma insert_linked : linked a2.
Proof.
  split.
  - intros q n' Hn'. destruct (ins_inv _ _ Hn') as [[-> Hi]|(_&n&Hn&Hi)];
      rewrite (ins_id _ _ _ _ _ _ _ Hi); [done|]. by apply (lk_key _ Hl).
  - intros q n' Hn'. destruct (ins_inv _ _ Hn') as [[-> Hi]|(_&n&Hn&Hi)];
      rewrite (ins_children _ _ _ _ _ _ _ Hi).
    + rewrite decide_False by (intros E; by apply ins_p_ne). constructor.
    + case_decide as E; [subst q|by apply (lk_nodup _ Hl _ _ Hn)].
      apply NoDup_vec_insert; [apply ins_cs_nodup|apply (ins_child_notin p), ins_p_node].
  - intros q n' i ch Hn' Hch. destruct (decide (q = p)) as [->|Hq].
    + by apply insert_same_parent.
    + by apply insert_other_parent.
  - intros j m' q Hm' Hq. destruct (ins_inv _ _ Hm') as [[-> Hi]|(Hj&m&Hm&Hi)];
      rewrite (ins_parent _ _ _ _ _ _ _ Hi) in Hq.
    + rewrite decide_True in Hq by done. injection Hq as <-.
      destruct (ins_old _ _ ins_p_node) as (n'&Hn'&Hi'). exists n'. split; [done|].
      rewrite (ins_children _ _ _ _ _ _ _ Hi'), decide_True by done.
      apply elem_of_vec_insert. by left.
    + rewrite decide_False in Hq by done. destruct (lk_parent _ Hl _ _ _ Hm Hq) as (n&Hn&Hin).
      destruct (ins_old _ _ Hn) as (n'&Hn'&Hi'). exists n'. split; [done|].
      rewrite (ins_children _ _ _ _ _ _ _ Hi'). case_decide as E; [subst q|done].
      apply elem_of_vec_insert. right. rewrite ins_p_node in Hn. by injection Hn as <-.
  - intros j m' Hm' Hq. destruct (ins_inv _ _ Hm') as [[-> Hi]|(Hj&m&Hm&Hi)];
      rewrite (ins_parent _ _ _ _ _ _ _ Hi) in Hq; [by rewrite decide_True in Hq|].
    rewrite decide_False in Hq by done. destruct (lk_orphan _ Hl _ _ Hm Hq) as [Hpv Hnx].
    assert (∀ i, cs !! i ≠ Some j) as Hcs.
    { intros i Hi'. destruct (lk_child _ Hl _ _ _ _ ins_p_node Hi') as (m2&Hm2&Hp2&_). congruence. }
    rewrite (ins_prev _ _ _ _ _ _ _ Hi), (ins_next _ _ _ _ _ _ _ Hi).
    rewrite !(decide_False (P := j = child)) by done.
    rewrite (decide_False (P := Some j = cs !! k)) by (intros E; by apply (Hcs k)).
    rewrite (decide_False (P := Some j = pred_at k cs)); [done|].
    unfold pred_at. destruct k as [|k']; [done|]. intros E. by apply (Hcs k').
Qed.
End insertion.
End Insertion.

(** The identifier the next frame will get. *)
Definition next_frame_id `{Xoshiro} {FS} (t : FrameTree FS) : FrameId :=
  mkFrameId (generate_id (default None (head (ft_entropy t)))).

Lemma create_node_eq `{Xoshiro} {FS : Type} `{StoreSessionFrame FS} (t : FrameTree FS) x :
  arena t !! next_frame_id t = None →
  create_node x t =
    (Ok (next_frame_id t),
     mkTree (ft_store t) (ft_session_id t)
       (<[next_frame_id t := from_new_node (frame_node_new (next_frame_id t) x)]> (arena t))
       (tail (ft_entropy t)) (ft_spawned t)).
Proof.
  intros Hf. unfold create_node, cache_insert, mbind, m_bind, frame_id_new, modify, mret, m_ret.
  simpl. fold (next_frame_id t). by rewrite Hf, app_nil_r.
Qed.

(** C2: inserting a new frame keeps the links of the tree consistent, puts it
    at the asked position among its parent's children (at most last), and
    leaves the children of every other frame as they were. *)
Theorem tree_insert_spec `{Xoshiro} {FS : Type} `{StoreSessionFrame FS} (t : FrameTree FS)
    (p : FrameId) (x : NewFrameNodeArgs) (position : nat) :
  linked (arena t) → is_Some (arena t !! p) → arena t !! next_frame_id t = None →
  let i := next_frame_id t in
  let cs := children_in (arena t) p in
  ∃ t', tree_insert p x position t = (Ok i, t') ∧ linked (arena t') ∧
        children_in (arena t') p = vec_insert (position `min` length cs) i cs ∧
        ∀ q, q ≠ p → children_in (arena t') q = children_in (arena t) q.
Proof.
  intros Hl [c Hp] Hf i cs. unfold tree_insert. unfold mbind at 1, m_bind at 1.
  rewrite create_node_eq by done. unfold mbind, m_bind, on_arena, modify, mret, m_ret.
  eexists. split; [reflexivity|]. unfold set_arena. cbn [arena].
  assert (cs = children (c_node c)) as -> by (unfold cs, children_in, node_of; by rewrite Hp).
  split; [by eapply Insertion.insert_linked|].
  by apply (Insertion.insert_children p i x position (arena t) c).
Qed.

(** ** Walking along the siblings *)

Lemma walk_next (a : Arena) p n i fuel :
  linked a → node_of a p = Some n → length (children n) ≤ i + fuel →
  walk (λ c, node_of a c ≫= next_sibling) fuel (children n !! i) = drop i (children n).
Proof.
  intros Hl Hn. revert i. induction fuel as [|fuel IH]; intros i Hi.
  - rewrite drop_ge by lia. by destruct (children n !! i).
  - destruct (children n !! i) as [c|] eqn:Hc; simpl.
    + destruct (lk_child _ Hl _ _ _ _ Hn Hc) as (m&Hm&_&_&Hnx).
      rewrite Hm. simpl. rewrite Hnx, (IH (S i)) by lia. symmetry. by apply drop_S.
    + apply lookup_ge_None in Hc. by rewrite drop_ge.
Qed.

Lemma walk_prev (a : Arena) p n i fuel :
  linked a → node_of a p = Some n → i ≤ length (children n) → i ≤ fuel →
  walk (λ c, node_of a c ≫= prev_sibling) fuel (pred_at i (children n)) =
  reverse (take i (children n)).
Proof.
  intros Hl Hn. revert i. induction fuel as [|fuel IH]; intros i Hi Hf.
  - assert (i = 0) as -> by lia. done.
  - destruct i as [|i]; [done|]. simpl.
    destruct (children n !! i) as [c|] eqn:Hc; [|apply lookup_ge_None in Hc; lia].
    destruct (lk_child _ Hl _ _ _ _ Hn Hc) as (m&Hm&_&Hpv&_).
    rewrite Hm. simpl. rewrite Hpv, IH by lia. by rewrite (take_S_r _ _ _ Hc), reverse_snoc.
Qed.

(** The children of one frame are distinct frames of the arena. *)
Lemma children_bound (a : Arena) p n :
  linked a → node_of a p = Some n → length (children n) ≤ size a.
Proof.
  intros Hl Hn. rewrite <- (size_list_to_set (C:=gset FrameId) (children n)) by (eapply lk_nodup; eauto).
  rewrite <- size_dom. apply subseteq_size. intros c Hc. apply elem_of_list_to_set in Hc.
  apply list_elem_of_lookup in Hc as [i Hc].
  destruct (lk_child _ Hl _ _ _ _ Hn Hc) as (m&Hm&_).
  apply node_of_lookup in Hm as (cc&Hcc&_). by apply elem_of_dom.
Qed.

(** From a child, the walk along the next siblings visits exactly the
    children after it, in order, and the walk along the previous ones the
    children before it, nearest first; the walks end. *)
Theorem sibling_walks {FS : Type} `{StoreSessionFrame FS} `{Xoshiro} (t : FrameTree FS) (p : FrameId)
    (n : FrameNode) (i : nat) (c : FrameId) :
  linked (arena t) → node_of (arena t) p = Some n → children n !! i = Some c →
  iter_next_siblings c t = (Ok (drop (S i) (children n)), t) ∧
  iter_prev_siblings c t = (Ok (reverse (take i (children n))), t).
Proof.
  intros Hl Hn Hc. destruct (lk_child _ Hl _ _ _ _ Hn Hc) as (m&Hm&_&Hpv&Hnx).
  pose proof (children_bound _ _ _ Hl Hn). pose proof (lookup_lt_Some _ _ _ Hc).
  unfold iter_next_siblings, iter_prev_siblings, gets. rewrite Hm. simpl. rewrite Hpv, Hnx.
  erewrite walk_next, walk_prev by (done || lia). done.
Qed.

(** ** Removal *)

Lemma links_insert (a : Arena) i c :
  a !! i = None → links (<[i := c]> a) = length (children (c_node c)) + links a.
Proof.
  intros Hi. unfold links. rewrite map_fold_insert_L; [done| |done]. intros. lia.
Qed.

Lemma links_delete (a : Arena) i c :
  a !! i = Some c → links a = length (children (c_node c)) + links (delete i a).
Proof.
  intros Hi. rewrite <- (insert_delete_id a i c Hi) at 1. apply links_insert.
  apply lookup_delete_eq.
Qed.

Lemma links_amod f i (a : Arena) :
  (∀ n, length (children (f n)) ≤ length (children n)) → links (amod f i a) ≤ links a.
Proof.
  intros Hf. unfold amod. destruct (a !! i) as [c|] eqn:Hi.
  - rewrite (links_delete a i c Hi).
    rewrite (links_delete (alter (deref_mut f) i a) i (deref_mut f c)) by (rewrite lookup_alter_eq, Hi; done).
    rewrite delete_alter_eq. simpl. pose proof (Hf (c_node c)). lia.
  - by rewrite alter_id by (intros; congruence).
Qed.

Lemma links_detach i (a : Arena) : links (detach i a) ≤ links a.
Proof.
  unfold detach. trans (links (detach_from_siblings i a)).
  - unfold detach_from_parent. case_match; [|done].
    etrans; [apply links_amod; done|]. apply links_amod. intros n. simpl. apply length_filter.
  - unfold detach_from_siblings. case_match; [|done]. etrans; [apply links_amod; done|].
    repeat case_match; repeat (etrans; [apply links_amod; done|]); done.
Qed.

(** What detaching a frame changes: it leaves the children lists of others,
    and nothing else that removal reads. *)
Record shrunk (i : FrameId) (a a' : Arena) : Prop := {
  sh_dom : ∀ j, is_Some (a' !! j) ↔ is_Some (a !! j);
  sh_in : ∀ j c, c ∈ children_in a' j → c ∈ children_in a j;
  sh_keep : ∀ j c, c ∈ children_in a j → c ≠ i → c ∈ children_in a' j;
  sh_key : ∀ j n', node_of a' j = Some n' →
    ∃ n, node_of a j = Some n ∧ session_id n' = session_id n ∧ id n' = id n
}.

Lemma shrunk_refl i a : shrunk i a a.
Proof. split; naive_solver. Qed.

Lemma shrunk_trans i a1 a2 a3 : shrunk i a1 a2 → shrunk i a2 a3 → shrunk i a1 a3.
Proof.
  intros [d1 i1 k1 y1] [d2 i2 k2 y2]. split; [| | |].
  - intros j. by rewrite d2, d1.
  - auto.
  - auto.
  - intros j n (n2&Hn2&Hs&Hi)%y2. destruct (y1 _ _ Hn2) as (n1&Hn1&Hs'&Hi').
    exists n1. split; [done|]. by rewrite Hs, Hi.
Qed.

Lemma shrunk_amod i f j a :
  (∀ n, session_id (f n) = session_id n ∧ id (f n) = id n ∧
        (∀ c, c ∈ children (f n) → c ∈ children n) ∧
        (∀ c, c ∈ children n → c ≠ i → c ∈ children (f n))) →
  shrunk i a (amod f j a).
Proof.
  intros Hf. assert (∀ q, children_in (amod f j a) q =
    if decide (j = q) then default [] ((children ∘ f) <$> node_of a q) else children_in a q) as Hc.
  { intros q. unfold children_in. rewrite node_of_amod. case_decide; [|done].
    by destruct (node_of a q). }
  split.
  - intros q. unfold amod. destruct (decide (j = q)) as [->|Hq].
    + rewrite lookup_alter_eq. by rewrite fmap_is_Some.
    + by rewrite lookup_alter_ne.
  - intros q c. rewrite Hc. case_decide; [|done]. unfold children_in.
    destruct (node_of a q) as [n|]; [apply Hf|done].
  - intros q c. rewrite Hc. unfold children_in. case_decide; [|done].
    destruct (node_of a q) as [n|]; [apply Hf|done].
  - intros q n'. rewrite node_of_amod. case_decide; [|eauto].
    intros (n&Hn&->)%fmap_Some. destruct (Hf n) as (?&?&_). eauto.
Qed.

Lemma shrunk_detach i a : shrunk i a (detach i a).
Proof.
  unfold detach. eapply shrunk_trans.
  - instantiate (1 := detach_from_siblings i a). unfold detach_from_siblings.
    destruct (a !! i) as [c|]; [|apply shrunk_refl].
    eapply shrunk_trans; [|by apply shrunk_amod].
    destruct (prev_sibling _), (next_sibling _); [|..|apply shrunk_refl];
      [|by apply shrunk_amod..].
    by eapply shrunk_trans; apply shrunk_amod.
  - unfold detach_from_parent. case_match; [|apply shrunk_refl].
    eapply shrunk_trans; [|by apply shrunk_amod]. apply shrunk_amod. intros n. simpl.
    split_and!; [done|done|..]; intros c; rewrite list_elem_of_filter; tauto.
Qed.

Section removal.
Context {FS : Type} `{StoreSessionFrame FS} `{Xoshiro}.
Implicit Types t : FrameTree FS.

Lemma remove_one_ok i t cs t' :
  remove_one i t = (Ok cs, t') →
  let a := detach i (arena t) in
  cs = children_in a i ∧ arena t' = base.delete i a ∧
  (∀ n, node_of a i = Some n → fs_view (ft_store t') (session_id n, id n) = None) ∧
  (∀ k, fs_view (ft_store t) k = None → fs_view (ft_store t') k = None).
Proof.
  unfold remove_one, on_arena, modify, gets, mbind, m_bind. simpl.
  set (a := detach i (arena t)). destruct (a !! i) as [c|] eqn:Hc.
  - unfold on_store, m_map_err, zoom, container_delete, mbind, m_bind, mret, m_ret.
    cbn [ft_store set_arena].
    destruct (delete_frame _ _ (ft_store t)) as [[n|e|] s] eqn:Hd; simpl; [|done|done].
    intros [= <- <-]. apply delete_frame_ok in Hd as (Hv&Hv'&Hne).
    unfold children_in, node_of. rewrite Hc. simpl. split_and!; [done| |by intros n0 [= <-]|].
    + by rewrite delete_insert_eq.
    + intros k' Hk'. destruct (decide (k' = (session_id (c_node c), id (c_node c)))) as [->|];
        [done|by rewrite Hne].
  - unfold mret, m_ret. intros [= <- <-]. unfold children_in, node_of. by rewrite Hc.
Qed.

(** Removing a frame always ends: the loop's fuel, one more than the
    links of the arena, is never exhausted, even if the links are cyclic. *)
Theorem remove_terminates t (i : FrameId) : run_res (tree_remove i) t ≠ Ok false.
Proof.
  unfold tree_remove, gets, run_res, mbind, m_bind. simpl.
  assert (∀ fuel stack t, length stack + links (arena t) ≤ fuel →
            (remove_loop fuel stack t).1 ≠ Ok false) as Hloop; [|by apply (Hloop (S (links (arena t))) [i] t)].
  clear t i. induction fuel as [|fuel IH]; intros [|i stack] t Hf; simpl in *; [done|lia|done|].
  unfold mbind at 1, m_bind at 1. destruct (remove_one i t) as [[cs|e|] t'] eqn:E; simpl; try done.
  apply IH. apply remove_one_ok in E as (->&Ha&_). rewrite Ha, length_app, length_reverse.
  pose proof (links_detach i (arena t)) as Hd.
  unfold children_in, node_of. destruct (detach i (arena t) !! i) as [c|] eqn:Hc; simpl.
  - rewrite (links_delete _ _ _ Hc) in Hd. lia.
  - rewrite delete_id by done. lia.
Qed.

Definition descendant (a : Arena) : FrameId → FrameId → Prop :=
  rtc (λ x c, c ∈ children_in a x).

(** The loop, after part of the subtree of [r] in [t0] has gone. *)
Record removing (t0 : FrameTree FS) (r : FrameId) (stack : list FrameId) (t : FrameTree FS) : Prop := {
  rm_dom : ∀ j, is_Some (arena t !! j) → is_Some (arena t0 !! j);
  rm_in : ∀ j c, c ∈ children_in (arena t) j → c ∈ children_in (arena t0) j;
  rm_keep : ∀ j c, is_Some (arena t !! j) → c ∈ children_in (arena t0) j →
    c ∈ children_in (arena t) j ∨ arena t !! c = None;
  rm_key : ∀ j n', node_of (arena t) j = Some n' →
    ∃ n, node_of (arena t0) j = Some n ∧ session_id n' = session_id n ∧ id n' = id n;
  rm_stack : ∀ s, s ∈ stack → descendant (arena t0) r s;
  rm_gone : ∀ j n, node_of (arena t0) j = Some n → arena t !! j = None →
    descendant (arena t0) r j ∧ fs_view (ft_store t) (session_id n, id n) = None ∧
    ∀ c, c ∈ children n → arena t !! c = None ∨ c ∈ stack;
  rm_root : arena t !! r = None ∨ r ∈ stack
}.

Lemma removing_start t r : removing t r [r] t.
Proof.
  split; try naive_solver.
  - intros s ->%list_elem_of_singleton. by apply rtc_refl.
  - intros j n Hn Hj. unfold node_of in Hn. by rewrite Hj in Hn.
  - right. by apply list_elem_of_singleton.
Qed.

Lemma children_in_node (a : Arena) j n : node_of a j = Some n → children_in a j = children n.
Proof. intros Hn. unfold children_in. by rewrite Hn. Qed.

Lemma removing_step t0 r i stack t cs t' :
  removing t0 r (i :: stack) t → remove_one i t = (Ok cs, t') →
  removing t0 r (reverse cs ++ stack) t'.
Proof.
  intros [Hdom Hin Hkeep Hkey Hst Hgone Hroot] Hone.
  apply remove_one_ok in Hone as (->&Ha&Hv&Hv').
  destruct (shrunk_detach i (arena t)) as [Sd Si Sk Sy].
  assert (∀ j, arena t' !! j = None ↔ j = i ∨ arena t !! j = None) as Hnone.
  { intros j. rewrite Ha, lookup_delete_None, !eq_None_not_Some, Sd. naive_solver. }
  assert (∀ j, j ≠ i → children_in (arena t') j = children_in (detach i (arena t)) j) as Hch.
  { intros j Hj. unfold children_in. rewrite Ha, node_of_delete. by rewrite decide_False. }
  assert (children_in (arena t') i = []) as Hchi.
  { unfold children_in. by rewrite Ha, node_of_delete, decide_True. }
  assert (∀ j, is_Some (arena t' !! j) ↔ j ≠ i ∧ is_Some (arena t !! j)) as Hsome.
  { intros j. rewrite <- !not_eq_None_Some, Hnone. tauto. }
  split.
  - intros j [_ Hj]%Hsome. auto.
  - intros j c. destruct (decide (j = i)) as [->|Hj]; [rewrite Hchi; by intros ?%elem_of_nil|].
    rewrite Hch by done. auto.
  - intros j c [Hj Hs]%Hsome Hc. rewrite Hnone, Hch by done.
    destruct (Hkeep _ _ Hs Hc) as [Hc'|]; [|auto].
    destruct (decide (c = i)) as [->|Hci]; auto.
  - intros j n'. rewrite Ha, node_of_delete. case_decide; [done|].
    intros (n1&Hn1&Hs1&Hi1)%Sy. destruct (Hkey _ _ Hn1) as (n0&Hn0&Hs0&Hi0).
    exists n0. split; [done|]. by rewrite Hs1, Hi1.
  - intros s. rewrite elem_of_app, elem_of_reverse. intros [Hs|Hs].
    + eapply rtc_r; [apply (Hst i); left|]. auto.
    + apply Hst. by right.
  - intros j n Hn Hj. apply Hnone in Hj.
    destruct (decide (arena t !! j = None)) as [Hjn|Hjs].
    + destruct (Hgone _ _ Hn Hjn) as (Hd&Hf&Hc). split_and!; [done|auto|].
      intros c [Hcn|Hcs]%Hc; [left; apply Hnone; auto|].
      apply elem_of_cons in Hcs as [->|Hcs]; [left; apply Hnone; auto|].
      right. apply elem_of_app. auto.
    + destruct Hj as [->|]; [|done]. apply not_eq_None_Some in Hjs.
      split; [apply Hst; left|]. split.
      * apply Sd in Hjs as [c Hc]. assert (node_of (detach i (arena t)) i = Some (c_node c)) as Hnc
          by (unfold node_of; by rewrite Hc).
        destruct (Sy _ _ Hnc) as (n1&Hn1&Hs1&Hi1). destruct (Hkey _ _ Hn1) as (n0&Hn0&Hs0&Hi0).
        rewrite Hn in Hn0. injection Hn0 as <-. rewrite <- Hs0, <- Hi0, <- Hs1, <- Hi1. auto.
      * intros c Hc. rewrite <- (children_in_node _ _ _ Hn) in Hc.
        rewrite Hnone, elem_of_app, elem_of_reverse.
        destruct (decide (c = i)); [auto|]. destruct (Hkeep _ _ Hjs Hc); auto.
  - rewrite Hnone, elem_of_app, elem_of_reverse.
    destruct Hroot as [|[->|]%elem_of_cons]; auto.
Qed.

Lemma removing_loop t0 r fuel : ∀ stack t t',
  removing t0 r stack t → remove_loop fuel stack t = (Ok true, t') → removing t0 r [] t'.
Proof.
  induction fuel as [|fuel IH]; intros [|i stack] t t' Hr; simpl; try by intros [= <-].
  intros (cs&t1&Hone&Hloop)%m_bind_ok. eapply IH; [|done]. by eapply removing_step.
Qed.
End removal.

(** C3: when [remove] succeeds, the frames that have gone from the arena are
    exactly the frame and its descendants, and storage holds none of them. *)
Theorem remove_exact {FS : Type} `{StoreSessionFrame FS} `{Xoshiro} (t t' : FrameTree FS)
    (i : FrameId) :
  tree_remove i t = (Ok true, t') →
  ∀ j n, node_of (arena t) j = Some n →
    (arena t' !! j = None ↔ descendant (arena t) i j) ∧
    (arena t' !! j = None → fs_view (ft_store t') (session_id n, id n) = None).
Proof.
  unfold tree_remove, gets, mbind, m_bind. intros Hloop j n Hn.
  apply (removing_loop t i) in Hloop as [_ _ _ _ _ Hgone Hroot]; [|apply removing_start].
  assert (∀ x, descendant (arena t) i x → arena t' !! x = None) as Hdesc.
  { apply rtc_ind_r; [by destruct Hroot as [|?%elem_of_nil]|].
    intros x y Hx Hy IH. unfold children_in in Hy.
    destruct (node_of (arena t) x) as [nx|] eqn:Hnx; [|by apply elem_of_nil in Hy].
    destruct (Hgone _ _ Hnx IH) as (_&_&Hc). by destruct (Hc _ Hy) as [|?%elem_of_nil]. }
  split; [split; [|by apply Hdesc]|]; intros Hj; by apply (Hgone _ _ Hn Hj).
Qed.

(** ** Concrete trees *)

Lemma linked_single i (n : FrameNode) b d :
  id n = i → parent n = None → next_sibling n = None → prev_sibling n = None → children n = [] →
  linked {[i := mkContainer n b d]}.
Proof.
  intros Hi Hp Hnx Hpv Hc.
  assert (∀ j m, node_of {[i := mkContainer n b d]} j = Some m → j = i ∧ m = n) as Hinv.
  { intros j m (c&[<- <-]%lookup_singleton_Some&<-)%node_of_lookup. done. }
  split.
  - by intros j m [-> ->]%Hinv.
  - intros j m [-> ->]%Hinv. rewrite Hc. constructor.
  - intros j m k c [-> ->]%Hinv. by rewrite Hc.
  - intros j m p [-> ->]%Hinv. by rewrite Hp.
  - by intros j m [-> ->]%Hinv.
Qed.

Section examples.
Local Existing Instance counter_rng.
Local Existing Instance canonical_iter.

Definition void_args : NewFrameNodeArgs := args sid0 RefToolCall KVoid.

(** A root alone; then with a first and a second child. *)
Definition root_tree : FrameTree (gmap (SessionId * FrameId) FrameNode) :=
  run_state (tree_set_root void_args)
    (tree_new ∅ sid0 [Some [10%Z]; Some [20%Z]; Some [30%Z]; Some [40%Z]]).
Definition root_id : FrameId := mkFrameId (mkID 10 11).
Definition child1 : FrameId := mkFrameId (mkID 20 21).
Definition child2 : FrameId := mkFrameId (mkID 30 31).
Definition one_child : FrameTree (gmap (SessionId * FrameId) FrameNode) :=
  run_state (tree_append root_id void_args) root_tree.
Definition two_children : FrameTree (gmap (SessionId * FrameId) FrameNode) :=
  run_state (tree_append root_id void_args) one_child.

Lemma root_tree_linked : linked (arena root_tree).
Proof.
  assert (arena root_tree = {[root_id :=
    mkContainer (upd_root true (frame_node_new root_id void_args)) true false]}) as ->
    by (vm_compute; reflexivity).
  by apply linked_single.
Qed.

Lemma tree_insert_spec_witness :
  ∃ t', tree_insert root_id void_args 5 root_tree = (Ok child1, t') ∧
        children_in (arena t') root_id = [child1].
Proof.
  destruct (tree_insert_spec root_tree root_id void_args 5) as (t'&Ht&_&Hc&_).
  - apply root_tree_linked.
  - vm_compute. eauto.
  - vm_compute. reflexivity.
  - exists t'. split; [exact Ht|exact Hc].
Defined.

Lemma append_linked (t : FrameTree (gmap (SessionId * FrameId) FrameNode)) p :
  linked (arena t) → is_Some (arena t !! p) → arena t !! next_frame_id t = None →
  linked (arena (run_state (tree_append p void_args) t)).
Proof.
  intros Hl [c Hp] Hf. unfold tree_append, tree_insert, gets, run_state.
  rewrite m_bind_ret || unfold mbind at 1, m_bind at 1. unfold mbind at 1, m_bind at 1.
  rewrite create_node_eq by done. unfold mbind, m_bind, on_arena, modify, mret, m_ret.
  unfold set_arena. cbn [arena snd]. by eapply Insertion.insert_linked.
Qed.

Lemma two_children_linked : linked (arena two_children).
Proof.
  apply append_linked; [apply append_linked; [apply root_tree_linked|..]|..];
    try (vm_compute; reflexivity); vm_compute; eauto.
Qed.

Lemma sibling_walks_witness :
  iter_next_siblings child1 two_children = (Ok [child2], two_children) ∧
  iter_prev_siblings child1 two_children = (Ok [], two_children).
Proof.
  destruct (node_of (arena two_children) root_id) as [n|] eqn:Hn; [|vm_compute in Hn; discriminate].
  assert (children n = [child1; child2]) as Hc by (vm_compute in Hn; by injection Hn as <-).
  destruct (sibling_walks two_children root_id n 0 child1) as [Hnx Hpv].
  - apply two_children_linked.
  - exact Hn.
  - by rewrite Hc.
  - rewrite Hc in Hnx, Hpv. split; assumption.
Defined.

(** The tree once its frames are saved. *)
Definition saved (t : FrameTree (gmap (SessionId * FrameId) FrameNode)) :
    FrameTree (gmap (SessionId * FrameId) FrameNode) :=
  set_store (map_fold (λ _ c s, run_state (upsert_frame (c_node c)) s) (ft_store t) (arena t)) t.

Lemma remove_exact_witness :
  let t := saved two_children in
  let t' := run_state (tree_remove root_id) t in
  tree_remove root_id t = (Ok true, t') ∧ arena t' !! child2 = None.
Proof.
  intros t t'. assert (tree_remove root_id t = (Ok true, t')) as Hr by (vm_compute; reflexivity).
  split; [exact Hr|].
  destruct (node_of (arena t) child2) as [n|] eqn:Hn; [|vm_compute in Hn; discriminate].
  apply (remove_exact t t' root_id Hr child2 n Hn).
  apply rtc_once. vm_compute. right. left.
Defined.

(** A failed [remove] does not leave the frame intact, although its
    documentation says so: a frame that was never saved is already detached
    from its parent when its deletion fails. *)
Theorem remove_failure_detaches :
  run_res (tree_remove child1) one_child =
    Err (StorageError (EFrame (FrameNotFound sid0 child1))) ∧
  children_in (arena one_child) root_id = [child1] ∧
  children_in (arena (run_state (tree_remove child1) one_child)) root_id = [].
Proof. split_and!; vm_compute; reflexivity. Qed.
End examples.

(** The setters of single policies change nothing: after
    [set_resume_policy] (or the other two) the frame has the policy it had. *)
Theorem policy_setters_ignored {FS : Type} `{StoreSessionFrame FS} `{Xoshiro} (t : FrameTree FS)
    (i : FrameId) (c : FrameNodeContainer) (r : ResumePolicy) (q : ReducePolicy) (o : OnResumePolicy) :
  arena t !! i = Some c →
  set_resume_policy i r t = (Ok (), t) ∧
  set_reduce_policy i q t = (Ok (), t) ∧
  set_on_resume_policy i o t = (Ok (), t).
Proof.
  intros Hi.
  assert (policy_of i t = (Ok (frame_policy (c_node c)), t)) as Hp.
  { unfold policy_of, read_node, tree_get, or_panic, try_get, gets, mbind, m_bind. by rewrite Hi. }
  unfold set_resume_policy, set_reduce_policy, set_on_resume_policy, mbind, m_bind.
  by rewrite Hp.
Qed.

Lemma policy_setters_ignored_witness :
  @set_resume_policy _ (@InMemoryFrames.store canonical_iter) root_id FanIn root_tree =
  (Ok (), root_tree).
Proof.
  destruct (arena root_tree !! root_id) as [c|] eqn:Hc; [|vm_compute in Hc; discriminate].
  apply (@policy_setters_ignored _ (@InMemoryFrames.store canonical_iter) counter_rng
           root_tree root_id c FanIn DontReduce MarkComplete Hc).
Defined.
