(* ===== verification/Snapshots.v ===== *)
(** * Snapshots of frames ([session/snapshot])

    A snapshot is a frame's channels at a superstep.  [SessionSnapshots] keeps
    a cache of containers over a storage backend: [push] only caches, [latest]
    asks the backend. *)

From S2P Require Import Prelude Ids Json Channels Types Frames Errors Catalog.

Record Snapshot := mkSnapshot {
  sn_session_id : SessionId; sn_frame_id : FrameId; sn_superstep : Z;
  sn_channels : Channels; join_sources : list SnapshotRef;
  sn_created_at : Z; pin_count : Z }.

(** [Snapshot::new]; [now] is the clock. *)
Definition snapshot_new (now : Z) (s : SessionId) (f : FrameId) (superstep : Z)
    (channels : Channels) (sources : list SnapshotRef) : Snapshot :=
  mkSnapshot s f superstep channels sources now 0.

Definition sn_ref (s : Snapshot) : SnapshotRef :=
  mkSnapshotRef (sn_session_id s) (sn_frame_id s) (sn_superstep s).

(** ** Storage *)

Class StoreSessionSnapshot (S : Type) := {
  ss_view : S → SnapshotRef → option Snapshot;
  latest_snapshot : SessionId → FrameId → M S Error Snapshot;
  snapshot_at : SessionId → FrameId → Z → M S Error Snapshot;
  upsert_snapshot : Snapshot → M S Error ();

  latest_snapshot_ok : ∀ sid f s n s', latest_snapshot sid f s = (Ok n, s') →
    s' = s ∧ ss_view s (sn_ref n) = Some n ∧ sn_session_id n = sid ∧ sn_frame_id n = f ∧
    ∀ m, ss_view s (sn_ref m) = Some m → sn_session_id m = sid → sn_frame_id m = f →
      (sn_superstep m ≤ sn_superstep n)%Z;
  snapshot_at_ok : ∀ sid f k s n s', snapshot_at sid f k s = (Ok n, s') →
    s' = s ∧ ss_view s (mkSnapshotRef sid f k) = Some n;
  upsert_snapshot_ok : ∀ n s s', upsert_snapshot n s = (Ok (), s') →
    ss_view s' (sn_ref n) = Some n ∧ ∀ r, r ≠ sn_ref n → ss_view s' r = ss_view s r
}.

Module InMemorySnapshots.
(** [max_by_key]: the last of the greatest elements. *)
Definition max_step (best : option Snapshot) (x : Snapshot) : option Snapshot :=
  match best with
  | None => Some x
  | Some b => if (sn_superstep x <? sn_superstep b)%Z then Some b else Some x
  end.
Definition max_by_superstep (l : list Snapshot) : option Snapshot := foldl max_step None l.

Definition of_frame (sid : SessionId) (f : FrameId) (p : SnapshotRef * Snapshot) : Prop :=
  sn_session_id p.2 = sid ∧ sn_frame_id p.2 = f.
#[global] Instance of_frame_dec sid f p : Decision (of_frame sid f p).
Proof. unfold of_frame. apply _. Defined.

(** The map of the Rust store is keyed by the triple of a reference. *)
Definition latest `{HashIter} (sid : SessionId) (f : FrameId)
    : M (gmap SnapshotRef Snapshot) Error Snapshot := λ s,
  (of_option (ESnapshotNotFound sid f 0)
     (max_by_superstep (snd <$> filter (of_frame sid f) (hash_iter s))), s).

Definition at_superstep (sid : SessionId) (f : FrameId) (k : Z)
    : M (gmap SnapshotRef Snapshot) Error Snapshot := λ s,
  (of_option (ESnapshotNotFound sid f k) (s !! mkSnapshotRef sid f k), s).

Definition upsert (n : Snapshot) : M (gmap SnapshotRef Snapshot) Error () := λ s,
  (Ok (), <[sn_ref n := n]> s).

Lemma max_spec l b :
  (∀ x, b = Some x ∨ x ∈ l → ∃ y, foldl max_step b l = Some y ∧
     (b = Some y ∨ y ∈ l) ∧ (sn_superstep x ≤ sn_superstep y)%Z).
Proof.
  revert b. induction l as [|z l IH]; intros b x Hx; simpl.
  - destruct Hx as [->|?%elem_of_nil]; [|done]. exists x. split_and!; auto. lia.
  - destruct (max_step b z) as [w|] eqn:Hw; [|unfold max_step in Hw; repeat case_match; done].
    assert (∀ v, b = Some v ∨ v = z → (sn_superstep v ≤ sn_superstep w)%Z) as Hle.
    { intros v Hv. unfold max_step in Hw. destruct b as [b|]; [|destruct Hv; simplify_eq; lia].
      destruct (Z.ltb_spec (sn_superstep z) (sn_superstep b)); simplify_eq; destruct Hv; simplify_eq; lia. }
    assert (b = Some w ∨ w = z) as Hbw.
    { unfold max_step in Hw. destruct b as [b|]; [|simplify_eq; auto]. case_match; simplify_eq; auto. }
    rewrite elem_of_cons in Hx.
    assert (x ∈ l ∨ (b = Some x ∨ x = z)) as [Hin|Hin] by tauto.
    + destruct (IH (Some w) x (or_intror Hin)) as (y&Hy&Hin'&Hxy). exists y. split; [done|].
      split; [|done]. rewrite elem_of_cons. destruct Hin'; simplify_eq; tauto.
    + destruct (IH (Some w) w (or_introl eq_refl)) as (y&Hy&Hin'&Hxy). exists y. split; [done|].
      split; [rewrite elem_of_cons; destruct Hin'; simplify_eq; tauto|].
      specialize (Hle _ Hin). lia.
Qed.

(** Stored under its own reference, as [upsert] does. *)
Definition keyed (s : gmap SnapshotRef Snapshot) : Prop := ∀ r n, s !! r = Some n → r = sn_ref n.

Lemma snapshots_keyed_empty : keyed ∅.
Proof. intros r n Hr. by rewrite lookup_empty in Hr. Qed.
Lemma snapshots_keyed_upsert n s : keyed s → keyed (run_state (upsert n) s).
Proof.
  intros Hs r m. unfold run_state, upsert. simpl.
  intros [[<- <-]|[_ Hr]]%lookup_insert_Some; [done|]. by apply Hs.
Qed.

Lemma latest_spec `{HashIter} sid f s n s' :
  keyed s → latest sid f s = (Ok n, s') →
  s' = s ∧ s !! sn_ref n = Some n ∧ sn_session_id n = sid ∧ sn_frame_id n = f ∧
  ∀ m, s !! sn_ref m = Some m → sn_session_id m = sid → sn_frame_id m = f →
    (sn_superstep m ≤ sn_superstep n)%Z.
Proof.
  intros Hk. unfold latest. intros [= Hn <-]. split; [done|].
  destruct (max_by_superstep _) as [n'|] eqn:Hm; simplify_eq/=.
  assert (∀ x, x ∈ snd <$> filter (of_frame sid f) (hash_iter s) ↔
               s !! sn_ref x = Some x ∧ sn_session_id x = sid ∧ sn_frame_id x = f) as Hin.
  { intros x. rewrite list_elem_of_fmap. split.
    - intros ([r y]&->&[[Hs Hf] Hy]%list_elem_of_filter). simpl in *.
      apply elem_of_hash_iter in Hy. by rewrite <- (Hk _ _ Hy).
    - intros (Hx&Hs&Hf). exists (sn_ref x, x). split; [done|].
      apply list_elem_of_filter. split; [done|]. by apply elem_of_hash_iter. }
  unfold max_by_superstep in Hm.
  assert (n ∈ snd <$> filter (of_frame sid f) (hash_iter s)) as Hnin.
  { destruct (snd <$> filter (of_frame sid f) (hash_iter s)) as [|x l] eqn:E; [done|].
    destruct (max_spec (x :: l) None x) as (y&Hy&[?|?]&_); [right; left|done|].
    rewrite Hm in Hy. by injection Hy as ->. }
  apply Hin in Hnin as (?&?&?). split_and!; try done.
  intros m Hmm Hms Hmf.
  destruct (max_spec (snd <$> filter (of_frame sid f) (hash_iter s)) None m) as (y&Hy&_&Hle).
  { right. by apply Hin. }
  rewrite Hm in Hy. by injection Hy as <-.
Qed.
End InMemorySnapshots.

(** The in-memory backend over the maps it builds. *)
Record KeyedSnapshots := mkKeyed {
  keyed_map : gmap SnapshotRef Snapshot; keyed_proof : InMemorySnapshots.keyed keyed_map }.

Definition keyed_store_upsert (n : Snapshot) (s : KeyedSnapshots) : KeyedSnapshots :=
  mkKeyed (run_state (InMemorySnapshots.upsert n) (keyed_map s))
    (InMemorySnapshots.snapshots_keyed_upsert n _ (keyed_proof s)).
Definition keyed_store_empty : KeyedSnapshots := mkKeyed ∅ InMemorySnapshots.snapshots_keyed_empty.

#[export] Instance in_memory_snapshots `{HashIter} : StoreSessionSnapshot KeyedSnapshots.
Proof.
  refine {|
    ss_view := λ s r, keyed_map s !! r;
    latest_snapshot := λ sid f s, ((InMemorySnapshots.latest sid f (keyed_map s)).1, s);
    snapshot_at := λ sid f k s, ((InMemorySnapshots.at_superstep sid f k (keyed_map s)).1, s);
    upsert_snapshot := λ n s, (Ok (), keyed_store_upsert n s) |}.
  - intros sid f s n s' [= Hn <-]. split; [done|].
    by apply (InMemorySnapshots.latest_spec sid f (keyed_map s) n (keyed_map s));
      [apply keyed_proof|rewrite <- Hn].
  - intros sid f k s n s' [= Hn <-]. split; [done|].
    by destruct (keyed_map s !! _); simplify_eq/=.
  - intros n s s' [= <-]. simpl. unfold run_state, InMemorySnapshots.upsert. simpl.
    rewrite lookup_insert_eq. split; [done|]. intros r Hr. by rewrite lookup_insert_ne.
Defined.

(** ** The cache *)

Record SnapshotContainer := mkSnapContainer { snapshot : Snapshot; sc_dirty : bool }.

Record SessionSnapshots (SS : Type) := mkSnapshots {
  sns_store : SS;
  sns_session_id : SessionId;
  sns_cache : gmap SnapshotRef SnapshotContainer;
  (** saves started by dropped containers, not yet done *)
  sns_spawned : list Snapshot
}.
Arguments mkSnapshots {SS}.
Arguments sns_store {SS}.
Arguments sns_session_id {SS}.
Arguments sns_cache {SS}.
Arguments sns_spawned {SS}.

Definition snapshots_new {SS} (store : SS) (sid : SessionId) : SessionSnapshots SS :=
  mkSnapshots store sid ∅ [].

Section snapshots.
Context {SS : Type} `{StoreSessionSnapshot SS}.
Notation SM := (M (SessionSnapshots SS) SessionError).

Definition sn_on_store {A} (m : M SS Error A) : SM A :=
  m_map_err StorageError
    (zoom sns_store (λ s t, mkSnapshots s (sns_session_id t) (sns_cache t) (sns_spawned t)) m).

(** [Cache::insert]: dropping a displaced unsaved snapshot starts its save. *)
Definition sn_insert (r : SnapshotRef) (c : SnapshotContainer) : SM () := modify (λ t,
  let dropped := match sns_cache t !! r with
                 | Some old => if sc_dirty old then [snapshot old] else []
                 | None => [] end in
  mkSnapshots (sns_store t) (sns_session_id t) (<[r := c]> (sns_cache t))
    (sns_spawned t ++ dropped)).

(** [SnapshotContainer::flush] *)
Definition sn_flush (c : SnapshotContainer) : M SS Error SnapshotContainer :=
  if negb (sc_dirty c) then mret c
  else _ ← upsert_snapshot (snapshot c); mret (mkSnapContainer (snapshot c) false).

Definition push (s : Snapshot) : SM SnapshotRef :=
  _ ← sn_insert (sn_ref s) (mkSnapContainer s true); mret (sn_ref s).

Definition sn_try_get (f : FrameId) (superstep : Z) : SM Snapshot := λ t,
  let r := mkSnapshotRef (sns_session_id t) f superstep in
  match sns_cache t !! r with
  | Some c => (Ok (snapshot c), t)
  | None =>
      (s ← sn_on_store (snapshot_at (sns_session_id t) f superstep);
       _ ← modify (λ t, mkSnapshots (sns_store t) (sns_session_id t)
              (<[r := mkSnapContainer s false]> (sns_cache t)) (sns_spawned t));
       mret s) t
  end.

Definition sn_get (f : FrameId) (superstep : Z) : SM Snapshot := or_panic (sn_try_get f superstep).

Definition latest_of (f : FrameId) : SM Snapshot :=
  sid ← gets sns_session_id;
  s ← sn_on_store (latest_snapshot sid f);
  _ ← sn_insert (sn_ref s) (mkSnapContainer s false);
  mret s.

(** One of the started saves completes; its error is only traced. *)
Definition run_spawned : SM () := λ t,
  match sns_spawned t with
  | [] => (Ok (), t)
  | s :: rest =>
      (ignore (sn_on_store (upsert_snapshot s)))
        (mkSnapshots (sns_store t) (sns_session_id t) (sns_cache t) rest)
  end.
End snapshots.

(** ** Properties *)

Section laws.
Context {SS : Type} `{StoreSessionSnapshot SS}.

Lemma latest_of_eq f (t : SessionSnapshots SS) :
  run_res (latest_of f) t =
  map_err StorageError (run_res (latest_snapshot (sns_session_id t) f) (sns_store t)).
Proof.
  unfold latest_of, gets, sn_on_store, m_map_err, zoom, run_res, mbind, m_bind, sn_insert, modify.
  simpl. by destruct (latest_snapshot _ _ _) as [[] ?].
Qed.

Lemma latest_of_ok f (t t' : SessionSnapshots SS) n :
  latest_of f t = (Ok n, t') →
  run_res (latest_snapshot (sns_session_id t) f) (sns_store t) = Ok n ∧
  sns_store t' = sns_store t ∧ sns_session_id t' = sns_session_id t ∧
  sn_session_id n = sns_session_id t ∧ sn_frame_id n = f.
Proof.
  unfold latest_of, gets, sn_on_store, m_map_err, zoom, mbind, m_bind, sn_insert, modify, run_res.
  simpl. destruct (latest_snapshot (sns_session_id t) f (sns_store t)) as [[x|e|] s] eqn:E; simpl;
    [|done|done].
  unfold mret, m_ret. intros [= -> <-]. apply latest_snapshot_ok in E as (->&_&Hs&Hf&_). done.
Qed.
End laws.

(** A pushed snapshot is not what [latest] reads next: it answers from
    storage, as if nothing had been pushed. *)
Theorem push_not_visible {SS : Type} `{StoreSessionSnapshot SS} (t : SessionSnapshots SS)
    (s : Snapshot) (f : FrameId) :
  run_res (latest_of f) (run_state (push s) t) = run_res (latest_of f) t.
Proof. by rewrite !latest_of_eq. Qed.

(** A pushed snapshot is what [get] at its superstep returns. *)
Theorem push_get {SS : Type} `{StoreSessionSnapshot SS} (t : SessionSnapshots SS) (s : Snapshot) :
  sn_session_id s = sns_session_id t →
  run_res (sn_get (sn_frame_id s) (sn_superstep s)) (run_state (push s) t) = Ok s.
Proof.
  intros Hs. unfold sn_get, or_panic, sn_try_get, run_res, run_state, push, sn_insert, modify,
    mbind, m_bind, mret, m_ret. simpl. rewrite <- Hs. fold (sn_ref s).
  by rewrite lookup_insert_eq.
Qed.

Definition snap0 (k : Z) : Snapshot := snapshot_new 0 sid0 (fid 1) k ∅ [].

Lemma push_get_witness :
  let S := @in_memory_snapshots canonical_iter in
  run_res (@sn_get _ S (fid 1) 3) (run_state (@push _ (snap0 3)) (snapshots_new keyed_store_empty sid0))
  = Ok (snap0 3).
Proof. intros S. apply (@push_get _ S (snapshots_new keyed_store_empty sid0) (snap0 3)). reflexivity. Defined.

(** [latest] returns the stored snapshot of the frame with the greatest
    superstep, and changes no stored snapshot. *)
Theorem latest_is_newest {SS : Type} `{StoreSessionSnapshot SS} (t t' : SessionSnapshots SS)
    (f : FrameId) (n m : Snapshot) :
  latest_of f t = (Ok n, t') →
  sns_store t' = sns_store t ∧ ss_view (sns_store t) (sn_ref n) = Some n ∧
  (ss_view (sns_store t) (sn_ref m) = Some m → sn_session_id m = sns_session_id t →
   sn_frame_id m = f → (sn_superstep m ≤ sn_superstep n)%Z).
Proof.
  intros (Hl&Hst&_)%latest_of_ok.
  destruct (latest_snapshot (sns_session_id t) f (sns_store t)) as [r s] eqn:E.
  unfold run_res in Hl. rewrite E in Hl. simpl in Hl. subst r.
  apply latest_snapshot_ok in E as (_&Hv&_&_&Hmax). split_and!; [done|done|]. apply Hmax.
Qed.

Lemma latest_is_newest_witness :
  let S := @in_memory_snapshots canonical_iter in
  let t := snapshots_new (keyed_store_upsert (snap0 2) (keyed_store_upsert (snap0 7) keyed_store_empty)) sid0 in
  ss_view (sns_store t) (sn_ref (snap0 7)) = Some (snap0 7).
Proof.
  intros S t.
  apply (@latest_is_newest _ S t (run_state (@latest_of _ S (fid 1)) t) (fid 1) (snap0 7) (snap0 2)).
  vm_compute. reflexivity.
Defined.
