(* ===== verification/Sessions.v ===== *)
(** * Sessions and their journal
    ([session/model.rs], [session/store/mod.rs], [entity.rs], [session/logs],
    [session/protocol.rs]) *)

From S2P Require Import Prelude Ids Json Types Frames Errors.
From stdpp Require Import sorting.

Inductive SessionStatus := StPending | StArchived | StOngoing | StFailed (msg : string).

Record Session := mkSession {
  s_id : SessionId; root_frame : option FrameId; s_status : SessionStatus;
  s_created_at : Z; s_last_updated_at : Z }.

(** [Session::new]; [now] is the clock. *)
Definition session_new (now : Z) (i : SessionId) : Session := mkSession i None StPending now now.

Definition set_session_status (st : SessionStatus) (s : Session) : Session :=
  mkSession (s_id s) (root_frame s) st (s_created_at s) (s_last_updated_at s).

(** ** The journal's entries and the events *)

Inductive SessionLogContent :=
  | Plain (text : string)
  | ToolLog (label : string) (input output : Value)
  | AgentLog (label : string) (content : Value).

Record SessionLog := mkSessionLog {
  sl_id : SessionLogId; sl_session_id : SessionId; sl_content : SessionLogContent;
  sl_created_at : Z; sl_last_updated_at : Z }.

Inductive SessionEvent :=
  | EvHitlAnswered (r : HitlResponse)
  | EvHitlRequested (r : HitlRequest)
  | EvLogCreated (l : SessionLog)
  | EvLogUpdated (l : SessionLog)
  | EvStatusUpdated (s : SessionId) (st : SessionStatus).

(** [SessionEvent::session_id], [id] and [topics]. *)
Definition event_session_id (e : SessionEvent) : SessionId :=
  match e with
  | EvHitlAnswered r => hres_session_id r
  | EvHitlRequested r => hreq_session_id r
  | EvLogCreated l | EvLogUpdated l => sl_session_id l
  | EvStatusUpdated s _ => s
  end.

Definition session_topic : string := "/marie/events/sessions".
Definition session_scope_topic (s : SessionId) : string :=
  "/marie/events/sessions/" +:+ ID_to_string (session_id_ s).

(** An answered request carries the session's identifier, not its own. *)
Definition event_id (e : SessionEvent) : string :=
  match e with
  | EvHitlAnswered r => ID_to_string (session_id_ (hres_session_id r))
  | EvHitlRequested r => ID_to_string (hitl_id_ (hreq_id r))
  | EvLogCreated l | EvLogUpdated l => ID_to_string (session_log_id_ (sl_id l))
  | EvStatusUpdated s _ => ID_to_string (session_id_ s)
  end.

Definition event_topics (e : SessionEvent) : list string :=
  [session_topic; session_scope_topic (event_session_id e)].

(** ** The in-memory stores *)

Notation HitlFrames := (gmap (SessionId * HitlId) HitlFrame) (only parsing).
Notation LogMap := (gmap (SessionId * SessionLogId) SessionLog) (only parsing).

Module InMemoryLogs.
Definition insert_log (l : SessionLog) : M LogMap Error () := λ s,
  (Ok (),
   match s !! (sl_session_id l, sl_id l) with
   | Some old =>
       <[(sl_session_id l, sl_id l) := mkSessionLog (sl_id old) (sl_session_id old) (sl_content l)
           (sl_created_at old) (sl_last_updated_at l)]> s
   | None => <[(sl_session_id l, sl_id l) := l]> s
   end).

(** [sort_by_key(|log| log.created_at)]: a stable sort. *)
Fixpoint insert_by_date (x : SessionLog) (l : list SessionLog) : list SessionLog :=
  match l with
  | [] => [x]
  | y :: l => if (sl_created_at x <=? sl_created_at y)%Z then x :: y :: l
              else y :: insert_by_date x l
  end.
Definition sort_by_date (l : list SessionLog) : list SessionLog := foldr insert_by_date [] l.

Definition list_log `{HashIter} (sid : SessionId) : M LogMap Error (list SessionLog) := λ s,
  (Ok (sort_by_date (filter (λ l, sl_session_id l = sid) (hash_iter s).*2)), s).

Record SearchLogQuery := mkQuery { q_after : option Z; q_before : option Z }.

Definition in_query (q : SearchLogQuery) (l : SessionLog) : bool :=
  match q_after q with None => true | Some a => (a <? sl_created_at l)%Z end &&
  match q_before q with None => true | Some b => (sl_created_at l <? b)%Z end.

Definition list_log_after `{HashIter} (sid : SessionId) (q : SearchLogQuery)
    : M LogMap Error (list SessionLog) := λ s,
  (Ok (sort_by_date (filter (λ l, sl_session_id l = sid ∧ in_query q l = true)
         (hash_iter s).*2)), s).

Lemma insert_by_date_perm x l : insert_by_date x l ≡ₚ x :: l.
Proof.
  induction l as [|y l IH]; simpl; [done|]. case_match; [done|].
  rewrite IH. apply Permutation_swap.
Qed.

Lemma sort_by_date_perm l : sort_by_date l ≡ₚ l.
Proof. induction l as [|x l IH]; simpl; [done|]. by rewrite insert_by_date_perm, IH. Qed.

Definition older (x y : SessionLog) : Prop := (sl_created_at x ≤ sl_created_at y)%Z.

Lemma insert_by_date_sorted x l :
  StronglySorted older l → StronglySorted older (insert_by_date x l).
Proof.
  induction 1 as [|y l Hl IH Hy]; simpl; [by repeat constructor|].
  destruct (Z.leb_spec (sl_created_at x) (sl_created_at y)).
  - constructor; [by constructor|]. constructor; [done|].
    eapply Forall_impl; [done|]. unfold older. intros; lia.
  - constructor; [done|]. rewrite insert_by_date_perm. constructor; [unfold older; lia|done].
Qed.

Lemma sort_by_date_sorted l : StronglySorted older (sort_by_date l).
Proof. induction l; simpl; [constructor|]. by apply insert_by_date_sorted. Qed.
End InMemoryLogs.

Module InMemoryHitls.
Definition get_hitl_frame (sid : SessionId) (h : HitlId) : M HitlFrames Error HitlFrame := λ s,
  (of_option (EHitlNotFound sid h) (s !! (sid, h)), s).
Definition get_hitl (sid : SessionId) (h : HitlId) : M HitlFrames Error Hitl :=
  f ← get_hitl_frame sid h; mret (hf_hitl f).
Definition upsert_hitl_frame (f : HitlFrame) : M HitlFrames Error () := λ s,
  (Ok (), <[(hf_session_id f, hf_id f) := f]> s).
Definition list_unanswered `{HashIter} (sid : SessionId) : M HitlFrames Error (list HitlFrame) := λ s,
  (Ok (filter (λ f, hf_session_id f = sid ∧ hf_answer f = None) (hash_iter s).*2), s).
Definition write_hitl_response (sid : SessionId) (h : HitlId) (answers : Answers)
    : M HitlFrames Error () :=
  f ← get_hitl_frame sid h;
  upsert_hitl_frame (mkHitlFrame (hf_session_id f) (hf_id f) (hf_hitl f) (Some answers)).
Definition list_pending `{HashIter} (sid : SessionId) : M HitlFrames Error (list PendingHitl) :=
  l ← list_unanswered sid;
  mret ((λ f, mkPendingHitl (hf_session_id f) (hf_id f) (hf_hitl f)) <$> l).
End InMemoryHitls.

Record SessionView := mkView {
  v_id : SessionId; v_status : SessionStatus; v_logs : list SessionLog; v_pendings : list PendingHitl }.

Record InMemorySessionStore := mkSessionStore {
  st_sessions : gmap SessionId Session;
  st_hitls : HitlFrames;
  st_logs : LogMap }.

Module InMemorySessions.
Notation SM := (M InMemorySessionStore Error).

Definition on_hitls {A} (m : M HitlFrames Error A) : SM A :=
  zoom st_hitls (λ h s, mkSessionStore (st_sessions s) h (st_logs s)) m.
Definition on_logs {A} (m : M LogMap Error A) : SM A :=
  zoom st_logs (λ l s, mkSessionStore (st_sessions s) (st_hitls s) l) m.

Definition get_session (i : SessionId) : SM Session := λ s,
  (of_option (ESessionNotFound i) (st_sessions s !! i), s).
Definition session_exists (i : SessionId) : SM bool := λ s,
  (Ok (bool_decide (is_Some (st_sessions s !! i))), s).
Definition upsert_session (x : Session) : SM () := λ s,
  (Ok (), mkSessionStore (<[s_id x := x]> (st_sessions s)) (st_hitls s) (st_logs s)).
Definition delete_session (i : SessionId) : SM Session := λ s,
  match st_sessions s !! i with
  | None => (Err (ESessionNotFound i), s)
  | Some x => (Ok x, mkSessionStore (base.delete i (st_sessions s)) (st_hitls s) (st_logs s))
  end.
Definition list_sessions `{HashIter} : SM (list Session) := λ s,
  (Ok (hash_iter (st_sessions s)).*2, s).
Definition get_session_view `{HashIter} (i : SessionId) : SM SessionView :=
  x ← get_session i;
  logs ← on_logs (InMemoryLogs.list_log i);
  pendings ← on_hitls (InMemoryHitls.list_pending i);
  mret (mkView (s_id x) (s_status x) logs pendings).
End InMemorySessions.

(** ** [UnitOfWork] over the session store: [insert] and [replace] are
    [upsert_session]. *)

Record UnitOfWork := mkUow { entity : Session; uow_dirty : bool; uow_create : bool; uow_deleted : bool }.

Definition uow_new (x : Session) : UnitOfWork := mkUow x false false false.

(** [Deref] and [DerefMut] panic once the entity is deleted. *)
Definition uow_deref {E} (u : UnitOfWork) : Res E Session :=
  if uow_deleted u then Panic else Ok (entity u).
Definition uow_deref_mut {E} (f : Session → Session) (u : UnitOfWork) : Res E UnitOfWork :=
  if uow_deleted u then Panic else Ok (mkUow (f (entity u)) true (uow_create u) (uow_deleted u)).

Definition uow_flush (u : UnitOfWork) : M InMemorySessionStore Error UnitOfWork :=
  if uow_dirty u then
    _ ← match uow_create u, uow_deleted u with
        | true, true => mret ()
        | true, false => InMemorySessions.upsert_session (entity u)
        | false, true => ignore (InMemorySessions.delete_session (s_id (entity u)))
        | false, false => InMemorySessions.upsert_session (entity u)
        end;
    mret (mkUow (entity u) false (uow_create u) (uow_deleted u))
  else mret u.

(** ** The journal service ([session/logs/mod.rs]) *)

Section logs.
Context `{Xoshiro}.

Record SessionLogs := mkLogs {
  lg_session_id : SessionId; lg_store : LogMap; lg_id : IdGenerator;
  lg_events : list SessionEvent; lg_now : Z }.

Definition lg_emit (e : SessionEvent) : M SessionLogs Error () := modify (λ s,
  mkLogs (lg_session_id s) (lg_store s) (lg_id s) (lg_events s ++ [e]) (lg_now s)).
Definition lg_insert (l : SessionLog) : M SessionLogs Error () :=
  zoom lg_store (λ st s, mkLogs (lg_session_id s) st (lg_id s) (lg_events s) (lg_now s))
    (InMemoryLogs.insert_log l).
Definition lg_next_id : M SessionLogs Error SessionLogId := λ s,
  let '(i, g) := next_id (lg_id s) in
  (Ok (mkSessionLogId i), mkLogs (lg_session_id s) (lg_store s) g (lg_events s) (lg_now s)).

Definition log (content : SessionLogContent) : M SessionLogs Error SessionLogId :=
  i ← lg_next_id;
  s ← get;
  let l := mkSessionLog i (lg_session_id s) content (lg_now s) (lg_now s) in
  _ ← lg_insert l;
  _ ← lg_emit (EvLogCreated l);
  mret i.

Definition replace_log (i : SessionLogId) (content : SessionLogContent) : M SessionLogs Error () :=
  s ← get;
  let l := mkSessionLog i (lg_session_id s) content (lg_now s) (lg_now s) in
  _ ← lg_insert l;
  lg_emit (EvLogUpdated l).

(** Replacing a journal entry keeps its creation date and its place,
    sets its content and its update date, and announces one update. *)
Theorem replace_log_spec (s s' : SessionLogs) (i : SessionLogId) (content : SessionLogContent)
    (old : SessionLog) :
  lg_store s !! (lg_session_id s, i) = Some old →
  replace_log i content s = (Ok (), s') →
  lg_store s' !! (lg_session_id s, i) =
    Some (mkSessionLog (sl_id old) (sl_session_id old) content (sl_created_at old) (lg_now s)) ∧
  (∀ k, k ≠ (lg_session_id s, i) → lg_store s' !! k = lg_store s !! k) ∧
  lg_events s' = lg_events s ++
    [EvLogUpdated (mkSessionLog i (lg_session_id s) content (lg_now s) (lg_now s))].
Proof.
  intros Hold. unfold replace_log, get, lg_insert, zoom, InMemoryLogs.insert_log, lg_emit, modify,
    mbind, m_bind. simpl. rewrite Hold. intros [= <-]. simpl. rewrite lookup_insert_eq.
  split_and!; [done| |done]. intros k Hk. by rewrite lookup_insert_ne.
Qed.
End logs.

(** The journal of a session is every entry written for it, oldest first,
    whatever the order of the hash map. *)
Theorem list_log_sorted `{HashIter} (sid : SessionId) (s : LogMap) :
  ∃ l, InMemoryLogs.list_log sid s = (Ok l, s) ∧ StronglySorted InMemoryLogs.older l ∧
       ∀ x, x ∈ l ↔ sl_session_id x = sid ∧ ∃ k, s !! k = Some x.
Proof.
  eexists. split; [reflexivity|]. split; [apply InMemoryLogs.sort_by_date_sorted|].
  intros x. rewrite InMemoryLogs.sort_by_date_perm, list_elem_of_filter, list_elem_of_fmap.
  split.
  - intros [Hx ([k y]&->&Hin%elem_of_hash_iter)]. eauto.
  - intros [Hx [k Hk]]. split; [done|]. exists (k, x). split; [done|]. by apply elem_of_hash_iter.
Qed.

(** The sessions announced as waiting for a human are the requests of the
    session that hold no answer. *)
Theorem pending_are_unanswered `{HashIter} (sid : SessionId) (s : HitlFrames) :
  ∃ l, InMemoryHitls.list_pending sid s = (Ok l, s) ∧
       ∀ p, p ∈ l ↔ ∃ k f, s !! k = Some f ∧ hf_answer f = None ∧ hf_session_id f = sid ∧
                            p = mkPendingHitl (hf_session_id f) (hf_id f) (hf_hitl f).
Proof.
  unfold InMemoryHitls.list_pending, InMemoryHitls.list_unanswered, mbind, m_bind, mret, m_ret.
  eexists. split; [reflexivity|]. intros p. rewrite list_elem_of_fmap. split.
  - intros (f&->&[[Hs Ha] Hf]%list_elem_of_filter). apply list_elem_of_fmap in Hf as ([k y]&->&Hin).
    apply elem_of_hash_iter in Hin. exists k, y. done.
  - intros (k&f&Hf&Ha&Hs&->). exists f. split; [done|]. apply list_elem_of_filter. split; [done|].
    apply list_elem_of_fmap. exists (k, f). split; [done|]. by apply elem_of_hash_iter.
Qed.

Lemma replace_log_spec_witness :
  let i := mkSessionLogId (mkID 1 1) in
  let old := mkSessionLog i sid0 (Plain "a") 3 3 in
  let s := @mkLogs counter_rng sid0 {[(sid0, i) := old]}
             (@new_from_seed counter_rng [5%Z]) [] 9 in
  lg_store (run_state (@replace_log counter_rng i (Plain "b")) s) !! (sid0, i) =
  Some (mkSessionLog i sid0 (Plain "b") 3 9).
Proof.
  intros i old s.
  apply (@replace_log_spec counter_rng s (run_state (@replace_log counter_rng i (Plain "b")) s)
           i (Plain "b") old).
  - apply lookup_singleton_eq.
  - reflexivity.
Defined.

(** The documentation of [Session] says a store stamps the dates itself; the
    in-memory store keeps the caller's. *)
Lemma upsert_keeps_dates (x : Session) (s : InMemorySessionStore) :
  run_res (InMemorySessions.get_session (s_id x))
    (run_state (InMemorySessions.upsert_session x) s) = Ok x.
Proof.
  unfold run_res, run_state, InMemorySessions.get_session, InMemorySessions.upsert_session. simpl.
  by rewrite lookup_insert_eq.
Qed.
