(* ===== verification/Hitl.v ===== *)
(** * Human in the loop ([hitl/model.rs], [hitl/service.rs])

    A frame asks a human a question; the answer is stored, checked against
    the question and announced. *)

From Stdlib Require Import Ascii.
From S2P Require Import Prelude Ids Json Types Frames Errors Sessions.

(** ** Text operations of the standard library *)

(** Case mapping and white space follow the Unicode tables; on ASCII text
    they are the tables below. *)
Definition ascii_lower (c : ascii) : ascii :=
  let n := nat_of_ascii c in
  if (65 <=? n)%nat && (n <=? 90)%nat then ascii_of_nat (n + 32) else c.

Fixpoint map_string (f : ascii → ascii) (s : string) : string :=
  match s with EmptyString => EmptyString | String c s => String (f c) (map_string f s) end.

Definition is_ascii_space (c : ascii) : bool :=
  let n := nat_of_ascii c in (n =? 32)%nat || ((9 <=? n)%nat && (n <=? 13)%nat).

Fixpoint all_chars (f : ascii → bool) (s : string) : bool :=
  match s with EmptyString => true | String c s => f c && all_chars f s end.

Definition is_ascii_string (s : string) : bool := all_chars (λ c, (nat_of_ascii c <? 128)%nat) s.

Class Unicode := {
  to_lowercase : string → string;
  trim_is_empty : string → bool;
  to_lowercase_ascii : ∀ s, is_ascii_string s = true → to_lowercase s = map_string ascii_lower s;
  trim_ascii : ∀ s, is_ascii_string s = true → trim_is_empty s = all_chars is_ascii_space s
}.

Definition ascii_only : Unicode := {|
  to_lowercase := map_string ascii_lower;
  trim_is_empty := all_chars is_ascii_space;
  to_lowercase_ascii := λ s _, eq_refl;
  trim_ascii := λ s _, eq_refl
|}.

(** [str::ends_with] *)
Definition ends_with (s suffix : string) : bool :=
  let n := String.length s in
  let k := String.length suffix in
  (k <=? n)%nat && bool_decide (String.substring (n - k) k s = suffix).

(** ** Validation *)

Section validation.
Context `{Unicode}.

Definition one_of (options : list string) (choice : string) : bool :=
  bool_decide (choice ∈ options).

Definition validate_one (q : Question) (a : Answer) : Res HitlError () :=
  match q_kind q, a with
  | (ShortText | LongText), Single _ => Ok ()
  | (Select options | Radio options), Single choice =>
      if negb (one_of options choice)
      then Err (ValidationError (NotAnOption choice (q_key q))) else Ok ()
  | Checkboxes options, Multiple choices =>
      match list_find (λ c, one_of options c = false) choices with
      | Some (_, invalid) => Err (ValidationError (NotAnOption invalid (q_key q)))
      | None => Ok ()
      end
  | FileUpload accept, Single filename =>
      if trim_is_empty filename then Err (ValidationError (MissingFilename (q_key q)))
      else
        let accepted := bool_decide (accept = []) ||
          existsb (λ ext, ends_with (to_lowercase filename) (to_lowercase ext)) accept in
        if negb accepted then Err (ValidationError (BadExtension filename (q_key q))) else Ok ()
  | _, _ => Err (ValidationError (WrongShape (q_key q)))
  end.

Fixpoint validate_answers (questions : list Question) (answers : Answers) : Res HitlError Answers :=
  match questions with
  | [] => Ok answers
  | q :: questions =>
      match answers !! q_key q with
      | None => Err (ValidationError (MissingAnswer (q_key q)))
      | Some a => _ ← validate_one q a; validate_answers questions answers
      end
  end.

(** The answer a question accepts, as the documentation of [QuestionKind]
    tells it. *)
Inductive fits : QuestionKind → Answer → Prop :=
  | fits_short s : fits ShortText (Single s)
  | fits_long s : fits LongText (Single s)
  | fits_select options s : s ∈ options → fits (Select options) (Single s)
  | fits_radio options s : s ∈ options → fits (Radio options) (Single s)
  | fits_checkboxes options l : Forall (.∈ options) l → fits (Checkboxes options) (Multiple l)
  | fits_any_file s : trim_is_empty s = false → fits (FileUpload []) (Single s)
  | fits_file accept s ext : trim_is_empty s = false → ext ∈ accept →
      ends_with (to_lowercase s) (to_lowercase ext) = true → fits (FileUpload accept) (Single s).

Lemma validate_one_spec q a : validate_one q a = Ok () ↔ fits (q_kind q) a.
Proof.
  unfold validate_one, one_of. split.
  - destruct (q_kind q) as [| |o|o|o|acc], a as [s|l]; try done; try (intros; constructor; fail).
    1,2: case_bool_decide; [intros _; by constructor|done].
    + destruct (list_find _ l) as [[]|] eqn:E; [done|]. intros _. constructor.
      apply list_find_None in E. eapply Forall_impl; [exact E|]. intros x Hx.
      by apply not_false_iff_true, bool_decide_eq_true in Hx.
    + destruct (trim_is_empty s) eqn:Ht; [done|].
      destruct (bool_decide_reflect (acc = [])) as [->|]; simpl; [intros _; by constructor|].
      destruct (existsb _ acc) eqn:Ex; [|done]. intros _.
      apply existsb_exists in Ex as (ext&Hin&He). econstructor; [done| |done].
      by apply list_elem_of_In.
  - destruct 1 as [s|s|o s Ho|o s Ho|o l Hl|s Hs|acc s ext Hs Hin He]; try done.
    1,2: by rewrite bool_decide_true by done.
    + destruct (list_find _ l) as [[i x]|] eqn:E; [|done].
      apply list_find_Some in E as (Hx&Hf&_). apply bool_decide_eq_false in Hf.
      by rewrite Forall_lookup in Hl; apply Hl in Hx.
    + by rewrite Hs.
    + rewrite Hs. destruct (existsb _ acc) eqn:Ex; [by rewrite orb_true_r|].
      apply not_true_iff_false in Ex. destruct Ex. apply existsb_exists. exists ext.
      split; [by apply list_elem_of_In|done].
Qed.

(** Answers are accepted exactly when every question has an answer of
    the shape and with the values its kind allows; they are then returned
    unchanged. *)
Theorem validate_answers_spec (questions : list Question) (answers r : Answers) :
  validate_answers questions answers = Ok r ↔
    r = answers ∧ Forall (λ q, ∃ a, answers !! q_key q = Some a ∧ fits (q_kind q) a) questions.
Proof.
  induction questions as [|q questions IH]; simpl.
  - split; [intros [= <-]; by split|by intros [-> _]].
  - rewrite Forall_cons. destruct (answers !! q_key q) as [a|] eqn:Ha.
    + rewrite res_bind_ok. split.
      * intros ([]&Hv&[-> Hf]%IH). apply validate_one_spec in Hv. naive_solver.
      * intros (->&(a'&[= <-]&Hf)&Hq). exists (). split; [by apply validate_one_spec|].
        apply IH. by split.
    + split; [done|]. intros (_&(a&?&_)&_). done.
Qed.

(** The question has an answer of a shape and with a value its kind allows. *)
Definition answered_well (answers : Answers) (q : Question) : Prop :=
  ∃ a, answers !! q_key q = Some a ∧ fits (q_kind q) a.

(** The key of the question that a refusal names. *)
Definition refusal_key (why : Refusal) : string :=
  match why with
  | MissingAnswer key | NotAnOption _ key | MissingFilename key | BadExtension _ key | WrongShape key => key
  end.

Lemma validate_one_refusal q a e :
  validate_one q a = Err e →
  ∃ why, e = ValidationError why ∧ refusal_key why = q_key q ∧ ∀ key, why ≠ MissingAnswer key.
Proof. unfold validate_one. intros Hv. repeat case_match; simplify_eq; by eexists. Qed.

Lemma validate_one_total q a : validate_one q a ≠ Panic.
Proof. unfold validate_one. by repeat case_match. Qed.
End validation.

(** C17: answers are returned, unchanged, when every question has one that fits
    it; otherwise they are refused for the first question, in the order of the
    request, that has none: the refusal names that question, and says that
    the answer is missing exactly when it is. *)
Theorem validate_answers_exact `{Unicode} (questions : list Question) (answers : Answers) :
  match validate_answers questions answers with
  | Ok r => r = answers ∧ Forall (answered_well answers) questions
  | Err (ValidationError why) =>
      ∃ before q after, questions = before ++ q :: after ∧
        Forall (answered_well answers) before ∧ ¬ answered_well answers q ∧ refusal_key why = q_key q ∧
        (why = MissingAnswer (q_key q) ↔ answers !! q_key q = None)
  | _ => False
  end.
Proof.
  induction questions as [|q questions IH]; simpl; [done|].
  destruct (answers !! q_key q) as [a|] eqn:Ha; simpl.
  2: { exists [], q, questions. split_and!; [done..| |done|done].
       intros (a&Ha'&_). congruence. }
  destruct (validate_one q a) as [[]|e|] eqn:Hv; simpl.
  - apply validate_one_spec in Hv. assert (answered_well answers q) by by exists a.
    destruct (validate_answers questions answers) as [r|[e|why]|]; [|done| |done].
    + destruct IH as [-> IH]. split; [done|]. by constructor.
    + destruct IH as (before&q'&after&->&Hb&IH). exists (q :: before), q', after.
      split; [done|]. split; [by constructor|done].
  - destruct (validate_one_refusal q a e Hv) as (why&->&Hk&Hm).
    exists [], q, questions. split_and!; [done..| |done|].
    + intros (a'&Ha'&Hf%validate_one_spec). congruence.
    + split; [by intros ?%Hm|congruence].
  - by apply validate_one_total in Hv.
Qed.

(** ** The service *)

Section service.
Context `{Xoshiro} `{Unicode}.

Record SessionHitls := mkHitls {
  h_session_id : SessionId; h_store : HitlFrames; h_id : IdGenerator;
  h_events : list SessionEvent }.
Notation HM := (M SessionHitls HitlError).

Definition h_on_store {A} (m : M HitlFrames Error A) : HM A :=
  m_map_err HStorage
    (zoom h_store (λ st s, mkHitls (h_session_id s) st (h_id s) (h_events s)) m).
Definition h_emit (e : SessionEvent) : HM () := modify (λ s,
  mkHitls (h_session_id s) (h_store s) (h_id s) (h_events s ++ [e])).
Definition h_next_id : HM HitlId := λ s,
  let '(i, g) := next_id (h_id s) in
  (Ok (mkHitlId i), mkHitls (h_session_id s) (h_store s) g (h_events s)).

Definition reply (i : HitlId) (answers : Answers) : HM HitlId :=
  sid ← gets h_session_id;
  _ ← h_on_store (InMemoryHitls.write_hitl_response sid i answers);
  hitl ← h_on_store (InMemoryHitls.get_hitl sid i);
  answers ← match hitl with
            | Questions questions => lift (validate_answers questions answers)
            | Text => mret answers
            end;
  _ ← h_emit (EvHitlAnswered (mkHitlResponse sid i answers));
  mret i.

Definition request (hitl : Hitl) : HM HitlId :=
  i ← h_next_id;
  sid ← gets h_session_id;
  _ ← h_on_store (InMemoryHitls.upsert_hitl_frame (mkHitlFrame sid i hitl None));
  _ ← h_emit (EvHitlRequested (mkHitlRequest sid i hitl));
  mret i.

(** The questions a stored request carries accept these answers. *)
Definition accepted_by (h : Hitl) (answers : Answers) : Prop :=
  match h with
  | Questions qs => Forall (λ q, ∃ a, answers !! q_key q = Some a ∧ fits (q_kind q) a) qs
  | Text => True
  end.

Lemma reply_eq i answers s f :
  h_store s !! (h_session_id s, i) = Some f →
  hf_session_id f = h_session_id s → hf_id f = i →
  reply i answers s =
    let stored := mkHitls (h_session_id s)
      (<[(h_session_id s, i) := mkHitlFrame (h_session_id s) i (hf_hitl f) (Some answers)]> (h_store s))
      (h_id s) (h_events s) in
    match (match hf_hitl f with Questions qs => validate_answers qs answers | Text => Ok answers end) with
    | Ok a => (Ok i, mkHitls (h_session_id s) (h_store stored) (h_id s)
                 (h_events s ++ [EvHitlAnswered (mkHitlResponse (h_session_id s) i a)]))
    | Err e => (Err e, stored)
    | Panic => (Panic, stored)
    end.
Proof.
  intros Hf Hs Hi. unfold reply, gets, h_on_store, m_map_err, zoom, InMemoryHitls.get_hitl,
    InMemoryHitls.write_hitl_response, InMemoryHitls.get_hitl_frame,
    InMemoryHitls.upsert_hitl_frame, mbind, m_bind, mret, m_ret. simpl.
  rewrite Hf. simpl. rewrite Hs, Hi, lookup_insert_eq. simpl.
  destruct (hf_hitl f); simpl; [|done]. unfold lift. by destruct (validate_answers _ _).
Qed.
End service.

(** Replying to a stored request is announced exactly when the answers fit
    its questions; but the answers are stored in both cases, so a refused
    reply also ends the wait of the request. *)
Theorem reply_spec `{Xoshiro} `{Unicode} (s : SessionHitls) (i : HitlId) (answers : Answers)
    (f : HitlFrame) :
  h_store s !! (h_session_id s, i) = Some f →
  hf_session_id f = h_session_id s → hf_id f = i →
  let s' := run_state (reply i answers) s in
  (accepted_by (hf_hitl f) answers →
     run_res (reply i answers) s = Ok i ∧
     h_events s' = h_events s ++ [EvHitlAnswered (mkHitlResponse (h_session_id s) i answers)]) ∧
  (¬ accepted_by (hf_hitl f) answers →
     (∃ why, run_res (reply i answers) s = Err (ValidationError why)) ∧ h_events s' = h_events s) ∧
  h_store s' !! (h_session_id s, i) = Some (mkHitlFrame (h_session_id s) i (hf_hitl f) (Some answers)).
Proof.
  intros Hf Hs Hi s'. unfold s', run_state, run_res. rewrite (reply_eq i answers s f) by done.
  cbv zeta. destruct (hf_hitl f) as [qs|]; simpl; [|by rewrite lookup_insert_eq].
  destruct (validate_answers qs answers) as [a|e|] eqn:E; simpl; rewrite lookup_insert_eq.
  - apply validate_answers_spec in E as [-> Hfit]. split_and!; [done| |done]. by intros [].
  - split_and!; [|intros _; split; [|done]|done].
    + intros Hfit. assert (validate_answers qs answers = Ok answers) as E'
        by (apply validate_answers_spec; by split). congruence.
    + clear -E. revert e E. induction qs as [|q qs IH]; intros e; simpl; [done|].
      destruct (answers !! q_key q) as [x|]; [|intros [= <-]; eauto].
      destruct (validate_one q x) as [[]|e'|] eqn:Ev; simpl.
      * apply IH.
      * intros [= ->]. unfold validate_one in Ev. repeat case_match; simplify_eq; eauto.
      * done.
  - exfalso. revert E. clear. induction qs as [|q qs IH]; simpl; [done|].
    destruct (answers !! q_key q) as [x|]; [|done].
    destruct (validate_one q x) as [[]|e'|] eqn:Ev; simpl; [done|done|].
    unfold validate_one in Ev. repeat case_match; simplify_eq.
Qed.

(** A choice outside the options, replied to a stored question. *)
Definition env_question : Question := mkQuestion "env" "Environment?" (Select ["prod"; "staging"]).
Definition env_frame : HitlFrame :=
  mkHitlFrame sid0 (mkHitlId (mkID 1 1)) (Questions [env_question]) None.
Definition env_hitls : @SessionHitls counter_rng :=
  @mkHitls counter_rng sid0 {[(sid0, mkHitlId (mkID 1 1)) := env_frame]}
    (@new_from_seed counter_rng [7%Z]) [].

Lemma reply_spec_witness :
  let answers := {["env" := Single "dev"]} in
  let s' := run_state (@reply counter_rng ascii_only (mkHitlId (mkID 1 1)) answers) env_hitls in
  h_events s' = [] ∧
  hf_answer <$> h_store s' !! (sid0, mkHitlId (mkID 1 1)) = Some (Some answers).
Proof.
  intros answers s'.
  destruct (@reply_spec counter_rng ascii_only env_hitls (mkHitlId (mkID 1 1)) answers env_frame)
    as (_&Hno&Hst); [apply lookup_singleton_eq|reflexivity|reflexivity|].
  split; [|exact (f_equal (fmap hf_answer) Hst)].
  apply Hno. intros [(a&Ha&Hfit) _]%Forall_cons.
  assert (a = Single "dev") as -> by (vm_compute in Ha; by injection Ha as <-).
  inversion Hfit as [| |o x Hin| | | |]. revert Hin.
  apply (bool_decide_unpack (_ ∉ _)). vm_compute. exact I.
Defined.

(** ** A request in memory

    [HitlContainer] holds a request of the store and writes it back once it was
    borrowed to be changed. *)

Record HitlContainer := mkHitlContainer { hitl_frame : HitlFrame; hitl_dirty : bool }.
Notation CM := (M HitlFrames Error).

(** [from_loaded], [from_hitl] and [new] *)
Definition hitl_from_loaded (f : HitlFrame) : HitlContainer := mkHitlContainer f false.
Definition hitl_from_hitl (f : HitlFrame) : HitlContainer := mkHitlContainer f true.
Definition hitl_container_new (sid : SessionId) (h : HitlId) : CM HitlContainer :=
  f ← InMemoryHitls.get_hitl_frame sid h; mret (hitl_from_loaded f).

(** A change through [deref_mut] *)
Definition hitl_deref_mut (change : HitlFrame → HitlFrame) (c : HitlContainer) : HitlContainer :=
  mkHitlContainer (change (hitl_frame c)) true.

Definition hitl_flush (c : HitlContainer) : CM HitlContainer :=
  if hitl_dirty c
  then _ ← InMemoryHitls.upsert_hitl_frame (hitl_frame c); mret (hitl_from_loaded (hitl_frame c))
  else mret c.

(** [drop]: the task that it spawns, whose error is logged. *)
Definition hitl_drop (c : HitlContainer) : CM () :=
  if hitl_dirty c then ignore (InMemoryHitls.upsert_hitl_frame (hitl_frame c)) else mret ().

(** A request that was loaded and not borrowed is never written; after changes,
    a flush stores the last value under its key and touches no other key, and
    neither another flush nor the drop writes again. *)
Theorem hitl_container_writes_back (sid : SessionId) (h : HitlId) (changes : list (HitlFrame → HitlFrame))
    (s : HitlFrames) (f : HitlFrame) :
  s !! (sid, h) = Some f →
  ∃ c, hitl_container_new sid h s = (Ok c, s) ∧
    let c' := foldl (λ c change, hitl_deref_mut change c) c changes in
    let last := foldl (λ f change, change f) f changes in
    let s' := if decide (changes = []) then s else <[(hf_session_id last, hf_id last) := last]> s in
    hitl_flush c' s = (Ok (hitl_from_loaded last), s') ∧
    hitl_drop c' s = (Ok (), s') ∧
    hitl_flush (hitl_from_loaded last) s' = (Ok (hitl_from_loaded last), s') ∧
    hitl_drop (hitl_from_loaded last) s' = (Ok (), s').
Proof.
  intros Hf. exists (hitl_from_loaded f). split.
  { unfold hitl_container_new, InMemoryHitls.get_hitl_frame, mbind, m_bind. by rewrite Hf. }
  intros c' last s'.
  assert (c' = mkHitlContainer last (negb (bool_decide (changes = [])))) as ->.
  { subst c' last. destruct changes as [|change changes]; [done|].
    rewrite (bool_decide_false (_ :: _ = [])) by done. simpl. unfold hitl_deref_mut at 2. simpl.
    generalize (change f). induction changes as [|change' changes IH]; intros f'; simpl; [done|]. apply IH. }
  subst s'. clearbody last. destruct (decide (changes = [])) as [->|Hne]; [done|]. by rewrite bool_decide_false.
Qed.

Lemma hitl_container_writes_back_witness :
  let answer f := mkHitlFrame (hf_session_id f) (hf_id f) (hf_hitl f) (Some ∅) in
  ∃ c, hitl_container_new sid0 (mkHitlId (mkID 1 1)) (h_store env_hitls) = (Ok c, h_store env_hitls) ∧
    (hitl_drop (hitl_deref_mut answer c) (h_store env_hitls)).2 !! (sid0, mkHitlId (mkID 1 1)) = Some (answer env_frame).
Proof.
  intros answer.
  destruct (hitl_container_writes_back sid0 (mkHitlId (mkID 1 1)) [answer] (h_store env_hitls) env_frame)
    as (c&Hc&_&Hd&_); [reflexivity|].
  exists c. split; [exact Hc|].
  transitivity ((<[(sid0, mkHitlId (mkID 1 1)) := answer env_frame]> (h_store env_hitls)) !! (sid0, mkHitlId (mkID 1 1)));
    [|apply lookup_insert_eq].
  exact (f_equal (λ r, r.2 !! (sid0, mkHitlId (mkID 1 1))) Hd).
Defined.
