(* ===== verification/Checkpointer.v ===== *)
(** * The checkpointer ([session/checkpointer/mod.rs])

    One per session: it reacts to events by running frames, growing the tree,
    committing snapshots and waking parents.  Its state gathers the tree, the
    snapshots, the requests to humans and what it sends to others. *)

From S2P Require Import Prelude Ids Json Channels Types Spec RunLog Catalog Domains Frames Wire Errors Tree Snapshots Sessions Hitl.

(** ** What it exchanges *)

Inductive SessionCheckpointEvent :=
  | SessionCreated (s : SessionId)
  | CkHitlAnswered (s : SessionId) (r : HitlResponse)
  | FrameCreated (s : SessionId) (f : FrameId)
  | FrameRunJobStateUpdate (s : SessionId) (f : FrameId) (j : JobState FrameResponse)
  | FrameReady (s : SessionId) (f : FrameId)
  | FrameRunTerminated (s : SessionId) (f : FrameId)
  | ChildFrameTerminated (s : SessionId) (parent child : FrameId)
  | FrameTerminated (s : SessionId) (f : FrameId).

Definition ckp_event_session_id (e : SessionCheckpointEvent) : SessionId :=
  match e with
  | SessionCreated s | CkHitlAnswered s _ | FrameCreated s _ | FrameRunJobStateUpdate s _ _
  | FrameReady s _ | FrameRunTerminated s _ | ChildFrameTerminated s _ _ | FrameTerminated s _ => s
  end.

(** What the graph catalogue promises. *)
Class GraphSource := {
  src_latest : GraphId → Res CatalogError (option GraphRef);
  src_get : GraphRef → Res CatalogError GraphSpec
}.

(** A catalogue of the domain is such a source, at any of its states. *)
Definition graphs_at {S : Type} `{StoreCatalog S} `{JsonCodec GraphSpec} (d : Domain S CommonSpec) :
    GraphSource := {|
  src_latest := λ g, run_res (graphs_latest g) d;
  src_get := λ r, run_res (graphs_get r) d
|}.

(** The text of an error, [to_string]. *)
Class ErrorText := {
  error_text : SessionError → string;
  worker_error_text : WorkerError → string;
  (** the message that counts the children that failed *)
  child_failure : nat → string
}.

Inductive CkpStatus := Initialising | CkRunning | Closing | Closed.

Section checkpointer.
Context {FS SS : Type} `{StoreSessionFrame FS} `{StoreSessionSnapshot SS}.
Context `{Xoshiro} `{Unicode} `{HashIter} `{F64} `{GraphSource} `{ErrorText}.

Record Checkpointer := mkCkp {
  ck_session_id : SessionId;
  ck_frames : FrameTree FS;
  ck_snapshots : SessionSnapshots SS;
  ck_hitls : SessionHitls;
  ck_id : IdGenerator;
  (** the events sent to the controller, oldest first *)
  ck_listeners : list SessionCheckpointEvent;
  (** the runs given to the workers, and what the next ones will meet *)
  ck_jobs : list RunFrameArgs;
  ck_worker : list (option WorkerError);
  ck_now : Z
}.
Notation CM := (M Checkpointer SessionError).

Definition on_frames {A} (m : M (FrameTree FS) SessionError A) : CM A :=
  zoom ck_frames (λ t c, mkCkp (ck_session_id c) t (ck_snapshots c) (ck_hitls c) (ck_id c)
    (ck_listeners c) (ck_jobs c) (ck_worker c) (ck_now c)) m.
Definition on_snapshots {A} (m : M (SessionSnapshots SS) SessionError A) : CM A :=
  zoom ck_snapshots (λ t c, mkCkp (ck_session_id c) (ck_frames c) t (ck_hitls c) (ck_id c)
    (ck_listeners c) (ck_jobs c) (ck_worker c) (ck_now c)) m.
Definition on_hitls {A} (m : M SessionHitls HitlError A) : CM A :=
  m_map_err SHitlError
    (zoom ck_hitls (λ t c, mkCkp (ck_session_id c) (ck_frames c) (ck_snapshots c) t (ck_id c)
      (ck_listeners c) (ck_jobs c) (ck_worker c) (ck_now c)) m).

Definition ck_next_id : CM ID := λ c,
  let '(i, g) := next_id (ck_id c) in
  (Ok i, mkCkp (ck_session_id c) (ck_frames c) (ck_snapshots c) (ck_hitls c) g
    (ck_listeners c) (ck_jobs c) (ck_worker c) (ck_now c)).

Definition emit (e : SessionCheckpointEvent) : CM () := modify (λ c,
  mkCkp (ck_session_id c) (ck_frames c) (ck_snapshots c) (ck_hitls c) (ck_id c)
    (ck_listeners c ++ [e]) (ck_jobs c) (ck_worker c) (ck_now c)).

(** [WorkerClient::spawn::<RunFrame>]: the arguments are encoded first, and
    the call panics when they cannot be. *)
Definition worker_spawn (a : RunFrameArgs) : CM () := λ c,
  let rest := tail (ck_worker c) in
  match run_frame_args_to_value a with
  | Err _ | Panic => (Panic, c)
  | Ok _ =>
      match default None (head (ck_worker c)) with
      | Some e => (Err (SWorkerError e),
          mkCkp (ck_session_id c) (ck_frames c) (ck_snapshots c) (ck_hitls c) (ck_id c)
            (ck_listeners c) (ck_jobs c) rest (ck_now c))
      | None => (Ok (),
          mkCkp (ck_session_id c) (ck_frames c) (ck_snapshots c) (ck_hitls c) (ck_id c)
            (ck_listeners c) (ck_jobs c ++ [a]) rest (ck_now c))
      end
  end.

Definition sid : CM SessionId := gets ck_session_id.

Definition spec_of (f : FrameId) : CM CommonSpec :=
  on_frames (common_spec_of (λ r, gs_common <$> src_get r) f).

(** ** Marks *)

Definition mark_as_waiting_children (f : FrameId) : CM () :=
  on_frames (set_status f SWaitingChildren).

Definition mark_frame_run_completed (f : FrameId) (r : FrameResponse) : CM () :=
  _ ← on_frames (set_status f (SRunCompleted r));
  s ← sid; emit (FrameRunTerminated s f).

Definition mark_frame_run_failed (f : FrameId) (error : string) : CM () :=
  _ ← on_frames (set_status f (SRunFailed error));
  s ← sid; emit (FrameRunTerminated s f).

Definition mark_ready_to_run_frame (f : FrameId) : CM () :=
  _ ← on_frames (set_status f SReady);
  s ← sid; emit (FrameReady s f).

Definition mark_failed_frame (err : string) (f : FrameId) : CM () :=
  _ ← on_frames (set_status f (SFailed err));
  s ← sid; emit (FrameTerminated s f).

Definition mark_completed_frame (f : FrameId) : CM () :=
  _ ← on_frames (set_status f SCompleted);
  s ← sid;
  _ ← emit (FrameTerminated s f);
  p ← on_frames (parent_of f);
  match p with
  | Some p => emit (ChildFrameTerminated s p f)
  | None => mret ()
  end.

(** ** Running a frame *)

Definition run_frame (f : FrameId) : CM () :=
  snap ← on_snapshots (latest_of f);
  logs ← on_frames (logs_of f);
  s ← sid;
  data ← on_frames (data_of f);
  worker_spawn (mkRunFrameArgs s f (sn_channels snap) logs data).

(** ** Inheritance *)

Definition ck_set_root (a : NewFrameNodeArgs) (initial : Channels) : CM FrameId :=
  f ← on_frames (tree_set_root a);
  _ ← on_frames (write_node f (λ n, upd_inherited (initial ∪ fn_inherited n) n));
  mret f.

(** The values of the named channels, where they have one. *)
Definition select_channels (names : list ChannelName) (c : Channels) : list (ChannelName * Value) :=
  omap (λ n, (λ v, (n, v)) <$> channels_get c n) names.

Definition extend_inherited (l : list (ChannelName * Value)) (n : FrameNode) : FrameNode :=
  upd_inherited (channels_extend (fn_inherited n) l) n.

Definition write_to_inherited_channels (f : FrameId) (values : Channels) : CM () :=
  spec ← spec_of f;
  _ ← on_frames (try_get f);
  on_frames (write_node f (extend_inherited (select_channels (inherited_channels spec) values))).

(** Both [inherit_from_parent] and [inherit_from_prev_sibling], once the
    frame to inherit from is known. *)
Definition inherit_from (source f : FrameId) : CM () :=
  snap ← on_snapshots (latest_of source);
  spec ← spec_of f;
  on_frames (write_node f (λ n,
    upd_superstep (sn_superstep snap)
      (extend_inherited (select_channels (inherited_channels spec) (sn_channels snap)) n))).

Definition inherit_from_parent (f : FrameId) : CM () :=
  p ← on_frames (parent_of f);
  match p with Some p => inherit_from p f | None => mret () end.

Definition inherit_from_prev_sibling (f : FrameId) : CM () :=
  p ← on_frames (prev_sibling_of f);
  match p with Some p => inherit_from p f | None => mret () end.

Definition append_frame (p : FrameId) (a : NewFrameNodeArgs) : CM FrameId :=
  f ← on_frames (tree_append p a);
  policy ← on_frames (policy_of p);
  spec ← spec_of f;
  _ ← on_frames (write_node f (λ n,
        upd_inherited (default_values spec ∪ fn_inherited n) n));
  _ ← (if decide (resume_policy policy = Sequential) then
         cs ← on_frames (iter_children_of p);
         match cs with
         | _ :: _ => inherit_from_prev_sibling f
         | [] => inherit_from_parent f
         end
       else inherit_from_parent f);
  s ← sid;
  _ ← emit (FrameCreated s f);
  mret f.

(** ** Collecting the children's channels *)

Definition push_value (m : gmap string (list Value)) (name : ChannelName) (v : Value) :
    gmap string (list Value) := <[name := default [] (m !! name) ++ [v]]> m.

Definition drain_one (parent_spec : CommonSpec) (acc : gmap string (list Value)) (child : FrameId)
    : CM (gmap string (list Value)) :=
  spec ← spec_of child;
  snap ← on_snapshots (latest_of child);
  mret (foldl (λ m exported,
    if decide (exported ∈ imported_channels parent_spec) then
      match channels_get (sn_channels snap) exported with
      | Some v => push_value m exported v
      | None => m
      end
    else m) acc (exported_channels spec)).

Fixpoint drain_all (parent_spec : CommonSpec) (acc : gmap string (list Value))
    (relevants : list FrameId) : CM (gmap string (list Value)) :=
  match relevants with
  | [] => mret acc
  | c :: relevants => acc ← drain_one parent_spec acc c; drain_all parent_spec acc relevants
  end.

Definition drain_pending_accumulators (f : FrameId) (relevants : list FrameId)
    : CM (list ChannelUpdate) :=
  parent_spec ← spec_of f;
  per_channel ← drain_all parent_spec ∅ relevants;
  mret (mjoin ((λ '(name, vs), (λ v, mkChannelUpdate name v f) <$> vs) <$> hash_iter per_channel)).

(** The value a child resolves a pending entry with. *)
Definition resolved_value (content : RunLogContent) (r : FrameSpecRef) (channels : Channels)
    (sub_spec : CommonSpec) : option Value :=
  match content, r with
  | HitlLog _, RefHitl => channels_get channels "hitl_answer"
  | ConsultExpertsLog _, RefExpertAggregator => channels_get channels "expert_consultation_answer"
  | CallToolsLog _, RefToolAggregator => channels_get channels "tool_result"
  | GraphLog _, RefGraph _ =>
      Some (Object (foldl (λ m p, obj_insert p.1 p.2 m) []
        (select_channels (exported_channels sub_spec) channels)))
  | _, _ => None
  end.

Definition needs_spec (content : RunLogContent) (r : FrameSpecRef) : bool :=
  match content, r with GraphLog _, RefGraph _ => true | _, _ => false end.

Fixpoint resolve_from (f : FrameId) (pending : RunLog) (relevants : list FrameId) : CM () :=
  match relevants with
  | [] => mret ()
  | c :: relevants =>
      r ← on_frames (spec_ref_of c);
      snap ← on_snapshots (latest_of c);
      sub ← (if needs_spec (rl_content pending) r then spec_of c else mret spec_default);
      match resolved_value (rl_content pending) r (sn_channels snap) sub with
      | Some v => on_frames (resolve_log f (rl_index pending) v)
      | None => resolve_from f pending relevants
      end
  end.

Definition resolve_pending_log (f : FrameId) (relevants : list FrameId) : CM () :=
  pending ← on_frames (pending_log_of f);
  match pending with
  | None => mret ()
  | Some pending => resolve_from f pending relevants
  end.

(** ** Committing *)

Definition group_updates (updates : list ChannelUpdate) : gmap string (list Value) :=
  foldl (λ m u, push_value m (cu_name u) (cu_value u)) ∅ updates.

Definition reducer_in (spec : CommonSpec) (name : ChannelName) : Reducer :=
  default LastWriteWins (cs_reducer ∘ snd <$> list_find (λ c, cs_name c = name) (spec_channels spec)).

Definition apply_updates (spec : CommonSpec) (per_channel : list (ChannelName * list Value))
    (channels : Channels) : Channels :=
  foldl (λ ch '(name, contributions),
    channels_write ch name (reduce (reducer_in spec name) (channels_get ch name) contributions))
    channels per_channel.

(** [superstep + 1] wraps at 32 bits, as in a release build. *)
Definition commit_snapshot (f : FrameId) (expected : Z) (updates : list ChannelUpdate)
    (join_sources : list SnapshotRef) : CM SnapshotRef :=
  last ← on_snapshots (latest_of f);
  if decide (sn_superstep last ≠ expected) then throw (StaleSuperstep expected (sn_superstep last))
  else
    let per_channel := group_updates updates in
    channels ← (if decide (per_channel = ∅) then mret (sn_channels last)
                else spec ← spec_of f;
                     mret (apply_updates spec (hash_iter per_channel) (sn_channels last)));
    s ← sid;
    now ← gets ck_now;
    on_snapshots (push (snapshot_new now s f (wrap32 (expected + 1)) channels join_sources)).

(** ** Growing the tree *)

Definition graph_args (s : SessionId) (g : GraphRef) (data : FrameKind) (p : FramePolicy) :
    NewFrameNodeArgs := mkArgs s (RefGraph g) data ∅ None p false 0.

Definition fail_fast (r : ResumePolicy) (start : OnStartPolicy) : FramePolicy :=
  mkFramePolicy (FailIfAtLeastHasFailed 1) r DontReduce ResumeRunFrame start.

Definition append_graph_node (p : FrameId) (g : GraphRef) (node_id : GraphNodeId) : CM () :=
  s ← sid;
  _ ← append_frame p (graph_args s g (KGraphNode g node_id) policy_default);
  mret ().

Definition append_graph_thread (p : FrameId) (g : GraphRef) (start : GraphNodeId) : CM FrameId :=
  s ← sid;
  t ← append_frame p (graph_args s g (KGraphThread g) (fail_fast Sequential StartRunFrame));
  _ ← mark_as_waiting_children t;
  _ ← append_graph_node t g start;
  mret t.

Definition append_branch (span : FrameId) (g : GraphRef) (b : Branch) : CM () :=
  f ← append_graph_thread span g (br_start b);
  if decide (br_overrides b = ∅) then mret ()
  else write_to_inherited_channels f (br_overrides b).

Definition append_graph_span (p : FrameId) (g : GraphRef) (branches : list Branch)
    (join : GraphNodeId) : CM () :=
  s ← sid;
  span ← append_frame p (graph_args s g (KGraphSpan g join) (fail_fast FanIn StartRunFrame));
  _ ← mark_as_waiting_children span;
  mfor branches (append_branch span g).

Definition append_graph (p : FrameId) (graph_id : GraphId) : CM () :=
  g ← lift (map_err SCatalogError (src_latest graph_id));
  g ← lift (of_option (GraphNotFound graph_id) g);
  spec ← lift (map_err SCatalogError (src_get g));
  s ← sid;
  f ← append_frame p (graph_args s g (KGraph g)
        (fail_fast Sequential (AppendGraphThread g (gs_entry spec))));
  mark_as_waiting_children f.

Definition append_hitl (f : FrameId) (h : Hitl) : CM FrameId :=
  i ← on_hitls (request h);
  s ← sid;
  append_frame f (args s RefHitl (KHitl i)).

(** The future of [write_to_inherited_channels] is dropped: the expert's
    identifier and task are not written. *)
Definition append_expert_consultation (p : FrameId) (r : RequestAskExpert) : CM FrameId :=
  s ← sid;
  append_frame p (args s RefExpert KExpertConsultation).

Definition append_experts_consultations (callee : FrameId) (requests : list RequestAskExpert) : CM () :=
  mfor requests (λ r, _ ← append_expert_consultation callee r; mret ()).

Definition append_tool_call (p : FrameId) (r : RequestToolCall) : CM FrameId :=
  s ← sid;
  i ← ck_next_id;
  append_frame p (args s RefToolCall (KToolCall (mkToolCallId i) (rt_name r) (rt_parameters r))).

Definition append_tool_aggregator (callee : FrameId) : CM FrameId :=
  s ← sid;
  f ← append_frame callee (mkArgs s RefToolAggregator KVoid ∅ None
        (fail_fast FanIn StartRunFrame) false 0);
  _ ← mark_as_waiting_children f;
  mret f.

Definition append_tool_calls (callee : FrameId) (requests : list RequestToolCall) : CM FrameId :=
  agg ← append_tool_aggregator callee;
  _ ← mfor requests (λ r, _ ← append_tool_call agg r; mret ());
  mret agg.

(** ** Handlers *)

Definition on_session_created : CM () := mret ().

(** [serde_json::to_value(answers)]: a single answer is a string, several
    are an array of strings. *)
Definition answer_value (a : Answer) : Value :=
  match a with Single s => Str s | Multiple l => Array (Str <$> l) end.
Definition answers_value (a : Answers) : Value :=
  Object (foldl (λ m p, obj_insert p.1 (answer_value p.2) m) [] (hash_iter a)).

(** The handler ends with [todo!()]. *)
Definition on_hitl_response (h : HitlId) (answers : Answers) : CM () :=
  f ← on_frames (frame_id_bound_to_hitl_id h);
  match f with
  | None => mret ()
  | Some f =>
      index ← on_frames (log_index_bound_to_hitl_id f h);
      index ← lift (unwrap index);
      _ ← on_frames (resolve_log f index (answers_value answers));
      _ ← mark_ready_to_run_frame f;
      panic
  end.

Definition on_frame_created (f : FrameId) : CM () :=
  st ← on_frames (status_of f);
  match st with
  | SPending =>
      policy ← on_frames (policy_of f);
      match on_start_policy policy with
      | StartRunFrame => mark_ready_to_run_frame f
      | AppendGraphThread g start =>
          _ ← ignore (append_graph_thread f g start);
          mark_as_waiting_children f
      | AppendGraphSpan g join branches =>
          _ ← ignore (append_graph_span f g branches join);
          mark_as_waiting_children f
      | AppendGraphNode g start =>
          _ ← ignore (append_graph_node f g start);
          _ ← on_frames (set_resume_policy f Sequential);
          mark_as_waiting_children f
      end
  | _ => mret ()
  end.

Definition on_frame_ready (f : FrameId) : CM () := run_frame f.

Definition on_frame_run_update (f : FrameId) (state : JobState FrameResponse) : CM () :=
  s ← sid;
  match state with
  | Completed response =>
      _ ← mark_frame_run_completed f response;
      emit (FrameRunTerminated s f)
  | Failed error =>
      _ ← mark_frame_run_failed f (worker_error_text error);
      emit (FrameRunTerminated s f)
  | _ => mret ()
  end.

(** The continuation of a graph node: [next] is added under its parent. *)
Definition continue_with (f p : FrameId) (g : GraphRef) (next : GraphNodeId) : CM () :=
  _ ← append_graph_node p g next;
  mark_completed_frame f.

(** One branch per [FrameResult].  The un-awaited calls of the source
    ([bind_hitl_to_log], [set_resume_policy], [set_reduce_policy] on the
    parent of a fork) evaluate their arguments and do nothing else. *)
Definition on_frame_result (f : FrameId) (r : FrameResult) : CM () :=
  match r with
  | FRequestHitl h =>
      _ ← on_hitls (request h);
      _ ← on_frames (logs_of f);
      mark_as_waiting_children f
  | FConsultExperts requests =>
      _ ← append_experts_consultations f requests;
      _ ← on_frames (set_reduce_policy f Reduce);
      mark_as_waiting_children f
  | FCallTools requests =>
      _ ← append_tool_calls f requests;
      _ ← on_frames (set_reduce_policy f Reduce);
      mark_as_waiting_children f
  | FExecuteGraph graph_id =>
      _ ← append_graph f graph_id;
      mark_as_waiting_children f
  | FContinue =>
      p ← on_frames (parent_of f);
      match p with
      | None => mret ()
      | Some p =>
          data ← on_frames (data_of f);
          match data with
          | KGraphNode g node_id =>
              spec ← lift (map_err SCatalogError (src_get g));
              match gs_edges spec !! node_id with
              | None => mret ()
              | Some next => continue_with f p g next
              end
          | _ => mret ()
          end
      end
  | FGoTo node_id =>
      p ← on_frames (parent_of f);
      match p with
      | None => mret ()
      | Some p =>
          data ← on_frames (data_of f);
          match data with
          | KGraphNode g _ => continue_with f p g node_id
          | _ => mret ()
          end
      end
  | FFork branches join =>
      p ← on_frames (parent_of f);
      match p with
      | None => mret ()
      | Some p =>
          r ← on_frames (spec_ref_of p);
          g ← lift (into_graph_ref r);
          _ ← append_graph_span p g branches join;
          _ ← mark_as_waiting_children p;
          mark_completed_frame f
      end
  | FCompleted => mark_completed_frame f
  | FFailed err => mark_failed_frame err f
  end.

Definition on_frame_run_terminated (f : FrameId) : CM () :=
  st ← on_frames (status_of f);
  match st with
  | SRunCompleted response =>
      _ ← (if decide (fr_updates response = []) then mret ()
           else
             last ← on_snapshots (latest_of f);
             _ ← commit_snapshot f (sn_superstep last) (fr_updates response) [];
             mret ());
      _ ← on_frames (append_logs f (fr_new_logs response));
      on_frame_result f (fr_result response)
  | _ => mret ()
  end.

Definition on_frame_terminated (f : FrameId) : CM () :=
  p ← on_frames (parent_of f);
  match p with
  | Some p => s ← sid; emit (ChildFrameTerminated s p f)
  | None => mret ()
  end.

Fixpoint count_status (p : FrameStatus → bool) (l : list FrameId) : CM nat :=
  match l with
  | [] => mret 0
  | i :: l =>
      st ← on_frames (status_of i);
      n ← count_status p l;
      mret (if p st then S n else n)
  end.

Definition count_failed_frame_child (p : FrameId) : CM nat :=
  cs ← on_frames (iter_children_of p); count_status has_failed cs.

(** [all] stops at the first frame that has not terminated. *)
Fixpoint all_have_terminated (l : list FrameId) : CM bool :=
  match l with
  | [] => mret true
  | i :: l =>
      b ← on_frames (read_node i node_has_terminated);
      if b : bool then all_have_terminated l else mret false
  end.

Definition all_children_have_terminated (p : FrameId) : CM bool :=
  cs ← on_frames (iter_children_of p); all_have_terminated cs.

Fixpoint completed_children (l : list FrameId) : CM (list FrameId) :=
  match l with
  | [] => mret []
  | i :: l =>
      st ← on_frames (status_of i);
      rest ← completed_children l;
      mret (if has_completed st then i :: rest else rest)
  end.

Definition resume_frame (f : FrameId) : CM () :=
  o ← on_frames (on_resume_policy_of f);
  match o with
  | ResumeRunFrame => mark_ready_to_run_frame f
  | MarkComplete => mark_completed_frame f
  end.

(** [child_snapshot_ref] is read from the parent itself. *)
Definition join_sequential (f last_child : FrameId) : CM () :=
  generation ← on_snapshots (latest_of f);
  child_snapshot ← on_snapshots (latest_of f);
  updates ← drain_pending_accumulators f [last_child];
  _ ← commit_snapshot f (sn_superstep generation) updates [sn_ref child_snapshot];
  resolve_pending_log f [last_child].

Definition join_fan_in (f : FrameId) : CM () :=
  generation ← on_snapshots (latest_of f);
  cs ← on_frames (iter_children_of f);
  relevant ← completed_children cs;
  sources ← mmap (λ c, s ← on_snapshots (latest_of c); mret (sn_ref s)) relevant;
  updates ← drain_pending_accumulators f relevant;
  _ ← commit_snapshot f (sn_superstep generation) updates sources;
  resolve_pending_log f relevant.

Definition too_many_failures (f : FrameId) (child_status : FrameStatus) (p : FramePolicy) : CM bool :=
  match child_status, on_child_failed p with
  | SFailed _, FailIfAtLeastHasFailed count =>
      n ← count_failed_frame_child f; mret (bool_decide (count ≤ n))
  | _, _ => mret false
  end.

Definition on_child_frame_terminated (f child : FrameId) : CM () :=
  child_status ← on_frames (status_of child);
  policy ← on_frames (policy_of f);
  failed ← too_many_failures f child_status policy;
  if failed : bool then
    mark_failed_frame (child_failure
      match on_child_failed policy with FailIfAtLeastHasFailed n => n | DontFail => 0 end) f
  else
    match resume_policy policy with
    | Sequential =>
        last ← on_frames (last_child_of f);
        match last with
        | None => mark_ready_to_run_frame f
        | Some last_child =>
            st ← on_frames (status_of last_child);
            _ ← (if has_completed st then join_sequential f last_child else mret ());
            resume_frame f
        end
    | FanIn =>
        all ← all_children_have_terminated f;
        if all : bool then (_ ← join_fan_in f; resume_frame f) else mret ()
    | RHitl => mret ()
    end.

Definition process_ckp (e : SessionCheckpointEvent) : CM () :=
  match e with
  | SessionCreated _ => on_session_created
  | FrameCreated _ f => on_frame_created f
  | CkHitlAnswered _ r => on_hitl_response (hres_id r) (hres_answers r)
  | FrameRunJobStateUpdate _ f j => on_frame_run_update f j
  | FrameReady _ f => on_frame_ready f
  | FrameRunTerminated _ f => on_frame_run_terminated f
  | ChildFrameTerminated _ p c => on_child_frame_terminated p c
  | FrameTerminated _ f => on_frame_terminated f
  end.
End checkpointer.
