(* ===== verification/CheckpointerLaws.v ===== *)
(** * What the checkpointer's handlers do

    Commits, notifications, joins and waits; and, where the handlers do not do
    what their comments say, the theorem that shows it. *)

From S2P Require Import Prelude Ids Json Channels Types Spec RunLog Catalog Domains Frames Wire Errors Tree TreeLaws Snapshots Sessions Hitl Checkpointer.

Section laws.
Context {FS SS : Type} `{StoreSessionFrame FS} `{StoreSessionSnapshot SS}.
Context `{Xoshiro} `{Unicode} `{HashIter} `{F64} `{GraphSource} `{ErrorText}.
Notation ckp := (@Checkpointer FS SS _).
Implicit Types (c : ckp) (f p : FrameId).

(** ** Loaded frames *)

Definition node_at c f : option FrameNode := node_of (arena (ck_frames c)) f.

Lemma tree_get_loaded (t : FrameTree FS) f k :
  arena t !! f = Some k → tree_get f t = (Ok k, t).
Proof.
  intros Hk. unfold tree_get, or_panic, try_get, gets, mbind, m_bind. by rewrite Hk.
Qed.

Lemma read_loaded {A} (g : FrameNode → A) c f n :
  node_at c f = Some n → on_frames (read_node f g) c = (Ok (g n), c).
Proof.
  intros (k&Hk&<-)%node_of_lookup. unfold on_frames, zoom, read_node, mbind, m_bind.
  rewrite (tree_get_loaded _ _ _ Hk). by destruct c.
Qed.

(** The checkpointer with one frame changed. *)
Definition with_node (g : FrameNode → FrameNode) f c : ckp :=
  mkCkp (ck_session_id c) (set_arena (amod g f (arena (ck_frames c))) (ck_frames c))
    (ck_snapshots c) (ck_hitls c) (ck_id c) (ck_listeners c) (ck_jobs c) (ck_worker c) (ck_now c).

Definition sends (l : list SessionCheckpointEvent) c : ckp :=
  mkCkp (ck_session_id c) (ck_frames c) (ck_snapshots c) (ck_hitls c) (ck_id c)
    (ck_listeners c ++ l) (ck_jobs c) (ck_worker c) (ck_now c).

Lemma write_loaded g c f n :
  node_at c f = Some n → on_frames (write_node f g) c = (Ok (), with_node g f c).
Proof.
  intros (k&Hk&<-)%node_of_lookup. unfold on_frames, zoom, write_node, mbind, m_bind.
  rewrite (tree_get_loaded _ _ _ Hk). done.
Qed.

Lemma node_at_with g c f i :
  node_at (with_node g f c) i = if decide (f = i) then g <$> node_at c i else node_at c i.
Proof. apply node_of_amod. Qed.

Lemma parent_of_loaded c f n :
  node_at c f = Some n → on_frames (parent_of f) c = (Ok (parent n), c).
Proof.
  unfold node_at, on_frames, zoom, parent_of, gets. intros ->. by destruct c.
Qed.

Lemma mark_loaded (st : FrameStatus) (e : SessionId → SessionCheckpointEvent) c f n :
  node_at c f = Some n →
  (_ ← on_frames (set_status f st); s ← sid; emit (e s)) c =
  (Ok (), sends [e (ck_session_id c)] (with_node (upd_status st) f c)).
Proof.
  intros Hn. unfold set_status. unfold mbind at 1, m_bind at 1.
  by rewrite (write_loaded _ _ _ _ Hn).
Qed.

(** ** Notifications *)

Lemma mark_completed_loaded c f n :
  node_at c f = Some n →
  mark_completed_frame f c =
    (Ok (), sends (FrameTerminated (ck_session_id c) f ::
              match parent n with
              | Some p => [ChildFrameTerminated (ck_session_id c) p f]
              | None => [] end) (with_node (upd_status SCompleted) f c)).
Proof.
  intros Hn. unfold mark_completed_frame, set_status. unfold mbind at 1, m_bind at 1.
  rewrite (write_loaded _ _ _ _ Hn). unfold sid, gets, emit, modify. unfold mbind, m_bind.
  set (c1 := mkCkp _ _ _ _ _ _ _ _ _).
  assert (node_at c1 f = Some (upd_status SCompleted n)) as Hn1.
  { unfold c1. change (node_at (with_node (upd_status SCompleted) f c) f = Some (upd_status SCompleted n)).
    by rewrite node_at_with, decide_True, Hn. }
  rewrite (parent_of_loaded _ _ _ Hn1). simpl. unfold sends.
  destruct (parent n) as [p|]; simpl; by rewrite <- ?app_assoc.
Qed.
End laws.

(** Completing a frame notifies its parent twice: once directly and once
    when the termination it announced is handled. *)
Theorem completion_notifies_twice {FS SS : Type} `{StoreSessionFrame FS} `{StoreSessionSnapshot SS}
    `{Xoshiro} `{Unicode} `{HashIter} `{F64} `{GraphSource} `{ErrorText}
    (c : @Checkpointer FS SS _) (f p : FrameId) (n : FrameNode) :
  node_at c f = Some n → parent n = Some p →
  let s := ck_session_id c in
  let c1 := run_state (mark_completed_frame f) c in
  let c2 := run_state (process_ckp (FrameTerminated s f)) c1 in
  status <$> node_at c2 f = Some SCompleted ∧
  ck_listeners c2 = ck_listeners c ++
    [FrameTerminated s f; ChildFrameTerminated s p f; ChildFrameTerminated s p f].
Proof.
  intros Hn Hp s c1 c2.
  assert (c1 = sends [FrameTerminated s f; ChildFrameTerminated s p f]
                 (with_node (upd_status SCompleted) f c)) as Hc1.
  { unfold c1, run_state. rewrite (mark_completed_loaded _ _ _ Hn), Hp. done. }
  assert (node_at c1 f = Some (upd_status SCompleted n)) as Hn1.
  { rewrite Hc1. change (node_at (with_node (upd_status SCompleted) f c) f = Some (upd_status SCompleted n)).
    by rewrite node_at_with, decide_True, Hn. }
  assert (c2 = sends [ChildFrameTerminated s p f] c1) as ->.
  { unfold c2, run_state, process_ckp, on_frame_terminated. unfold mbind at 1, m_bind at 1.
    rewrite (parent_of_loaded _ _ _ Hn1). simpl. rewrite Hp. unfold s. by rewrite Hc1. }
  change (node_at (sends _ c1) f) with (node_at c1 f). rewrite Hn1. split; [done|].
  rewrite Hc1. simpl. by rewrite <- app_assoc.
Qed.

(** The end of a run is announced twice. *)
Theorem run_end_announced_twice {FS SS : Type} `{StoreSessionFrame FS} `{StoreSessionSnapshot SS}
    `{Xoshiro} `{Unicode} `{HashIter} `{F64} `{GraphSource} `{ErrorText}
    (c : @Checkpointer FS SS _) (f : FrameId) (n : FrameNode) (r : FrameResponse) :
  node_at c f = Some n →
  on_frame_run_update f (Completed r) c =
    (Ok (), sends [FrameRunTerminated (ck_session_id c) f; FrameRunTerminated (ck_session_id c) f]
              (with_node (upd_status (SRunCompleted r)) f c)).
Proof.
  intros Hn. unfold on_frame_run_update, mark_frame_run_completed, sid, gets.
  unfold mbind at 1, m_bind at 1. unfold mbind at 1, m_bind at 1.
  fold (sid (FS:=FS) (SS:=SS)).
  change (λ c0 : @Checkpointer FS SS _, (Ok (ck_session_id c0), c0)) with (@sid FS SS _).
  rewrite (mark_loaded (SRunCompleted r) (λ s, FrameRunTerminated s f) _ _ _ Hn).
  unfold emit, modify, sends. simpl. by rewrite <- app_assoc.
Qed.

(** ** Nothing runs before a first snapshot *)

Section no_snapshot.
Context {FS SS : Type} `{StoreSessionFrame FS} `{StoreSessionSnapshot SS}.
Context `{Xoshiro} `{Unicode} `{HashIter} `{F64} `{GraphSource} `{ErrorText}.
Notation ckp := (@Checkpointer FS SS _).

(** The snapshots component [s0] holds none: every request for a latest
    snapshot fails and changes nothing. *)
Variable s0 : SessionSnapshots SS.
Hypothesis Hnone : ∀ f, ∃ e, latest_snapshot (sns_session_id s0) f (sns_store s0) = (Err e, sns_store s0).

Definition idle (c : ckp) : Prop := ck_snapshots c = s0 ∧ ck_jobs c = [].

Lemma latest_fails f (c : ckp) : idle c → ∃ e, on_snapshots (latest_of f) c = (Err (StorageError e), c).
Proof.
  intros [Hs _]. destruct (Hnone f) as [e He]. exists e.
  unfold on_snapshots, zoom, latest_of, gets, sn_on_store, m_map_err, mbind, m_bind. rewrite Hs.
  unfold zoom. rewrite He. simpl. destruct c, s0; simpl in *; by subst.
Qed.

Lemma keeps_latest_bind {A} f (k : Snapshot → M ckp SessionError A) :
  keeps idle (on_snapshots (latest_of f) ≫= k).
Proof.
  intros c Hc. unfold run_state, mbind, m_bind. by destruct (latest_fails f c Hc) as [e ->].
Qed.

Lemma keeps_on_frames {A} (m : M (FrameTree FS) SessionError A) : keeps idle (on_frames m : M ckp _ _).
Proof. apply keeps_zoom. by intros c [Hs Hj]. Qed.
Lemma keeps_on_hitls {A} (m : M SessionHitls HitlError A) : keeps idle (on_hitls m : M ckp _ _).
Proof. apply keeps_map_err, keeps_zoom. by intros c [Hs Hj]. Qed.
Lemma keeps_emit e : keeps idle (emit e : M ckp _ _).
Proof. apply keeps_modify. by intros c [Hs Hj]. Qed.
Lemma keeps_next_id : keeps idle (ck_next_id : M ckp _ _).
Proof.
  intros c [Hs Hj]. unfold run_state, ck_next_id. by destruct (next_id (ck_id c)).
Qed.
Lemma keeps_sid : keeps idle (sid : M ckp _ _).
Proof. apply keeps_gets. Qed.

Create HintDb idle.
Local Hint Resolve keeps_latest_bind keeps_on_frames keeps_on_hitls keeps_emit keeps_next_id keeps_sid : idle.

(** One step of a handler's body at a time. *)
Ltac keep :=
  intros;
  lazymatch goal with
  | |- keeps _ (on_snapshots (latest_of _) ≫= _) => apply keeps_latest_bind
  | |- keeps _ (_ ≫= _) => apply keeps_bind; intros; keep
  | |- keeps _ (match ?x with _ => _ end) => destruct x; keep
  | |- keeps _ (mfor _ _) => apply keeps_mfor; intros; keep
  | |- keeps _ (ignore _) => apply keeps_ignore; keep
  | |- keeps _ (mret _) => apply keeps_ret
  | |- keeps _ (throw _) => apply keeps_throw
  | |- keeps _ (lift _) => apply keeps_lift
  | |- keeps _ panic => apply keeps_panic
  | |- keeps _ (gets _) => apply keeps_gets
  | |- _ => eauto with idle
  end.

Lemma keeps_mark_waiting f : keeps idle (mark_as_waiting_children f : M ckp _ _).
Proof. unfold mark_as_waiting_children. keep. Qed.
Lemma keeps_mark_ready f : keeps idle (mark_ready_to_run_frame f : M ckp _ _).
Proof. unfold mark_ready_to_run_frame. keep. Qed.
Lemma keeps_mark_completed f : keeps idle (mark_completed_frame f : M ckp _ _).
Proof. unfold mark_completed_frame. keep. Qed.
Lemma keeps_mark_failed e f : keeps idle (mark_failed_frame e f : M ckp _ _).
Proof. unfold mark_failed_frame. keep. Qed.
Lemma keeps_run_completed f r : keeps idle (mark_frame_run_completed f r : M ckp _ _).
Proof. unfold mark_frame_run_completed. keep. Qed.
Lemma keeps_run_failed f r : keeps idle (mark_frame_run_failed f r : M ckp _ _).
Proof. unfold mark_frame_run_failed. keep. Qed.
Local Hint Resolve keeps_mark_waiting keeps_mark_ready keeps_mark_completed keeps_mark_failed
  keeps_run_completed keeps_run_failed : idle.

Lemma keeps_append_frame p a : keeps idle (append_frame p a : M ckp _ _).
Proof. unfold append_frame, inherit_from_prev_sibling, inherit_from_parent, inherit_from, spec_of. keep. Qed.
Local Hint Resolve keeps_append_frame : idle.

Lemma keeps_append_node p g n : keeps idle (append_graph_node p g n : M ckp _ _).
Proof. unfold append_graph_node. keep. Qed.
Local Hint Resolve keeps_append_node : idle.
Lemma keeps_append_thread p g n : keeps idle (append_graph_thread p g n : M ckp _ _).
Proof. unfold append_graph_thread. keep. Qed.
Local Hint Resolve keeps_append_thread : idle.
Lemma keeps_append_span p g bs j : keeps idle (append_graph_span p g bs j : M ckp _ _).
Proof. unfold append_graph_span, append_branch, write_to_inherited_channels, spec_of. keep. Qed.
Lemma keeps_append_graph p g : keeps idle (append_graph p g : M ckp _ _).
Proof. unfold append_graph. keep. Qed.
Lemma keeps_append_tools p rs : keeps idle (append_tool_calls p rs : M ckp _ _).
Proof. unfold append_tool_calls, append_tool_aggregator, append_tool_call. keep. Qed.
Lemma keeps_append_experts p rs : keeps idle (append_experts_consultations p rs : M ckp _ _).
Proof. unfold append_experts_consultations, append_expert_consultation. keep. Qed.
Lemma keeps_commit f e u j : keeps idle (commit_snapshot f e u j : M ckp _ _).
Proof. unfold commit_snapshot. keep. Qed.
Lemma keeps_resume f : keeps idle (resume_frame f : M ckp _ _).
Proof. unfold resume_frame. keep. Qed.
Lemma keeps_count p l : keeps idle (count_status p l : M ckp _ _).
Proof. induction l as [|i l IH]; simpl; keep. Qed.
Lemma keeps_all_terminated l : keeps idle (all_have_terminated l : M ckp _ _).
Proof. induction l as [|i l IH]; simpl; keep. Qed.
Local Hint Resolve keeps_append_span keeps_append_graph keeps_append_tools keeps_append_experts
  keeps_commit keeps_resume keeps_count keeps_all_terminated : idle.

Lemma keeps_result f r : keeps idle (on_frame_result f r : M ckp _ _).
Proof. unfold on_frame_result, continue_with. keep. Qed.
Lemma keeps_child_terminated f x : keeps idle (on_child_frame_terminated f x : M ckp _ _).
Proof.
  unfold on_child_frame_terminated, too_many_failures, count_failed_frame_child,
    all_children_have_terminated, join_sequential, join_fan_in. keep.
Qed.
Local Hint Resolve keeps_result keeps_child_terminated : idle.

Lemma keeps_process e : keeps idle (process_ckp e : M ckp _ _).
Proof.
  destruct e; simpl; unfold on_session_created, on_hitl_response, on_frame_created, on_frame_ready,
    run_frame, on_frame_run_update, on_frame_run_terminated, on_frame_terminated; keep.
Qed.
End no_snapshot.

(** As long as storage holds no snapshot of the session, no sequence of
    events makes the checkpointer give a run to the workers: nothing creates
    the first snapshot of a frame, and every run asks for it. *)
Theorem nothing_runs_without_snapshot {FS SS : Type} `{StoreSessionFrame FS} `{StoreSessionSnapshot SS}
    `{Xoshiro} `{Unicode} `{HashIter} `{F64} `{GraphSource} `{ErrorText}
    (c : @Checkpointer FS SS _) (events : list SessionCheckpointEvent) :
  (∀ f, ∃ e, latest_snapshot (sns_session_id (ck_snapshots c)) f (sns_store (ck_snapshots c)) =
               (Err e, sns_store (ck_snapshots c))) →
  ck_jobs c = [] →
  let c' := foldl (λ c e, run_state (process_ckp e) c) c events in
  ck_jobs c' = [] ∧ ck_snapshots c' = ck_snapshots c.
Proof.
  intros Hnone Hj c'.
  assert (idle (ck_snapshots c) c') as [? ?]; [|done]. unfold c'.
  assert (idle (ck_snapshots c) c) as Hc by done. revert Hc. generalize c at 2 4.
  induction events as [|e events IH]; intros d Hd; simpl; [done|].
  by apply IH, keeps_process.
Qed.

(** ** Commits *)

Section commit.
Context {FS SS : Type} `{StoreSessionFrame FS} `{StoreSessionSnapshot SS}.
Context `{Xoshiro} `{Unicode} `{HashIter} `{F64} `{GraphSource} `{ErrorText}.
Notation ckp := (@Checkpointer FS SS _).

Implicit Types (c : ckp).

(** The contributions to one channel, in order. *)
Definition contributions (name : ChannelName) (updates : list ChannelUpdate) : list Value :=
  cu_value <$> filter (λ u, cu_name u = name) updates.

Lemma group_from m updates name :
  foldl (λ m u, push_value m (cu_name u) (cu_value u)) m updates !! name =
  match contributions name updates with
  | [] => m !! name
  | l => Some (default [] (m !! name) ++ l)
  end.
Proof.
  revert m. induction updates as [|u us IH]; intros m; simpl; [done|].
  rewrite IH. unfold contributions, push_value. rewrite filter_cons.
  destruct (decide (cu_name u = name)) as [->|Hne]; csimpl.
  - rewrite lookup_insert_eq. destruct (cu_value <$> filter _ us) eqn:E; simpl; [done|].
    by rewrite <- app_assoc.
  - by rewrite lookup_insert_ne.
Qed.

Lemma group_updates_spec updates name :
  group_updates updates !! name =
  match contributions name updates with [] => None | l => Some l end.
Proof. unfold group_updates. rewrite group_from. by destruct (contributions _ _). Qed.

Lemma apply_updates_notin spec l ch name :
  name ∉ l.*1 → apply_updates spec l ch !! name = ch !! name.
Proof.
  revert ch. induction l as [|[k vs] l IH]; intros ch; simpl; [done|].
  intros [Hk Hl]%not_elem_of_cons. rewrite IH by done.
  unfold channels_write. by rewrite lookup_insert_ne.
Qed.

Lemma apply_updates_in spec l ch name vs :
  NoDup l.*1 → (name, vs) ∈ l →
  apply_updates spec l ch !! name = Some (reduce (reducer_in spec name) (ch !! name) vs).
Proof.
  revert ch. induction l as [|[k ws] l IH]; intros ch; simpl; [by intros _ ?%elem_of_nil|].
  intros [Hk Hl]%NoDup_cons [[= -> ->]|Hin]%elem_of_cons.
  - rewrite apply_updates_notin by done. unfold channels_write, channels_get.
    by rewrite lookup_insert_eq.
  - rewrite IH by done. unfold channels_write. rewrite lookup_insert_ne; [done|].
    intros ->. apply Hk. apply list_elem_of_fmap. by exists (name, vs).
Qed.

Lemma hash_iter_keys {V} (m : gmap string V) : NoDup (hash_iter m).*1.
Proof. rewrite hash_iter_perm. apply NoDup_fst_map_to_list. Qed.

Lemma apply_updates_lookup spec updates ch name :
  apply_updates spec (hash_iter (group_updates updates)) ch !! name =
  match contributions name updates with
  | [] => ch !! name
  | l => Some (reduce (reducer_in spec name) (ch !! name) l)
  end.
Proof.
  pose proof (group_updates_spec updates name) as Hg.
  destruct (contributions name updates) as [|v l].
  - apply apply_updates_notin. intros ([k vs]&->&Hin%elem_of_hash_iter)%list_elem_of_fmap.
    simpl in *. congruence.
  - apply apply_updates_in; [apply hash_iter_keys|]. by apply elem_of_hash_iter.
Qed.

(** The specification a reference names. *)
Definition spec_for (r : FrameSpecRef) : Res CatalogError CommonSpec :=
  match r with
  | RefGraph g => gs_common <$> src_get g
  | RefHitl => Ok spec_hitl
  | RefToolCall => Ok spec_tool
  | RefToolAggregator => Ok spec_tool_aggregator
  | RefExpert => Ok spec_expert
  | RefExpertAggregator => Ok spec_expert_aggregator
  end.

Lemma spec_of_loaded c f n sp :
  node_at c f = Some n → spec_for (spec_ref n) = Ok sp → spec_of f c = (Ok sp, c).
Proof.
  intros (k&Hk&<-)%node_of_lookup Hs. unfold spec_of, on_frames, zoom, common_spec_of,
    spec_ref_of, read_node, mbind, m_bind. rewrite (tree_get_loaded _ _ _ Hk). simpl.
  destruct (spec_ref (c_node k)); simpl in Hs; simplify_eq; simpl; try by destruct c.
  unfold or_panic, lift. rewrite Hs. by destruct c.
Qed.

Lemma spec_of_loaded_inv c f n sp :
  node_at c f = Some n → run_res (spec_of f) c = Ok sp → spec_for (spec_ref n) = Ok sp.
Proof.
  intros (k&Hk&<-)%node_of_lookup. unfold run_res, spec_of, on_frames, zoom, common_spec_of,
    spec_ref_of, read_node, mbind, m_bind. rewrite (tree_get_loaded _ _ _ Hk). simpl.
  destruct (spec_ref (c_node k)); simpl; [|by intros ?; simplify_eq..].
  unfold or_panic, lift. destruct (gs_common <$> src_get _); simpl; by intros ?; simplify_eq.
Qed.

(** The reducer that a specification declares for a name: that of the first
    channel of this name, the last write where there is none. *)
Inductive reducer_of (spec : CommonSpec) (name : ChannelName) : Reducer → Prop :=
  | declared_reducer pre ch post :
      spec_channels spec = pre ++ ch :: post → cs_name ch = name → name ∉ cs_name <$> pre →
      reducer_of spec name (cs_reducer ch)
  | undeclared_reducer :
      name ∉ cs_name <$> spec_channels spec → reducer_of spec name LastWriteWins.

Lemma reducer_in_of spec name : reducer_of spec name (reducer_in spec name).
Proof.
  unfold reducer_in. destruct (list_find _ _) as [[i ch]|] eqn:E; simpl.
  - apply list_find_Some in E as (Hi&Hn&Hpre).
    apply (declared_reducer _ _ (take i (spec_channels spec)) ch (drop (S i) (spec_channels spec)));
      [|done|].
    + by rewrite take_drop_middle.
    + intros (x&->&Hx)%list_elem_of_fmap. apply list_elem_of_lookup in Hx as [j Hj].
      apply lookup_take_Some in Hj as [Hj Hlt]. by eapply (Hpre j).
  - apply undeclared_reducer. intros (x&->&Hx)%list_elem_of_fmap.
    apply list_find_None in E. rewrite Forall_forall in E. by eapply E.
Qed.

Lemma commit_inv f e updates sources (c c' : ckp) r :
  commit_snapshot f e updates sources c = (Ok r, c') →
  ∃ last spec c1 snaps1,
    latest_of f (ck_snapshots c) = (Ok last, snaps1) ∧ sn_superstep last = e ∧
    r = mkSnapshotRef (ck_session_id c) f (wrap32 (e + 1)) ∧
    c' = run_state (on_snapshots (push (snapshot_new (ck_now c) (ck_session_id c) f (wrap32 (e + 1))
           (apply_updates spec (hash_iter (group_updates updates)) (sn_channels last)) sources))) c1 ∧
    ck_snapshots c1 = snaps1 ∧
    (group_updates updates ≠ ∅ → run_res (spec_of f) c = Ok spec).
Proof.
  unfold commit_snapshot. intros (last&c1&Hl&Hk)%m_bind_ok.
  unfold on_snapshots, zoom in Hl. destruct (latest_of f (ck_snapshots c)) as [r1 s1] eqn:E.
  injection Hl as -> <-. case_decide as Hs; [done|].
  apply m_bind_ok in Hk as (ch&c2&Hch&Hk).
  assert (∃ spec, ch = apply_updates spec (hash_iter (group_updates updates)) (sn_channels last) ∧
            ck_snapshots c2 = s1 ∧ ck_session_id c2 = ck_session_id c ∧ ck_now c2 = ck_now c ∧
            (group_updates updates ≠ ∅ → run_res (spec_of f) c = Ok spec))
    as (spec&->&Hs2&Hi2&Hn2&Hsp2).
  { case_decide as He.
    - exists spec_default. unfold mret, m_ret in Hch. injection Hch as <- <-. rewrite He.
      assert (hash_iter (∅ : gmap string (list Value)) = []) as ->; [|done].
      apply Permutation_nil_r. by rewrite hash_iter_perm, map_to_list_empty.
    - apply m_bind_ok in Hch as (spec&c3&Hsp&[= <- <-]). exists spec.
      unfold run_res, spec_of, on_frames, zoom in Hsp |- *. simpl in Hsp.
      destruct (common_spec_of _ _ _) as [r2 t2]. injection Hsp as -> <-. done. }
  exists last, spec, c2, s1. unfold sid, gets, mbind, m_bind in Hk.
  rewrite Hi2, Hn2 in Hk. split_and!; try done.
  - unfold on_snapshots, zoom, push, mbind, m_bind, sn_insert, modify, mret, m_ret in Hk.
    simpl in Hk. by injection Hk as <- _.
  - unfold run_state. by rewrite Hk.
Qed.

Lemma common_spec_no_error g f : no_err (common_spec_of (FS:=FS) g f).
Proof.
  unfold common_spec_of, spec_ref_of, read_node, tree_get.
  repeat (apply no_err_bind; [|intros ?]); eauto with keeps. case_match; eauto with keeps.
Qed.

(** A commit is refused as stale only when the stored superstep differs. *)
Lemma commit_stale f e updates sources (c : ckp) got :
  run_res (commit_snapshot f e updates sources) c = Err (StaleSuperstep e got) →
  ∃ last, run_res (latest_of f) (ck_snapshots c) = Ok last ∧ sn_superstep last ≠ e.
Proof.
  unfold run_res, commit_snapshot. unfold mbind at 1, m_bind at 1.
  destruct (on_snapshots (latest_of f) c) as [[last|x|] c1] eqn:El; simpl; intros Hc; [| |done].
  - exists last. unfold on_snapshots, zoom in El.
    destruct (latest_of f (ck_snapshots c)) as [r1 s1]. injection El as -> <-. split; [done|].
    intros He. rewrite decide_False in Hc by (intros Hn; by apply Hn).
    match type of Hc with (?m ?c0).1 = _ => assert (no_err m) as Hno end.
    2: { match type of Hc with (?m ?c0).1 = _ => destruct (m c0) as [r2 c2] eqn:E end.
         simpl in Hc. subst r2. by eapply Hno. }
    apply no_err_bind; [case_decide; eauto with keeps|intros ch].
    { apply no_err_bind; [apply no_err_zoom, common_spec_no_error|eauto with keeps]. }
    unfold sid, push. eauto 10 with keeps.
  - unfold on_snapshots, zoom, latest_of, gets, sn_on_store, m_map_err, mbind, m_bind in El.
    simpl in El. unfold zoom in El.
    destruct (latest_snapshot _ _ _) as [[] ?]; simpl in El; by simplify_eq.
Qed.
End commit.

(** C1: a successful commit caches a new snapshot one superstep after the one
    read, in which every channel holds the reduction of its contributions, in
    their order, over its last value, and a channel without contribution its
    last value; the reducer is that of the first channel of that name in the
    frame's own specification, and the last write where it has none; the
    order of the hash map does not matter. *)
Theorem commit_snapshot_spec {FS SS : Type} `{StoreSessionFrame FS} `{StoreSessionSnapshot SS}
    `{Xoshiro} `{Unicode} `{HashIter} `{F64} `{GraphSource} `{ErrorText}
    (c c' : @Checkpointer FS SS _) (f : FrameId) (e : Z) (updates : list ChannelUpdate)
    (sources : list SnapshotRef) (r : SnapshotRef) :
  commit_snapshot f e updates sources c = (Ok r, c') →
  ∃ last snap,
    run_res (latest_of f) (ck_snapshots c) = Ok last ∧ sn_superstep last = e ∧
    r = mkSnapshotRef (ck_session_id c) f (wrap32 (e + 1)) ∧
    sns_cache (ck_snapshots c') !! r = Some (mkSnapContainer snap true) ∧
    sn_ref snap = r ∧ join_sources snap = sources ∧
    ∀ name,
      match contributions name updates with
      | [] => sn_channels snap !! name = sn_channels last !! name
      | l => ∃ spec red,
          run_res (spec_of f) c = Ok spec ∧
          (∀ n, node_at c f = Some n → spec_for (spec_ref n) = Ok spec) ∧
          reducer_of spec name red ∧
          sn_channels snap !! name = Some (reduce red (sn_channels last !! name) l)
      end.
Proof.
  intros (last&spec&c1&s1&Hl&He&->&->&Hs&Hsp)%commit_inv.
  exists last, (snapshot_new (ck_now c) (ck_session_id c) f (wrap32 (e + 1))
    (apply_updates spec (hash_iter (group_updates updates)) (sn_channels last)) sources).
  unfold run_res at 1. rewrite Hl. split_and!; [done|done|done| |done|done|].
  - unfold run_state, on_snapshots, zoom, push, mbind, m_bind, sn_insert, modify, mret, m_ret.
    simpl. apply lookup_insert_eq.
  - intros name. pose proof (apply_updates_lookup spec updates (sn_channels last) name) as Hn.
    pose proof (group_updates_spec updates name) as Hg.
    destruct (contributions name updates) as [|v l]; [exact Hn|].
    assert (run_res (spec_of f) c = Ok spec) as Hspec by
      (apply Hsp; intros Hn0; rewrite Hn0 in Hg; by rewrite lookup_empty in Hg).
    exists spec, (reducer_in spec name). split_and!; [exact Hspec| |apply reducer_in_of|exact Hn].
    intros n Hf. by apply (spec_of_loaded_inv c f n).
Qed.

(** The check of the superstep does not detect a concurrent commit: after
    a commit at a superstep, a second one that expects the same superstep is
    not refused as stale. *)
Theorem commit_check_misses {FS SS : Type} `{StoreSessionFrame FS} `{StoreSessionSnapshot SS}
    `{Xoshiro} `{Unicode} `{HashIter} `{F64} `{GraphSource} `{ErrorText}
    (c c' : @Checkpointer FS SS _) (f : FrameId) (e got : Z) (u1 u2 : list ChannelUpdate)
    (s1 s2 : list SnapshotRef) (r : SnapshotRef) :
  commit_snapshot f e u1 s1 c = (Ok r, c') →
  run_res (commit_snapshot f e u2 s2) c' ≠ Err (StaleSuperstep e got).
Proof.
  intros (last&spec&c1&sn1&Hl&He&->&->&Hs&_)%commit_inv.
  set (c2 := run_state _ c1).
  pose proof Hl as Hl'. apply latest_of_ok in Hl' as (Hlat&Hst&Hid&_).
  assert (run_res (latest_of f) (ck_snapshots c2) = Ok last) as Hl2.
  { rewrite latest_of_eq. unfold c2, run_state, on_snapshots, zoom, push, mbind, m_bind, sn_insert,
      modify, mret, m_ret. simpl. rewrite Hs, Hst, Hid. by rewrite Hlat. }
  intros (last'&Hlast&Hne)%commit_stale. rewrite Hl2 in Hlast. by injection Hlast as <-.
Qed.

(** ** Joins *)

Section joins.
Context {FS SS : Type} `{StoreSessionFrame FS} `{StoreSessionSnapshot SS}.
Context `{Xoshiro} `{Unicode} `{HashIter} `{F64} `{GraphSource} `{ErrorText}.
Notation ckp := (@Checkpointer FS SS _).
Implicit Types (c : ckp).

Definition status_at c (i : FrameId) : option FrameStatus := status <$> node_at c i.
Definition all_loaded c (l : list FrameId) : Prop := Forall (λ i, is_Some (node_at c i)) l.

(** The children whose status satisfies [P]. *)
Definition with_status (P : FrameStatus → bool) c (l : list FrameId) : list FrameId :=
  filter (λ i, default false (P <$> status_at c i) = true) l.

Lemma count_loaded P c l :
  all_loaded c l → count_status P l c = (Ok (length (with_status P c l)), c).
Proof.
  induction 1 as [|i l [n Hn] Hl IH]; [done|]. simpl. unfold mbind at 1, m_bind at 1.
  unfold status_of. rewrite (read_loaded _ _ _ _ Hn). unfold mbind at 1, m_bind at 1.
  rewrite IH. unfold with_status. rewrite filter_cons.
  assert (status_at c i = Some (status n)) as -> by (unfold status_at; by rewrite Hn). simpl.
  by destruct (P (status n)).
Qed.

Lemma all_terminated_loaded c l :
  all_loaded c l →
  all_have_terminated l c =
    (Ok (forallb (λ i, default false (status_has_terminated <$> status_at c i)) l), c).
Proof.
  induction 1 as [|i l [n Hn] Hl IH]; [done|]. simpl. unfold mbind at 1, m_bind at 1.
  rewrite (read_loaded _ _ _ _ Hn).
  assert (status_at c i = Some (status n)) as -> by (unfold status_at; by rewrite Hn). simpl.
  unfold node_has_terminated, status_has_terminated at 1.
  by destruct (status n); simpl; rewrite ?IH.
Qed.

Lemma children_loaded c p n :
  node_at c p = Some n → on_frames (iter_children_of p) c = (Ok (children n), c).
Proof.
  intros Hn. unfold on_frames, zoom, iter_children_of, gets, children_in.
  unfold node_at in Hn. rewrite Hn. by destruct c.
Qed.

Lemma count_failed_loaded c p n :
  node_at c p = Some n → all_loaded c (children n) →
  count_failed_frame_child p c = (Ok (length (with_status has_failed c (children n))), c).
Proof.
  intros Hn Hl. unfold count_failed_frame_child, mbind, m_bind.
  by rewrite (children_loaded _ _ _ Hn), count_loaded.
Qed.

Lemma few_failures c p n st :
  node_at c p = Some n → all_loaded c (children n) →
  (∀ msg limit, st = SFailed msg → on_child_failed (frame_policy n) = FailIfAtLeastHasFailed limit →
     length (with_status has_failed c (children n)) < limit) →
  too_many_failures p st (frame_policy n) c = (Ok false, c).
Proof.
  intros Hn Hl Hlim. unfold too_many_failures.
  destruct st; try done. destruct (on_child_failed (frame_policy n)) as [|limit] eqn:E; try done.
  unfold mbind, m_bind. rewrite (count_failed_loaded _ _ _ Hn Hl). unfold mret, m_ret.
  rewrite bool_decide_eq_false_2; [done|]. specialize (Hlim _ _ eq_refl eq_refl). lia.
Qed.
End joins.

(** C7: while a child of a fan-in frame is still at work, the end of another
    child, completed or failed, changes nothing as long as the children that
    failed do not reach the limit of the parent's policy: the join waits for
    all of them. *)
Theorem fan_in_waits {FS SS : Type} `{StoreSessionFrame FS} `{StoreSessionSnapshot SS}
    `{Xoshiro} `{Unicode} `{HashIter} `{F64} `{GraphSource} `{ErrorText}
    (c : @Checkpointer FS SS _) (f child busy : FrameId) (n m b : FrameNode) :
  node_at c f = Some n → resume_policy (frame_policy n) = FanIn → all_loaded c (children n) →
  node_at c child = Some m →
  (∀ msg limit, status m = SFailed msg → on_child_failed (frame_policy n) = FailIfAtLeastHasFailed limit →
     length (with_status has_failed c (children n)) < limit) →
  busy ∈ children n → node_at c busy = Some b → status_has_terminated (status b) = false →
  on_child_frame_terminated f child c = (Ok (), c).
Proof.
  intros Hn Hp Hall Hm Hlim Hbusy Hb Hterm. unfold on_child_frame_terminated, status_of, policy_of.
  unfold mbind at 1, m_bind at 1. rewrite (read_loaded _ _ _ _ Hm).
  unfold mbind at 1, m_bind at 1. rewrite (read_loaded _ _ _ _ Hn).
  unfold mbind at 1, m_bind at 1. rewrite (few_failures c f n (status m)) by done.
  rewrite Hp. unfold all_children_have_terminated. unfold mbind at 1, m_bind at 1.
  unfold mbind at 1, m_bind at 1. rewrite (children_loaded _ _ _ Hn), all_terminated_loaded by done.
  assert (forallb (λ i, default false (status_has_terminated <$> status_at c i)) (children n) = false) as ->;
    [|done].
  apply not_true_iff_false. intros Hf. rewrite forallb_forall in Hf.
  specialize (Hf busy (proj1 (list_elem_of_In _ _) Hbusy)).
  unfold status_at in Hf. rewrite Hb in Hf. simpl in Hf. congruence.
Qed.

(** C8: when a child has failed and the failed children reach the limit of the
    parent's policy, the parent fails at once, whatever its other children
    are doing, and announces it; nothing else changes. *)
Theorem failure_propagates {FS SS : Type} `{StoreSessionFrame FS} `{StoreSessionSnapshot SS}
    `{Xoshiro} `{Unicode} `{HashIter} `{F64} `{GraphSource} `{ErrorText}
    (c : @Checkpointer FS SS _) (f child : FrameId) (n m : FrameNode) (msg : string) (limit : nat) :
  node_at c f = Some n → on_child_failed (frame_policy n) = FailIfAtLeastHasFailed limit →
  all_loaded c (children n) → node_at c child = Some m → status m = SFailed msg →
  limit ≤ length (with_status has_failed c (children n)) →
  on_child_frame_terminated f child c =
    (Ok (), sends [FrameTerminated (ck_session_id c) f]
              (with_node (upd_status (SFailed (child_failure limit))) f c)).
Proof.
  intros Hn Hp Hall Hm Hst Hlim. unfold on_child_frame_terminated, status_of, policy_of.
  unfold mbind at 1, m_bind at 1. rewrite (read_loaded _ _ _ _ Hm).
  unfold mbind at 1, m_bind at 1. rewrite (read_loaded _ _ _ _ Hn). rewrite Hst, Hp.
  unfold too_many_failures. rewrite Hp. unfold mbind at 1, m_bind at 1. unfold mbind at 1, m_bind at 1.
  rewrite (count_failed_loaded _ _ _ Hn Hall).
  unfold mret, m_ret. rewrite bool_decide_true by done. unfold mark_failed_frame.
  exact (mark_loaded (SFailed (child_failure limit)) (λ s, FrameTerminated s f) _ _ _ Hn).
Qed.

(** The answer of a human never resumes a frame: when its handler returns,
    no frame has changed and nothing was announced; when it finds the frame
    that waits, it ends in a panic. *)
Theorem hitl_answer_never_resumes {FS SS : Type} `{StoreSessionFrame FS} `{StoreSessionSnapshot SS}
    `{Xoshiro} `{Unicode} `{HashIter} `{F64} `{GraphSource} `{ErrorText}
    (c c' : @Checkpointer FS SS _) (h : HitlId) (answers : Answers) :
  on_hitl_response h answers c = (Ok (), c') →
  arena (ck_frames c') = arena (ck_frames c) ∧ ck_listeners c' = ck_listeners c ∧
  run_res (on_frames (frame_id_bound_to_hitl_id h)) c = Ok None.
Proof.
  unfold on_hitl_response. intros (o&c1&Hf&Hk)%m_bind_ok. unfold run_res. rewrite Hf.
  destruct o as [f|].
  - apply m_bind_ok in Hk as (i&c2&_&Hk). apply m_bind_ok in Hk as (j&c3&_&Hk).
    apply m_bind_ok in Hk as ([]&c4&_&Hk). apply m_bind_ok in Hk as ([]&c5&_&Hk). done.
  - injection Hk as <-.
    unfold on_frames, zoom, frame_id_bound_to_hitl_id, gets, on_store, m_map_err, mbind, m_bind in Hf.
    unfold zoom in Hf. simpl in Hf. destruct (get_frame_id_by_hitl_id _ _ _) as [r s].
    by injection Hf as _ <-.
Qed.

(** ** Appending under a sequential parent *)

Section appending.
Context {FS SS : Type} `{StoreSessionFrame FS} `{StoreSessionSnapshot SS}.
Context `{Xoshiro} `{Unicode} `{HashIter} `{F64} `{GraphSource} `{ErrorText}.
Notation ckp := (@Checkpointer FS SS _).
Implicit Types (c : ckp).

(** The checkpointer once the new frame is linked. *)
Definition grown (p : FrameId) (a : NewFrameNodeArgs) (position : nat) c : ckp :=
  let t := ck_frames c in
  let i := next_frame_id t in
  mkCkp (ck_session_id c)
    (mkTree (ft_store t) (ft_session_id t)
       (insert_child p i position (<[i := from_new_node (frame_node_new i a)]> (arena t)))
       (tail (ft_entropy t)) (ft_spawned t))
    (ck_snapshots c) (ck_hitls c) (ck_id c) (ck_listeners c) (ck_jobs c) (ck_worker c) (ck_now c).

Lemma tree_append_grown p a c n :
  node_at c p = Some n → arena (ck_frames c) !! next_frame_id (ck_frames c) = None →
  on_frames (tree_append p a) c =
    (Ok (next_frame_id (ck_frames c)), grown p a (length (children n)) c).
Proof.
  intros Hn Hf. unfold on_frames, zoom, tree_append, tree_insert. unfold mbind at 1, m_bind at 1.
  unfold gets. unfold mbind at 1, m_bind at 1. rewrite create_node_eq by done.
  unfold children_in. unfold node_at in Hn. by rewrite Hn.
Qed.

Lemma inherited_rest p i k cs j n n' :
  inserted p i k cs j n n' →
  frame_policy n' = frame_policy n ∧ spec_ref n' = spec_ref n ∧
  fn_inherited n' = fn_inherited n ∧ superstep n' = superstep n.
Proof. intros Hi. rewrite (ins_links _ _ _ _ _ _ _ Hi). done. Qed.
End appending.

(** The first child of a sequential frame inherits nothing from its
    parent, although the documentation says it does: it starts with its
    arguments' channels and its specification's defaults, whatever the
    parent's last snapshot holds. *)
Theorem first_child_inherits_nothing {FS SS : Type} `{StoreSessionFrame FS} `{StoreSessionSnapshot SS}
    `{Xoshiro} `{Unicode} `{HashIter} `{F64} `{GraphSource} `{ErrorText}
    (c : @Checkpointer FS SS _) (p : FrameId) (n : FrameNode) (a : NewFrameNodeArgs) (sp : CommonSpec) :
  linked (arena (ck_frames c)) → node_at c p = Some n → children n = [] →
  resume_policy (frame_policy n) = Sequential →
  arena (ck_frames c) !! next_frame_id (ck_frames c) = None →
  spec_for (a_spec_ref a) = Ok sp →
  let i := next_frame_id (ck_frames c) in
  ∃ c' m, append_frame p a c = (Ok i, c') ∧ node_at c' i = Some m ∧ parent m = Some p ∧
    fn_inherited m = default_values sp ∪ a_inherited a ∧ superstep m = a_superstep a ∧
    ck_listeners c' = ck_listeners c ++ [FrameCreated (ck_session_id c) i].
Proof.
  intros Hl Hn Hc Hp Hfresh Hsp i.
  pose proof Hn as (k&Hk&Hkn)%node_of_lookup. set (c1 := grown p a 0 c).
  destruct (Insertion.ins_new p i a 0 (arena (ck_frames c)) k Hl Hk Hfresh) as (m&Hm&Hi).
  assert (node_of (arena (ck_frames c)) p = Some (c_node k)) as Hpk by (by rewrite Hkn).
  destruct (Insertion.ins_old p i a 0 (arena (ck_frames c)) k Hl Hk Hfresh _ _ Hpk) as (n'&Hn'&Hi').
  pose proof (inherited_rest _ _ _ _ _ _ _ Hi) as (_&Hspec&Hinh&Hss).
  pose proof (inherited_rest _ _ _ _ _ _ _ Hi') as (Hpol&_).
  pose proof (ins_prev _ _ _ _ _ _ _ Hi) as Hpv. rewrite decide_True in Hpv by done.
  pose proof (ins_parent _ _ _ _ _ _ _ Hi) as Hpar. rewrite decide_True in Hpar by done.
  assert (Insertion.cs k = []) as Hcs by (unfold Insertion.cs; by rewrite Hkn).
  unfold append_frame. unfold mbind at 1, m_bind at 1.
  rewrite (tree_append_grown _ _ _ _ Hn Hfresh), Hc. fold i. simpl length. fold c1.
  unfold policy_of. unfold mbind at 1, m_bind at 1.
  rewrite (read_loaded _ c1 _ _ Hn'). unfold mbind at 1, m_bind at 1.
  rewrite (spec_of_loaded c1 i m sp Hm) by (by rewrite Hspec).
  unfold mbind at 1, m_bind at 1. rewrite (write_loaded _ c1 _ _ Hm).
  set (g := λ n0 : FrameNode, upd_inherited _ n0). set (c2 := with_node g i c1).
  assert (node_at c2 i = Some (g m)) as Hm2.
  { unfold c2. rewrite node_at_with, decide_True by done.
    exact (f_equal (fmap g) Hm). }
  assert (i ≠ p) as Hip by (intros E; rewrite <- E in Hk; unfold i in Hk; congruence).
  assert (node_at c2 p = Some n') as Hn2.
  { unfold c2. rewrite node_at_with, decide_False by done. exact Hn'. }
  rewrite decide_True by (by rewrite Hpol, Hkn).
  unfold mbind at 1, m_bind at 1. unfold mbind at 1, m_bind at 1.
  rewrite (children_loaded _ _ _ Hn2).
  pose proof (ins_children _ _ _ _ _ _ _ Hi') as Hch. rewrite decide_True, Hcs in Hch by done.
  assert (children n' = [i]) as -> by (rewrite Hch; unfold vec_insert; by rewrite take_nil, drop_nil).
  unfold inherit_from_prev_sibling. unfold mbind at 1, m_bind at 1.
  assert (on_frames (prev_sibling_of i) c2 = (Ok None, c2)) as ->.
  { unfold on_frames, zoom, prev_sibling_of, gets. unfold node_at in Hm2. rewrite Hm2. simpl.
    rewrite Hpv, Hcs. unfold pred_at. by destruct (Insertion.k _ _). }
  eexists (sends [FrameCreated (ck_session_id c) i] c2), (g m). split; [reflexivity|].
  split; [exact Hm2|]. unfold g. simpl. by rewrite Hinh, Hss.
Qed.

(** ** The end of a run is handled once *)

Section handled_once.
Context {FS SS : Type} `{StoreSessionFrame FS} `{StoreSessionSnapshot SS}.
Context `{Xoshiro} `{Unicode} `{HashIter} `{F64} `{GraphSource} `{ErrorText}.
Notation ckp := (@Checkpointer FS SS _).
Implicit Types (c : ckp).

(** The results after which the frame itself changes status; the others
    first need a parent and a next node. *)
Definition self_contained (r : FrameResult) : bool :=
  match r with FContinue | FGoTo _ | FFork _ _ => false | _ => true end.

Definition settled c f : Prop :=
  ∃ st, status_at c f = Some st ∧ match st with SRunCompleted _ => False | _ => True end.

Lemma set_status_ok st c c' f :
  on_frames (set_status f st) c = (Ok (), c') → status_at c' f = Some st.
Proof.
  unfold on_frames, zoom, set_status, write_node, tree_get, or_panic, mbind, m_bind.
  destruct (try_get f (ck_frames c)) as [[k|e|] t] eqn:E; simpl; [|done|done].
  intros [= <-]. unfold status_at, node_at. simpl. rewrite node_of_amod, decide_True by done.
  assert (is_Some (node_of (arena t) f)) as [n ->]; [|done].
  revert E. unfold try_get, gets, mbind, m_bind.
  destruct (arena (ck_frames c) !! f) as [k'|] eqn:Ek.
  - intros [= <- <-]. unfold node_of. rewrite Ek. simpl. eauto.
  - destruct (on_store _ _) as [[k'|e|] t2]; simpl; [|done|done].
    intros [= <- <-]. unfold node_of, set_arena. simpl. rewrite lookup_insert_eq. simpl. eauto.
Qed.

Lemma mark_settled st (e : SessionId → SessionCheckpointEvent) c c' f :
  (_ ← on_frames (set_status f st); s ← sid; emit (e s)) c = (Ok (), c') → status_at c' f = Some st.
Proof.
  intros ([]&c1&Hs%set_status_ok&Hk)%m_bind_ok. unfold sid, gets, emit, modify, mbind, m_bind in Hk.
  by injection Hk as <-.
Qed.

Lemma completed_settled c c' f :
  mark_completed_frame f c = (Ok (), c') → status_at c' f = Some SCompleted.
Proof.
  intros ([]&c1&Hs%set_status_ok&Hk)%m_bind_ok. unfold sid, gets, emit, modify, mbind, m_bind in Hk.
  unfold on_frames at 1, zoom, parent_of, gets in Hk. simpl in Hk.
  by destruct (_ ≫= parent); injection Hk as <-.
Qed.

Lemma result_settled c c' f r :
  self_contained r = true → on_frame_result f r c = (Ok (), c') → settled c' f.
Proof.
  intros Hr Hc. destruct r; try done; simpl in Hc.
  1: apply m_bind_ok in Hc as (?&?&_&Hc).
  1-4: apply m_bind_ok in Hc as (?&?&_&Hc).
  2-3: apply m_bind_ok in Hc as (?&?&_&Hc).
  1-4: apply set_status_ok in Hc; by eexists.
  - apply completed_settled in Hc. by eexists.
  - apply (mark_settled (SFailed msg) (λ s, FrameTerminated s f)) in Hc. by eexists.
Qed.

Lemma settled_ignores c f : settled c f → on_frame_run_terminated f c = (Ok (), c).
Proof.
  intros (st&Hst&Hn). unfold status_at in Hst. apply fmap_Some in Hst as (n&Hn'&->).
  unfold on_frame_run_terminated, status_of. unfold mbind at 1, m_bind at 1.
  rewrite (read_loaded _ _ _ _ Hn'). by destruct (status n).
Qed.
End handled_once.

(** C9: although the end of a run is announced twice, it is handled once: when
    the handler of a result that concerns the frame itself has returned, the
    second announcement changes nothing. *)
Theorem run_end_handled_once {FS SS : Type} `{StoreSessionFrame FS} `{StoreSessionSnapshot SS}
    `{Xoshiro} `{Unicode} `{HashIter} `{F64} `{GraphSource} `{ErrorText}
    (c c1 : @Checkpointer FS SS _) (f : FrameId) (resp : FrameResponse) :
  run_res (on_frames (status_of f)) c = Ok (SRunCompleted resp) →
  self_contained (fr_result resp) = true →
  on_frame_run_terminated f c = (Ok (), c1) →
  on_frame_run_terminated f c1 = (Ok (), c1).
Proof.
  intros Hst Hr Hh. apply settled_ignores. unfold on_frame_run_terminated in Hh.
  apply m_bind_ok in Hh as (st&c2&Hs&Hh). unfold run_res in Hst. rewrite Hs in Hst.
  injection Hst as ->. apply m_bind_ok in Hh as ([]&c3&_&Hh).
  apply m_bind_ok in Hh as ([]&c4&_&Hh). by eapply result_settled.
Qed.

(** A question to a human is a frame like another, which the default policy
    makes ready to run; but its kind has no JSON form, so that the checkpointer
    panics when it hands the job to the workers, before any is chosen. *)
Theorem hitl_frame_cannot_run {FS SS : Type} `{StoreSessionFrame FS} `{StoreSessionSnapshot SS}
    `{Xoshiro} `{Unicode} `{HashIter} `{F64} `{GraphSource} `{ErrorText}
    (c c1 c2 c3 : @Checkpointer FS SS _) (f : FrameId) (snap : Snapshot) (logs : list RunLog) (h : HitlId) :
  on_snapshots (latest_of f) c = (Ok snap, c1) → on_frames (logs_of f) c1 = (Ok logs, c2) →
  on_frames (data_of f) c2 = (Ok (KHitl h), c3) →
  run_frame f c = (Panic, c3).
Proof.
  intros Hs Hl Hd. unfold run_frame, mbind, m_bind. rewrite Hs, Hl. unfold sid, gets.
  cbv beta iota. by rewrite Hd.
Qed.

(** ** Concrete runs *)

Section examples.
Local Existing Instance counter_rng.
Local Existing Instance canonical_iter.
Local Existing Instance ascii_only.
Local Existing Instance f64_int.

Local Instance no_graphs : GraphSource := {|
  src_latest := λ _, Ok None; src_get := λ g, Err (CNotFound "/marie/catalog/graphs" "") |}.
Local Instance plain_text : ErrorText := {|
  error_text := λ _, "error"; worker_error_text := λ _, "worker error";
  child_failure := λ _, "children failed" |}.

Notation demo_tree := (FrameTree (gmap (SessionId * FrameId) FrameNode)).

Definition demo_ckp (t : demo_tree) (s : KeyedSnapshots) :
    @Checkpointer (gmap (SessionId * FrameId) FrameNode) KeyedSnapshots counter_rng :=
  mkCkp sid0 t (snapshots_new s sid0) (mkHitls sid0 ∅ (new_from_seed [1%Z]) [])
    (new_from_seed [2%Z]) [] [] [] 0.

Definition on_tree (t : demo_tree) (f : FrameId) (g : FrameNode → FrameNode) : demo_tree :=
  set_arena (amod g f (arena t)) t.
Definition fan_in_policy : FramePolicy := fail_fast FanIn StartRunFrame.
Definition root_snapshot : KeyedSnapshots :=
  keyed_store_upsert (snapshot_new 0 sid0 root_id 0 {["tool_result" := Array []]} []) keyed_store_empty.
Definition update (v : Value) : ChannelUpdate := mkChannelUpdate "tool_result" v root_id.
Definition response (r : FrameResult) : FrameResponse := mkFrameResponse root_id [] [] r.

Ltac node_of_demo t f n Hn :=
  destruct (node_of (arena t) f) as [n|] eqn:Hn; [|vm_compute in Hn; discriminate].

Lemma completion_notifies_twice_witness :
  let c := demo_ckp one_child keyed_store_empty in
  ck_listeners (run_state (process_ckp (FrameTerminated sid0 child1))
                  (run_state (mark_completed_frame child1) c)) =
  [FrameTerminated sid0 child1; ChildFrameTerminated sid0 root_id child1;
   ChildFrameTerminated sid0 root_id child1].
Proof.
  intros c. node_of_demo one_child child1 n Hn.
  apply (completion_notifies_twice c child1 root_id n).
  - exact Hn.
  - vm_compute in Hn. by injection Hn as <-.
Defined.

Lemma run_end_announced_twice_witness :
  ck_listeners (run_state (on_frame_run_update root_id (Completed (response FCompleted)))
    (demo_ckp root_tree keyed_store_empty)) =
  [FrameRunTerminated sid0 root_id; FrameRunTerminated sid0 root_id].
Proof.
  node_of_demo root_tree root_id n Hn. unfold run_state.
  by rewrite (run_end_announced_twice (demo_ckp root_tree keyed_store_empty) root_id n (response FCompleted) Hn).
Defined.

Lemma nothing_runs_without_snapshot_witness :
  ck_jobs (foldl (λ c e, run_state (process_ckp e) c) (demo_ckp one_child keyed_store_empty)
    [FrameCreated sid0 root_id; FrameReady sid0 root_id; FrameReady sid0 child1]) = [].
Proof.
  apply (nothing_runs_without_snapshot (demo_ckp one_child keyed_store_empty)); [|reflexivity].
  intros f. eexists. simpl. reflexivity.
Defined.

Lemma hitl_frame_cannot_run_witness :
  run_res (process_ckp (FrameReady sid0 root_id))
    (demo_ckp (on_tree root_tree root_id (λ n, mkFrameNode (session_id n) (id n) SReady
      (frame_policy n) (superstep n) (barrier n) (forked_from n) (fn_inherited n) RefHitl
      (KHitl (mkHitlId (session_id_ sid0))) (logs n) (hitl_aliases n) (is_root n) (parent n)
      (next_sibling n) (prev_sibling n) (children n))) root_snapshot) = Panic.
Proof. vm_compute. reflexivity. Qed.

Lemma commit_snapshot_spec_witness :
  ∃ snap, sn_channels snap !! "tool_result" = Some (Array [Str "a"; Str "b"]).
Proof.
  set (c := demo_ckp (on_tree root_tree root_id (λ n, mkFrameNode (session_id n) (id n) (status n)
    (frame_policy n) (superstep n) (barrier n) (forked_from n) (fn_inherited n) RefToolAggregator
    (data n) (logs n) (hitl_aliases n) (is_root n) (parent n) (next_sibling n) (prev_sibling n)
    (children n))) root_snapshot).
  destruct (commit_snapshot_spec c
    (run_state (commit_snapshot root_id 0 [update (Str "a"); update (Str "b")] []) c)
    root_id 0 [update (Str "a"); update (Str "b")] [] (mkSnapshotRef sid0 root_id 1))
    as (last&snap&Hl&_&_&Hc&_).
  - apply run_pair. vm_compute. reflexivity.
  - exists snap. vm_compute in Hc. injection Hc as <-. vm_compute. reflexivity.
Defined.

Lemma commit_check_misses_witness :
  let c := demo_ckp root_tree root_snapshot in
  let c1 := run_state (commit_snapshot root_id 0 [update (Str "a")] []) c in
  run_res (commit_snapshot root_id 0 [update (Str "b")] []) c1 ≠ Err (StaleSuperstep 0 1).
Proof.
  intros c c1.
  apply (commit_check_misses c c1 root_id 0 1 [update (Str "a")] [update (Str "b")] [] []
           (mkSnapshotRef sid0 root_id 1)).
  apply run_pair. vm_compute. reflexivity.
Defined.

(** Two children, of which the first failed and the second is at work. *)
Definition fan_in_tree : demo_tree :=
  on_tree (on_tree two_children root_id (upd_policy (mkFramePolicy (FailIfAtLeastHasFailed 2) FanIn
    DontReduce ResumeRunFrame StartRunFrame))) child1 (upd_status (SFailed "x")).

Lemma fan_in_waits_witness :
  let c := demo_ckp fan_in_tree keyed_store_empty in
  on_child_frame_terminated root_id child1 c = (Ok (), c).
Proof.
  intros c. node_of_demo fan_in_tree root_id n Hn. node_of_demo fan_in_tree child1 m Hm.
  node_of_demo fan_in_tree child2 b Hb.
  apply (fan_in_waits c root_id child1 child2 n m b).
  - exact Hn.
  - vm_compute in Hn. by injection Hn as <-.
  - assert (children n = [child1; child2]) as -> by (vm_compute in Hn; by injection Hn as <-).
    apply Forall_cons_2; [exists m; exact Hm|].
    apply Forall_cons_2; [exists b; exact Hb|apply Forall_nil_2].
  - exact Hm.
  - intros msg limit _ Hlim. vm_compute in Hn. injection Hn as <-. injection Hlim as <-.
    vm_compute. constructor.
  - vm_compute in Hn. injection Hn as <-. right. left.
  - exact Hb.
  - vm_compute in Hb. by injection Hb as <-.
Defined.

Definition failing_tree : demo_tree :=
  on_tree (on_tree one_child root_id (upd_policy fan_in_policy)) child1 (upd_status (SFailed "x")).

Lemma failure_propagates_witness :
  ck_listeners (run_state (on_child_frame_terminated root_id child1) (demo_ckp failing_tree keyed_store_empty))
  = [FrameTerminated sid0 root_id].
Proof.
  node_of_demo failing_tree root_id n Hn. node_of_demo failing_tree child1 m Hm.
  assert (children n = [child1]) as Hc by (vm_compute in Hn; by injection Hn as <-).
  unfold run_state.
  rewrite (failure_propagates (demo_ckp failing_tree keyed_store_empty) root_id child1 n m "x" 1).
  - reflexivity.
  - exact Hn.
  - vm_compute in Hn. by injection Hn as <-.
  - rewrite Hc. apply Forall_cons_2; [exists m; exact Hm|apply Forall_nil_2].
  - exact Hm.
  - vm_compute in Hm. by injection Hm as <-.
  - rewrite Hc. vm_compute. constructor.
Defined.

Lemma hitl_answer_never_resumes_witness :
  let c := demo_ckp one_child keyed_store_empty in
  ck_listeners (run_state (on_hitl_response (mkHitlId (mkID 9 9)) ∅) c) = [].
Proof.
  intros c.
  apply (hitl_answer_never_resumes c (run_state (on_hitl_response (mkHitlId (mkID 9 9)) ∅) c)
           (mkHitlId (mkID 9 9)) ∅).
  apply run_pair. vm_compute. reflexivity.
Defined.

Lemma first_child_inherits_nothing_witness :
  ∃ c' m, append_frame root_id void_args (demo_ckp root_tree root_snapshot) = (Ok child1, c') ∧
          node_at c' child1 = Some m ∧ fn_inherited m = ∅.
Proof.
  node_of_demo root_tree root_id n Hn.
  destruct (first_child_inherits_nothing (demo_ckp root_tree root_snapshot) root_id n void_args spec_tool)
    as (c'&m&Ha&Hm&_&Hi&_).
  - apply root_tree_linked.
  - exact Hn.
  - vm_compute in Hn. by injection Hn as <-.
  - vm_compute in Hn. by injection Hn as <-.
  - vm_compute. reflexivity.
  - reflexivity.
  - exists c', m. split; [exact Ha|]. split; [exact Hm|]. exact Hi.
Defined.

Lemma run_end_handled_once_witness :
  let c := demo_ckp (on_tree root_tree root_id (upd_status (SRunCompleted (response FCompleted)))) keyed_store_empty in
  let c1 := run_state (on_frame_run_terminated root_id) c in
  on_frame_run_terminated root_id c1 = (Ok (), c1).
Proof.
  intros c c1. apply (run_end_handled_once c c1 root_id (response FCompleted)).
  - vm_compute. reflexivity.
  - reflexivity.
  - apply run_pair. vm_compute. reflexivity.
Defined.
End examples.
