(* ===== verification/Controller.v ===== *)
(** * The controller and the checkpointers' loops
    ([session/controller.rs], the loop of [session/checkpointer/mod.rs])

    The controller creates checkpointers, one task each, and routes events to
    them.  A task takes events from its own queue, handles them, and ends when
    it is closed. *)

From S2P Require Import Prelude Ids Json Channels Types Spec RunLog Catalog Domains Frames Wire Errors Tree Snapshots Sessions Hitl Checkpointer.

(** [NewSessionArgs] *)
Inductive NewSessionArgs :=
  | NewShell (m : ShellMode)
  | NewGraph (g : GraphId) (initial : Channels).

Inductive Phase := Looping | Draining | Ended | Crashed.

Section controller.
Context {FS SS : Type} `{StoreSessionFrame FS} `{StoreSessionSnapshot SS}.
Context `{Xoshiro} `{Unicode} `{HashIter} `{F64} `{GraphSource} `{ErrorText}.
Notation ckp := (@Checkpointer FS SS _).

(** ** A task: the checkpointer, its session, its queue *)

Record Task := mkTask {
  tk_ckp : ckp;
  tk_session : UnitOfWork;
  tk_queue : list SessionCheckpointEvent;
  tk_status : CkpStatus;
  tk_phase : Phase;
  (** the live handles on the queue's sending side, the task's own included *)
  tk_senders : nat
}.

(** What a task shares with the others. *)
Record Shared := mkShared { sh_store : InMemorySessionStore; sh_bus : list SessionEvent }.

Definition running : Type := ckp * UnitOfWork * Shared.
Notation PM := (M running SessionError).

(** [SessionCheckpointer::fail]: an error of the flush is only traced. *)
Definition fail (err : SessionError) : PM () := λ '(c, u, sh),
  match uow_deref_mut (E:=Error) (set_session_status (StFailed (error_text err))) u with
  | Ok u =>
      let '(r, st) := uow_flush u (sh_store sh) in
      let u := match r with Ok u => u | _ => u end in
      (Ok (), (c, u, mkShared st (sh_bus sh ++
         [EvStatusUpdated (ck_session_id c) (s_status (entity u))])))
  | _ => (Panic, (c, u, sh))
  end.

(** [process_event] *)
Definition process_event (e : SessionCheckpointEvent) : PM () := λ '(c, u, sh),
  let '(r, c) := process_ckp e c in
  match r with
  | Err err =>
      match fail err (c, u, sh) with
      | (Panic, s) => (Panic, s)
      | (_, s) => (Err err, s)
      end
  | r => (r, (c, u, sh))
  end.

(** ** The loop *)

Definition on_task (e : SessionCheckpointEvent) (q : list SessionCheckpointEvent)
    (next : Res SessionError () → Phase) (t : Task) (sh : Shared) : Task * Shared :=
  let '(r, (c, u, sh)) := process_event e (tk_ckp t, tk_session t, sh) in
  (mkTask c u q (tk_status t) (next r) (tk_senders t), sh).

(** While looping, an error is dropped; while draining it ends the loop. *)
Definition after_loop (r : Res SessionError ()) : Phase :=
  match r with Panic => Crashed | _ => Looping end.
Definition after_drain (r : Res SessionError ()) : Phase :=
  match r with Panic => Crashed | Ok _ => Draining | Err _ => Ended end.

(** The last steps of [run]: flush the session, announce [Closed]; the task's
    handles are dropped. *)
Definition finish (t : Task) (sh : Shared) : Task * Shared :=
  let '(r, st) := uow_flush (tk_session t) (sh_store sh) in
  (mkTask (tk_ckp t) (match r with Ok u => u | _ => tk_session t end) (tk_queue t) Closed Ended
     (pred (tk_senders t)), mkShared st (sh_bus sh)).

Inductive task_step : Task * Shared → Task * Shared → Prop :=
  | step_start t sh : tk_status t = Initialising → tk_phase t = Looping →
      task_step (t, sh) (mkTask (tk_ckp t) (tk_session t) (tk_queue t) CkRunning Looping (tk_senders t), sh)
  | step_event t sh e q : tk_phase t = Looping → tk_queue t = e :: q →
      task_step (t, sh) (on_task e q after_loop t sh)
  | step_closing t sh : tk_phase t = Looping → tk_status t = Closing →
      task_step (t, sh) (mkTask (tk_ckp t) (tk_session t) (tk_queue t) Closing Draining (tk_senders t), sh)
  | step_drain t sh e q : tk_phase t = Draining → tk_queue t = e :: q →
      run_res (process_event e) (tk_ckp t, tk_session t, sh) = Ok () →
      task_step (t, sh) (on_task e q after_drain t sh)
  (** [recv] returns [None] once every sender is gone. *)
  | step_drained t sh : tk_phase t = Draining → tk_queue t = [] → tk_senders t = 0 →
      task_step (t, sh) (finish t sh)
  (** what other tasks do: send, ask for the end, clone or drop a handle *)
  | step_send t sh e : 
      task_step (t, sh) (mkTask (tk_ckp t) (tk_session t) (tk_queue t ++ [e]) (tk_status t)
                           (tk_phase t) (tk_senders t), sh)
  | step_close t sh :
      task_step (t, sh) (mkTask (tk_ckp t) (tk_session t) (tk_queue t) Closing (tk_phase t) (tk_senders t), sh)
  | step_clone t sh :
      task_step (t, sh) (mkTask (tk_ckp t) (tk_session t) (tk_queue t) (tk_status t) (tk_phase t)
                           (S (tk_senders t)), sh)
  | step_drop t sh : 2 ≤ tk_senders t →
      task_step (t, sh) (mkTask (tk_ckp t) (tk_session t) (tk_queue t) (tk_status t) (tk_phase t)
                           (pred (tk_senders t)), sh).

(** A drain step whose event fails ends the loop. *)
Inductive failed_drain : Task * Shared → Task * Shared → Prop :=
  | step_drain_failed t sh e q err : tk_phase t = Draining → tk_queue t = e :: q →
      run_res (process_event e) (tk_ckp t, tk_session t, sh) = Err err →
      failed_drain (t, sh) (let '(t, sh) := on_task e q after_drain t sh in finish t sh).

(** [SessionCheckpointer::new]: the caller and the task hold a handle. *)
Definition task_new (c : ckp) (x : Session) : Task := mkTask c (uow_new x) [] Initialising Looping 2.

Definition initialise_as_new (a : NewSessionArgs) (t : Task) : Task := t.

(** [send_ckp_event], when its future is awaited. *)
Definition send_ckp_event (e : SessionCheckpointEvent) (t : Task) : Task :=
  mkTask (tk_ckp t) (tk_session t) (tk_queue t ++ [e]) (tk_status t) (tk_phase t) (tk_senders t).

(** ** The controller *)

(** [new_ckp] is the factory: the components of a checkpointer for a session. *)
Context (new_ckp : Session → ckp).

Record SessionController := mkController {
  co_shared : Shared;
  (** the cache of loaded sessions, and the tasks no one holds in it *)
  co_sessions : gmap SessionId Task;
  co_detached : list Task;
  co_id : IdGenerator;
  co_queue : list SessionCheckpointEvent;
  co_now : Z
}.
Notation CtM := (M SessionController SessionError).

Definition co_on_store {A} (m : M InMemorySessionStore Error A) : CtM A :=
  m_map_err StorageError
    (zoom (sh_store ∘ co_shared)
      (λ st s, mkController (mkShared st (sh_bus (co_shared s))) (co_sessions s) (co_detached s)
         (co_id s) (co_queue s) (co_now s)) m).

Definition set_sessions (m : gmap SessionId Task) (s : SessionController) : SessionController :=
  mkController (co_shared s) m (co_detached s) (co_id s) (co_queue s) (co_now s).

Definition instantiate_session_ckp (i : SessionId) : CtM Task :=
  x ← co_on_store (InMemorySessions.get_session i);
  mret (task_new (new_ckp x) x).

Definition co_get (i : SessionId) : CtM Task :=
  cached ← gets (λ s, co_sessions s !! i);
  match cached with
  | Some t => mret t
  | None =>
      t ← instantiate_session_ckp i;
      _ ← modify (λ s, set_sessions (<[i := t]> (co_sessions s)) s);
      mret t
  end.

Definition reply_hitl (r : HitlResponse) : CtM () := modify (λ s,
  mkController (co_shared s) (co_sessions s) (co_detached s) (co_id s)
    (co_queue s ++ [CkHitlAnswered (hres_session_id r) r]) (co_now s)).

Definition create_session (a : NewSessionArgs) : CtM SessionId := λ s,
  let '(i, g) := next_id (co_id s) in
  let x := session_new (co_now s) (mkSessionId i) in
  let t := initialise_as_new a (task_new (new_ckp x) x) in
  (Ok (mkSessionId i),
   mkController (co_shared s) (co_sessions s) (t :: co_detached s) g (co_queue s) (co_now s)).

Definition controller_list_sessions : CtM (list Session) := co_on_store InMemorySessions.list_sessions.

(** [invalidate] closes the evicted checkpointer, then the row goes. *)
Definition close_task (t : Task) : Task :=
  mkTask (tk_ckp t) (tk_session t) (tk_queue t) Closing (tk_phase t) (tk_senders t).

Definition evict (i : SessionId) : CtM () := modify (λ s,
  match co_sessions s !! i with
  | None => s
  | Some t => mkController (co_shared s) (base.delete i (co_sessions s)) (close_task t :: co_detached s)
                (co_id s) (co_queue s) (co_now s)
  end).

Definition controller_delete_session (i : SessionId) : CtM () :=
  _ ← evict i;
  _ ← co_on_store (InMemorySessions.delete_session i);
  mret ().

(** The future of [send_ckp_event] is dropped: the session is loaded, the
    event goes no further. *)
Definition process_checkpoint_event (e : SessionCheckpointEvent) : CtM () :=
  ignore (co_get (ckp_event_session_id e)).

Definition process_session_event (e : SessionEvent) : CtM () :=
  match e with
  | EvHitlAnswered r => process_checkpoint_event (CkHitlAnswered (hres_session_id r) r)
  | _ => mret ()
  end.

(** One turn of the controller's loop. *)
Definition controller_turn : CtM () := λ s,
  match co_queue s with
  | [] => (Ok (), s)
  | e :: q => process_checkpoint_event e
      (mkController (co_shared s) (co_sessions s) (co_detached s) (co_id s) q (co_now s))
  end.

(** What is asked of a controller. *)
Inductive Command :=
  | CmdReply (r : HitlResponse)
  | CmdCreate (a : NewSessionArgs)
  | CmdDelete (i : SessionId)
  | CmdEvict (i : SessionId)
  | CmdSessionEvent (e : SessionEvent)
  | CmdQueue (e : SessionCheckpointEvent)
  | CmdTurn.

Definition run_command (k : Command) (s : SessionController) : SessionController :=
  match k with
  | CmdReply r => run_state (reply_hitl r) s
  | CmdCreate a => run_state (create_session a) s
  | CmdDelete i => run_state (controller_delete_session i) s
  | CmdEvict i => run_state (evict i) s
  | CmdSessionEvent e => run_state (process_session_event e) s
  | CmdQueue e => run_state (process_checkpoint_event e) s
  | CmdTurn => run_state controller_turn s
  end.

(** ** Lemmas *)

Definition quiet (t : Task) : Prop := tk_queue t = [].
Definition all_quiet (s : SessionController) : Prop :=
  map_Forall (λ _, quiet) (co_sessions s) ∧ Forall quiet (co_detached s).

Lemma keeps_quiet_store {A} (m : M InMemorySessionStore Error A) : keeps all_quiet (co_on_store m).
Proof. apply keeps_map_err, keeps_zoom. by intros s Hs. Qed.

Lemma keeps_quiet_evict i : keeps all_quiet (evict i).
Proof.
  apply keeps_modify. intros s [Hs Hd]. destruct (co_sessions s !! i) as [t|] eqn:Ht; [|done].
  split; simpl.
  - by apply map_Forall_delete.
  - constructor; [|done]. apply (Hs _ _ Ht).
Qed.

Lemma keeps_quiet_event e : keeps all_quiet (process_checkpoint_event e).
Proof.
  apply keeps_ignore. unfold co_get. apply keeps_bind; [apply keeps_gets|]. intros [t|]; [apply keeps_ret|].
  intros s Hs. unfold run_state, mbind at 1, m_bind at 1, instantiate_session_ckp.
  unfold mbind at 1, m_bind at 1. pose proof (keeps_quiet_store
    (InMemorySessions.get_session (ckp_event_session_id e)) s Hs) as Hs'. unfold run_state in Hs'.
  destruct (co_on_store _ s) as [[x|er|] s1]; simpl in *; [|done|done].
  destruct Hs' as [Hq Hd]. split; [|done]. simpl. by apply map_Forall_insert_2.
Qed.

Lemma run_command_quiet k s : all_quiet s → all_quiet (run_command k s).
Proof.
  intros Hs. destruct k; simpl.
  - done.
  - destruct Hs as [Hs Hd]. unfold run_state, create_session. destruct (next_id (co_id s)).
    split; [done|]. by constructor.
  - revert s Hs. apply keeps_bind; [apply keeps_quiet_evict|]. intros _.
    apply keeps_bind; [apply keeps_quiet_store|]. intros _. apply keeps_ret.
  - by apply keeps_quiet_evict.
  - destruct e; try done. by apply keeps_quiet_event.
  - by apply keeps_quiet_event.
  - unfold run_state, controller_turn. destruct (co_queue s) as [|e q]; [done|].
    by apply (keeps_quiet_event e).
Qed.

Lemma uow_flush_senders t sh : tk_senders (finish t sh).1 = pred (tk_senders t).
Proof. unfold finish. by destruct (uow_flush _ _). Qed.

(** The task's own handle outlives its loop. *)
Definition alive (x : Task * Shared) : Prop := 1 ≤ tk_senders x.1 ∧ tk_phase x.1 ≠ Ended.

Lemma on_task_senders e q next t sh :
  tk_senders (on_task e q next t sh).1 = tk_senders t ∧
  ∃ r, r = run_res (process_event e) (tk_ckp t, tk_session t, sh) ∧
       tk_phase (on_task e q next t sh).1 = next r.
Proof.
  unfold on_task, run_res. destruct (process_event e _) as [r [[c u] sh']]. simpl. eauto.
Qed.

Lemma task_step_alive x y : task_step x y → alive x → alive y.
Proof.
  destruct 1 as [| t sh e q Hp Hq | | t sh e q Hp Hq Hok | t sh Hp Hq Hs | | | | ];
    unfold alive; simpl; intros [Hs' Hph]; try done; try (split; [lia|done]).
  - destruct (on_task_senders e q after_loop t sh) as (->&r&_&->). split; [done|]. by destruct r.
  - destruct (on_task_senders e q after_drain t sh) as (->&r&->&->). rewrite Hok. done.
  - lia.
Qed.
End controller.

(** No event ever reaches a checkpointer: whatever is asked of the
    controller, in any order, the queue of every checkpointer stays empty. *)
Theorem events_never_delivered {FS SS : Type} `{StoreSessionFrame FS} `{StoreSessionSnapshot SS}
    `{Xoshiro} `{Unicode} `{HashIter} `{F64} `{GraphSource} `{ErrorText}
    (new_ckp : Session → @Checkpointer FS SS _) (commands : list Command) (sh : Shared)
    (g : IdGenerator) (q : list SessionCheckpointEvent) (now : Z) :
  all_quiet (foldl (λ s k, run_command new_ckp k s) (mkController sh ∅ [] g q now) commands).
Proof.
  assert (all_quiet (mkController (FS:=FS) (SS:=SS) sh ∅ [] g q now)) as Hs.
  { split; [apply map_Forall_empty|constructor]. }
  revert Hs. generalize (mkController (FS:=FS) (SS:=SS) sh ∅ [] g q now).
  induction commands as [|k commands IH]; intros s Hs; simpl; [done|].
  by apply IH, run_command_quiet.
Qed.

(** A session that has been created cannot be loaded: creating it stores
    nothing, so unless storage already held its identifier, the first event
    for it finds no session. *)
Theorem created_session_not_stored {FS SS : Type} `{StoreSessionFrame FS} `{StoreSessionSnapshot SS}
    `{Xoshiro} `{Unicode} `{HashIter} `{F64} `{GraphSource} `{ErrorText}
    (new_ckp : Session → @Checkpointer FS SS _) (a : NewSessionArgs) (s s' : SessionController)
    (i : SessionId) :
  create_session new_ckp a s = (Ok i, s') →
  st_sessions (sh_store (co_shared s)) !! i = None → co_sessions s !! i = None →
  run_res (co_get new_ckp i) s' = Err (StorageError (ESessionNotFound i)).
Proof.
  unfold create_session. destruct (next_id (co_id s)) as [j g]. intros [= <- <-] Hst Hc.
  unfold run_res, co_get, gets, mbind, m_bind, instantiate_session_ckp, co_on_store, m_map_err, zoom,
    InMemorySessions.get_session. simpl. rewrite Hc. unfold zoom, compose, mbind, m_bind. simpl. by rewrite Hst.
Qed.

(** Closing a checkpointer does not end its loop: the loop waits for every
    sender of its queue to go, and holds one itself; so as long as no event
    fails while it drains, it never ends. *)
Theorem close_never_ends {FS SS : Type} `{StoreSessionFrame FS} `{StoreSessionSnapshot SS}
    `{Xoshiro} `{Unicode} `{HashIter} `{F64} `{GraphSource} `{ErrorText}
    (c : @Checkpointer FS SS _) (x : Session) (sh sh' : Shared) (t : Task) :
  rtc task_step (task_new c x, sh) (t, sh') → tk_phase t ≠ Ended.
Proof.
  intros Hs. assert (alive (t, sh')) as [_ ?]; [|done].
  assert (alive (task_new c x, sh)) as Ha by (split; simpl; [lia|done]).
  revert Ha. induction Hs as [|y1 y2 y3 Hy _ IH]; [done|].
  intros Ha. apply IH. by eapply task_step_alive.
Qed.

(** When a handler fails, the session is stored as failed with the error's
    text and the new status is announced. *)
Theorem failure_recorded {FS SS : Type} `{StoreSessionFrame FS} `{StoreSessionSnapshot SS}
    `{Xoshiro} `{Unicode} `{HashIter} `{F64} `{GraphSource} `{ErrorText}
    (e : SessionCheckpointEvent) (c : @Checkpointer FS SS _) (x : Session) (sh : Shared)
    (err : SessionError) :
  run_res (process_ckp e) c = Err err →
  let u := uow_new x in
  let s' := run_state (process_event e) (c, u, sh) in
  let failed := set_session_status (StFailed (error_text err)) x in
  run_res (process_event e) (c, u, sh) = Err err ∧
  st_sessions (sh_store s'.2) !! s_id x = Some failed ∧
  uow_dirty s'.1.2 = false ∧ entity s'.1.2 = failed ∧
  sh_bus s'.2 = sh_bus sh ++
    [EvStatusUpdated (ck_session_id (run_state (process_ckp e) c)) (StFailed (error_text err))].
Proof.
  intros Hr u s' failed. unfold s', run_state, run_res in *. unfold process_event.
  destruct (process_ckp e c) as [r c1]. simpl in Hr. subst r. simpl.
  by rewrite lookup_insert_eq.
Qed.

Section examples.
Local Existing Instance counter_rng.
Local Existing Instance canonical_iter.
Local Existing Instance ascii_only.
Local Existing Instance f64_int.

#[local] Instance no_graph_source : GraphSource := {|
  src_latest := λ _, Ok None; src_get := λ g, Err (CNotFound "/marie/catalog/graphs" "") |}.
#[local] Instance short_texts : ErrorText := {|
  error_text := λ _, "error"; worker_error_text := λ _, "worker error";
  child_failure := λ _, "children failed" |}.

Definition empty_ckp (x : Session) :
    @Checkpointer (gmap (SessionId * FrameId) FrameNode) KeyedSnapshots counter_rng :=
  mkCkp (s_id x) (tree_new ∅ (s_id x) []) (snapshots_new keyed_store_empty (s_id x))
    (mkHitls (s_id x) ∅ (new_from_seed [1%Z]) []) (new_from_seed [2%Z]) [] [] [] 0.

Definition empty_shared : Shared := mkShared (mkSessionStore ∅ ∅ ∅) [].

Lemma created_session_not_stored_witness :
  let s := mkController empty_shared ∅ [] (new_from_seed [5%Z]) [] 0 in
  run_res (co_get empty_ckp (mkSessionId (mkID 5 6)))
    (run_state (create_session empty_ckp (NewGraph "g" ∅)) s) =
  Err (StorageError (ESessionNotFound (mkSessionId (mkID 5 6)))).
Proof.
  intros s.
  apply (created_session_not_stored empty_ckp (NewGraph "g" ∅) s).
  - apply run_pair. vm_compute. reflexivity.
  - reflexivity.
  - reflexivity.
Defined.

Lemma close_never_ends_witness :
  let t := task_new (empty_ckp (session_new 0 sid0)) (session_new 0 sid0) in
  tk_phase (mkTask (tk_ckp t) (tk_session t) [] Closing Draining 2) ≠ Ended.
Proof.
  intros t.
  apply (close_never_ends (empty_ckp (session_new 0 sid0)) (session_new 0 sid0) empty_shared empty_shared).
  eapply rtc_l; [apply step_close|]. eapply rtc_l; [by apply step_closing|]. apply rtc_refl.
Defined.

Lemma failure_recorded_witness :
  let x := session_new 0 sid0 in
  sh_bus (run_state (process_event (FrameReady sid0 (fid 1)))
    (empty_ckp x, uow_new x, empty_shared)).2 = [EvStatusUpdated sid0 (StFailed "error")].
Proof.
  intros x.
  destruct (failure_recorded (FrameReady sid0 (fid 1)) (empty_ckp x) x empty_shared
    (StorageError (ESnapshotNotFound sid0 (fid 1) 0))) as (_&_&_&_&Hb).
  - vm_compute. reflexivity.
  - rewrite Hb. reflexivity.
Defined.
End examples.
