(* ===== verification/Secrets.v ===== *)
(** * Secrets ([marie-core/src/secret])

    A [SecretManager] holds one master key per epoch and derives every other
    key from them; rotation adds an epoch, makes it current and retires the
    old one.  The [Vault] stores what it encrypts under a derived key in a
    storage backend.

    HKDF, HMAC, ChaCha20-Poly1305 and the source of nonces are third-party
    code: [Ciphers] states what their documentation promises and what the
    code relies on. *)

From Stdlib Require Import Ascii.
From stdpp Require Import sorting.
From S2P Require Import Prelude Ids Types Frames Catalog Errors.

(** ** Bytes and strings

    A Rust [String] is its UTF-8 bytes. *)

Definition as_bytes (s : string) : list Z :=
  (λ c, Z.of_N (Ascii.N_of_ascii c)) <$> String.list_ascii_of_string s.

Definition string_of_bytes (l : list Z) : string :=
  String.string_of_list_ascii ((λ z, Ascii.ascii_of_N (Z.to_N z)) <$> l).

Definition in_range (lo hi b : Z) : bool := (lo <=? b)%Z && (b <=? hi)%Z.
Definition continuation (b : Z) : bool := in_range 128 191 b.

(** [std::str::from_utf8]: the well-formed sequences of one to four bytes. *)
Fixpoint utf8_valid (l : list Z) : bool :=
  match l with
  | [] => true
  | b :: l =>
      if in_range 0 127 b then utf8_valid l
      else match l with
      | [] => false
      | c1 :: l =>
          if in_range 194 223 b then continuation c1 && utf8_valid l
          else match l with
          | [] => false
          | c2 :: l =>
              if in_range 224 239 b
              then (if (b =? 224)%Z then in_range 160 191 c1
                    else if (b =? 237)%Z then in_range 128 159 c1 else continuation c1)
                   && continuation c2 && utf8_valid l
              else match l with
              | [] => false
              | c3 :: l =>
                  in_range 240 244 b
                  && (if (b =? 240)%Z then in_range 144 191 c1
                      else if (b =? 244)%Z then in_range 128 143 c1 else continuation c1)
                  && continuation c2 && continuation c3 && utf8_valid l
              end
          end
      end
  end.

(** [String::from_utf8] *)
Definition from_utf8 (l : list Z) : option string :=
  if utf8_valid l then Some (string_of_bytes l) else None.

(** ** Third-party primitives *)

Class Ciphers := {
  hkdf_expand : list Z → list Z → nat → option (list Z);
  hmac_sha256 : list Z → list Z → option (list Z);
  aead_encrypt : list Z → list Z → list Z → option (list Z);
  aead_decrypt : list Z → list Z → list Z → option (list Z);
  os_rng : Type;
  generate_nonce : os_rng → list Z * os_rng;

  (** At most 255 blocks of 32 bytes can be expanded. *)
  hkdf_expand_some : ∀ ikm info n, n ≤ 255 * 32 →
    ∃ key, hkdf_expand ikm info n = Some key ∧ length key = n;
  (** A MAC takes a key of any length. *)
  hmac_some : ∀ key msg, ∃ tag, hmac_sha256 key msg = Some tag;
  aead_decrypt_encrypt : ∀ key nonce p c,
    aead_encrypt key nonce p = Some c → aead_decrypt key nonce c = Some p;
  generate_nonce_length : ∀ r, length (generate_nonce r).1 = 12
}.

Notation KeyEpoch := Z (only parsing).
Notation SecretKey := (list Z) (only parsing).
Definition DEFAULT_EPOCH : KeyEpoch := 0%Z.

Inductive SecretError :=
  | HkdfExpandFailed
  | MacInitFailed
  | EncryptionFailed
  | DecryptionFailed
  | Utf8DecodingFailed
  | UnknownEpoch (e : KeyEpoch)
  | CannotRetireCurrentEpoch (e : KeyEpoch)
  | LastEpoch
  | CurrentEpochNotProvided (e : KeyEpoch)
  | NoKeysProvided.

Record EncryptedSecret := mkEncrypted {
  key_epoch : KeyEpoch; ciphertext : list Z; nonce : list Z; algorithm : string }.

(** [NodeSecretManager], less its [global] field, which nothing reads. *)
Record NodeSecretManager := mkNodeSecrets { nsm_epoch : KeyEpoch; peer_key : SecretKey }.

Record EpochSecretKey := mkEpochKey { esk_epoch : KeyEpoch; esk_key : SecretKey }.

(** [Inner], behind the mutex that every clone of a manager shares. *)
Record SecretManager := mkManager { keys : gmap KeyEpoch SecretKey; current_epoch : KeyEpoch }.

Notation SMon := (M SecretManager SecretError).

(** ** Ciphering: [impl SecretCodec] *)

Section ciphering.
Context `{Ciphers}.

(** [impl SecretCodec for SecretKey]: the epoch is always the default one. *)
Definition key_encrypt (key : SecretKey) (secret : list Z)
    : M os_rng SecretError EncryptedSecret := λ r,
  let '(n, r) := generate_nonce r in
  (of_option EncryptionFailed
     ((λ c, mkEncrypted DEFAULT_EPOCH c n "ChaCha20-Poly1305") <$> aead_encrypt key n secret), r).

(** [Nonce::from_slice] panics unless it is given 12 bytes. *)
Definition key_decrypt (key : SecretKey) (e : EncryptedSecret) : Res SecretError (list Z) :=
  if decide (length (nonce e) = 12)
  then of_option DecryptionFailed (aead_decrypt key (nonce e) (ciphertext e))
  else Panic.

Definition stamp (epoch : KeyEpoch) (e : EncryptedSecret) : EncryptedSecret :=
  mkEncrypted epoch (ciphertext e) (nonce e) (algorithm e).

Definition epoch_key_encrypt (k : EpochSecretKey) (secret : list Z)
    : M os_rng SecretError EncryptedSecret :=
  encrypted ← key_encrypt (esk_key k) secret;
  mret (stamp (esk_epoch k) encrypted).

Definition epoch_key_decrypt (k : EpochSecretKey) (e : EncryptedSecret) : Res SecretError (list Z) :=
  key_decrypt (esk_key k) e.

Definition node_encrypt (k : NodeSecretManager) (secret : list Z)
    : M os_rng SecretError EncryptedSecret := λ r,
  let '(n, r) := generate_nonce r in
  (of_option EncryptionFailed
     ((λ c, mkEncrypted (nsm_epoch k) c n "ChaCha20-Poly1305") <$> aead_encrypt (peer_key k) n secret), r).

Definition node_decrypt (k : NodeSecretManager) (e : EncryptedSecret) : Res SecretError (list Z) :=
  if decide (length (nonce e) = 12)
  then of_option DecryptionFailed (aead_decrypt (peer_key k) (nonce e) (ciphertext e))
  else Panic.

(** [SecretCodec::decrypt_str], for any of the codecs above. *)
Definition decrypt_str (decrypted : Res SecretError (list Z)) : Res SecretError string :=
  decrypted ≫= λ bytes, of_option Utf8DecodingFailed (from_utf8 bytes).

(** ** The manager *)

(** The later of two keys given for one epoch wins, as [collect] inserts. *)
Definition with_epochs (epochs : list (KeyEpoch * SecretKey)) (current : KeyEpoch)
    : Res SecretError SecretManager :=
  let ks := foldl (λ m '(e, k), <[e := k]> m) ∅ epochs in
  if decide (ks = ∅) then Err NoKeysProvided
  else match ks !! current with
       | None => Err (CurrentEpochNotProvided current)
       | Some _ => Ok (mkManager ks current)
       end.

Definition manager_new (master : SecretKey) : Res SecretError SecretManager :=
  match with_epochs [(DEFAULT_EPOCH, master)] DEFAULT_EPOCH with
  | Ok m => Ok m
  | _ => Panic
  end.

Definition add_epoch (epoch : KeyEpoch) (key : SecretKey) : SMon () :=
  modify (λ m, mkManager (<[epoch := key]> (keys m)) (current_epoch m)).

Definition set_current_epoch (epoch : KeyEpoch) : SMon () := λ m,
  match keys m !! epoch with
  | None => (Err (UnknownEpoch epoch), m)
  | Some _ => (Ok (), mkManager (keys m) epoch)
  end.

Definition retire_epoch (epoch : KeyEpoch) : SMon () := λ m,
  if decide (current_epoch m = epoch) then (Err (CannotRetireCurrentEpoch epoch), m)
  else if decide (size (keys m) ≤ 1) then (Err LastEpoch, m)
  else (Ok (), mkManager (base.delete epoch (keys m)) (current_epoch m)).

Definition has_epoch (epoch : KeyEpoch) (m : SecretManager) : bool :=
  bool_decide (is_Some (keys m !! epoch)).

(** Sorted, as a [BTreeMap] enumerates its keys. *)
Definition epochs (m : SecretManager) : list KeyEpoch :=
  merge_sort Z.le ((map_to_list (keys m)).*1).

Definition derive_key (epoch : KeyEpoch) (namespace : list Z) (m : SecretManager)
    : Res SecretError SecretKey :=
  ikm ← of_option (UnknownEpoch epoch) (keys m !! epoch);
  of_option HkdfExpandFailed (hkdf_expand ikm namespace 32).

Definition derive_key_current (namespace : list Z) (m : SecretManager) : Res SecretError SecretKey :=
  derive_key (current_epoch m) namespace m.

Definition derive_node_key_for_epoch (epoch : KeyEpoch) (n : NodeId) (m : SecretManager)
    : Res SecretError SecretKey := derive_key epoch (node_bytes n) m.

Definition derive_node_key (n : NodeId) (m : SecretManager) : Res SecretError SecretKey :=
  derive_node_key_for_epoch (current_epoch m) n m.

Definition derive_storage_key_for_epoch (epoch : KeyEpoch) (m : SecretManager)
    : Res SecretError EpochSecretKey :=
  key ← derive_key epoch (as_bytes "marie/at-rest-storage/v1") m;
  mret (mkEpochKey epoch key).

Definition derive_storage_key (m : SecretManager) : Res SecretError EpochSecretKey :=
  derive_storage_key_for_epoch (current_epoch m) m.

Definition for_node_epoch (n : NodeId) (epoch : KeyEpoch) (m : SecretManager)
    : Res SecretError NodeSecretManager :=
  key ← derive_node_key_for_epoch epoch n m;
  mret (mkNodeSecrets epoch key).

Definition for_node (n : NodeId) (m : SecretManager) : Res SecretError NodeSecretManager :=
  for_node_epoch n (current_epoch m) m.

Definition prove_membership (n : NodeId) (nonce : list Z) (m : SecretManager)
    : Res SecretError (KeyEpoch * list Z) :=
  node_key ← derive_node_key_for_epoch (current_epoch m) n m;
  tag ← of_option MacInitFailed (hmac_sha256 node_key nonce);
  mret (current_epoch m, tag).

Definition verify_membership (n : NodeId) (nonce : list Z) (epoch : KeyEpoch) (proof : list Z)
    (m : SecretManager) : Res SecretError bool :=
  match derive_node_key_for_epoch epoch n m with
  | Ok node_key =>
      tag ← of_option MacInitFailed (hmac_sha256 node_key nonce);
      mret (bool_decide (tag = proof))
  | Err (UnknownEpoch _) => Ok false
  | Err other => Err other
  | Panic => Panic
  end.
End ciphering.

(** ** The vault ([store.rs], [vault.rs], [in_memory.rs]) *)

Record SecretRef := mkSecretRef { secret_ref_id : ID }.
Global Instance SecretRef_eq_dec : EqDecision SecretRef. Proof. solve_decision. Defined.
Global Instance SecretRef_countable : Countable SecretRef.
Proof. solve_newtype mkSecretRef secret_ref_id. Defined.

Record StoredSecret := mkStoredSecret {
  ss_id : SecretRef; ss_key_epoch : KeyEpoch; ss_ciphertext : list Z; ss_nonce : list Z;
  ss_algorithm : string }.

(** [impl From<StoredSecret> for EncryptedSecret] *)
Definition encrypted_from (s : StoredSecret) : EncryptedSecret :=
  mkEncrypted (ss_key_epoch s) (ss_ciphertext s) (ss_nonce s) (ss_algorithm s).

(** What the vault relies on.  The backends differ on an identifier that is
    taken (the table refuses the insertion, the map replaces the secret) and
    on the replacement of a secret that does not exist (the table ignores it,
    the map inserts it). *)
Class StoreSecret (S : Type) := {
  sec_view : S → SecretRef → option StoredSecret;
  insert_secret : StoredSecret → M S Error ();
  replace_secret : StoredSecret → M S Error ();
  remove_secret : SecretRef → M S Error ();
  get_secret : SecretRef → M S Error (option StoredSecret);

  insert_secret_ok : ∀ x s s', insert_secret x s = (Ok (), s') →
    sec_view s' (ss_id x) = Some x ∧ ∀ i, i ≠ ss_id x → sec_view s' i = sec_view s i;
  replace_secret_ok : ∀ x s s', replace_secret x s = (Ok (), s') →
    (is_Some (sec_view s (ss_id x)) → sec_view s' (ss_id x) = Some x) ∧
    ∀ i, i ≠ ss_id x → sec_view s' i = sec_view s i;
  remove_secret_ok : ∀ i s s', remove_secret i s = (Ok (), s') →
    sec_view s' i = None ∧ ∀ j, j ≠ i → sec_view s' j = sec_view s j;
  get_secret_ok : ∀ i s o s', get_secret i s = (Ok o, s') →
    o = sec_view s i ∧ ∀ j, sec_view s' j = sec_view s j
}.

Module InMemorySecretStore.
Notation Secrets := (gmap SecretRef StoredSecret) (only parsing).

Definition insert (x : StoredSecret) : M Secrets Error () := modify (λ secrets, <[ss_id x := x]> secrets).
Definition replace (x : StoredSecret) : M Secrets Error () := modify (λ secrets, <[ss_id x := x]> secrets).
Definition remove (i : SecretRef) : M Secrets Error () := modify (λ secrets, base.delete i secrets).
Definition get_one (i : SecretRef) : M Secrets Error (option StoredSecret) := gets (λ secrets, secrets !! i).

#[global] Instance secret_store : StoreSecret Secrets.
Proof.
  refine {| sec_view := λ s i, s !! i; insert_secret := insert; replace_secret := replace;
            remove_secret := remove; get_secret := get_one |}.
  - intros x s s' [= <-]. split; [apply lookup_insert_eq|]. intros. by rewrite lookup_insert_ne.
  - intros x s s' [= <-]. split; [intros _; apply lookup_insert_eq|].
    intros. by rewrite lookup_insert_ne.
  - intros i s s' [= <-]. split; [apply lookup_delete_eq|]. intros. by rewrite lookup_delete_ne.
  - intros i s o s' [= <- <-]. done.
Defined.
End InMemorySecretStore.

Inductive VaultError :=
  | VStorageError (e : Error)
  | VSecretError (e : SecretError)
  | UnknownSecret (r : SecretRef).

Section vault.
Context {SS : Type} `{StoreSecret SS} `{Ciphers} `{Xoshiro}.

(** The vault, with the sources of randomness of its process. *)
Record Vault := mkVault {
  v_secrets : SecretManager; v_store : SS; v_rng : os_rng; v_entropy : list (option (list Z)) }.

Notation VM := (M Vault VaultError).

Definition on_secret_store {A} (m : M SS Error A) : VM A :=
  m_map_err VStorageError
    (zoom v_store (λ s v, mkVault (v_secrets v) s (v_rng v) (v_entropy v)) m).

Definition on_rng {A} (m : M os_rng SecretError A) : VM A :=
  m_map_err VSecretError
    (zoom v_rng (λ r v, mkVault (v_secrets v) (v_store v) r (v_entropy v)) m).

(** A read of the shared manager. *)
Definition on_manager {A} (f : SecretManager → Res SecretError A) : VM A := λ v,
  (map_err VSecretError (f (v_secrets v)), v).

(** [SecretRef(id::generate_id())] *)
Definition secret_ref_new : VM SecretRef := λ v,
  (Ok (mkSecretRef (generate_id (default None (head (v_entropy v))))),
   mkVault (v_secrets v) (v_store v) (v_rng v) (tail (v_entropy v))).

Definition stored_from (i : SecretRef) (e : EncryptedSecret) : StoredSecret :=
  mkStoredSecret i (key_epoch e) (ciphertext e) (nonce e) (algorithm e).

Definition vault_store (namespace : string) (secret : list Z) : VM SecretRef :=
  i ← secret_ref_new;
  key ← on_manager (λ m, derive_key (current_epoch m) (as_bytes namespace) m);
  encrypted ← on_rng (key_encrypt key secret);
  _ ← on_secret_store (insert_secret (stored_from i encrypted));
  mret i.

Definition vault_update (i : SecretRef) (namespace : string) (secret : list Z) : VM () :=
  key ← on_manager (λ m, derive_key (current_epoch m) (as_bytes namespace) m);
  encrypted ← on_rng (key_encrypt key secret);
  on_secret_store (replace_secret (stored_from i encrypted)).

Definition vault_remove (i : SecretRef) : VM () := on_secret_store (remove_secret i).

Definition get_decrypted (i : SecretRef) (namespace : string) : VM (list Z) :=
  secret ← on_secret_store (get_secret i);
  match secret with
  | None => throw (UnknownSecret i)
  | Some secret =>
      key ← on_manager (derive_key (ss_key_epoch secret) (as_bytes namespace));
      on_manager (λ _, key_decrypt key (encrypted_from secret))
  end.

(** [String::from_utf8(raw).unwrap()] *)
Definition get_decrypted_str (i : SecretRef) (namespace : string) : VM string :=
  raw ← get_decrypted i namespace;
  match from_utf8 raw with Some s => mret s | None => panic end.
End vault.

Arguments Vault SS {_}.

(** ** The steps of a rotation *)

Inductive RotationStep :=
  | AddEpoch (e : KeyEpoch) (key : SecretKey)
  | SetCurrentEpoch (e : KeyEpoch)
  | RetireEpoch (e : KeyEpoch).

Definition rotate (step : RotationStep) : SMon () :=
  match step with
  | AddEpoch e key => add_epoch e key
  | SetCurrentEpoch e => set_current_epoch e
  | RetireEpoch e => retire_epoch e
  end.

(** The manager after some steps; a step that is refused changes nothing. *)
Definition rotations (steps : list RotationStep) (m : SecretManager) : SecretManager :=
  foldl (λ m step, run_state (rotate step) m) m steps.

(** A step that neither replaces nor removes the key of [e]. *)
Definition leaves (e : KeyEpoch) (step : RotationStep) : Prop :=
  match step with
  | AddEpoch e' _ | RetireEpoch e' => e' ≠ e
  | SetCurrentEpoch _ => True
  end.

(** A step that does not load [e]. *)
Definition does_not_add (e : KeyEpoch) (step : RotationStep) : Prop :=
  match step with AddEpoch e' _ => e' ≠ e | _ => True end.

(** What [Inner::current_epoch] says of itself: it is always loaded. *)
Definition manager_ok (m : SecretManager) : Prop := is_Some (keys m !! current_epoch m).

(** ** Lemmas *)

Lemma ascii_bytes_inv s :
  String.string_of_list_ascii
    ((λ z, Ascii.ascii_of_N (Z.to_N z)) <$>
       ((λ c, Z.of_N (Ascii.N_of_ascii c)) <$> String.list_ascii_of_string s)) = s.
Proof.
  induction s as [|c s IH]; [done|]. simpl. f_equal; [|exact IH].
  by rewrite N2Z.id, Ascii.ascii_N_embedding.
Qed.

Lemma from_utf8_as_bytes s : utf8_valid (as_bytes s) = true → from_utf8 (as_bytes s) = Some s.
Proof. intros Hs. unfold from_utf8. rewrite Hs. f_equal. apply ascii_bytes_inv. Qed.

Section manager_lemmas.
Context `{Ciphers}.

Lemma derive_key_loaded e ns m ikm :
  keys m !! e = Some ikm → ∃ key, hkdf_expand ikm ns 32 = Some key ∧ derive_key e ns m = Ok key.
Proof.
  intros Hk. destruct (hkdf_expand_some ikm ns 32) as (key&Hkey&_); [lia|].
  exists key. split; [done|]. unfold derive_key. rewrite Hk. simpl. by rewrite Hkey.
Qed.

Lemma derive_key_unloaded e ns m :
  keys m !! e = None → derive_key e ns m = Err (UnknownEpoch e).
Proof. intros Hk. unfold derive_key. by rewrite Hk. Qed.

Lemma derive_key_ext e ns m m' :
  keys m !! e = keys m' !! e → derive_key e ns m = derive_key e ns m'.
Proof. intros Hk. unfold derive_key. by rewrite Hk. Qed.

Lemma derive_storage_key_ext e m m' :
  keys m !! e = keys m' !! e → derive_storage_key_for_epoch e m = derive_storage_key_for_epoch e m'.
Proof. intros Hk. unfold derive_storage_key_for_epoch. by rewrite (derive_key_ext e _ m m'). Qed.

Lemma derive_storage_key_loaded e m :
  is_Some (keys m !! e) → ∃ k, derive_storage_key_for_epoch e m = Ok k ∧ esk_epoch k = e.
Proof.
  intros [ikm Hk]. unfold derive_storage_key_for_epoch.
  destruct (derive_key_loaded e (as_bytes "marie/at-rest-storage/v1") m ikm Hk) as (key&_&->).
  by eexists.
Qed.

Lemma derive_storage_key_epoch e m k : derive_storage_key_for_epoch e m = Ok k → esk_epoch k = e.
Proof.
  unfold derive_storage_key_for_epoch. intros (key&_&Hk)%res_bind_ok. by injection Hk as <-.
Qed.

Lemma key_encrypt_ok key p r x r' :
  key_encrypt key p r = (Ok x, r') →
  key_epoch x = DEFAULT_EPOCH ∧ length (nonce x) = 12 ∧ aead_encrypt key (nonce x) p = Some (ciphertext x).
Proof.
  unfold key_encrypt. pose proof (generate_nonce_length r) as Hl.
  destruct (generate_nonce r) as [n r1]. simpl in *.
  destruct (aead_encrypt key n p) as [c|] eqn:E; [|done]. by intros [= <- <-].
Qed.

Lemma key_decrypt_sealed key p x :
  length (nonce x) = 12 → aead_encrypt key (nonce x) p = Some (ciphertext x) →
  key_decrypt key x = Ok p.
Proof.
  intros Hl He. unfold key_decrypt. rewrite decide_True by done.
  by rewrite (aead_decrypt_encrypt _ _ _ _ He).
Qed.

Lemma epoch_key_encrypt_ok k p r x r' :
  epoch_key_encrypt k p r = (Ok x, r') →
  key_epoch x = esk_epoch k ∧ length (nonce x) = 12 ∧
  aead_encrypt (esk_key k) (nonce x) p = Some (ciphertext x).
Proof.
  unfold epoch_key_encrypt. intros (y&r1&(_&Hl&He)%key_encrypt_ok&Hx)%m_bind_ok.
  by injection Hx as <- _.
Qed.

Lemma rotations_keep (e : KeyEpoch) steps m :
  Forall (leaves e) steps → keys (rotations steps m) !! e = keys m !! e.
Proof.
  intros Hs. revert m. induction Hs as [|[e' key|e'|e'] steps Hl _ IH]; intros m; [done|..];
    simpl in *; unfold rotations in *; simpl; rewrite IH; unfold run_state; simpl.
  - by rewrite lookup_insert_ne.
  - unfold set_current_epoch. by destruct (keys m !! e').
  - unfold retire_epoch. repeat case_decide; simpl; [done..|]. by rewrite lookup_delete_ne.
Qed.

Lemma rotations_absent (e : KeyEpoch) steps m :
  keys m !! e = None → Forall (does_not_add e) steps → keys (rotations steps m) !! e = None.
Proof.
  intros Hm Hs. revert m Hm. induction Hs as [|[e' key|e'|e'] steps Hl _ IH]; intros m Hm; [done|..];
    simpl in *; unfold rotations in *; simpl; apply IH; unfold run_state; simpl.
  - by rewrite lookup_insert_ne.
  - unfold set_current_epoch. by destruct (keys m !! e').
  - unfold retire_epoch. repeat case_decide; simpl; [done..|].
    apply lookup_delete_None. by right.
Qed.

Lemma rotate_ok m step : manager_ok m → manager_ok (run_state (rotate step) m).
Proof.
  unfold manager_ok. intros Hm. destruct step as [e key|e|e]; unfold run_state; simpl.
  - destruct (decide (e = current_epoch m)) as [->|]; [by rewrite lookup_insert_eq|].
    by rewrite lookup_insert_ne.
  - unfold set_current_epoch. destruct (keys m !! e) eqn:E; simpl; [by rewrite E|done].
  - unfold retire_epoch. repeat case_decide; simpl; [done..|]. by rewrite lookup_delete_ne.
Qed.

Lemma rotations_ok steps m : manager_ok m → manager_ok (rotations steps m).
Proof.
  revert m. induction steps as [|step steps IH]; intros m Hm; [done|]. by apply IH, rotate_ok.
Qed.

Lemma with_epochs_ok epochs cur m :
  with_epochs epochs cur = Ok m → manager_ok m ∧ current_epoch m = cur.
Proof.
  unfold with_epochs, manager_ok. case_decide; [done|].
  destruct (_ !! cur) eqn:E; [|done]. intros [= <-]. simpl. split; [by eexists|done].
Qed.
End manager_lemmas.

(** ** Properties of the manager *)

(** C19: whatever keys are loaded, made current or retired, in any order, a
    manager that could be built keeps a current key: it can always derive a
    storage key, stamped with the current epoch, and prove its membership. *)
Theorem rotation_never_locks_out `{Ciphers} (given : list (KeyEpoch * SecretKey)) (current : KeyEpoch)
    (steps : list RotationStep) (m : SecretManager) :
  with_epochs given current = Ok m →
  let m' := rotations steps m in
  is_Some (keys m' !! current_epoch m') ∧
  (∃ k, derive_storage_key m' = Ok k ∧ esk_epoch k = current_epoch m') ∧
  ∀ n challenge, ∃ p, prove_membership n challenge m' = Ok (current_epoch m', p).
Proof.
  intros [Hm _]%with_epochs_ok m'. pose proof (rotations_ok steps m Hm : manager_ok m') as Hm'.
  split; [done|]. split; [by apply derive_storage_key_loaded|].
  intros n challenge. unfold prove_membership, derive_node_key_for_epoch. destruct Hm' as [ikm Hk].
  destruct (derive_key_loaded _ (node_bytes n) m' ikm Hk) as (key&_&->).
  destruct (hmac_some key challenge) as [tag Htag]. exists tag. simpl. by rewrite Htag.
Qed.

(** C20: what was encrypted at rest is decrypted, under the epoch it carries, by
    every later state of the manager that has neither retired nor replaced the
    key of that epoch, whatever epoch is current by then. *)
Theorem rotation_keeps_readable `{Ciphers} (m : SecretManager) (k : EpochSecretKey)
    (secret : list Z) (r r' : os_rng) (x : EncryptedSecret) (steps : list RotationStep) :
  derive_storage_key m = Ok k → epoch_key_encrypt k secret r = (Ok x, r') →
  Forall (leaves (current_epoch m)) steps →
  key_epoch x = current_epoch m ∧
  (derive_storage_key_for_epoch (key_epoch x) (rotations steps m) ≫= λ k', epoch_key_decrypt k' x)
    = Ok secret.
Proof.
  intros Hk (He&Hl&Hx)%epoch_key_encrypt_ok Hs.
  pose proof (derive_storage_key_epoch _ _ _ Hk) as Hke. rewrite He, Hke. split; [done|].
  rewrite (derive_storage_key_ext _ _ m) by by apply rotations_keep.
  unfold derive_storage_key in Hk. rewrite Hk. simpl. by apply key_decrypt_sealed.
Qed.

(** Retiring an epoch is refused for the current one and, when a single
    key is left, for any other, which was not loaded; otherwise it removes
    that key alone.  Once retired, and until it is loaded again, no key is
    derived for the epoch and no proof of membership made under it is
    accepted. *)
Theorem retire_epoch_spec `{Ciphers} (m : SecretManager) (e : KeyEpoch) :
  manager_ok m →
  match retire_epoch e m with
  | (Err (CannotRetireCurrentEpoch e'), m') => e' = e ∧ current_epoch m = e ∧ m' = m
  | (Err LastEpoch, m') => keys m !! e = None ∧ dom (keys m) = {[ current_epoch m ]} ∧ m' = m
  | (Ok _, m') =>
      manager_ok m' ∧ current_epoch m' = current_epoch m ∧
      (∀ e', e' ≠ e → keys m' !! e' = keys m !! e') ∧
      ∀ steps, Forall (does_not_add e) steps →
        (∀ ns, derive_key e ns (rotations steps m') = Err (UnknownEpoch e)) ∧
        ∀ n challenge proof, verify_membership n challenge e proof (rotations steps m') = Ok false
  | _ => False
  end.
Proof.
  intros Hm. unfold retire_epoch. case_decide; [by split_and!|]. case_decide as Hs.
  - pose proof (size_dom (D:=gset Z) (keys m)) as Hd.
    assert (current_epoch m ∈ dom (keys m)) as Hc by by apply elem_of_dom.
    assert (dom (keys m) = {[ current_epoch m ]}) as Hdom.
    { apply set_eq. intros x. rewrite elem_of_singleton. split; [|by intros ->].
      intros Hx. apply (size_singleton_inv (dom (keys m))); [|done..].
      assert (size (dom (keys m)) ≠ 0) by (intros Hz%size_empty_inv; set_solver). lia. }
    split_and!; [|done..]. apply not_elem_of_dom. rewrite Hdom. set_solver.
  - unfold manager_ok. simpl. split_and!; [by rewrite lookup_delete_ne|done| |].
    + intros. by rewrite lookup_delete_ne.
    + intros steps Hsteps.
      assert (keys (rotations steps (mkManager (base.delete e (keys m)) (current_epoch m))) !! e = None)
        as Hnone by (apply rotations_absent; [apply lookup_delete_eq|done]).
      split; [intros ns; by apply derive_key_unloaded|].
      intros. unfold verify_membership, derive_node_key_for_epoch. by rewrite derive_key_unloaded.
Qed.

(** A proof of membership made by one node is accepted by exactly the
    nodes that hold the same key for its epoch, and only that proof is: a
    node that does not hold the epoch accepts none.  No verification fails. *)
Theorem membership_spec `{Ciphers} (n : NodeId) (challenge : list Z) (prover verifier : SecretManager)
    (e : KeyEpoch) (p : list Z) :
  prove_membership n challenge prover = Ok (e, p) →
  e = current_epoch prover ∧
  (keys verifier !! e = keys prover !! e →
   ∀ q, verify_membership n challenge e q verifier = Ok (bool_decide (p = q))) ∧
  (keys verifier !! e = None → ∀ q, verify_membership n challenge e q verifier = Ok false) ∧
  ∀ e' q, ∃ b, verify_membership n challenge e' q verifier = Ok b.
Proof.
  unfold prove_membership, verify_membership, derive_node_key_for_epoch.
  intros (key&Hk&(tag&Ht&Hp)%res_bind_ok)%res_bind_ok. injection Hp as <- <-.
  split_and!; [done| | |].
  - intros Hs q. rewrite (derive_key_ext _ _ _ prover), Hk by done. simpl. by rewrite Ht.
  - intros Hn q. by rewrite derive_key_unloaded.
  - intros e' q. destruct (keys verifier !! e') as [ikm|] eqn:E.
    + destruct (derive_key_loaded _ (node_bytes n) _ _ E) as (key'&_&->).
      destruct (hmac_some key' challenge) as [tag' Ht']. simpl. rewrite Ht'. simpl. by eexists.
    + rewrite derive_key_unloaded by done. by exists false.
Qed.

(** ** Properties of the vault *)

Section vault_laws.
Context {SS : Type} `{StoreSecret SS} `{Ciphers} `{Xoshiro}.
Implicit Types v w : Vault SS.

(** The stored form of [secret] under [key]: always at the default epoch. *)
Definition sealed (key secret : list Z) (x : StoredSecret) : Prop :=
  ss_key_epoch x = DEFAULT_EPOCH ∧ length (ss_nonce x) = 12 ∧
  aead_encrypt key (ss_nonce x) secret = Some (ss_ciphertext x).

Lemma stored_sealed key secret r x r' i :
  key_encrypt key secret r = (Ok x, r') → sealed key secret (stored_from i x).
Proof. by intros (?&?&?)%key_encrypt_ok. Qed.

Lemma on_secret_store_ok {A} (m : M SS Error A) v a v' :
  on_secret_store m v = (Ok a, v') →
  m (v_store v) = (Ok a, v_store v') ∧ v_secrets v' = v_secrets v.
Proof.
  unfold on_secret_store, m_map_err, zoom. destruct (m (v_store v)) as [[b|e|] s]; simpl; by intros [= <- <-].
Qed.

Lemma on_rng_ok {A} (m : M os_rng SecretError A) v a v' :
  on_rng m v = (Ok a, v') →
  (∃ r r', m r = (Ok a, r')) ∧ v_store v' = v_store v ∧ v_secrets v' = v_secrets v.
Proof.
  unfold on_rng, m_map_err, zoom. destruct (m (v_rng v)) as [[b|e|] s] eqn:E; simpl; [|done..].
  intros [= <- <-]. split; [by do 2 eexists|done].
Qed.

Lemma on_manager_ok {A} (f : SecretManager → Res SecretError A) v a v' :
  on_manager f v = (Ok a, v') → f (v_secrets v) = Ok a ∧ v' = v.
Proof. unfold on_manager. destruct (f (v_secrets v)); simpl; by intros [= <- <-]. Qed.

Lemma vault_update_ok i ns p v v' :
  vault_update i ns p v = (Ok (), v') →
  v_secrets v' = v_secrets v ∧
  (∃ key x, derive_key (current_epoch (v_secrets v)) (as_bytes ns) (v_secrets v) = Ok key ∧
     sealed key p x ∧ (is_Some (sec_view (v_store v) i) → sec_view (v_store v') i = Some x)) ∧
  ∀ j, j ≠ i → sec_view (v_store v') j = sec_view (v_store v) j.
Proof.
  unfold vault_update.
  intros (key&v1&[Hk ->]%on_manager_ok&(x&v2&((r&r'&Hx)&Hst&Hse)%on_rng_ok&Hr)%m_bind_ok)%m_bind_ok.
  apply on_secret_store_ok in Hr as [[Hi Ho]%replace_secret_ok Hse']. rewrite Hst in Hi, Ho.
  split_and!; [congruence| |done]. exists key, (stored_from i x).
  split_and!; [done|by eapply stored_sealed|done].
Qed.

Lemma vault_store_ok ns p v i v' :
  vault_store ns p v = (Ok i, v') →
  v_secrets v' = v_secrets v ∧
  (∃ key x, derive_key (current_epoch (v_secrets v)) (as_bytes ns) (v_secrets v) = Ok key ∧
     sealed key p x ∧ sec_view (v_store v') i = Some x) ∧
  ∀ j, j ≠ i → sec_view (v_store v') j = sec_view (v_store v) j.
Proof.
  unfold vault_store. intros (j&v0&Hj&Hv)%m_bind_ok.
  assert (v_store v0 = v_store v ∧ v_secrets v0 = v_secrets v) as [Hst0 Hse0]
    by (unfold secret_ref_new in Hj; by injection Hj as _ <-).
  apply m_bind_ok in Hv as (key&v1&[Hk ->]%on_manager_ok&(x&v2&((r&r'&Hx)&Hst&Hse)%on_rng_ok&Hv)%m_bind_ok).
  apply m_bind_ok in Hv as ([]&v3&[[Hi Ho]%insert_secret_ok Hse']%on_secret_store_ok&Hr).
  injection Hr as <- <-. rewrite Hst, Hst0 in Ho. rewrite Hse0 in Hk.
  split_and!; [congruence| |done]. exists key, (stored_from j x).
  split_and!; [done|by eapply stored_sealed|done].
Qed.

Lemma vault_remove_ok i v v' :
  vault_remove i v = (Ok (), v') →
  v_secrets v' = v_secrets v ∧ sec_view (v_store v') i = None ∧
  ∀ j, j ≠ i → sec_view (v_store v') j = sec_view (v_store v) j.
Proof. by intros [[Hi Ho]%remove_secret_ok Hs]%on_secret_store_ok. Qed.

(** The backend answers a read of [i]. *)
Definition answers (v : Vault SS) (i : SecretRef) : Prop :=
  ∃ o s, get_secret i (v_store v) = (Ok o, s).

(** What a read gives when the backend answers. *)
Lemma get_decrypted_eq i ns v :
  answers v i →
  run_res (get_decrypted i ns) v =
  match sec_view (v_store v) i with
  | None => Err (UnknownSecret i)
  | Some x => map_err VSecretError
      (derive_key (ss_key_epoch x) (as_bytes ns) (v_secrets v) ≫= λ key, key_decrypt key (encrypted_from x))
  end.
Proof.
  intros (o&s&Hg). pose proof (get_secret_ok _ _ _ _ Hg) as [-> _].
  unfold get_decrypted, run_res, on_secret_store, m_map_err, zoom, on_manager, throw, mbind, m_bind.
  rewrite Hg. simpl. destruct (sec_view (v_store v) i) as [x|]; [|done]. simpl.
  destruct (derive_key _ _ _) as [key|e|]; [|done..]. simpl. by destruct (key_decrypt _ _).
Qed.

Lemma get_decrypted_frame i ns v q v' :
  get_decrypted i ns v = (Ok q, v') →
  v_secrets v' = v_secrets v ∧ ∀ j, sec_view (v_store v') j = sec_view (v_store v) j.
Proof.
  unfold get_decrypted. intros (o&v1&[[_ Ho]%get_secret_ok Hs]%on_secret_store_ok&Hr)%m_bind_ok.
  destruct o as [x|]; [|done].
  apply m_bind_ok in Hr as (key&v2&[_ ->]%on_manager_ok&[_ ->]%on_manager_ok). done.
Qed.

(** A use of the vault that leaves secret [i] and the key of epoch 0 alone. *)
Inductive other_use (i : SecretRef) (v : Vault SS) : Vault SS → Prop :=
  | other_store ns p j v' : vault_store ns p v = (Ok j, v') → j ≠ i → other_use i v v'
  | other_update ns p j v' : vault_update j ns p v = (Ok (), v') → j ≠ i → other_use i v v'
  | other_remove j v' : vault_remove j v = (Ok (), v') → j ≠ i → other_use i v v'
  | other_read j ns q v' : get_decrypted j ns v = (Ok q, v') → other_use i v v'
  | other_rotation step : leaves DEFAULT_EPOCH step →
      other_use i v (mkVault (run_state (rotate step) (v_secrets v)) (v_store v) (v_rng v) (v_entropy v)).

Lemma other_uses_keep i v w :
  rtc (other_use i) v w →
  sec_view (v_store w) i = sec_view (v_store v) i ∧
  keys (v_secrets w) !! DEFAULT_EPOCH = keys (v_secrets v) !! DEFAULT_EPOCH.
Proof.
  induction 1 as [|v w1 w Hstep _ [-> ->]]; [done|].
  destruct Hstep as [ns p j v' (->&_&Ho)%vault_store_ok Hj|ns p j v' (->&_&Ho)%vault_update_ok Hj
    |j v' (->&_&Ho)%vault_remove_ok Hj|j ns q v' [-> Ho]%get_decrypted_frame|step Hl];
    [by rewrite Ho..|]. split; [done|]. by apply (rotations_keep DEFAULT_EPOCH [step]), Forall_singleton.
Qed.
End vault_laws.

(** A secret stored while epoch 0 is current is read back, in its
    namespace, after any other uses of the vault and any rotation that keeps
    the key of epoch 0; once removed it is unknown. *)
Theorem vault_roundtrip {SS : Type} `{StoreSecret SS} `{Ciphers} `{Xoshiro} (v v' w : Vault SS)
    (ns : string) (secret : list Z) (i : SecretRef) :
  current_epoch (v_secrets v) = DEFAULT_EPOCH →
  vault_store ns secret v = (Ok i, v') → rtc (other_use i) v' w → answers w i →
  run_res (get_decrypted i ns) w = Ok secret ∧
  ∀ w' w1, vault_remove i w = (Ok (), w1) → rtc (other_use i) w1 w' → answers w' i →
    run_res (get_decrypted i ns) w' = Err (UnknownSecret i).
Proof.
  intros Hc (Hse&(key&x&Hk&(He&Hl&Hx)&Hv)&_)%vault_store_ok [Hvw Hkw]%other_uses_keep Ha. split.
  - rewrite get_decrypted_eq, Hvw, Hv by done. rewrite He, Hc in *. rewrite Hse in Hkw.
    rewrite (derive_key_ext _ _ _ _ Hkw), Hk. simpl. by rewrite (key_decrypt_sealed key secret).
  - intros w' w1 (_&Hn&_)%vault_remove_ok [Hvw' _]%other_uses_keep Ha'.
    by rewrite get_decrypted_eq, Hvw', Hn.
Qed.

(** A secret stored or replaced while another epoch is current is lost:
    it is recorded under epoch 0, whose key did not encrypt it, so that every
    later read that the backend answers fails, with the epoch unknown when
    epoch 0 is not loaded and with an authentication failure when it is. *)
Theorem vault_loses_rotated {SS : Type} `{StoreSecret SS} `{Ciphers} `{Xoshiro} (v v' w : Vault SS)
    (ns : string) (secret : list Z) (i : SecretRef) :
  (∀ k k' n p c, k ≠ k' → aead_encrypt k n p = Some c → aead_decrypt k' n c = None) →
  (∀ e, e ≠ DEFAULT_EPOCH →
     derive_key e (as_bytes ns) (v_secrets v) ≠ derive_key DEFAULT_EPOCH (as_bytes ns) (v_secrets v)) →
  current_epoch (v_secrets v) ≠ DEFAULT_EPOCH →
  (vault_store ns secret v = (Ok i, v') ∨
   is_Some (sec_view (v_store v) i) ∧ vault_update i ns secret v = (Ok (), v')) →
  rtc (other_use i) v' w → answers w i →
  run_res (get_decrypted i ns) w =
    Err (VSecretError (match keys (v_secrets v) !! DEFAULT_EPOCH with
                       | None => UnknownEpoch DEFAULT_EPOCH
                       | Some _ => DecryptionFailed end)).
Proof.
  intros Hauth Hdiff Hc Hst Huses Ha.
  assert (v_secrets v' = v_secrets v ∧ ∃ key x,
    derive_key (current_epoch (v_secrets v)) (as_bytes ns) (v_secrets v) = Ok key ∧
    sealed key secret x ∧ sec_view (v_store v') i = Some x) as (Hse&key&x&Hk&(He&Hl&Hx)&Hv).
  { destruct Hst as [(?&?&_)%vault_store_ok|[Hi (?&(key&x&?&?&?)&_)%vault_update_ok]]; [done|].
    split; [done|]. exists key, x. auto. }
  apply other_uses_keep in Huses as [Hvw Hkw]. rewrite Hse in Hkw.
  rewrite get_decrypted_eq, Hvw, Hv, He by done. rewrite (derive_key_ext _ _ _ _ Hkw).
  destruct (keys (v_secrets v) !! DEFAULT_EPOCH) as [ikm|] eqn:E;
    [|by rewrite derive_key_unloaded].
  destruct (derive_key_loaded _ (as_bytes ns) _ _ E) as (key0&_&Hk0). specialize (Hdiff _ Hc).
  rewrite Hk0 in *. rewrite Hk in Hdiff. simpl. unfold key_decrypt. simpl. rewrite decide_True by done.
  by rewrite (Hauth key key0 _ _ _ ltac:(congruence) Hx).
Qed.

(** ** Witnesses: concrete ciphers that meet the interface *)

Definition toy_encrypt (key nonce p : list Z) : option (list Z) :=
  if decide (length key = 32 ∧ length nonce = 12) then Some ((key ++ nonce) ++ p) else None.

Definition toy_decrypt (key nonce c : list Z) : option (list Z) :=
  if decide (length key = 32 ∧ length nonce = 12 ∧ take 44 c = key ++ nonce)
  then Some (drop 44 c) else None.

Lemma toy_decrypt_encrypt key nonce p c :
  toy_encrypt key nonce p = Some c → toy_decrypt key nonce c = Some p.
Proof.
  unfold toy_encrypt, toy_decrypt. case_decide as Hl; [|done]. intros [= <-].
  replace 44 with (length (key ++ nonce)) by (rewrite length_app; lia).
  rewrite take_app_length, drop_app_length. by rewrite decide_True by naive_solver.
Qed.

Lemma toy_hkdf_length (ikm info : list Z) (n : nat) :
  length (take n (ikm ++ info ++ replicate n 0%Z)) = n.
Proof. rewrite length_take, !length_app, length_replicate. lia. Qed.

(** Sealing prefixes the text with its key and nonce. *)
Definition toy_ciphers : Ciphers := {|
  hkdf_expand := λ ikm info n, Some (take n (ikm ++ info ++ replicate n 0%Z));
  hmac_sha256 := λ key msg, Some (key ++ msg);
  aead_encrypt := toy_encrypt;
  aead_decrypt := toy_decrypt;
  os_rng := Z;
  generate_nonce := λ r, (replicate 12 r, (r + 1)%Z);
  hkdf_expand_some := λ ikm info n _, ex_intro _ _ (conj eq_refl (toy_hkdf_length ikm info n));
  hmac_some := λ key msg, ex_intro _ _ eq_refl;
  aead_decrypt_encrypt := toy_decrypt_encrypt;
  generate_nonce_length := λ r, length_replicate 12 r
|}.

Lemma toy_authentic k k' n p c :
  k ≠ k' → @aead_encrypt toy_ciphers k n p = Some c → @aead_decrypt toy_ciphers k' n c = None.
Proof.
  simpl. unfold toy_encrypt, toy_decrypt. intros Hk. case_decide as Hl; [|done]. intros [= <-].
  rewrite decide_False; [done|]. intros (Hl'&_&Ht).
  replace 44 with (length (k ++ n)) in Ht by (rewrite length_app; lia).
  rewrite take_app_length in Ht. apply app_inj_1 in Ht as [? _]; [done|lia].
Qed.

Definition demo_key (b : Z) : SecretKey := replicate 32 b.
Definition demo_manager : SecretManager :=
  mkManager {[ 0%Z := demo_key 1; 1%Z := demo_key 2 ]} 0.
Definition rotated_manager : SecretManager := mkManager (keys demo_manager) 1.

Lemma rotation_never_locks_out_witness :
  is_Some (keys (rotations [AddEpoch 1 (demo_key 2); SetCurrentEpoch 1; RetireEpoch 0]
    (mkManager {[ 0%Z := demo_key 1 ]} 0)) !! 1%Z).
Proof.
  destruct (@rotation_never_locks_out toy_ciphers [(0%Z, demo_key 1)] 0
    [AddEpoch 1 (demo_key 2); SetCurrentEpoch 1; RetireEpoch 0] (mkManager {[ 0%Z := demo_key 1 ]} 0))
    as [H _]; [vm_compute; reflexivity|exact H].
Defined.

Lemma rotation_keeps_readable_witness : 0%Z = 0%Z.
Proof.
  destruct (@rotation_keeps_readable toy_ciphers demo_manager
    (mkEpochKey 0 (take 32 (demo_key 1 ++ as_bytes "marie/at-rest-storage/v1" ++ replicate 32 0%Z)))
    [104; 105]%Z 5%Z 6%Z
    (mkEncrypted 0 ((demo_key 1 ++ replicate 12 5%Z) ++ [104; 105]%Z) (replicate 12 5%Z) "ChaCha20-Poly1305")
    [SetCurrentEpoch 1; AddEpoch 2 (demo_key 3); RetireEpoch 1]) as [H _].
  - vm_compute. reflexivity.
  - vm_compute. reflexivity.
  - repeat constructor; simpl; lia.
  - exact H.
Defined.

Lemma retire_epoch_spec_witness : current_epoch (run_state (retire_epoch 1) demo_manager) = 0%Z.
Proof.
  pose proof (@retire_epoch_spec toy_ciphers demo_manager 1 ltac:(by eexists)) as H.
  unfold run_state. destruct (retire_epoch 1 demo_manager) as [[u|e|] m'] eqn:E;
    [exact (proj1 (proj2 H))|by vm_compute in E..].
Defined.

Lemma membership_spec_witness :
  @verify_membership toy_ciphers (mkNodeId [9%Z]) [7%Z] 0 (demo_key 1 ++ [7%Z]) demo_manager = Ok true.
Proof.
  destruct (@membership_spec toy_ciphers (mkNodeId [9%Z]) [7%Z] demo_manager demo_manager 0 (demo_key 1 ++ [7%Z]))
    as (_&H&_); [vm_compute; reflexivity|].
  rewrite (H eq_refl). vm_compute. reflexivity.
Defined.

Notation demo_vault m s r := (@mkVault (gmap SecretRef StoredSecret) toy_ciphers m s r []) (only parsing).
Definition demo_ref : SecretRef := mkSecretRef (@generate_id counter_rng None).
Definition demo_sealed (b : Z) : StoredSecret :=
  mkStoredSecret demo_ref 0 ((demo_key b ++ replicate 12 5%Z) ++ [104; 105]%Z) (replicate 12 5%Z)
    "ChaCha20-Poly1305".

Lemma vault_roundtrip_witness :
  run_res (@get_decrypted _ InMemorySecretStore.secret_store toy_ciphers demo_ref "ns")
    (demo_vault rotated_manager {[ demo_ref := demo_sealed 1 ]} 6%Z) = Ok [104; 105]%Z.
Proof.
  apply (@vault_roundtrip _ InMemorySecretStore.secret_store toy_ciphers counter_rng
    (demo_vault demo_manager ∅ 5%Z) (demo_vault demo_manager {[ demo_ref := demo_sealed 1 ]} 6%Z)).
  - reflexivity.
  - vm_compute. reflexivity.
  - apply rtc_once. exact (@other_rotation _ _ toy_ciphers counter_rng demo_ref
      (demo_vault demo_manager {[ demo_ref := demo_sealed 1 ]} 6%Z) (SetCurrentEpoch 1) I).
  - by do 2 eexists.
Defined.

Lemma vault_loses_rotated_witness :
  run_res (@get_decrypted _ InMemorySecretStore.secret_store toy_ciphers demo_ref "ns")
    (demo_vault rotated_manager {[ demo_ref := demo_sealed 2 ]} 6%Z)
  = Err (VSecretError DecryptionFailed).
Proof.
  apply (@vault_loses_rotated _ InMemorySecretStore.secret_store toy_ciphers counter_rng
    (demo_vault rotated_manager ∅ 5%Z) (demo_vault rotated_manager {[ demo_ref := demo_sealed 2 ]} 6%Z)
    _ "ns" [104; 105]%Z).
  - apply toy_authentic.
  - intros e He. destruct (decide (e = 1)%Z) as [->|]; [by vm_compute|].
    rewrite (@derive_key_unloaded toy_ciphers e); [by vm_compute|]. simpl.
    by rewrite lookup_insert_ne, lookup_singleton_ne by (unfold DEFAULT_EPOCH in He; lia).
  - done.
  - left. vm_compute. reflexivity.
  - apply rtc_refl.
  - by do 2 eexists.
Defined.
