(* ===== verification/Rows.v ===== *)
(** * What the tables of PostgreSQL keep, as JSON

    The form that [serde] derives for the frames, snapshots, questions, statuses
    and journal entries of a session ([session/frames/node.rs], [status.rs],
    [policy.rs], [session/snapshot/mod.rs], [hitl/mod.rs], [hitl/model.rs],
    [session/logs/mod.rs], [session/model.rs], [job/mod.rs], [worker/mod.rs]),
    which the columns of the tables hold. *)

From stdpp Require Import pretty.
From S2P Require Import Prelude Ids Json Channels Types RunLog Frames Wire ErrorChain Snapshots Sessions.
Local Open Scope Z_scope.

(** ** Dates: their text, of RFC 3339 *)

Class Dates := {
  date_to_text : Z → string; date_of_text : string → option Z;
  date_roundtrip : ∀ t, date_of_text (date_to_text t) = Some t }.

Definition date_to_value `{Dates} (t : Z) : Value := Str (date_to_text t).
Definition date_from_value `{Dates} (v : Value) : Res () Z :=
  match v with Str s => of_option () (date_of_text s) | _ => malformed end.

(** ** Numbers as the keys of an object *)

Definition digit (c : Ascii.ascii) : option N :=
  let n := Ascii.N_of_ascii c in
  if decide (48 ≤ n ∧ n ≤ 57)%N then Some (n - 48)%N else None.

Fixpoint decimal (acc : N) (s : string) : option N :=
  match s with
  | EmptyString => Some acc
  | String.String c s => d ← digit c; decimal (10 * acc + d) s
  end.

Lemma digit_pretty x : (x < 10)%N → digit (pretty_N_char x) = Some x.
Proof.
  intros Hx. assert (x ∈ [0; 1; 2; 3; 4; 5; 6; 7; 8; 9]%N) as Hin.
  { destruct x as [|p]; [by left|]. do 4 (destruct p as [p|p|]; try lia; try by (simpl; set_solver)). }
  rewrite !elem_of_cons, elem_of_nil in Hin. naive_solver.
Qed.

Lemma decimal_pretty_go x s : decimal 0 (pretty_N_go x s) = decimal x s.
Proof.
  revert s. induction (N.lt_wf_0 x) as [x _ IH]; intros s. destruct (decide (x = 0)%N) as [->|Hx].
  { by rewrite pretty_N_go_0. }
  rewrite pretty_N_go_step by lia. rewrite IH by (apply N.div_lt; lia). cbn [decimal].
  rewrite digit_pretty by (apply N.mod_lt; lia). simpl. f_equal.
  pose proof (N.div_mod x 10). lia.
Qed.

Definition key_of_uint (z : Z) : string := pretty z.
(** A number has no leading zero. *)
Definition zero_first (s : string) : bool :=
  match s with String.String c _ => bool_decide (c = Ascii.ascii_of_nat 48) | EmptyString => false end.
Definition uint_of_key (bits : Z) (s : string) : Res () Z :=
  if decide (s = "" ∨ (zero_first s = true ∧ s ≠ "0")) then malformed
  else match decimal 0 s with
       | Some n => if Z.of_N n <? 2 ^ bits then Ok (Z.of_N n) else malformed
       | None => malformed
       end.

Lemma pretty_go_head x s : (0 < x)%N → ∃ d r, pretty_N_go x s = String.String (pretty_N_char d) r ∧ (0 < d < 10)%N.
Proof.
  revert s. induction (N.lt_wf_0 x) as [x _ IH]; intros s Hx. rewrite pretty_N_go_step by lia.
  destruct (decide (x < 10)%N) as [Hs|Hs].
  - rewrite N.div_small, pretty_N_go_0, N.mod_small by done. eauto.
  - apply IH; [apply N.div_lt; lia|]. apply N.div_str_pos. lia.
Qed.

Lemma not_zero_char d : (0 < d < 10)%N → pretty_N_char d ≠ Ascii.ascii_of_nat 48.
Proof.
  intros Hd E. assert (digit (pretty_N_char d) = Some 0%N) as Hc by (rewrite E; reflexivity).
  rewrite digit_pretty in Hc by lia. injection Hc. lia.
Qed.

Lemma uint_key_roundtrip bits z : 0 ≤ z < 2 ^ bits → uint_of_key bits (key_of_uint z) = Ok z.
Proof.
  intros [Hl Hu]. unfold uint_of_key, key_of_uint. destruct z as [|p|p]; [|change (pretty (Z.pos p)) with (pretty_N_go (N.pos p) "")|lia].
  - simpl. destruct (Z.ltb_spec 0 (2 ^ bits)); [done|lia].
  - destruct (pretty_go_head (N.pos p) "") as (d&r&E&Hd); [lia|]. rewrite decide_False.
    + rewrite decimal_pretty_go. simpl. destruct (Z.ltb_spec (Z.pos p) (2 ^ bits)); [done|lia].
    + rewrite E. intros [Hx|[Hx%bool_decide_eq_true_1 _]]; [done|]. by apply (not_zero_char d Hd).
Qed.

(** [HashMap<u32, _>] *)
Definition uint_map_to_value {A} `{Wire A} (m : gmap Z A) : Value := to_value (kmap key_of_uint m : gmap string A).
Definition uint_map_from_value {A} `{Wire A} (bits : Z) (v : Value) : Res () (gmap Z A) :=
  m ← (from_value v : Res () (gmap string A));
  l ← res_map (λ p, k ← uint_of_key bits p.1; Ok (k, p.2)) (map_to_list m);
  Ok (list_to_map l).

Definition uint_map_sendable {A} `{Wire A} (bits : Z) (m : gmap Z A) : Prop :=
  map_Forall (λ k a, 0 ≤ k < 2 ^ bits ∧ sendable a) m.

Lemma uint_map_roundtrip {A} `{Wire A} bits (m : gmap Z A) :
  uint_map_sendable bits m → uint_map_from_value bits (uint_map_to_value m) = Ok m.
Proof.
  intros Hm. unfold uint_map_from_value, uint_map_to_value. rewrite wire_roundtrip.
  2: { intros k a (k'&->&Hk)%lookup_kmap_Some; [|apply _]. by apply Hm in Hk as [_ ?]. }
  simpl. set (l := map_to_list (kmap key_of_uint m : gmap string A)).
  assert (∃ l', res_map (λ p, k ← uint_of_key bits p.1; Ok (k, p.2)) l = Ok l' ∧ l = prod_map key_of_uint Datatypes.id <$> l')
    as (l'&->&Hl').
  { assert (Forall (λ p, ∃ k, p.1 = key_of_uint k ∧ 0 ≤ k < 2 ^ bits) l) as Hl.
    { apply Forall_forall. intros [s a] Hin%elem_of_map_to_list. apply lookup_kmap_Some in Hin as (k&->&Hk); [|apply _].
      exists k. split; [done|]. by apply Hm in Hk as [? _]. }
    induction Hl as [|[s a] l (k&Hs&Hk) _ (l'&Hr&El)]; [by exists []|]. simpl in Hs. subst s.
    exists ((k, a) :: l'). cbn [res_map fst snd]. rewrite uint_key_roundtrip by done. simpl. by rewrite Hr, El. }
  simpl. f_equal. apply map_eq. intros k.
  trans ((kmap key_of_uint m : gmap string A) !! key_of_uint k); [|by rewrite lookup_kmap by apply _]. unfold l in Hl'.
  rewrite <- (list_to_map_to_list (kmap key_of_uint m : gmap string A)), Hl'.
  clear Hl'. induction l' as [|[k' a] l' IH]; simpl; [done|]. destruct (decide (k = k')) as [->|Hne].
  - by rewrite !lookup_insert_eq.
  - rewrite !lookup_insert_ne; [exact IH| |done]. intros Hk. by apply Hne, (inj pretty).
Qed.

(** ** Jobs *)

#[export] Instance wire_job_id : Wire JobId := wire_newtype mkJobId job_id_ (λ '(mkJobId _), eq_refl).

(** A node is the array of its bytes. *)
Definition node_id_from_value (v : Value) : Res () NodeId :=
  match v with Array l => bytes ← res_map (uint_from_value 8) l; Ok (mkNodeId bytes) | _ => malformed end.
#[export] Instance wire_node_id : Wire NodeId.
Proof.
  refine {| to_value := λ n, Array (uint_to_value <$> node_bytes n); from_value := node_id_from_value;
            sendable := λ n, Forall (λ b, 0 ≤ b < 2 ^ 8) (node_bytes n) |}.
  intros [bytes] Hb. unfold node_id_from_value. cbn [node_bytes] in *. rewrite (res_map_ok uint_to_value); [done|].
  eapply Forall_impl; [exact Hb|]. intros b. apply uint_roundtrip.
Defined.

Definition job_instance_to_value (i : JobInstance) : Value :=
  Object (struct [("id", to_value (ji_id i)); ("name", to_value (ji_name i)); ("args", to_value (ji_args i))]).
Definition job_instance_from_value (v : Value) : Res () JobInstance :=
  m ← as_object v; id ← field "id" m; name ← field "name" m; args ← field "args" m; Ok (mkJobInstance id name args).
#[export] Instance wire_job_instance : Wire JobInstance.
Proof.
  refine {| to_value := job_instance_to_value; from_value := job_instance_from_value;
            sendable := λ i, sendable (ji_id i) |}.
  intros [id name args] Hi. unfold job_instance_to_value, job_instance_from_value. wire_fields; auto.
Defined.

(** The error of an execution is kept with its message alone. *)
Definition worker_error_to_value (e : WorkerError) : Value :=
  match e with
  | NoJobExecutorFound name => variant "NoJobExecutorFound" (to_value name)
  | NoJobFound id => variant "NoJobFound" (to_value id)
  | Panicked m => variant "Panicked" (to_value m)
  | ExecutionError m => variant "ExecutionError" (to_value (msg m))
  | NoWorkerAvailable => Str "NoWorkerAvailable"
  | ProbingTimeOut => Str "ProbingTimeOut"
  | AckTimeOut => Str "AckTimeOut"
  | ScheduledError m => variant "ScheduledError" (to_value m)
  | RpcErr m => variant "RpcError" (to_value m)
  | SerdeError m => variant "SerdeError" (to_value m)
  end.
Definition worker_error_from_value (v : Value) : Res () WorkerError :=
  t ← as_variant v;
  match t with
  | UnitVariant n => select n [("NoWorkerAvailable", Ok NoWorkerAvailable); ("ProbingTimeOut", Ok ProbingTimeOut);
      ("AckTimeOut", Ok AckTimeOut)] malformed
  | DataVariant n v => select n [
      ("NoJobExecutorFound", name ← from_value v; Ok (NoJobExecutorFound name));
      ("NoJobFound", id ← from_value v; Ok (NoJobFound id));
      ("Panicked", m ← from_value v; Ok (Panicked m));
      ("ExecutionError", e ← from_value v; m ← message e; Ok (ExecutionError m));
      ("NoWorkerAvailable", unit_variant v NoWorkerAvailable); ("ProbingTimeOut", unit_variant v ProbingTimeOut);
      ("AckTimeOut", unit_variant v AckTimeOut);
      ("ScheduledError", m ← from_value v; Ok (ScheduledError m));
      ("RpcError", m ← from_value v; Ok (RpcErr m));
      ("SerdeError", m ← from_value v; Ok (SerdeError m))] malformed
  end.
#[export] Instance wire_worker_error : Wire WorkerError.
Proof.
  refine {| to_value := worker_error_to_value; from_value := worker_error_from_value;
            sendable := λ e, match e with NoJobFound id => sendable id | _ => True end |}.
  intros e He. unfold worker_error_to_value, worker_error_from_value. destruct e; wire_fields; auto.
Defined.

Definition job_state_to_value (s : JobState Value) : Value :=
  match s with
  | Unknown => Str "Unknown"
  | PendingScheduling i w => variant "PendingScheduling" (Object (struct [("instance", to_value i); ("worker", to_value w)]))
  | PendingAck w => variant "PendingAck" (Object (struct [("worker", to_value w)]))
  | Probing w => variant "Probing" (Object (struct [("worker", to_value w)]))
  | Scheduled w => variant "Scheduled" (Object (struct [("worker", to_value w)]))
  | Running w => variant "Running" (Object (struct [("worker", to_value w)]))
  | Completed r => variant "Completed" (to_value r)
  | Failed e => variant "Failed" (Object (struct [("error", to_value e)]))
  end.
Definition job_state_from_value (v : Value) : Res () (JobState Value) :=
  t ← as_variant v;
  match t with
  | UnitVariant n => select n [("Unknown", Ok Unknown)] malformed
  | DataVariant n v => select n [
      ("Unknown", unit_variant v Unknown);
      ("PendingScheduling", m ← as_object v; i ← field "instance" m; w ← field "worker" m; Ok (PendingScheduling i w));
      ("PendingAck", m ← as_object v; w ← field "worker" m; Ok (PendingAck w));
      ("Probing", m ← as_object v; w ← field "worker" m; Ok (Probing w));
      ("Scheduled", m ← as_object v; w ← field "worker" m; Ok (Scheduled w));
      ("Running", m ← as_object v; w ← field "worker" m; Ok (Running w));
      ("Completed", r ← from_value v; Ok (Completed r));
      ("Failed", m ← as_object v; e ← field "error" m; Ok (Failed e))] malformed
  end.
Definition job_state_sendable (s : JobState Value) : Prop :=
  match s with
  | PendingScheduling i w => sendable i ∧ sendable w
  | PendingAck w | Probing w | Scheduled w | Running w => sendable w
  | Failed e => sendable e
  | _ => True
  end.
#[export] Instance wire_job_state : Wire (JobState Value).
Proof.
  refine {| to_value := job_state_to_value; from_value := job_state_from_value; sendable := job_state_sendable |}.
  intros s Hs. unfold job_state_to_value, job_state_from_value, job_state_sendable in *.
  destruct s; destruct_and?; wire_fields; auto.
Defined.

(** ** Statuses and policies *)

Definition frame_status_to_value (s : FrameStatus) : Value :=
  match s with
  | SPending => Str "Pending"
  | SRunCompleted r => variant "RunCompleted" (to_value r)
  | SRunFailed m => variant "RunFailed" (to_value m)
  | SFailed m => variant "Failed" (to_value m)
  | SCompleted => Str "Completed"
  | SReady => Str "Ready"
  | SRunning j => variant "Running" (to_value j)
  | SRunExhausted => Str "RunExhausted"
  | SWaitingChildren => Str "WaitingChildren"
  end.
Definition frame_status_from_value (v : Value) : Res () FrameStatus :=
  t ← as_variant v;
  match t with
  | UnitVariant n => select n [("Pending", Ok SPending); ("Completed", Ok SCompleted); ("Ready", Ok SReady);
      ("RunExhausted", Ok SRunExhausted); ("WaitingChildren", Ok SWaitingChildren)] malformed
  | DataVariant n v => select n [
      ("Pending", unit_variant v SPending); ("RunCompleted", r ← from_value v; Ok (SRunCompleted r));
      ("RunFailed", m ← from_value v; Ok (SRunFailed m)); ("Failed", m ← from_value v; Ok (SFailed m));
      ("Completed", unit_variant v SCompleted); ("Ready", unit_variant v SReady);
      ("Running", j ← from_value v; Ok (SRunning j)); ("RunExhausted", unit_variant v SRunExhausted);
      ("WaitingChildren", unit_variant v SWaitingChildren)] malformed
  end.
#[export] Instance wire_frame_status : Wire FrameStatus.
Proof.
  refine {| to_value := frame_status_to_value; from_value := frame_status_from_value;
            sendable := λ s, match s with SRunCompleted r => sendable r | SRunning j => sendable j | _ => True end |}.
  intros s Hs. unfold frame_status_to_value, frame_status_from_value. destruct s; wire_fields; auto.
Defined.

(** An enumeration whose variants hold nothing. *)
Definition unit_enum {A} (names : list (string * A)) (v : Value) : Res () A :=
  t ← as_variant v;
  match t with
  | UnitVariant n => select n (prod_map Datatypes.id Ok <$> names) malformed
  | DataVariant n v => select n (prod_map Datatypes.id (unit_variant v) <$> names) malformed
  end.

#[export] Instance wire_reduce_policy : Wire ReducePolicy.
Proof.
  refine {| to_value := λ p, Str (match p with DontReduce => "DontReduce" | Reduce => "Reduce" end);
            from_value := unit_enum [("DontReduce", DontReduce); ("Reduce", Reduce)]; sendable := λ _, True |}.
  by intros [].
Defined.
#[export] Instance wire_on_resume_policy : Wire OnResumePolicy.
Proof.
  refine {| to_value := λ p, Str (match p with ResumeRunFrame => "RunFrame" | MarkComplete => "MarkComplete" end);
            from_value := unit_enum [("RunFrame", ResumeRunFrame); ("MarkComplete", MarkComplete)]; sendable := λ _, True |}.
  by intros [].
Defined.
#[export] Instance wire_resume_policy : Wire ResumePolicy.
Proof.
  refine {| to_value := λ p, Str (match p with Sequential => "Sequential" | RHitl => "Hitl" | FanIn => "FanIn" end);
            from_value := unit_enum [("Sequential", Sequential); ("Hitl", RHitl); ("FanIn", FanIn)]; sendable := λ _, True |}.
  by intros [].
Defined.

Definition child_failure_policy_from_value (v : Value) : Res () ChildFailurePolicy :=
  t ← as_variant v;
  match t with
  | UnitVariant n => select n [("DontFail", Ok DontFail)] malformed
  | DataVariant n v => select n [
      ("FailIfAtLeastHasFailed", k ← uint_from_value 64 v; Ok (FailIfAtLeastHasFailed (Z.to_nat k)));
      ("DontFail", unit_variant v DontFail)] malformed
  end.
#[export] Instance wire_child_failure_policy : Wire ChildFailurePolicy.
Proof.
  refine {| to_value := λ p, match p with
              | FailIfAtLeastHasFailed n => variant "FailIfAtLeastHasFailed" (uint_to_value (Z.of_nat n))
              | DontFail => Str "DontFail" end;
            from_value := child_failure_policy_from_value;
            sendable := λ p, match p with FailIfAtLeastHasFailed n => Z.of_nat n < 2 ^ 64 | DontFail => True end |}.
  intros [n|] Hp; [|done]. unfold child_failure_policy_from_value. cbn [as_variant variant select mbind res_bind].
  wire_fields. rewrite uint_roundtrip by lia. wire_fields. by rewrite Nat2Z.id.
Defined.

Definition on_start_policy_to_value (p : OnStartPolicy) : Value :=
  match p with
  | StartRunFrame => Str "RunFrame"
  | AppendGraphThread g start =>
      variant "AppendGraphThread" (Object (struct [("graph_ref", to_value g); ("start", to_value start)]))
  | AppendGraphSpan g join branches =>
      variant "AppendGraphSpan" (Object (struct [("graph_ref", to_value g); ("join", to_value join); ("branches", to_value branches)]))
  | AppendGraphNode g start =>
      variant "AppendGraphNode" (Object (struct [("graph_ref", to_value g); ("start", to_value start)]))
  end.
Definition on_start_policy_from_value (v : Value) : Res () OnStartPolicy :=
  t ← as_variant v;
  match t with
  | UnitVariant n => select n [("RunFrame", Ok StartRunFrame)] malformed
  | DataVariant n v => select n [
      ("RunFrame", unit_variant v StartRunFrame);
      ("AppendGraphThread", m ← as_object v; g ← field "graph_ref" m; s ← field "start" m; Ok (AppendGraphThread g s));
      ("AppendGraphSpan", m ← as_object v; g ← field "graph_ref" m; j ← field "join" m; b ← field "branches" m;
         Ok (AppendGraphSpan g j b));
      ("AppendGraphNode", m ← as_object v; g ← field "graph_ref" m; s ← field "start" m; Ok (AppendGraphNode g s))] malformed
  end.
#[export] Instance wire_on_start_policy : Wire OnStartPolicy.
Proof.
  refine {| to_value := on_start_policy_to_value; from_value := on_start_policy_from_value;
            sendable := λ p, match p with
              | StartRunFrame => True
              | AppendGraphThread g _ | AppendGraphSpan g _ _ | AppendGraphNode g _ => sendable g end |}.
  intros p Hp. unfold on_start_policy_to_value, on_start_policy_from_value. destruct p; wire_fields; auto.
Defined.

Definition frame_policy_to_value (p : FramePolicy) : Value :=
  Object (struct [("on_child_failed", to_value (on_child_failed p)); ("resume_policy", to_value (resume_policy p));
    ("reduce_policy", to_value (reduce_policy p)); ("on_resume_policy", to_value (on_resume_policy p));
    ("on_start_policy", to_value (on_start_policy p))]).
Definition frame_policy_from_value (v : Value) : Res () FramePolicy :=
  m ← as_object v; c ← field "on_child_failed" m; r ← field "resume_policy" m; d ← field "reduce_policy" m;
  o ← field "on_resume_policy" m; s ← field "on_start_policy" m; Ok (mkFramePolicy c r d o s).
#[export] Instance wire_frame_policy : Wire FramePolicy.
Proof.
  refine {| to_value := frame_policy_to_value; from_value := frame_policy_from_value;
            sendable := λ p, sendable (on_child_failed p) ∧ sendable (on_start_policy p) |}.
  intros [c r d o s] [Hc Hs]. unfold frame_policy_to_value, frame_policy_from_value. wire_fields; auto.
Defined.

(** ** Frames *)

#[export] Instance wire_bool : Wire bool.
Proof.
  refine {| to_value := Bool; from_value := λ v, match v with Bool b => Ok b | _ => malformed end; sendable := λ _, True |}.
  done.
Defined.

Definition snapshot_ref_to_value (r : SnapshotRef) : Value :=
  Object (struct [("session_id", to_value (sr_session_id r)); ("frame_id", to_value (sr_frame_id r));
    ("superstep", uint_to_value (sr_superstep r))]).
Definition snapshot_ref_from_value (v : Value) : Res () SnapshotRef :=
  m ← as_object v; s ← field "session_id" m; f ← field "frame_id" m; k ← field_uint 32 "superstep" m;
  Ok (mkSnapshotRef s f k).
#[export] Instance wire_snapshot_ref : Wire SnapshotRef.
Proof.
  refine {| to_value := snapshot_ref_to_value; from_value := snapshot_ref_from_value;
            sendable := λ r, sendable (sr_session_id r) ∧ sendable (sr_frame_id r) ∧ 0 ≤ sr_superstep r < 2 ^ 32 |}.
  intros [s f k] (Hs&Hf&Hk). unfold snapshot_ref_to_value, snapshot_ref_from_value. cbn [sr_session_id sr_frame_id sr_superstep] in *.
  wire_fields; [exact Hs|exact Hf|]. eapply bind_field_uint; [reflexivity..|done|]. done.
Defined.

Definition frame_spec_ref_to_value (r : FrameSpecRef) : Value :=
  match r with
  | RefGraph g => variant "Graph" (to_value g)
  | RefToolAggregator => Str "ToolAggregator" | RefToolCall => Str "ToolCall" | RefExpert => Str "Expert"
  | RefExpertAggregator => Str "ExpertAggregator" | RefHitl => Str "Hitl"
  end.
Definition frame_spec_ref_from_value (v : Value) : Res () FrameSpecRef :=
  t ← as_variant v;
  let units := [("ToolAggregator", RefToolAggregator); ("ToolCall", RefToolCall); ("Expert", RefExpert);
    ("ExpertAggregator", RefExpertAggregator); ("Hitl", RefHitl)] in
  match t with
  | UnitVariant n => select n (prod_map Datatypes.id Ok <$> units) malformed
  | DataVariant n v =>
      select n (("Graph", g ← from_value v; Ok (RefGraph g)) :: (prod_map Datatypes.id (unit_variant v) <$> units)) malformed
  end.
#[export] Instance wire_frame_spec_ref : Wire FrameSpecRef.
Proof.
  refine {| to_value := frame_spec_ref_to_value; from_value := frame_spec_ref_from_value;
            sendable := λ r, match r with RefGraph g => sendable g | _ => True end |}.
  intros r Hr. unfold frame_spec_ref_to_value, frame_spec_ref_from_value. destruct r; wire_fields; auto.
Defined.

(** A field with [#[serde(default)]]. *)
Definition field_default {A} (read : Value → Res () A) (default : A) (name : string) (m : list (string * Value)) : Res () A :=
  match obj_get name m with Some v => read v | None => Ok default end.

(** A frame that is a question has no JSON form. *)
Definition frame_node_to_value (n : FrameNode) : Res () Value :=
  data ← frame_kind_to_value (data n);
  Ok (Object (struct [("session_id", to_value (session_id n)); ("id", to_value (id n)); ("status", to_value (status n));
    ("frame_policy", to_value (frame_policy n)); ("superstep", uint_to_value (superstep n));
    ("barrier", to_value (barrier n)); ("forked_from", to_value (forked_from n));
    ("inherited_channels", to_value (fn_inherited n)); ("spec_ref", to_value (spec_ref n)); ("data", data);
    ("logs", to_value (logs n)); ("hitl_aliases", uint_map_to_value (hitl_aliases n)); ("is_root", to_value (is_root n));
    ("parent", to_value (parent n)); ("next_sibling", to_value (next_sibling n));
    ("prev_sibling", to_value (prev_sibling n)); ("children", to_value (children n))])).

Definition frame_node_from_value (v : Value) : Res () FrameNode :=
  m ← as_object v; session_id ← field "session_id" m; id ← field "id" m; status ← field "status" m;
  frame_policy ← field "frame_policy" m; superstep ← field_uint 32 "superstep" m; barrier ← field "barrier" m;
  forked_from ← field_opt "forked_from" m; inherited ← field "inherited_channels" m; spec_ref ← field "spec_ref" m;
  data ← (field "data" m : Res () Value); data ← frame_kind_from_value data;
  logs ← field_default from_value [] "logs" m;
  hitl_aliases ← field_default (uint_map_from_value 32) ∅ "hitl_aliases" m;
  is_root ← field_default from_value false "is_root" m;
  parent ← field_opt "parent" m; next_sibling ← field_opt "next_sibling" m; prev_sibling ← field_opt "prev_sibling" m;
  children ← field "children" m;
  Ok (mkFrameNode session_id id status frame_policy superstep barrier forked_from inherited spec_ref data logs
    hitl_aliases is_root parent next_sibling prev_sibling children).

(** What a frame needs to be read back: the width of its numbers and
    identifiers, and no recorded answer that is [null]. *)
Record frame_node_sendable (n : FrameNode) : Prop := {
  fns_session : sendable (session_id n); fns_id : sendable (id n); fns_status : sendable (status n);
  fns_policy : sendable (frame_policy n); fns_superstep : 0 ≤ superstep n < 2 ^ 32;
  fns_forked : sendable (forked_from n); fns_spec : sendable (spec_ref n); fns_data : frame_kind_sendable (data n);
  fns_logs : sendable (logs n); fns_aliases : uint_map_sendable 32 (hitl_aliases n);
  fns_parent : sendable (parent n); fns_next : sendable (next_sibling n); fns_prev : sendable (prev_sibling n);
  fns_children : sendable (children n) }.

Lemma bind_default {A B} (read : Value → Res () A) name fields d v (a : A) (k : A → Res () B) r :
  bool_decide (NoDup fields.*1) = true → obj_get name fields = Some v → read v = Ok a → k a = r →
  field_default read d name (struct fields) ≫= k = r.
Proof. intros Hn%bool_decide_eq_true_1 Hg Ha Hk. unfold field_default. by rewrite obj_get_struct_nil, Hg, Ha. Qed.

Lemma frame_node_roundtrip n v :
  frame_node_sendable n → frame_node_to_value n = Ok v → frame_node_from_value v = Ok n.
Proof.
  intros [] Hv. unfold frame_node_to_value in Hv. pose proof (frame_kind_to_value_spec (data n)) as Hk.
  destruct (frame_kind_to_value (data n)) as [d| |]; [|done..]. destruct Hk as [_ Hk]. specialize (Hk fns_data0).
  injection Hv as <-. unfold frame_node_from_value.
  wire_fields; try assumption; try exact I. eapply bind_field_uint; [reflexivity..|done|]. wire_fields; try assumption; auto.
  cbn beta. rewrite Hk. wire_fields. eapply bind_default; [reflexivity..|exact (wire_roundtrip (logs n) fns_logs0)|].
  eapply bind_default; [reflexivity..|exact (uint_map_roundtrip 32 (hitl_aliases n) fns_aliases0)|].
  eapply bind_default; [reflexivity..|reflexivity|].
  wire_fields; try assumption. by destruct n.
Qed.

(** What it needs to have a form. *)
Lemma frame_node_storable n : is_hitl (data n) = false ↔ ∃ v, frame_node_to_value n = Ok v.
Proof.
  unfold frame_node_to_value. pose proof (frame_kind_to_value_spec (data n)) as Hk.
  destruct (frame_kind_to_value (data n)) as [d|[]|]; [|rewrite Hk|done].
  - destruct Hk as [-> _]. split; [eauto|done].
  - split; [done|]. by intros [? ?].
Qed.

(** ** Snapshots *)

Definition snapshot_to_value `{Dates} (s : Snapshot) : Value :=
  Object (struct [("session_id", to_value (sn_session_id s)); ("frame_id", to_value (sn_frame_id s));
    ("superstep", uint_to_value (sn_superstep s)); ("channels", to_value (sn_channels s));
    ("join_sources", to_value (join_sources s)); ("created_at", date_to_value (sn_created_at s));
    ("pin_count", uint_to_value (pin_count s))]).
Definition snapshot_from_value `{Dates} (v : Value) : Res () Snapshot :=
  m ← as_object v; s ← field "session_id" m; f ← field "frame_id" m; k ← field_uint 32 "superstep" m;
  channels ← field "channels" m; sources ← field "join_sources" m;
  created ← (field "created_at" m : Res () Value); created ← date_from_value created;
  pins ← field_uint 32 "pin_count" m; Ok (mkSnapshot s f k channels sources created pins).

Record snapshot_sendable (s : Snapshot) : Prop := {
  sns_session : sendable (sn_session_id s); sns_frame : sendable (sn_frame_id s);
  sns_superstep : 0 ≤ sn_superstep s < 2 ^ 32; sns_sources : sendable (join_sources s);
  sns_pins : 0 ≤ pin_count s < 2 ^ 32 }.

Lemma snapshot_json_roundtrip `{Dates} s : snapshot_sendable s → snapshot_from_value (snapshot_to_value s) = Ok s.
Proof.
  intros []. unfold snapshot_to_value, snapshot_from_value. wire_fields; try assumption.
  eapply bind_field_uint; [reflexivity..|done|]. wire_fields; try assumption; auto.
  cbn [date_from_value date_to_value]. rewrite date_roundtrip. wire_fields.
  eapply bind_field_uint; [reflexivity..|done|]. by destruct s.
Qed.

(** ** Questions *)

(** [#[serde(untagged)]] *)
#[export] Instance wire_answer : Wire Answer.
Proof.
  refine {| to_value := λ a, match a with Single s => Str s | Multiple l => to_value l end;
            from_value := λ v, match v with Str s => Ok (Single s) | v => l ← from_value v; Ok (Multiple l) end;
            sendable := λ _, True |}.
  intros [s|l] _; [done|]. cbn [to_value]. destruct (to_value l) eqn:E; [..|rewrite <- E, wire_roundtrip; auto|]; done.
Defined.

(** [answer] is written even when there is none yet: it is [null]. *)
Definition hitl_frame_to_value (f : HitlFrame) : Value :=
  Object (struct [("session_id", to_value (hf_session_id f)); ("id", to_value (hf_id f)); ("hitl", to_value (hf_hitl f));
    ("answer", to_value (hf_answer f))]).
Definition hitl_frame_from_value (v : Value) : Res () HitlFrame :=
  m ← as_object v; s ← field "session_id" m; i ← field "id" m; h ← field "hitl" m; a ← field_opt "answer" m;
  Ok (mkHitlFrame s i h a).

Definition hitl_frame_sendable (f : HitlFrame) : Prop := sendable (hf_session_id f) ∧ sendable (hf_id f).

Lemma hitl_frame_roundtrip f : hitl_frame_sendable f → hitl_frame_from_value (hitl_frame_to_value f) = Ok f.
Proof.
  intros [Hs Hi]. unfold hitl_frame_to_value, hitl_frame_from_value.
  wire_fields; try assumption; auto; [|by destruct f].
  destruct (hf_answer f); [|done]. split; [apply sendable_map; auto|done].
Qed.

Lemma hitl_frame_answer f : ∃ m, hitl_frame_to_value f = Object m ∧ obj_get "answer" m = Some (to_value (hf_answer f)).
Proof. eexists. split; [reflexivity|]. by rewrite obj_get_struct_nil by (apply (bool_decide_unpack _); reflexivity). Qed.

(** ** Journals and sessions *)

Definition log_content_to_value (c : SessionLogContent) : Value :=
  match c with
  | Plain text => variant "Plain" (to_value text)
  | ToolLog label input output =>
      variant "ToolLog" (Object (struct [("label", to_value label); ("input", to_value input); ("output", to_value output)]))
  | AgentLog label content => variant "AgentLog" (Object (struct [("label", to_value label); ("content", to_value content)]))
  end.
Definition log_content_from_value (v : Value) : Res () SessionLogContent :=
  t ← as_variant v;
  match t with
  | UnitVariant _ => malformed
  | DataVariant n v => select n [
      ("Plain", text ← from_value v; Ok (Plain text));
      ("ToolLog", m ← as_object v; label ← field "label" m; input ← field "input" m; output ← field "output" m;
         Ok (ToolLog label input output));
      ("AgentLog", m ← as_object v; label ← field "label" m; content ← field "content" m; Ok (AgentLog label content))] malformed
  end.
#[export] Instance wire_log_content : Wire SessionLogContent.
Proof.
  refine {| to_value := log_content_to_value; from_value := log_content_from_value; sendable := λ _, True |}.
  intros c _. unfold log_content_to_value, log_content_from_value. destruct c; wire_fields; auto.
Defined.

Definition session_status_to_value (s : SessionStatus) : Value :=
  match s with
  | StPending => Str "Pending" | StArchived => Str "Archived" | StOngoing => Str "Ongoing"
  | StFailed m => variant "Failed" (to_value m)
  end.
Definition session_status_from_value (v : Value) : Res () SessionStatus :=
  t ← as_variant v;
  match t with
  | UnitVariant n => select n [("Pending", Ok StPending); ("Archived", Ok StArchived); ("Ongoing", Ok StOngoing)] malformed
  | DataVariant n v => select n [
      ("Pending", unit_variant v StPending); ("Archived", unit_variant v StArchived); ("Ongoing", unit_variant v StOngoing);
      ("Failed", m ← from_value v; Ok (StFailed m))] malformed
  end.
#[export] Instance wire_session_status : Wire SessionStatus.
Proof.
  refine {| to_value := session_status_to_value; from_value := session_status_from_value; sendable := λ _, True |}.
  intros s _. unfold session_status_to_value, session_status_from_value. destruct s; wire_fields; auto.
Defined.
