(* ===== verification/Postgres.v ===== *)
(** * Sessions in PostgreSQL ([session/store/mod.rs], [session/frames/store/postgres.rs],
      [session/snapshot/store/postgres.rs], [hitl/store/postgres.rs],
      [session/logs/store/postgres.rs], [marie-core/migrations])

    The tables of a session, the statements that the stores send, and what they
    do to the rows.  A statement is atomic; rows that no clause orders come in
    the order of [HashIter].  The columns that no statement reads are left out
    ([created_at] and [last_updated_at] of the frames, snapshots and questions). *)

From S2P Require Import Prelude Ids Json Channels Types RunLog Frames Errors Wire Snapshots Sessions Rows.
Local Open Scope Z_scope.

(** ** Documents and dates in a column *)

(** What PostgreSQL does of its own: a [JSONB] column refuses some documents (a
    text with the character 0), its numbers are decimals, which come back as
    they were only when they are integers (a double may lose the sign of its
    zero, or come back as an integer), and a date is kept to the microsecond. *)
Class Pg := {
  takes : Value → bool; jsonb_number : Number → Number; instant : Z → Z;
  jsonb_integer : ∀ z, jsonb_number (NInt z) = NInt z;
  instant_idem : ∀ t, instant (instant t) = instant t;
  instant_mono : ∀ t u, t ≤ u → instant t ≤ instant u }.

(** What a [JSONB] column gives back of a document. *)
Fixpoint stored `{Pg} (v : Value) : Value :=
  match v with
  | Num n => Num (jsonb_number n)
  | Array l => Array (map stored l)
  | Object m => Object (map (λ p, (p.1, stored p.2)) m)
  | v => v
  end.
(** It gives this document back as it is. *)
Definition kept `{Pg} (v : Value) : Prop := takes v = true ∧ stored v = v.

(** The bits of 1e16 and of -0. *)
Definition TEN_TO_16 : Z := 4846369599423283200.
Definition MINUS_ZERO : Z := 2 ^ 63.

(** Columns of dates to the microsecond, and of decimals. *)
Definition microseconds : Pg.
Proof.
  refine {| takes := λ _, true; instant := λ t, t / 1000 * 1000;
    jsonb_number := λ n, match n with
      | NFloat b => if b =? TEN_TO_16 then NInt (10 ^ 16) else if b =? MINUS_ZERO then NFloat 0 else n
      | _ => n end |}.
  - done.
  - intros t. rewrite Z.div_mul; lia.
  - intros t u Ht. pose proof (Z.div_le_mono t u 1000). lia.
Defined.

Inductive PgError :=
  | RowNotFound
  | ForeignKey
  | EncodeError
  | DecodeError
  | Bail (s : SessionId) (f : FrameId).

(** The operators on documents: [->], [jsonb_set], and the test of a boolean. *)
Definition jsonb_get (k : string) (v : Value) : option Value := match v with Object m => obj_get k m | _ => None end.
Definition jsonb_set (k : string) (x v : Value) : Value := match v with Object m => Object (obj_insert k x m) | _ => v end.
Definition is_true (v : option Value) : bool := match v with Some (Bool b) => b | _ => false end.

(** ** The tables *)

Record SessionRow := mkSessionRow {
  sr_root_frame : option string; sr_status : Value; sr_created_at : Z; sr_last_updated_at : Z }.
Record LogRow := mkLogRow { lr_content : Value; lr_created_at : Z; lr_last_updated_at : Z }.

(** By their primary keys, whose identifiers are texts. *)
Record Db := mkDb {
  t_sessions : gmap string SessionRow;
  t_frames : gmap (string * string) Value;
  t_snapshots : gmap (string * string * Z) Value;
  t_hitls : gmap (string * string) Value;
  t_logs : gmap (string * string) LogRow }.

Notation PM := (M Db PgError).

Definition text_of (s : SessionId) : string := ID_to_string (session_id_ s).
Definition frame_text (f : FrameId) : string := ID_to_string (frame_id_ f).
Definition hitl_text (h : HitlId) : string := ID_to_string (hitl_id_ h).
Definition log_text (l : SessionLogId) : string := ID_to_string (session_log_id_ l).

(** [.parse().expect(..)] *)
Definition parse_text {A} (mk : ID → A) (s : string) : Res PgError A :=
  match ID_from_str s with Ok i => Ok (mk i) | _ => Panic end.

Definition set_frames (t : gmap (string * string) Value) (db : Db) : Db :=
  mkDb (t_sessions db) t (t_snapshots db) (t_hitls db) (t_logs db).
Definition set_hitls (t : gmap (string * string) Value) (db : Db) : Db :=
  mkDb (t_sessions db) (t_frames db) (t_snapshots db) t (t_logs db).

Section postgres.
Context `{HashIter} `{Pg} `{Dates}.

(** A value bound as [Json], as the column holds it, and a column read as
    [Json]. *)
Definition encode (r : Res () Value) : Res PgError Value :=
  match r with Ok v => if takes v then Ok (stored v) else Err EncodeError | _ => Err EncodeError end.
Definition decode {A} (r : Res () A) : Res PgError A := map_err (λ _, DecodeError) r.

Definition statement {A} (f : Db → Res PgError A * Db) : PM A := f.

(** The foreign key of the four other tables. *)
Definition session_known (s : SessionId) (db : Db) : bool := bool_decide (is_Some (t_sessions db !! text_of s)).
Definition references (s : SessionId) : PM () := λ db, (if session_known s db then Ok () else Err ForeignKey, db).

(** ** Frames *)

Definition pg_get_root_frame_id (s : SessionId) : PM FrameId := λ db,
  (match list_find (λ p, p.1.1 = text_of s ∧ is_true (jsonb_get "is_root" p.2) = true) (hash_iter (t_frames db)) with
   | Some (_, (k, _)) => parse_text mkFrameId k.2
   | None => Err RowNotFound
   end, db).

(** A transaction: its two updates are undone when the frame does not exist. *)
Definition lower_others (s : SessionId) (f : FrameId) (t : gmap (string * string) Value) : gmap (string * string) Value :=
  map_imap (λ k v, Some (if decide (k.1 = text_of s ∧ k.2 ≠ frame_text f ∧ is_true (jsonb_get "is_root" v) = true)
                         then jsonb_set "is_root" (Bool false) v else v)) t.
Definition pg_set_root_frame_id (s : SessionId) (f : FrameId) : PM FrameId := λ db,
  let t := lower_others s f (t_frames db) in
  match t !! (text_of s, frame_text f) with
  | None => (Err (Bail s f), db)
  | Some v => (Ok f, set_frames (<[(text_of s, frame_text f) := jsonb_set "is_root" (Bool true) v]> t) db)
  end.

Definition pg_bind_hitl_to_frame (s : SessionId) (f : FrameId) (h : HitlId) : PM () :=
  data ← lift (encode (frame_kind_to_value (KHitl h)));
  statement (λ db,
    match t_frames db !! (text_of s, frame_text f) with
    | None => (Err (Bail s f), db)
    | Some v => (Ok (), set_frames (<[(text_of s, frame_text f) := jsonb_set "data" data v]> (t_frames db)) db)
    end).

Definition pg_get_frame_id_by_hitl_id (s : SessionId) (h : HitlId) : PM (option FrameId) :=
  data ← lift (encode (frame_kind_to_value (KHitl h)));
  statement (λ db,
    (match list_find (λ p, p.1.1 = text_of s ∧ jsonb_get "data" p.2 = Some data) (hash_iter (t_frames db)) with
     | Some (_, (k, _)) => f ← parse_text mkFrameId k.2; Ok (Some f)
     | None => Ok None
     end, db)).

Definition pg_get_frame (s : SessionId) (f : FrameId) : PM FrameNode := λ db,
  (v ← of_option RowNotFound (t_frames db !! (text_of s, frame_text f)); decode (frame_node_from_value v), db).

Definition pg_upsert_frame (n : FrameNode) : PM FrameNode :=
  v ← lift (encode (frame_node_to_value n));
  _ ← references (session_id n);
  _ ← modify (λ db, set_frames (<[(text_of (session_id n), frame_text (id n)) := v]> (t_frames db)) db);
  mret n.

Definition pg_delete_frame (s : SessionId) (f : FrameId) : PM FrameNode := λ db,
  match t_frames db !! (text_of s, frame_text f) with
  | None => (Err RowNotFound, db)
  | Some v => (decode (frame_node_from_value v),
      set_frames (base.delete (text_of s, frame_text f) (t_frames db)) db)
  end.

(** ** Snapshots *)

(** [ORDER BY superstep DESC LIMIT 1] *)
Definition later (best : option (Z * Value)) (p : string * string * Z * Value) : option (Z * Value) :=
  match best with
  | Some (k, _) => if k <? p.1.2 then Some (p.1.2, p.2) else best
  | None => Some (p.1.2, p.2)
  end.
Definition pg_latest_snapshot (s : SessionId) (f : FrameId) : PM Snapshot := λ db,
  (match foldl later None (filter (λ p, p.1.1 = (text_of s, frame_text f)) (hash_iter (t_snapshots db))) with
   | Some (_, v) => decode (snapshot_from_value v)
   | None => Err RowNotFound
   end, db).
Definition pg_snapshot_at (s : SessionId) (f : FrameId) (superstep : Z) : PM Snapshot := λ db,
  (v ← of_option RowNotFound (t_snapshots db !! (text_of s, frame_text f, superstep)); decode (snapshot_from_value v), db).
Definition pg_upsert_snapshot (n : Snapshot) : PM () :=
  v ← lift (encode (Ok (snapshot_to_value n)));
  _ ← references (sn_session_id n);
  modify (λ db, mkDb (t_sessions db) (t_frames db)
    (<[(text_of (sn_session_id n), frame_text (sn_frame_id n), sn_superstep n) := v]> (t_snapshots db)) (t_hitls db) (t_logs db)).

(** ** Questions *)

Definition pg_get_hitl_frame (s : SessionId) (h : HitlId) : PM HitlFrame := λ db,
  (v ← of_option RowNotFound (t_hitls db !! (text_of s, hitl_text h)); decode (hitl_frame_from_value v), db).
Definition pg_get_hitl (s : SessionId) (h : HitlId) : PM Hitl := f ← pg_get_hitl_frame s h; mret (hf_hitl f).
Definition pg_upsert_hitl_frame (f : HitlFrame) : PM () :=
  v ← lift (encode (Ok (hitl_frame_to_value f)));
  _ ← references (hf_session_id f);
  modify (λ db, set_hitls (<[(text_of (hf_session_id f), hitl_text (hf_id f)) := v]> (t_hitls db)) db).
Definition pg_write_hitl_response (s : SessionId) (h : HitlId) (answers : Answers) : PM () :=
  f ← pg_get_hitl_frame s h;
  pg_upsert_hitl_frame (mkHitlFrame (hf_session_id f) (hf_id f) (hf_hitl f) (Some answers)).

(** [frame -> 'answer' IS NULL]: the field is absent. *)
Fixpoint decode_rows {A B} (read : B → Res PgError A) (l : list B) : Res PgError (list A) :=
  match l with
  | [] => Ok []
  | b :: l => a ← read b; l ← decode_rows read l; Ok (a :: l)
  end.
Definition pg_list_unanswered (s : SessionId) : PM (list HitlFrame) := λ db,
  (decode_rows (λ v, decode (hitl_frame_from_value v))
     (filter (λ p, p.1.1 = text_of s ∧ jsonb_get "answer" p.2 = None) (hash_iter (t_hitls db))).*2, db).
Definition pg_list_pending (s : SessionId) : PM (list PendingHitl) :=
  l ← pg_list_unanswered s;
  mret ((λ f, mkPendingHitl (hf_session_id f) (hf_id f) (hf_hitl f)) <$> l).

(** ** Journals *)

(** [ON CONFLICT DO UPDATE]: the date of creation stays. *)
Definition pg_insert_log (l : SessionLog) : PM () :=
  content ← lift (encode (Ok (to_value (sl_content l))));
  _ ← references (sl_session_id l);
  modify (λ db,
    let k := (text_of (sl_session_id l), log_text (sl_id l)) in
    let created := match t_logs db !! k with Some old => lr_created_at old | None => instant (sl_created_at l) end in
    mkDb (t_sessions db) (t_frames db) (t_snapshots db) (t_hitls db)
      (<[k := mkLogRow content created (instant (sl_last_updated_at l))]> (t_logs db))).

Definition decode_log_row (s : SessionId) (p : string * string * LogRow) : Res PgError SessionLog :=
  i ← parse_text mkSessionLogId p.1.2;
  content ← decode (from_value (lr_content p.2) : Res () SessionLogContent);
  Ok (mkSessionLog i s content (lr_created_at p.2) (lr_last_updated_at p.2)).

(** [ORDER BY created_at] *)
Fixpoint insert_row (x : string * string * LogRow) (l : list (string * string * LogRow)) : list (string * string * LogRow) :=
  match l with
  | [] => [x]
  | y :: l => if lr_created_at x.2 <=? lr_created_at y.2 then x :: y :: l else y :: insert_row x l
  end.
Definition order_by_date (l : list (string * string * LogRow)) : list (string * string * LogRow) := foldr insert_row [] l.

Definition in_range (q : InMemoryLogs.SearchLogQuery) (t : Z) : bool :=
  match InMemoryLogs.q_after q with None => true | Some a => instant a <? t end &&
  match InMemoryLogs.q_before q with None => true | Some b => t <? instant b end.
Definition pg_list_log_after (s : SessionId) (q : InMemoryLogs.SearchLogQuery) : PM (list SessionLog) := λ db,
  (decode_rows (decode_log_row s)
     (order_by_date (filter (λ p, p.1.1 = text_of s ∧ in_range q (lr_created_at p.2) = true) (hash_iter (t_logs db)))), db).
Definition pg_list_log (s : SessionId) : PM (list SessionLog) := λ db,
  (decode_rows (decode_log_row s) (order_by_date (filter (λ p, p.1.1 = text_of s) (hash_iter (t_logs db)))), db).

(** ** Sessions *)

Definition decode_row (p : string * SessionRow) : Res PgError Session :=
  i ← parse_text mkSessionId p.1;
  root ← (match sr_root_frame p.2 with Some s => f ← parse_text mkFrameId s; Ok (Some f) | None => Ok None end);
  status ← decode (from_value (sr_status p.2) : Res () SessionStatus);
  Ok (mkSession i root status (sr_created_at p.2) (sr_last_updated_at p.2)).

Definition pg_get_session (s : SessionId) : PM Session := λ db,
  (row ← of_option RowNotFound (t_sessions db !! text_of s); decode_row (text_of s, row), db).
Definition pg_session_exists (s : SessionId) : PM bool := gets (session_known s).
(** [now] is the clock of the server. *)
Definition pg_upsert_session (now : Z) (x : Session) : PM () :=
  status ← lift (encode (Ok (to_value (s_status x))));
  modify (λ db,
    let created := match t_sessions db !! text_of (s_id x) with Some row => sr_created_at row | None => instant now end in
    mkDb (<[text_of (s_id x) := mkSessionRow (frame_text <$> root_frame x) status created (instant now)]> (t_sessions db))
      (t_frames db) (t_snapshots db) (t_hitls db) (t_logs db)).
(** A row that another table references is not deleted. *)
Definition referenced (s : SessionId) (db : Db) : bool :=
  existsb (λ k, bool_decide (k = text_of s))
    ((map_to_list (t_frames db)).*1.*1 ++ (map_to_list (t_snapshots db)).*1.*1.*1 ++
     (map_to_list (t_hitls db)).*1.*1 ++ (map_to_list (t_logs db)).*1.*1).
Definition pg_delete_session (s : SessionId) : PM Session := λ db,
  match t_sessions db !! text_of s with
  | None => (Err RowNotFound, db)
  | Some row =>
      if referenced s db then (Err ForeignKey, db)
      else (decode_row (text_of s, row),
            mkDb (base.delete (text_of s) (t_sessions db)) (t_frames db) (t_snapshots db) (t_hitls db) (t_logs db))
  end.
Definition pg_list_sessions : PM (list Session) := λ db, (decode_rows decode_row (hash_iter (t_sessions db)), db).
Definition pg_get_session_view (s : SessionId) : PM SessionView :=
  x ← pg_get_session s;
  logs ← pg_list_log s;
  pendings ← pg_list_pending s;
  mret (mkView (s_id x) (s_status x) logs pendings).

(** [UnitOfWorkExecutor for SessionStore]: what a deletion answers is ignored. *)
Definition pg_uow_flush (now : Z) (u : UnitOfWork) : PM UnitOfWork :=
  if uow_dirty u then
    _ ← match uow_create u, uow_deleted u with
        | true, true => mret ()
        | true, false => pg_upsert_session now (entity u)
        | false, true => ignore (pg_delete_session (s_id (entity u)))
        | false, false => pg_upsert_session now (entity u)
        end;
    mret (mkUow (entity u) false (uow_create u) (uow_deleted u))
  else mret u.
End postgres.
