(* ===== verification/PostgresLaws.v ===== *)
(** * What the tables of a session promise

    The tables of [Postgres] against the stores in memory: the contract of a
    store of frames, which both keep, and the refinements of the questions, the
    snapshots, the journals and the sessions, with what differs. *)

From Stdlib Require Import Ascii.
From stdpp Require Import sorting pretty.
From S2P Require Import Prelude Ids Json Channels Types RunLog Frames Errors Wire Snapshots Sessions Rows Postgres.
Local Open Scope Z_scope.

(** ** The texts of identifiers *)

Lemma ID_text_inj i j : ID_wf i → ID_wf j → ID_to_string i = ID_to_string j → i = j.
Proof. intros Hi Hj E. apply ID_roundtrip in Hi, Hj. rewrite E, Hj in Hi. congruence. Qed.

Lemma session_text_inj s s' : sendable s → sendable s' → text_of s = text_of s' → s = s'.
Proof. intros Hs Hs' E. destruct s, s'. f_equal. by apply ID_text_inj. Qed.
Lemma frame_text_inj f f' : sendable f → sendable f' → frame_text f = frame_text f' → f = f'.
Proof. intros Hf Hf' E. destruct f, f'. f_equal. by apply ID_text_inj. Qed.
Lemma hitl_text_inj h h' : sendable h → sendable h' → hitl_text h = hitl_text h' → h = h'.
Proof. intros Hf Hf' E. destruct h, h'. f_equal. by apply ID_text_inj. Qed.

Lemma parse_frame_text f : sendable f → parse_text mkFrameId (frame_text f) = Ok f.
Proof. intros Hf. unfold parse_text, frame_text. rewrite ID_roundtrip by exact Hf. by destruct f. Qed.

(** ** The contract of a store of frames *)

Inductive FrameOp :=
  | OpGetRoot (s : SessionId) | OpSetRoot (s : SessionId) (f : FrameId) | OpGet (s : SessionId) (f : FrameId)
  | OpBindHitl (s : SessionId) (f : FrameId) (h : HitlId) | OpByHitl (s : SessionId) (h : HitlId)
  | OpUpsert (n : FrameNode) | OpDelete (s : SessionId) (f : FrameId).
Inductive FrameAns :=
  | AFrame (f : FrameId) | ANode (n : FrameNode) | ADone | AMaybe (o : option FrameId) | AFailed | APanicked.

Definition answer {E A} (f : A → FrameAns) (r : Res E A) : FrameAns :=
  match r with Ok a => f a | Err _ => AFailed | Panic => APanicked end.
Definition answered {S E A} (f : A → FrameAns) (m : M S E A) (s : S) : FrameAns * S :=
  let '(r, s) := m s in (answer f r, s).

Notation Frames := (gmap (SessionId * FrameId) FrameNode) (only parsing).

Definition set_root_of (s : SessionId) (f : FrameId) (m : Frames) : Frames :=
  map_imap (λ k n, Some (if decide (k.1 = s) then upd_root (bool_decide (k.2 = f)) n else n)) m.

(** What an operation may answer, and what the store holds then: which of two
    roots, or of two frames bound to the same question, is not said. *)
Definition frame_spec (m : Frames) (op : FrameOp) (a : FrameAns) (m' : Frames) : Prop :=
  match op with
  | OpGetRoot s => m' = m ∧
      match a with
      | AFrame f => ∃ n, m !! (s, f) = Some n ∧ is_root n = true
      | AFailed => ∀ f n, m !! (s, f) = Some n → is_root n = false
      | _ => False
      end
  | OpSetRoot s f =>
      match m !! (s, f) with
      | Some _ => a = AFrame f ∧ m' = set_root_of s f m
      | None => a = AFailed ∧ m' = m
      end
  | OpGet s f => m' = m ∧ a = match m !! (s, f) with Some n => ANode n | None => AFailed end
  | OpBindHitl s f h =>
      match m !! (s, f) with
      | Some n => a = ADone ∧ m' = <[(s, f) := upd_data (KHitl h) n]> m
      | None => a = AFailed ∧ m' = m
      end
  | OpByHitl s h => m' = m ∧ ∃ o, a = AMaybe o ∧
      match o with
      | Some f => ∃ n, m !! (s, f) = Some n ∧ is_hitl_kind h (data n) = true
      | None => ∀ f n, m !! (s, f) = Some n → is_hitl_kind h (data n) = false
      end
  | OpUpsert n => a = ANode n ∧ m' = <[(session_id n, id n) := n]> m
  | OpDelete s f =>
      match m !! (s, f) with
      | Some n => a = ANode n ∧ m' = base.delete (s, f) m
      | None => a = AFailed ∧ m' = m
      end
  end.

Section contract.
Context `{HashIter} `{Pg} `{Dates}.

(** The store in memory. *)
Definition mem_op (op : FrameOp) : Frames → FrameAns * Frames :=
  match op with
  | OpGetRoot s => answered AFrame (InMemoryFrames.get_root s)
  | OpSetRoot s f => answered AFrame (InMemoryFrames.set_root s f)
  | OpGet s f => answered ANode (InMemoryFrames.get s f)
  | OpBindHitl s f h => answered (λ _, ADone) (InMemoryFrames.bind_hitl s f h)
  | OpByHitl s h => answered AMaybe (InMemoryFrames.get_by_hitl s h)
  | OpUpsert n => answered ANode (InMemoryFrames.upsert n)
  | OpDelete s f => answered ANode (InMemoryFrames.delete s f)
  end.

(** The store in PostgreSQL. *)
Definition pg_op (op : FrameOp) : Db → FrameAns * Db :=
  match op with
  | OpGetRoot s => answered AFrame (pg_get_root_frame_id s)
  | OpSetRoot s f => answered AFrame (pg_set_root_frame_id s f)
  | OpGet s f => answered ANode (pg_get_frame s f)
  | OpBindHitl s f h => answered (λ _, ADone) (pg_bind_hitl_to_frame s f h)
  | OpByHitl s h => answered AMaybe (pg_get_frame_id_by_hitl_id s h)
  | OpUpsert n => answered ANode (pg_upsert_frame n)
  | OpDelete s f => answered ANode (pg_delete_frame s f)
  end.

Lemma mem_meets_spec op m : InMemoryFrames.keyed m →
  frame_spec m op (mem_op op m).1 (mem_op op m).2.
Proof.
  intros Hk. destruct op as [s|s f|s f|s f h|s h|n|s f]; simpl.
  - unfold InMemoryFrames.get_root. destruct (list_find _ _) as [[i [k n]]|] eqn:E; simpl; (split; [done|]).
    + apply list_find_Some in E as (Hin&[Hs Hr]&_). apply list_elem_of_lookup_2, elem_of_hash_iter in Hin.
      pose proof (Hk _ _ Hin) as ->. simpl in Hs. subst s. eauto.
    + intros f n Hn. apply list_find_None in E. rewrite Forall_forall in E. specialize (E ((s, f), n)).
      pose proof (Hk _ _ Hn) as [= -> ->]. apply not_true_iff_false. intros Hr.
      apply E; [by apply elem_of_hash_iter|done].
  - unfold answered, InMemoryFrames.set_root. by destruct (m !! (s, f)).
  - unfold InMemoryFrames.get. by destruct (m !! (s, f)).
  - unfold answered, InMemoryFrames.bind_hitl. by destruct (m !! (s, f)).
  - split; [done|]. eexists. split; [reflexivity|]. destruct (list_find _ _) as [[i [k n]]|] eqn:E; simpl.
    + apply list_find_Some in E as (Hin&[Hs Hr]&_). apply list_elem_of_lookup_2, elem_of_hash_iter in Hin.
      pose proof (Hk _ _ Hin) as ->. simpl in Hs. subst s. eauto.
    + intros f n Hn. apply list_find_None in E. rewrite Forall_forall in E. specialize (E ((s, f), n)).
      pose proof (Hk _ _ Hn) as [= -> ->]. apply not_true_iff_false. intros Hr.
      apply E; [by apply elem_of_hash_iter|done].
  - done.
  - unfold answered, InMemoryFrames.delete. by destruct (m !! (s, f)).
Qed.
End contract.

(** ** The table of frames keeps the contract *)

(** The rows are the frames, under the texts of their identifiers. *)
Record frames_rel (t : gmap (string * string) Value) (m : Frames) : Prop := {
  frames_kept : ∀ k n, m !! k = Some n → k = (session_id n, id n) ∧ frame_node_sendable n ∧
    ∃ v, frame_node_to_value n = Ok v ∧ t !! (text_of k.1, frame_text k.2) = Some v;
  frames_only : ∀ k v, t !! k = Some v → ∃ s f, k = (text_of s, frame_text f) ∧ is_Some (m !! (s, f)) }.

Lemma frames_rel_empty : frames_rel ∅ ∅.
Proof. by split. Qed.

Lemma frames_rel_keyed t m : frames_rel t m → InMemoryFrames.keyed m.
Proof. intros Hr k n Hn. by apply (frames_kept _ _ Hr) in Hn as [-> _]. Qed.

(** A row holds the frame of its key. *)
Lemma frames_rel_row t m k v : frames_rel t m → t !! k = Some v →
  ∃ n, k = (text_of (session_id n), frame_text (id n)) ∧ m !! (session_id n, id n) = Some n ∧
    frame_node_to_value n = Ok v ∧ frame_node_sendable n.
Proof.
  intros Hr Hv. destruct (frames_only _ _ Hr _ _ Hv) as (s&f&->&[n Hn]).
  destruct (frames_kept _ _ Hr _ _ Hn) as ([= -> ->]&Hs&v'&Ev&Hv'). simpl in Hv'. exists n. split; [done|].
  split; [done|]. split; [congruence|done].
Qed.

Lemma frames_rel_lookup t m s f : frames_rel t m → sendable s → sendable f →
  match m !! (s, f) with
  | Some n => ∃ v, t !! (text_of s, frame_text f) = Some v ∧ frame_node_to_value n = Ok v ∧ frame_node_sendable n
  | None => t !! (text_of s, frame_text f) = None
  end.
Proof.
  intros Hr Hs Hf. destruct (m !! (s, f)) as [n|] eqn:Hn.
  - destruct (frames_kept _ _ Hr _ _ Hn) as (_&Hsn&v&Ev&Hv). eauto.
  - destruct (t !! _) as [v|] eqn:Hv; [|done]. exfalso.
    destruct (frames_rel_row _ _ _ _ Hr Hv) as (n&[E1 E2]%pair_eq&Hn'&_&[]).
    apply session_text_inj in E1 as ->; [|done..]. apply frame_text_inj in E2 as ->; [|done..]. congruence.
Qed.

Lemma frames_rel_insert t m n v : frames_rel t m → frame_node_sendable n → frame_node_to_value n = Ok v →
  frames_rel (<[(text_of (session_id n), frame_text (id n)) := v]> t) (<[(session_id n, id n) := n]> m).
Proof.
  intros Hr Hs Ev. split.
  - intros k n'. intros [[<- <-]|[Hne Hn]]%lookup_insert_Some.
    { split; [done|]. split; [done|]. exists v. by rewrite lookup_insert_eq. }
    destruct (frames_kept _ _ Hr _ _ Hn) as (->&Hs'&v'&Ev'&Hv'). split; [done|]. split; [done|]. exists v'. split; [done|].
    rewrite lookup_insert_ne; [done|]. simpl. intros [E1 E2]%pair_eq. destruct Hs, Hs'. apply Hne.
    apply session_text_inj in E1; [|done..]. apply frame_text_inj in E2; [|done..]. congruence.
  - intros k w [[<- <-]|[Hne Hw]]%lookup_insert_Some.
    { exists (session_id n), (id n). split; [done|]. rewrite lookup_insert_eq. eauto. }
    destruct (frames_only _ _ Hr _ _ Hw) as (s&f&->&Hm). exists s, f. split; [done|].
    destruct (decide ((session_id n, id n) = (s, f))) as [<-|]; [rewrite lookup_insert_eq; eauto|by rewrite lookup_insert_ne].
Qed.

Lemma frames_rel_delete t m s f : frames_rel t m → sendable s → sendable f →
  frames_rel (base.delete (text_of s, frame_text f) t) (base.delete (s, f) m).
Proof.
  intros Hr Hs Hf. split.
  - intros k n [Hne Hn]%lookup_delete_Some. destruct (frames_kept _ _ Hr _ _ Hn) as (->&Hs'&v'&Ev'&Hv').
    split; [done|]. split; [done|]. exists v'. split; [done|]. rewrite lookup_delete_ne; [done|]. simpl. intros [E1 E2]%pair_eq.
    destruct Hs'. apply Hne. apply session_text_inj in E1; [|done..]. apply frame_text_inj in E2; [|done..]. congruence.
  - intros k w [Hne Hw]%lookup_delete_Some. destruct (frames_only _ _ Hr _ _ Hw) as (s'&f'&->&Hm). exists s', f'.
    split; [done|]. rewrite lookup_delete_ne; [done|]. by intros [= -> ->].
Qed.

(** Setting the root of a document is setting the root of its frame. *)
Lemma is_root_document n v : frame_node_to_value n = Ok v → is_true (jsonb_get "is_root" v) = is_root n.
Proof.
  unfold frame_node_to_value. destruct (frame_kind_to_value (data n)) as [d| |]; [|done..]. by intros [= <-].
Qed.
Lemma set_root_document n v b : frame_node_to_value n = Ok v →
  frame_node_to_value (upd_root b n) = Ok (jsonb_set "is_root" (Bool b) v).
Proof.
  unfold frame_node_to_value. destruct n. simpl. destruct (frame_kind_to_value data) as [d| |]; [|done..]. by intros [= <-].
Qed.
Lemma upd_root_same n : upd_root (is_root n) n = n.
Proof. by destruct n. Qed.
Lemma upd_root_sendable b n : frame_node_sendable n → frame_node_sendable (upd_root b n).
Proof. intros []. by split. Qed.

Lemma lookup_lower s f t k : lower_others s f t !! k =
  (λ v, if decide (k.1 = text_of s ∧ k.2 ≠ frame_text f ∧ is_true (jsonb_get "is_root" v) = true)
        then jsonb_set "is_root" (Bool false) v else v) <$> t !! k.
Proof. unfold lower_others. rewrite map_lookup_imap. by destruct (t !! k). Qed.
Lemma lookup_set_root s f m k : set_root_of s f m !! k =
  (λ n, if decide (k.1 = s) then upd_root (bool_decide (k.2 = f)) n else n) <$> m !! k.
Proof. unfold set_root_of. rewrite map_lookup_imap. by destruct (m !! k). Qed.

Lemma frames_rel_set_root t m s f v : frames_rel t m → sendable s → sendable f →
  t !! (text_of s, frame_text f) = Some v →
  frames_rel (<[(text_of s, frame_text f) := jsonb_set "is_root" (Bool true) v]> (lower_others s f t)) (set_root_of s f m).
Proof.
  intros Hr Hs Hf Hv. split.
  - intros k n'. rewrite lookup_set_root. intros (n&Hn&->)%fmap_Some.
    destruct (frames_kept _ _ Hr _ _ Hn) as (->&Hsn&w&Ew&Hw). pose proof Hsn as []. simpl in *.
    set (n' := if decide (session_id n = s) then _ else n).
    assert (session_id n' = session_id n ∧ id n' = id n ∧ frame_node_sendable n') as (Hs1&Hf1&Hsn').
    { unfold n'. case_decide; [|done]. split; [by destruct n|]. split; [by destruct n|by apply upd_root_sendable]. }
    rewrite Hs1, Hf1. split; [done|]. split; [done|]. unfold n'. clear n' Hs1 Hf1 Hsn'.
    destruct (decide (session_id n = s)) as [<-|Hne].
    + destruct (decide (id n = f)) as [<-|Hne].
      * rewrite lookup_insert_eq. replace v with w by congruence. eexists. split; [|done].
        rewrite bool_decide_true by done. by apply set_root_document.
      * rewrite lookup_insert_ne by (intros [_ E]%pair_eq; apply Hne; symmetry; by apply frame_text_inj).
        rewrite lookup_lower, Hw. cbn [fmap option_fmap option_map fst snd].
        rewrite (is_root_document n w Ew), bool_decide_false by done. eexists. split; [|done].
        case_decide as Hd; [by apply set_root_document|]. rewrite <- Ew. f_equal. rewrite <- (upd_root_same n) at 2. f_equal.
        destruct (is_root n); [|done]. exfalso. apply Hd. split; [done|]. split; [|done]. intros E. by apply Hne, frame_text_inj.
    + assert (text_of (session_id n) ≠ text_of s) as Ht by (intros E; by apply Hne, session_text_inj).
      rewrite lookup_insert_ne by (intros [E _]%pair_eq; done). rewrite lookup_lower, Hw. cbn [fmap option_fmap option_map fst snd].
      rewrite decide_False by (by intros [? _]). eauto.
  - intros k w Hw. assert (is_Some (t !! k)) as [w' Hw'].
    { destruct (decide (k = (text_of s, frame_text f))) as [->|Hne]; [by rewrite Hv|].
      rewrite lookup_insert_ne, lookup_lower in Hw by done. by destruct (t !! k). }
    destruct (frames_only _ _ Hr _ _ Hw') as (s'&f'&->&[n Hn]). exists s', f'. split; [done|].
    rewrite lookup_set_root, Hn. eauto.
Qed.

Section encoding.
Context `{Pg}.

Lemma encode_kept v : kept v → encode (Ok v) = Ok v.
Proof. intros [Ht Hs]. unfold encode. by rewrite Ht, Hs. Qed.
End encoding.

Section frames_contract.
Context `{HashIter} `{Pg} `{Dates}.

(** The identifiers have the width of their type; a frame has no recorded
    answer that is [null], and no double that the column would rewrite. *)
Definition op_wf (op : FrameOp) : Prop :=
  match op with
  | OpGetRoot s => sendable s
  | OpSetRoot s f | OpGet s f | OpDelete s f => sendable s ∧ sendable f
  | OpBindHitl s f h => sendable s ∧ sendable f
  | OpByHitl s h => sendable s
  | OpUpsert n => frame_node_sendable n ∧ ∀ v, frame_node_to_value n = Ok v → stored v = v
  end.

(** What the table can do: a frame that is a question has no document, the
    column may refuse one, and the session must have its row. *)
Definition frame_taken (n : FrameNode) : bool :=
  match frame_node_to_value n with Ok v => takes v | _ => false end.
Definition op_supported (known : SessionId → bool) (op : FrameOp) : bool :=
  match op with
  | OpBindHitl _ _ _ | OpByHitl _ _ => false
  | OpUpsert n => frame_taken n && known (session_id n)
  | _ => true
  end.

Lemma pg_upsert_unsupported n db :
  frame_taken n && session_known (session_id n) db = false → ∃ e, pg_upsert_frame n db = (Err e, db).
Proof.
  intros Hn. unfold pg_upsert_frame, mbind, m_bind, lift, encode, references, frame_taken in *.
  destruct (frame_node_to_value n) as [v| |]; [|by eexists..]. destruct (takes v); [|by eexists].
  simpl in Hn. rewrite Hn. by eexists.
Qed.

Lemma pg_upsert_supported n db :
  (∀ v, frame_node_to_value n = Ok v → stored v = v) →
  frame_taken n && session_known (session_id n) db = true →
  ∃ v, frame_node_to_value n = Ok v ∧
    pg_upsert_frame n db = (Ok n, set_frames (<[(text_of (session_id n), frame_text (id n)) := v]> (t_frames db)) db).
Proof.
  intros Hk [Ht Hs]%andb_true_iff. unfold frame_taken in Ht.
  destruct (frame_node_to_value n) as [v| |] eqn:Hv; [|done..]. exists v. split; [done|].
  unfold pg_upsert_frame, mbind, m_bind, lift. rewrite Hv, encode_kept by (split; [done|by apply Hk]).
  unfold references, modify. by rewrite Hs.
Qed.

Lemma pg_step (known : SessionId → bool) op db m a db' :
  frames_rel (t_frames db) m → op_wf op → (∀ s, known s = session_known s db) → pg_op op db = (a, db') →
  (∃ m', (if op_supported known op then frame_spec m op a m' else a = AFailed ∧ m' = m) ∧ frames_rel (t_frames db') m') ∧
  t_sessions db' = t_sessions db.
Proof.
  intros Hr Hw Hkn. destruct op as [s|s f|s f|s f h|s h|n|s f]; simpl in Hw |- *; try (destruct Hw as [Hs Hf]);
    try pose proof (frames_rel_lookup _ _ _ _ Hr Hs Hf) as Hl.
  - unfold answered, pg_get_root_frame_id. intros [= <- <-]. split; [|done]. exists m. split; [|done]. split; [done|].
    destruct (list_find _ _) as [[i [k v]]|] eqn:E.
    + apply list_find_Some in E as (Hin&[Ht Hv]&_). apply list_elem_of_lookup_2, elem_of_hash_iter in Hin.
      destruct (frames_rel_row _ _ _ _ Hr Hin) as (n&->&Hn&Ev&Hsn). cbn [fst snd] in *. destruct Hsn.
      assert (session_id n = s) as <- by (by apply session_text_inj).
      rewrite parse_frame_text by assumption. exists n. split; [exact Hn|]. by rewrite <- (is_root_document n v Ev).
    + intros f n Hn. apply not_true_iff_false. intros Hroot. apply list_find_None in E. rewrite Forall_forall in E.
      destruct (frames_kept _ _ Hr _ _ Hn) as (_&_&v&Ev&Hv). eapply E; [apply elem_of_hash_iter, Hv|].
      split; [done|]. cbn [snd]. by rewrite (is_root_document n v Ev).
  - unfold answered, pg_set_root_frame_id. rewrite lookup_lower. destruct (m !! (s, f)) as [n|] eqn:Hn.
    + destruct Hl as (v&Hv&_). rewrite Hv. cbn [fmap option_fmap option_map fst snd]. rewrite decide_False by (intros (_&?&_); done). intros [= <- <-].
      split; [|done]. exists (set_root_of s f m). split; [done|]. by apply frames_rel_set_root.
    + rewrite Hl. intros [= <- <-]. split; [|done]. by exists m.
  - unfold answered, pg_get_frame. intros [= <- <-]. split; [|done]. exists m. split; [|done]. split; [done|].
    destruct (m !! (s, f)) as [n|]; [|by rewrite Hl]. destruct Hl as (v&->&Ev&Hsn). simpl.
    by rewrite (frame_node_roundtrip n).
  - intros [= <- <-]. split; [|done]. by exists m.
  - intros [= <- <-]. split; [|done]. by exists m.
  - unfold answered. rewrite Hkn. destruct (frame_taken n && session_known (session_id n) db) eqn:Hsup.
    + destruct (pg_upsert_supported n db Hf Hsup) as (v&Hv&->). intros [= <- <-]. split; [|done].
      eexists. split; [done|]. by apply frames_rel_insert.
    + destruct (pg_upsert_unsupported n db Hsup) as [e ->]. intros [= <- <-]. split; [by exists m|done].
  - unfold answered, pg_delete_frame. destruct (m !! (s, f)) as [n|].
    + destruct Hl as (v&->&Ev&Hsn). rewrite (frame_node_roundtrip n) by done. intros [= <- <-]. split; [|done].
      eexists. split; [done|]. by apply frames_rel_delete.
    + rewrite Hl. intros [= <- <-]. split; [|done]. by exists m.
Qed.
End frames_contract.

(** Operations one after the other, on a store and by its contract. *)
Fixpoint pg_run `{HashIter} `{Pg} `{Dates} (ops : list FrameOp) (db : Db) : list FrameAns * Db :=
  match ops with
  | [] => ([], db)
  | op :: ops => let '(a, db) := pg_op op db in let '(l, db) := pg_run ops db in (a :: l, db)
  end.

Inductive allowed `{Pg} (known : SessionId → bool) : Frames → list FrameOp → list FrameAns → Frames → Prop :=
  | allowed_nil m : allowed known m [] [] m
  | allowed_cons m op a m1 ops l m2 :
      (if op_supported known op then frame_spec m op a m1 else a = AFailed ∧ m1 = m) →
      allowed known m1 ops l m2 → allowed known m (op :: ops) (a :: l) m2.

(** C35: Whatever operations are asked, one after the other, the table of
    PostgreSQL answers what the store in memory may answer, and holds the same
    frames at the end, as long as the identifiers have their width and the
    frames that are stored record no answer that is [null] (the table loses it)
    and no double that [JSONB] rewrites; an operation that the table cannot do
    (binding a question to a frame, finding the frame of a question, storing a
    frame that is a question, or one that [JSONB] refuses, or one of a session
    without its row) fails and changes nothing. *)
Theorem pg_frames_refine `{HashIter} `{Pg} `{Dates} (known : SessionId → bool) ops db m :
  frames_rel (t_frames db) m → Forall op_wf ops → (∀ s, known s = session_known s db) →
  ∃ m', allowed known m ops (pg_run ops db).1 m' ∧ frames_rel (t_frames (pg_run ops db).2) m'.
Proof.
  intros Hr Hops. revert db m Hr. induction Hops as [|op ops Hw _ IH]; intros db m Hr Hkn.
  { exists m. split; [constructor|exact Hr]. }
  simpl. destruct (pg_op op db) as [a db1] eqn:E. destruct (pg_step known op db m a db1 Hr Hw Hkn E) as [(m1&Hs&Hr1) Ht].
  destruct (IH db1 m1 Hr1) as (m'&Ha&Hr').
  { intros s. rewrite Hkn. unfold session_known. by rewrite Ht. }
  destruct (pg_run ops db1) as [l db2]. exists m'. split; [by econstructor|exact Hr'].
Qed.

(** ** Questions *)

Section hitls.
Context `{HashIter} `{Pg} `{Dates}.

Record hitls_rel (t : gmap (string * string) Value) (m : HitlFrames) : Prop := {
  hitls_kept : ∀ k f, m !! k = Some f → k = (hf_session_id f, hf_id f) ∧ hitl_frame_sendable f ∧
    t !! (text_of k.1, hitl_text k.2) = Some (hitl_frame_to_value f);
  hitls_only : ∀ k v, t !! k = Some v → ∃ s h, k = (text_of s, hitl_text h) ∧ is_Some (m !! (s, h)) }.

Lemma hitls_rel_row t m k v : hitls_rel t m → t !! k = Some v →
  ∃ f, k = (text_of (hf_session_id f), hitl_text (hf_id f)) ∧ m !! (hf_session_id f, hf_id f) = Some f ∧
    v = hitl_frame_to_value f ∧ hitl_frame_sendable f.
Proof.
  intros Hr Hv. destruct (hitls_only _ _ Hr _ _ Hv) as (s&h&->&[f Hf]).
  destruct (hitls_kept _ _ Hr _ _ Hf) as ([= -> ->]&Hs&Hv'). cbn [fst snd] in Hv'. exists f. split_and!; try done. congruence.
Qed.

Lemma hitls_rel_lookup t m s h : hitls_rel t m → sendable s → sendable h →
  t !! (text_of s, hitl_text h) = hitl_frame_to_value <$> m !! (s, h).
Proof.
  intros Hr Hs Hh. destruct (m !! (s, h)) as [f|] eqn:Hf.
  - destruct (hitls_kept _ _ Hr _ _ Hf) as (_&_&Hv). exact Hv.
  - destruct (t !! _) as [v|] eqn:Hv; [|done]. exfalso.
    destruct (hitls_rel_row _ _ _ _ Hr Hv) as (f&[E1 E2]%pair_eq&Hf'&_&[Hs' Hh']).
    assert (s = hf_session_id f) as -> by (by apply session_text_inj).
    assert (h = hf_id f) as -> by (by apply hitl_text_inj). congruence.
Qed.

Lemma hitls_rel_insert t m f : hitls_rel t m → hitl_frame_sendable f →
  hitls_rel (<[(text_of (hf_session_id f), hitl_text (hf_id f)) := hitl_frame_to_value f]> t)
    (<[(hf_session_id f, hf_id f) := f]> m).
Proof.
  intros Hr Hs. split.
  - intros k f' [[<- <-]|[Hne Hf]]%lookup_insert_Some; [split; [done|]; split; [done|apply lookup_insert_eq]|].
    destruct (hitls_kept _ _ Hr _ _ Hf) as (->&Hs'&Hv). split; [done|]. split; [done|].
    rewrite lookup_insert_ne; [done|]. cbn [fst snd]. intros [E1 E2]%pair_eq. destruct Hs, Hs'. apply Hne. f_equal.
    + by apply session_text_inj.
    + by apply hitl_text_inj.
  - intros k w [[<- <-]|[Hne Hw]]%lookup_insert_Some.
    { exists (hf_session_id f), (hf_id f). split; [done|]. rewrite lookup_insert_eq. eauto. }
    destruct (hitls_only _ _ Hr _ _ Hw) as (s&h&->&Hm). exists s, h. split; [done|].
    destruct (decide ((hf_session_id f, hf_id f) = (s, h))) as [<-|];
      [rewrite lookup_insert_eq; eauto|by rewrite lookup_insert_ne].
Qed.

(** A question is kept and read back, with its answer, as in memory. *)
Lemma pg_hitls_refine s h f answers db m : hitls_rel (t_hitls db) m → sendable s → sendable h → hitl_frame_sendable f →
  session_known (hf_session_id f) db = true → kept (hitl_frame_to_value f) →
  (∀ g, m !! (s, h) = Some g → session_known s db = true ∧
     kept (hitl_frame_to_value (mkHitlFrame s h (hf_hitl g) (Some answers)))) →
  (∀ g, run_res (pg_get_hitl_frame s h) db = Ok g ↔ run_res (InMemoryHitls.get_hitl_frame s h) m = Ok g) ∧
  (run_res (pg_upsert_hitl_frame f) db = Ok () ∧
   hitls_rel (t_hitls (run_state (pg_upsert_hitl_frame f) db)) (run_state (InMemoryHitls.upsert_hitl_frame f) m)) ∧
  (run_res (pg_write_hitl_response s h answers) db = Ok () ↔ run_res (InMemoryHitls.write_hitl_response s h answers) m = Ok ()) ∧
  hitls_rel (t_hitls (run_state (pg_write_hitl_response s h answers) db)) (run_state (InMemoryHitls.write_hitl_response s h answers) m).
Proof.
  intros Hr Hs Hh Hf Hk Ht Hans. assert (∀ g db, hitls_rel (t_hitls db) m → hitl_frame_sendable g →
    session_known (hf_session_id g) db = true → kept (hitl_frame_to_value g) →
    ∃ db', pg_upsert_hitl_frame g db = (Ok (), db') ∧ hitls_rel (t_hitls db') (<[(hf_session_id g, hf_id g) := g]> m)) as Hup.
  { intros g db1 Hr1 Hg Hkg Htg. unfold pg_upsert_hitl_frame, mbind, m_bind, lift, references, modify. rewrite encode_kept, Hkg by done.
    eexists. split; [done|]. by apply hitls_rel_insert. }
  assert (pg_get_hitl_frame s h db = (of_option RowNotFound (m !! (s, h)), db)) as Hget.
  { unfold pg_get_hitl_frame. rewrite (hitls_rel_lookup _ m) by done. destruct (m !! (s, h)) as [g|] eqn:Hg; [|done].
    destruct (hitls_kept _ _ Hr _ _ Hg) as (_&Hsg&_).
    cbn [of_option fmap option_fmap option_map mbind res_bind]. unfold decode. by rewrite hitl_frame_roundtrip. }
  split; [|split].
  - intros g. unfold run_res. rewrite Hget. unfold InMemoryHitls.get_hitl_frame. destruct (m !! (s, h)); cbn [of_option fst]; split; congruence.
  - unfold run_res, run_state. by destruct (Hup f db) as (db'&->&Hr').
  - unfold run_res, run_state, pg_write_hitl_response, InMemoryHitls.write_hitl_response, mbind, m_bind. rewrite Hget.
    unfold InMemoryHitls.get_hitl_frame. destruct (m !! (s, h)) as [g|] eqn:Hg; [|done].
    destruct (hitls_kept _ _ Hr _ _ Hg) as ([= E1 E2]&Hsg&_). destruct (Hans g) as [Hks Hts]; [done|].
    subst s h. cbn [of_option]. destruct (Hup (mkHitlFrame (hf_session_id g) (hf_id g) (hf_hitl g) (Some answers)) db)
      as (db'&->&Hr'); done.
Qed.

(** The table lists no question as pending: the answer of each row is there, as
    [null] when there is none. *)
Theorem pending_never_listed s db m : hitls_rel (t_hitls db) m → pg_list_pending s db = (Ok [], db).
Proof.
  intros Hr. unfold pg_list_pending, pg_list_unanswered, mbind, m_bind.
  assert (filter (λ p, p.1.1 = text_of s ∧ jsonb_get "answer" p.2 = None) (hash_iter (t_hitls db)) = []) as ->; [|done].
  apply elem_of_nil_inv. intros [k v] [[_ Hn] Hin]%list_elem_of_filter. apply elem_of_hash_iter in Hin.
  destruct (hitls_rel_row _ _ _ _ Hr Hin) as (f&_&_&->&_). destruct (hitl_frame_answer f) as (o&Ho&Ha).
  cbn [snd] in Hn. rewrite Ho in Hn. simpl in Hn. congruence.
Qed.
End hitls.

(** ** Snapshots *)

Section snapshots.
Context `{HashIter} `{Pg} `{Dates}.
Notation Snaps := (gmap SnapshotRef Snapshot) (only parsing).

Lemma later_spec l b :
  match foldl later b l with
  | None => b = None ∧ l = []
  | Some (k, v) => (b = Some (k, v) ∨ ∃ p, p ∈ l ∧ p.1.2 = k ∧ p.2 = v) ∧
      (∀ k' v', b = Some (k', v') → k' ≤ k) ∧ ∀ p, p ∈ l → p.1.2 ≤ k
  end.
Proof.
  revert b. induction l as [|p l IH]; intros b; simpl.
  { destruct b as [[k v]|]; [|done]. split; [by left|]. split; [intros ? ? [= -> ->]; lia|by intros p ?%elem_of_nil]. }
  specialize (IH (later b p)). destruct (foldl later (later b p) l) as [[k v]|].
  2: { destruct IH as [Hb _]. unfold later in Hb. destruct b as [[k' v']|]; [|done]. by destruct (k' <? p.1.2). }
  destruct IH as (Hin&Hb&Hl). unfold later in *. destruct b as [[k' v']|].
  - destruct (Z.ltb_spec k' p.1.2) as [Hlt|Hge].
    + pose proof (Hb _ _ eq_refl). split; [right|].
      { destruct Hin as [[= <- <-]|(q&Hq&Ek&Ev)]; [exists p; split; [by left|done]|exists q; split; [by right|done]]. }
      split; [intros ? ? [= <- <-]; lia|]. intros q [->|Hq]%elem_of_cons; [done|by apply Hl].
    + pose proof (Hb _ _ eq_refl). split.
      { destruct Hin as [Hin|(q&Hq&Ek&Ev)]; [by left|right; exists q; split; [by right|done]]. }
      split; [intros ? ? [= <- <-]; lia|]. intros q [->|Hq]%elem_of_cons; [lia|by apply Hl].
  - pose proof (Hb _ _ eq_refl). split; [right|split; [done|]].
    + destruct Hin as [[= <- <-]|(q&Hq&Ek&Ev)]; [exists p; split; [by left|done]|exists q; split; [by right|done]].
    + intros q [->|Hq]%elem_of_cons; [done|by apply Hl].
Qed.

Definition snap_key (r : SnapshotRef) : string * string * Z := (text_of (sr_session_id r), frame_text (sr_frame_id r), sr_superstep r).
Record snaps_rel (t : gmap (string * string * Z) Value) (m : Snaps) : Prop := {
  snaps_kept : ∀ r n, m !! r = Some n → r = sn_ref n ∧ snapshot_sendable n ∧ t !! snap_key r = Some (snapshot_to_value n);
  snaps_only : ∀ k v, t !! k = Some v → ∃ r, k = snap_key r ∧ is_Some (m !! r) }.

Lemma snaps_rel_row t m k v : snaps_rel t m → t !! k = Some v →
  ∃ n, k = snap_key (sn_ref n) ∧ m !! sn_ref n = Some n ∧ v = snapshot_to_value n ∧ snapshot_sendable n.
Proof.
  intros Hr Hv. destruct (snaps_only _ _ Hr _ _ Hv) as (r&->&[n Hn]).
  destruct (snaps_kept _ _ Hr _ _ Hn) as (->&Hs&Hv'). exists n. split_and!; try done. congruence.
Qed.

Lemma snap_key_inj n s f k : snapshot_sendable n → sendable s → sendable f →
  snap_key (sn_ref n) = snap_key (mkSnapshotRef s f k) → sn_ref n = mkSnapshotRef s f k.
Proof.
  intros [] Hs Hf [[E1 E2]%pair_eq E3]%pair_eq. cbn [sn_ref sr_session_id sr_frame_id sr_superstep] in *.
  unfold sn_ref. f_equal; [by apply session_text_inj|by apply frame_text_inj|done].
Qed.

Lemma elem_of_snap_rows t m s f p : snaps_rel t m → sendable s → sendable f →
  p ∈ filter (λ p, p.1.1 = (text_of s, frame_text f)) (hash_iter t) ↔
  ∃ y, p = (snap_key (sn_ref y), snapshot_to_value y) ∧ m !! sn_ref y = Some y ∧ snapshot_sendable y ∧
    sn_session_id y = s ∧ sn_frame_id y = f.
Proof.
  intros Hr Hs Hf. destruct p as [k v]. rewrite list_elem_of_filter, elem_of_hash_iter. cbn [fst]. split.
  - intros [E Hv]. destruct (snaps_rel_row _ _ _ _ Hr Hv) as (y&->&Hy&->&Hsy). exists y. pose proof Hsy as [].
    unfold snap_key in E. cbn [fst sn_ref sr_session_id sr_frame_id] in E. apply pair_eq in E as [E1 E2].
    split_and!; [done..|by apply session_text_inj|by apply frame_text_inj].
  - intros (y&[= -> ->]&Hy&Hsy&<-&<-). split; [done|]. by apply (snaps_kept _ _ Hr) in Hy as (_&_&?).
Qed.

Lemma pg_latest_refines s f db m x : snaps_rel (t_snapshots db) m → sendable s → sendable f →
  run_res (pg_latest_snapshot s f) db = Ok x ↔ run_res (InMemorySnapshots.latest s f) m = Ok x.
Proof.
  intros Hr Hs Hf. assert (InMemorySnapshots.keyed m) as Hk.
  { intros r y Hy. by apply (snaps_kept _ _ Hr) in Hy as [-> _]. }
  unfold run_res, pg_latest_snapshot. set (l := filter _ _). cbn [fst].
  assert (∀ y, InMemorySnapshots.latest s f m = (Ok y, m) → m !! sn_ref y = Some y ∧ sn_session_id y = s ∧ sn_frame_id y = f ∧
    (snap_key (sn_ref y), snapshot_to_value y) ∈ l ∧
    ∀ z, m !! sn_ref z = Some z → sn_session_id z = s → sn_frame_id z = f → sn_superstep z ≤ sn_superstep y) as Hmem.
  { intros y Hy. destruct (InMemorySnapshots.latest_spec _ _ _ _ _ Hk Hy) as (_&Hm&Hys&Hyf&Hmax). split_and!; try done.
    apply (elem_of_snap_rows _ _ _ _ _ Hr Hs Hf). exists y. by destruct (snaps_kept _ _ Hr _ _ Hm) as (_&?&_). }
  pose proof (later_spec l None) as Hlater. destruct (foldl later None l) as [[k v]|].
  - destruct Hlater as ([?|(p&Hp&<-&<-)]&_&Hmax); [done|].
    apply (elem_of_snap_rows _ _ _ _ _ Hr Hs Hf) in Hp as (y&->&Hy&Hsy&Hys&Hyf). unfold decode. cbn [snd].
    rewrite snapshot_json_roundtrip by done. cbn [map_err].
    assert (InMemorySnapshots.latest s f m = (Ok y, m)) as ->; [|by split; intros [= <-]].
    destruct (InMemorySnapshots.max_spec (snd <$> filter (InMemorySnapshots.of_frame s f) (hash_iter m)) None y)
      as (z&Hz&_).
    { right. apply list_elem_of_fmap. exists (sn_ref y, y). split; [done|]. apply list_elem_of_filter.
      split; [done|]. by apply elem_of_hash_iter. }
    assert (InMemorySnapshots.latest s f m = (Ok z, m)) as Hz'.
    { unfold InMemorySnapshots.latest, InMemorySnapshots.max_by_superstep. by rewrite Hz. }
    rewrite Hz'. destruct (Hmem z Hz') as (Hzm&Hzs&Hzf&Hzl%Hmax&Hzmax). specialize (Hzmax y Hy Hys Hyf).
    cbn [fst snd sn_ref snap_key sr_superstep] in Hzl. do 2 f_equal.
    assert (sn_ref z = sn_ref y) as E by (unfold sn_ref; f_equal; [congruence|congruence|lia]).
    rewrite E, Hy in Hzm. congruence.
  - destruct Hlater as [_ Hnil]. split; [done|]. intros Hx.
    destruct (InMemorySnapshots.latest s f m) as [r m'] eqn:E. simpl in Hx. subst r.
    assert (m' = m) as -> by (by injection E). destruct (Hmem x eq_refl) as (_&_&_&Hin&_). rewrite Hnil in Hin. by apply elem_of_nil in Hin.
Qed.

Lemma snaps_rel_insert t m n : snaps_rel t m → snapshot_sendable n →
  snaps_rel (<[snap_key (sn_ref n) := snapshot_to_value n]> t) (<[sn_ref n := n]> m).
Proof.
  intros Hr Hn. split.
  - intros r y [[<- <-]|[Hne Hy]]%lookup_insert_Some; [split; [done|]; split; [done|apply lookup_insert_eq]|].
    destruct (snaps_kept _ _ Hr _ _ Hy) as (->&Hsy&Hv). split; [done|]. split; [done|].
    rewrite lookup_insert_ne; [done|]. intros E. apply Hne. pose proof Hsy as []. by apply snap_key_inj.
  - intros k w [[<- <-]|[Hne Hw]]%lookup_insert_Some.
    { exists (sn_ref n). split; [done|]. rewrite lookup_insert_eq. eauto. }
    destruct (snaps_only _ _ Hr _ _ Hw) as (r&->&Hm). exists r. split; [done|].
    destruct (decide (sn_ref n = r)) as [<-|]; [rewrite lookup_insert_eq; eauto|by rewrite lookup_insert_ne].
Qed.

(** A snapshot is kept and read back as in memory, the latest one included. *)
Lemma pg_snapshots_refine s f k n db m : snaps_rel (t_snapshots db) m → sendable s → sendable f → snapshot_sendable n →
  session_known (sn_session_id n) db = true → kept (snapshot_to_value n) →
  (∀ x, run_res (pg_latest_snapshot s f) db = Ok x ↔ run_res (InMemorySnapshots.latest s f) m = Ok x) ∧
  (∀ x, run_res (pg_snapshot_at s f k) db = Ok x ↔ run_res (InMemorySnapshots.at_superstep s f k) m = Ok x) ∧
  run_res (pg_upsert_snapshot n) db = Ok () ∧
  snaps_rel (t_snapshots (run_state (pg_upsert_snapshot n) db)) (run_state (InMemorySnapshots.upsert n) m).
Proof.
  intros Hr Hs Hf Hn Hk Ht. split; [|split].
  - intros x. by apply pg_latest_refines.
  - intros x. unfold run_res, pg_snapshot_at, InMemorySnapshots.at_superstep. cbn [fst].
    destruct (m !! mkSnapshotRef s f k) as [y|] eqn:Hy.
    + destruct (snaps_kept _ _ Hr _ _ Hy) as (_&Hsy&Hv). unfold snap_key in Hv. cbn [sr_session_id sr_frame_id sr_superstep] in Hv.
      rewrite Hv. cbn [of_option mbind res_bind]. unfold decode. rewrite snapshot_json_roundtrip by done.
      by split; intros [= <-].
    + destruct (t_snapshots db !! _) as [v|] eqn:Hv; [|done]. exfalso.
      destruct (snaps_rel_row _ _ _ _ Hr Hv) as (y&Ek&Hy'&_&Hsy). symmetry in Ek. apply snap_key_inj in Ek; [|done..].
      congruence.
  - unfold run_res, run_state, pg_upsert_snapshot, mbind, m_bind, lift, references, modify. rewrite encode_kept, Hk by done.
    split; [done|]. by apply snaps_rel_insert.
Qed.
End snapshots.

(** ** Sessions *)

Section sessions.
Context `{HashIter} `{Pg} `{Dates}.

Lemma parse_session_text s : sendable s → parse_text mkSessionId (text_of s) = Ok s.
Proof. intros Hs. unfold parse_text, text_of. rewrite ID_roundtrip by exact Hs. by destruct s. Qed.

(** A session is read back with the dates of the server: that of its first
    writing, and that of its last. *)
Lemma pg_session_kept now now' x db : sendable (s_id x) → sendable (root_frame x) → kept (to_value (s_status x)) →
  t_sessions db !! text_of (s_id x) = None →
  let db1 := run_state (pg_upsert_session now x) db in
  let db2 := run_state (pg_upsert_session now' x) db1 in
  run_res (pg_get_session (s_id x)) db1 = Ok (mkSession (s_id x) (root_frame x) (s_status x) (instant now) (instant now)) ∧
  run_res (pg_get_session (s_id x)) db2 = Ok (mkSession (s_id x) (root_frame x) (s_status x) (instant now) (instant now')).
Proof.
  intros Hs Hroot Ht Hno. unfold run_res, run_state, pg_upsert_session, pg_get_session, mbind, m_bind, lift, modify.
  rewrite encode_kept by done. cbn [fst snd t_sessions]. rewrite Hno, !lookup_insert_eq. cbn [of_option mbind res_bind sr_created_at].
  assert (∀ c u, decode_row (text_of (s_id x), mkSessionRow (frame_text <$> root_frame x) (to_value (s_status x)) c u) =
    Ok (mkSession (s_id x) (root_frame x) (s_status x) c u)) as Hd.
  { intros c u. unfold decode_row. cbn [fst snd sr_root_frame sr_status sr_created_at sr_last_updated_at].
    rewrite parse_session_text by done. cbn [mbind res_bind]. unfold decode. rewrite wire_roundtrip by exact I.
    destruct (root_frame x) as [f|]; [|done]. cbn [fmap option_fmap option_map]. destruct Hroot as [Hf _].
    by rewrite parse_frame_text. }
  rewrite Hd. split; done.
Qed.

(** A session that has a frame is not deleted, and the unit of work that deletes it
    says that it is. *)
Theorem deletion_ignored now x db v f : t_frames db !! (text_of (s_id x), f) = Some v →
  is_Some (t_sessions db !! text_of (s_id x)) →
  pg_delete_session (s_id x) db = (Err ForeignKey, db) ∧
  ∃ u, pg_uow_flush now (mkUow x true false true) db = (Ok u, db) ∧ uow_dirty u = false.
Proof.
  intros Hf [row Hrow]. assert (pg_delete_session (s_id x) db = (Err ForeignKey, db)) as Hd.
  { unfold pg_delete_session. rewrite Hrow. replace (referenced (s_id x) db) with true; [done|]. symmetry.
    unfold referenced. apply existsb_exists. exists (text_of (s_id x)). split; [|by rewrite bool_decide_true].
    apply list_elem_of_In, elem_of_app. left. apply list_elem_of_fmap. exists (text_of (s_id x), f). split; [done|].
    apply list_elem_of_fmap. eexists (_, v). split; [done|]. by apply elem_of_map_to_list. }
  split; [exact Hd|]. unfold pg_uow_flush, mbind, m_bind, ignore. cbn [uow_dirty uow_create uow_deleted entity].
  rewrite Hd. by eexists.
Qed.
End sessions.

(** ** Journals *)

Section logs.
Context `{HashIter} `{Pg} `{Dates}.

Definition log_wf (l : SessionLog) : Prop :=
  sendable (sl_session_id l) ∧ ID_wf (session_log_id_ (sl_id l)) ∧
  instant (sl_created_at l) = sl_created_at l ∧ instant (sl_last_updated_at l) = sl_last_updated_at l.
Definition log_row (l : SessionLog) : LogRow := mkLogRow (to_value (sl_content l)) (sl_created_at l) (sl_last_updated_at l).
Definition log_key (l : SessionLog) : string * string := (text_of (sl_session_id l), log_text (sl_id l)).

Record logs_rel (t : gmap (string * string) LogRow) (m : LogMap) : Prop := {
  logs_kept : ∀ k l, m !! k = Some l → k = (sl_session_id l, sl_id l) ∧ log_wf l ∧ t !! log_key l = Some (log_row l);
  logs_only : ∀ k r, t !! k = Some r → ∃ i, k = (text_of i.1, log_text i.2) ∧ is_Some (m !! i) }.

Lemma logs_rel_row t m k r : logs_rel t m → t !! k = Some r →
  ∃ l, k = log_key l ∧ m !! (sl_session_id l, sl_id l) = Some l ∧ r = log_row l ∧ log_wf l.
Proof.
  intros Hr Hv. destruct (logs_only _ _ Hr _ _ Hv) as (i&->&[l Hl]).
  destruct (logs_kept _ _ Hr _ _ Hl) as (->&Hw&Hv'). cbn [fst snd] in *. exists l. split; [done|]. split; [done|].
  split; [|done]. unfold log_key in Hv'. congruence.
Qed.

Lemma log_text_inj l l' : ID_wf (session_log_id_ l) → ID_wf (session_log_id_ l') → log_text l = log_text l' → l = l'.
Proof. intros Hf Hf' E. destruct l, l'. f_equal. by apply ID_text_inj. Qed.

Lemma log_key_inj l l' : log_wf l → log_wf l' → log_key l = log_key l' → (sl_session_id l, sl_id l) = (sl_session_id l', sl_id l').
Proof.
  intros (Hs&Hi&_) (Hs'&Hi'&_) [E1 E2]%pair_eq. f_equal; [by apply session_text_inj|by apply log_text_inj].
Qed.

Lemma decode_log l : log_wf l → decode_log_row (sl_session_id l) (log_key l, log_row l) = Ok l.
Proof.
  intros (_&Hi&_). unfold decode_log_row, log_key, log_row. cbn [fst snd lr_content lr_created_at lr_last_updated_at].
  unfold parse_text, log_text. rewrite ID_roundtrip by done. cbn [mbind res_bind]. unfold decode.
  rewrite wire_roundtrip by exact I. cbn [map_err mbind res_bind]. destruct l as [[i] ? ? ? ?]. done.
Qed.

Lemma insert_row_perm x l : insert_row x l ≡ₚ x :: l.
Proof. induction l as [|y l IH]; simpl; [done|]. case_match; [done|]. rewrite IH. apply Permutation_swap. Qed.
Lemma order_perm l : order_by_date l ≡ₚ l.
Proof. induction l as [|x l IH]; simpl; [done|]. by rewrite insert_row_perm, IH. Qed.

Definition earlier (x y : string * string * LogRow) : Prop := lr_created_at x.2 ≤ lr_created_at y.2.
Lemma insert_row_sorted x l : StronglySorted earlier l → StronglySorted earlier (insert_row x l).
Proof.
  induction 1 as [|y l Hl IH Hy]; simpl; [by repeat constructor|]. destruct (Z.leb_spec (lr_created_at x.2) (lr_created_at y.2)).
  - constructor; [by constructor|]. constructor; [done|]. eapply Forall_impl; [done|]. unfold earlier. intros; lia.
  - constructor; [done|]. rewrite insert_row_perm. constructor; [unfold earlier; lia|done].
Qed.
Lemma order_sorted l : StronglySorted earlier (order_by_date l).
Proof. induction l; simpl; [constructor|]. by apply insert_row_sorted. Qed.

(** The rows of entries are read as these entries, in the same order. *)
Lemma decode_log_rows s rows : Forall (λ p, ∃ l, p = (log_key l, log_row l) ∧ log_wf l ∧ sl_session_id l = s) rows →
  ∃ ls, decode_rows (decode_log_row s) rows = Ok ls ∧ rows = (λ l, (log_key l, log_row l)) <$> ls ∧
    Forall (λ l, log_wf l ∧ sl_session_id l = s) ls.
Proof.
  induction 1 as [|p rows (l&->&Hw&<-) _ (ls&Hls&->&Hf)]; [by exists []|]. exists (l :: ls).
  split; [|split; [done|by constructor]]. cbn [decode_rows]. rewrite decode_log by done. cbn [mbind res_bind]. by rewrite Hls.
Qed.

Lemma log_row_inj l l' : log_wf l → log_wf l' → sl_session_id l = sl_session_id l' →
  (log_key l, log_row l) = (log_key l', log_row l') → l = l'.
Proof.
  intros Hl%decode_log Hl'%decode_log Es E. rewrite E, Es, Hl' in Hl. congruence.
Qed.

Lemma pg_logs_listed s (P : LogRow → bool) db m : logs_rel (t_logs db) m → sendable s →
  ∃ ls, decode_rows (decode_log_row s)
      (order_by_date (filter (λ p, p.1.1 = text_of s ∧ P p.2 = true) (hash_iter (t_logs db)))) = Ok ls ∧
    StronglySorted InMemoryLogs.older ls ∧ NoDup ls ∧
    ∀ l, l ∈ ls ↔ m !! (s, sl_id l) = Some l ∧ P (log_row l) = true.
Proof.
  intros Hr Hs. set (rows := filter _ _).
  assert (∀ p, p ∈ rows ↔ ∃ l, p = (log_key l, log_row l) ∧ m !! (s, sl_id l) = Some l ∧ log_wf l ∧ sl_session_id l = s ∧ P (log_row l) = true) as Hrows.
  { intros [k r]. unfold rows. rewrite list_elem_of_filter, elem_of_hash_iter. cbn [fst snd]. split.
    - intros ([E HP]&Hv). destruct (logs_rel_row _ _ _ _ Hr Hv) as (l&->&Hl&->&Hw). pose proof Hw as (Hls&_).
      assert (sl_session_id l = s) as <- by (by apply session_text_inj). by exists l.
    - intros (l&[= -> ->]&Hl&Hw&<-&HP). split; [done|]. by apply (logs_kept _ _ Hr) in Hl as (_&_&?). }
  destruct (decode_log_rows s (order_by_date rows)) as (ls&->&Eo&Hls).
  { apply Forall_forall. intros p. rewrite order_perm. intros (l&->&_&Hw&Hsl&_)%Hrows. eauto. }
  exists ls. split; [done|]. pose proof (order_sorted rows) as Hsort. pose proof (order_perm rows) as Hperm. rewrite Eo in Hsort, Hperm.
  rewrite Forall_forall in Hls. split; [|split].
  - clear -Hsort. induction ls as [|l ls IH]; [constructor|]. apply StronglySorted_inv in Hsort as [Hsort Hall].
    constructor; [by apply IH|]. clear -Hall. induction ls; [constructor|]. apply Forall_cons in Hall as [? ?]. constructor; [done|auto].
  - apply (NoDup_fmap_1 (λ l, (log_key l, log_row l))). rewrite Hperm. apply NoDup_filter. rewrite hash_iter_perm. apply NoDup_map_to_list.
  - intros l. split.
    + intros Hl. destruct (Hls l Hl) as [Hw Hsl]. assert ((log_key l, log_row l) ∈ rows) as (l'&E&Hm&Hw'&Hsl'&HP)%Hrows.
      { rewrite <- Hperm. apply list_elem_of_fmap. eauto. }
      apply log_row_inj in E as <-; [done..|congruence].
    + intros [Hm HP]. destruct (logs_kept _ _ Hr _ _ Hm) as ([= Es]&Hw&_).
      assert ((log_key l, log_row l) ∈ rows) as Hin by (apply Hrows; by exists l).
      rewrite <- Hperm in Hin. apply list_elem_of_fmap in Hin as (l'&E&Hl'). destruct (Hls l' Hl') as [Hw' Hsl'].
      apply log_row_inj in E as ->; [done..|congruence].
Qed.

Lemma logs_rel_insert t m l : logs_rel t m → log_wf l →
  logs_rel (<[log_key l := log_row l]> t) (<[(sl_session_id l, sl_id l) := l]> m).
Proof.
  intros Hr Hw. split.
  - intros k y [[<- <-]|[Hne Hy]]%lookup_insert_Some; [split; [done|]; split; [done|apply lookup_insert_eq]|].
    destruct (logs_kept _ _ Hr _ _ Hy) as (->&Hwy&Hv). split; [done|]. split; [done|].
    rewrite lookup_insert_ne; [done|]. intros E. apply Hne. by apply log_key_inj.
  - intros k w [[<- <-]|[Hne Hw']]%lookup_insert_Some.
    { exists (sl_session_id l, sl_id l). split; [done|]. rewrite lookup_insert_eq. eauto. }
    destruct (logs_only _ _ Hr _ _ Hw') as (i&->&Hm). exists i. split; [done|].
    destruct (decide ((sl_session_id l, sl_id l) = i)) as [<-|]; [rewrite lookup_insert_eq; eauto|by rewrite lookup_insert_ne].
Qed.

(** An entry that is written again keeps its first date, as in memory. *)
Lemma pg_log_inserted l db m : logs_rel (t_logs db) m → log_wf l → session_known (sl_session_id l) db = true →
  kept (to_value (sl_content l)) →
  run_res (pg_insert_log l) db = Ok () ∧
  logs_rel (t_logs (run_state (pg_insert_log l) db)) (run_state (InMemoryLogs.insert_log l) m).
Proof.
  intros Hr Hw Hk Ht. unfold run_res, run_state, pg_insert_log, mbind, m_bind, lift, references, modify.
  rewrite encode_kept, Hk by done. cbn [fst snd t_logs]. split; [done|]. pose proof Hw as (Hs&Hi&Hc&Hu). rewrite Hc, Hu.
  unfold InMemoryLogs.insert_log. cbn [snd]. destruct (m !! (sl_session_id l, sl_id l)) as [old|] eqn:Hold.
  - destruct (logs_kept _ _ Hr _ _ Hold) as ([= Es Ei]&Hwo&Ho). pose proof Hwo as (_&_&Hco&_).
    unfold log_key in Ho. rewrite <- Es, <- Ei in Ho. rewrite Ho, <- Es, <- Ei.
    refine (logs_rel_insert _ _ (mkSessionLog (sl_id l) (sl_session_id l) (sl_content l) (sl_created_at old) (sl_last_updated_at l)) Hr _).
    by split_and!.
  - destruct (t_logs db !! _) as [r|] eqn:Hrow.
    + exfalso. destruct (logs_rel_row _ _ _ _ Hr Hrow) as (y&Ek&Hy&_&Hwy).
      assert ((sl_session_id l, sl_id l) = (sl_session_id y, sl_id y)) as E by (by apply log_key_inj). congruence.
    + by apply logs_rel_insert.
Qed.

(** An entry of a journal is kept with the date of its first writing, and the
    entries of a session are listed once each, the oldest first, those of a range
    of dates when one is asked: as in memory, for dates of a microsecond. *)
Theorem pg_logs_refine l s (q : InMemoryLogs.SearchLogQuery) db m :
  logs_rel (t_logs db) m → log_wf l → session_known (sl_session_id l) db = true → kept (to_value (sl_content l)) →
  sendable s → instant <$> InMemoryLogs.q_after q = InMemoryLogs.q_after q →
  instant <$> InMemoryLogs.q_before q = InMemoryLogs.q_before q →
  let db' := run_state (pg_insert_log l) db in let m' := run_state (InMemoryLogs.insert_log l) m in
  run_res (pg_insert_log l) db = Ok () ∧
  (∃ ls, pg_list_log s db' = (Ok ls, db') ∧ StronglySorted InMemoryLogs.older ls ∧ NoDup ls ∧
     ∀ x, x ∈ ls ↔ m' !! (s, sl_id x) = Some x) ∧
  (∃ ls, pg_list_log_after s q db' = (Ok ls, db') ∧ StronglySorted InMemoryLogs.older ls ∧ NoDup ls ∧
     ∀ x, x ∈ ls ↔ m' !! (s, sl_id x) = Some x ∧ InMemoryLogs.in_query q x = true).
Proof.
  intros Hr Hw Hk Ht Hs Ha Hb db' m'. destruct (pg_log_inserted l db m Hr Hw Hk Ht) as [Hi Hr'].
  fold db' m' in Hr'. split; [exact Hi|]. split.
  - destruct (pg_logs_listed s (λ _, true) db' m' Hr' Hs) as (ls&Hls&Hsort&Hnd&Hin). exists ls.
    split; [|split; [done|split; [done|]]].
    + unfold pg_list_log. rewrite <- Hls. do 4 f_equal. apply list_filter_iff. naive_solver.
    + intros x. rewrite Hin. naive_solver.
  - destruct (pg_logs_listed s (λ r, in_range q (lr_created_at r)) db' m' Hr' Hs) as (ls&Hls&Hsort&Hnd&Hin). exists ls.
    split; [unfold pg_list_log_after; by rewrite <- Hls|]. split; [done|]. split; [done|]. intros x. rewrite Hin.
    assert (in_range q (lr_created_at (log_row x)) = InMemoryLogs.in_query q x) as ->; [|done].
    unfold in_range, InMemoryLogs.in_query. cbn [log_row lr_created_at].
    destruct (InMemoryLogs.q_after q), (InMemoryLogs.q_before q); simplify_eq/=; congruence.
Qed.
End logs.

(** ** Examples *)

Lemma decimal_pretty (n : N) : decimal 0 (pretty n) = Some n.
Proof.
  unfold pretty, pretty_N. case_decide as Hn; [by subst|]. by rewrite decimal_pretty_go.
Qed.

(** Dates as a sign and a number, and a server that keeps microseconds of dates
    in nanoseconds. *)
Definition signed_dates : Dates.
Proof.
  refine {| date_to_text := λ t, (if decide (0 ≤ t) then String "+"%char else String "-"%char) (pretty (Z.abs_N t));
    date_of_text := λ s, match s with
      | String c s => n ← decimal 0 s; Some (if decide (c = "+"%char) then Z.of_N n else - Z.of_N n)
      | EmptyString => None end |}.
  intros t. destruct (decide (0 ≤ t)); rewrite decimal_pretty; simpl; f_equal; lia.
Defined.
#[local] Existing Instance signed_dates.
#[local] Existing Instance microseconds.
#[local] Existing Instance canonical_iter.

Definition pg_sid : SessionId := mkSessionId (mkID 1 1).
Definition pg_fid (n : Z) : FrameId := mkFrameId (mkID 2 n).
Definition pg_hid : HitlId := mkHitlId (mkID 3 1).
Definition pg_node (n : Z) : FrameNode := frame_node_new (pg_fid n) (args pg_sid RefToolCall KVoid).
Definition pg_session : Session := mkSession pg_sid None StOngoing 0 0.
(** A database with the row of a session. *)
Definition pg_db : Db := run_state (pg_upsert_session 5000 pg_session) (mkDb ∅ ∅ ∅ ∅ ∅).

Lemma pg_node_sendable n : 0 ≤ n < 2 ^ 64 → frame_node_sendable (pg_node n).
Proof.
  intros Hn. assert (ID_wf (mkID 1 1) ∧ ID_wf (mkID 2 n)) as [Hs Hf].
  { unfold ID_wf, is_u64. simpl. lia. }
  split; [exact Hs|exact Hf|exact I|by split|simpl; lia|exact I|exact I|exact I|constructor|by intros k h Hk|exact I|exact I|exact I|constructor].
Qed.

Definition pg_demo_ops : list FrameOp :=
  [OpUpsert (pg_node 1); OpUpsert (pg_node 2); OpSetRoot pg_sid (pg_fid 2); OpGetRoot pg_sid; OpBindHitl pg_sid (pg_fid 1) pg_hid;
   OpDelete pg_sid (pg_fid 1); OpGet pg_sid (pg_fid 1)].

Example pg_demo_answers : (pg_run pg_demo_ops pg_db).1 =
  [ANode (pg_node 1); ANode (pg_node 2); AFrame (pg_fid 2); AFrame (pg_fid 2); AFailed; ANode (pg_node 1); AFailed].
Proof. vm_compute. reflexivity. Qed.

Lemma pg_frames_refine_witness :
  ∃ m', allowed (λ s, session_known s pg_db) ∅ pg_demo_ops (pg_run pg_demo_ops pg_db).1 m'.
Proof.
  destruct (pg_frames_refine (λ s, session_known s pg_db) pg_demo_ops pg_db ∅) as (m'&Hm&_);
    [apply frames_rel_empty| |done|by exists m'].
  assert (sendable pg_sid ∧ sendable (pg_fid 1) ∧ sendable (pg_fid 2)) as (Hs&H1&H2) by (by vm_compute).
  repeat constructor; try done; try (by apply pg_node_sendable);
    intros v Hv; vm_compute in Hv; injection Hv as <-; reflexivity.
Defined.

(** What the table loses: an answer recorded as [null] is read back as none, and
    a double as an integer; the store in memory gives the frame back. *)
Definition pg_lossy : FrameNode :=
  upd_logs [mkRunLog 0 (GraphLog "g") (Some Null)]
    (upd_inherited {[ "c" := Num (NFloat TEN_TO_16) ]} (pg_node 1)).
Example pg_losses :
  (pg_run [OpUpsert pg_lossy; OpGet pg_sid (pg_fid 1)] pg_db).1 =
    [ANode pg_lossy; ANode (upd_logs [mkRunLog 0 (GraphLog "g") None]
       (upd_inherited {[ "c" := Num (NInt (10 ^ 16)) ]} (pg_node 1)))] ∧
  (mem_op (OpGet pg_sid (pg_fid 1)) (mem_op (OpUpsert pg_lossy) ∅).2).1 = ANode pg_lossy.
Proof. vm_compute. done. Qed.

Definition pg_log (n t : Z) (text : string) : SessionLog :=
  mkSessionLog (mkSessionLogId (mkID 4 n)) pg_sid (Plain text) t t.
Definition pg_logged : Db := run_state (_ ← pg_insert_log (pg_log 1 9000 "later"); pg_insert_log (pg_log 2 4000 "first")) pg_db.

(** The entry is written again later: its date of creation stays. *)
Example pg_log_again :
  (λ l, (sl_content l, sl_created_at l, sl_last_updated_at l)) <$>
    default [] (match run_res (_ ← pg_insert_log (pg_log 1 12000 "again"); pg_list_log pg_sid) pg_logged with Ok l => Some l | _ => None end)
  = [(Plain "first", 4000, 4000); (Plain "again", 9000, 12000)].
Proof. vm_compute. reflexivity. Qed.

Lemma logs_rel_empty : logs_rel ∅ ∅.
Proof. by split. Qed.

Lemma pg_logs_refine_witness :
  run_res (pg_insert_log (pg_log 1 9000 "later")) pg_db = Ok () ∧
  ∃ ls, run_res (pg_list_log pg_sid) (run_state (pg_insert_log (pg_log 1 9000 "later")) pg_db) = Ok ls ∧ pg_log 1 9000 "later" ∈ ls.
Proof.
  destruct (pg_logs_refine (pg_log 1 9000 "later") pg_sid (InMemoryLogs.mkQuery None None) pg_db ∅) as (Hi&(ls&Hl&_&_&Hin)&_).
  - exact logs_rel_empty.
  - by vm_compute.
  - by vm_compute.
  - done.
  - by vm_compute.
  - done.
  - done.
  - split; [exact Hi|]. exists ls. split; [unfold run_res; by rewrite Hl|]. apply Hin. by vm_compute.
Defined.

(** A question that waits for an answer is in its table, in memory it is pending,
    and the table lists none. *)
Definition pg_question : HitlFrame := mkHitlFrame pg_sid pg_hid Text None.
Example pg_question_lost :
  (run_res (_ ← pg_upsert_hitl_frame pg_question; pg_get_hitl pg_sid pg_hid) pg_db,
   run_res (_ ← pg_upsert_hitl_frame pg_question; pg_list_pending pg_sid) pg_db,
   run_res (_ ← InMemoryHitls.upsert_hitl_frame pg_question; InMemoryHitls.list_pending pg_sid) ∅)
  = (Ok Text, Ok [], Ok [mkPendingHitl pg_sid pg_hid Text]).
Proof. vm_compute. reflexivity. Qed.

(** A session whose frames are stored stays, although its deletion is flushed. *)
Example pg_deleted_session_stays :
  let db := (pg_run [OpUpsert (pg_node 1)] pg_db).2 in
  run_res (u ← pg_uow_flush 7000 (mkUow pg_session true false true); pg_session_exists pg_sid) db = Ok true ∧
  run_res (u ← pg_uow_flush 7000 (mkUow pg_session true false true); pg_session_exists pg_sid) pg_db = Ok false.
Proof. vm_compute. done. Qed.
