(* ===== verification/PgStores.v ===== *)
(** * Secrets and tools in PostgreSQL ([secret/store.rs], [tools/catalog/store.rs])

    The tables [secret] and [tool], and the actor that serves the second one: its
    clients send it commands, which it does one after the other. *)

From S2P Require Import Prelude Ids Json Types Domains Secrets Wire Postgres.
Local Open Scope Z_scope.

(** ** Secrets *)

(** An epoch is a [u32], and the column an [i32]. *)
Definition as_i32 (z : Z) : Z := if z <? 2 ^ 31 then z else z - 2 ^ 32.
Definition as_u32 (z : Z) : Z := if z <? 0 then z + 2 ^ 32 else z.

Record SecretRow := mkSecretRow { sw_key_epoch : Z; sw_ciphertext : list Z; sw_nonce : list Z; sw_algorithm : string }.
Notation SecretTable := (gmap string SecretRow) (only parsing).

(** [duplicate key value]: an insertion under a key that is taken. *)
Inductive RowError := DuplicateKey | BadRow.

Definition secret_text (i : SecretRef) : string := ID_to_string (secret_ref_id i).
Definition secret_row (x : StoredSecret) : SecretRow :=
  mkSecretRow (as_i32 (ss_key_epoch x)) (ss_ciphertext x) (ss_nonce x) (ss_algorithm x).
Definition secret_decode_row (p : string * SecretRow) : Res RowError StoredSecret :=
  match ID_from_str p.1 with
  | Ok i => Ok (mkStoredSecret (mkSecretRef i) (as_u32 (sw_key_epoch p.2)) (sw_ciphertext p.2) (sw_nonce p.2) (sw_algorithm p.2))
  | _ => Panic
  end.

Definition pg_insert_secret (x : StoredSecret) : M SecretTable RowError () := λ t,
  match t !! secret_text (ss_id x) with
  | Some _ => (Err DuplicateKey, t)
  | None => (Ok (), <[secret_text (ss_id x) := secret_row x]> t)
  end.
(** [UPDATE]: a row that does not exist is not an error. *)
Definition pg_replace_secret (x : StoredSecret) : M SecretTable RowError () :=
  modify (alter (λ _, secret_row x) (secret_text (ss_id x))).
Definition pg_remove_secret (i : SecretRef) : M SecretTable RowError () := modify (base.delete (secret_text i)).
Definition pg_get_secret (i : SecretRef) : M SecretTable RowError (option StoredSecret) := λ t,
  (match t !! secret_text i with Some r => x ← secret_decode_row (secret_text i, r); Ok (Some x) | None => Ok None end, t).

(** The identifier and the epoch have the width of their types. *)
Definition secret_wf (x : StoredSecret) : Prop := ID_wf (secret_ref_id (ss_id x)) ∧ 0 ≤ ss_key_epoch x < 2 ^ 32.

Lemma epoch_column e : 0 ≤ e < 2 ^ 32 → as_u32 (as_i32 e) = e ∧ - 2 ^ 31 ≤ as_i32 e < 2 ^ 31.
Proof.
  intros He. unfold as_i32, as_u32. destruct (Z.ltb_spec e (2 ^ 31)).
  - destruct (Z.ltb_spec e 0); lia.
  - destruct (Z.ltb_spec (e - 2 ^ 32) 0); lia.
Qed.

Lemma secret_row_decoded x : secret_wf x → secret_decode_row (secret_text (ss_id x), secret_row x) = Ok x.
Proof.
  intros [Hi He]. unfold secret_decode_row, secret_text. cbn [fst snd]. rewrite ID_roundtrip by done.
  cbn [secret_row sw_key_epoch sw_ciphertext sw_nonce sw_algorithm]. rewrite (proj1 (epoch_column _ He)). by destruct x as [[]].
Qed.

Lemma secret_text_inj i j : ID_wf (secret_ref_id i) → ID_wf (secret_ref_id j) → secret_text i = secret_text j → i = j.
Proof.
  intros Hi Hj E. apply ID_roundtrip in Hi, Hj. unfold secret_text in E. rewrite E, Hj in Hi. destruct i, j. simpl in *. congruence.
Qed.

(** What the vault relies on, for secrets of the width of their types: a secret is
    read back as it was stored or replaced, and the others stay; an insertion
    never takes the place of a secret. *)
Theorem pg_secrets_kept x (j : SecretRef) t :
  secret_wf x → ID_wf (secret_ref_id j) →
  let get t i := run_res (pg_get_secret i) t in
  let inserted := run_state (pg_insert_secret x) t in
  let replaced := run_state (pg_replace_secret x) t in
  (run_res (pg_insert_secret x) t = Ok () → get inserted (ss_id x) = Ok (Some x)) ∧
  (run_res (pg_insert_secret x) t = Ok () ↔ get t (ss_id x) = Ok None) ∧
  get replaced (ss_id x) = (match get t (ss_id x) with Ok None => Ok None | _ => Ok (Some x) end) ∧
  get (run_state (pg_remove_secret (ss_id x)) t) (ss_id x) = Ok None ∧
  (j ≠ ss_id x → get inserted j = get t j ∧ get replaced j = get t j ∧
     get (run_state (pg_remove_secret (ss_id x)) t) j = get t j).
Proof.
  intros Hx Hj. pose proof (secret_row_decoded x Hx) as Hd. destruct Hx as [Hi He].
  unfold run_res, run_state, pg_get_secret, pg_insert_secret, pg_replace_secret, pg_remove_secret, modify. cbn [fst snd].
  split; [|split; [|split; [|split]]].
  - destruct (t !! secret_text (ss_id x)) eqn:E; [discriminate|]. intros _. cbn [snd]. by rewrite lookup_insert_eq, Hd.
  - destruct (t !! secret_text (ss_id x)) as [r|] eqn:E; cbn [fst]; [|tauto]. split; [discriminate|].
    unfold secret_decode_row. cbn [fst]. destruct (ID_from_str _); discriminate.
  - rewrite lookup_alter_eq. destruct (t !! secret_text (ss_id x)) as [r|]; cbn [fmap option_fmap option_map]; [|reflexivity].
    rewrite Hd. cbn [mbind res_bind]. unfold secret_decode_row. cbn [fst]. destruct (ID_from_str _); reflexivity.
  - rewrite lookup_delete_eq. reflexivity.
  - intros Hne. pose proof (λ E, Hne (secret_text_inj _ _ Hj Hi E)) as Ht. split; [|split].
    + destruct (t !! secret_text (ss_id x)); [reflexivity|]. cbn [snd]. rewrite lookup_insert_ne by congruence. reflexivity.
    + rewrite lookup_alter_ne by congruence. reflexivity.
    + rewrite lookup_delete_ne by congruence. reflexivity.
Qed.

(** ** Tools *)

#[export] Instance wire_tool_execution : Wire ToolExecution.
Proof.
  refine {| to_value := λ _, Str "Native";
            from_value := λ v, t ← as_variant v;
              match t with
              | UnitVariant n => if decide (n = "Native") then Ok Native else malformed
              | DataVariant n v => if decide (n = "Native") then unit_variant v Native else malformed
              end;
            sendable := λ _, True |}.
  by intros [].
Defined.

Record ToolRow := mkToolRow { tr_description : string; tr_parameters_schema : Value; tr_execution : Value }.
Notation ToolTable := (gmap string ToolRow) (only parsing).

(** The row of a tool as it is in the table, and as it is written there: its
    documents are bound to [JSONB] columns. *)
Definition raw_row (x : Tool) : ToolRow := mkToolRow (tool_description x) (parameters_schema x) (to_value (tool_execution x)).
Definition tool_row `{Pg} (x : Tool) : ToolRow :=
  mkToolRow (tool_description x) (stored (parameters_schema x)) (stored (to_value (tool_execution x))).
Definition tool_decode_row (p : string * ToolRow) : Res RowError Tool :=
  execution ← map_err (λ _, BadRow) (from_value (tr_execution p.2) : Res () ToolExecution);
  Ok (mkTool p.1 (tr_description p.2) (tr_parameters_schema p.2) execution).

(** What a store of tools does, and answers. *)
Inductive ToolCmd := CmdGet (id : ToolId) | CmdList | CmdInsert (x : Tool) | CmdReplace (x : Tool) | CmdDelete (id : ToolId).
Inductive ToolAns (E : Type) := AnsGet (r : Res E (option Tool)) | AnsList (r : Res E (list Tool)) | AnsDone (r : Res E ()).
Arguments AnsGet {E}. Arguments AnsList {E}. Arguments AnsDone {E}.

Class ToolStore (S E : Type) := {
  tool_get : ToolId → M S E (option Tool);
  tool_list : M S E (list Tool);
  tool_insert : Tool → M S E ();
  tool_replace : Tool → M S E ();
  tool_delete : ToolId → M S E () }.

Definition tool_do {S E : Type} `{ToolStore S E} (c : ToolCmd) (s : S) : ToolAns E * S :=
  match c with
  | CmdGet id => let '(r, s) := tool_get id s in (AnsGet r, s)
  | CmdList => let '(r, s) := tool_list s in (AnsList r, s)
  | CmdInsert x => let '(r, s) := tool_insert x s in (AnsDone r, s)
  | CmdReplace x => let '(r, s) := tool_replace x s in (AnsDone r, s)
  | CmdDelete id => let '(r, s) := tool_delete id s in (AnsDone r, s)
  end.

Section tools.
Context `{HashIter} `{Pg}.

Definition takes_tool (x : Tool) : bool := takes (parameters_schema x) && takes (to_value (tool_execution x)).

Definition pg_tool_get (id : ToolId) : M ToolTable RowError (option Tool) := λ t,
  (match t !! id with Some r => x ← tool_decode_row (id, r); Ok (Some x) | None => Ok None end, t).
Definition pg_tool_insert (x : Tool) : M ToolTable RowError () := λ t,
  if takes_tool x then
    match t !! tool_name x with
    | Some _ => (Err DuplicateKey, t)
    | None => (Ok (), <[tool_name x := tool_row x]> t)
    end
  else (Err BadRow, t).
Definition pg_tool_replace (x : Tool) : M ToolTable RowError () := λ t,
  if takes_tool x then (Ok (), alter (λ _, tool_row x) (tool_name x) t) else (Err BadRow, t).
Definition pg_tool_delete (id : ToolId) : M ToolTable RowError () := modify (base.delete id).
Definition pg_tool_list : M ToolTable RowError (list Tool) := λ t,
  (foldr (λ p r, x ← tool_decode_row p; l ← r; Ok (x :: l)) (Ok []) (hash_iter t), t).

#[export] Instance pg_tools : ToolStore ToolTable RowError := {|
  tool_get := pg_tool_get; tool_list := pg_tool_list; tool_insert := pg_tool_insert; tool_replace := pg_tool_replace;
  tool_delete := pg_tool_delete |}.

(** The tool that the table holds of one that is written: its schema is what a
    [JSONB] column gives back. *)
Definition column_tool (x : Tool) : Tool :=
  mkTool (tool_name x) (tool_description x) (stored (parameters_schema x)) (tool_execution x).

Lemma tool_row_raw x : tool_row x = raw_row (column_tool x).
Proof. by destruct x as [n d p []]. Qed.

(** The table as the map of its tools. *)
Definition tools_rel (t : ToolTable) (m : gmap string Tool) : Prop :=
  (∀ id, t !! id = raw_row <$> m !! id) ∧ ∀ id x, m !! id = Some x → tool_name x = id.

Definition tool_spec (m : gmap string Tool) (c : ToolCmd) (a : ToolAns RowError) (m' : gmap string Tool) : Prop :=
  match c with
  | CmdGet id => a = AnsGet (Ok (m !! id)) ∧ m' = m
  | CmdList => (∃ l, a = AnsList (Ok l) ∧ l ≡ₚ (map_to_list m).*2) ∧ m' = m
  | CmdInsert x =>
      if takes_tool x then
        match m !! tool_name x with
        | Some _ => a = AnsDone (Err DuplicateKey) ∧ m' = m
        | None => a = AnsDone (Ok ()) ∧ m' = <[tool_name x := column_tool x]> m
        end
      else a = AnsDone (Err BadRow) ∧ m' = m
  | CmdReplace x =>
      if takes_tool x then a = AnsDone (Ok ()) ∧ m' = alter (λ _, column_tool x) (tool_name x) m
      else a = AnsDone (Err BadRow) ∧ m' = m
  | CmdDelete id => a = AnsDone (Ok ()) ∧ m' = base.delete id m
  end.

Lemma tool_row_decoded x : tool_decode_row (tool_name x, raw_row x) = Ok x.
Proof. by destruct x as [n d p []]. Qed.

Lemma tools_listed t m : tools_rel t m → ∃ l, pg_tool_list t = (Ok l, t) ∧ l ≡ₚ (map_to_list m).*2.
Proof.
  intros [Hr Hn]. assert (t = raw_row <$> m) as -> by (apply map_eq; intros id; by rewrite Hr, lookup_fmap).
  assert (∃ l : list (string * Tool), hash_iter (raw_row <$> m) = prod_map Datatypes.id raw_row <$> l ∧ l ≡ₚ map_to_list m)
    as (l&Hl&Hp).
  { pose proof (hash_iter_perm (raw_row <$> m)) as Hp. rewrite map_to_list_fmap in Hp.
    apply Permutation_map_inv in Hp as (l&E&Hp). exists l. split; [exact E|]. by symmetry. }
  exists l.*2. split; [|by rewrite Hp]. unfold pg_tool_list. rewrite Hl. f_equal.
  assert (Forall (λ p, tool_name p.2 = p.1) l) as Hf.
  { apply Forall_forall. intros [id x] Hin. rewrite Hp in Hin. apply elem_of_map_to_list in Hin. by apply Hn. }
  clear Hl Hp. induction Hf as [|[id x] l Hx _ IH]; [done|]. simpl in Hx. subst id.
  change (prod_map _ _ <$> ((tool_name x, x) :: l)) with ((tool_name x, raw_row x) :: (prod_map Datatypes.id raw_row <$> l)).
  cbn [foldr]. rewrite tool_row_decoded. cbn [mbind res_bind]. by rewrite IH.
Qed.

(** The table does what the map of the tools does, of tools as the columns
    give them back. *)
Lemma pg_tools_refine c t m : tools_rel t m →
  ∃ m', tool_spec m c (tool_do c t).1 m' ∧ tools_rel (tool_do c t).2 m'.
Proof.
  intros Hr. pose proof Hr as [Hrow Hn]. destruct c as [id| |x|x|id];
    cbn [tool_do tool_spec tool_get tool_list tool_insert tool_replace tool_delete pg_tools].
  - exists m. split; [|done]. unfold pg_tool_get. cbn [fst snd]. split; [|done]. f_equal. rewrite Hrow. destruct (m !! id) as [x|] eqn:Hx; [|done]. apply Hn in Hx as <-.
    cbn [fmap option_fmap option_map]. by rewrite tool_row_decoded.
  - destruct (tools_listed t m Hr) as (l&Hl&Hp). exists m. rewrite Hl. simpl. split; [|done]. split; [by exists l|done].
  - unfold pg_tool_insert. destruct (takes_tool x); [|by exists m]. rewrite Hrow.
    destruct (m !! tool_name x) eqn:Hx; simpl; [by exists m|]. exists (<[tool_name x := column_tool x]> m). rewrite tool_row_raw. split; [done|]. split.
    + intros id. destruct (decide (id = tool_name x)) as [->|]; [by rewrite !lookup_insert_eq|by rewrite !lookup_insert_ne].
    + intros id y [[<- <-]|[_ Hy]]%lookup_insert_Some; [done|by apply Hn].
  - unfold pg_tool_replace. rewrite tool_row_raw. destruct (takes_tool x); [|by exists m]. simpl. eexists. split; [done|]. split.
    + intros id. destruct (decide (id = tool_name x)) as [->|].
      * rewrite !lookup_alter_eq, Hrow. by destruct (m !! tool_name x).
      * by rewrite !lookup_alter_ne.
    + intros id y. destruct (decide (id = tool_name x)) as [->|]; [|rewrite lookup_alter_ne by done; apply Hn].
      rewrite lookup_alter_eq. destruct (m !! tool_name x); [|done]. by intros [= <-].
  - unfold pg_tool_delete, modify. cbn [fst snd]. eexists. split; [done|]. split.
    + intros j. destruct (decide (j = id)) as [->|]; [by rewrite !lookup_delete_eq|by rewrite !lookup_delete_ne].
    + intros j y [_ Hy]%lookup_delete_Some. by apply Hn.
Qed.
End tools.

(** ** The actor of the tools *)

(** [to] is the channel of one answer; the messages are those of the queue. *)
Inductive ToolMessage := Serve (c : ToolCmd) (to : nat) | Shutdown.

(** The clients that are left, and what was sent since the actor exists. *)
Record ToolActor (S E : Type) := mkToolActor {
  ta_store : S; ta_queue : list ToolMessage; ta_running : bool; ta_clients : nat; ta_sent : list ToolCmd;
  ta_answers : list (nat * ToolAns E) }.
Arguments mkToolActor {S E}. Arguments ta_store {S E}. Arguments ta_queue {S E}. Arguments ta_running {S E}.
Arguments ta_clients {S E}. Arguments ta_sent {S E}. Arguments ta_answers {S E}.

Section actor.
Context {S E : Type} `{ToolStore S E}.
Notation A := (ToolActor S E).

(** [ToolStoreActor::create] *)
Definition actor_create (s : S) : A := mkToolActor s [] true 1 [] [].

Inductive ActorStep := SendCmd (c : ToolCmd) | CloneClient | DropClient | ServeTurn.

Definition actor_step (st : ActorStep) (a : A) : A :=
  let 'mkToolActor s q run n sent ans := a in
  match st with
  | SendCmd c => if decide (n = 0%nat) then a else mkToolActor s (q ++ [Serve c (length sent)]) run n (sent ++ [c]) ans
  | CloneClient => if decide (n = 0%nat) then a else mkToolActor s q run (n + 1) sent ans
  | DropClient =>
      (* [Handler::drop], with the last of the clients *)
      match n with
      | 0%nat => a
      | 1%nat => mkToolActor s (q ++ [Shutdown]) run 0 sent ans
      | n => mkToolActor s q run (n - 1) sent ans
      end
  | ServeTurn =>
      if run then
        match q with
        | Serve c to :: q => let '(r, s) := tool_do c s in mkToolActor s q run n sent (ans ++ [(to, r)])
        | Shutdown :: q => mkToolActor s [] false n sent ans
        | [] => a
        end
      else a
  end.
Definition actor_run (l : list ActorStep) (a : A) : A := foldl (λ a st, actor_step st a) a l.

(** The commands one after the other, on the store itself. *)
Fixpoint tool_seq (cs : list ToolCmd) (s : S) : list (ToolAns E) * S :=
  match cs with
  | [] => ([], s)
  | c :: cs => let '(a, s) := tool_do c s in let '(l, s) := tool_seq cs s in (a :: l, s)
  end.

Lemma tool_seq_snoc cs c s : tool_seq (cs ++ [c]) s =
  ((tool_seq cs s).1 ++ [(tool_do c (tool_seq cs s).2).1], (tool_do c (tool_seq cs s).2).2).
Proof.
  revert s. induction cs as [|d cs IH]; intros s; simpl; [by destruct (tool_do c s)|].
  destruct (tool_do d s) as [a s1]. rewrite IH. by destruct (tool_seq cs s1).
Qed.
Lemma tool_seq_length cs s : length (tool_seq cs s).1 = length cs.
Proof.
  revert s. induction cs as [|d cs IH]; intros s; simpl; [done|]. destruct (tool_do d s) as [a s1]. specialize (IH s1).
  destruct (tool_seq cs s1). simpl in *. by rewrite IH.
Qed.

(** What was served is what was sent first, and what waits is the rest. *)
Definition actor_ok (s0 : S) (a : A) : Prop := ∃ served waiting,
  ta_sent a = served ++ waiting ∧
  ta_answers a = imap pair (tool_seq served s0).1 ∧ ta_store a = (tool_seq served s0).2 ∧
  if ta_running a then
    ta_queue a = imap (λ i c, Serve c (length served + i)) waiting ++ (if decide (ta_clients a = 0%nat) then [Shutdown] else [])
  else ta_queue a = [] ∧ waiting = [] ∧ ta_clients a = 0%nat.

Lemma actor_step_ok s0 st a : actor_ok s0 a → actor_ok s0 (actor_step st a).
Proof.
  intros (served&waiting&Hs&Ha&Hst&Hq). destruct a as [s q run n sent ans]. simpl in *. subst sent ans s.
  destruct st as [c| | |]; simpl.
  - destruct (decide (n = 0%nat)) as [->|Hn]; [by exists served, waiting|]. exists served, (waiting ++ [c]). simpl.
    rewrite app_assoc. split_and!; [done..|]. destruct run; [|by destruct Hq as (_&_&?)].
    subst q. rewrite decide_False by done. rewrite !app_nil_r, imap_app, length_app. simpl. by rewrite Nat.add_0_r.
  - destruct (decide (n = 0%nat)) as [->|Hn]; [by exists served, waiting|]. exists served, waiting. simpl. split_and!; [done..|].
    destruct run; [|by destruct Hq as (_&_&?)]. subst q. destruct (decide (n + 1 = 0)%nat); [lia|done].
  - destruct n as [|[|n]]; [by exists served, waiting|..]; exists served, waiting; simpl; (split_and!; [done..|]).
    + destruct run; [|by destruct Hq as (_&_&?)]. subst q. by rewrite app_nil_r.
    + destruct run; [|by destruct Hq as (_&_&?)]. done.
  - destruct run; [|by exists served, waiting]. destruct waiting as [|c waiting]; simpl in Hq.
    + subst q. destruct (decide (n = 0%nat)) as [->|Hn]; exists served, []; simpl; [done|].
      split_and!; [done..|]. by rewrite decide_False.
    + subst q. simpl. destruct (tool_do c (tool_seq served s0).2) as [r s1] eqn:Ed. exists (served ++ [c]), waiting. simpl.
      rewrite tool_seq_snoc, Ed, <- app_assoc. simpl. split; [done|]. split; [|split; [done|]].
      * rewrite imap_app, tool_seq_length. simpl. by rewrite Nat.add_0_r.
      * f_equal. apply imap_ext. intros i x _. simpl. rewrite length_app. simpl. f_equal. lia.
Qed.

Lemma actor_run_ok s0 l a : actor_ok s0 a → actor_ok s0 (actor_run l a).
Proof. revert a. induction l as [|st l IH]; intros a Ha; [done|]. apply (IH (actor_step st a)). by apply actor_step_ok. Qed.

Lemma actor_create_ok s : actor_ok s (actor_create s).
Proof. by exists [], []. Qed.

(** A turn serves what waits first; nothing is sent meanwhile. *)
Lemma serve_turn_queue (a : A) : ta_running a = true → ta_queue (actor_step ServeTurn a) = tail (ta_queue a) ∨
  ta_running (actor_step ServeTurn a) = false.
Proof.
  destruct a as [s q run n sent ans]. simpl. intros ->. destruct q as [|[c to|] q]; [by left| |by right]. left. by destruct (tool_do c s).
Qed.
Lemma serve_turn_sent (a : A) : ta_sent (actor_step ServeTurn a) = ta_sent a.
Proof. destruct a as [s q [] n sent ans]; [|done]. destruct q as [|[c to|] q]; simpl; try done. by destruct (tool_do c s). Qed.
Lemma serve_turns_sent k (a : A) : ta_sent (actor_run (replicate k ServeTurn) a) = ta_sent a.
Proof.
  revert a. induction k as [|k IH]; intros a; [done|]. simpl. change (ta_sent (actor_run (replicate k ServeTurn) (actor_step ServeTurn a)) = ta_sent a).
  by rewrite IH, serve_turn_sent.
Qed.
Lemma serve_turns_clients k (a : A) : ta_clients (actor_run (replicate k ServeTurn) a) = ta_clients a.
Proof.
  revert a. induction k as [|k IH]; intros a; [done|].
  transitivity (ta_clients (actor_step ServeTurn a)); [exact (IH _)|].
  destruct a as [s q [] n sent ans]; [|done]. destruct q as [|[c to|] q]; simpl; try done. by destruct (tool_do c s).
Qed.
Lemma stopped_stays l (a : A) : ta_running a = false → ta_running (actor_run l a) = false.
Proof.
  revert a. induction l as [|st l IH]; intros a Ha; [exact Ha|]. apply (IH (actor_step st a)).
  destruct a as [s q run n sent ans]. simpl in Ha. subst run. destruct st; simpl; [by destruct (decide _)..| |done].
  by destruct n as [|[|n]].
Qed.
Lemma serve_turns_drain k (a : A) : (length (ta_queue a) ≤ k)%nat →
  ta_queue (actor_run (replicate k ServeTurn) a) = [] ∨ ta_running (actor_run (replicate k ServeTurn) a) = false.
Proof.
  revert a. induction k as [|k IH]; intros a Hk.
  - left. simpl. by destruct (ta_queue a); simpl in *; [|lia].
  - change (actor_run (replicate (1 + k) ServeTurn) a) with (actor_run (replicate k ServeTurn) (actor_step ServeTurn a)).
    destruct (ta_running a) eqn:Hr.
    + destruct (serve_turn_queue a Hr) as [Hq|Hq].
      * apply IH. rewrite Hq. destruct (ta_queue a); simpl in *; lia.
      * right. by apply (stopped_stays (replicate k ServeTurn)).
    + right. by apply (stopped_stays (replicate (1 + k) ServeTurn)).
Qed.

(** C23: The actor of the tools serves, whatever the order in which its clients
    send, clone, leave and in which it takes its turns: as many turns as
    messages wait answer every command that was sent - those before the last
    client left - each on its own channel, once, and the answers and the store
    are those of the commands done one after the other in the order they were
    sent. *)
Theorem tool_actor_serves l s :
  let a := actor_run l (actor_create s) in
  let a' := actor_run (replicate (length (ta_queue a)) ServeTurn) a in
  ta_answers a' = imap pair (tool_seq (ta_sent a) s).1 ∧ ta_store a' = (tool_seq (ta_sent a) s).2 ∧
  (ta_clients a = 0%nat → ta_running a' = false).
Proof.
  intros a a'. assert (actor_ok s a') as (served&waiting&Hs&Ha&Hst&Hq) by apply actor_run_ok, actor_run_ok, actor_create_ok.
  assert (ta_sent a' = ta_sent a) as Hsent by apply serve_turns_sent.
  assert (ta_clients a' = ta_clients a) as Hc by apply serve_turns_clients.
  assert (waiting = [] ∧ (ta_clients a = 0%nat → ta_running a' = false)) as [-> Hrun].
  { destruct (serve_turns_drain (length (ta_queue a)) a) as [Hd|Hd]; [lia| |]; fold a' in Hd.
    - destruct (ta_running a'); [|by destruct Hq as (_&?&_)]. rewrite Hd in Hq. symmetry in Hq. apply app_nil in Hq as [Hw Hz].
      split; [by destruct waiting|]. intros H0. by rewrite Hc, decide_True in Hz.
    - rewrite Hd in Hq. by destruct Hq as (_&?&_). }
  rewrite app_nil_r in Hs. by rewrite <- Hsent, Hs.
Qed.
End actor.

(** A client that leaves at once is served all the same. *)
Example tool_actor_demo :
  let x := mkTool "search" "d" Null Native in
  ta_answers (@actor_run _ _ (@pg_tools canonical_iter microseconds)
    [SendCmd (CmdInsert x); SendCmd (CmdInsert x); DropClient; ServeTurn; ServeTurn; ServeTurn] (actor_create ∅)) = [(0, AnsDone (Ok ())); (1, AnsDone (Err DuplicateKey))]%nat.
Proof. vm_compute. reflexivity. Qed.
