(* ===== verification/VarFs.v ===== *)
(** * Variables as files ([persistency/var.rs])

    The variables of a workspace or of a session are a flat table; the path
    [/foo/bar] stands for the key [foo.bar].  A descriptor keeps what is written
    in memory and stores it as one value when it is shut down. *)

From Stdlib Require Import Ascii Sorting.Sorted.
From stdpp Require Import sorting.
From S2P Require Import Prelude Ids Json Types Secrets ErrorChain Vfs.

(** ** What the file system relies on *)

(** [trait VarStore]: the clients that implement it are not in the repository. *)
Class VarStore (W : Type) := {
  vars : W → gmap string Value;
  set_value : string → Value → M W ErrorChain ();
  remove_value : string → M W ErrorChain ();
  set_value_ok : ∀ k v w w', set_value k v w = (Ok (), w') → vars w' = <[k := v]> (vars w);
  remove_value_ok : ∀ k w w', remove_value k w = (Ok (), w') → vars w' = base.delete k (vars w)
}.

(** [serde_json::to_vec], [String::from_utf8_lossy], and
    [serde_json::from_str(text.trim())]. *)
Class ValueText := {
  value_to_vec : Value → list Z;
  from_utf8_lossy : list Z → string;
  parse_trimmed : string → option Value;
  lossy_valid : ∀ s, utf8_valid (as_bytes s) = true → from_utf8_lossy (as_bytes s) = s;
  parse_to_vec : ∀ v, parse_trimmed (from_utf8_lossy (value_to_vec v)) = Some v
}.

(** ** Keys and values *)

Definition path_to_key (path : string) : string := String.concat "." (segments path).

Definition child_name (prefix key : string) : option string :=
  rest ← (if decide (prefix = "") then Some key else rest ← strip_prefix prefix key; strip_prefix "." rest);
  if decide (rest = "") then None else head (split_at "." rest).

Section var_fs.
Context {W : Type} `{VarStore W} `{ValueText} `{HashIter}.

Definition decode_value (bytes : list Z) : Value :=
  let text := from_utf8_lossy bytes in default (Str text) (parse_trimmed text).

Definition encode_value (v : Value) : list Z :=
  match v with Str text => as_bytes text | other => value_to_vec other end.

(** ** Descriptors *)

Record VarDescriptor := mkVarDescriptor {
  vd_bytes : list Z; vd_pos : nat; vd_write : bool; vd_key : string;
  vd_flushed : bool (* the flush has been polled to its end *) }.

Inductive IoError := Unsupported | InvalidSeek | OtherIo (e : ErrorChain).
Notation DM := (M (VarDescriptor * W) IoError).

Definition set_cursor (bytes : list Z) (pos : nat) (d : VarDescriptor) : VarDescriptor :=
  mkVarDescriptor bytes pos (vd_write d) (vd_key d) (vd_flushed d).

(** [Cursor<Vec<u8>>]: what is written replaces the bytes at the position and
    goes on past the end; a gap is filled with zeros. *)
Definition overwrite (pos : nat) (data bytes : list Z) : list Z :=
  take pos bytes ++ replicate (pos - length bytes) 0%Z ++ data ++ drop (pos + length data) bytes.

Definition poll_read (n : nat) : DM (list Z) := λ '(d, w),
  let data := take n (drop (vd_pos d) (vd_bytes d)) in
  (Ok data, (set_cursor (vd_bytes d) (vd_pos d + length data) d, w)).

(** [read_to_end] *)
Definition read_to_end : DM (list Z) := λ '(d, w), poll_read (length (vd_bytes d)) (d, w).

Definition poll_write (data : list Z) : DM nat := λ '(d, w),
  if vd_write d
  then (Ok (length data), (set_cursor (overwrite (vd_pos d) data (vd_bytes d)) (vd_pos d + length data) d, w))
  else (Err Unsupported, (d, w)).

Inductive SeekFrom := FromStart (n : nat) | FromEnd (z : Z) | FromCurrent (z : Z).

Definition start_seek (p : SeekFrom) : DM () := λ '(d, w),
  let target := match p with
                | FromStart n => Z.of_nat n
                | FromEnd z => Z.of_nat (length (vd_bytes d)) + z
                | FromCurrent z => Z.of_nat (vd_pos d) + z
                end%Z in
  if (target <? 0)%Z then (Err InvalidSeek, (d, w))
  else (Ok (), (set_cursor (vd_bytes d) (Z.to_nat target) d, w)).

Definition poll_flush : DM () := mret ().

(** A flush that has ended is kept: polling it again panics. *)
Definition poll_shutdown : DM () := λ '(d, w),
  if vd_write d
  then if vd_flushed d then (Panic, (d, w))
       else
         let d' := mkVarDescriptor (vd_bytes d) (vd_pos d) true (vd_key d) true in
         match set_value (vd_key d) (decode_value (vd_bytes d)) w with
         | (Ok _, w) => (Ok (), (d', w))
         | (Err e, w) => (Err (OtherIo e), (d', w))
         | (Panic, w) => (Panic, (d', w))
         end
  else (Ok (), (d, w)).

(** [write_all] for each text, then [shutdown]. *)
Definition write_and_close (chunks : list (list Z)) : DM () :=
  _ ← mfor chunks (λ data, _ ← poll_write data; mret ());
  poll_shutdown.

(** ** The file system *)

Notation FM := (M W ErrorChain).

Definition var_mkdir (path : string) : FM () :=
  let key := path_to_key path in
  existing ← gets (λ w, vars w !! key);
  match existing with
  | None => set_value key (Object [])
  | Some _ => mret ()
  end.

(** [Vec::dedup] *)
Fixpoint dedup (l : list string) : list string :=
  match l with
  | [] => []
  | x :: l =>
      match dedup l with
      | y :: r => if decide (x = y) then y :: r else x :: y :: r
      | [] => [x]
      end
  end.

Definition var_ls (path : string) : FM (list string) :=
  values ← gets vars;
  mret (dedup (merge_sort String.le (omap (child_name (path_to_key path)) (hash_iter values).*1))).

Definition var_open (path : string) (options : OpenOptions) : FM VarDescriptor :=
  let key := path_to_key path in
  existing ← gets (λ w, vars w !! key);
  if bool_decide (existing = None) && negb (o_create options || o_create_new options || o_write options)
  then throw (msg ("variable introuvable : " +:+ path))
  else mret (mkVarDescriptor (match existing with Some v => encode_value v | None => [] end) 0
               (o_write options || o_append options || o_create options || o_create_new options) key false).

(** [existing_key == key || existing_key.starts_with("{key}.")] *)
Definition at_or_below (key existing : string) : bool :=
  bool_decide (existing = key) || bool_decide (is_Some (strip_prefix (key +:+ ".") existing)).

Definition var_remove (path : string) : FM () :=
  let key := path_to_key path in
  values ← gets vars;
  mfor (hash_iter values).*1 (λ existing, if at_or_below key existing then remove_value existing else mret ()).

Definition var_file_system : FileSystem W VarDescriptor := mkFs var_mkdir var_ls var_open var_remove.

(** ** Writing *)

Lemma overwrite_next (a c old : list Z) :
  overwrite (length a) c (a ++ drop (length a) old) = (a ++ c) ++ drop (length (a ++ c)) old.
Proof.
  unfold overwrite. rewrite take_app_length.
  replace (length a - length (a ++ drop (length a) old)) with 0 by (rewrite length_app; lia). simpl.
  rewrite drop_app_ge by lia. rewrite drop_drop, length_app, <- (assoc_L (++)). do 3 f_equal. lia.
Qed.

Lemma write_all_chunks (chunks : list (list Z)) (a old : list Z) key flushed (w : W) :
  mfor chunks (λ data, _ ← poll_write data; mret ())
    (mkVarDescriptor (a ++ drop (length a) old) (length a) true key flushed, w) =
  (Ok (), (mkVarDescriptor ((a ++ concat chunks) ++ drop (length (a ++ concat chunks)) old)
             (length (a ++ concat chunks)) true key flushed, w)).
Proof.
  revert a. induction chunks as [|c chunks IH]; intros a; simpl; [by rewrite app_nil_r|].
  unfold mbind at 1, m_bind. simpl. rewrite overwrite_next.
  replace (length a + length c) with (length (a ++ c)) by apply length_app.
  unfold set_cursor. simpl. rewrite IH. by rewrite <- (app_assoc a c (concat chunks)).
Qed.

(** The bytes that a descriptor of a variable starts with. *)
Definition old_bytes (w : W) (key : string) : list Z :=
  match vars w !! key with Some v => encode_value v | None => [] end.
End var_fs.

(** A variable opened to be written, in any of the ways that allow it, and
    written in any pieces: closing it stores one value, decoded from the pieces
    together followed by what they did not cover of the text that the variable
    had, and changes no other variable; a second closing panics.  A path whose
    variable does not exist and is not to be created is refused. *)
Theorem var_written {W} `{VarStore W} `{ValueText} (path : string) (options : OpenOptions) (chunks : list (list Z)) (w w' : W)
    (d : VarDescriptor) :
  let key := path_to_key path in
  o_write options || o_create options || o_create_new options = true →
  ∃ d0, var_open path options w = (Ok d0, w) ∧
    (write_and_close chunks (d0, w) = (Ok (), (d, w')) →
     vars w' = <[key := decode_value (concat chunks ++ drop (length (concat chunks)) (old_bytes w key))]> (vars w) ∧
     poll_shutdown (d, w') = (Panic, (d, w'))).
Proof.
  intros key Ho. eexists. split.
  { unfold var_open, gets, mbind, m_bind. fold key.
    replace (o_create options || o_create_new options || o_write options) with true
      by (rewrite <- Ho; by destruct (o_write options), (o_create options), (o_create_new options)).
    rewrite andb_false_r. reflexivity. }
  fold (old_bytes w key).
  replace (o_write options || o_append options || o_create options || o_create_new options) with true
    by (revert Ho; by destruct (o_write options), (o_append options), (o_create options), (o_create_new options)).
  pose proof (write_all_chunks chunks [] (old_bytes w key) key false w) as Hw. simpl in Hw. rewrite drop_0 in Hw.
  intros ([]&s1&Hm&Hs)%m_bind_ok. rewrite Hw in Hm. injection Hm as <-. revert Hs.
  unfold poll_shutdown. simpl. destruct (set_value key _ w) as [[[]|e|] w1] eqn:E; [|done..].
  intros [= <- <-]. split; [by apply set_value_ok in E|done].
Qed.

(** ** Listing and removing *)

Lemma elem_of_dedup x l : x ∈ dedup l ↔ x ∈ l.
Proof.
  induction l as [|y l IH]; simpl; [done|].
  destruct (dedup l) as [|z r]; [|case_decide as Hyz; [subst z|]]; rewrite !elem_of_cons, <- IH;
    rewrite ?elem_of_cons; tauto.
Qed.

Lemma dedup_sorted l : StronglySorted String.le l → StronglySorted String.le (dedup l) ∧ NoDup (dedup l).
Proof.
  induction 1 as [|x l _ IH Hx]; simpl; [split; constructor|].
  assert (Forall (String.le x) (dedup l)) as Hd.
  { rewrite Forall_forall in *. intros y Hy. rewrite elem_of_dedup in Hy. by apply Hx. }
  destruct (dedup l) as [|y r] eqn:E; [repeat constructor; by intros ?%elem_of_nil|].
  destruct IH as [Hs Hn]. case_decide as Hxy; [done|]. split; [by constructor|].
  constructor; [|done]. intros [->|Hin]%elem_of_cons; [done|].
  apply Hxy, (anti_symm String.le); [by inversion Hd|].
  apply StronglySorted_cons in Hs as [Hall _]. rewrite Forall_forall in Hall. by apply Hall.
Qed.

(** The name is the first part of what a key has after the prefix. *)
Definition child_of (prefix key name : string) : Prop :=
  ∃ rest, key = (if decide (prefix = "") then "" else prefix +:+ ".") +:+ name +:+ rest ∧
    (rest = "" ∨ ∃ r, rest = "." +:+ r) ∧ name +:+ rest ≠ "" ∧ "."%char ∉ String.list_ascii_of_string name.

Lemma split_head c name rest :
  c ∉ String.list_ascii_of_string name → (rest = "" ∨ ∃ r, rest = String c r) →
  head (split_at c (name +:+ rest)) = Some name.
Proof.
  intros Hc Hr. induction name as [|a name IH]; simpl.
  - destruct Hr as [->|[r ->]]; [done|]. simpl. by rewrite decide_True.
  - simpl in Hc. apply not_elem_of_cons in Hc as [Ha Hc]. rewrite decide_False by congruence.
    specialize (IH Hc). destruct (split_at c (name +:+ rest)) as [|x l]; simplify_eq/=. done.
Qed.

Lemma split_head_ex c s :
  ∃ name rest, s = name +:+ rest ∧ c ∉ String.list_ascii_of_string name ∧ (rest = "" ∨ ∃ r, rest = String c r).
Proof.
  induction s as [|a s (name&rest&->&Hc&Hr)]; [exists "", ""; split_and!; [done|by apply not_elem_of_nil|by left]|].
  destruct (decide (a = c)) as [->|Ha].
  - exists "", (String c (name +:+ rest)). split_and!; [done|by apply not_elem_of_nil|right; by eexists].
  - exists (String a name), rest. split_and!; [done| |done]. simpl. apply not_elem_of_cons. split; congruence.
Qed.

Lemma split_head_spec c s name :
  head (split_at c s) = Some name ↔
  ∃ rest, s = name +:+ rest ∧ c ∉ String.list_ascii_of_string name ∧ (rest = "" ∨ ∃ r, rest = String c r).
Proof.
  split.
  - destruct (split_head_ex c s) as (name'&rest&->&Hc&Hr). rewrite split_head by done. intros [= <-]. by exists rest.
  - intros (rest&->&Hc&Hr). by apply split_head.
Qed.

Lemma child_name_spec prefix key name : child_name prefix key = Some name ↔ child_of prefix key name.
Proof.
  assert (∀ rest, (if decide (rest = "") then None else head (split_at "." rest)) = Some name ↔
    ∃ r, rest = name +:+ r ∧ (r = "" ∨ ∃ r', r = "." +:+ r') ∧ name +:+ r ≠ "" ∧ "."%char ∉ String.list_ascii_of_string name) as Hs.
  { intros rest. case_decide as Hr.
    - split; [done|]. intros (r&Hr'&_&Hne&_). congruence.
    - rewrite split_head_spec. split.
      + intros (r&->&Hc&Hr'). exists r. split_and!; auto.
      + intros (r&->&Hr'&_&Hc). by exists r. }
  unfold child_name, child_of. case_decide as Hp.
  - apply Hs.
  - destruct (strip_prefix prefix key ≫= λ rest, strip_prefix "." rest) as [rest|] eqn:E.
    + apply bind_Some in E as (q&->%strip_prefix_spec&->%strip_prefix_spec).
      etrans; [apply Hs|]. split.
      * intros (r&->&Hr). exists r. split; [|done]. by rewrite <- ?string_app_assoc.
      * intros (r&He&Hr). exists r. split; [|done]. rewrite <- ?string_app_assoc in He.
        destruct (string_app_inj prefix prefix _ _ He eq_refl) as [_ Hrest]. by injection Hrest as Hrest.
    + split; [done|]. intros (r&->&_). rewrite <- ?string_app_assoc, strip_prefix_app in E. discriminate E.
Qed.

(** The entries of a path are the first parts of what the keys have below
    it, once each, in order; a listing changes nothing. *)
Theorem var_listed {W} `{VarStore W} `{HashIter} (path : string) (w : W) :
  ∃ l, var_ls path w = (Ok l, w) ∧ StronglySorted String.le l ∧ NoDup l ∧
    ∀ name, name ∈ l ↔ ∃ key, is_Some (vars w !! key) ∧ child_of (path_to_key path) key name.
Proof.
  eexists. split; [reflexivity|].
  set (l := omap (child_name (path_to_key path)) (hash_iter (vars w)).*1).
  destruct (dedup_sorted (merge_sort String.le l)) as [Hs Hn]; [apply (StronglySorted_merge_sort _)|].
  split; [done|]. split; [done|]. intros name. rewrite elem_of_dedup, (merge_sort_Permutation _ l). subst l.
  rewrite list_elem_of_omap. split.
  - intros (key&([k v]&->&Hv%elem_of_hash_iter)%list_elem_of_fmap&Hc). exists k. split; [by eexists|]. by apply child_name_spec.
  - intros (key&[v Hv]&Hc). exists key. split; [|by apply child_name_spec].
    apply list_elem_of_fmap. exists (key, v). split; [done|]. by apply elem_of_hash_iter.
Qed.

Lemma remove_loop_vars {W} `{VarStore W} (key : string) (ks : list string) (w w' : W) :
  mfor ks (λ k, if at_or_below key k then remove_value k else mret ()) w = (Ok (), w') →
  ∀ k, vars w' !! k = if at_or_below key k && bool_decide (k ∈ ks) then None else vars w !! k.
Proof.
  revert w. induction ks as [|k0 ks IH]; intros w; simpl.
  - intros [= <-] k. by rewrite andb_false_r.
  - intros ([]&w1&H1&H2)%m_bind_ok k. rewrite (IH w1 H2 k).
    destruct (decide (k = k0)) as [->|Hk].
    + destruct (at_or_below key k0); simpl; [|by injection H1 as <-].
      rewrite (bool_decide_true (k0 ∈ k0 :: ks)) by by left. apply remove_value_ok in H1.
      case_bool_decide; [done|]. by rewrite H1, lookup_delete_eq.
    + assert (bool_decide (k ∈ k0 :: ks) = bool_decide (k ∈ ks)) as ->.
      { apply bool_decide_ext. rewrite elem_of_cons. naive_solver. }
      destruct (_ && _); [done|]. destruct (at_or_below key k0); [|by injection H1 as <-].
      apply remove_value_ok in H1. by rewrite H1, lookup_delete_ne.
Qed.

(** The key is that of the path, or below it. *)
Definition below (key k : string) : Prop := k = key ∨ ∃ r, k = key +:+ "." +:+ r.

Lemma at_or_below_spec key k : at_or_below key k = true ↔ below key k.
Proof.
  unfold at_or_below. rewrite orb_true_iff, !bool_decide_eq_true. apply or_iff_compat_l. split.
  - intros [r Hr%strip_prefix_spec]. exists r. by rewrite Hr, <- string_app_assoc.
  - intros [r ->]. exists r. apply strip_prefix_spec. by rewrite <- string_app_assoc.
Qed.

(** Removing a path removes the variable of its key and those below it, and
    leaves every other variable as it is. *)
Theorem var_removed {W} `{VarStore W} `{HashIter} (path : string) (w w' : W) :
  var_remove path w = (Ok (), w') →
  ∀ k, (below (path_to_key path) k → vars w' !! k = None) ∧
    (¬ below (path_to_key path) k → vars w' !! k = vars w !! k).
Proof.
  intros (values&w1&[= <- <-]&Hl)%m_bind_ok k. rewrite (remove_loop_vars _ _ _ _ Hl), <- at_or_below_spec.
  destruct (at_or_below _ k); [|done]. split; [intros _|done]. simpl. case_bool_decide as Hin; [done|].
  destruct (vars w !! k) as [v|] eqn:Hv; [|done]. destruct Hin. apply list_elem_of_fmap. exists (k, v).
  split; [done|]. by apply elem_of_hash_iter.
Qed.

(** The root has the empty key, and nothing is below it but what starts with a
    dot: removing it leaves the variables. *)
Theorem removing_root_keeps {W} `{VarStore W} `{HashIter} (w w' : W) (a : ascii) (k : string) :
  var_remove "/" w = (Ok (), w') → a ≠ "."%char → vars w' !! String a k = vars w !! String a k.
Proof.
  intros Hr Ha. apply (var_removed "/" w w' Hr). change (path_to_key "/") with "".
  intros [Hk|[r Hk]]; [done|]. by injection Hk as Hk _.
Qed.

(** ** Values as text *)

(** A value is read back as it was written, unless it is a text that is
    itself a value. *)
Theorem value_text_roundtrip `{ValueText} (v : Value) :
  (∀ s, v = Str s → utf8_valid (as_bytes s) = true) →
  decode_value (encode_value v) = match v with Str s => default v (parse_trimmed s) | _ => v end.
Proof.
  intros Hs. unfold decode_value, encode_value.
  destruct v; try (by rewrite parse_to_vec). by rewrite lossy_valid by by apply Hs.
Qed.

(** ** A table in memory *)

#[export] Instance memory_vars : VarStore (gmap string Value).
Proof.
  refine {| vars := λ w, w; set_value := λ k v w, (Ok (), <[k := v]> w); remove_value := λ k w, (Ok (), base.delete k w) |}.
  - by intros k v w w' [= <-].
  - by intros k w w' [= <-].
Defined.

(** Values as numbers, in the digits 0 and 1 after a letter. *)
Fixpoint binary (p : positive) : string :=
  match p with xH => "." | xO p => String "0" (binary p) | xI p => String "1" (binary p) end.
Fixpoint of_binary (s : string) : option positive :=
  match s with
  | String c s =>
      if decide (c = "."%char) then Some xH
      else p ← of_binary s; if decide (c = "0"%char) then Some (xO p) else Some (xI p)
  | EmptyString => None
  end.
Lemma of_binary_binary p : of_binary (binary p) = Some p.
Proof. induction p as [p IH|p IH|]; simpl; [by rewrite IH..|done]. Qed.

Lemma string_of_as_bytes s : string_of_bytes (as_bytes s) = s.
Proof.
  unfold string_of_bytes, as_bytes. rewrite <- list_fmap_compose.
  rewrite <- (String.string_of_list_ascii_of_string s) at 2. f_equal.
  etrans; [|apply list_fmap_id]. apply list_fmap_ext. intros i c _. simpl. by rewrite N2Z.id, ascii_N_embedding.
Qed.

#[export] Instance demo_text : ValueText.
Proof.
  refine {| value_to_vec := λ v, as_bytes (String "#" (binary (countable.encode v)));
            from_utf8_lossy := string_of_bytes;
            parse_trimmed := λ s, match s with String "#" s => p ← of_binary s; countable.decode p | _ => None end |}.
  - intros s _. apply string_of_as_bytes.
  - intros v. rewrite string_of_as_bytes, of_binary_binary. simpl. apply decode_encode.
Defined.

Definition demo_vars : gmap string Value := {["foo.bar" := Str "123"; "foo.b" := Str "x"; "top" := Null]}.
Definition open_write : OpenOptions := mkOpen false true false true false false.

(** Written over ["123"], ["4"] gives ["423"], though truncation was asked. *)
Lemma var_written_witness :
  ∃ d0 s, var_open "/foo/bar" open_write demo_vars = (Ok d0, demo_vars) ∧
    write_and_close [[52%Z]] (d0, demo_vars) = (Ok (), s) ∧ s.2 !! "foo.bar" = Some (Str "423").
Proof.
  set (w' := <["foo.bar" := Str "423"]> demo_vars).
  destruct (var_written "/foo/bar" open_write [[52%Z]] demo_vars w'
    (mkVarDescriptor [52; 50; 51]%Z 1 true "foo.bar" true)) as (d0&Ho&Hw); [reflexivity|].
  exists d0, (mkVarDescriptor [52; 50; 51]%Z 1 true "foo.bar" true, w'). split; [exact Ho|].
  assert (write_and_close [[52%Z]] (d0, demo_vars) = (Ok (), (mkVarDescriptor [52; 50; 51]%Z 1 true "foo.bar" true, w'))) as Hr.
  { injection Ho as <-. reflexivity. }
  split; [exact Hr|]. destruct (Hw Hr) as [Hv _]. simpl. change (vars w' !! "foo.bar" = Some (Str "423")).
  rewrite Hv. reflexivity.
Defined.

Lemma var_removed_witness :
  (run_state (@var_remove _ _ canonical_iter "/foo") demo_vars) !! "foo.bar" = None.
Proof.
  refine (proj1 (@var_removed _ _ canonical_iter "/foo" demo_vars
    (run_state (@var_remove _ _ canonical_iter "/foo") demo_vars) _ "foo.bar") _).
  - reflexivity.
  - right. by exists "bar".
Defined.

Lemma removing_root_keeps_witness :
  (run_state (@var_remove _ _ canonical_iter "/") demo_vars) !! "top" = Some Null.
Proof.
  change (vars (run_state (@var_remove _ _ canonical_iter "/") demo_vars) !! "top" = Some Null).
  rewrite (@removing_root_keeps _ _ canonical_iter demo_vars _ "t" "op"); [reflexivity|reflexivity|done].
Defined.

(** The text of a value becomes that value. *)
Lemma value_text_roundtrip_witness :
  let one := String "#" (binary (countable.encode Null)) in decode_value (encode_value (Str one)) = Null.
Proof.
  intros one. rewrite (value_text_roundtrip (Str one)); [vm_compute; reflexivity|].
  intros s [= <-]. vm_compute. reflexivity.
Defined.

Example demo_listing : run_res (@var_ls _ _ canonical_iter "/foo") demo_vars = Ok ["b"; "bar"] ∧
  run_res (@var_ls _ _ canonical_iter "/") demo_vars = Ok ["foo"; "top"].
Proof. vm_compute. done. Qed.
