(* ===== verification/Objects.v ===== *)
(** * Files of a workspace ([persistency/inode.rs]: the file system, [persistency/vfs.rs])

    A file is a row of the tree, with the key of the object that holds its
    bytes; the objects are in a store of their own.  The second part mounts the
    variables and the files of a workspace, and those of a session within. *)

From S2P Require Import Prelude Ids Json Types Secrets Errors ErrorChain Vfs VarFs Inodes.

(** ** What the file system relies on *)

(** [trait InodeCatalog] *)
Record InodeCatalog (C : Type) := mkCatalog {
  cat_resolve : string → M C ErrorChain (option Inode);
  cat_children : string → M C ErrorChain (list (string * Inode));
  cat_mkdir : string → M C ErrorChain Inode;
  cat_create_file : string → M C ErrorChain Inode;
  cat_remove : string → M C ErrorChain (list string) }.
Arguments mkCatalog {C}. Arguments cat_resolve {C}. Arguments cat_children {C}. Arguments cat_mkdir {C}.
Arguments cat_create_file {C}. Arguments cat_remove {C}.

(** [object_store]: paths, metadata, and the two kinds of descriptors.  What is
    written to a [BufWriter] is pending until it is shut down, which makes it the
    whole of the object; a [BufReader] reads the object from its offset on.  It keeps
    the size that the object had when its metadata were read, and what it has
    buffered, so it says nothing of an object that was written since: [reader_fresh]
    holds of a reader from there on, until its object is written or deleted. *)
Class ObjectStore (W : Type) := {
  ObjectMeta : Type; BufReader : Type; BufWriter : Type;
  object_path : string → string;
  obj_head : string → M W ErrorChain ObjectMeta;
  obj_delete : string → M W ErrorChain ();
  buf_reader : ObjectMeta → BufReader;
  buf_writer : string → BufWriter;
  reader_read : nat → M (BufReader * W) ErrorChain (list Z);
  reader_seek : SeekFrom → M (BufReader * W) ErrorChain ();
  reader_complete : M (BufReader * W) ErrorChain nat;
  writer_write : list Z → M (BufWriter * W) ErrorChain nat;
  writer_flush : M (BufWriter * W) ErrorChain ();
  writer_shutdown : M (BufWriter * W) ErrorChain ();
  objects : W → gmap string (list Z);
  pending : BufWriter → string * list Z;
  reader_at : BufReader → string * nat;
  reader_fresh : BufReader → W → Prop;
  head_ok : ∀ k w m w', obj_head k w = (Ok m, w') →
    w' = w ∧ reader_at (buf_reader m) = (k, 0) ∧ reader_fresh (buf_reader m) w;
  head_missing : ∀ k w, objects w !! k = None → ∃ e, obj_head k w = (Err e, w);
  delete_ok : ∀ k w w', obj_delete k w = (Ok (), w') → objects w' = base.delete k (objects w);
  delete_other : ∀ k k' w, k' ≠ k → objects (run_state (obj_delete k) w) !! k' = objects w !! k';
  pending_new : ∀ k, pending (buf_writer k) = (k, []);
  reader_read_ok : ∀ n r w data r' w', reader_fresh r w → reader_read n (r, w) = (Ok data, (r', w')) →
    w' = w ∧ reader_fresh r' w ∧ reader_at r' = ((reader_at r).1, (reader_at r).2 + length data) ∧
    ∃ bytes, objects w !! (reader_at r).1 = Some bytes ∧ data `prefix_of` drop (reader_at r).2 bytes ∧
      (data = [] → n = 0 ∨ length bytes ≤ (reader_at r).2);
  writer_write_ok : ∀ data b w n b' w', writer_write data (b, w) = (Ok n, (b', w')) →
    objects w' = objects w ∧ pending b' = ((pending b).1, (pending b).2 ++ take n data);
  writer_shutdown_ok : ∀ b w b' w', writer_shutdown (b, w) = (Ok (), (b', w')) →
    objects w' = <[(pending b).1 := (pending b).2]> (objects w)
}.

(** ** The file system *)

Section object_fs.
Context {C W : Type} `{ObjectStore W} (catalog : InodeCatalog C).
Notation FM := (M (C * W) ErrorChain).

Definition in_catalog {A} (m : M C ErrorChain A) : FM A := zoom fst (λ c s, (c, s.2)) m.
Definition in_store {A} (m : M W ErrorChain A) : FM A := zoom snd (λ w s, (s.1, w)) m.

Inductive ObjectDescriptor := ReadObject (r : BufReader) | WriteObject (b : BufWriter).

Definition object_mkdir (path : string) : FM () := _ ← in_catalog (cat_mkdir catalog path); mret ().

Definition object_ls (path : string) : FM (list string) :=
  children ← in_catalog (cat_children catalog path); mret children.*1.

Definition writes (options : OpenOptions) : bool := o_write options || o_append options || o_truncate options.
Definition creates (options : OpenOptions) : bool := o_create options || o_create_new options.

Definition open_inode (path : string) (options : OpenOptions) : FM Inode :=
  existing ← in_catalog (cat_resolve catalog path);
  match existing with
  | Some inode =>
      match in_kind inode with
      | File => mret inode
      | Dir => throw (msg (path +:+ " est un dossier"))
      end
  | None =>
      if creates options then in_catalog (cat_create_file catalog path)
      else throw (msg ("fichier introuvable : " +:+ path))
  end.

Definition object_open (path : string) (options : OpenOptions) : FM ObjectDescriptor :=
  inode ← open_inode path options;
  key ← lift (unwrap (object_key inode));
  let key := object_path key in
  if writes options then mret (WriteObject (buf_writer key))
  else meta ← in_store (obj_head key); mret (ReadObject (buf_reader meta)).

Definition object_remove (path : string) : FM () :=
  keys ← in_catalog (cat_remove catalog path);
  mfor keys (λ key, in_store (obj_delete (object_path key))).

Definition object_file_system : FileSystem (C * W) ObjectDescriptor :=
  mkFs object_mkdir object_ls object_open object_remove.
End object_fs.
Arguments ObjectDescriptor W {_}.

(** ** Descriptors *)

Section descriptors.
Context {W : Type} `{ObjectStore W}.
Notation DM := (M (ObjectDescriptor W * W) IoError).

Definition on_reader {A} (m : M (BufReader * W) ErrorChain A) (other : DM A) : DM A := λ s,
  match s with
  | (ReadObject r, w) =>
      let '(res, (r, w)) := m (r, w) in (map_err OtherIo res, (ReadObject r, w))
  | _ => other s
  end.
Definition on_writer {A} (m : M (BufWriter * W) ErrorChain A) (other : DM A) : DM A := λ s,
  match s with
  | (WriteObject b, w) =>
      let '(res, (b, w)) := m (b, w) in (map_err OtherIo res, (WriteObject b, w))
  | _ => other s
  end.

Definition object_poll_read (n : nat) : DM (list Z) := on_reader (reader_read n) (throw Unsupported).
Definition object_poll_write (data : list Z) : DM nat := on_writer (writer_write data) (throw Unsupported).
Definition object_poll_flush : DM () := on_writer writer_flush (mret ()).
Definition object_poll_shutdown : DM () := on_writer writer_shutdown (mret ()).
Definition object_start_seek (p : SeekFrom) : DM () := on_reader (reader_seek p) (throw Unsupported).
Definition object_poll_complete : DM nat := on_reader reader_complete (throw Unsupported).
End descriptors.

(** [PostgresInodeCatalog], as the interface. *)
Definition postgres_catalog `{HashIter} `{Xoshiro} (root : Z) : InodeCatalog (FsInode * IdGenerator) :=
  mkCatalog (λ path, on_table (resolve_inode root path)) (λ path, on_table (children root path))
    (λ path, on_table (mkdir root path)) (create_file root) (λ path, on_table (remove root path)).

(** ** Writing and reading *)

Section laws.
Context `{HashIter} `{Xoshiro} {W : Type} `{ObjectStore W}.

Definition reads (ns : list nat) : M (ObjectDescriptor W * W) IoError (list (list Z)) := mmap object_poll_read ns.
Definition write_chunks (chunks : list (list Z)) : M (ObjectDescriptor W * W) IoError (list nat) :=
  ns ← mmap object_poll_write chunks; _ ← object_poll_shutdown; mret ns.
(** What the writer took of each chunk. *)
Definition taken (ns : list nat) (chunks : list (list Z)) : list Z := concat (zip_with take ns chunks).

Lemma writes_taken chunks b w ns d w' :
  mmap object_poll_write chunks (WriteObject b, w) = (Ok ns, (d, w')) →
  objects w' = objects w ∧ ∃ b', d = WriteObject b' ∧ pending b' = ((pending b).1, (pending b).2 ++ taken ns chunks).
Proof.
  revert b w ns. induction chunks as [|c chunks IH]; intros b w ns; simpl.
  { intros [= <- <- <-]. split; [done|]. exists b. split; [done|]. rewrite app_nil_r. by destruct (pending b). }
  intros (n&[d1 w1]&Hn&(ns'&[d2 w2]&Hns&[= <- <- <-])%m_bind_ok)%m_bind_ok.
  unfold object_poll_write, on_writer in Hn. destruct (writer_write c (b, w)) as [r [b1 w1']] eqn:E.
  destruct r as [n'|e|]; [|done..]. injection Hn as <- <- <-.
  apply writer_write_ok in E as [Ho Hp]. apply IH in Hns as (Ho'&b'&->&Hp'). split; [congruence|].
  exists b'. split; [done|]. rewrite Hp', Hp. simpl. by rewrite <- (assoc_L (++)).
Qed.

Lemma write_chunks_ok chunks b w ns d w' :
  write_chunks chunks (WriteObject b, w) = (Ok ns, (d, w')) →
  objects w' = <[(pending b).1 := (pending b).2 ++ taken ns chunks]> (objects w).
Proof.
  unfold write_chunks. intros (ns'&[d1 w1]&Hns&([]&[d2 w2]&Hs&[= <- <- <-])%m_bind_ok)%m_bind_ok.
  apply writes_taken in Hns as (Ho&b'&->&Hp). unfold object_poll_shutdown, on_writer in Hs.
  destruct (writer_shutdown (b', w1)) as [[[]|e|] [b2 w2']] eqn:E; [|done..]. injection Hs as _ <-.
  apply writer_shutdown_ok in E. rewrite E, Hp, Ho. done.
Qed.

Lemma reads_content ns r w data d w' bytes :
  objects w !! (reader_at r).1 = Some bytes → reader_fresh r w →
  reads ns (ReadObject r, w) = (Ok data, (d, w')) →
  w' = w ∧ concat data `prefix_of` drop (reader_at r).2 bytes ∧
  ((∃ n, (n, []) ∈ zip ns data ∧ n ≠ 0) → concat data = drop (reader_at r).2 bytes).
Proof.
  intros Hb Hf. unfold reads. revert r data Hb Hf. induction ns as [|n ns IH]; intros r data Hb Hf; simpl.
  { intros [= <- <- <-]. split; [done|]. split; [apply prefix_nil|]. by intros (n&?%elem_of_nil&_). }
  intros (c&[d1 w1]&Hc&(data'&[d2 w2]&Hd&[= <- <- <-])%m_bind_ok)%m_bind_ok.
  unfold object_poll_read, on_reader in Hc. destruct (reader_read n (r, w)) as [[c'|e|] [r1 w1']] eqn:E; [|done..].
  injection Hc as <- <- <-. apply reader_read_ok in E as (->&Hf1&Hat&bytes'&Hb'&[rest Hrest]&Hend); [|done].
  assert (bytes' = bytes) as -> by congruence.
  assert (drop (reader_at r1).2 bytes = rest) as Hdrop.
  { rewrite Hat. simpl. rewrite <- drop_drop, Hrest, drop_app_length. done. }
  apply IH in Hd as (->&Hpre&Hall); [|by rewrite Hat|done]. split; [done|]. rewrite Hdrop in *. rewrite Hrest. simpl.
  split; [by apply prefix_app|]. intros (m&Hin&Hm).
  apply elem_of_cons in Hin as [[= -> <-]|Hin]; [|f_equal; apply Hall; by exists m].
  destruct Hend as [?|Hle]; [done|done|]. simpl in *. assert (rest = []) as ->.
  { rewrite <- Hrest. by apply drop_ge. }
  by apply prefix_nil_inv in Hpre.
Qed.

(** A path that does not lead to a directory is opened as a file with a key,
    and then found with it. *)
Lemma open_file root path options (c : FsInode * IdGenerator) (w : W) :
  table_ok c.1 → is_Some (t_rows c.1 !! root) → segments path ≠ [] →
  (∀ i r, walk_from c.1 root (segments path) = Some i → t_rows c.1 !! i = Some r → r_kind r = File) →
  (walk_from c.1 root (segments path) = None → creates options = true) →
  ∃ i key size c', open_inode (postgres_catalog root) path options (c, w) = (Ok (mkInode i File (Some key) size), (c', w)) ∧
    resolve_inode root path c'.1 = (Ok (Some (mkInode i File (Some key) size)), c'.1).
Proof.
  intros Ht Hr Hs Hf Hc. destruct c as [t g]. simpl in *.
  destruct (walk_from t root (segments path)) as [i|] eqn:E.
  - destruct (walk_present t root _ i Ht Hr E) as [row Hrow]. specialize (Hf i row eq_refl Hrow).
    pose proof Ht as [Hok _]. destruct (Hok i row Hrow) as (_&_&Hkey). destruct (Hkey Hf) as [key Hk].
    exists i, key, (r_size row), (t, g). pose proof (resolve_inode_eq root path t i row E Hrow) as He.
    unfold row_to_inode in He. rewrite Hf, Hk in He. split; [|exact He].
    unfold open_inode, in_catalog, on_table, zoom, mbind, m_bind. simpl. unfold on_table, zoom. simpl. by rewrite He.
  - destruct (create_ok root path (t, g) Ht Hr Hs) as (i&t'&He&_&_&_&_&Hres&_).
    exists i, (new_key g), 0%Z, (t', (next_id g).2). split; [|exact Hres].
    unfold open_inode, in_catalog, zoom, mbind, m_bind. simpl. unfold on_table, zoom. simpl.
    assert (resolve_inode root path t = (Ok None, t)) as ->.
    { unfold resolve_inode, walk, gets, mbind, m_bind. by rewrite E. }
    rewrite (Hc eq_refl). simpl. by rewrite He.
Qed.
End laws.

(** C37: A file opened to be written, which is made when it does not exist, holds
    after its descriptor is shut down what was accepted and nothing else, whether it
    was to be truncated, appended to or neither, and no other object changes.
    Opened again, it is read from the beginning: the pieces are the bytes in
    order, and all of them once an empty piece says so. *)
Theorem object_roundtrip `{HashIter} `{Xoshiro} {W} `{ObjectStore W} (root : Z) (path : string) (options : OpenOptions)
    (c : FsInode * IdGenerator) (w : W) :
  table_ok c.1 → is_Some (t_rows c.1 !! root) → segments path ≠ [] → writes options = true →
  (∀ i r, walk_from c.1 root (segments path) = Some i → t_rows c.1 !! i = Some r → r_kind r = File) →
  (walk_from c.1 root (segments path) = None → creates options = true) →
  ∃ key b c', object_open (postgres_catalog root) path options (c, w) = (Ok (WriteObject b), (c', w)) ∧
    ∀ chunks ns d w', write_chunks chunks (WriteObject b, w) = (Ok ns, (d, w')) →
      objects w' = <[key := taken ns chunks]> (objects w) ∧
      ∀ options', writes options' = false →
        object_open (postgres_catalog root) path options' (c', w') =
          (let '(r, w'') := obj_head key w' in (m ← r; Ok (ReadObject (buf_reader m)), (c', w''))) ∧
        ∀ m w'' ms data d' w3, obj_head key w' = (Ok m, w'') →
          reads ms (ReadObject (buf_reader m), w'') = (Ok data, (d', w3)) →
          concat data `prefix_of` taken ns chunks ∧
          ((∃ n, (n, []) ∈ zip ms data ∧ n ≠ 0) → concat data = taken ns chunks).
Proof.
  intros Ht Hr Hs Hw Hf Hc. destruct (open_file root path options c w Ht Hr Hs Hf Hc) as (i&key&size&c'&Hopen&Hres).
  exists (object_path key), (buf_writer (object_path key)), c'. split.
  { unfold object_open, mbind, m_bind. rewrite Hopen. simpl. by rewrite Hw. }
  intros chunks ns d w' Hwr. apply write_chunks_ok in Hwr. rewrite pending_new in Hwr. simpl in Hwr.
  split; [done|]. intros options' Hw'. split.
  - assert (open_inode (postgres_catalog root) path options' (c', w') = (Ok (mkInode i File (Some key) size), (c', w'))) as Ho.
    { destruct c' as [t' g']. unfold open_inode, in_catalog, zoom, mbind, m_bind. simpl. unfold on_table, zoom.
      simpl in *. by rewrite Hres. }
    unfold object_open, mbind, m_bind. rewrite Ho. simpl. rewrite Hw'. unfold in_store, zoom. simpl.
    by destruct (obj_head (object_path key) w') as [[m|e|] w''].
  - intros m w'' ms data d' w3 Hhead Hreads. apply head_ok in Hhead as (->&Hat&Hfresh).
    pose proof (reads_content ms (buf_reader m) w' data d' w3 (taken ns chunks)) as Hrc.
    rewrite Hat in Hrc. simpl in Hrc. rewrite drop_0, Hwr, lookup_insert_eq in Hrc.
    by destruct Hrc as (_&Hpre&Hall).
Qed.

(** ** Opening and removing *)

(** Opening to read a file that does not exist, with leave to create it,
    always fails, for its object was never written; but the file is made, and
    the next opening without leave fails as well, in the store.  A path that
    exists is opened though it was to be created anew. *)
Theorem creating_to_read_fails `{HashIter} `{Xoshiro} {W} `{ObjectStore W} (root : Z) (path : string) (options : OpenOptions)
    (c : FsInode * IdGenerator) (w : W) :
  table_ok c.1 → is_Some (t_rows c.1 !! root) → segments path ≠ [] → writes options = false → creates options = true →
  walk_from c.1 root (segments path) = None → objects w !! object_path (new_key c.2) = None →
  ∃ e i t, object_open (postgres_catalog root) path options (c, w) = (Err e, (t, (next_id c.2).2, w)) ∧
    resolve_inode root path t = (Ok (Some (mkInode i File (Some (new_key c.2)) 0)), t) ∧
    ∀ options', writes options' = false →
      object_open (postgres_catalog root) path options' (t, (next_id c.2).2, w) = (Err e, (t, (next_id c.2).2, w)).
Proof.
  intros Ht Hr Hs Hw Hc E Hkey. destruct c as [t g]. simpl in *.
  destruct (create_ok root path (t, g) Ht Hr Hs) as (i&t'&He&_&_&_&_&Hres&_). simpl in *.
  destruct (head_missing _ _ Hkey) as [e Hhead]. exists e, i, t'.
  assert (∀ options', writes options' = false →
    object_open (postgres_catalog root) path options' (t', (next_id g).2, w) = (Err e, (t', (next_id g).2, w))) as Hagain.
  { intros options' Hw'. unfold object_open, open_inode, in_catalog, zoom, mbind, m_bind. simpl. unfold on_table, zoom.
    simpl. rewrite Hres. simpl. rewrite Hw'. unfold in_store, zoom. simpl. by rewrite Hhead. }
  split; [|by split]. unfold object_open, open_inode, in_catalog, zoom, mbind, m_bind. simpl. unfold on_table, zoom.
  simpl. assert (resolve_inode root path t = (Ok None, t)) as ->.
  { unfold resolve_inode, walk, gets, mbind, m_bind. by rewrite E. }
  rewrite Hc. simpl. rewrite He. simpl. rewrite Hw. unfold in_store, zoom. simpl. by rewrite Hhead.
Qed.

(** Deletions in the store that is part of a larger state. *)
Lemma deletions_of {S T W} `{ObjectStore W} (proj : S → W) (inj : W → S → S) (other : S → T) (keys : list string) (s : S) r s' :
  (∀ w s, proj (inj w s) = w) → (∀ w s, other (inj w s) = other s) →
  mfor keys (λ key, zoom proj inj (obj_delete (object_path key))) s = (r, s') →
  other s' = other s ∧ (∀ k, k ∉ object_path <$> keys → objects (proj s') !! k = objects (proj s) !! k) ∧
  (r = Ok () → ∀ k, k ∈ object_path <$> keys → objects (proj s') !! k = None).
Proof.
  intros Hproj Hinj. revert s. induction keys as [|key keys IH]; intros s; simpl.
  { intros [= <- <-]. split_and!; [done..|]. by intros _ k ?%elem_of_nil. }
  unfold mbind, m_bind. destruct (zoom _ _ _ s) as [r1 s1] eqn:E. unfold zoom in E.
  pose proof (delete_other (object_path key)) as Hother. unfold run_state in Hother.
  destruct (obj_delete (object_path key) (proj s)) as [r' w1] eqn:Ed. simplify_eq/=.
  assert (∀ k, k ≠ object_path key → objects w1 !! k = objects (proj s) !! k) as Hk
    by (intros k Hk; specialize (Hother k (proj s) Hk); by rewrite Ed in Hother).
  destruct r1 as [[]|e|].
  2-3: intros [= <- <-]; rewrite Hproj, Hinj; split_and!; [done| |done]; intros k [? _]%not_elem_of_cons; by apply Hk.
  intros (Hc&Hn&Hd)%IH. rewrite Hproj in Hn. split; [by rewrite Hc|]. split.
  - intros k [? ?]%not_elem_of_cons. rewrite Hn by done. by apply Hk.
  - intros Hr k Hin. destruct (decide (k ∈ object_path <$> keys)) as [Hin'|Hni]; [by apply Hd|].
    apply elem_of_cons in Hin as [->|?]; [|done]. rewrite Hn by done. apply delete_ok in Ed. rewrite Ed.
    apply lookup_delete_eq.
Qed.

(** Removing a path takes the rows at and below it first, whatever the store
    answers then; when every deletion succeeds the objects of the files that
    were there are gone, and in any case no other object changes. *)
Theorem objects_removed `{HashIter} `{Xoshiro} {W} `{ObjectStore W} (root : Z) (path : string)
    (c : FsInode * IdGenerator) (w : W) r c' w' a :
  table_ok c.1 → walk_from c.1 root (segments path) = Some a →
  object_remove (postgres_catalog root) path (c, w) = (r, (c', w')) →
  let freed k := ∃ i row key, t_rows c.1 !! i = Some row ∧ under c.1 a i ∧ r_kind row = File ∧
                   r_key row = Some key ∧ k = object_path key in
  (∀ i, t_rows c'.1 !! i = if in_subtree c.1 a i then None else t_rows c.1 !! i) ∧
  (∀ k, ¬ freed k → objects w' !! k = objects w !! k) ∧
  (r = Ok () → ∀ k, freed k → objects w' !! k = None).
Proof.
  intros Ht E Hrm freed. destruct c as [t g]. simpl in *.
  pose proof (remove_rows root path t a Ht E) as (keys&t'&Hr&Hrows&Hkeys).
  unfold object_remove, mbind, m_bind, in_catalog, zoom in Hrm. simpl in Hrm. unfold on_table, zoom in Hrm. simpl in Hrm.
  rewrite Hr in Hrm. apply (deletions_of snd (λ w s, (s.1, w)) fst) in Hrm as (Hc&Hn&Hd); [|done..]. simpl in *. subst c'. split; [done|].
  assert (∀ k, k ∈ object_path <$> keys ↔ freed k) as Hf.
  { intros k. rewrite list_elem_of_fmap. split.
    - intros (key&->&(i&row&?&?&?&?)%Hkeys). by exists i, row, key.
    - intros (i&row&key&?&?&?&?&->). exists key. split; [done|]. apply Hkeys. by exists i, row. }
  split; intros; [apply Hn|apply Hd]; rewrite ?Hf; done.
Qed.

(** ** A store in memory *)

#[export] Instance memory_objects : ObjectStore (gmap string (list Z)).
Proof.
  refine {| ObjectMeta := string; BufReader := string * nat; BufWriter := string * list Z; object_path := λ s, s;
    obj_head := λ k w, (match w !! k with Some _ => Ok k | None => Err (msg "not found") end, w);
    obj_delete := λ k w, (Ok (), base.delete k w);
    buf_reader := λ k, (k, 0); buf_writer := λ k, (k, []);
    reader_read := λ n '(r, w),
      match w !! r.1 with
      | Some bytes => let data := take n (drop r.2 bytes) in (Ok data, ((r.1, r.2 + length data), w))
      | None => (Err (msg "not found"), (r, w))
      end;
    reader_seek := λ p '(r, w),
      match p with FromStart n => (Ok (), ((r.1, n), w)) | _ => (Err (msg "unsupported"), (r, w)) end;
    reader_complete := λ '(r, w), (Ok r.2, (r, w));
    writer_write := λ data '(b, w), (Ok (length data), ((b.1, b.2 ++ data), w));
    writer_flush := mret ();
    writer_shutdown := λ '(b, w), (Ok (), (b, <[b.1 := b.2]> w));
    objects := λ w, w; pending := λ b, b; reader_at := λ r, r; reader_fresh := λ _ _, True |}.
  - intros k w m w'. destruct (w !! k); [|done]. by intros [= <- <-].
  - intros k w ->. by eexists.
  - by intros k w w' [= <-].
  - intros k k' w Hk. unfold run_state. simpl. by rewrite lookup_delete_ne.
  - done.
  - intros n r w data r' w' _. destruct (w !! r.1) as [bytes|] eqn:E; [|done]. intros [= <- <- <-].
    split; [done|]. split; [done|]. split; [done|]. exists bytes. split; [done|]. split.
    + exists (drop n (drop r.2 bytes)). by rewrite take_drop.
    + intros Hnil. apply (f_equal length) in Hnil. rewrite length_take, length_drop in Hnil. simpl in Hnil. lia.
  - intros data b w n b' w' [= <- <- <-]. split; [done|]. simpl. by rewrite take_ge.
  - by intros b w b' w' [= <- <-].
Defined.

#[local] Existing Instance canonical_iter.
#[local] Existing Instance counter_rng.

Definition demo_objects : gmap string (list Z) :=
  {["fs/00000000000000000000000000000001" := [104; 105]%Z]}.
Definition open_append : OpenOptions := mkOpen false true true false true false.
Definition open_read : OpenOptions := mkOpen true false false false false false.

(** The file holds [hi]; what is appended replaces it. *)
Lemma object_roundtrip_witness :
  ∃ key b c' d w', object_open (postgres_catalog 3) "/a/b.txt" open_append (demo_state, demo_objects) =
      (Ok (WriteObject b), (c', demo_objects)) ∧
    write_chunks [[33%Z]; [63%Z]] (WriteObject b, demo_objects) = (Ok [1; 1], (d, w')) ∧
    w' !! key = Some [33; 63]%Z.
Proof.
  destruct (object_roundtrip 3 "/a/b.txt" open_append demo_state demo_objects) as (key&b&c'&Ho&Hw).
  - exact demo_state_ok.
  - vm_compute. by eexists.
  - done.
  - done.
  - intros i r Hi Hr. assert (walk_from demo_state.1 3 (segments "/a/b.txt") = Some 7%Z) as E by (vm_compute; reflexivity).
    rewrite E in Hi. injection Hi as <-. vm_compute in Hr. by injection Hr as <-.
  - done.
  - specialize (Hw [[33%Z]; [63%Z]] [1; 1]). exists key, b, c'.
    destruct b as [k p]. eexists _, _. split; [exact Ho|]. split; [reflexivity|].
    destruct (Hw _ _ eq_refl) as [Hobj _]. change (objects (<[k := (p ++ [33%Z]) ++ [63%Z]]> demo_objects) !! key = Some [33; 63]%Z).
    simpl in Hobj. etrans; [exact (f_equal (.!! key) Hobj)|]. apply lookup_insert_eq.
Defined.

Lemma creating_to_read_fails_witness :
  ∃ e i t, object_open (postgres_catalog 3) "/new" (mkOpen true false false false true false) (demo_state, demo_objects) =
      (Err e, (t, (next_id demo_state.2).2, demo_objects)) ∧
    resolve_inode 3 "/new" t = (Ok (Some (mkInode i File (Some (new_key demo_state.2)) 0)), t).
Proof.
  destruct (creating_to_read_fails 3 "/new" (mkOpen true false false false true false) demo_state demo_objects)
    as (e&i&t&Ho&Hr&_).
  - exact demo_state_ok.
  - vm_compute. by eexists.
  - done.
  - done.
  - done.
  - vm_compute. reflexivity.
  - vm_compute. reflexivity.
  - exists e, i, t. split; [exact Ho|exact Hr].
Defined.

Lemma objects_removed_witness :
  objects (run_state (object_remove (postgres_catalog 3) "/a") (demo_state, demo_objects)).2
    !! "fs/00000000000000000000000000000001" = None.
Proof.
  assert (run_res (object_remove (postgres_catalog 3) "/a") (demo_state, demo_objects) = Ok ()) as Hok
    by (vm_compute; reflexivity).
  unfold run_state, run_res in *. destruct (object_remove (postgres_catalog 3) "/a" (demo_state, demo_objects)) as [r [c' w']] eqn:E.
  destruct (objects_removed 3 "/a" demo_state demo_objects r c' w' 6%Z) as (_&_&Hd).
  - exact demo_state_ok.
  - vm_compute. reflexivity.
  - exact E.
  - apply Hd.
    + exact Hok.
    + exists 7%Z. eexists _, _. split; [vm_compute; reflexivity|].
      split; [apply in_subtree_spec; [exact demo_state_ok|vm_compute; reflexivity]|].
      split; [reflexivity|split; reflexivity].
Defined.
