(* ===== verification/WorkspaceVfs.v ===== *)
(** * The tree that a session sees ([persistency/vfs.rs])

    The variables and the files of a workspace are mounted at [/var] and
    [/files]; those of a session are mounted in a router of their own, which is
    mounted at [/session] in that of its workspace. *)

From Stdlib Require Import Ascii.
From S2P Require Import Prelude Ids Json Types Secrets Errors ErrorChain Vfs VarFs Inodes Objects.

(** ** Views: a file system over a part of the state *)

Section views.
Context {S T : Type} (proj : S → T) (inj : T → S → S).

Definition fs_view {D D'} (f : D → D') (fs : FileSystem T D) : FileSystem S D' :=
  mkFs (λ path, zoom proj inj (fs_mkdir fs path)) (λ path, zoom proj inj (fs_ls fs path))
    (λ path options, zoom proj inj (d ← fs_open fs path options; mret (f d)))
    (λ path, zoom proj inj (fs_remove fs path)).

Definition alias_view (a : AliasCatalog T) : AliasCatalog S :=
  mkAlias (λ path, zoom proj inj (resolve_prefix a path)) (λ from to, zoom proj inj (alias_set a from to))
    (λ from, zoom proj inj (alias_remove a from)) (zoom proj inj (alias_list a)).
End views.

Section workspace_vfs.
Context `{HashIter} `{Xoshiro} `{ValueText} {W VW VS : Type} `{ObjectStore W} `{VarStore VW} `{VarStore VS}.

(** What the routers of one session reach: the tables of the database, the
    objects, the variables of the workspace and of the session, and the
    generator of each catalogue. *)
Record World := mkWorld {
  wd_table : FsInode; wd_aliases : FsAlias; wd_objects : W; wd_vars : VW; wd_session_vars : VS;
  wd_ids : IdGenerator; wd_session_ids : IdGenerator }.

Inductive Descriptor := OfVar (d : VarDescriptor) | OfObject (d : ObjectDescriptor W).
Notation Fs := (FileSystem World Descriptor).
Notation WM := (M World ErrorChain).

Definition with_table (t : FsInode) (s : World) : World :=
  mkWorld t (wd_aliases s) (wd_objects s) (wd_vars s) (wd_session_vars s) (wd_ids s) (wd_session_ids s).
Definition with_alias_table (a : FsAlias) (s : World) : World :=
  mkWorld (wd_table s) a (wd_objects s) (wd_vars s) (wd_session_vars s) (wd_ids s) (wd_session_ids s).
Definition with_objects (w : W) (s : World) : World :=
  mkWorld (wd_table s) (wd_aliases s) w (wd_vars s) (wd_session_vars s) (wd_ids s) (wd_session_ids s).
Definition with_vars (v : VW) (s : World) : World :=
  mkWorld (wd_table s) (wd_aliases s) (wd_objects s) v (wd_session_vars s) (wd_ids s) (wd_session_ids s).
Definition with_session_vars (v : VS) (s : World) : World :=
  mkWorld (wd_table s) (wd_aliases s) (wd_objects s) (wd_vars s) v (wd_ids s) (wd_session_ids s).
Definition with_ids (g : IdGenerator) (s : World) : World :=
  mkWorld (wd_table s) (wd_aliases s) (wd_objects s) (wd_vars s) (wd_session_vars s) g (wd_session_ids s).
Definition with_session_ids (g : IdGenerator) (s : World) : World :=
  mkWorld (wd_table s) (wd_aliases s) (wd_objects s) (wd_vars s) (wd_session_vars s) (wd_ids s) g.

(** The four file systems that are mounted. *)
Definition workspace_vars : Fs := fs_view wd_vars with_vars OfVar var_file_system.
Definition session_vars : Fs := fs_view wd_session_vars with_session_vars OfVar var_file_system.
Definition workspace_files (root : Z) : Fs :=
  fs_view (λ s, ((wd_table s, wd_ids s), wd_objects s))
    (λ x s, with_objects x.2 (with_ids x.1.2 (with_table x.1.1 s))) OfObject (object_file_system (postgres_catalog root)).
Definition session_files (root : Z) : Fs :=
  fs_view (λ s, ((wd_table s, wd_session_ids s), wd_objects s))
    (λ x s, with_objects x.2 (with_session_ids x.1.2 (with_table x.1.1 s))) OfObject
    (object_file_system (postgres_catalog root)).

Definition in_table {A} (m : M FsInode ErrorChain A) : WM A := zoom wd_table with_table m.

(** [WorkspaceVfs::vfs]: [entropy] is what the generator of the catalogue is
    seeded with. *)
Definition vfs (workspace_id : string) (entropy : option (list Z)) : WM (VFS World Descriptor) :=
  let v := with_aliases (alias_view wd_aliases with_alias_table (postgres_alias (workspace_scope workspace_id))) in
  let v := mount "/var" workspace_vars v in
  root ← in_table (for_workspace workspace_id);
  _ ← modify (with_ids (generator_default entropy));
  mret (mount "/files" (workspace_files root) v).

Definition session_vfs (workspace_id : string) (session_id : SessionId) (entropy : option (list Z)) :
    WM (VFS World Descriptor) :=
  let v := with_aliases (alias_view wd_aliases with_alias_table (postgres_alias (session_scope session_id))) in
  let v := mount "/var" session_vars v in
  root ← in_table (for_session workspace_id (ID_to_string (session_id_ session_id)));
  _ ← modify (with_session_ids (generator_default entropy));
  mret (mount "/files" (session_files root) v).

Definition mount_session (workspace_id : string) (session_id : SessionId) (entropy entropy' : option (list Z)) :
    WM (VFS World Descriptor) :=
  v ← vfs workspace_id entropy;
  s ← session_vfs workspace_id session_id entropy';
  mret (mount "/session" (vfs_fs s) v).

Definition delete_session_files (workspace_id : string) (session_id : SessionId) : WM () :=
  root ← in_table (for_session workspace_id (ID_to_string (session_id_ session_id)));
  keys ← in_table (remove root "/");
  mfor keys (λ key, zoom wd_objects with_objects (obj_delete (object_path key))).

(** ** Routing *)

Definition no_alias (scope : string) (t : FsAlias) : Prop := ∀ f, t !! (scope, f) = None.

Lemma follow_no_alias scope n path s : no_alias scope (wd_aliases s) →
  follow (alias_view wd_aliases with_alias_table (postgres_alias scope)) n path s = (Ok path, s).
Proof.
  intros Hn. destruct n as [|n]; [done|]. simpl. unfold mbind, m_bind, zoom. rewrite resolve_prefix_eq.
  pose proof (rewrite_once_spec scope (wd_aliases s) path) as Hs. destruct (rewrite_once _ _ _) as [p|].
  - destruct Hs as (f&to&r&Hf&_). by rewrite (Hn f) in Hf.
  - by destruct s.
Qed.

(** A prefix that is mounted, and the rest of a path. *)
Definition rest_of (p : string) : string := if decide (p = "") then "/" else p.

(** From the root of the table to that of a session, through that of its workspace. *)
Definition session_chain (workspace_id sid : string) : list string := ["workspaces"; workspace_id; "sessions"; sid].

(** The two scopes, from the root of the workspace. *)
Lemma scopes_nested workspace_id sid (t : FsInode) : table_ok t →
  ∃ g rw t1 rs t2, for_workspace workspace_id t = (Ok rw, t1) ∧ for_session workspace_id sid t1 = (Ok rs, t2) ∧
    table_ok t2 ∧ t_rows t ⊆ t_rows t2 ∧ made_on_path g (session_chain workspace_id sid) t t2 ∧
    select_root t2 = Some g ∧ walk_from t2 g (take 2 (session_chain workspace_id sid)) = Some rw ∧
    walk_from t2 g (session_chain workspace_id sid) = Some rs ∧ walk_from t2 rw ["sessions"; sid] = Some rs.
Proof.
  intros Ht. destruct (scope_root_ok ["workspaces"; workspace_id] t Ht) as (g&rw&t1&Hf1&Ht1&Hs1&Hg1&Hw1&_).
  destruct (scope_root_ok (session_chain workspace_id sid) t1 Ht1) as (g'&rs&t2&Hf2&Ht2&Hs2&Hg2&Hw2&_).
  assert (g' = g) as -> by (apply (select_root_mono t1 t2 g Ht2 Hs2) in Hg1; congruence).
  apply (walk_mono t1 t2) in Hw1 as Hrw; [|done..].
  exists g, rw, t1, rs, t2. split_and!; [exact Hf1|exact Hf2|done|by etrans| |done|done|done|].
  - intros i r Hi. destruct (scope_root_made _ _ _ _ _ Ht1 Hf2 Hg2 i r Hi) as [Hi1|?]; [|by right].
    destruct (scope_root_made _ _ _ _ _ Ht Hf1 Hg1 i r Hi1) as [Hi0|(Hd&n&Hw)]; [by left|right]. split; [done|].
    exists (n `min` 2)%nat. apply (walk_mono t1 t2); [done..|]. by rewrite <- take_take.
  - change (session_chain workspace_id sid) with (["workspaces"; workspace_id] ++ ["sessions"; sid]) in Hw2.
    rewrite walk_app, Hrw in Hw2. exact Hw2.
Qed.

(** Whatever is then done to the table, the paths of the session lead from the root
    of its workspace where they lead from its own, as long as its root is there;
    and nowhere once it is not. *)
Lemma scopes_stay_nested (t : FsInode) rw rs sid cs : table_ok t → walk_from t rw ["sessions"; sid] = Some rs →
  let t' := changes cs t in
  match t_rows t' !! rs with
  | Some _ => ∀ segs, walk_from t' rw ("sessions" :: sid :: segs) = walk_from t' rs segs
  | None => ∀ segs, segs ≠ [] → walk_from t' rs segs = None
  end.
Proof.
  intros Ht Hw t'. destruct (changes_kept cs t Ht) as [Ht' Hk]. fold t' in Ht', Hk. destruct (t_rows t' !! rs) as [r|] eqn:E.
  - intros segs. apply (walk_places t t') in Hw; [|done..|by eexists].
    change ("sessions" :: sid :: segs) with (["sessions"; sid] ++ segs). by rewrite walk_app, Hw.
  - intros [|s segs] Hne; [done|]. simpl. destruct (select_child rs s t') as [q|] eqn:Eq; [|done].
    apply select_child_spec in Eq as (r&Hr&Hp&_); [|done]. destruct Ht' as (Hok&_). destruct (Hok q r Hr) as (_&Hpar&_).
    destruct (Hpar rs Hp) as [_ [? ?]]. congruence.
Qed.

Lemma resolve_no_alias scope (ms : list (string * Fs)) path s : no_alias scope (wd_aliases s) →
  resolve (mkVfs ms (Some (alias_view wd_aliases with_alias_table (postgres_alias scope)))) path s =
    (of_option (msg ("aucun montage ne couvre " +:+ path)) (first_mount ms path), s).
Proof.
  intros Hn. unfold resolve, resolve_aliases. cbn [aliases]. unfold mbind, m_bind. by rewrite follow_no_alias.
Qed.

(** C39: Mounting a session gives a router in which [/var] and [/files] are those of
    the workspace and [/session/var] and [/session/files] those of the session, for
    every path when neither scope has an alias.  The two roots are the rows at
    [workspaces/{workspace_id}] and [workspaces/{workspace_id}/sessions/{session_id}]
    of the table, and all that mounting makes in the table are directories on these
    paths; the rows that were there, and the rest of the state, stay.  The files of the
    session are also files of the workspace: every path below
    [/files/sessions/{session_id}] leads to the row that it leads to below
    [/session/files], after any later use of the table by any catalogue, the files
    that are made, replaced and removed included, as long as the row of the
    session's root is not itself removed, which removing [/session/files/] or a
    directory above it does; from then on no path below [/session/files] leads
    anywhere. *)
Theorem session_mounted (workspace_id : string) (session_id : SessionId) (e e' : option (list Z)) (s : World) :
  table_ok (wd_table s) → no_alias (workspace_scope workspace_id) (wd_aliases s) →
  no_alias (session_scope session_id) (wd_aliases s) →
  let sid := ID_to_string (session_id_ session_id) in
  ∃ v sv g rw rs s', mount_session workspace_id session_id e e' s = (Ok v, s') ∧
    (wd_aliases s' = wd_aliases s ∧ wd_objects s' = wd_objects s ∧ wd_vars s' = wd_vars s ∧
     wd_session_vars s' = wd_session_vars s) ∧
    (table_ok (wd_table s') ∧ select_root (wd_table s') = Some g ∧
     walk_from (wd_table s') g ["workspaces"; workspace_id] = Some rw ∧
     walk_from (wd_table s') g ["workspaces"; workspace_id; "sessions"; sid] = Some rs ∧
     t_rows (wd_table s) ⊆ t_rows (wd_table s') ∧
     made_on_path g ["workspaces"; workspace_id; "sessions"; sid] (wd_table s) (wd_table s')) ∧
    (∀ p s2, p = "" ∨ starts_slash p = true → wd_aliases s2 = wd_aliases s →
      resolve v ("/var" +:+ p) s2 = (Ok (workspace_vars, rest_of p), s2) ∧
      resolve v ("/files" +:+ p) s2 = (Ok (workspace_files rw, rest_of p), s2) ∧
      resolve v ("/session" +:+ p) s2 = (Ok (vfs_fs sv, rest_of p), s2) ∧
      resolve sv ("/var" +:+ p) s2 = (Ok (session_vars, rest_of p), s2) ∧
      resolve sv ("/files" +:+ p) s2 = (Ok (session_files rs, rest_of p), s2)) ∧
    ∀ cs, let t := changes cs (wd_table s') in
      match t_rows t !! rs with
      | Some _ => ∀ segs, walk_from t rw ("sessions" :: sid :: segs) = walk_from t rs segs
      | None => ∀ segs, segs ≠ [] → walk_from t rs segs = None
      end.
Proof.
  intros Ht Hna Hna' sid.
  destruct (scopes_nested workspace_id sid _ Ht) as (g&rw&t1&rs&t2&Hf1&Hf2&Ht2&Hs&Hmade&Hg&Hrw&Hrs&Hnest).
  pose (sv := mkVfs [("/files", session_files rs); ("/var", session_vars)]
    (Some (alias_view wd_aliases with_alias_table (postgres_alias (session_scope session_id))))).
  eexists _, sv, g, rw, rs, _. split.
  { unfold mount_session, vfs, session_vfs, in_table, zoom, mbind, m_bind. rewrite Hf1. simpl. fold sid. rewrite Hf2. simpl.
    reflexivity. }
  cbn [wd_aliases wd_objects wd_vars wd_session_vars wd_table with_table with_ids with_session_ids].
  split; [done|]. split; [split_and!; assumption|]. split; [|intros cs; by apply scopes_stay_nested].
  intros p s2 Hp Ha. unfold mount. simpl. unfold sv. rewrite !resolve_no_alias by by rewrite Ha.
  unfold rest_of. split_and!; simpl; change ("" +:+ p) with p; case_decide; try done; by destruct Hp as [?| ->].
Qed.

(** Deleting the files of a session takes from the table exactly what is
    below its root, whatever the store answers, and only the objects of the
    files that were there; every one of them when the deletion succeeds. *)
Theorem session_files_deleted (workspace_id : string) (session_id : SessionId) (s s' : World) r :
  table_ok (wd_table s) → delete_session_files workspace_id session_id s = (r, s') →
  ∃ rs t1, for_session workspace_id (ID_to_string (session_id_ session_id)) (wd_table s) = (Ok rs, t1) ∧
    (∀ i, t_rows (wd_table s') !! i = if in_subtree t1 rs i then None else t_rows t1 !! i) ∧
    let freed k := ∃ i row key, t_rows t1 !! i = Some row ∧ under t1 rs i ∧ r_kind row = File ∧
                     r_key row = Some key ∧ k = object_path key in
    (∀ k, ¬ freed k → objects (wd_objects s') !! k = objects (wd_objects s) !! k) ∧
    (r = Ok () → ∀ k, freed k → objects (wd_objects s') !! k = None).
Proof.
  intros Ht Hd.
  destruct (scope_root_ok ["workspaces"; workspace_id; "sessions"; ID_to_string (session_id_ session_id)] _ Ht)
    as (g&rs&t1&Hf&Ht1&_). exists rs, t1. split; [exact Hf|].
  destruct (remove_rows rs "/" t1 rs Ht1) as (keys&t2&Hrm&Hrows&Hkeys); [done|].
  unfold delete_session_files, in_table, zoom, mbind at 1 2, m_bind in Hd.
  unfold for_session in Hd. rewrite Hf in Hd. cbn -[remove mfor] in Hd. rewrite Hrm in Hd.
  apply (deletions_of wd_objects with_objects wd_table) in Hd as (Hc&Hn&Hok); [|done..]. rewrite Hc. simpl.
  split; [done|]. split.
  - intros k Hk. apply Hn. rewrite list_elem_of_fmap. intros (key&->&(i&row&?&?&?&?)%Hkeys). destruct Hk. by exists i, row, key.
  - intros Hr k (i&row&key&?&?&?&?&->). apply Hok; [done|]. apply list_elem_of_fmap. exists key.
    split; [done|]. apply Hkeys. by exists i, row.
Qed.
End workspace_vfs.

(** ** A session, with everything in memory *)

#[local] Existing Instance canonical_iter.
#[local] Existing Instance counter_rng.

Definition demo_world : World (W := gmap string (list Z)) (VW := gmap string Value) (VS := gmap string Value) :=
  mkWorld demo_state.1 ∅ demo_objects demo_vars ∅ demo_state.2 demo_state.2.
Definition demo_session : SessionId := mkSessionId (mkID 0 7).

Lemma session_mounted_witness :
  ∃ v sv rs s', mount_session "w" demo_session None None demo_world = (Ok v, s') ∧
    resolve v "/session/files/x" s' = (Ok (vfs_fs sv, "/files/x"), s') ∧
    resolve sv "/files/x" s' = (Ok (session_files rs, "/x"), s') ∧
    t_rows (changes [Asked rs (OpRemove "/") (new_from_seed [])] (wd_table s')) !! rs = None ∧
    walk_from (changes [Asked rs (OpRemove "/") (new_from_seed [])] (wd_table s')) rs ["x"] = None.
Proof.
  destruct (session_mounted "w" demo_session None None demo_world) as (v&sv&g&rw&rs&s'&Hm&(Ha&_)&(Ht&_)&Hr&Hlater).
  - exact demo_state_ok.
  - done.
  - done.
  - exists v, sv, rs, s'. split; [exact Hm|].
    destruct (Hr "/files/x" s') as (_&_&Hs&_); [by right|exact Ha|].
    destruct (Hr "/x" s') as (_&_&_&_&Hf); [by right|exact Ha|]. split; [exact Hs|]. split; [exact Hf|].
    specialize (Hlater [Asked rs (OpRemove "/") (new_from_seed [])]). cbv zeta in Hlater.
    assert (t_rows (changes [Asked rs (OpRemove "/") (new_from_seed [])] (wd_table s')) !! rs = None) as E.
    { cbn [changes fold_left change]. rewrite inode_op_table. by apply (removed_root_refuses rs "/x"). }
    rewrite E in Hlater. split; [exact E|]. by apply Hlater.
Defined.

Lemma session_files_deleted_witness :
  ∃ rs t1, for_session "w" (ID_to_string (mkID 0 7)) demo_state.1 = (Ok rs, t1) ∧
    t_rows (wd_table (run_state (delete_session_files "w" demo_session) demo_world)) !! 7%Z = t_rows demo_state.1 !! 7%Z.
Proof.
  destruct (delete_session_files "w" demo_session demo_world) as [r s'] eqn:E.
  destruct (session_files_deleted "w" demo_session demo_world s' r demo_state_ok E) as (rs&t1&Hf&Hrows&_).
  exists rs, t1. split; [exact Hf|]. unfold run_state. rewrite E. simpl. rewrite Hrows.
  assert (for_session "w" (ID_to_string (mkID 0 7)) demo_state.1 = (Ok rs, t1)) as Hf' by exact Hf.
  revert Hf'. vm_compute. intros [= <- <-]. reflexivity.
Defined.

(** A file of the session is read through its workspace. *)
Example session_file_from_workspace :
  run_res (v ← mount_session "w" (mkSessionId (mkID 0 7)) None None;
           _ ← fs_open (vfs_fs v) "/session/files/n.txt" open_append;
           session ← fs_ls (vfs_fs v) "/session/files";
           workspace ← fs_ls (vfs_fs v) ("/files/sessions/" +:+ ID_to_string (mkID 0 7));
           mret (session, workspace)) demo_world = Ok (["n.txt"], ["n.txt"]).
Proof. vm_compute. done. Qed.
