(* ===== verification/Stores.v ===== *)
(** * Stores of replicated documents ([persistency/store.rs], [persistency/session.rs],
      [persistency/workspace.rs])

    Sessions and workspaces are kept as documents, each by its identifier: in
    one table of [redb] whose keys start with the name of their kind, or in a
    table of PostgreSQL for each kind.  Both implement the same interface. *)

From Stdlib Require Import Ascii Sorting.Sorted.
From stdpp Require Import sorting.
From S2P Require Import Prelude Ids Json Types Secrets Errors ErrorChain Vfs VarFs.

(** ** What the stores rely on *)

(** A document ([YrsSession], [YrsWorkspace]): two documents with the same
    content answer alike, and the diff from the empty state gives the content
    back. *)
Class Document (D : Type) := {
  StateVector : Type;
  sv_default : StateVector;
  doc_diff_since : D → StateVector → list Z;
  from_diff : list Z → Res ErrorChain D;
  same_doc : relation D;
  same_doc_equiv :: Equivalence same_doc;
  diff_since_proper :: Proper (same_doc ==> (=) ==> (=)) doc_diff_since;
  from_diff_since : ∀ d, ∃ d', from_diff (doc_diff_since d sv_default) = Ok d' ∧ same_doc d' d
}.

(** ** One table for every kind ([RedbStore]) *)

Definition RedbStore : Type := gmap string (list Z).

Definition raw_key (namespace id : string) : string := namespace +:+ "/" +:+ id.

Section raw.
Notation RM := (M RedbStore ErrorChain).

Definition get_raw (namespace id : string) : RM (option (list Z)) := gets (.!! raw_key namespace id).
Definition put_raw (namespace id : string) (value : list Z) : RM () := modify (<[raw_key namespace id := value]>).
Definition delete_raw (namespace id : string) : RM () := modify (base.delete (raw_key namespace id)).

(** [table.iter()]: in the order of the keys. *)
Definition key_le (x y : string * list Z) : Prop := String.le x.1 y.1.
#[export] Instance key_le_dec x y : Decision (key_le x y) := decide (String.le x.1 y.1).
#[export] Instance key_le_total : Total key_le.
Proof. intros x y. apply (total String.le). Qed.
#[export] Instance key_le_trans : Transitive key_le.
Proof. intros x y z. unfold key_le. apply transitivity. Qed.
Definition table_iter (t : RedbStore) : list (string * list Z) := merge_sort key_le (map_to_list t).

Definition list_raw (namespace : string) : RM (list (list Z)) :=
  gets (λ t, omap (λ x, if strip_prefix (namespace +:+ "/") x.1 then Some x.2 else None) (table_iter t)).
End raw.

(** ** A store of documents *)

(** [trait SessionStore], [trait WorkspaceStore] *)
Record DocStore (S D : Type) := mkDocStore {
  ds_get : string → M S ErrorChain (option D);
  ds_put : string → D → M S ErrorChain ();
  ds_delete : string → M S ErrorChain ();
  ds_list : M S ErrorChain (list D) }.
Arguments mkDocStore {S D}. Arguments ds_get {S D}. Arguments ds_put {S D}. Arguments ds_delete {S D}.
Arguments ds_list {S D}.

Section docs.
Context {D : Type} `{Document D}.

Definition encode (d : D) : list Z := doc_diff_since d sv_default.
Definition decode (bytes : list Z) : Res ErrorChain D := from_diff bytes.

(** [.as_deref().map(decode).transpose()] *)
Definition decode_option (o : option (list Z)) : Res ErrorChain (option D) :=
  match o with Some bytes => d ← decode bytes; Ok (Some d) | None => Ok None end.

(** [.iter().map(decode).collect()]: the first error ends it. *)
Fixpoint decode_all (l : list (list Z)) : Res ErrorChain (list D) :=
  match l with
  | [] => Ok []
  | bytes :: l => d ← decode bytes; ds ← decode_all l; Ok (d :: ds)
  end.

Definition redb_docs (namespace : string) : DocStore RedbStore D :=
  mkDocStore (λ id, bytes ← get_raw namespace id; lift (decode_option bytes))
    (λ id d, put_raw namespace id (encode d)) (delete_raw namespace)
    (all ← list_raw namespace; lift (decode_all all)).

(** The default method of both traits. *)
Definition store_diff_since {S} (store : DocStore S D) (id : string) (sv : StateVector) : M S ErrorChain (option (list Z)) :=
  found ← ds_get store id;
  mret ((λ d, doc_diff_since d sv) <$> found).

(** A table of PostgreSQL, whose rows come in no given order. *)
Definition postgres_docs `{HashIter} : DocStore (gmap string (list Z)) D :=
  mkDocStore (λ id t, (decode_option (t !! id), t)) (λ id d, modify (<[id := encode d]>))
    (λ id, modify (base.delete id)) (λ t, (decode_all (hash_iter t).*2, t)).
End docs.

Definition session_redb {D} `{Document D} : DocStore RedbStore D := redb_docs "session".
Definition workspace_redb {D} `{Document D} : DocStore RedbStore D := redb_docs "workspace".

(** Each kind has a table of its own. *)
Record PgTables := mkPgTables { pg_session : gmap string (list Z); pg_workspace : gmap string (list Z) }.

Definition docs_in {S T D} (proj : S → T) (inj : T → S → S) (store : DocStore T D) : DocStore S D :=
  mkDocStore (λ id, zoom proj inj (ds_get store id)) (λ id d, zoom proj inj (ds_put store id d))
    (λ id, zoom proj inj (ds_delete store id)) (zoom proj inj (ds_list store)).

Definition session_postgres {D} `{Document D} `{HashIter} : DocStore PgTables D :=
  docs_in pg_session (λ t s, mkPgTables t (pg_workspace s)) postgres_docs.
Definition workspace_postgres {D} `{Document D} `{HashIter} : DocStore PgTables D :=
  docs_in pg_workspace (λ t s, mkPgTables (pg_session s) t) postgres_docs.

(** ** What a store of documents promises *)

(** [keeps_docs store content]: [content] gives the bytes that a state keeps for
    each identifier. *)
Record keeps_docs {S D} `{Document D} (store : DocStore S D) (content : S → gmap string (list Z)) : Prop := {
  kd_get : ∀ id s, ds_get store id s = (decode_option (content s !! id), s);
  kd_put : ∀ id d s, ∃ s', ds_put store id d s = (Ok (), s') ∧ content s' = <[id := encode d]> (content s);
  kd_delete : ∀ id s, ∃ s', ds_delete store id s = (Ok (), s') ∧ content s' = base.delete id (content s);
  kd_list : ∀ s, ∃ l, ds_list store s = (decode_all l.*2, s) ∧ l ≡ₚ map_to_list (content s) }.

Lemma postgres_keeps_docs {D} `{Document D} `{HashIter} : keeps_docs (postgres_docs (D:=D)) (λ t, t).
Proof.
  split; [done|by intros; eexists|by intros; eexists|]. intros s. exists (hash_iter s). split; [done|]. apply hash_iter_perm.
Qed.

(** A store within a larger state is a store. *)
Lemma docs_in_keeps {S T D} `{Document D} (proj : S → T) (inj : T → S → S) (store : DocStore T D) content :
  (∀ t s, proj (inj t s) = t) → (∀ s, inj (proj s) s = s) →
  keeps_docs store content → keeps_docs (docs_in proj inj store) (λ s, content (proj s)).
Proof.
  intros Hp Hi [Hget Hput Hdel Hlist]. split; simpl; unfold zoom.
  - intros id s. by rewrite Hget, Hi.
  - intros id d s. destruct (Hput id d (proj s)) as (t&->&Ht). exists (inj t s). by rewrite Hp.
  - intros id s. destruct (Hdel id (proj s)) as (t&->&Ht). exists (inj t s). by rewrite Hp.
  - intros s. destruct (Hlist (proj s)) as (l&->&Hl). exists l. by rewrite Hi.
Qed.

(** The part of the table that a kind has. *)
Definition of_kind (namespace : string) (t : RedbStore) : gmap string (list Z) :=
  list_to_map (omap (λ x, (λ id, (id, x.2)) <$> strip_prefix (namespace +:+ "/") x.1) (map_to_list t)).

Lemma string_app_cancel (p a b : string) : p +:+ a = p +:+ b → a = b.
Proof. induction p as [|c p IH]; [done|]. intros [= ?]. by apply IH. Qed.

Lemma raw_key_app ns id : raw_key ns id = (ns +:+ "/") +:+ id.
Proof. unfold raw_key. induction ns as [|c ns IH]; [done|]. exact (f_equal (String c) IH). Qed.

Lemma raw_key_inj ns id id' : raw_key ns id = raw_key ns id' → id = id'.
Proof. rewrite !raw_key_app. apply string_app_cancel. Qed.

Lemma ids_NoDup ns (l : list (string * list Z)) : NoDup l.*1 →
  NoDup (omap (λ x, (λ id, (id, x.2)) <$> strip_prefix (ns +:+ "/") x.1) l).*1.
Proof.
  induction l as [|[k v] l IH]; simpl; [done|]. intros [Hk Hl]%NoDup_cons.
  destruct (strip_prefix (ns +:+ "/") k) as [id|] eqn:E; simpl; [|by apply IH].
  apply NoDup_cons. split; [|by apply IH]. intros ([id' v']&->&Hin)%list_elem_of_fmap. simpl in E.
  apply list_elem_of_omap in Hin as ([k2 v2]&Hin&Hs). simpl in Hs.
  destruct (strip_prefix (ns +:+ "/") k2) as [id2|] eqn:E2; [|done]. simplify_eq/=.
  apply strip_prefix_spec in E, E2. apply Hk. rewrite E, <- E2. apply list_elem_of_fmap. by exists (k2, v').
Qed.

Lemma lookup_of_kind ns (t : gmap string (list Z)) id : of_kind ns t !! id = t !! raw_key ns id.
Proof.
  apply option_eq. intros v. unfold of_kind.
  rewrite <- elem_of_list_to_map by (apply ids_NoDup, NoDup_fst_map_to_list). rewrite list_elem_of_omap. split.
  - intros ([k v']&Hk%elem_of_map_to_list&Hs). simpl in Hs.
    destruct (strip_prefix (ns +:+ "/") k) as [id'|] eqn:E; [|done]. simplify_eq/=. apply strip_prefix_spec in E as ->.
    by rewrite raw_key_app.
  - intros Ht. exists (raw_key ns id, v). split; [by apply elem_of_map_to_list|]. simpl.
    by rewrite raw_key_app, strip_prefix_app.
Qed.

(** A kind of documents in the one table is a store of its own. *)
Lemma redb_keeps_docs {D} `{Document D} ns : keeps_docs (redb_docs (D:=D) ns) (of_kind ns).
Proof.
  unfold RedbStore. split.
  - intros id s. simpl. unfold mbind, m_bind, get_raw, gets, lift. by rewrite lookup_of_kind.
  - intros id d s. exists (<[raw_key ns id := encode d]> s). split; [done|]. apply map_eq. intros i. rewrite lookup_of_kind.
    destruct (decide (i = id)) as [->|Hi]; [by rewrite !lookup_insert_eq|].
    rewrite !lookup_insert_ne by (try intros ?%raw_key_inj; congruence). by rewrite lookup_of_kind.
  - intros id s. exists (base.delete (raw_key ns id) s). split; [done|]. apply map_eq. intros i. rewrite lookup_of_kind.
    destruct (decide (i = id)) as [->|Hi]; [by rewrite !lookup_delete_eq|].
    rewrite !lookup_delete_ne by (try intros ?%raw_key_inj; congruence). by rewrite lookup_of_kind.
  - intros s. set (f := λ x : string * list Z, (λ id, (id, x.2)) <$> strip_prefix (ns +:+ "/") x.1).
    exists (omap f (table_iter s)). split.
    + simpl. unfold mbind, m_bind, list_raw, gets, lift. f_equal. f_equal. unfold f. clear f.
      induction (table_iter s) as [|[k v] l IH]; [done|]. simpl.
      destruct (strip_prefix _ k); simpl; [by apply (f_equal (cons v))|exact IH].
    + assert (omap f (table_iter s) ≡ₚ omap f (map_to_list s)) as ->.
      { apply omap_Permutation, merge_sort_Permutation. }
      unfold of_kind. symmetry. apply map_to_list_to_map, ids_NoDup, NoDup_fst_map_to_list.
Qed.

(** ** Theorems *)

Lemma decode_encode_doc {D} `{Document D} (d : D) : ∃ d', decode (encode d) = Ok d' ∧ same_doc d' d.
Proof. apply from_diff_since. Qed.

Lemma decode_all_encode {D} `{Document D} (l : list D) :
  ∃ ds, decode_all (encode <$> l) = Ok ds ∧ Forall2 same_doc ds l.
Proof.
  induction l as [|d l (ds&Hds&Hs)]; [by exists []|]. destruct (decode_encode_doc d) as (d'&Hd&Hsame).
  exists (d' :: ds). split; [|by constructor]. cbn. rewrite Hd. cbn in Hds |- *. by rewrite Hds.
Qed.

(** What a store gives after documents were put in and taken out of it. *)
Inductive DocOp (D : Type) := PutDoc (id : string) (d : D) | DeleteDoc (id : string).
Arguments PutDoc {D}. Arguments DeleteDoc {D}.

Definition doc_op {S D} (store : DocStore S D) (op : DocOp D) : M S ErrorChain () :=
  match op with PutDoc id d => ds_put store id d | DeleteDoc id => ds_delete store id end.
Definition doc_ops {S D} (store : DocStore S D) (ops : list (DocOp D)) : M S ErrorChain () := mfor ops (doc_op store).

Definition latest_op {D} (m : gmap string D) (op : DocOp D) : gmap string D :=
  match op with PutDoc id d => <[id := d]> m | DeleteDoc id => base.delete id m end.
Definition latest_docs {D} (ops : list (DocOp D)) : gmap string D := foldl latest_op ∅ ops.

(** A store reads as a map does. *)
Definition holds_docs {S D} `{Document D} (store : DocStore S D) (s : S) (m : gmap string D) : Prop :=
  (∀ id, match m !! id with
         | Some d => ∃ d', ds_get store id s = (Ok (Some d'), s) ∧ same_doc d' d ∧
                       ∀ sv, store_diff_since store id sv s = (Ok (Some (doc_diff_since d sv)), s)
         | None => ds_get store id s = (Ok None, s) ∧ ∀ sv, store_diff_since store id sv s = (Ok None, s)
         end) ∧
  ∃ ds l, ds_list store s = (Ok ds, s) ∧ Forall2 same_doc ds l.*2 ∧ l ≡ₚ map_to_list m.

Section refinement.
Context {S D : Type} `{Document D} (store : DocStore S D) (content : S → gmap string (list Z)).
Context (Hstore : keeps_docs store content).

Lemma doc_ops_content ops (m : gmap string D) s : content s = encode <$> m →
  ∃ s', doc_ops store ops s = (Ok (), s') ∧ content s' = encode <$> foldl latest_op m ops.
Proof.
  unfold doc_ops. revert m s. induction ops as [|op ops IH]; intros m s Hm; simpl; [by exists s|].
  unfold mbind, m_bind.
  assert (∃ s', doc_op store op s = (Ok (), s') ∧ content s' = encode <$> latest_op m op) as (s1&->&Hs1); [|by apply IH].
  destruct op as [id d|id]; simpl.
  - destruct (kd_put _ _ Hstore id d s) as (s1&?&Hs1). exists s1. split; [done|]. by rewrite Hs1, Hm, fmap_insert.
  - destruct (kd_delete _ _ Hstore id s) as (s1&?&Hs1). exists s1. split; [done|]. by rewrite Hs1, Hm, fmap_delete.
Qed.

Lemma docs_read (m : gmap string D) s : content s = encode <$> m →
  holds_docs store s m.
Proof.
  intros Hm. split.
  - intros id. pose proof (kd_get _ _ Hstore id s) as Hg. rewrite Hm, lookup_fmap in Hg.
    unfold store_diff_since, mbind, m_bind. destruct (m !! id) as [d|]; simpl in Hg.
    + destruct (decode_encode_doc d) as (d'&Hd&Hsame). rewrite Hd in Hg. exists d'. split; [done|]. split; [done|].
      intros sv. rewrite Hg. simpl. unfold mret, m_ret. do 3 f_equal. by rewrite Hsame.
    + rewrite Hg. by split.
  - destruct (kd_list _ _ Hstore s) as (lb&Hl&Hp). rewrite Hm in Hp.
    rewrite map_to_list_fmap in Hp. apply Permutation_map_inv in Hp as (l&->&Hp).
    destruct (decode_all_encode l.*2) as (ds&Hds&Hsame).
    assert ((map (prod_map id encode) l).*2 = encode <$> l.*2) as He by (rewrite <- !list_fmap_compose; reflexivity).
    exists ds, l. split; [by rewrite Hl, He, Hds|]. split; [done|]. by symmetry.
Qed.
End refinement.

(** A store of documents, in the one table of [redb] or in a table of
    PostgreSQL, is a map of identifiers: whatever was put in and deleted from an
    empty store, and in whatever order, each identifier gives a document with the
    content last put under it, whose diffs are those of that document, or nothing
    when none was put or it was deleted since; and the list holds each of them
    once. *)
Theorem doc_stores_refine_map {D} `{Document D} `{HashIter} (ops : list (DocOp D)) :
  (∃ t, doc_ops session_redb ops ∅ = (Ok (), t) ∧ holds_docs session_redb t (latest_docs ops)) ∧
  (∃ t, doc_ops workspace_redb ops ∅ = (Ok (), t) ∧ holds_docs workspace_redb t (latest_docs ops)) ∧
  (∃ t, doc_ops session_postgres ops (mkPgTables ∅ ∅) = (Ok (), t) ∧ holds_docs session_postgres t (latest_docs ops)) ∧
  (∃ t, doc_ops workspace_postgres ops (mkPgTables ∅ ∅) = (Ok (), t) ∧ holds_docs workspace_postgres t (latest_docs ops)).
Proof.
  assert (∀ S (store : DocStore S D) content s0, keeps_docs store content → content s0 = ∅ →
    ∃ t, doc_ops store ops s0 = (Ok (), t) ∧ holds_docs store t (latest_docs ops)) as Hall.
  { intros S store content s0 Hs He. destruct (doc_ops_content _ _ Hs ops ∅ s0) as (t&Ht&Hc); [by rewrite He|].
    exists t. split; [exact Ht|]. by apply (docs_read _ _ Hs). }
  split; [|split; [|split]].
  1-2: eapply Hall; [apply redb_keeps_docs|done].
  all: eapply Hall; [apply docs_in_keeps; [done|by intros []|apply postgres_keeps_docs]|done].
Qed.

(** Two kinds whose names hold no slash share the table without meeting. *)
Theorem kinds_independent {D} `{Document D} (ns ns' : string) (op : DocOp D) (t : RedbStore) :
  ns ≠ ns' → "/"%char ∉ String.list_ascii_of_string ns → "/"%char ∉ String.list_ascii_of_string ns' →
  of_kind ns' (run_state (doc_op (redb_docs ns) op) t) = of_kind ns' t.
Proof.
  intros Hne Hns Hns'. unfold RedbStore in *.
  assert (∀ id id', raw_key ns id ≠ raw_key ns' id') as Hkey.
  { intros id id' He. unfold raw_key in He.
    assert (head (split_at "/" (ns +:+ "/" +:+ id)) = Some ns) as H1 by (apply split_head; [done|right; by exists id]).
    assert (head (split_at "/" (ns' +:+ "/" +:+ id')) = Some ns') as H2 by (apply split_head; [done|right; by exists id']).
    rewrite He, H2 in H1. congruence. }
  apply map_eq. intros id. rewrite !lookup_of_kind. unfold run_state. destruct op as [i d|i]; simpl.
  - exact (lookup_insert_ne t _ _ _ (Hkey i id)).
  - exact (lookup_delete_ne t _ _ (Hkey i id)).
Qed.

(** ** Documents that are their own diff *)

Definition demo_document : Document (list Z) := {|
  StateVector := (); sv_default := (); doc_diff_since := λ d _, d; from_diff := λ b, Ok b; same_doc := eq;
  same_doc_equiv := _; diff_since_proper := λ d d' Hd _ _ _, Hd;
  from_diff_since := λ d, ex_intro _ d (conj eq_refl eq_refl) |}.
#[local] Existing Instance demo_document.

Lemma kinds_independent_witness :
  of_kind "workspace" (run_state (doc_op (redb_docs "session") (PutDoc "1" [7%Z])) ∅) = ∅.
Proof.
  rewrite (kinds_independent "session" "workspace" (PutDoc "1" [7%Z]) ∅).
  - vm_compute. reflexivity.
  - done.
  - apply (bool_decide_unpack _). vm_compute. exact I.
  - apply (bool_decide_unpack _). vm_compute. exact I.
Defined.

Example demo_store :
  run_res (_ ← doc_ops session_redb [PutDoc "b" [2%Z]; PutDoc "a" [1%Z]; PutDoc "b" [3%Z]];
           _ ← ds_put workspace_redb "a" [9%Z];
           _ ← ds_delete session_redb "c";
           ds_list session_redb) ∅ = Ok [[1%Z]; [3%Z]].
Proof. vm_compute. reflexivity. Qed.
