(* ===== verification/Models.v ===== *)
(** * Models ([marie-core/src/model], [agent/context.rs], [agent/role.rs])

    A model is declared in the catalogue with a reference to its key in the
    vault.  Executing one resolves the declaration, decrypts the key, and
    relays the stream of the provider's events.  The provider's client
    ([async_openai]) and the JSON parser are third-party code. *)

From S2P Require Import Prelude Ids Json Types Frames Catalog Domains Errors Secrets.

(** ** Conversations *)

Inductive Role := RoleSystem | RoleUser | RoleAssistant | RoleTool.
Record ContextEntry := mkEntry { ce_role : Role; ce_content : string }.
Notation Context := (list ContextEntry) (only parsing).

(** [impl ToString for Context]: the contents alone, end to end. *)
Definition context_to_string (c : Context) : string := foldr (λ e s, ce_content e +:+ s) "" c.

(** ** Declarations *)

(** [EncryptedModel::OpenAICompatible], the only variant. *)
Record EncryptedModel := OpenAICompatible {
  em_id : ModelId; em_base_url : string; em_client_id : string; em_api_key : SecretRef;
  em_model : string; em_system_prompt : option string }.

(** [Model::OpenAICompatible] *)
Record Model := PlainModel {
  pm_id : ModelId; pm_base_url : string; pm_client_id : string; pm_api_key : string;
  pm_model : string; pm_system_prompt : option string }.

#[export] Instance EncryptedModel_item `{JsonCodec EncryptedModel} : Catalogable EncryptedModel := {|
  KIND := "/marie/catalog/models"; item_id := em_id; to_vec := encode;
  from_slice := decode; from_to_vec := decode_encode |}.

(** [CreateModel::OpenAICompatible] *)
Record CreateModel := CreateOpenAICompatible {
  cm_id : ModelId; cm_base_url : string; cm_client_id : string; cm_api_key : string;
  cm_model : string; cm_system_prompt : option string }.

Inductive ModelChange :=
  | SetBaseUrl (value : string)
  | SetClientId (value : string)
  | SetApiKey (value : string)
  | SetModel (value : string)
  | SetSystemPrompt (value : string).

Record ModelChangeset := mkChangeset { mc_id : string; mc_changes : list ModelChange }.

Record ModelRef := mkModelRef { model_ref : CatalogItemRef }.

Inductive ModelError :=
  | MVaultError (e : VaultError)
  | MCatalogError (e : CatalogError)
  | MOpenAIError (msg : string).

Definition MODEL_SECRETS : string := "/marie/secrets/models".

(** ** The stream of a provider *)

Record ModelUsage := mkUsage {
  input_tokens : Z; cached_tokens : Z; output_tokens : Z; reasoning_tokens : Z; total_tokens : Z;
  payer : option string }.

Record ModelResponse := mkModelResponse {
  mr_text : option string; mr_tool_calls : list RequestToolCall; mr_usage : option ModelUsage }.

Inductive ModelStreamEvent :=
  | TextDelta (text : string)
  | StreamCompleted (r : ModelResponse)
  | StreamFailed (msg : string).

(** What the code reads of the provider's items, usage and responses. *)
Inductive OutputItem := FunctionCall (name arguments : string) | OtherItem.
Record ResponseUsage := mkResponseUsage {
  ru_input : Z; ru_cached : Z; ru_output : Z; ru_reasoning : Z; ru_total : Z }.
Record Response := mkResponse {
  output_text : option string; output : list OutputItem; usage : option ResponseUsage;
  billing_payer : option string }.

(** The items of the provider's stream, in the code's order of cases. *)
Inductive ProviderEvent :=
  | ResponseOutputTextDelta (delta : string)
  | ResponseCompleted (response : Response)
  | ResponseFailed (error : option string)
  | ResponseError (message : string)
  | TransportError (text : string)
  | OtherEvent.

Record ProviderRequest := mkRequest {
  pr_base : string; pr_api_key : string; pr_org : string; pr_model : string; pr_input : string;
  pr_tools : list (string * string * Value); pr_instructions : option string }.

Class Provider := {
  create_stream : ProviderRequest → string + list ProviderEvent;
  json_from_str : string → option Value
}.

Section stream.
Context `{Provider}.

Definition final_response (events : list ProviderEvent) : option Response :=
  foldl (λ r e, match e with ResponseCompleted x => Some x | _ => r end) None events.

Definition failure (events : list ProviderEvent) : option string :=
  foldl (λ f e, match e with
                | ResponseFailed error => Some (default "failed response" error)
                | ResponseError msg | TransportError msg => Some msg
                | _ => f end) None events.

Definition text_delta (e : ProviderEvent) : option string :=
  match e with ResponseOutputTextDelta d => Some d | _ => None end.

Definition tool_call (i : OutputItem) : option RequestToolCall :=
  match i with
  | FunctionCall name arguments => Some (mkRequestToolCall name (default Null (json_from_str arguments)))
  | OtherItem => None
  end.

Definition model_response (r : Response) : ModelResponse :=
  mkModelResponse (output_text r) (omap tool_call (output r))
    ((λ u, mkUsage (ru_input u) (ru_cached u) (ru_output u) (ru_reasoning u) (ru_total u)
             (billing_payer r)) <$> usage r).

(** The end of the stream: the last failure, whatever else came, before the
    last response. *)
Definition outcome (events : list ProviderEvent) : ModelStreamEvent :=
  match failure events, final_response events with
  | Some msg, _ => StreamFailed msg
  | None, Some r => StreamCompleted (model_response r)
  | None, None => StreamFailed "the stream ended without a response"
  end.

(** [async_stream::stream!]: a delta is yielded when it arrives. *)
Definition relay (events : list ProviderEvent) : list ModelStreamEvent :=
  (TextDelta <$> omap text_delta events) ++ [outcome events].

Definition execute_model (m : Model) (tools : list Tool) (input : string) :
    string + list ModelStreamEvent :=
  let request := mkRequest (pm_base_url m) (pm_api_key m) (pm_client_id m) (pm_model m) input
    ((λ t, (tool_name t, tool_description t, parameters_schema t)) <$> tools) (pm_system_prompt m) in
  match create_stream request with
  | inl error => inl error
  | inr events => inr (relay events)
  end.
End stream.

(** ** The service *)

Section models.
Context {SS CS : Type} `{StoreSecret SS} `{StoreCatalog CS} `{Ciphers} `{Xoshiro}
  `{JsonCodec EncryptedModel} `{Provider}.

Record Models := mkModels { ms_vault : Vault SS; ms_catalog : CS }.

Notation MM := (M Models ModelError).

Definition on_vault {A} (m : M (Vault SS) VaultError A) : MM A :=
  m_map_err MVaultError (zoom ms_vault (λ v s, mkModels v (ms_catalog s)) m).
Definition on_models_catalog {A} (m : M CS CatalogError A) : MM A :=
  m_map_err MCatalogError (zoom ms_catalog (λ c s, mkModels (ms_vault s) c) m).

(** [EncryptedModel::decrypt] *)
Definition model_decrypt (m : EncryptedModel) : M (Vault SS) VaultError Model :=
  api_key ← get_decrypted_str (em_api_key m) MODEL_SECRETS;
  mret (PlainModel (em_id m) (em_base_url m) (em_client_id m) api_key (em_model m) (em_system_prompt m)).

Definition models_insert (c : CreateModel) : MM ModelRef :=
  api_key ← on_vault (vault_store MODEL_SECRETS (as_bytes (cm_api_key c)));
  r ← on_models_catalog (publish (OpenAICompatible (cm_id c) (cm_base_url c) (cm_client_id c) api_key
                                    (cm_model c) (cm_system_prompt c)));
  mret (mkModelRef r).

(** The effect of one change on the declaration ... *)
Definition set_field (m : EncryptedModel) (c : ModelChange) : EncryptedModel :=
  let 'OpenAICompatible i url client key name prompt := m in
  match c with
  | SetBaseUrl v => OpenAICompatible i v client key name prompt
  | SetClientId v => OpenAICompatible i url v key name prompt
  | SetApiKey _ => m
  | SetModel v => OpenAICompatible i url client key v prompt
  | SetSystemPrompt v => OpenAICompatible i url client key name (Some v)
  end.

(** ... and on the vault. *)
Fixpoint apply_changes (m : EncryptedModel) (l : list ModelChange) : MM EncryptedModel :=
  match l with
  | [] => mret m
  | c :: l =>
      _ ← match c with
          | SetApiKey v => on_vault (vault_update (em_api_key m) MODEL_SECRETS (as_bytes v))
          | _ => mret ()
          end;
      apply_changes (set_field m c) l
  end.

Definition models_change (changeset : ModelChangeset) : MM ModelRef :=
  item ← on_models_catalog (latest (C:=EncryptedModel) (mc_id changeset));
  updated ← apply_changes item (mc_changes changeset);
  r ← on_models_catalog (publish updated);
  mret (mkModelRef r).

Definition models_delete (i : ModelId) : MM () :=
  r ← on_models_catalog (latest_ref (C:=EncryptedModel) i);
  item ← on_models_catalog (deref (C:=EncryptedModel) r);
  _ ← on_vault (vault_remove (em_api_key item));
  on_models_catalog (catalog_delete r).

Definition models_latest (i : ModelId) : MM (option ModelRef) :=
  on_models_catalog (absent_ok mkModelRef (latest_ref (C:=EncryptedModel) i)).

Definition models_get (r : ModelRef) : MM (option ModelRef) :=
  on_models_catalog (absent_ok (λ _, r) (deref (C:=EncryptedModel) (model_ref r))).

Definition models_list : MM (list EncryptedModel) :=
  refs ← on_models_catalog (catalog_list (C:=EncryptedModel));
  on_models_catalog (mmap (deref (C:=EncryptedModel)) refs).

(** [Models::execute], up to the request. *)
Definition models_resolve (i : ModelId) : MM Model :=
  item ← on_models_catalog (latest (C:=EncryptedModel) i);
  on_vault (model_decrypt item).

Definition models_execute (i : ModelId) (context : Context) (tools : list Tool) :
    MM (list ModelStreamEvent) :=
  model ← models_resolve i;
  match execute_model model tools (context_to_string context) with
  | inl msg => throw (MOpenAIError msg)
  | inr events => mret events
  end.
End models.

Arguments Models SS CS {_}.

(** ** Lemmas *)

(** The last key of a change set. *)
Fixpoint last_api_key (l : list ModelChange) : option string :=
  match l with
  | [] => None
  | c :: l =>
      match last_api_key l, c with
      | Some v, _ => Some v
      | None, SetApiKey v => Some v
      | None, _ => None
      end
  end.

Section models_laws.
Context {SS CS : Type} `{StoreSecret SS} `{StoreCatalog CS} `{Ciphers} `{Xoshiro}
  `{JsonCodec EncryptedModel}.
Implicit Types s : Models SS CS.

Lemma on_vault_ok {A} (m : M (Vault SS) VaultError A) s a s' :
  on_vault m s = (Ok a, s') → m (ms_vault s) = (Ok a, ms_vault s') ∧ ms_catalog s' = ms_catalog s.
Proof.
  unfold on_vault, m_map_err, zoom. destruct (m (ms_vault s)) as [[b|e|] v]; simpl; by intros [= <- <-].
Qed.

Lemma on_models_catalog_ok {A} (m : M CS CatalogError A) s a s' :
  on_models_catalog m s = (Ok a, s') →
  m (ms_catalog s) = (Ok a, ms_catalog s') ∧ ms_vault s' = ms_vault s.
Proof.
  unfold on_models_catalog, m_map_err, zoom.
  destruct (m (ms_catalog s)) as [[b|e|] c]; simpl; by intros [= <- <-].
Qed.

Lemma set_field_key m c : em_api_key (set_field m c) = em_api_key m.
Proof. by destruct m, c. Qed.

Lemma set_fields_key m l : em_api_key (foldl set_field m l) = em_api_key m.
Proof. revert m. induction l as [|c l IH]; intros m; [done|]. simpl. by rewrite IH, set_field_key. Qed.

(** What the changes do to the vault: at most the key of the declaration. *)
Definition key_changed (i : SecretRef) (new : option string) (v v' : Vault SS) : Prop :=
  v_secrets v' = v_secrets v ∧
  (∀ j, j ≠ i → sec_view (v_store v') j = sec_view (v_store v) j) ∧
  match new with
  | None => sec_view (v_store v') i = sec_view (v_store v) i
  | Some k => is_Some (sec_view (v_store v) i) → ∃ key x,
      derive_key (current_epoch (v_secrets v)) (as_bytes MODEL_SECRETS) (v_secrets v) = Ok key ∧
      sealed key (as_bytes k) x ∧ sec_view (v_store v') i = Some x
  end.

Lemma key_changed_refl i v : key_changed i None v v.
Proof. done. Qed.

Lemma key_changed_update i k v v' :
  vault_update i MODEL_SECRETS (as_bytes k) v = (Ok (), v') → key_changed i (Some k) v v'.
Proof.
  intros (Hs&(key&x&Hk&Hx&Hv)&Ho)%vault_update_ok. split_and!; [done..|].
  intros Hi. exists key, x. auto.
Qed.

Lemma key_changed_trans i k k' v1 v2 v3 :
  key_changed i k v1 v2 → key_changed i k' v2 v3 →
  key_changed i (match k' with Some _ => k' | None => k end) v1 v3.
Proof.
  intros (Hs&Ho&Hk) (Hs'&Ho'&Hk').
  split_and!; [congruence|intros j Hj; by rewrite Ho', Ho|].
  destruct k' as [k'|]; [|destruct k; [by rewrite Hk'|congruence]].
  rewrite <- Hs. intros Hi. apply Hk'.
  destruct k; [by destruct (Hk Hi) as (?&?&_&_&->); eexists|by rewrite Hk].
Qed.

Lemma apply_changes_ok m l s m' s' :
  apply_changes m l s = (Ok m', s') →
  m' = foldl set_field m l ∧ ms_catalog s' = ms_catalog s ∧
  key_changed (em_api_key m) (last_api_key l) (ms_vault s) (ms_vault s').
Proof.
  revert m s. induction l as [|c l IH]; intros m s.
  { intros [= <- <-]. split_and!; [done..|apply key_changed_refl]. }
  intros ([]&s1&Hc&(Hm&Hcat&Hk)%IH)%m_bind_ok. rewrite set_field_key in Hk.
  assert (ms_catalog s1 = ms_catalog s ∧
    key_changed (em_api_key m) (match c with SetApiKey v => Some v | _ => None end)
      (ms_vault s) (ms_vault s1)) as [Hc1 Hk1].
  { destruct c; try (by injection Hc as <-). apply on_vault_ok in Hc as [Hu Hc].
    split; [done|]. by apply key_changed_update. }
  split_and!; [done|congruence|]. pose proof (key_changed_trans _ _ _ _ _ _ Hk1 Hk) as Ht.
  simpl. by destruct (last_api_key l), c.
Qed.

Lemma model_decrypt_sealed m v key k x :
  derive_key DEFAULT_EPOCH (as_bytes MODEL_SECRETS) (v_secrets v) = Ok key →
  sealed key (as_bytes k) x → sec_view (v_store v) (em_api_key m) = Some x →
  utf8_valid (as_bytes k) = true → answers v (em_api_key m) →
  run_res (model_decrypt m) v =
    Ok (PlainModel (em_id m) (em_base_url m) (em_client_id m) k (em_model m) (em_system_prompt m)).
Proof.
  intros Hk (He&Hl&Hx) Hv Hu Ha.
  pose proof (get_decrypted_eq (em_api_key m) MODEL_SECRETS v Ha) as Hg.
  rewrite Hv, He, Hk in Hg. simpl in Hg. rewrite (key_decrypt_sealed key (as_bytes k)) in Hg by done.
  unfold model_decrypt, get_decrypted_str, run_res, mbind, m_bind in *. unfold mbind, m_bind in Hg.
  destruct (get_decrypted (em_api_key m) MODEL_SECRETS v) as [r v1]. simpl in Hg. subst r.
  by rewrite (from_utf8_as_bytes k Hu).
Qed.
End models_laws.

Section models_in_memory.
Context `{Ciphers} `{HashIter} `{JsonCodec EncryptedModel}.
Implicit Types s : Models (gmap SecretRef StoredSecret) (gmap (string * string) (list StoredItem)).

Lemma models_latest_in_memory i s :
  run_res (models_latest i) s =
  Ok ((λ n, mkModelRef (mkRef KIND i (Z.of_nat n))) <$>
        last_active (InMemory.view (ms_catalog s) (KIND, i))).
Proof.
  unfold models_latest, run_res, on_models_catalog, m_map_err, zoom, absent_ok.
  rewrite latest_ref_in_memory. by destruct (last_active _).
Qed.

Lemma models_get_in_memory r s :
  run_res (models_get r) s =
  match visible (InMemory.view (ms_catalog s) (ref_kind (model_ref r), ref_id (model_ref r)))
          (ref_version (model_ref r)) with
  | None => Ok None
  | Some d => match decode (C:=EncryptedModel) d with
              | Some _ => Ok (Some r)
              | None => Err (MCatalogError CDeserialize)
              end
  end.
Proof.
  unfold models_get, run_res, on_models_catalog, m_map_err, zoom, absent_ok.
  rewrite deref_in_memory. destruct (visible _ _) as [d|]; [|done]. simpl. by destruct (decode d).
Qed.
End models_in_memory.

(** ** Properties *)

(** A model that is created while epoch 0 is current is what its
    identifier resolves to, key included; creation returns the reference of
    the version that is then the latest and readable. *)
Theorem models_insert_roundtrip `{Ciphers} `{Xoshiro} `{HashIter} `{JsonCodec EncryptedModel}
    (s s' : Models (gmap SecretRef StoredSecret) (gmap (string * string) (list StoredItem)))
    (c : CreateModel) (r : ModelRef) :
  current_epoch (v_secrets (ms_vault s)) = DEFAULT_EPOCH → utf8_valid (as_bytes (cm_api_key c)) = true →
  models_insert c s = (Ok r, s') →
  run_res (models_resolve (cm_id c)) s' =
    Ok (PlainModel (cm_id c) (cm_base_url c) (cm_client_id c) (cm_api_key c) (cm_model c)
          (cm_system_prompt c)) ∧
  run_res (models_latest (cm_id c)) s' = Ok (Some r) ∧ run_res (models_get r) s' = Ok (Some r).
Proof.
  intros Hc Hu (i&s1&[Hst Hcat]%on_vault_ok&(ref&s2&[Hp Hv]%on_models_catalog_ok&Hr)%m_bind_ok)%m_bind_ok.
  injection Hr as <- <-. apply vault_store_ok in Hst as (Hse&(key&x&Hk&Hx&Hview)&_).
  apply publish_ok in Hp as (->&Hpub&_). simpl in *.
  set (m := OpenAICompatible (cm_id c) _ _ _ _ _) in *. rewrite <- Hv in *.
  pose proof (latest_snoc_in_memory (cm_id c) (ms_catalog s2) _ m Hpub) as Hl.
  split_and!.
  - unfold models_resolve, run_res, on_models_catalog, on_vault, m_map_err, zoom, mbind, m_bind.
    rewrite Hl. simpl.
    pose proof (model_decrypt_sealed m (ms_vault s2) key (cm_api_key c) x) as Hd.
    rewrite Hse, <- Hc in Hd. specialize (Hd Hk Hx Hview Hu ltac:(by do 2 eexists)).
    unfold run_res in Hd. destruct (model_decrypt m (ms_vault s2)) as [a v]. simpl in *. by subst a.
  - rewrite models_latest_in_memory. simpl. by rewrite Hpub, last_active_snoc.
  - rewrite models_get_in_memory. simpl.
    unfold visible. rewrite Hpub, Nat2Z.id, lookup_app_r, Nat.sub_diag by lia. simpl.
    by rewrite decode_encode.
Qed.

(** A change set publishes, as a new version, the latest declaration with
    each field set to its last given value and with the reference to its key
    unchanged; a new key replaces the content of that reference.  When epoch 0
    is current the key so replaced is the one that every declaration with this
    reference decrypts to from then on, the versions published before it
    included; no other secret changes. *)
Theorem models_change_spec {SS CS : Type} `{StoreSecret SS} `{StoreCatalog CS} `{Ciphers} `{Xoshiro}
    `{JsonCodec EncryptedModel} (s s' : Models SS CS) (changes : ModelChangeset) (r : ModelRef) :
  models_change changes s = (Ok r, s') →
  ∃ m, run_res (latest (mc_id changes)) (ms_catalog s) = Ok m ∧
    let updated := foldl set_field m (mc_changes changes) in
    let versions := cat_view (ms_catalog s) (KIND, em_id updated) in
    em_api_key updated = em_api_key m ∧
    r = mkModelRef (mkRef KIND (em_id updated) (Z.of_nat (length versions))) ∧
    cat_view (ms_catalog s') (KIND, em_id updated) = versions ++ [mkStored (to_vec updated) false false] ∧
    key_changed (em_api_key m) (last_api_key (mc_changes changes)) (ms_vault s) (ms_vault s') ∧
    ∀ k m0, last_api_key (mc_changes changes) = Some k → utf8_valid (as_bytes k) = true →
      current_epoch (v_secrets (ms_vault s)) = DEFAULT_EPOCH →
      is_Some (sec_view (v_store (ms_vault s)) (em_api_key m)) →
      em_api_key m0 = em_api_key m → answers (ms_vault s') (em_api_key m) →
      run_res (model_decrypt m0) (ms_vault s') =
        Ok (PlainModel (em_id m0) (em_base_url m0) (em_client_id m0) k (em_model m0) (em_system_prompt m0)).
Proof.
  intros (m&s1&[Hl Hv1]%on_models_catalog_ok&(u&s2&(->&Hcat&Hkey)%apply_changes_ok&Hp)%m_bind_ok)%m_bind_ok.
  apply m_bind_ok in Hp as (ref&s3&[(->&Hp&_)%publish_ok Hv3]%on_models_catalog_ok&Hr).
  injection Hr as <- <-. exists m. split; [unfold run_res; by rewrite Hl|].
  assert (∀ k, cat_view (ms_catalog s1) k = cat_view (ms_catalog s) k) as Hsame.
  { unfold latest in Hl. apply m_bind_ok in Hl as (rf&c1&[_ Hr1]%latest_ref_ok&[_ Hr2]%deref_ok).
    intros k. by rewrite Hr2, Hr1. }
  simpl in *. rewrite Hcat, Hsame in *. rewrite Hv1 in Hkey. rewrite Hv3.
  split_and!; [apply set_fields_key|done..|].
  intros k m0 Hlast Hu Hc Hi Hm0 Ha. rewrite Hlast in Hkey. destruct Hkey as (Hse&_&Hk).
  destruct (Hk Hi) as (key&x&Hd&Hx&Hview). rewrite Hc in Hd. rewrite <- Hm0 in Ha, Hview.
  eapply model_decrypt_sealed; [|done..]. by rewrite Hse.
Qed.

(** Deleting a model removes the key it refers to, then hides every
    version of its declaration: neither the identifier nor any earlier
    reference resolves afterwards, and no other model or secret changes.  An
    unknown identifier is an error that changes nothing. *)
Theorem models_delete_spec `{Ciphers} `{Xoshiro} `{HashIter} `{JsonCodec EncryptedModel}
    (s : Models (gmap SecretRef StoredSecret) (gmap (string * string) (list StoredItem))) (i : ModelId) :
  match models_delete i s with
  | (Ok (), s') => ∃ m, run_res (latest i) (ms_catalog s) = Ok m ∧
      v_store (ms_vault s') = base.delete (em_api_key m) (v_store (ms_vault s)) ∧
      v_secrets (ms_vault s') = v_secrets (ms_vault s) ∧
      run_res (models_latest i) s' = Ok None ∧
      (∀ v, run_res (models_get (mkModelRef (mkRef KIND i v))) s' = Ok None) ∧
      ∀ k, k ≠ (KIND, i) → InMemory.view (ms_catalog s') k = InMemory.view (ms_catalog s) k
  | (Err e, s') => s' = s ∧ ∃ e', e = MCatalogError e' ∧ run_res (latest (C:=EncryptedModel) i) (ms_catalog s) = Err e'
  | (Panic, _) => False
  end.
Proof.
  pose proof (latest_in_memory (C:=EncryptedModel) i (ms_catalog s)) as Hl.
  unfold models_delete, on_models_catalog, on_vault, m_map_err, zoom, mbind, m_bind.
  rewrite latest_ref_in_memory. destruct s as [v c]. unfold run_res. simpl in *.
  destruct (last_active _) as [n|] eqn:Hn; simpl in *; [|by rewrite Hl; split; [|eexists]].
  rewrite deref_in_memory in Hl |- *. simpl in *.
  destruct (visible _ _) as [d|]; simpl in *; [|by rewrite Hl; split; [|eexists]].
  destruct (decode d) as [m|] eqn:Hd; simpl in *; [|by rewrite Hl; split; [|eexists]].
  exists m. rewrite Hl. split_and!; [done..| | |].
  - etrans; [apply models_latest_in_memory|]. cbn [ms_catalog].
    rewrite (InMemory.view_alter delete_item), last_active_None; [done|].
    intros []. unfold active. simpl. apply andb_false_r.
  - intros v'. etrans; [apply models_get_in_memory|]. cbn [ms_catalog model_ref ref_kind ref_id ref_version].
    by rewrite (InMemory.view_alter delete_item), visible_delete.
  - intros k Hk. by apply InMemory.view_alter_ne.
Qed.

(** A stream relays every fragment of text in order, then ends with
    exactly one outcome, whatever the provider sent: the last failure if there
    was any, even after a completed response, and otherwise the last
    response; a stream with neither is a failure. *)
Theorem relay_spec `{Provider} (events : list ProviderEvent) :
  ∃ last, relay events = (TextDelta <$> omap text_delta events) ++ [last] ∧
    match last with
    | TextDelta _ => False
    | StreamFailed msg =>
        failure events = Some msg ∨ failure events = None ∧ final_response events = None
    | StreamCompleted r =>
        failure events = None ∧ ∃ r', ResponseCompleted r' ∈ events ∧ r = model_response r'
    end ∧
    (failure events = None ↔ ∀ e, e ∈ events →
       match e with ResponseFailed _ | ResponseError _ | TransportError _ => False | _ => True end).
Proof.
  exists (outcome events). split; [done|].
  assert (∀ l f, foldl (λ f e, match e with
      | ResponseFailed error => Some (default "failed response" error)
      | ResponseError msg | TransportError msg => Some msg | _ => f end) f l = None ↔
    f = None ∧ ∀ e, e ∈ l →
      match e with ResponseFailed _ | ResponseError _ | TransportError _ => False | _ => True end) as Hf.
  { clear. induction l as [|e l IH]; intros f; simpl.
    - split; [intros ->; split; [done|]; intros e He; by apply not_elem_of_nil in He|by intros [-> _]].
    - rewrite IH. setoid_rewrite elem_of_cons. destruct e; naive_solver. }
  assert (∀ l r, foldl (λ r e, match e with ResponseCompleted x => Some x | _ => r end) r l = r ∨
    ∃ x, ResponseCompleted x ∈ l ∧
      foldl (λ r e, match e with ResponseCompleted x => Some x | _ => r end) r l = Some x) as Hr.
  { clear. induction l as [|e l IH]; intros r; simpl; [by left|].
    destruct (IH (match e with ResponseCompleted x => Some x | _ => r end)) as [->|(x&Hx&->)].
    - destruct e; [by left|right; eexists; split; [apply elem_of_cons; by left|done]|by left..].
    - right. exists x. split; [by apply elem_of_cons; right|done]. }
  split.
  - unfold outcome. destruct (failure events) as [msg|] eqn:E; [by left|].
    destruct (Hr events None) as [Hn|(x&Hx&Hs)]; unfold final_response; [rewrite Hn; by right|].
    rewrite Hs. split; [done|]. by exists x.
  - unfold failure. rewrite Hf. naive_solver.
Qed.

(** ** Witnesses *)

Definition model_tuple (m : EncryptedModel) :=
  (em_id m, em_base_url m, em_client_id m, em_api_key m, em_model m, em_system_prompt m).
Global Instance EncryptedModel_eq_dec : EqDecision EncryptedModel. Proof. solve_decision. Defined.
Global Instance EncryptedModel_countable : Countable EncryptedModel.
Proof.
  refine (inj_countable' model_tuple
    (λ '(i, url, client, key, name, prompt), OpenAICompatible i url client key name prompt) _).
  by intros [].
Defined.

(** A codec that numbers the declarations. *)
Definition numbered_models : JsonCodec EncryptedModel := numbered.

Definition demo_create : CreateModel := CreateOpenAICompatible "m" "url" "org" "hi" "gpt" None.
Definition demo_declared : EncryptedModel := OpenAICompatible "m" "url" "org" demo_ref "gpt" None.
Definition demo_catalog (l : list EncryptedModel) : gmap (string * string) (list StoredItem) :=
  {[ ("/marie/catalog/models", "m") :=
       (λ m, mkStored [Zpos (countable.encode m)] false false) <$> l ]}.
(** A vault whose key [demo_ref] holds [text], sealed with nonce [n]. *)
Definition demo_key_store (text : string) (n : Z) : gmap SecretRef StoredSecret :=
  {[ demo_ref := mkStoredSecret demo_ref 0
       ((take 32 (demo_key 1 ++ as_bytes MODEL_SECRETS ++ replicate 32 0%Z) ++ replicate 12 n) ++ as_bytes text)
       (replicate 12 n) "ChaCha20-Poly1305" ]}.
Notation demo_models store rng catalog :=
  (@mkModels (gmap SecretRef StoredSecret) (gmap (string * string) (list StoredItem)) toy_ciphers
     (@mkVault _ toy_ciphers demo_manager store rng []) catalog) (only parsing).

Lemma models_insert_roundtrip_witness :
  run_res (@models_resolve _ _ InMemorySecretStore.secret_store (@InMemory.store canonical_iter)
    toy_ciphers numbered_models "m") (demo_models (demo_key_store "hi" 5) 6%Z (demo_catalog [demo_declared]))
  = Ok (PlainModel "m" "url" "org" "hi" "gpt" None).
Proof.
  refine (proj1 (@models_insert_roundtrip toy_ciphers counter_rng canonical_iter numbered_models
    (demo_models ∅ 5%Z ∅) (demo_models (demo_key_store "hi" 5) 6%Z (demo_catalog [demo_declared])) demo_create (mkModelRef (mkRef "/marie/catalog/models" "m" 0)) _ _ _)).
  - reflexivity.
  - vm_compute. reflexivity.
  - vm_cast_no_check (eq_refl (@Ok ModelError _ (mkModelRef (mkRef "/marie/catalog/models" "m" 0)),
      demo_models (demo_key_store "hi" 5) 6%Z (demo_catalog [demo_declared]))).
Defined.

Lemma models_change_spec_witness :
  run_res (@model_decrypt _ InMemorySecretStore.secret_store toy_ciphers demo_declared)
    (@mkVault _ toy_ciphers demo_manager (demo_key_store "new" 7) 8%Z [])
  = Ok (PlainModel "m" "url" "org" "new" "gpt" None).
Proof.
  destruct (@models_change_spec _ _ InMemorySecretStore.secret_store (@InMemory.store canonical_iter)
    toy_ciphers counter_rng numbered_models
    (demo_models (demo_key_store "hi" 5) 6%Z (demo_catalog [demo_declared]))
    (demo_models (demo_key_store "new" 7) 8%Z
       (demo_catalog [demo_declared; OpenAICompatible "m" "url2" "org" demo_ref "gpt" None]))
    (mkChangeset "m" [SetApiKey "old"; SetBaseUrl "url2"; SetApiKey "new"])
    (mkModelRef (mkRef "/marie/catalog/models" "m" 1))) as (m&Hm&_&_&_&_&Hk).
  - vm_cast_no_check (eq_refl (@Ok ModelError _ (mkModelRef (mkRef "/marie/catalog/models" "m" 1)),
      demo_models (demo_key_store "new" 7) 8%Z
       (demo_catalog [demo_declared; OpenAICompatible "m" "url2" "org" demo_ref "gpt" None]))).
  - vm_compute in Hm. injection Hm as <-.
    apply (Hk "new" demo_declared); [reflexivity..|by eexists|reflexivity|by do 2 eexists].
Defined.

Lemma relay_spec_example (p : Provider) :
  relay [ResponseOutputTextDelta "a"; ResponseCompleted (mkResponse (Some "ab") [] None None);
         ResponseOutputTextDelta "b"; ResponseError "late"]
  = [TextDelta "a"; TextDelta "b"; StreamFailed "late"].
Proof. reflexivity. Qed.
