(* ===== verification/RunFrame.v ===== *)
(** * Running a frame on a worker ([session/worker.rs], [tools/mod.rs],
    [graph/node.rs], [graph/mod.rs])

    The job that a worker executes for one frame: ask an expert, call a tool,
    or run a graph's node over its replay journal. *)

From S2P Require Import Prelude Ids Json Channels Types Spec RunLog Catalog Domains Frames Wire Errors Tree Snapshots Sessions Hitl Checkpointer Secrets Models.

(** ** Executors

    A registered native tool or node is a closure of the process, which may
    panic; the text of its error is what is kept of it. *)

Definition ToolExecutor : Type := SessionId → Value → Res string Value.

(** [NodeContext] *)
Record NodeContext := mkNodeContext {
  nc_session_id : SessionId; nc_frame_id : FrameId; nc_channels : ChannelsTracker; nc_logs : RunLogs }.

Definition node_write (ctx : NodeContext) (name : ChannelName) (v : Value) : NodeContext :=
  mkNodeContext (nc_session_id ctx) (nc_frame_id ctx) (tracker_write (nc_channels ctx) name v) (nc_logs ctx).
Definition node_read {V} (from_value : Value → option V) (ctx : NodeContext) (name : ChannelName) :
    Res ChannelError V := tracker_read from_value (nc_channels ctx) name.

Definition NodeExecutor : Type := NodeContext → Res string (NodeContext * FrameResult).

(** [Tools::execute], [Graphs::execute]: an unknown kind is an error. *)
Definition tools_execute (executors : gmap string ToolExecutor) (s : SessionId) (i : ToolId)
    (args : Value) : Res string Value :=
  match executors !! i with
  | None => Err ("no executor for the tool " +:+ i)
  | Some f => f s args
  end.

Definition graphs_execute (executors : gmap string NodeExecutor) (spec : NodeSpec) (ctx : NodeContext) :
    Res string (NodeContext * FrameResult) :=
  match executors !! ns_kind spec with
  | None => Err ("no executor for the node " +:+ ns_kind spec)
  | Some f => f ctx
  end.

(** ** The job *)

(** What the job uses of the catalogues, the executors and the models; errors
    are their text. *)
Record Services := mkServices {
  sv_expert : ExpertId → string + option Expert;
  sv_tool : ToolId → string + option Tool;
  sv_graph : GraphRef → string + GraphSpec;
  sv_tool_executors : gmap string ToolExecutor;
  sv_node_executors : gmap string NodeExecutor;
  sv_model : ModelId → list ContextEntry → list Tool → string + list ModelStreamEvent
}.

Definition as_str (v : Value) : option string := match v with Str s => Some s | _ => None end.

Definition failed_response (f : FrameId) (updates : list ChannelUpdate) (msg : string) : FrameResponse :=
  mkFrameResponse f updates [] (FFailed msg).

(** What the code says of something that is missing; of a node, it also shows the
    graph in debug form. *)
Definition tool_missing (i : ToolId) (expert : ExpertId) : string := "tool " +:+ i +:+ " introuvable pour l'expert " +:+ expert.
Definition expert_missing (i : ExpertId) : string := "expert " +:+ i +:+ " introuvable".
Definition node_missing (i : GraphNodeId) : string := "nœud " +:+ i +:+ " introuvable".

(** The tools an expert may call, or the response that fails. *)
Fixpoint resolve_tools (sv : Services) (f : FrameId) (expert : ExpertId) (l : list ToolId) :
    FrameResponse + list Tool :=
  match l with
  | [] => inr []
  | i :: l =>
      match sv_tool sv i with
      | inl error => inl (failed_response f [] error)
      | inr None => inl (failed_response f [] (tool_missing i expert))
      | inr (Some t) =>
          match resolve_tools sv f expert l with
          | inl r => inl r
          | inr ts => inr (t :: ts)
          end
      end
  end.

Definition stream_answer (events : list ModelStreamEvent) : option string :=
  foldl (λ a e, match e with StreamCompleted r => mr_text r | _ => a end) None events.
Definition stream_failure (events : list ModelStreamEvent) : option string :=
  foldl (λ a e, match e with StreamFailed m => Some m | _ => a end) None events.

Definition answer_json (a : option string) : Value :=
  match a with Some s => Str s | None => Null end.

(** The branch of an expert's consultation. *)
Definition run_expert (sv : Services) (f : FrameId) (t : ChannelsTracker) : Res ChannelError FrameResponse :=
  expert_id ← tracker_read as_str t "expert_id";
  task ← tracker_read as_str t "expert_consultation_task";
  match sv_expert sv expert_id with
  | inl error => Ok (failed_response f [] error)
  | inr None => Ok (failed_response f [] (expert_missing expert_id))
  | inr (Some expert) =>
      match resolve_tools sv f expert_id (ex_allowed_tools expert) with
      | inl r => Ok r
      | inr tools =>
          match sv_model sv (ex_model_id expert)
                  [mkEntry RoleSystem (ex_prompt expert); mkEntry RoleUser task] tools with
          | inl error => Ok (failed_response f [] error)
          | inr events =>
              match stream_failure events with
              | Some error => Ok (failed_response f (into_updates t) error)
              | None =>
                  let t := tracker_write t "expert_consultation_answer" (answer_json (stream_answer events)) in
                  Ok (mkFrameResponse f (into_updates t) [] FCompleted)
              end
          end
      end
  end.

Definition run_tool (sv : Services) (a : RunFrameArgs) (name : ToolId) (parameters : Value) : Res ChannelError FrameResponse :=
  match tools_execute (sv_tool_executors sv) (rf_session_id a) name parameters with
  | Ok v => Ok (mkFrameResponse (rf_frame_id a) [mkChannelUpdate "tool_result" v (rf_frame_id a)] [] FCompleted)
  | Err error => Ok (failed_response (rf_frame_id a) [] error)
  | Panic => Panic
  end.

Definition run_node (sv : Services) (a : RunFrameArgs) (t : ChannelsTracker) (g : GraphRef)
    (node_id : GraphNodeId) : Res ChannelError FrameResponse :=
  match sv_graph sv g with
  | inl error => Ok (failed_response (rf_frame_id a) [] error)
  | inr graph =>
      match gs_nodes graph !! node_id with
      | None => Ok (failed_response (rf_frame_id a) [] (node_missing node_id))
      | Some spec =>
          let ctx := mkNodeContext (rf_session_id a) (rf_frame_id a) t (run_logs_new (rf_logs a)) in
          match graphs_execute (sv_node_executors sv) spec ctx with
          | Ok (ctx, result) =>
              Ok (mkFrameResponse (rf_frame_id a) (into_updates (nc_channels ctx))
                (into_new_logs (nc_logs ctx)) result)
          | Err error => Ok (failed_response (rf_frame_id a) [] error)
          | Panic => Panic
          end
      end
  end.

(** [run_frame]; the other kinds of frame are [todo!()]. *)
Definition run_frame_job (sv : Services) (a : RunFrameArgs) : Res ChannelError FrameResponse :=
  let t := tracker_new (rf_frame_id a) (rf_channels a) in
  match rf_data a with
  | KExpertConsultation => run_expert sv (rf_frame_id a) t
  | KToolCall _ name parameters => run_tool sv a name parameters
  | KGraphNode g node_id => run_node sv a t g node_id
  | _ => Panic
  end.

(** ** Properties *)

(** A frame of a kind the job does not know. *)
Definition structural (k : FrameKind) : bool :=
  match k with KExpertConsultation | KToolCall _ _ _ | KGraphNode _ _ => false | _ => true end.

Lemma resolve_tools_frame sv f e l r : resolve_tools sv f e l = inl r → fr_frame_id r = f.
Proof.
  induction l as [|i l IH]; simpl; [done|].
  destruct (sv_tool sv i) as [?|[t|]]; [by intros [= <-]| |by intros [= <-]].
  by destruct (resolve_tools sv f e l); intros; simplify_eq; apply IH.
Qed.

Lemma tracker_read_no_panic {V} (fv : Value → option V) t name : tracker_read fv t name ≠ Panic.
Proof.
  unfold tracker_read, read_value. destruct (snd <$> _) as [u|]; simpl.
  - by destruct (fv (cu_value u)).
  - destruct (channels_get _ _) as [v|]; simpl; [by destruct (fv v)|done].
Qed.

Lemma run_expert_frame sv f t :
  run_expert sv f t ≠ Panic ∧ ∀ r, run_expert sv f t = Ok r → fr_frame_id r = f.
Proof.
  unfold run_expert. pose proof (tracker_read_no_panic as_str t "expert_id").
  destruct (tracker_read as_str t "expert_id") as [e|?|]; [simpl|done|done].
  pose proof (tracker_read_no_panic as_str t "expert_consultation_task").
  destruct (tracker_read as_str t "expert_consultation_task") as [task|?|]; [simpl|done|done].
  destruct (sv_expert sv e) as [?|[ex|]]; [by split; [|intros r [= <-]]| |by split; [|intros r [= <-]]].
  destruct (resolve_tools _ _ _ _) as [r|ts] eqn:E.
  { split; [done|]. intros r' [= <-]. by eapply resolve_tools_frame. }
  destruct (sv_model _ _ _ _); [by split; [|intros r [= <-]]|].
  by destruct (stream_failure _); split; [done|intros r [= <-]|done|intros r [= <-]].
Qed.

(** No executor of the process panics. *)
Definition steady (sv : Services) : Prop :=
  (∀ i f s v, sv_tool_executors sv !! i = Some f → f s v ≠ Panic) ∧
  (∀ k f ctx, sv_node_executors sv !! k = Some f → f ctx ≠ Panic).

(** A job answers for its own frame whatever the services say; when no
    executor panics, it panics exactly for the kinds of frame it does not
    know. *)
Theorem run_frame_total (sv : Services) (a : RunFrameArgs) :
  (steady sv → run_frame_job sv a = Panic ↔ structural (rf_data a) = true) ∧
  ∀ r, run_frame_job sv a = Ok r → fr_frame_id r = rf_frame_id a.
Proof.
  unfold run_frame_job. destruct (rf_data a); try (by split; [|intros r ?]).
  - destruct (run_expert_frame sv (rf_frame_id a) (tracker_new (rf_frame_id a) (rf_channels a))) as [Hp Hr].
    by split; [split|].
  - unfold run_tool, tools_execute. destruct (sv_tool_executors sv !! name) as [f|] eqn:E;
      [|by split; [|intros r [= <-]]].
    destruct (f (rf_session_id a) parameters) as [v|err|] eqn:Ef; [by split; [|intros r [= <-]]..|].
    split; [|done]. intros [Ht _]. by destruct (Ht _ _ _ _ E Ef).
  - unfold run_node, graphs_execute. destruct (sv_graph sv g) as [|gr]; [by split; [|intros r [= <-]]|].
    destruct (gs_nodes gr !! node_id) as [spec|]; [|by split; [|intros r [= <-]]].
    destruct (sv_node_executors sv !! ns_kind spec) as [f|] eqn:E; [|by split; [|intros r [= <-]]].
    set (ctx := mkNodeContext _ _ _ _).
    destruct (f ctx) as [[ctx' res]|err|] eqn:Ef; [by split; [|intros r [= <-]]..|].
    split; [|done]. intros [_ Hn]. by destruct (Hn _ _ _ E Ef).
Qed.

(** The two channels that an expert's job reads. *)
Definition expert_inputs : list ChannelName := ["expert_id"; "expert_consultation_task"].

(** An expert's consultation cannot run from what the checkpointer gives
    it: its specification inherits neither of the channels its job reads, so a
    frame whose channels are those of the specification fails before the
    expert is looked up. *)
Theorem expert_cannot_start (sv : Services) (a : RunFrameArgs) (source : Channels) :
  rf_data a = KExpertConsultation →
  rf_channels a = channels_extend (default_values spec_expert)
    (select_channels (inherited_channels spec_expert) source) →
  run_frame_job sv a = Err (NoChannel "expert_id").
Proof.
  intros Hd Hc. assert (channels_get (rf_channels a) "expert_id" = None) as Hnone.
  { rewrite Hc. unfold channels_get. rewrite channels_extend_notin; [by vm_compute|].
    intros ([n v]&Hn&Hin)%list_elem_of_fmap. simpl in Hn. subst n.
    apply list_elem_of_omap in Hin as (m&Hm&Hv). unfold channels_get in Hv.
    destruct (source !! m); simplify_eq/=. revert Hm. apply (bool_decide_unpack (_ ∉ _)).
    vm_compute. exact I. }
  unfold run_frame_job. rewrite Hd. unfold run_expert.
  assert (tracker_read as_str (tracker_new (rf_frame_id a) (rf_channels a)) "expert_id" =
          Err (NoChannel "expert_id")) as ->; [|done].
  unfold tracker_read, read_value, tracker_new. cbn [t_updates t_channels]. by rewrite Hnone.
Qed.

Lemma stream_of_relay `{Provider} events :
  stream_failure (relay events) = match outcome events with StreamFailed msg => Some msg | _ => None end ∧
  stream_answer (relay events) = match outcome events with StreamCompleted r => mr_text r | _ => None end.
Proof.
  unfold stream_failure, stream_answer, relay. rewrite !foldl_app.
  assert (∀ l : list string,
    foldl (λ a e, match e with StreamFailed m => Some m | _ => a end) None (TextDelta <$> l) = None ∧
    foldl (λ a e, match e with StreamCompleted r => mr_text r | _ => a end) None (TextDelta <$> l) = None)
    as Hd by (intros l; by induction l).
  destruct (Hd (omap text_delta events)) as [-> ->]. by destruct (outcome events).
Qed.

(** C27: the consultation of a known expert over a provider's stream writes the
    text of the last response as the answer when the stream reports no failure
    and a response, and otherwise fails the frame with the reported failure,
    after everything the frame had written; the fragments of text streamed
    meanwhile are dropped. *)
Theorem expert_job_outcome `{Provider} (sv : Services) (f : FrameId) (t : ChannelsTracker)
    (expert_id task : string) (expert : Expert) (tools : list Tool) (events : list ProviderEvent) :
  tracker_read as_str t "expert_id" = Ok expert_id →
  tracker_read as_str t "expert_consultation_task" = Ok task →
  sv_expert sv expert_id = inr (Some expert) →
  resolve_tools sv f expert_id (ex_allowed_tools expert) = inr tools →
  sv_model sv (ex_model_id expert) [mkEntry RoleSystem (ex_prompt expert); mkEntry RoleUser task] tools
    = inr (relay events) →
  run_expert sv f t = Ok
    match failure events, final_response events with
    | None, Some r =>
        let t' := tracker_write t "expert_consultation_answer" (answer_json (output_text r)) in
        mkFrameResponse f (into_updates t') [] FCompleted
    | Some msg, _ => failed_response f (into_updates t) msg
    | None, None => failed_response f (into_updates t) "the stream ended without a response"
    end.
Proof.
  intros He Ht Hex Hts Hm. unfold run_expert. rewrite He. simpl. rewrite Ht. simpl.
  rewrite Hex, Hts, Hm. destruct (stream_of_relay events) as [-> ->]. unfold outcome.
  by destruct (failure events), (final_response events).
Qed.

Definition no_services : Services :=
  mkServices (λ _, inr None) (λ _, inr None) (λ _, inl "no graph") ∅ ∅ (λ _ _ _, inl "no model").

Lemma expert_cannot_start_witness :
  run_frame_job no_services (mkRunFrameArgs sid0 (fid 1)
    (channels_extend (default_values spec_expert)
       (select_channels (inherited_channels spec_expert) {["expert_id" := Str "e"]})) []
    KExpertConsultation) = Err (NoChannel "expert_id").
Proof. by apply (expert_cannot_start no_services _ {["expert_id" := Str "e"]}). Defined.

Definition silent_provider : Provider := {|
  create_stream := λ _, inr []; json_from_str := λ _, None |}.
Definition demo_expert : Expert := mkExpert "e" "be brief" "m" [].
Definition demo_events : list ProviderEvent :=
  [ResponseOutputTextDelta "4"; ResponseCompleted (mkResponse (Some "42") [] None None)].

Lemma expert_job_outcome_witness :
  run_expert (mkServices (λ _, inr (Some demo_expert)) (λ _, inr None) (λ _, inl "no graph") ∅ ∅
      (λ _ _ _, inr (@relay silent_provider demo_events))) (fid 1)
    (tracker_new (fid 1) {["expert_id" := Str "e"; "expert_consultation_task" := Str "6*7"]})
  = Ok (mkFrameResponse (fid 1)
      [mkChannelUpdate "expert_consultation_answer" (Str "42") (fid 1)] [] FCompleted).
Proof.
  etrans; [apply (@expert_job_outcome silent_provider _ _ _ "e" "6*7" demo_expert [] demo_events)|];
    reflexivity.
Defined.

(** A node that only waits through the macros, as an executor. *)
Definition body_executor (b : Body) : NodeExecutor := λ ctx,
  match run_body b (nc_logs ctx) with
  | (l, Ok r) => Ok (mkNodeContext (nc_session_id ctx) (nc_frame_id ctx) (nc_channels ctx) l, r)
  | (l, Err _) => Err "no body returns an error"
  | (l, Panic) => Panic
  end.

Lemma graphs_execute_some (executors : gmap string NodeExecutor) spec ctx f :
  executors !! ns_kind spec = Some f → graphs_execute executors spec ctx = f ctx.
Proof. unfold graphs_execute. by intros ->. Qed.

(** Re-running a graph node over a journal whose entries are answered
    picks up where the answers end: the response holds what the body does
    next, and at most the one new entry it then waits for. *)
Theorem node_job_replays (sv : Services) (a : RunFrameArgs) (g : GraphRef) (graph : GraphSpec)
    (node_id : GraphNodeId) (spec : NodeSpec) (b : Body) (vs : list Value) :
  rf_data a = KGraphNode g node_id → sv_graph sv g = inr graph →
  gs_nodes graph !! node_id = Some spec →
  sv_node_executors sv !! ns_kind spec = Some (body_executor b) →
  resolved_with (rf_logs a) vs → answers_fit b vs →
  let next := next_step (follow b vs) (length (rf_logs a)) in
  run_frame_job sv a = Ok (mkFrameResponse (rf_frame_id a) [] next.1 next.2).
Proof.
  intros Hd Hg Hn He Hvs Hfit next. unfold run_frame_job. rewrite Hd. unfold run_node.
  rewrite Hg, Hn, (graphs_execute_some _ _ _ _ He). unfold body_executor. cbn [nc_logs].
  destruct (run_body_from b vs (run_logs_new (rf_logs a))) as [c Hrun];
    [by rewrite drop_0|simpl; lia|done|].
  rewrite Hrun. unfold into_new_logs. simpl. by rewrite drop_app_length.
Qed.

Definition demo_ref : GraphRef := mkGraphRef (mkRef "/marie/catalog/graphs" "g" 0).
Definition demo_graph : GraphSpec :=
  add_node (graph_spec_new "g" "n" spec_default) "n" (mkNodeSpec "k" spec_default).
Definition demo_services : Services :=
  mkServices (λ _, inr None) (λ _, inr None) (λ _, inr demo_graph) ∅
    {["k" := body_executor two_questions]} (λ _ _ _, inl "no model").

Definition demo_args : RunFrameArgs := mkRunFrameArgs sid0 (fid 1) ∅
  [mkRunLog 0 (CallToolsLog [mkRequestToolCall "t" Null]) (Some (Array [Null]))]
  (KGraphNode demo_ref "n").

Lemma node_job_replays_witness :
  run_frame_job demo_services demo_args =
  Ok (mkFrameResponse (fid 1) [] [mkRunLog 1 (HitlLog Text) None] (FRequestHitl Text)).
Proof.
  rewrite (node_job_replays demo_services demo_args demo_ref demo_graph "n"
    (mkNodeSpec "k" spec_default) two_questions [Array [Null]]); try reflexivity.
  simpl. split; [lia|done].
Defined.
