(* ===== verification/Executors.v ===== *)
(** * Native tools and nodes and what executes them ([tools/executor.rs],
      [graph/executor.rs], [Tools::register], [Graphs::register], [Toolable], [Nodable])

    A tool or a node of the program is a definition in the registry of its domain
    and a closure in a registry of executors, which reads its arguments from JSON
    and writes what it returns as JSON. *)

From S2P Require Import Prelude Ids Json Channels Types Spec RunLog Catalog Domains Frames Wire Errors Tree Snapshots Sessions Hitl Checkpointer Secrets Models RunFrame.
Local Open Scope string_scope.

(** ** Tools *)

(** The texts of the errors of serde are those of the readers and writers. *)
Record ArgsJson (Args R : Type) := mkArgsJson {
  args_from_value : Value → Res string Args; return_to_value : R → Res string Value }.
Arguments mkArgsJson {Args R}. Arguments args_from_value {Args R}. Arguments return_to_value {Args R}.

(** The closure that [ToolExecutors::add] keeps. *)
Definition tool_wrapped {Args R} (j : ArgsJson Args R) (executor : SessionId → Args → Res string R) : ToolExecutor := λ s v,
  args ← map_err (λ e, "échec lors de l'amorçage de l'exécution de l'outil: " ++ e) (args_from_value j v);
  result ← map_err (λ e, "échec lors de l'exécution de l'outil: " ++ e) (executor s args);
  map_err (λ e, "échec lors de la serialization du retour de l'outil: " ++ e) (return_to_value j result).

Definition executors_add {X} (id : string) (x : X) (m : gmap string X) : gmap string X := <[id := x]> m.

(** [Tools] of a process that executes: its definitions, and its executors. *)
Record Registry (S N X : Type) := mkRegistry { reg_domain : Domain S N; reg_executors : gmap string X }.
Arguments mkRegistry {S N X}. Arguments reg_domain {S N X}. Arguments reg_executors {S N X}.

Section registries.
Context {S : Type} `{StoreCatalog S} `{JsonCodec Tool} `{JsonCodec GraphSpec}.

Definition tools_register_with {Args R} (j : ArgsJson Args R) (def : Tool) (executor : SessionId → Args → Res string R)
    (r : Registry S Tool ToolExecutor) : Registry S Tool ToolExecutor :=
  mkRegistry (run_state (tools_register def) (reg_domain r)) (executors_add (tool_name def) (tool_wrapped j executor) (reg_executors r)).

Definition registry_execute (s : SessionId) (id : ToolId) (args : Value) (r : Registry S Tool ToolExecutor) : Res string Value :=
  tools_execute (reg_executors r) s id args.

(** [Toolable]: a type of the program that is a tool; [schema] is that of its arguments. *)
Record Toolable (Args R : Type) := mkToolable {
  NAME : string; DESCRIPTION : string; schema : Value; tool_json : ArgsJson Args R; toolable_execute : Args → Res string R }.
Arguments NAME {Args R}. Arguments DESCRIPTION {Args R}. Arguments schema {Args R}. Arguments tool_json {Args R}.
Arguments toolable_execute {Args R}.
Definition definition {Args R} (t : Toolable Args R) : Tool := mkTool (NAME t) (DESCRIPTION t) (schema t) Native.
Definition toolable_register {Args R} (t : Toolable Args R) (r : Registry S Tool ToolExecutor) : Registry S Tool ToolExecutor :=
  tools_register_with (tool_json t) (definition t) (λ _ args, toolable_execute t args) r.

(** ** Nodes *)

Definition graphs_register_with (id : NodeKindId) (spec : CommonSpec) (executor : NodeExecutor)
    (r : Registry S CommonSpec NodeExecutor) : Registry S CommonSpec NodeExecutor :=
  mkRegistry (run_state (graphs_register id spec) (reg_domain r)) (executors_add id executor (reg_executors r)).

(** [Nodable]: the node changes a context that the closure gives back with what it returns. *)
Record Nodable := mkNodable {
  node_name : NodeKindId; node_common_spec : CommonSpec; node_execute : NodeContext → Res string FrameResult * NodeContext }.
Definition nodable_executor (n : Nodable) : NodeExecutor := λ ctx,
  let '(r, ctx) := node_execute n ctx in
  response ← r; Ok (ctx, response).
Definition nodable_register (n : Nodable) (r : Registry S CommonSpec NodeExecutor) : Registry S CommonSpec NodeExecutor :=
  graphs_register_with (node_name n) (node_common_spec n) (nodable_executor n) r.

(** ** Theorems *)

(** What the call of a tool gives to its frame. *)
Definition tool_answer {R} (f : FrameId) (enc : R → Res string Value) (r : Res string R) : Res ChannelError FrameResponse :=
  match r with
  | Panic => Panic
  | Err e => Ok (failed_response f [] ("échec lors de l'exécution de l'outil: " ++ e))
  | Ok x =>
      match enc x with
      | Ok v => Ok (mkFrameResponse f [mkChannelUpdate "tool_result" v f] [] FCompleted)
      | Err e => Ok (failed_response f [] ("échec lors de la serialization du retour de l'outil: " ++ e))
      | Panic => Panic
      end
  end.

(** A tool that the program registers is the one that its name finds, whatever
    the catalogue holds; a frame that calls it with the JSON of arguments runs it on
    these arguments, and ends with what it returns, or with its error; arguments that
    do not read fail the frame without running it; and the other tools are as before. *)
Theorem registered_tool_runs {Args R} (t : Toolable Args R) (r : Registry S Tool ToolExecutor) sv (a : RunFrameArgs) (v : Value) :
  let r' := toolable_register t r in
  let sv' := mkServices (sv_expert sv) (sv_tool sv) (sv_graph sv) (reg_executors r') (sv_node_executors sv) (sv_model sv) in
  run_res (tools_get (NAME t)) (reg_domain r') = Ok (Some (definition t)) ∧
  match args_from_value (tool_json t) v with
  | Ok args => run_tool sv' a (NAME t) v = tool_answer (rf_frame_id a) (return_to_value (tool_json t)) (toolable_execute t args)
  | Err e => run_tool sv' a (NAME t) v =
      Ok (failed_response (rf_frame_id a) [] ("échec lors de l'amorçage de l'exécution de l'outil: " ++ e))
  | Panic => run_tool sv' a (NAME t) v = Panic
  end ∧
  ∀ s id args, id ≠ NAME t → registry_execute s id args r' = registry_execute s id args r.
Proof.
  intros r' sv'. pose proof (tools_native_first (definition t) (reg_domain r)) as (Hget&_). split; [|split].
  - unfold run_res. unfold r', toolable_register, tools_register_with. cbn [reg_domain]. cbn [definition tool_name] in Hget. by rewrite Hget.
  - unfold run_tool, tools_execute, sv', r', toolable_register, tools_register_with, executors_add.
    cbn [sv_tool_executors reg_executors definition tool_name]. rewrite lookup_insert_eq. unfold tool_wrapped.
    destruct (args_from_value (tool_json t) v) as [args|e|]; [|done|done]. cbn [map_err mbind res_bind].
    unfold tool_answer. destruct (toolable_execute t args) as [x|e|]; [|done|done]. cbn [map_err mbind res_bind].
    by destruct (return_to_value (tool_json t) x).
  - intros s id args Hid. unfold registry_execute, tools_execute, r', toolable_register, tools_register_with, executors_add.
    cbn [reg_executors definition tool_name]. by rewrite lookup_insert_ne.
Qed.

(** Registered twice under one name, the last one is kept, for its definition and for
    its executor alike. *)
Theorem last_node_wins (n m : Nodable) (r : Registry S CommonSpec NodeExecutor) spec ctx :
  ns_kind spec = node_name m → node_name n = node_name m →
  let r' := nodable_register m (nodable_register n r) in
  graphs_execute (reg_executors r') spec ctx = nodable_executor m ctx ∧
  d_native (reg_domain r') !! node_name m = Some (node_common_spec m).
Proof.
  intros Hk E r'. unfold r', nodable_register, graphs_register_with, executors_add, graphs_execute, run_state, graphs_register, native_insert.
  cbn. rewrite Hk, !lookup_insert_eq. done.
Qed.
End registries.
