(* ===== verification/Builtin.v ===== *)
(** * Built-in nodes ([marie-core/src/graph/builtin.rs])

    The node that asks an expert, as [core_node!] expands it, and the
    [NodeSpec] that presets its channels.  The other built-in node, which runs
    a script, is in [Script]. *)

From S2P Require Import Prelude Ids Json Channels Types Spec RunLog Catalog Domains Frames Wire Errors Tree Snapshots Sessions Hitl Checkpointer RunFrame.

(** [AskExpert::NAME]: the name of the function, with its underscores as
    dashes. *)
Definition ASK_EXPERT : string := "ask-expert".

(** [AskExpert::common_spec] *)
Definition ask_expert_spec : CommonSpec := build_common_spec None [
  mkSpecChannel "task" LastWriteWins true false false None None;
  mkSpecChannel "expert_id" LastWriteWins true false false None None;
  mkSpecChannel "answer" LastWriteWins false true false None None].

(** [NodeSpec::ask_expert] *)
Definition node_spec_ask_expert (expert_id task : string) : NodeSpec :=
  mkNodeSpec ASK_EXPERT (overrides (overrides ask_expert_spec "expert_id" (Str expert_id)) "task" (Str task)).

Section node.
Context (channel_error : ChannelError → string).

(** [ctx.read(name)?] *)
Definition read_or_fail {V} (from_value : Value → option V) (ctx : NodeContext) (name : ChannelName) : Res string V :=
  map_err channel_error (node_read from_value ctx name).

Definition set_logs (ctx : NodeContext) (l : RunLogs) : NodeContext :=
  mkNodeContext (nc_session_id ctx) (nc_frame_id ctx) (nc_channels ctx) l.

(** [let (answer,): (V,) = ask_experts!(ctx, request)], then the rest of the
    body: [expect] panics on another shape. *)
Definition ask_one_expert {V} (from_value : Value → option V) (request : RequestAskExpert)
    (k : V → NodeExecutor) : NodeExecutor := λ ctx,
  let '(l, log) := reserve_log (nc_logs ctx) (ConsultExpertsLog [request]) in
  let ctx := set_logs ctx l in
  resolved ← check l log;
  match resolved with
  | None => Ok (ctx, FConsultExperts [request])
  | Some (Array (v :: _)) => match from_value v with Some answer => k answer ctx | None => Panic end
  | Some _ => Panic
  end.

(** [AskExpert::execute] *)
Definition ask_expert : NodeExecutor := λ ctx,
  expert_id ← read_or_fail as_str ctx "expert_id";
  task ← read_or_fail as_str ctx "task";
  ask_one_expert as_str (mkRequestAskExpert task expert_id)
    (λ answer ctx, Ok (node_write ctx "answer" (Str answer), FCompleted)) ctx.

(** ** Lemmas *)

(** The macro of one request, as the macro of many. *)
Lemma ask_one_expert_spec {V} (from_value : Value → option V) request k ctx :
  ask_one_expert from_value request k ctx =
  match ask_experts [request] (λ _ l, (l, Ok FCompleted)) (nc_logs ctx) with
  | (l, Ok FCompleted) =>
      match entries l !! cursor (nc_logs ctx) ≫= rl_value with
      | Some (Array (v :: _)) =>
          match from_value v with Some answer => k answer (set_logs ctx l) | None => Panic end
      | _ => Panic
      end
  | (l, Ok r) => Ok (set_logs ctx l, r)
  | (_, _) => Panic
  end.
Proof.
  unfold ask_one_expert, ask_experts, reserve_or_yield, reserve_log, check. cbv zeta.
  set (es := if decide _ then _ else _). cbn [entries].
  destruct (es !! cursor (nc_logs ctx)) as [e|] eqn:E; [|done]. cbn.
  destruct (rl_value e) as [[| | | |vs|]|] eqn:Ev; cbn; try done.
  unfold with_answers. destruct vs as [|v vs]; cbn; [by rewrite decide_False by lia|].
  rewrite decide_True by lia. cbn. by rewrite E; cbn; rewrite Ev.
Qed.

(** The channels that the checkpointer gives to a node: its defaults and what
    it inherits. *)
Definition node_channels (spec : NodeSpec) (source : Channels) : Channels :=
  channels_extend (default_values (ns_common spec)) (select_channels (inherited_channels (ns_common spec)) source).

Lemma node_channels_ask_expert expert_id task source name :
  name = "expert_id"%string ∨ name = "task"%string →
  channels_get (node_channels (node_spec_ask_expert expert_id task) source) name = channels_get source name.
Proof.
  assert (inherited_channels (ns_common (node_spec_ask_expert expert_id task)) = ["task"; "expert_id"]%string) as Hi
    by reflexivity.
  assert (default_values (ns_common (node_spec_ask_expert expert_id task)) = ∅) as Hd by reflexivity.
  unfold node_channels, select_channels. rewrite Hi, Hd.
  intros [->| ->]; unfold channels_get, channels_extend; cbn [omap list_omap];
    destruct (source !! "task"%string) as [t|] eqn:Et, (source !! "expert_id"%string) as [e|] eqn:Ee; cbn;
    rewrite ?lookup_insert_ne, ?lookup_insert_eq by done; done.
Qed.
End node.

(** ** Properties *)

(** The job of a node that asks an expert, run over the journal of its
    frame, asks once and records the question; asks again while the question
    has no answer, recording nothing; and once the checkpointer has recorded
    an answer writes it to the channel the node exports, and completes.  It
    panics on a recorded value of another shape. *)
Theorem ask_expert_replays (channel_error : ChannelError → string) (sv : Services) (a : RunFrameArgs)
    (g : GraphRef) (graph : GraphSpec) (node_id : GraphNodeId) (spec : NodeSpec) (expert_id task : string) :
  rf_data a = KGraphNode g node_id → sv_graph sv g = inr graph → gs_nodes graph !! node_id = Some spec →
  ns_kind spec = ASK_EXPERT → sv_node_executors sv !! ASK_EXPERT = Some (ask_expert channel_error) →
  channels_get (rf_channels a) "expert_id" = Some (Str expert_id) →
  channels_get (rf_channels a) "task" = Some (Str task) →
  let request := mkRequestAskExpert task expert_id in
  let respond updates new_logs result := Ok (mkFrameResponse (rf_frame_id a) updates new_logs result) in
  run_frame_job sv a =
    match rf_logs a with
    | [] => respond [] [mkRunLog 0 (ConsultExpertsLog [request]) None] (FConsultExperts [request])
    | log :: _ =>
        match rl_value log with
        | None => respond [] [] (FConsultExperts [request])
        | Some (Array (Str answer :: _)) =>
            respond [mkChannelUpdate "answer" (Str answer) (rf_frame_id a)] [] FCompleted
        | Some _ => Panic
        end
    end.
Proof.
  intros Hd Hg Hn Hk Hx He Ht request respond. unfold run_frame_job. rewrite Hd. unfold run_node.
  rewrite Hg, Hn. rewrite <- Hk in Hx. rewrite (graphs_execute_some _ _ _ _ Hx).
  unfold channels_get in He, Ht.
  unfold ask_expert, read_or_fail, node_read, tracker_read, read_value, channels_get. cbn. rewrite He. cbn. rewrite Ht. cbn.
  unfold ask_one_expert, reserve_log, check, run_logs_new, into_new_logs. cbn.
  destruct (rf_logs a) as [|log logs]; [done|]. cbn.
  rewrite decide_False by lia. cbn.
  destruct (rl_value log) as [[| | | |[|[] vs]|]|]; cbn; by rewrite ?drop_all.
Qed.

(** The expert and the task that a node is given when it is built are
    overrides of its specification, which no operation applies: the node reads
    its channels from its parent, and fails when the parent has no expert for
    it. *)
Theorem preset_is_ignored (channel_error : ChannelError → string) (sv : Services) (a : RunFrameArgs)
    (g : GraphRef) (graph : GraphSpec) (node_id : GraphNodeId) (expert_id task : string) (source : Channels) :
  rf_data a = KGraphNode g node_id → sv_graph sv g = inr graph →
  gs_nodes graph !! node_id = Some (node_spec_ask_expert expert_id task) →
  sv_node_executors sv !! ASK_EXPERT = Some (ask_expert channel_error) →
  rf_channels a = node_channels (node_spec_ask_expert expert_id task) source →
  channels_get source "expert_id" = None →
  run_frame_job sv a = Ok (failed_response (rf_frame_id a) [] (channel_error (NoChannel "expert_id"))).
Proof.
  intros Hd Hg Hn Hx Hc Hs. unfold run_frame_job. rewrite Hd. unfold run_node. rewrite Hg, Hn.
  rewrite (graphs_execute_some _ _ _ (ask_expert channel_error)) by done.
  unfold ask_expert, read_or_fail, node_read, tracker_read, read_value. cbn [t_updates t_channels nc_channels tracker_new].
  rewrite Hc. cbn [reverse rev_append list_find fmap option_fmap option_map].
  by rewrite (node_channels_ask_expert _ _ _ "expert_id"), Hs by by left.
Qed.

(** ** A graph of one node *)

Definition demo_ask_graph : GraphSpec :=
  add_node (graph_spec_new "g" "n" spec_default) "n" (node_spec_ask_expert "e" "6*7").
Definition demo_ask_services : Services :=
  mkServices (λ _, inr None) (λ _, inr None) (λ _, inr demo_ask_graph) ∅
    {[ASK_EXPERT := ask_expert (λ _, "no channel")]} (λ _ _ _, inl "no model").
Definition demo_ask_args (logs : list RunLog) : RunFrameArgs :=
  mkRunFrameArgs sid0 (fid 1) {["expert_id" := Str "e"; "task" := Str "6*7"]} logs (KGraphNode demo_ref "n").
Definition demo_question : RunLogContent := ConsultExpertsLog [mkRequestAskExpert "6*7" "e"].

Lemma ask_expert_replays_witness :
  run_frame_job demo_ask_services (demo_ask_args []) =
    Ok (mkFrameResponse (fid 1) [] [mkRunLog 0 demo_question None]
      (FConsultExperts [mkRequestAskExpert "6*7" "e"])) ∧
  run_frame_job demo_ask_services (demo_ask_args [mkRunLog 0 demo_question (Some (Array [Str "42"]))]) =
    Ok (mkFrameResponse (fid 1) [mkChannelUpdate "answer" (Str "42") (fid 1)] [] FCompleted).
Proof.
  split.
  - exact (ask_expert_replays (λ _, "no channel"%string) demo_ask_services (demo_ask_args []) demo_ref
      demo_ask_graph "n" (node_spec_ask_expert "e" "6*7") "e" "6*7" eq_refl eq_refl eq_refl eq_refl eq_refl
      eq_refl eq_refl).
  - exact (ask_expert_replays (λ _, "no channel"%string) demo_ask_services
      (demo_ask_args [mkRunLog 0 demo_question (Some (Array [Str "42"]))]) demo_ref
      demo_ask_graph "n" (node_spec_ask_expert "e" "6*7") "e" "6*7" eq_refl eq_refl eq_refl eq_refl eq_refl
      eq_refl eq_refl).
Defined.

Definition demo_preset_args : RunFrameArgs :=
  mkRunFrameArgs sid0 (fid 1) (node_channels (node_spec_ask_expert "e" "6*7") ∅) [] (KGraphNode demo_ref "n").

Lemma preset_is_ignored_witness :
  run_frame_job demo_ask_services demo_preset_args = Ok (failed_response (fid 1) [] "no channel").
Proof.
  exact (preset_is_ignored (λ _, "no channel"%string) demo_ask_services demo_preset_args demo_ref demo_ask_graph "n"
    "e" "6*7" ∅ eq_refl eq_refl eq_refl eq_refl eq_refl eq_refl).
Defined.
