(* ===== verification/Consult.v ===== *)
(** * Consulting an expert outside of a session ([expert/mod.rs], [Experts::consult])

    The command line asks an expert directly: no frame, no journal.  The file
    models the call over the catalogues, the vault and the provider, and
    compares it with the job that asks the same expert within a session. *)

From S2P Require Import Prelude Ids Json Channels Types Spec RunLog Catalog PgCatalog Domains Frames Errors Secrets Models Checkpointer RunFrame.

Inductive ExpertError :=
  | XCatalogError (e : CatalogError)
  | XNotFound (id : ExpertId)
  | XModelError (e : ModelError)
  | ConsultationFailed (msg : string).

Definition NO_ANSWER : string := "le flux du modèle s'est terminé sans réponse".

(** The loop over the stream: the first event that ends it. *)
Fixpoint drain (events : list ModelStreamEvent) : Res ExpertError ModelResponse :=
  match events with
  | [] => Err (ConsultationFailed NO_ANSWER)
  | StreamCompleted r :: _ => Ok r
  | StreamFailed msg :: _ => Err (ConsultationFailed msg)
  | TextDelta _ :: events => drain events
  end.

Section experts.
Context {SS CS : Type} `{StoreSecret SS} `{StoreCatalog CS} `{Ciphers} `{Xoshiro} `{Provider}
  `{JsonCodec EncryptedModel} `{JsonCodec Tool} `{JsonCodec Expert}.

(** [Experts]: the three services share one catalogue. *)
Record Experts := mkExperts { es_models : Models SS CS; es_native : gmap string Tool }.
Notation XM := (M Experts ExpertError).

Definition on_expert_models {A} (m : M (Models SS CS) ModelError A) : XM A :=
  m_map_err XModelError (zoom es_models (λ ms s, mkExperts ms (es_native s)) m).
Definition on_expert_catalog {A} (m : M CS CatalogError A) : XM A :=
  m_map_err XCatalogError
    (zoom (λ s, ms_catalog (es_models s)) (λ c s, mkExperts (mkModels (ms_vault (es_models s)) c) (es_native s)) m).
Definition on_expert_tools {A} (m : M (Domain CS Tool) CatalogError A) : XM A :=
  m_map_err XCatalogError
    (zoom (λ s, mkDomain (ms_catalog (es_models s)) (es_native s))
       (λ d s, mkExperts (mkModels (ms_vault (es_models s)) (d_catalog d)) (d_native d)) m).

(** The tools of an expert that are known. *)
Fixpoint known_tools (l : list ToolId) : XM (list Tool) :=
  match l with
  | [] => mret []
  | id :: l =>
      tool ← on_expert_tools (tools_get id);
      tools ← known_tools l;
      mret (match tool with Some t => t :: tools | None => tools end)
  end.

Definition consult (id : ExpertId) (task : string) : XM ModelResponse :=
  found ← on_expert_catalog (experts_get id);
  match found with
  | None => throw (XNotFound id)
  | Some expert =>
      tools ← known_tools (ex_allowed_tools expert);
      events ← on_expert_models
        (models_execute (ex_model_id expert) [mkEntry RoleSystem (ex_prompt expert); mkEntry RoleUser task] tools);
      lift (drain events)
  end.
End experts.

Arguments Experts SS CS {_}.

(** ** Draining a stream *)

Lemma drain_relay `{Provider} events :
  drain (relay events) =
    match outcome events with
    | StreamCompleted r => Ok r
    | StreamFailed msg => Err (ConsultationFailed msg)
    | TextDelta _ => Err (ConsultationFailed NO_ANSWER)
    end.
Proof.
  unfold relay. induction (omap text_delta events) as [|d l IH]; simpl; [by destruct (outcome events)|done].
Qed.

Lemma outcome_ends `{Provider} events d : outcome events ≠ TextDelta d.
Proof. unfold outcome. by destruct (failure events), (final_response events). Qed.

(** ** Reads *)

(** A computation that leaves the state as it is. *)
Definition reads {S E A} (m : M S E A) : Prop := ∀ s, run_state m s = s.

Section reads.
Context {S E : Type}.
Lemma reads_ret {A} (a : A) : reads (mret a : M S E A).
Proof. done. Qed.
Lemma reads_throw {A} (e : E) : reads (throw e : M S E A).
Proof. done. Qed.
Lemma reads_panic {A} : reads (panic : M S E A).
Proof. done. Qed.
Lemma reads_lift {A} (r : Res E A) : reads (lift r : M S E A).
Proof. done. Qed.
Lemma reads_bind {A B} (m : M S E A) (k : A → M S E B) : reads m → (∀ a, reads (k a)) → reads (m ≫= k).
Proof.
  intros Hm Hk s. specialize (Hm s). unfold run_state, mbind, m_bind in *.
  destruct (m s) as [[a|e|] s1]; simpl in *; subst; [apply Hk|done..].
Qed.
Lemma reads_map_err {F A} (f : E → F) (m : M S E A) : reads m → reads (m_map_err f m).
Proof. intros Hm s. specialize (Hm s). revert Hm. unfold run_state, m_map_err. by destruct (m s). Qed.
Lemma reads_zoom {T A} (proj : T → S) (inj : S → T → T) (m : M S E A) :
  (∀ t, inj (proj t) t = t) → reads m → reads (zoom proj inj m).
Proof.
  intros Hi Hm t. specialize (Hm (proj t)). revert Hm. unfold run_state, zoom.
  destruct (m (proj t)) as [r s]. simpl. intros ->. apply Hi.
Qed.
Lemma reads_eq {A} (m : M S E A) s : reads m → m s = (run_res m s, s).
Proof. intros Hm. specialize (Hm s). revert Hm. unfold run_state, run_res. destruct (m s). simpl. by intros ->. Qed.
End reads.

Create HintDb reads.
#[export] Hint Resolve reads_ret reads_throw reads_panic reads_lift reads_bind reads_map_err reads_zoom : reads.

Lemma reads_absent_ok {S A B} (f : A → B) (m : M S CatalogError A) : reads m → reads (absent_ok f m).
Proof.
  intros Hm s. specialize (Hm s). revert Hm. unfold run_state, absent_ok.
  by destruct (m s) as [[a|[]|] s'].
Qed.

(** ** Stores whose reads leave them as they are *)

Class ReadsCatalog (CS : Type) `{StoreCatalog CS} : Prop := {
  reads_item : ∀ kind id v, reads (get_catalog_item kind id v : M CS _ _);
  reads_last : ∀ kind id, reads (last_catalog_ref kind id : M CS _ _) }.
Class ReadsSecrets (SS : Type) `{StoreSecret SS} : Prop := {
  reads_secret : ∀ i, reads (get_secret i : M SS _ _) }.

(** They are those of the repository. *)
#[global] Instance memory_reads `{HashIter} : @ReadsCatalog _ InMemory.store.
Proof. by split. Qed.
#[global] Instance postgres_reads `{HashIter} : ReadsCatalog PgCatalog.
Proof. by split; intros ? ? ? [] || intros ? ? []. Qed.
#[global] Instance memory_secrets_read : @ReadsSecrets _ InMemorySecretStore.secret_store.
Proof. by split. Qed.

Section consultation.
Context {SS CS : Type} `{ReadsSecrets SS} `{ReadsCatalog CS} `{Ciphers} `{Xoshiro} `{Provider}
  `{JsonCodec EncryptedModel} `{JsonCodec Tool} `{JsonCodec Expert}.
Implicit Types w : Experts SS CS.

Lemma reads_latest {C : Type} `{Catalogable C} (id : string) : reads (latest (C:=C) id : M CS _ _).
Proof.
  assert (∀ A (m : M CS StoreFailure A), reads m → reads (cat_store m)) as Hc.
  { intros A m Hm s. specialize (Hm s). revert Hm. unfold run_state, cat_store. by destruct (m s). }
  unfold latest, latest_ref, deref, or_not_found.
  repeat (apply reads_bind; [|intros ?]); auto using reads_item, reads_last with reads.
Qed.

Lemma reads_tools_get (id : ToolId) : reads (tools_get id : M (Domain CS Tool) _ _).
Proof.
  intros d. unfold tools_get, run_state. destruct (d_native d !! id); [done|].
  unfold on_catalog. pose proof (reads_absent_ok (λ t : Tool, t) _ (reads_latest (C:=Tool) id) (d_catalog d)) as Hr.
  unfold run_state in Hr. destruct (absent_ok _ _ (d_catalog d)) as [r c]. simpl in *. subst c. by destruct d.
Qed.

Lemma reads_models_execute (i : ModelId) c ts : reads (models_execute i c ts : M (Models SS CS) _ _).
Proof.
  assert (∀ A (f : SecretManager → Res SecretError A), reads (on_manager f : M (Vault SS) _ _)) as Hm by done.
  unfold models_execute, models_resolve, on_models_catalog, on_vault, model_decrypt, get_decrypted_str, get_decrypted,
    on_secret_store.
  repeat (apply reads_bind; [|intros ?]); repeat case_match; auto using @reads_latest with reads.
  - apply reads_map_err, reads_zoom; [by intros []|apply reads_latest].
  - apply reads_map_err, reads_zoom; [by intros []|].
    repeat (apply reads_bind; [|intros ?]); repeat case_match; auto with reads.
    apply reads_map_err, reads_zoom; [by intros []|apply reads_secret].
Qed.

Lemma reads_expert_tools (id : ToolId) : reads (on_expert_tools (SS:=SS) (CS:=CS) (tools_get id)).
Proof. apply reads_map_err, reads_zoom; [by intros [[] ?]|apply reads_tools_get]. Qed.
Lemma reads_expert_get (id : ExpertId) : reads (on_expert_catalog (SS:=SS) (CS:=CS) (experts_get id)).
Proof. apply reads_map_err, reads_zoom; [by intros [[] ?]|apply reads_absent_ok, reads_latest]. Qed.
Lemma reads_expert_models i c ts : reads (on_expert_models (SS:=SS) (CS:=CS) (models_execute i c ts)).
Proof. apply reads_map_err, reads_zoom; [by intros []|apply reads_models_execute]. Qed.
#[local] Hint Resolve reads_expert_tools reads_expert_get reads_expert_models : reads.
Lemma reads_known_tools l : reads (known_tools (SS:=SS) (CS:=CS) l).
Proof. induction l; simpl; eauto with reads. Qed.
#[local] Hint Resolve reads_known_tools : reads.
Lemma reads_consult id task : reads (consult (SS:=SS) (CS:=CS) id task).
Proof. apply reads_bind; [auto with reads|]. intros [expert|]; eauto 10 with reads. Qed.

(** ** The expert of a session and the expert of the command line *)

(** The texts of the errors. *)
Context (catalog_text : CatalogError → string) (model_text : ModelError → string).

Definition as_sum {E A} (text : E → string) (r : Res E A) : string + A :=
  match r with Ok a => inr a | Err e => inl (text e) | Panic => inl "panic" end.

(** What the job says of an error of a consultation. *)
Definition expert_text (e : ExpertError) : string :=
  match e with
  | XCatalogError e => catalog_text e
  | XModelError e => model_text e
  | ConsultationFailed msg => msg
  | XNotFound id => expert_missing id
  end.

(** What is read of the experts, of the tools and of the models. *)
Definition read_expert w (id : ExpertId) : Res ExpertError (option Expert) := run_res (on_expert_catalog (experts_get id)) w.
Definition read_tool w (id : ToolId) : Res ExpertError (option Tool) := run_res (on_expert_tools (tools_get id)) w.
Definition read_model w (i : ModelId) c ts : Res ExpertError (list ModelStreamEvent) :=
  run_res (on_expert_models (models_execute i c ts)) w.
Definition expert_context (expert : Expert) (task : string) : Models.Context :=
  [mkEntry RoleSystem (ex_prompt expert); mkEntry RoleUser task].

(** What a worker that has this state offers to the job of an expert. *)
Definition services_of w : Services :=
  mkServices (λ id, as_sum expert_text (read_expert w id)) (λ id, as_sum expert_text (read_tool w id))
    (λ _, inl "") ∅ ∅ (λ i c ts, as_sum expert_text (read_model w i c ts)).

(** A read that panics, which both make. *)
Definition a_read_panics w (id : ExpertId) (task : string) : Prop :=
  read_expert w id = Panic ∨ ∃ expert, read_expert w id = Ok (Some expert) ∧
    ((∃ i, i ∈ ex_allowed_tools expert ∧ read_tool w i = Panic) ∨
     ∃ tools, run_res (known_tools (ex_allowed_tools expert)) w = Ok tools ∧
       read_model w (ex_model_id expert) (expert_context expert task) tools = Panic).

Lemma known_tools_cons i l w :
  run_res (known_tools (i :: l)) w =
    (tool ← read_tool w i; tools ← run_res (known_tools l) w; Ok (match tool with Some t => t :: tools | None => tools end)).
Proof.
  simpl. unfold run_res at 1, mbind at 1, m_bind. rewrite (reads_eq _ w (reads_expert_tools i)). fold (read_tool w i).
  destruct (read_tool w i) as [o|e|]; [|done..]. unfold mbind at 1, m_bind. rewrite (reads_eq _ w (reads_known_tools l)).
  by destruct (run_res (known_tools l) w).
Qed.

Lemma tool_error w i e : read_tool w i = Err e → ∃ e', e = XCatalogError e'.
Proof.
  unfold read_tool, run_res, on_expert_tools, m_map_err. destruct (zoom _ _ _ w) as [[o|e'|] s]; simpl; [done| |done].
  intros [= <-]. by eexists.
Qed.

Lemma known_tools_resolved w f expert l : Forall (λ i, read_tool w i ≠ Ok None) l →
  match run_res (known_tools l) w with
  | Ok ts => resolve_tools (services_of w) f expert l = inr ts
  | Err e => resolve_tools (services_of w) f expert l = inl (failed_response f [] (expert_text e)) ∧ ∃ e', e = XCatalogError e'
  | Panic => ∃ i, i ∈ l ∧ read_tool w i = Panic
  end.
Proof.
  induction 1 as [|i l Hi _ IH]; [done|]. rewrite known_tools_cons. cbn [resolve_tools services_of sv_tool].
  destruct (read_tool w i) as [[t|]|e|] eqn:E; [|done|by split; [|by eapply tool_error]|by exists i; split; [left|]].
  cbn [as_sum mbind res_bind]. destruct (run_res (known_tools l) w) as [ts|e|]; simpl.
  - by rewrite IH.
  - by destruct IH as [-> ?].
  - destruct IH as (j&?&?). exists j. split; [by right|done].
Qed.

(** What a model answers is the relay of a provider's stream, and its errors are
    those of the models. *)
Lemma expert_models_shape w i c ts :
  match read_model w i c ts with
  | Ok events => ∃ provided, events = relay provided
  | Err e => ∃ e', e = XModelError e'
  | Panic => True
  end.
Proof.
  unfold read_model, on_expert_models, m_map_err, zoom, run_res.
  assert (∀ ms r ms', models_execute i c ts ms = (Ok r, ms') → ∃ provided, r = relay provided) as Hr.
  { intros ms r ms' (m&s1&_&He)%m_bind_ok. revert He. unfold execute_model.
    destruct (create_stream _) as [error|provided]; intros [= <- _]. by eexists. }
  specialize (Hr (es_models w)). destruct (models_execute i c ts (es_models w)) as [[r|e|] ms]; simpl; eauto.
Qed.

Lemma consult_eq w id task :
  run_res (consult id task) w =
    (found ← read_expert w id;
     match found with
     | None => Err (XNotFound id)
     | Some expert =>
         tools ← run_res (known_tools (ex_allowed_tools expert)) w;
         events ← read_model w (ex_model_id expert) (expert_context expert task) tools;
         drain events
     end).
Proof.
  unfold consult. unfold run_res at 1, mbind at 1, m_bind. rewrite (reads_eq _ w (reads_expert_get id)). fold (read_expert w id).
  destruct (read_expert w id) as [[expert|]|e|]; [|done..].
  unfold mbind at 1, m_bind. rewrite (reads_eq _ w (reads_known_tools _)). simpl.
  destruct (run_res (known_tools _) w) as [tools|e|]; [|done..]. unfold mbind at 1, m_bind.
  rewrite (reads_eq _ w (reads_expert_models _ _ _)). unfold read_model, expert_context.
  cbn [mbind res_bind].
  by destruct (run_res (on_expert_models _) w).
Qed.

Lemma expert_error w id e : read_expert w id = Err e → ∃ e', e = XCatalogError e'.
Proof.
  unfold read_expert, run_res, on_expert_catalog, m_map_err. destruct (zoom _ _ _ w) as [[o|e'|] s]; simpl; [done| |done].
  intros [= <-]. by eexists.
Qed.

(** C40: A consultation changes nothing in the catalogue, in the vault or in the
    tools, whatever it ends with.  When none of the tools that the expert may call
    is missing, it also ends as the job of the same expert within a session would,
    over the same services: the text of the response that it returns is the
    answer that the job completes with, and the job fails with what is said of the
    error that the consultation returns, be it an expert that is not there, an error
    of the catalogue or of the model, or a stream that fails; it writes its channels
    back only after a stream that fails.  A consultation panics only in a read that
    the job makes as well. *)
Theorem consult_agrees_with_session w (f : FrameId) (t : ChannelsTracker) (id : ExpertId) (task : string) :
  run_state (consult id task) w = w ∧
  (tracker_read as_str t "expert_id" = Ok id →
   tracker_read as_str t "expert_consultation_task" = Ok task →
   (∀ expert, read_expert w id = Ok (Some expert) → Forall (λ i, read_tool w i ≠ Ok None) (ex_allowed_tools expert)) →
   match run_res (consult id task) w with
   | Ok r =>
       run_expert (services_of w) f t =
         Ok (mkFrameResponse f (into_updates (tracker_write t "expert_consultation_answer" (answer_json (mr_text r))))
               [] FCompleted)
   | Err e =>
       run_expert (services_of w) f t =
         Ok (failed_response f (match e with ConsultationFailed _ => into_updates t | _ => [] end) (expert_text e))
   | Panic => a_read_panics w id task
   end).
Proof.
  split; [apply reads_consult|]. intros Hid Htask Hts. rewrite consult_eq. unfold run_expert. rewrite Hid. cbn [mbind res_bind].
  rewrite Htask. cbn [mbind res_bind services_of sv_expert sv_model].
  destruct (read_expert w id) as [[expert|]|e|] eqn:Ex; cbn [as_sum mbind res_bind];
    [|done|by destruct (expert_error _ _ _ Ex) as [e' ->]|by left].
  pose proof (known_tools_resolved w f id _ (Hts _ eq_refl)) as Hk. pose proof (expert_models_shape w (ex_model_id expert)) as Hs.
  destruct (run_res (known_tools _) w) as [tools|e|] eqn:Ek.
  - rewrite Hk. specialize (Hs (expert_context expert task) tools). fold (expert_context expert task). cbn [mbind res_bind].
    destruct (read_model w _ _ tools) as [events|e|] eqn:Em; cbn [as_sum].
    + destruct Hs as [provided ->]. cbn [mbind res_bind]. rewrite drain_relay. destruct (stream_of_relay provided) as [-> ->].
      pose proof (outcome_ends provided) as Hends. by destruct (outcome provided) as [d|r|msg]; [destruct (Hends d)|..].
    + by destruct Hs as [e' ->].
    + right. exists expert. split; [done|]. right. by exists tools.
  - destruct Hk as [-> [e' ->]]. done.
  - right. exists expert. split; [done|]. by left.
Qed.

(** Of the tools that an expert may call, a consultation leaves out those that
    are not known, where the job of a session fails. *)
Theorem consult_skips_unknown_tools w (l : list ToolId) :
  Forall (λ id, ∃ o, read_tool w id = Ok o) l →
  run_res (known_tools l) w = Ok (omap (λ id, match read_tool w id with Ok o => o | _ => None end) l).
Proof.
  induction 1 as [|id l [o Ho] _ IH]; [done|]. rewrite known_tools_cons, IH. cbn [omap list_omap]. rewrite Ho. by destruct o.
Qed.
End consultation.

(** An expert in the catalogue of a model, with a tool registered natively. *)
Definition expert_tuple (e : Expert) := (ex_id e, ex_prompt e, ex_model_id e, ex_allowed_tools e).
#[local] Instance Expert_eq_dec : EqDecision Expert. Proof. solve_decision. Defined.
#[local] Instance Expert_countable : Countable Expert.
Proof. refine (inj_countable' expert_tuple (λ '(i, p, m, t), mkExpert i p m t) _). by intros []. Defined.
Definition tool_tuple (t : Tool) := (tool_name t, tool_description t, parameters_schema t).
#[local] Instance ToolExecution_eq_dec : EqDecision ToolExecution. Proof. solve_decision. Defined.
#[local] Instance Tool_eq_dec : EqDecision Tool. Proof. solve_decision. Defined.
#[local] Instance Tool_countable : Countable Tool.
Proof. refine (inj_countable' tool_tuple (λ '(n, d, p), mkTool n d p Native) _). by intros [? ? ? []]. Defined.

Definition talking_provider : Provider := {| create_stream := λ _, inr demo_events; json_from_str := λ _, None |}.
Definition calc : Tool := mkTool "calc" "" Null Native.
Definition calc_expert : Expert := mkExpert "e" "be brief" "m" ["calc"; "lost"].
Definition demo_experts (tools : list ToolId) : @Experts (gmap SecretRef StoredSecret) (gmap (string * string) (list StoredItem)) toy_ciphers :=
  @mkExperts _ _ toy_ciphers
    (@mkModels _ _ toy_ciphers (@mkVault _ toy_ciphers demo_manager (demo_key_store "hi" 5) 6%Z [])
       (<[("/marie/catalog/experts", "e") :=
          [mkStored [Zpos (countable.encode (mkExpert "e" "be brief" "m" tools))] false false]]> (demo_catalog [demo_declared])))
    {["calc" := calc]}.
Notation demo_consult := (@consult _ _ InMemorySecretStore.secret_store (@InMemory.store canonical_iter) toy_ciphers
  talking_provider numbered_models numbered numbered "e" "6*7").
Definition demo_tracker : ChannelsTracker :=
  tracker_new (fid 1) {["expert_id" := Str "e"; "expert_consultation_task" := Str "6*7"]}.

Notation demo_answer := (mkModelResponse (Some "42") [] None).
Lemma consult_agrees_with_session_witness :
  run_state demo_consult (demo_experts ["calc"]) = demo_experts ["calc"] ∧
  run_expert (@services_of _ _ InMemorySecretStore.secret_store (@InMemory.store canonical_iter) toy_ciphers talking_provider
      numbered_models numbered numbered (λ _, "") (λ _, "") (demo_experts ["calc"])) (fid 1) demo_tracker =
    Ok (mkFrameResponse (fid 1)
          (into_updates (tracker_write demo_tracker "expert_consultation_answer" (answer_json (Some "42")))) [] FCompleted).
Proof.
  pose proof (@consult_agrees_with_session _ _ InMemorySecretStore.secret_store memory_secrets_read
    (@InMemory.store canonical_iter) (@memory_reads canonical_iter) toy_ciphers talking_provider numbered_models numbered
    numbered (λ _, "") (λ _, "") (demo_experts ["calc"]) (fid 1) demo_tracker "e" "6*7") as [Hr Ha].
  split; [exact Hr|]. specialize (Ha eq_refl eq_refl).
  assert (run_res demo_consult (demo_experts ["calc"]) = Ok demo_answer) as E by (vm_compute; reflexivity).
  rewrite E in Ha. apply Ha. intros expert Hex. vm_compute in Hex. injection Hex as <-. constructor; [|constructor].
  vm_compute. discriminate.
Defined.

(** The tool that is not known is left out, and the consultation answers. *)
Lemma consult_skips_unknown_tools_witness :
  run_res (@known_tools _ _ (@InMemory.store canonical_iter) toy_ciphers numbered ["calc"; "lost"]) (demo_experts []) = Ok [calc].
Proof.
  rewrite (@consult_skips_unknown_tools _ _ (@InMemory.store canonical_iter) (@memory_reads canonical_iter) toy_ciphers
    numbered (demo_experts []) ["calc"; "lost"]).
  - vm_compute. reflexivity.
  - repeat constructor; eexists; vm_compute; reflexivity.
Defined.

Example consult_answers :
  run_res demo_consult (demo_experts ["calc"; "lost"]) = Ok (mkModelResponse (Some "42") [] None).
Proof. vm_compute. reflexivity. Qed.
