(* ===== verification/Script.v ===== *)
(** * Script nodes ([marie-core/src/graph/script.rs], [graph/builtin.rs])

    A node may be a script: its [main] function is a generator that reads and
    writes channels through the context, suspends on a request, and ends with
    a result.  The engine compiles it, drives the generator over the replay
    journal and stops at the first request that has no answer.  The virtual
    machine (Rune) is third-party code: it is an interface, a machine that
    calls back the functions that this file defines. *)

From S2P Require Import Prelude Ids Json Channels Types Spec RunLog Catalog Domains Frames Wire Errors Tree Snapshots Sessions Hitl Checkpointer Secrets Models RunFrame Builtin.

(** ** The virtual machine *)

(** The commands installed in the context. *)
Inductive Command (V : Type) :=
  | CNext | CGoto (node_id : string) | CFork (branches : V) (join : string)
  | CHitl (request : V) | CAskExperts (asks : V) | CCallTools (calls : V) | CGraph (graph_id : string)
  | CCompleted | CFailed (error : string).
Arguments CNext {V}.
Arguments CGoto {V}.
Arguments CFork {V}.
Arguments CHitl {V}.
Arguments CAskExperts {V}.
Arguments CCallTools {V}.
Arguments CGraph {V}.
Arguments CCompleted {V}.
Arguments CFailed {V}.

(** A step of an execution: an instruction of its own, a call of a native
    function, which goes on with its result, or the end of a [resume]. *)
Inductive VmStep (V X : Type) :=
  | Internal (x : X)
  | CallRead (name : string) (k : string + V → X)
  | CallWrite (name : string) (v : V) (k : string + () → X)
  | CallCommand (c : Command V) (k : string + V → X)
  | StepComplete (v : V)
  | StepYielded (v : V) (resume_with : V → X)
  | StepError (msg : string).
Arguments Internal {V X}.
Arguments CallRead {V X}.
Arguments CallWrite {V X}.
Arguments CallCommand {V X}.
Arguments StepComplete {V X}.
Arguments StepYielded {V X}.
Arguments StepError {V X}.

Class Rune := {
  RuneValue : Type;
  RuneUnit : Type;
  VmExecution : Type;
  json_to_value : Value → string + RuneValue;   (* [Deserialize for rune::Value] *)
  value_to_json : RuneValue → string + Value;   (* [Serialize for rune::Value] *)
  compile_uncached : string → string + RuneUnit;
  vm_execute : RuneUnit → string + VmExecution; (* [main] called with the context *)
  vm_step : VmExecution → VmStep RuneValue VmExecution
}.

Definition of_sum {E A} (s : E + A) : Res E A := match s with inl e => Err e | inr a => Ok a end.

Section script.
Context `{Rune} (channel_error : ChannelError → string) (serde_error : string).

(** ** Native functions *)

Definition value_to_type {T} `{Wire T} (v : RuneValue) : Res string T :=
  json ← of_sum (value_to_json v); map_err (λ _, serde_error) (from_value json).

Definition script_frame_result (r : FrameResult) : Res string RuneValue := of_sum (json_to_value (to_value r)).
Definition script_run_log_content (c : RunLogContent) : Res string RuneValue :=
  of_sum (json_to_value (to_value c)).

Definition run_command (c : Command RuneValue) : Res string RuneValue :=
  match c with
  | CNext => script_frame_result FContinue
  | CGoto node_id => script_frame_result (FGoTo node_id)
  | CFork branches join => branches ← value_to_type branches; script_frame_result (FFork branches join)
  | CHitl request => request ← value_to_type request; script_run_log_content (HitlLog request)
  | CAskExperts asks => requests ← value_to_type asks; script_run_log_content (ConsultExpertsLog requests)
  | CCallTools calls => requests ← value_to_type calls; script_run_log_content (CallToolsLog requests)
  | CGraph graph_id => script_run_log_content (GraphLog graph_id)
  | CCompleted => script_frame_result FCompleted
  | CFailed error => script_frame_result (FFailed error)
  end.

(** [RuneNodeContext::read], [write] *)
Definition script_read (ctx : NodeContext) (name : string) : Res string RuneValue :=
  v ← map_err channel_error (node_read Some ctx name); of_sum (json_to_value v).
Definition script_write (ctx : NodeContext) (name : string) (v : RuneValue) : Res string NodeContext :=
  v ← of_sum (value_to_json v); Ok (node_write ctx name v).

(** ** A [resume], up to the next suspension

    [None] when the steps given are not enough: a script may loop. *)

Inductive GeneratorState :=
  | Complete (v : RuneValue)
  | Yielded (v : RuneValue) (resume_with : RuneValue → VmExecution).

(** A native function gives its result to the script, errors included. *)
Definition give {A C} (r : Res string A) (k : string + A → option (Res string C)) : option (Res string C) :=
  match r with
  | Ok a => k (inr a)
  | Err e => k (inl e)
  | Panic => Some Panic
  end.

Fixpoint resume (n : nat) (x : VmExecution) (ctx : NodeContext) :
    option (Res string (GeneratorState * NodeContext)) :=
  match n with
  | O => None
  | S n =>
      match vm_step x with
      | Internal x => resume n x ctx
      | CallRead name k => give (script_read ctx name) (λ r, resume n (k r) ctx)
      | CallWrite name v k =>
          match script_write ctx name v with
          | Ok ctx => resume n (k (inr ())) ctx
          | Err e => resume n (k (inl e)) ctx
          | Panic => Some Panic
          end
      | CallCommand c k => give (run_command c) (λ r, resume n (k r) ctx)
      | StepComplete v => Some (Ok (Complete v, ctx))
      | StepYielded v k => Some (Ok (Yielded v k, ctx))
      | StepError msg => Some (Err msg)
      end
  end.

(** ** The engine *)

Definition run_log_content_to_frame_result (c : RunLogContent) : FrameResult :=
  match c with
  | HitlLog request => FRequestHitl request
  | ConsultExpertsLog requests => FConsultExperts requests
  | CallToolsLog requests => FCallTools requests
  | GraphLog graph_id => FExecuteGraph graph_id
  end.

(** The loop of [execute]; [n] bounds both its turns and the steps of each. *)
Fixpoint drive (turns n : nat) (x : VmExecution) (ctx : NodeContext) :
    option (Res string (NodeContext * FrameResult)) :=
  match turns with
  | O => None
  | S turns =>
      match resume n x ctx with
      | None => None
      | Some (Err error) => Some (Err error)
      | Some Panic => Some Panic
      | Some (Ok (Complete v, ctx)) => Some (result ← value_to_type v; Ok (ctx, result))
      | Some (Ok (Yielded v resume_with, ctx)) =>
          match (value_to_type v : Res string RunLogContent) with
          | Err error => Some (Err error)
          | Panic => Some Panic
          | Ok content =>
              let '(l, log_ref) := reserve_log (nc_logs ctx) content in
              let ctx := set_logs ctx l in
              match (check l log_ref : Res string (option Value)) with
              | Ok None => Some (Ok (ctx, run_log_content_to_frame_result content))
              | Ok (Some resolved) =>
                  match json_to_value resolved with
                  | inl error => Some (Err error)
                  | inr value => drive turns n (resume_with value) ctx
                  end
              | Err error => Some (Err error)
              | Panic => Some Panic
              end
          end
      end
  end.

(** The engine keeps the units it has compiled; a failure is not kept. *)
Record GraphScriptEngine := mkEngine { units : gmap string RuneUnit }.
Definition engine_new : GraphScriptEngine := mkEngine ∅.

Definition compile (script : string) : M GraphScriptEngine string RuneUnit := λ e,
  match units e !! script with
  | Some unit => (Ok unit, e)
  | None =>
      match compile_uncached script with
      | inl error => (Err error, e)
      | inr unit => (Ok unit, mkEngine (<[script := unit]> (units e)))
      end
  end.

Definition script_execute (turns n : nat) (script : string) (ctx : NodeContext) (e : GraphScriptEngine) :
    option (Res string (NodeContext * FrameResult)) * GraphScriptEngine :=
  match compile script e with
  | (Ok unit, e) =>
      match vm_execute unit with
      | inl error => (Some (Err error), e)
      | inr x => (drive turns n x ctx, e)
      end
  | (Err error, e) => (Some (Err error), e)
  | (Panic, e) => (Some Panic, e)
  end.

(** ** The node that runs a script ([builtin.rs]) *)

Definition EXECUTE_SCRIPT : string := "execute-script".

(** [ExecuteScript::common_spec] *)
Definition execute_script_spec : CommonSpec := build_common_spec None [
  mkSpecChannel "script" LastWriteWins true false false None None;
  mkSpecChannel "result" LastWriteWins false true false None None].

(** [NodeSpec::execute_script] *)
Definition node_spec_execute_script (script : string) : NodeSpec :=
  mkNodeSpec EXECUTE_SCRIPT (overrides execute_script_spec "script" (Str script)).

(** [ExecuteScript::execute] *)
Definition execute_script (turns n : nat) (ctx : NodeContext) (e : GraphScriptEngine) :
    option (Res string (NodeContext * FrameResult)) * GraphScriptEngine :=
  match read_or_fail channel_error as_str ctx "script" with
  | Ok script => script_execute turns n script ctx e
  | Err error => (Some (Err error), e)
  | Panic => (Some Panic, e)
  end.

(** ** What a script does, answers given

    [segment x t e t']: resumed at [x] over the channels [t], the execution
    reaches [e], and the channels are then [t'].  It does not depend on the
    journal, which a script does not see. *)

Definition with_channels (ctx : NodeContext) (t : ChannelsTracker) : NodeContext :=
  mkNodeContext (nc_session_id ctx) (nc_frame_id ctx) t (nc_logs ctx).

Definition segment (x : VmExecution) (t : ChannelsTracker) (e : GeneratorState) (t' : ChannelsTracker) : Prop :=
  ∃ n, ∀ ctx, nc_channels ctx = t → resume n x ctx = Some (Ok (e, with_channels ctx t')).

Inductive ScriptOutcome := SReturns (r : FrameResult) | SWaits (c : RunLogContent).

(** [dialogue x t vs o t']: the execution, given the answers [vs] in order,
    ends or asks a question that none of them answers. *)
Inductive dialogue : VmExecution → ChannelsTracker → list Value → ScriptOutcome → ChannelsTracker → Prop :=
  | dialogue_returns x t vs v r t' :
      segment x t (Complete v) t' → value_to_type v = Ok r → dialogue x t vs (SReturns r) t'
  | dialogue_waits x t v k c t' :
      segment x t (Yielded v k) t' → value_to_type v = Ok c → dialogue x t [] (SWaits c) t'
  | dialogue_answered x t v k (c : RunLogContent) t' answer value vs o t'' :
      segment x t (Yielded v k) t' → value_to_type v = Ok c → json_to_value answer = inr value →
      dialogue (k value) t' vs o t'' → dialogue x t (answer :: vs) o t''.

(** What the outcome makes the node answer, and record when the journal does
    not hold the question yet. *)
Definition outcome_result (o : ScriptOutcome) : FrameResult :=
  match o with SReturns r => r | SWaits c => run_log_content_to_frame_result c end.
Definition outcome_logs (o : ScriptOutcome) (n : nat) (asked : bool) : list RunLog :=
  match o with
  | SWaits c => if asked then [] else [mkRunLog (wrap32 (Z.of_nat n)) c None]
  | SReturns _ => []
  end.

(** The values of a journal: answers, then a question that waits, if any. *)
Definition journal_of (vs : list Value) (asked : bool) : list (option Value) :=
  (Some <$> vs) ++ (if asked then [None] else []).

(** A kept unit is what its script compiles to. *)
Definition coherent (e : GraphScriptEngine) : Prop :=
  ∀ script unit, units e !! script = Some unit → compile_uncached script = inr unit.

(** ** Lemmas *)

Lemma give_mono {A C} (r : Res string A) (k k' : string + A → option (Res string C)) c :
  (∀ s, k s = Some c → k' s = Some c) → give r k = Some c → give r k' = Some c.
Proof. intros Hk. destruct r; simpl; auto. Qed.

Lemma resume_mono n m x ctx r : resume n x ctx = Some r → n ≤ m → resume m x ctx = Some r.
Proof.
  revert m x ctx. induction n as [|n IH]; intros m x ctx Hr Hm; [done|].
  destruct m as [|m]; [lia|]. simpl in *.
  destruct (vm_step x); auto with lia.
  - eapply give_mono; [|exact Hr]. intros; apply IH; [done|lia].
  - destruct (script_write ctx name v); auto with lia.
  - eapply give_mono; [|exact Hr]. intros; apply IH; [done|lia].
Qed.

Lemma with_channels_twice ctx t t' : with_channels (with_channels ctx t) t' = with_channels ctx t'.
Proof. done. Qed.

(** Whatever run of a script is a segment. *)
Lemma resume_segment n x ctx e ctx' :
  resume n x ctx = Some (Ok (e, ctx')) →
  ctx' = with_channels ctx (nc_channels ctx') ∧ segment x (nc_channels ctx) e (nc_channels ctx').
Proof.
  intros Hr. cut (ctx' = with_channels ctx (nc_channels ctx') ∧
    ∀ c, nc_channels c = nc_channels ctx → resume n x c = Some (Ok (e, with_channels c (nc_channels ctx')))).
  { intros [? Hs]. split; [done|]. by exists n. }
  revert x ctx Hr. induction n as [|n IH]; intros x ctx; [done|]. simpl.
  destruct (vm_step x) as [x'|name k|name v k|c k|v|v k|msg]; try done.
  - apply IH.
  - intros Hr. destruct (script_read ctx name) as [v|err|] eqn:E; simpl in Hr; [..|done];
      apply IH in Hr as [? Hr]; (split; [done|]); intros c Hc;
      (assert (script_read c name = script_read ctx name) as -> by
        (unfold script_read, node_read; by rewrite Hc)); rewrite E; by apply Hr.
  - unfold script_write. destruct (value_to_json v) as [err|j]; simpl.
    + intros [? Hr]%IH. auto.
    + intros [Hx Hr]%IH. split; [by destruct ctx, ctx'|]. intros c Hc.
      rewrite Hr; [done|]. unfold node_write. simpl. by rewrite Hc.
  - intros Hr. destruct (run_command c) as [v|err|]; simpl in *; [..|done]; apply IH in Hr as [? Hr]; auto.
  - intros [= <- <-]. split; [by destruct ctx|]. intros c Hc. do 3 f_equal. destruct c. simpl in *. by subst.
  - intros [= <- <-]. split; [by destruct ctx|]. intros c Hc. do 3 f_equal. destruct c. simpl in *. by subst.
Qed.

Lemma drive_mono turns m n n' x ctx r :
  drive turns n x ctx = Some r → turns ≤ m → n ≤ n' → drive m n' x ctx = Some r.
Proof.
  revert m x ctx. induction turns as [|turns IH]; intros m x ctx; [done|]. cbn [drive].
  destruct (resume n x ctx) as [s|] eqn:Es; [|done]. intros Hr Hm Hn.
  destruct m as [|m]; [lia|]. cbn [drive]. rewrite (resume_mono n n' _ _ _ Es Hn).
  destruct s as [[[v|v k] ctx1]|err|]; try done.
  destruct (value_to_type v) as [c|err|]; try done.
  destruct (reserve_log _ _) as [l log]. destruct (check l log) as [[w|]|?|]; try done.
  destruct (json_to_value w); [done|]. apply IH; [done|lia|done].
Qed.

(** One turn of the loop, at a suspension. *)
Lemma drive_turn turns n x ctx v k c t' :
  resume n x ctx = Some (Ok (Yielded v k, with_channels ctx t')) → value_to_type v = Ok c →
  drive (S turns) n x ctx =
  let l := nc_logs ctx in
  match entries l !! cursor l with
  | Some e =>
      let ctx' := set_logs (with_channels ctx t') (mkRunLogs (entries l) (persisted_len l) (S (cursor l))) in
      match rl_value e with
      | None => Some (Ok (ctx', run_log_content_to_frame_result c))
      | Some resolved =>
          match json_to_value resolved with
          | inl error => Some (Err error)
          | inr value => drive turns n (k value) ctx'
          end
      end
  | None =>
      if decide (cursor l = length (entries l)) then
        Some (Ok (set_logs (with_channels ctx t') (reserve_log l c).1, run_log_content_to_frame_result c))
      else Some Panic
  end.
Proof.
  intros Hr Hv. cbn [drive]. rewrite Hr, Hv. cbn [with_channels nc_logs]. cbv zeta.
  destruct (entries (nc_logs ctx) !! cursor (nc_logs ctx)) as [e|] eqn:E.
  - rewrite (reserve_log_persisted _ _ e) by done. cbv beta iota. unfold check. cbn [entries]. rewrite E.
    by destruct (rl_value e) as [w|]; [destruct (json_to_value w)|].
  - case_decide as Hc.
    + rewrite reserve_log_new by done. cbv beta iota. unfold check. cbn [entries fst]. rewrite lookup_app_r by lia.
      by rewrite Hc, Nat.sub_diag.
    + apply lookup_ge_None in E. unfold reserve_log. rewrite decide_True by done.
      cbv beta iota. unfold check. cbn [entries]. rewrite (proj2 (lookup_ge_None _ _)); [done|]. rewrite length_app. simpl. lia.
Qed.

Lemma lookup_journal l vs asked answer :
  rl_value <$> drop (cursor l) (entries l) = journal_of (answer :: vs) asked →
  ∃ e, entries l !! cursor l = Some e ∧ rl_value e = Some answer ∧
    rl_value <$> drop (S (cursor l)) (entries l) = journal_of vs asked.
Proof.
  unfold journal_of. csimpl. intros Hj.
  destruct (drop (cursor l) (entries l)) as [|e es] eqn:Hd; [done|]. injection Hj as Hv Hj.
  assert (entries l !! cursor l = Some e) as He.
  { rewrite <- (Nat.add_0_r (cursor l)), <- lookup_drop, Hd. done. }
  exists e. split_and!; [done|done|]. rewrite (drop_S _ _ _ He) in Hd. by injection Hd as ->.
Qed.

(** The loop follows the dialogue, from the middle of a journal. *)
Lemma drive_follows x t vs o t' asked l s f :
  dialogue x t vs o t' → rl_value <$> drop (cursor l) (entries l) = journal_of vs asked →
  cursor l ≤ length (entries l) →
  ∃ N c, ∀ turns n, N ≤ turns → N ≤ n →
    drive turns n x (mkNodeContext s f t l) =
    Some (Ok (mkNodeContext s f t'
                (mkRunLogs (entries l ++ outcome_logs o (length (entries l)) asked) (persisted_len l) c),
              outcome_result o)).
Proof.
  intros Hd. revert l. induction Hd as [x t vs v r t' [N Hs] Hv|x t v k c t' [N Hs] Hv|
    x t v k c t' answer value vs o t'' [N Hs] Hv Hj Hd IH]; intros l Hl Hc.
  - exists (S N), (cursor l). intros [|turns] n Ht Hn; [lia|]. cbn [drive].
    rewrite (resume_mono N n _ _ _ (Hs (mkNodeContext s f t l) eq_refl)) by lia.
    simpl. rewrite Hv. simpl. by rewrite app_nil_r; destruct l.
  - exists (S N), (S (cursor l)). intros [|turns] n Ht Hn; [lia|].
    rewrite (drive_turn turns n _ _ v k c t'); [|by eapply resume_mono; [by apply Hs|lia]|done].
    cbv zeta. cbn [nc_logs]. unfold journal_of in Hl. destruct asked; simpl in Hl.
    + destruct (drop (cursor l) (entries l)) as [|e es] eqn:Hdr; [done|]. injection Hl as Hv' _.
      assert (entries l !! cursor l = Some e) as ->.
      { rewrite <- (Nat.add_0_r (cursor l)), <- lookup_drop, Hdr. done. }
      rewrite Hv'. simpl. by rewrite app_nil_r.
    + apply fmap_nil_inv, (f_equal length) in Hl. rewrite length_drop in Hl. simpl in Hl.
      rewrite (proj2 (lookup_ge_None _ _)), decide_True by lia.
      rewrite reserve_log_new by lia. simpl. unfold set_logs. simpl. repeat f_equal. lia.
  - destruct (lookup_journal l vs asked answer Hl) as (e&He&Hve&Hrest).
    set (l' := mkRunLogs (entries l) (persisted_len l) (S (cursor l))).
    destruct (IH l') as (M&c'&HM); [done|simpl; apply lookup_lt_Some in He; lia|].
    exists (S (max N M)), c'. intros [|turns] n Ht Hn; [lia|].
    rewrite (drive_turn turns n _ _ v k c t'); [|eapply resume_mono; [by apply Hs|lia]|done].
    cbv zeta. cbn [nc_logs]. rewrite He, Hve, Hj. apply HM; lia.
Qed.

Lemma compile_coherent script e unit :
  coherent e → compile_uncached script = inr unit →
  ∃ e', compile script e = (Ok unit, e') ∧ coherent e'.
Proof.
  intros Hc Hu. unfold compile. destruct (units e !! script) as [u|] eqn:E.
  - apply Hc in E as E'. exists e. split; [|done]. congruence.
  - rewrite Hu. eexists. split; [done|]. intros sc u. simpl.
    intros [[<- <-]|[_ Hs]]%lookup_insert_Some; [done|by apply Hc].
Qed.
End script.

(** ** Properties *)

(** C22: Running a script over the journal of its frame refines the dialogue it
    stands for.  When its answers are those that the journal holds, in order,
    the run ends where the dialogue ends: it answers its result, or the request
    that waits, having written to the channels what the dialogue writes; it
    records that request once, and nothing when the journal already holds it;
    and the engine, whatever it had compiled before, only keeps what scripts
    compile to. *)
Theorem script_replays `{Rune} (channel_error : ChannelError → string) (serde_error : string)
    (engine : GraphScriptEngine) (s : SessionId) (f : FrameId) (t t' : ChannelsTracker) (script : string)
    (unit : RuneUnit) (x : VmExecution) (persisted : list RunLog) (vs : list Value) (asked : bool)
    (o : ScriptOutcome) :
  coherent engine → tracker_read as_str t "script" = Ok script →
  compile_uncached script = inr unit → vm_execute unit = inr x →
  dialogue channel_error serde_error x t vs o t' → rl_value <$> persisted = journal_of vs asked →
  ∃ N c engine', coherent engine' ∧ ∀ turns n, N ≤ turns → N ≤ n →
    execute_script channel_error serde_error turns n (mkNodeContext s f t (run_logs_new persisted)) engine =
    (Some (Ok (mkNodeContext s f t'
                 (mkRunLogs (persisted ++ outcome_logs o (length persisted) asked) (length persisted) c),
               outcome_result o)), engine').
Proof.
  intros He Hs Hu Hx Hd Hl. destruct (compile_coherent script engine unit He Hu) as (engine'&Hc&He').
  destruct (drive_follows channel_error serde_error x t vs o t' asked (run_logs_new persisted) s f Hd)
    as (N&c&HN); [by rewrite drop_0|simpl; lia|].
  exists N, c, engine'. split; [done|]. intros turns n Ht Hn.
  unfold execute_script, read_or_fail, node_read. cbn [nc_channels]. rewrite Hs. cbn [map_err].
  unfold script_execute. rewrite Hc, Hx. by rewrite HN.
Qed.

(** A script ends if each of its resumptions does.  The loop of the engine
    takes at most one turn for each entry that the journal holds beyond the
    cursor, and one more: an answer is used once, and the first request without
    one ends the run. *)
Theorem script_terminates `{Rune} (channel_error : ChannelError → string) (serde_error : string)
    (good : VmExecution → Prop) (x : VmExecution) (ctx : NodeContext) :
  (∀ x ctx, good x → ∃ n r, resume channel_error serde_error n x ctx = Some r ∧
     ∀ v k ctx', r = Ok (Yielded v k, ctx') → ∀ value, good (k value)) →
  good x → cursor (nc_logs ctx) ≤ length (entries (nc_logs ctx)) →
  ∃ n r, drive channel_error serde_error
           (S (length (entries (nc_logs ctx)) - cursor (nc_logs ctx))) n x ctx = Some r.
Proof.
  intros Hgood. remember (length _ - _) as left eqn:Hleft.
  revert x ctx Hleft. induction left as [|left IH]; intros x ctx Hleft Hx Hc;
    destruct (Hgood x ctx Hx) as (n&r&Hr&Hk); clear Hx;
    (destruct r as [[[v|v k] ctx1]|err|];
      [|destruct (resume_segment _ _ _ _ _ _ _ Hr) as [Hctx _]; rewrite Hctx in Hr; clear Hctx
       |exists n; cbn [drive]; rewrite Hr; by eexists..];
      [exists n; cbn [drive]; rewrite Hr; by eexists|]);
    (destruct (value_to_type serde_error v : Res string RunLogContent) as [c|err|] eqn:Hv;
      [|exists n; cbn [drive]; rewrite Hr, Hv; by eexists..]).
  - exists n. rewrite (drive_turn _ _ _ _ _ _ v k c _ Hr Hv). cbv zeta.
    rewrite (proj2 (lookup_ge_None _ _)) by lia. case_decide; by eexists.
  - destruct (entries (nc_logs ctx) !! cursor (nc_logs ctx)) as [e|] eqn:He.
    2:{ apply lookup_ge_None in He. lia. }
    destruct (rl_value e) as [w|] eqn:Hw.
    2:{ exists n. rewrite (drive_turn _ _ _ _ _ _ v k c _ Hr Hv). cbv zeta. rewrite He, Hw. by eexists. }
    destruct (json_to_value w) as [err|value] eqn:Hj.
    { exists n. rewrite (drive_turn _ _ _ _ _ _ v k c _ Hr Hv). cbv zeta. rewrite He, Hw, Hj. by eexists. }
    set (l' := mkRunLogs (entries (nc_logs ctx)) (persisted_len (nc_logs ctx)) (S (cursor (nc_logs ctx)))).
    set (ctx' := set_logs (with_channels ctx (nc_channels ctx1)) l').
    destruct (IH (k value) ctx') as (m&r&Hm); [simpl; lia|by eapply Hk|simpl; lia|].
    exists (max n m), r.
    rewrite (drive_turn _ _ _ _ _ _ v k c _ (resume_mono _ _ _ (max n m) _ _ _ Hr ltac:(lia)) Hv).
    cbv zeta. rewrite He, Hw, Hj. eapply drive_mono; [exact Hm|lia..].
Qed.

(** ** A machine whose programs are trees of calls

    The values are JSON values; a compiled script is a tree, which each of its
    executions follows. *)

Inductive Program :=
  | PRead (name : string) (k : string + Value → Program)
  | PWrite (name : string) (v : Value) (k : string + () → Program)
  | PCommand (c : Command Value) (k : string + Value → Program)
  | PYield (v : Value) (k : Value → Program)
  | PDone (v : Value)
  | PFail (msg : string).

Definition tree_vm (scripts : string → string + Program) : Rune := {|
  RuneValue := Value; RuneUnit := Program; VmExecution := Program;
  json_to_value := inr; value_to_json := inr; compile_uncached := scripts; vm_execute := inr;
  vm_step := λ p,
    match p with
    | PRead name k => CallRead name k
    | PWrite name v k => CallWrite name v k
    | PCommand c k => CallCommand c k
    | PYield v k => StepYielded v k
    | PDone v => StepComplete v
    | PFail msg => StepError msg
    end |}.

(** The operator [?] of the language: an error is what [main] returns, and is
    not a result. *)
Definition try {A} (k : A → Program) (r : string + A) : Program :=
  match r with inl _ => PDone Null | inr a => k a end.

(** The script that the documentation of the engine gives to ask an expert. *)
Definition ask_program : Program :=
  PRead "task" (try (λ task, PRead "expert_id" (try (λ expert_id,
    PCommand (CAskExperts (Array [Object (struct [("task", task); ("expert_id", expert_id)])])) (try (λ request,
      PYield request (λ answers,
        match answers with
        | Array (answer :: _) => PWrite "answer" answer (try (λ _, PCommand CCompleted (try PDone)))
        | _ => PFail "no such index"
        end))))))).

Section native.
Context (scripts : string → string + Program) (channel_error : ChannelError → string) (serde_error : string).
Local Instance vm : Rune := tree_vm scripts.

(** The journal holds what the question asks for, if it holds anything. *)
Definition answered_with_text (persisted : list RunLog) : Prop :=
  match persisted with
  | [] => True
  | log :: _ => match rl_value log with None | Some (Array (Str _ :: _)) => True | _ => False end
  end.

(** The script that asks an expert does what the native node does. *)
Theorem script_is_native (s : SessionId) (f : FrameId) (t : ChannelsTracker) (expert_id task : string)
    (persisted : list RunLog) :
  tracker_read as_str t "expert_id" = Ok expert_id → tracker_read as_str t "task" = Ok task →
  answered_with_text persisted →
  let ctx := mkNodeContext s f t (run_logs_new persisted) in
  drive channel_error serde_error 2 6 ask_program ctx = Some (ask_expert channel_error ctx).
Proof.
  intros He Ht Hp ctx.
  assert (∀ name v, tracker_read as_str t name = Ok v → tracker_read Some t name = Ok (Str v)) as Hread.
  { intros name v. unfold tracker_read, read_value. destruct (snd <$> _) as [u|]; simpl.
    - by destruct (cu_value u); intros; simplify_eq/=.
    - destruct (channels_get _ _) as [w|]; simpl; [|done]. by destruct w; intros; simplify_eq/=. }
  pose proof (Hread _ _ He) as He'. pose proof (Hread _ _ Ht) as Ht'. clear Hread.
  set (q := ConsultExpertsLog [mkRequestAskExpert task expert_id]).
  set (k := λ answers, match answers with
        | Array (answer :: _) => PWrite "answer" answer (try (λ _, PCommand CCompleted (try PDone)))
        | _ => PFail "no such index" end).
  assert (resume channel_error serde_error 6 ask_program ctx =
          Some (Ok (Yielded (to_value q) k, with_channels ctx t))) as Hr.
  { unfold ask_program. cbn [resume vm_step vm tree_vm]. unfold script_read, node_read. cbn [ctx nc_channels].
    rewrite Ht'. cbn [map_err json_to_value vm tree_vm of_sum]. simpl. rewrite He'. reflexivity. }
  assert (@value_to_type vm serde_error RunLogContent _ (to_value q) = Ok q) as Hv by reflexivity.
  rewrite (drive_turn (H := vm) _ _ 1 6 _ ctx _ k q t Hr Hv). cbv zeta. cbn [ctx nc_logs run_logs_new entries cursor].
  unfold ask_expert, read_or_fail, node_read. cbn [nc_channels ctx].
  rewrite He, Ht. cbn [map_err]. unfold ask_one_expert. cbn [mbind res_bind]. cbn [nc_logs].
  destruct persisted as [|log logs].
  - reflexivity.
  - change (nc_logs ctx) with (run_logs_new (log :: logs)).
    rewrite (reserve_log_persisted (run_logs_new (log :: logs))
      (ConsultExpertsLog [mkRequestAskExpert task expert_id]) log eq_refl).
    cbv beta iota zeta. unfold check. cbn [entries run_logs_new cursor].
    change ((log :: logs) !! 0) with (Some log). cbn [mbind res_bind].
    simpl in Hp. destruct (rl_value log) as [[| | | |[|[| | |answer| |] vs]|]|]; try done.
Qed.
End native.

(** ** Examples *)

Definition demo_scripts (script : string) : string + Program :=
  if decide (script = "ask"%string) then inr ask_program else inl "syntax error"%string.
Definition demo_error (e : ChannelError) : string := "no channel".
Definition demo_tracker : ChannelsTracker :=
  tracker_new (fid 1) {["script" := Str "ask"; "task" := Str "6*7"; "expert_id" := Str "e"]}.
Definition demo_asked : RunLogContent := ConsultExpertsLog [mkRequestAskExpert "6*7" "e"].
Definition demo_answer : Value := Array [Str "42"].
Definition demo_after : ChannelsTracker := tracker_write demo_tracker "answer" (Str "42").

(** What is left of the program once it has asked. *)
Definition ask_program_rest (answers : Value) : Program :=
  match answers with
  | Array (answer :: _) => PWrite "answer" answer (try (λ _, PCommand CCompleted (try PDone)))
  | _ => PFail "no such index"
  end.

Section demo.
Local Instance demo_vm : Rune := tree_vm demo_scripts.

Definition demo_context : NodeContext := mkNodeContext sid0 (fid 1) demo_tracker (run_logs_new []).

Lemma demo_dialogue :
  dialogue (H := demo_vm) demo_error "decoding" ask_program demo_tracker [demo_answer] (SReturns FCompleted) demo_after.
Proof.
  eapply (dialogue_answered (H := demo_vm) demo_error "decoding" ask_program demo_tracker (to_value demo_asked)
    ask_program_rest demo_asked demo_tracker demo_answer demo_answer []); [|done|done|].
  - apply (resume_segment (H := demo_vm) demo_error "decoding" 6 ask_program demo_context _ demo_context). vm_compute. reflexivity.
  - eapply (dialogue_returns (H := demo_vm) _ _ _ _ _ (Str "Completed")); [|reflexivity].
    apply (resume_segment (H := demo_vm) demo_error "decoding" 6 (ask_program_rest demo_answer) demo_context
      _ (with_channels demo_context demo_after)). vm_compute. reflexivity.
Qed.

Lemma script_replays_witness :
  ∃ N c engine', coherent (H := demo_vm) engine' ∧ ∀ turns n, N ≤ turns → N ≤ n →
    execute_script (H := demo_vm) demo_error "decoding" turns n
      (mkNodeContext sid0 (fid 1) demo_tracker (run_logs_new [mkRunLog 0 demo_asked (Some demo_answer)])) engine_new =
    (Some (Ok (mkNodeContext sid0 (fid 1) demo_after
                 (mkRunLogs [mkRunLog 0 demo_asked (Some demo_answer)] 1 c), FCompleted)), engine').
Proof.
  exact (script_replays (H := demo_vm) demo_error "decoding" engine_new sid0 (fid 1) demo_tracker demo_after "ask"
    ask_program ask_program [mkRunLog 0 demo_asked (Some demo_answer)] [demo_answer] false (SReturns FCompleted)
    (λ s u Hs, match eq_trans (eq_sym (lookup_empty s)) Hs with end) eq_refl eq_refl eq_refl demo_dialogue eq_refl).
Defined.

(** A program that asks for a text, whatever it is, and ends. *)
Definition hitl_program : Program := PYield (to_value (HitlLog Text)) (λ _, PDone (Str "Completed")).
Definition in_hitl_program (x : Program) : Prop := x = hitl_program ∨ x = PDone (Str "Completed").

Lemma hitl_program_ends x ctx :
  in_hitl_program x →
  ∃ n r, resume (H := demo_vm) demo_error "decoding" n x ctx = Some r ∧
    ∀ v k ctx', r = Ok (Yielded v k, ctx') → ∀ value, in_hitl_program (k value).
Proof.
  intros [-> | ->]; exists 1; eexists; (split; [reflexivity|]); [|done].
  intros v k ctx' [= <- <- <-] value. by right.
Qed.

Definition hitl_context : NodeContext :=
  mkNodeContext sid0 (fid 1) demo_tracker (run_logs_new [mkRunLog 0 (HitlLog Text) (Some (Str "yes"))]).

Lemma script_terminates_witness :
  ∃ n r, drive (H := demo_vm) demo_error "decoding" 2 n hitl_program hitl_context = Some r.
Proof.
  refine (script_terminates (H := demo_vm) demo_error "decoding" in_hitl_program hitl_program hitl_context
    hitl_program_ends (or_introl eq_refl) _). simpl. lia.
Defined.

Lemma script_is_native_witness :
  drive (H := demo_vm) demo_error "decoding" 2 6 ask_program demo_context =
  Some (ask_expert demo_error demo_context).
Proof.
  exact (script_is_native demo_scripts demo_error "decoding" sid0 (fid 1) demo_tracker "e" "6*7" []
    eq_refl eq_refl I).
Defined.
End demo.
