(* ===== verification/Macros.v ===== *)
(** * The macros ([marie-macros/src/lib.rs])

    What the procedural macros read and what they generate: the grammar of
    [spec!], [node!], [rpc!], [job!] and [tool!] over token trees, and the item
    each expands to.  Expressions, types, patterns, blocks and attributes are
    read by [syn], a third-party parser: they are an interface.  The code of a
    specification is an expression, and has a value; that of an item is
    described by its parts, not by its tokens.  The [core_] forms of the macros
    differ by the path of the crate only: it is a parameter of the code of a
    specification, and left out of an item.  Raw identifiers are texts with
    their [r#]. *)

From stdpp Require Import pretty.
From Stdlib Require Import Ascii.
From S2P Require Import Prelude Ids Json Channels Types Spec.

(** ** Tokens *)

Inductive Delimiter := Brace | Parenthesis | Bracket.

Inductive Token :=
  | TIdent (s : string)                          (* keywords included *)
  | TStr (s : string)                            (* a string literal *)
  | TBool (b : bool)
  | TPunct (s : string)
  | TGroup (d : Delimiter) (l : list Token)
  | TOther (n : nat).                            (* any other literal *)

Definition KEYWORDS : list string := ["_"; "abstract"; "as"; "async"; "await"; "become"; "box"; "break"; "const";
  "continue"; "crate"; "do"; "dyn"; "else"; "enum"; "extern"; "false"; "final"; "fn"; "for"; "if"; "impl"; "in"; "let";
  "loop"; "macro"; "match"; "mod"; "move"; "mut"; "override"; "priv"; "pub"; "ref"; "return"; "Self"; "self";
  "static"; "struct"; "super"; "trait"; "true"; "try"; "type"; "typeof"; "unsafe"; "unsized"; "use"; "virtual";
  "where"; "while"; "yield"].

(** The errors that the file reports, and those of [syn]. *)
Inductive MacroError :=
  | AlreadyDefined (key : string)
  | UnknownChannelField (key : string) | UnknownBudgetField (key : string) | UnknownSpecField (key : string)
  | ReducerRequired | SpecRequired | SelfTypeRequired | SecondParameterRequired | TooManyParameters
  | ReturnTypeRequired | NameNotAString | DescriptionNotAString | UnknownAttributeKey | UnsupportedAttribute
  | DescriptionRequired
  | Unexpected (wanted : string).

Notation P := (M (list Token) MacroError).

(** A parser of [syn] never panics and never gives tokens back; one that takes
    a token when it succeeds is strict. *)
Definition safe {A} (p : P A) : Prop := ∀ ts, run_res p ts ≠ Panic ∧ length (run_state p ts) ≤ length ts.
Definition strict {A} (p : P A) : Prop := ∀ ts a ts', p ts = (Ok a, ts') → length ts' < length ts.

(** An item of [#[attr(path = literal, ...)]]. *)
Inductive Literal := LitStr (s : string) | LitOther.
Record Meta := mkMeta { m_path : string; m_value : option Literal }.

(** [syn], and [format_ident!] of [quote]. *)
Class Syn := {
  Expr : Type; Ty : Type; Pattern : Type; Block : Type; Attribute : Type;
  parse_expr : P Expr; parse_type : P Ty; parse_pat : P Pattern; parse_block : P Block;
  parse_visibility : P (); parse_outer : P (list Attribute);
  (** one token, and the content of a group *)
  parse_ident : P string; parse_keyword : string → P (); parse_punct : string → P ();
  parse_lit_str : P string; parse_lit_bool : P bool; parse_group : Delimiter → P (list Token);
  peek_punct : string → list Token → bool; peek_group : Delimiter → list Token → bool;
  (** [Punctuated::parse_terminated] over commas *)
  parse_terminated {A} : P A → P (list A);
  is_reference : Ty → bool;
  (** [attr.path().is_ident(name)]; the items of the attribute, and the error
      that stops their reading *)
  attr_is : Attribute → string → bool;
  attr_items : Attribute → list Meta * option MacroError;
  (** the identifier, or a panic on a text that is none *)
  format_ident : string → Res MacroError string;

  parse_expr_safe : safe parse_expr; parse_type_safe : safe parse_type; parse_pat_safe : safe parse_pat;
  parse_block_safe : safe parse_block; parse_visibility_safe : safe parse_visibility;
  parse_outer_safe : safe parse_outer;
  parse_ident_safe : safe parse_ident; parse_ident_strict : strict parse_ident;
  parse_keyword_safe c : safe (parse_keyword c); parse_keyword_strict c : strict (parse_keyword c);
  parse_punct_safe c : safe (parse_punct c); parse_punct_strict c : strict (parse_punct c);
  parse_lit_str_safe : safe parse_lit_str; parse_lit_str_strict : strict parse_lit_str;
  parse_lit_bool_safe : safe parse_lit_bool;
  parse_group_safe d : safe (parse_group d);
  parse_terminated_safe {A} (p : P A) : safe p → strict p → safe (parse_terminated p);

  parse_ident_reads s ts : s ∉ KEYWORDS → parse_ident (TIdent s :: ts) = (Ok s, ts);
  parse_punct_reads c ts : parse_punct c (TPunct c :: ts) = (Ok (), ts);
  peek_punct_reads c ts : peek_punct c (TPunct c :: ts) = true;
  parse_lit_str_reads s ts : parse_lit_str (TStr s :: ts) = (Ok s, ts);
  parse_lit_bool_reads b ts : parse_lit_bool (TBool b :: ts) = (Ok b, ts);
  parse_group_reads d l ts : parse_group d (TGroup d l :: ts) = (Ok l, ts);
  parse_terminated_reads {A} (p : P A) print l :
    Forall (λ a, ∀ ts, p (print a ++ TPunct "," :: ts) = (Ok a, TPunct "," :: ts)) l →
    run_res (parse_terminated p) (concat ((λ a, print a ++ [TPunct ","]) <$> l)) = Ok l;
  (** an expression is read back, up to a comma or the end *)
  expr_tokens : Expr → list Token; expr_ok : Expr → Prop;
  parse_expr_tokens e rest : expr_ok e → match rest with [] => True | t :: _ => t = TPunct "," end →
    parse_expr (expr_tokens e ++ rest) = (Ok e, rest)
}.

Section macros.
Context `{Syn}.

(** ** Primitives of [ParseStream] *)

Definition is_empty : P bool := gets (λ ts, match ts with [] => true | _ => false end).
Definition peek (c : string) : P bool := gets (peek_punct c).
Definition peek_brace : P bool := gets (peek_group Brace).

(** [.map_err(|_| e)] *)
Definition or_error {A} (e : MacroError) (p : P A) : P A := λ ts,
  match p ts with (Err _, ts') => (Err e, ts') | r => r end.

(** [syn::braced!(content in input)] and [syn::parenthesized!], then the
    parser of the content. *)
Definition delimited {A} (d : Delimiter) (p : P A) : P A :=
  parse_group d ≫= λ content, (λ ts, (run_res p content, ts)) : P A.

(** [while !input.is_empty() { .. }]: each turn takes a token at least, so that
    the number of tokens bounds the turns. *)
Fixpoint turns {S} (fuel : nat) (step : S → P S) (s : S) : P S :=
  empty ← is_empty;
  if empty : bool then mret s
  else match fuel with O => panic | S fuel => s ← step s; turns fuel step s end.
Definition until_empty {S} (step : S → P S) (s : S) : P S := λ ts, turns (length ts) step s ts.

Definition optional_comma : P () :=
  comma ← peek ","; if comma : bool then parse_punct "," else mret ().

(** ** The grammar of [spec!] *)

Record ChannelBlock := mkChannelBlock {
  cb_name : string; cb_reducer : Expr; cb_inherited : bool; cb_exported : bool; cb_imported : bool;
  cb_default : option Expr; cb_overrides : option Expr }.

(** The variables of the loop of [SpecChannel::parse]. *)
Record ChannelFields := mkChannelFields {
  cf_seen : list string; cf_reducer : option Expr; cf_inherited : bool; cf_exported : bool; cf_imported : bool;
  cf_default : option Expr; cf_overrides : option Expr }.
Definition no_fields : ChannelFields := mkChannelFields [] None false false false None None.
Definition see (k : string) (c : ChannelFields) : ChannelFields :=
  mkChannelFields (k :: cf_seen c) (cf_reducer c) (cf_inherited c) (cf_exported c) (cf_imported c)
    (cf_default c) (cf_overrides c).

Inductive Field :=
  | FReducer (e : Expr) | FInherited (b : bool) | FExported (b : bool) | FImported (b : bool)
  | FDefault (e : Expr) | FOverrides (e : Expr).
Definition set_field (f : Field) (c : ChannelFields) : ChannelFields :=
  let '(mkChannelFields s r i x m d o) := c in
  match f with
  | FReducer e => mkChannelFields s (Some e) i x m d o
  | FInherited b => mkChannelFields s r b x m d o
  | FExported b => mkChannelFields s r i b m d o
  | FImported b => mkChannelFields s r i x b d o
  | FDefault e => mkChannelFields s r i x m (Some e) o
  | FOverrides e => mkChannelFields s r i x m d (Some e)
  end.

(** [if !seen.insert(key) { return Err(..) }] *)
Definition fresh_key (seen : list string) : P string :=
  key ← parse_ident; if decide (key ∈ seen) then throw (AlreadyDefined key) else mret key.

Definition channel_field (key : string) : P Field :=
  select key [
    ("reducer", e ← parse_expr; mret (FReducer e));
    ("inherited", b ← parse_lit_bool; mret (FInherited b));
    ("exported", b ← parse_lit_bool; mret (FExported b));
    ("imported", b ← parse_lit_bool; mret (FImported b));
    ("default", e ← parse_expr; mret (FDefault e));
    ("overrides", e ← parse_expr; mret (FOverrides e))] (throw (UnknownChannelField key)).

Definition channel_step (c : ChannelFields) : P ChannelFields :=
  key ← fresh_key (cf_seen c);
  _ ← parse_punct ":";
  f ← channel_field key;
  _ ← optional_comma;
  mret (set_field f (see key c)).

(** [SpecChannel::parse] *)
Definition parse_channel : P ChannelBlock :=
  name ← parse_lit_str;
  _ ← parse_punct ":";
  c ← delimited Brace (until_empty channel_step no_fields);
  match cf_reducer c with
  | None => throw ReducerRequired
  | Some r => mret (mkChannelBlock name r (cf_inherited c) (cf_exported c) (cf_imported c) (cf_default c) (cf_overrides c))
  end.

Record BudgetBlock := mkBudgetBlock { bb_max_step : option Expr; bb_max_tokens : option Expr }.

Definition budget_step (s : list string * BudgetBlock) : P (list string * BudgetBlock) :=
  let '(seen, b) := s in
  key ← fresh_key seen;
  _ ← parse_punct ":";
  b ← select key [
    ("max_step", e ← parse_expr; mret (mkBudgetBlock (Some e) (bb_max_tokens b)));
    ("max_tokens", e ← parse_expr; mret (mkBudgetBlock (bb_max_step b) (Some e)))] (throw (UnknownBudgetField key));
  _ ← optional_comma;
  mret (key :: seen, b).

(** [SpecBudget::parse] *)
Definition parse_budget : P BudgetBlock :=
  s ← until_empty budget_step ([], mkBudgetBlock None None); mret s.2.

Record SpecBlock := mkSpecBlock { sb_budget : option BudgetBlock; sb_channels : list ChannelBlock }.

Definition spec_step (s : list string * SpecBlock) : P (list string * SpecBlock) :=
  let '(seen, b) := s in
  key ← fresh_key seen;
  _ ← parse_punct "=";
  b ← select key [
    ("budget", x ← delimited Brace parse_budget; mret (mkSpecBlock (Some x) (sb_channels b)));
    ("channels", l ← delimited Brace (parse_terminated parse_channel); mret (mkSpecBlock (sb_budget b) l))]
    (throw (UnknownSpecField key));
  _ ← optional_comma;
  mret (key :: seen, b).

(** [SpecBlock::parse] *)
Definition parse_spec : P SpecBlock :=
  s ← until_empty spec_step ([], mkSpecBlock None []); mret s.2.

(** ** The grammar of the items *)

Inductive SelfFields := Unit | Tuple (types : list Ty) | Named (fields : list (string * Ty)).

Definition parse_named_field : P (string * Ty) :=
  name ← parse_ident; _ ← parse_punct ":"; ty ← parse_type; mret (name, ty).

(** [while !content.peek(Token![>]) { .. }] *)
Fixpoint tuple_types (fuel : nat) (types : list Ty) : P (list Ty) :=
  close ← peek ">";
  if close : bool then mret types
  else match fuel with
  | O => panic
  | S fuel =>
      ty ← parse_type;
      comma ← peek ",";
      if comma : bool then _ ← parse_punct ","; tuple_types fuel (types ++ [ty]) else mret (types ++ [ty])
  end.

Definition parse_self_fields : P SelfFields :=
  generic ← peek "<";
  if generic : bool then
    _ ← parse_punct "<";
    braced ← peek_brace;
    fields ← (if braced : bool then l ← delimited Brace (parse_terminated parse_named_field); mret (Named l)
              else (λ ts, (l ← tuple_types (S (length ts)) []; mret (Tuple l)) ts));
    _ ← parse_punct ">";
    mret fields
  else mret Unit.

Record Item := mkItem {
  it_attrs : list Attribute; it_fn_name : string; it_self_fields : SelfFields; it_args : Pattern * Ty;
  it_third : option (Pattern * Ty); it_return : Ty; it_body : Block }.

Definition parse_param : P (Pattern * Ty) := pat ← parse_pat; _ ← parse_punct ":"; ty ← parse_type; mret (pat, ty).

(** [self: Self<..>,] *)
Definition parse_self : P SelfFields :=
  _ ← parse_keyword "self"; _ ← parse_punct ":"; _ ← or_error SelfTypeRequired (parse_keyword "Self");
  fields ← parse_self_fields;
  _ ← or_error SecondParameterRequired (parse_punct ",");
  mret fields.

Definition no_more {A} (a : A) : P A :=
  empty ← is_empty; if empty : bool then mret a else throw TooManyParameters.

(** [async fn name], what precedes it included. *)
Definition parse_head : P (list Attribute * string) :=
  attrs ← parse_outer; _ ← parse_visibility; _ ← parse_keyword "async"; _ ← parse_keyword "fn";
  name ← parse_ident; mret (attrs, name).

Definition parse_tail : P (Ty * Block) :=
  _ ← or_error ReturnTypeRequired (parse_punct "->"); ty ← parse_type; body ← parse_block; mret (ty, body).

(** [Item::parse] *)
Definition parse_item : P Item :=
  '(attrs, name) ← parse_head;
  '(fields, args, third) ← delimited Parenthesis (
    fields ← parse_self;
    args ← parse_param;
    comma ← peek ",";
    third ← (if comma : bool then _ ← parse_punct ","; p ← parse_param; mret (Some p) else mret None);
    no_more (fields, args, third));
  '(ty, body) ← parse_tail;
  mret (mkItem attrs name fields args third ty body).

Definition parse_items : P (list Item) := until_empty (λ l, i ← parse_item; mret (l ++ [i])) [].

Record NodeItem := mkNodeItem {
  ni_spec : SpecBlock; ni_attrs : list Attribute; ni_fn_name : string; ni_self_fields : SelfFields;
  ni_ctx : Pattern * Ty; ni_return : Ty; ni_body : Block }.

(** [NodeItem::parse] *)
Definition parse_node_item : P NodeItem :=
  kw ← or_error SpecRequired parse_ident;
  _ ← (if decide (kw = "spec") then mret () else throw SpecRequired);
  _ ← parse_punct "=";
  spec ← delimited Brace parse_spec;
  '(attrs, name) ← parse_head;
  '(fields, ctx) ← delimited Parenthesis (fields ← parse_self; ctx ← parse_param; no_more (fields, ctx));
  '(ty, body) ← parse_tail;
  mret (mkNodeItem spec attrs name fields ctx ty body).

Definition parse_node_items : P (list NodeItem) := until_empty (λ l, i ← parse_node_item; mret (l ++ [i])) [].

(** ** What is generated *)

(** The first character of a text in UTF-8, and the rest. *)
Definition first_char (s : string) : string * string :=
  match s with
  | EmptyString => (EmptyString, EmptyString)
  | String c _ =>
      let b := nat_of_ascii c in
      let n := (if b <? 128 then 1 else if b <? 224 then 2 else if b <? 240 then 3 else 4)%nat in
      (String.substring 0 n s, String.substring n (String.length s - n) s)
  end.

(** [s.split('_')] *)
Fixpoint split_underscore (current s : string) : list string :=
  match s with
  | EmptyString => [current]
  | String c s =>
      if decide (c = "_"%char) then current :: split_underscore "" s
      else split_underscore (current +:+ String c "") s
  end.

Definition to_pascal_case (to_uppercase : string → string) (s : string) : string :=
  String.concat "" ((λ part, let '(first, rest) := first_char part in to_uppercase first +:+ rest)
    <$> filter (λ part, part ≠ "") (split_underscore "" s)).

Fixpoint dashes (s : string) : string :=
  match s with
  | EmptyString => EmptyString
  | String c s => String (if decide (c = "_"%char) then "-"%char else c) (dashes s)
  end.

Inductive Shape := UnitStruct | TupleStruct (types : list Ty) | BraceStruct (fields : list (string * Ty)).
(** The function [new]: its parameters. *)
Inductive NewFn := NewUnit | NewTuple (params : list (string * Ty)) | NewNamed (args_struct : string).

Record SelfCode := mkSelfCode {
  sc_executor : Shape; sc_non_executor : Shape; sc_args : option (string * list (string * Ty));
  sc_executor_new : NewFn; sc_non_executor_new : NewFn }.

Definition build_tuple_new (types : list Ty) : NewFn :=
  match types with
  | [] => NewUnit
  | _ => NewTuple (imap (λ i ty, ("field" +:+ pretty.pretty i, ty)) types)
  end.

Definition build_self_fields_code (struct_name : string) (f : SelfFields) : SelfCode :=
  match f with
  | Unit => mkSelfCode UnitStruct UnitStruct None NewUnit NewUnit
  | Tuple types =>
      mkSelfCode (match types with [] => UnitStruct | _ => TupleStruct types end) UnitStruct None
        (build_tuple_new types) NewUnit
  | Named fields =>
      let args := struct_name +:+ "Params" in
      mkSelfCode (BraceStruct fields) UnitStruct (Some (args, fields)) (NewNamed args) NewUnit
  end.

Record Kind := mkKind {
  attr_name : string; feature : string; trait_path : string; has_default_third_param : bool;
  wrap_return_in_result : bool; requires_description : bool }.
Definition rpc_kind : Kind := mkKind "rpc" "rpc-executor" "rpc::RemoteProcedureCall" true false false.
Definition job_kind : Kind := mkKind "job" "job-executor" "job::Job" false true false.
Definition tool_kind : Kind := mkKind "tool" "tool-executor" "tools::Toolable" false true true.

(** The parameters of [execute] beyond its first. *)
Inductive Third := GivenThird (p : Pattern * Ty) | IgnoredCaller | NoThird.

Record Generated := mkGenerated {
  g_struct : string; g_docs : list Attribute; g_self : SelfCode; g_trait : string; g_feature : string;
  g_name : string; g_description : option string; g_args : Pattern * Ty; g_third : Third; g_return : Ty;
  g_wrapped : bool; g_body : Block }.

Definition literal (bad : MacroError) (m : Meta) : Res MacroError string :=
  match m_value m with
  | None => Err (Unexpected "=")
  | Some (LitStr s) => Ok s
  | Some LitOther => Err bad
  end.

Record Attrs := mkAttrs { at_name : option string; at_description : option string; at_docs : list Attribute }.

(** [attr.parse_nested_meta(..)] *)
Fixpoint read_items (description : bool) (items : list Meta) (a : Attrs) : Res MacroError Attrs :=
  match items with
  | [] => Ok a
  | m :: items =>
      if decide (m_path m = "name") then
        s ← literal NameNotAString m; read_items description items (mkAttrs (Some s) (at_description a) (at_docs a))
      else if description && bool_decide (m_path m = "description") then
        s ← literal DescriptionNotAString m; read_items description items (mkAttrs (at_name a) (Some s) (at_docs a))
      else Err UnknownAttributeKey
  end.

Fixpoint read_attrs (name : string) (description : bool) (attrs : list Attribute) (a : Attrs) : Res MacroError Attrs :=
  match attrs with
  | [] => Ok a
  | attr :: attrs =>
      if attr_is attr name then
        a ← read_items description (attr_items attr).1 a;
        match (attr_items attr).2 with
        | Some e => Err e
        | None => read_attrs name description attrs a
        end
      else if attr_is attr "doc" then
        read_attrs name description attrs (mkAttrs (at_name a) (at_description a) (at_docs a ++ [attr]))
      else Err UnsupportedAttribute
  end.
Definition no_attrs : Attrs := mkAttrs None None [].

Context (to_uppercase : string → string).

Definition expand_one (k : Kind) (i : Item) : Res MacroError Generated :=
  a ← read_attrs (attr_name k) (requires_description k) (it_attrs i) no_attrs;
  if requires_description k && bool_decide (at_description a = None) then Err DescriptionRequired else
  struct_name ← format_ident (to_pascal_case to_uppercase (it_fn_name i));
  Ok (mkGenerated struct_name (at_docs a) (build_self_fields_code struct_name (it_self_fields i))
    (trait_path k) (feature k) (default (dashes (it_fn_name i)) (at_name a)) (at_description a) (it_args i)
    (match it_third i with
     | Some p => GivenThird p
     | None => if has_default_third_param k then IgnoredCaller else NoThird
     end) (it_return i) (wrap_return_in_result k) (it_body i)).

(** The code generated for a specification: the [quote!] of
    [build_common_spec], expressions of the user interpolated as they are. *)
Definition Path := list string.
Inductive Code :=
  | CExpr (e : Expr)
  | CStr (s : string)
  | CPath (p : Path)
  | CCall (f : Path) (args : list Code)
  | CUnwrap (c : Code)
  | CTuple (l : list Code)
  | CArray (l : list Code)
  | CVec (l : list Code)
  | CStruct (p : Path) (fields : list (string * Code)).

(** [crate] or [marie] *)
Context (crate_path : Path).

Definition CHANNEL_NAME_FROM : Path := ["session"; "channel"; "ChannelName"; "from"].
Definition CHANNEL_SPEC_NEW : Path := ["session"; "channel"; "ChannelSpec"; "new"].
Definition BUDGET : Path := ["session"; "spec"; "Budget"].
Definition COMMON_SPEC : Path := ["session"; "spec"; "CommonSpec"].
Definition OPTION_SOME : Path := ["std"; "option"; "Option"; "Some"].
Definition OPTION_NONE : Path := ["std"; "option"; "Option"; "None"].
Definition DEFAULT : Path := ["std"; "default"; "Default"; "default"].
Definition HASH_MAP_FROM : Path := ["std"; "collections"; "HashMap"; "from"].
Definition TO_VALUE : Path := ["serde_json"; "to_value"].

Definition channel_name (name : string) : Code := CCall (crate_path ++ CHANNEL_NAME_FROM) [CStr name].
Definition channel_spec (c : ChannelBlock) : Code :=
  CCall (crate_path ++ CHANNEL_SPEC_NEW) [CStr (cb_name c); CExpr (cb_reducer c)].
Definition json_entry (name : string) (e : Expr) : Code :=
  CTuple [channel_name name; CUnwrap (CCall TO_VALUE [CExpr e])].
Definition limit_code (e : option Expr) : Code :=
  match e with Some e => CCall OPTION_SOME [CExpr e] | None => CPath OPTION_NONE end.
Definition budget_code (b : option BudgetBlock) : Code :=
  match b with
  | Some b => CStruct (crate_path ++ BUDGET) [("max_step", limit_code (bb_max_step b)); ("max_tokens", limit_code (bb_max_tokens b))]
  | None => CCall DEFAULT []
  end.

(** [build_common_spec] *)
Definition common_spec_code (b : SpecBlock) : Code :=
  let cs := sb_channels b in
  let names (flag : ChannelBlock → bool) := CVec ((λ c, channel_name (cb_name c)) <$> filter (λ c, flag c = true) cs) in
  let values (value : ChannelBlock → option Expr) :=
    CCall HASH_MAP_FROM [CArray (omap (λ c, json_entry (cb_name c) <$> value c) cs)] in
  CStruct (crate_path ++ COMMON_SPEC) [
    ("budget", budget_code (sb_budget b));
    ("channels", CVec (channel_spec <$> cs));
    ("inherited_channels", names cb_inherited);
    ("exported_channels", names cb_exported);
    ("imported_channels", names cb_imported);
    ("default_values", values cb_default);
    ("overrides_channels", values cb_overrides)].

(** ** What this code evaluates to

    An expression of the user has the value that its place asks for; the JSON
    of one is what [serde_json::to_value] gives, [None] where it fails. [Err]
    is code that does not compile. *)
Record Eval := mkEval {
  eval_reducer : Expr → Reducer; eval_json : Expr → option Value; eval_limit : Expr → Z }.

Section evaluation.
Context (ev : Eval).

Definition run_str (c : Code) : Res () string := match c with CStr s => Ok s | _ => Err () end.
Definition run_call {A} (f : Path) (k : list Code → Res () A) (c : Code) : Res () A :=
  match c with CCall g args => if decide (f = g) then k args else Err () | _ => Err () end.
Definition run_field {A} (name : string) (fields : list (string * Code)) (k : Code → Res () A) : Res () A :=
  match list_find (λ p, p.1 = name) fields with Some (_, p) => k p.2 | None => Err () end.
Definition run_struct {A} (p : Path) (k : list (string * Code) → Res () A) (c : Code) : Res () A :=
  match c with CStruct q fields => if decide (p = q) then k fields else Err () | _ => Err () end.
Definition run_vec {A} (k : Code → Res () A) (c : Code) : Res () (list A) :=
  match c with CVec l => mapM k l | _ => Err () end.

Definition run_name : Code → Res () ChannelName :=
  run_call (crate_path ++ CHANNEL_NAME_FROM) (λ args, match args with [c] => run_str c | _ => Err () end).
Definition run_channel : Code → Res () ChannelSpec :=
  run_call (crate_path ++ CHANNEL_SPEC_NEW) (λ args,
    match args with [c; CExpr e] => s ← run_str c; Ok (mkChannelSpec s (eval_reducer ev e)) | _ => Err () end).
Definition run_limit (c : Code) : Res () (option Z) :=
  match c with
  | CPath p => if decide (p = OPTION_NONE) then Ok None else Err ()
  | CCall f [CExpr e] => if decide (f = OPTION_SOME) then Ok (Some (eval_limit ev e)) else Err ()
  | _ => Err ()
  end.
Definition run_budget (c : Code) : Res () Budget :=
  match c with
  | CCall f [] => if decide (f = DEFAULT) then Ok budget_default else Err ()
  | _ => run_struct (crate_path ++ BUDGET) (λ fields,
      s ← run_field "max_step" fields run_limit; t ← run_field "max_tokens" fields run_limit; Ok (mkBudget s t)) c
  end.
(** [to_value(..).unwrap()] *)
Definition run_json (c : Code) : Res () Value :=
  match c with
  | CUnwrap (CCall f [CExpr e]) => if decide (f = TO_VALUE) then unwrap (eval_json ev e) else Err ()
  | _ => Err ()
  end.
Definition run_entry (c : Code) : Res () (ChannelName * Value) :=
  match c with CTuple [n; v] => n ← run_name n; v ← run_json v; Ok (n, v) | _ => Err () end.
(** [HashMap::from] keeps the last value of a name. *)
Definition run_values : Code → Res () Channels :=
  run_call HASH_MAP_FROM (λ args,
    match args with [CArray l] => l ← mapM run_entry l; Ok (channels_extend ∅ l) | _ => Err () end).

Definition run_spec : Code → Res () CommonSpec :=
  run_struct (crate_path ++ COMMON_SPEC) (λ fields,
    b ← run_field "budget" fields run_budget;
    c ← run_field "channels" fields (run_vec run_channel);
    i ← run_field "inherited_channels" fields (run_vec run_name);
    e ← run_field "exported_channels" fields (run_vec run_name);
    m ← run_field "imported_channels" fields (run_vec run_name);
    d ← run_field "default_values" fields run_values;
    o ← run_field "overrides_channels" fields run_values;
    Ok (mkCommonSpec b c i e m d o)).
End evaluation.

Inductive CtxType := AsWritten (ty : Ty) | ByMutableReference (ty : Ty).

Record GeneratedNode := mkGeneratedNode {
  gn_struct : string; gn_docs : list Attribute; gn_self : SelfCode; gn_name : string; gn_spec : Code;
  gn_ctx : Pattern * CtxType; gn_return : Ty; gn_body : Block }.

Definition NODE_FEATURE : string := "node-executor".

Definition expand_node_one (i : NodeItem) : Res MacroError GeneratedNode :=
  a ← read_attrs "node" false (ni_attrs i) no_attrs;
  struct_name ← format_ident (to_pascal_case to_uppercase (ni_fn_name i));
  Ok (mkGeneratedNode struct_name (at_docs a) (build_self_fields_code struct_name (ni_self_fields i))
    (default (dashes (ni_fn_name i)) (at_name a)) (common_spec_code (ni_spec i))
    ((ni_ctx i).1, if is_reference (ni_ctx i).2 then AsWritten (ni_ctx i).2 else ByMutableReference (ni_ctx i).2)
    (ni_return i) (ni_body i)).

(** [parse_macro_input!], then each item: what it gives, or the error that its
    place in the output reports. *)
Definition expand_all {A B} (parse : P (list A)) (one : A → Res MacroError B) (input : list Token) :
    Res MacroError (list (MacroError + B)) :=
  items ← run_res parse input;
  (fix go items :=
     match items with
     | [] => Ok []
     | i :: items =>
         match one i with
         | Panic => Panic
         | Ok b => l ← go items; Ok (inr b :: l)
         | Err e => l ← go items; Ok (inl e :: l)
         end
     end) items.

Definition expand (k : Kind) : list Token → Res MacroError (list (MacroError + Generated)) :=
  expand_all parse_items (expand_one k).
Definition expand_node : list Token → Res MacroError (list (MacroError + GeneratedNode)) :=
  expand_all parse_node_items expand_node_one.
Definition expand_spec (input : list Token) : Res MacroError Code :=
  b ← run_res parse_spec input; Ok (common_spec_code b).
End macros.
