(* ===== verification/Hash.v ===== *)
(** * Rendezvous hashing ([marie-core/src/hrw.rs], [lease/raft.rs])

    Every node scores the candidates of a key and picks the best one; all
    agree without talking. *)

From S2P Require Import Prelude Ids Types.
From stdpp Require Import sorting.
Local Open Scope Z_scope.

(** ** The hash *)

Definition FNV_OFFSET : Z := 14695981039346656037.
Definition FNV_PRIME : Z := 1099511628211.

Definition wrapping_mul (a b : Z) : Z := wrap64 (a * b).

Definition fnv1a (bytes : list Z) : Z :=
  foldl (λ hash b, wrapping_mul (Z.lxor hash b) FNV_PRIME) FNV_OFFSET bytes.

Definition C1 : Z := 18397679294719823053.
Definition C2 : Z := 14181476777654086739.

(** [k ^= k >> 33] *)
Definition xorshift33 (k : Z) : Z := Z.lxor k (Z.shiftr k 33).

Definition fmix64 (k : Z) : Z :=
  let k := xorshift33 k in
  let k := wrapping_mul k C1 in
  let k := xorshift33 k in
  let k := wrapping_mul k C2 in
  xorshift33 k.

Definition combined_hash (key node_id : list Z) : Z :=
  let h := fnv1a key in
  let h := Z.lxor (wrapping_mul h FNV_PRIME) (fnv1a node_id) in
  fmix64 h.

(** [score] *)
Definition hash_score (key node_id : list Z) : Z := combined_hash key node_id.

(** The identifier of a node in the lease group: the same recipe, written a
    second time in [lease/raft.rs]. *)
Definition stable_hash (bytes : list Z) : Z :=
  let hash := foldl (λ hash b, wrapping_mul (Z.lxor hash b) FNV_PRIME) FNV_OFFSET bytes in
  let hash := Z.lxor hash (Z.shiftr hash 33) in
  let hash := wrapping_mul hash C1 in
  let hash := Z.lxor hash (Z.shiftr hash 33) in
  let hash := wrapping_mul hash C2 in
  Z.lxor hash (Z.shiftr hash 33).

(** ** Picking

    The weighted score is a double, [-weight / ln(u)], of the hash; its
    arithmetic is the parameter, as a function from the hash to a key ordered
    as the doubles are.  Every [Pickable] of the program has the default
    weight. *)

Class FloatScore := { score_of_hash : Z → Z }.

Section pick.
Context `{FloatScore}.

Definition weighted_score (key : list Z) (n : NodeId) : Z :=
  score_of_hash (combined_hash key (node_bytes n)).

(** [max_by]: the last of the greatest elements. *)
Fixpoint max_by (score : NodeId → Z) (best : NodeId) (l : list NodeId) : NodeId :=
  match l with
  | [] => best
  | n :: l => max_by score (if score n <? score best then best else n) l
  end.

Definition pick (key : list Z) (nodes : list NodeId) : option NodeId :=
  match nodes with
  | [] => None
  | n :: nodes => Some (max_by (weighted_score key) n nodes)
  end.

(** [sort_by(|a, b| b.partial_cmp(a))]: a stable sort, best first. *)
Fixpoint insert_by_score (score : NodeId → Z) (x : NodeId) (l : list NodeId) : list NodeId :=
  match l with
  | [] => [x]
  | y :: l => if score x <? score y then y :: insert_by_score score x l else x :: y :: l
  end.
Definition sort_by_score (score : NodeId → Z) (l : list NodeId) : list NodeId :=
  foldr (insert_by_score score) [] l.

Definition pick_top_n (key : list Z) (nodes : list NodeId) (n : nat) : list NodeId :=
  take n (sort_by_score (weighted_score key) nodes).
End pick.

(** ** The mixer is a bijection *)

Definition C1_inv : Z := 5725274745694666757.
Definition C2_inv : Z := 11291846944257947611.

Definition xorshift33_inv (k : Z) : Z := xorshift33 k.

Definition unmix64 (k : Z) : Z :=
  let k := xorshift33 k in
  let k := wrapping_mul k C2_inv in
  let k := xorshift33 k in
  let k := wrapping_mul k C1_inv in
  xorshift33 k.

Lemma shiftr_range k n : is_u64 k → 0 ≤ n → is_u64 (Z.shiftr k n).
Proof.
  intros [H0 H1] Hn. rewrite Z.shiftr_div_pow2 by done.
  assert (0 < 2 ^ n) by (apply Z.pow_pos_nonneg; lia).
  split; [by apply Z.div_pos|]. eapply Z.le_lt_trans; [|exact H1].
  apply Z.div_le_upper_bound; [done|nia].
Qed.

Lemma u64_log2 k : is_u64 k → Z.log2 k < 64.
Proof.
  intros [H0 H1]. destruct (decide (k = 0)) as [->|]; [done|].
  apply Z.log2_lt_pow2; [lia|exact H1].
Qed.

Lemma lxor_range a b : is_u64 a → is_u64 b → is_u64 (Z.lxor a b).
Proof.
  intros Ha Hb. pose proof (u64_log2 _ Ha). pose proof (u64_log2 _ Hb). destruct Ha, Hb.
  assert (0 ≤ Z.lxor a b) as Hx by (apply Z.lxor_nonneg; tauto). split; [done|].
  destruct (decide (Z.lxor a b = 0)) as [->|Hne]; [lia|].
  apply Z.log2_lt_pow2; [lia|]. eapply Z.le_lt_trans; [by apply Z.log2_lxor|]. lia.
Qed.

Lemma shiftr_66 k : is_u64 k → Z.shiftr (Z.shiftr k 33) 33 = 0.
Proof.
  intros [H0 H1]. rewrite Z.shiftr_shiftr by lia. rewrite Z.shiftr_div_pow2 by lia.
  apply Z.div_small. split; [done|]. etrans; [exact H1|]. by apply Z.pow_lt_mono_r.
Qed.

Lemma xorshift33_invol k : is_u64 k → xorshift33 (xorshift33 k) = k.
Proof.
  intros Hk. unfold xorshift33. rewrite Z.shiftr_lxor, (shiftr_66 k) by done.
  rewrite Z.lxor_0_r, Z.lxor_assoc, Z.lxor_nilpotent. apply Z.lxor_0_r.
Qed.

Lemma xorshift33_range k : is_u64 k → is_u64 (xorshift33 k).
Proof. intros Hk. apply lxor_range; [done|]. by apply shiftr_range. Qed.

Lemma wrapping_mul_inv k c d : is_u64 k → wrap64 (c * d) = 1 → wrapping_mul (wrapping_mul k c) d = k.
Proof.
  intros Hk Hc. unfold wrapping_mul, wrap64 in *.
  rewrite Z.mul_mod_idemp_l, <- Z.mul_assoc, <- Z.mul_mod_idemp_r, Hc, Z.mul_1_r by lia.
  by apply Z.mod_small.
Qed.

Lemma wrapping_mul_range a b : is_u64 (wrapping_mul a b).
Proof. apply wrap64_range. Qed.

#[local] Hint Resolve xorshift33_range wrapping_mul_range : width.

Lemma unmix_fmix k : is_u64 k → unmix64 (fmix64 k) = k.
Proof.
  intros Hk. unfold unmix64, fmix64. rewrite xorshift33_invol by auto with width.
  rewrite (wrapping_mul_inv _ C2 C2_inv) by (auto with width || vm_compute; reflexivity).
  rewrite xorshift33_invol by auto with width.
  rewrite (wrapping_mul_inv _ C1 C1_inv) by (auto with width || vm_compute; reflexivity).
  by apply xorshift33_invol.
Qed.

(** The final mixing of a hash loses nothing: it is injective on 64-bit
    words, and stays in them. *)
Theorem fmix64_injective (a b : Z) :
  is_u64 a → is_u64 b → fmix64 a = fmix64 b → a = b ∧ is_u64 (fmix64 a).
Proof.
  intros Ha Hb Hab. split.
  - by rewrite <- (unmix_fmix a), Hab, unmix_fmix.
  - unfold fmix64. auto with width.
Qed.

Lemma fmix64_injective_witness : 5 = 5 ∧ is_u64 (fmix64 5).
Proof. apply (fmix64_injective 5 5); [unfold is_u64; lia..|reflexivity]. Defined.

Lemma stable_hash_eq bytes : stable_hash bytes = fmix64 (fnv1a bytes).
Proof. reflexivity. Qed.

(** ** What is picked *)

Section properties.
Context (score : NodeId → Z).

Lemma max_by_spec best l :
  max_by score best l ∈ best :: l ∧ ∀ n, n ∈ best :: l → score n ≤ score (max_by score best l).
Proof.
  revert best. induction l as [|n l IH]; intros best; simpl.
  - split; [left|]. by intros n ->%list_elem_of_singleton.
  - destruct (IH (if score n <? score best then best else n)) as [Hin Hmax]. split.
    + apply elem_of_cons in Hin as [->|]; [case_match; [left|right; left]|by right; right].
    + intros m Hm. destruct (Z.ltb_spec (score n) (score best)) as [Hlt|Hge];
        rewrite !elem_of_cons in Hm; destruct Hm as [->|[->|Hm]];
        try (apply Hmax; (by left) || by right); etrans; try (apply Hmax; left); lia.
Qed.

Lemma insert_by_score_perm x l : insert_by_score score x l ≡ₚ x :: l.
Proof.
  induction l as [|y l IH]; simpl; [done|]. case_match; [|done].
  rewrite IH. apply Permutation_swap.
Qed.
Lemma sort_by_score_perm l : sort_by_score score l ≡ₚ l.
Proof. induction l as [|x l IH]; simpl; [done|]. by rewrite insert_by_score_perm, IH. Qed.

Definition better (x y : NodeId) : Prop := score y ≤ score x.

Lemma insert_by_score_sorted x l :
  StronglySorted better l → StronglySorted better (insert_by_score score x l).
Proof.
  induction 1 as [|y l Hl IH Hy]; simpl; [by repeat constructor|].
  destruct (Z.ltb_spec (score x) (score y)).
  - constructor; [done|]. rewrite insert_by_score_perm. constructor; [unfold better; lia|done].
  - constructor; [by constructor|]. constructor; [done|].
    eapply Forall_impl; [done|]. unfold better. intros; lia.
Qed.
Lemma sort_by_score_sorted l : StronglySorted better (sort_by_score score l).
Proof. induction l; simpl; [constructor|]. by apply insert_by_score_sorted. Qed.
End properties.

(** The scores of a key tell the candidates apart. *)
Definition separates `{FloatScore} (key : list Z) (nodes : list NodeId) : Prop :=
  ∀ a b, a ∈ nodes → b ∈ nodes → weighted_score key a = weighted_score key b → a = b.

Lemma pick_spec `{FloatScore} key nodes n :
  pick key nodes = Some n →
  n ∈ nodes ∧ ∀ m, m ∈ nodes → weighted_score key m ≤ weighted_score key n.
Proof. destruct nodes as [|x nodes]; simpl; [done|]. intros [= <-]. apply max_by_spec. Qed.

Lemma pick_unique `{FloatScore} key nodes n :
  separates key nodes → n ∈ nodes →
  (∀ m, m ∈ nodes → weighted_score key m ≤ weighted_score key n) → pick key nodes = Some n.
Proof.
  intros Hs Hn Hmax. destruct (pick key nodes) as [m|] eqn:E.
  - apply pick_spec in E as [Hm Hmm]. f_equal. apply Hs; [done..|].
    specialize (Hmax _ Hm). specialize (Hmm _ Hn). lia.
  - destruct nodes; [by apply elem_of_nil in Hn|done].
Qed.

(** Every node that knows the same candidates picks the same one, whatever
    the order in which it lists them. *)
Theorem pick_agreement `{FloatScore} (key : list Z) (nodes nodes' : list NodeId) :
  separates key nodes → (∀ n, n ∈ nodes ↔ n ∈ nodes') → pick key nodes = pick key nodes'.
Proof.
  intros Hs Hp. destruct (pick key nodes) as [n|] eqn:E.
  - apply pick_spec in E as [Hn Hmax]. symmetry. apply pick_unique.
    + intros a b Ha Hb. apply Hs; by apply Hp.
    + by apply Hp.
    + intros m Hm. by apply Hmax, Hp.
  - destruct nodes as [|x nodes]; [|done]. destruct nodes' as [|y nodes']; [done|].
    exfalso. apply (not_elem_of_nil y), Hp. left.
Qed.

(** A candidate that leaves moves only the keys it had: the others keep
    their pick. *)
Theorem pick_minimal_disruption `{FloatScore} (key : list Z) (nodes : list NodeId) (gone n : NodeId) :
  separates key nodes → pick key nodes = Some n → gone ≠ n →
  pick key (filter (λ m, m ≠ gone) nodes) = Some n.
Proof.
  intros Hs Hp Hne. apply pick_spec in Hp as [Hn Hmax]. apply pick_unique.
  - intros a b Ha Hb. apply list_elem_of_filter in Ha as [_ Ha], Hb as [_ Hb]. by apply Hs.
  - apply list_elem_of_filter. split; [|done]. by intros ->.
  - intros m [_ Hm]%list_elem_of_filter. by apply Hmax.
Qed.

(** The [n] best candidates are candidates, best first; no candidate left
    out beats one kept; and the first is the one [pick] chooses. *)
Theorem pick_top_n_spec `{FloatScore} (key : list Z) (nodes : list NodeId) (n : nat) :
  separates key nodes →
  let top := pick_top_n key nodes n in
  StronglySorted (λ a b, weighted_score key b ≤ weighted_score key a) top ∧
  length top = (n `min` length nodes)%nat ∧
  (∃ rest, top ++ rest ≡ₚ nodes ∧
     ∀ a b, a ∈ top → b ∈ rest → weighted_score key b ≤ weighted_score key a) ∧
  ((1 ≤ n)%nat → head top = pick key nodes).
Proof.
  intros Hs top. unfold top, pick_top_n. set (l := sort_by_score (weighted_score key) nodes).
  assert (l ≡ₚ nodes) as Hperm by apply sort_by_score_perm.
  assert (StronglySorted (better (weighted_score key)) l) as Hsort by apply sort_by_score_sorted.
  clearbody l. split_and!.
  - rewrite <- (take_drop n l) in Hsort. by apply StronglySorted_app_1_l in Hsort.
  - rewrite length_take. by rewrite Hperm.
  - exists (drop n l). rewrite take_drop. split; [done|]. intros a b Ha Hb.
    rewrite <- (take_drop n l) in Hsort.
    exact (StronglySorted_app_1_elem_of _ _ _ _ _ Hsort Ha Hb).
  - intros Hn. destruct l as [|x l]; simpl.
    { apply Permutation_nil_l in Hperm. subst nodes. by destruct n. }
    destruct n as [|n]; [lia|]. simpl. symmetry. apply pick_unique; [done| |].
    + rewrite <- Hperm. left.
    + intros m. rewrite <- Hperm. intros [->|Hm]%elem_of_cons; [done|].
      apply StronglySorted_inv in Hsort as [_ Hall]. rewrite Forall_forall in Hall. by apply Hall.
Qed.

(** The order in which the candidates are listed plays no part. *)
Lemma pick_top_n_perm `{FloatScore} key nodes nodes' n :
  separates key nodes → nodes ≡ₚ nodes' → pick_top_n key nodes n = pick_top_n key nodes' n.
Proof.
  intros Hs Hp. unfold pick_top_n. f_equal.
  eapply (StronglySorted_unique_strong (better (weighted_score key))).
  - intros a b Ha Hb. rewrite sort_by_score_perm in Ha, Hb. rewrite <- Hp in Hb.
    unfold better. intros. apply Hs; [done..|lia].
  - apply sort_by_score_sorted.
  - apply sort_by_score_sorted.
  - by rewrite !sort_by_score_perm.
Qed.

(** The hash itself in place of the double, for the examples. *)
Definition score_is_hash : FloatScore := {| score_of_hash := λ h, h |}.

Definition node_a : NodeId := mkNodeId [1].
Definition node_b : NodeId := mkNodeId [2].
Definition node_c : NodeId := mkNodeId [3].

Lemma demo_separates : @separates score_is_hash [7] [node_a; node_b; node_c].
Proof.
  intros a b Ha Hb. repeat (rewrite elem_of_cons in Ha || rewrite elem_of_cons in Hb).
  rewrite elem_of_nil in Ha, Hb.
  destruct Ha as [->|[->|[->|[]]]], Hb as [->|[->|[->|[]]]]; intros E; try reflexivity;
    vm_compute in E; discriminate E.
Qed.

Lemma pick_agreement_witness :
  @pick score_is_hash [7] [node_a; node_b; node_c] = @pick score_is_hash [7] [node_c; node_a; node_b].
Proof.
  apply (@pick_agreement score_is_hash [7] [node_a; node_b; node_c] [node_c; node_a; node_b]).
  - apply demo_separates.
  - intros n. rewrite !elem_of_cons. tauto.
Defined.

Lemma pick_minimal_disruption_witness :
  ∃ n, @pick score_is_hash [7] [node_a; node_b; node_c] = Some n ∧
       ∀ gone, gone ≠ n →
         @pick score_is_hash [7] (filter (λ m, m ≠ gone) [node_a; node_b; node_c]) = Some n.
Proof.
  destruct (@pick score_is_hash [7] [node_a; node_b; node_c]) as [n|] eqn:E; [|discriminate].
  exists n. split; [reflexivity|]. intros gone Hg.
  exact (@pick_minimal_disruption score_is_hash [7] [node_a; node_b; node_c] gone n demo_separates E Hg).
Defined.

Lemma pick_top_n_spec_witness :
  head (@pick_top_n score_is_hash [7] [node_a; node_b; node_c] 2) =
  @pick score_is_hash [7] [node_a; node_b; node_c].
Proof.
  apply (@pick_top_n_spec score_is_hash [7] [node_a; node_b; node_c] 2 demo_separates).
  repeat constructor.
Defined.
