(* ===== verification/Annuary.v ===== *)
(** * The directory of the nodes ([marie-core/src/annuary])

    Every node keeps the peers it has heard of with the capabilities each
    declared, asked of the peer by a remote call when it connects, and picks
    the nodes that serve a key among them by rendezvous hashing. *)

From S2P Require Import Prelude Ids Json Types Domains Broadcast Network Post Rpc Hash.

(** ** Capabilities ([capabilities.rs]) *)

Inductive Capability := Gateway | SessionOrchestrator | WorkerNode | State | LeaseNode.
Global Instance Capability_eq_dec : EqDecision Capability. Proof. solve_decision. Defined.

(** The discriminants of the enumeration. *)
Definition capability_bit (c : Capability) : Z :=
  match c with
  | Gateway => 1 | SessionOrchestrator => 2 | WorkerNode => 4 | State => 8 | LeaseNode => 16
  end%Z.

Record Capabilities := mkCapabilities { cap_bits : Z }.
Global Instance Capabilities_eq_dec : EqDecision Capabilities. Proof. solve_decision. Defined.

(** [impl From<Capability> for Capabilities], [Default], [all]. *)
Definition capabilities_of (c : Capability) : Capabilities := mkCapabilities (capability_bit c).
Definition capabilities_default : Capabilities := mkCapabilities 0.
Definition capabilities_all : Capabilities := mkCapabilities 255.

Definition includes (self capabilities : Capabilities) : bool :=
  (Z.land (cap_bits self) (cap_bits capabilities) =? cap_bits capabilities)%Z.

(** [gateway], [orchestrator], [worker], [state] and [lease]. *)
Definition cap_has (c : Capability) (self : Capabilities) : bool :=
  (0 <? Z.land (cap_bits self) (capability_bit c))%Z.

(** [set_gateway], [set_orchestrator], [set_worker], [set_state], [set_lease]. *)
Definition cap_set (c : Capability) (self : Capabilities) : Capabilities :=
  mkCapabilities (Z.lor (cap_bits self) (capability_bit c)).

(** ** The directory ([mod.rs], [protocol.rs]) *)

Inductive AnnuaryEvent :=
  | PeerConnected (n : NodeId)
  | PeerDisconnected (n : NodeId).

Inductive PeerStatus := Unidentified | Alive | Zombie | Dead.

(** Dates are milliseconds; neither the status nor the date is ever read. *)
Record PeerTracker := mkPeerTracker {
  peer_status : PeerStatus; peer_capabilities : Capabilities; expires_at : Z }.

(** The state of an [Annuary], and the calls it has in flight: one task for
    each connection that was reported. *)
Record Annuary := mkAnnuary {
  an_capabilities : Capabilities;
  an_local : NodeId;
  an_peers : gmap NodeId PeerTracker;
  an_pending : list NodeId }.

Definition annuary_new (capabilities : Capabilities) (local : NodeId) : Annuary :=
  mkAnnuary capabilities local ∅ [].

Definition on_node_connected (n : NodeId) (a : Annuary) : Annuary :=
  mkAnnuary (an_capabilities a) (an_local a) (an_peers a) (an_pending a ++ [n]).

Definition on_node_disconnected (n : NodeId) (a : Annuary) : Annuary :=
  mkAnnuary (an_capabilities a) (an_local a) (base.delete n (an_peers a)) (an_pending a).

Definition handle_annuary_event (e : AnnuaryEvent) (a : Annuary) : Annuary :=
  match e with
  | PeerConnected n => on_node_connected n a
  | PeerDisconnected n => on_node_disconnected n a
  end.

Definition TWO_HOURS : Z := 2 * 60 * 60 * 1000.

(** [entry(node_id).or_insert_with(..)] *)
Definition insert_peer (n : NodeId) (c : Capabilities) (now : Z) (a : Annuary) : Annuary :=
  match an_peers a !! n with
  | Some _ => a
  | None => mkAnnuary (an_capabilities a) (an_local a)
              (<[n := mkPeerTracker Alive c (now + TWO_HOURS)]> (an_peers a)) (an_pending a)
  end.

(** The end of [handle_peer_connection], with what the call returned: an
    error ends the task, and nobody looks at it. *)
Definition handle_peer_connection (n : NodeId) (r : Res RpcError Capabilities) (now : Z) (a : Annuary) : Annuary :=
  match r with
  | Ok c => insert_peer n c now a
  | Err _ | Panic => a
  end.

(** The first task of the list that is for [n] ends. *)
Fixpoint remove_first (n : NodeId) (l : list NodeId) : list NodeId :=
  match l with
  | [] => []
  | m :: l => if decide (m = n) then l else m :: remove_first n l
  end.

(** The loop takes an event, or a task gets its answer. *)
Inductive AnnuaryAction :=
  | OnEvent (e : AnnuaryEvent)
  | OnAnswer (n : NodeId) (r : Res RpcError Capabilities) (now : Z).

Definition annuary_step (x : AnnuaryAction) (a : Annuary) : option Annuary :=
  match x with
  | OnEvent e => Some (handle_annuary_event e a)
  | OnAnswer n r now =>
      if decide (n ∈ an_pending a)
      then Some (handle_peer_connection n r now
             (mkAnnuary (an_capabilities a) (an_local a) (an_peers a) (remove_first n (an_pending a))))
      else None
  end.

Definition annuary_run (xs : list AnnuaryAction) (a : Annuary) : option Annuary :=
  foldl (λ o x, o ≫= annuary_step x) (Some a) xs.

Section directory.
Context `{HashIter}.

Definition candidates (c : Capabilities) (a : Annuary) : list NodeId :=
  (filter (λ p, includes (peer_capabilities p.2) c = true) (hash_iter (an_peers a))).*1.

Definition nodes_with (c : Capabilities) (a : Annuary) : list NodeId :=
  candidates c a ++ (if includes (an_capabilities a) c then [an_local a] else []).

(** [Annuary::pick_top_n] collects the same nodes. *)
Definition annuary_pick_top_n `{FloatScore} (id : list Z) (c : Capabilities) (n : nat) (a : Annuary) : list NodeId :=
  pick_top_n id (candidates c a ++ (if includes (an_capabilities a) c then [an_local a] else [])) n.
End directory.

(** ** Routers: [trait RouteAnnuaryEvents] *)

Definition ANNUARY_TOPIC : string := "/marie/annuary".

Section network_router.
Context `{PeerIds} `{Broadcast} `{JsonCodec AnnuaryEvent}.

Record NetworkAnnuaryEventRouter := mkNetworkAnnuary { na_network : Network; na_local : NodeId }.

Definition network_annuary_new (n : Network) : NetworkAnnuaryEventRouter :=
  mkNetworkAnnuary (network_subscribe ANNUARY_TOPIC n) (node_of_peer (nw_local_id n)).

(** The filter of [stream_events]. *)
Definition annuary_match (e : NetworkEvent) : option AnnuaryEvent :=
  match e with
  | NodeConnected n => Some (PeerConnected n)
  | NodeDisconnected n => Some (PeerDisconnected n)
  | EventReceived _ topic data _ => if decide (topic = ANNUARY_TOPIC) then decode data else None
  | _ => None
  end.
End network_router.

(** ** The remote call ([annuary/rpc.rs]) *)

Definition GET_CAPABILITIES : string := "/marie/annuary/capabilities/get".

Definition capabilities_to_value (c : Capabilities) : Value := Num (NInt (cap_bits c)).
Definition capabilities_from_value (serde_error : Value → string) (v : Value) : Capabilities + string :=
  match v with
  | Num (NInt z) => if ((0 <=? z) && (z <? 256))%Z then inl (mkCapabilities z) else inr (serde_error v)
  | _ => inr (serde_error v)
  end.

(** [Void]: written [null], read from anything. *)
Definition void_to_value (_ : ()) : Value := Null.
Definition void_from_value (_ : Value) : option () := Some ().

Definition get_capabilities (a : Annuary) : RpcExecutor :=
  rpc_executor_new void_from_value capabilities_to_value (λ _ _, Some (an_capabilities a)).

(** ** Capabilities are sets *)

Lemma u8_high z i : is_u8 z → (8 ≤ i)%Z → Z.testbit z i = false.
Proof.
  intros Hz Hi. rewrite <- (Z.mod_small z (2 ^ 8)) by exact Hz. by apply Z.mod_pow2_bits_high.
Qed.

Lemma u8_lor a b : is_u8 a → is_u8 b → is_u8 (Z.lor a b).
Proof.
  intros Ha Hb. unfold is_u8. destruct Ha, Hb. split; [by apply Z.lor_nonneg|].
  destruct (decide (Z.lor a b = 0)%Z) as [->|]; [lia|]. apply Z.log2_lt_pow2.
  - assert (0 ≤ Z.lor a b)%Z by by apply Z.lor_nonneg. lia.
  - rewrite Z.log2_lor by done. apply Z.max_lub_lt.
    + destruct (decide (a = 0)%Z) as [->|]; [done|]. apply Z.log2_lt_pow2; lia.
    + destruct (decide (b = 0)%Z) as [->|]; [done|]. apply Z.log2_lt_pow2; lia.
Qed.

Lemma includes_spec a b :
  includes a b = true ↔ ∀ i, Z.testbit (cap_bits b) i = true → Z.testbit (cap_bits a) i = true.
Proof.
  unfold includes. rewrite Z.eqb_eq. split.
  - intros Hab i Hi. rewrite <- Hab, Z.land_spec in Hi. by apply andb_true_iff in Hi as [? _].
  - intros Hab. apply Z.bits_inj'. intros i _. rewrite Z.land_spec.
    destruct (Z.testbit (cap_bits b) i) eqn:E; [by rewrite (Hab _ E)|apply andb_false_r].
Qed.

Lemma includes_trans a b c : includes a b = true → includes b c = true → includes a c = true.
Proof. rewrite !includes_spec. auto. Qed.

Lemma cap_has_includes c a : cap_has c a = includes a (capabilities_of c).
Proof.
  unfold cap_has, includes, capabilities_of. cbn [cap_bits].
  assert (∃ n, 0 ≤ n ∧ capability_bit c = 2 ^ n)%Z as (n&Hn&->).
  { destruct c; [by exists 0%Z|by exists 1%Z|by exists 2%Z|by exists 3%Z|by exists 4%Z]. }
  destruct (Z.testbit (cap_bits a) n) eqn:E.
  - assert (Z.land (cap_bits a) (2 ^ n) = 2 ^ n)%Z as ->.
    { apply Z.bits_inj'. intros i _. rewrite Z.land_spec, Z.pow2_bits_eqb by done.
      destruct (Z.eqb_spec n i) as [->|]; [by rewrite E|apply andb_false_r]. }
    rewrite Z.eqb_refl. apply Z.ltb_lt. lia.
  - assert (Z.land (cap_bits a) (2 ^ n) = 0)%Z as ->.
    { apply Z.bits_inj'. intros i _. rewrite Z.land_spec, Z.pow2_bits_eqb, Z.bits_0 by done.
      destruct (Z.eqb_spec n i) as [->|]; [by rewrite E|apply andb_false_r]. }
    symmetry. apply Z.eqb_neq. lia.
Qed.

(** C33: declaring a capability keeps the set within a byte, adds that
    capability and no other, and loses none; and asking for a capability is
    inclusion of its singleton. *)
Theorem cap_set_spec (c c' : Capability) (a : Capabilities) :
  is_u8 (cap_bits a) →
  is_u8 (cap_bits (cap_set c a)) ∧ includes capabilities_all (cap_set c a) = true ∧
  includes (cap_set c a) a = true ∧
  cap_has c' (cap_set c a) = bool_decide (c' = c) || cap_has c' a ∧
  cap_has c' a = includes a (capabilities_of c').
Proof.
  intros Ha. assert (is_u8 (cap_bits (cap_set c a))) as Hu.
  { apply u8_lor; [done|]. unfold is_u8. destruct c; simpl; lia. }
  split_and!; [done| | | |apply cap_has_includes].
  - apply includes_spec. intros i Hi. change (Z.testbit (Z.ones 8) i = true).
    rewrite Z.testbit_ones by lia. destruct (decide (i < 0)%Z).
    + by rewrite Z.testbit_neg_r in Hi by done.
    + destruct (decide (8 ≤ i)%Z); [by rewrite u8_high in Hi|]. apply andb_true_iff. split; lia.
  - apply includes_spec. intros i Hi. cbn [cap_set cap_bits]. by rewrite Z.lor_spec, Hi.
  - unfold cap_has, cap_set. cbn [cap_bits]. rewrite Z.land_lor_distr_l.
    destruct (decide (c' = c)) as [->|Hne].
    + rewrite bool_decide_true, Z.land_diag by done. simpl. apply Z.ltb_lt.
      assert (0 < capability_bit c)%Z by (destruct c; simpl; lia).
      assert (0 ≤ Z.lor (Z.land (cap_bits a) (capability_bit c)) (capability_bit c))%Z.
      { apply Z.lor_nonneg. split; [apply Z.land_nonneg; right|]; lia. }
      enough (Z.lor (Z.land (cap_bits a) (capability_bit c)) (capability_bit c) ≠ 0)%Z by lia.
      intros [_ E]%Z.lor_eq_0_iff. lia.
    + rewrite bool_decide_false by done. simpl. f_equal.
      assert (Z.land (capability_bit c) (capability_bit c') = 0)%Z as -> by by destruct c, c'.
      apply Z.lor_0_r.
Qed.

Lemma cap_set_spec_witness :
  cap_has WorkerNode (cap_set WorkerNode (capabilities_of Gateway)) = true ∧
  cap_has State (cap_set WorkerNode (capabilities_of Gateway)) = false.
Proof.
  split.
  - destruct (cap_set_spec WorkerNode WorkerNode (capabilities_of Gateway)) as (_&_&_&H&_);
      [split; [discriminate|reflexivity]|exact H].
  - destruct (cap_set_spec WorkerNode State (capabilities_of Gateway)) as (_&_&_&H&_);
      [split; [discriminate|reflexivity]|exact H].
Defined.

(** ** What the directory knows *)

(** The answers a peer gave, in the order they came. *)
Definition answers_of (n : NodeId) (xs : list AnnuaryAction) : list Capabilities :=
  omap (λ x, match x with
    | OnAnswer m (Ok c) _ => if decide (m = n) then Some c else None
    | _ => None
    end) xs.

Definition disconnects (n : NodeId) (x : AnnuaryAction) : bool :=
  match x with OnEvent (PeerDisconnected m) => bool_decide (m = n) | _ => false end.

(** What has happened since the last disconnection of a peer. *)
Fixpoint since_disconnection (n : NodeId) (xs : list AnnuaryAction) : list AnnuaryAction :=
  match xs with
  | [] => []
  | x :: xs =>
      if existsb (disconnects n) (x :: xs)
      then (if disconnects n x && negb (existsb (disconnects n) xs) then xs else since_disconnection n xs)
      else x :: xs
  end.

Lemma since_disconnection_none n xs : existsb (disconnects n) xs = false → since_disconnection n xs = xs.
Proof. destruct xs as [|x xs]; [done|]. intros Hx. simpl in *. by rewrite Hx. Qed.

Lemma since_disconnection_snoc n xs x :
  since_disconnection n (xs ++ [x]) =
    if disconnects n x then [] else since_disconnection n xs ++ [x].
Proof.
  induction xs as [|y xs IH]; simpl; [by destruct (disconnects n x)|].
  rewrite existsb_app. simpl. rewrite orb_false_r.
  destruct (disconnects n y) eqn:Ey, (existsb (disconnects n) xs) eqn:Es; simpl; rewrite ?IH; try done.
  - destruct (disconnects n x); [|done]. simpl. done.
  - destruct (disconnects n x); [|done]. done.
Qed.

Lemma annuary_run_snoc xs x a : annuary_run (xs ++ [x]) a = annuary_run xs a ≫= annuary_step x.
Proof. unfold annuary_run. by rewrite foldl_snoc. Qed.

Lemma insert_peer_known n m c now a :
  peer_capabilities <$> an_peers (insert_peer m c now a) !! n =
    match peer_capabilities <$> an_peers a !! n with
    | Some c' => Some c'
    | None => if decide (m = n) then Some c else None
    end.
Proof.
  unfold insert_peer. destruct (an_peers a !! m) as [t|] eqn:E.
  - destruct (an_peers a !! n) as [t'|] eqn:En; [done|]. simpl. by rewrite decide_False by congruence.
  - simpl. destruct (decide (m = n)) as [->|Hne].
    + by rewrite lookup_insert_eq, E.
    + rewrite lookup_insert_ne by done. by destruct (an_peers a !! n).
Qed.

Lemma annuary_step_known x a a' n :
  annuary_step x a = Some a' →
  peer_capabilities <$> an_peers a' !! n =
    if disconnects n x then None
    else match peer_capabilities <$> an_peers a !! n with
         | Some c => Some c
         | None => head (answers_of n [x])
         end.
Proof.
  destruct x as [[m|m]|m r now]; simpl.
  - intros [= <-]. simpl. by destruct (an_peers a !! n).
  - intros [= <-]. simpl. case_bool_decide as Hm; [by rewrite Hm, lookup_delete_eq|].
    rewrite lookup_delete_ne by done. by destruct (an_peers a !! n).
  - destruct (decide (m ∈ an_pending a)); [|done]. intros [= <-]. destruct r as [c|err|]; simpl.
    + rewrite insert_peer_known. simpl. destruct (an_peers a !! n); [done|]. by destruct (decide (m = n)).
    + by destruct (an_peers a !! n).
    + by destruct (an_peers a !! n).
Qed.

(** The capabilities that the directory holds for a peer are those of the
    first answer it gave after the last disconnection that was reported for
    it, and of no other: a later answer never replaces them, whatever the
    time, and an answer that comes after the disconnection counts. *)
Theorem annuary_knows (xs : list AnnuaryAction) (capabilities : Capabilities) (local n : NodeId) (a : Annuary) :
  annuary_run xs (annuary_new capabilities local) = Some a →
  peer_capabilities <$> an_peers a !! n = head (answers_of n (since_disconnection n xs)).
Proof.
  revert a. induction xs as [|x xs IH] using rev_ind; intros a; [by intros [= <-]|].
  rewrite annuary_run_snoc. intros (a1&Hr&Hx)%bind_Some. rewrite (annuary_step_known _ _ _ n Hx), (IH _ Hr).
  rewrite since_disconnection_snoc. destruct (disconnects n x); [done|].
  unfold answers_of at 3. rewrite omap_app. fold (answers_of n (since_disconnection n xs)).
  by destruct (answers_of n (since_disconnection n xs)).
Qed.

Definition demo_local : NodeId := mkNodeId [0]%Z.
(** [node_a] leaves while its first answer is on its way; [node_b] comes back
    with another capability. *)
Definition demo_history : list AnnuaryAction :=
  [OnEvent (PeerConnected node_a); OnEvent (PeerDisconnected node_a);
   OnAnswer node_a (Ok (capabilities_of WorkerNode)) 5;
   OnEvent (PeerConnected node_b); OnAnswer node_b (Ok (capabilities_of State)) 6;
   OnEvent (PeerConnected node_b); OnAnswer node_b (Ok (capabilities_of Gateway)) 7].

Lemma annuary_knows_witness :
  ∃ a, annuary_run demo_history (annuary_new capabilities_default demo_local) = Some a ∧
    peer_capabilities <$> an_peers a !! node_a = Some (capabilities_of WorkerNode) ∧
    peer_capabilities <$> an_peers a !! node_b = Some (capabilities_of State).
Proof.
  destruct (annuary_run demo_history (annuary_new capabilities_default demo_local)) as [a|] eqn:E;
    [|vm_compute in E; discriminate E].
  exists a. split; [reflexivity|]. split.
  - exact (annuary_knows _ _ _ node_a _ E).
  - exact (annuary_knows _ _ _ node_b _ E).
Defined.

(** ** Which nodes serve a capability *)

Lemma elem_of_nodes_with `{HashIter} c a n :
  n ∈ nodes_with c a ↔
    (∃ t, an_peers a !! n = Some t ∧ includes (peer_capabilities t) c = true) ∨
    (n = an_local a ∧ includes (an_capabilities a) c = true).
Proof.
  unfold nodes_with, candidates. rewrite elem_of_app, list_elem_of_fmap. split.
  - intros [([m t]&->&Hf)|Hl].
    + apply list_elem_of_filter in Hf as [Hi Hin%elem_of_hash_iter]. left. by exists t.
    + destruct (includes (an_capabilities a) c); [|by apply elem_of_nil in Hl].
      apply list_elem_of_singleton in Hl as ->. by right.
  - intros [(t&Ht&Hi)|[-> ->]]; [left|right; by left].
    exists (n, t). split; [done|]. apply list_elem_of_filter. split; [done|]. by apply elem_of_hash_iter.
Qed.

Lemma nodes_with_NoDup `{HashIter} c a : an_peers a !! an_local a = None → NoDup (nodes_with c a).
Proof.
  intros Hl. unfold nodes_with. apply NoDup_app. split_and!.
  - apply NoDup_fmap_fst; [|apply NoDup_filter; rewrite hash_iter_perm; apply NoDup_map_to_list].
    intros m t t' [_ Ht%elem_of_hash_iter]%list_elem_of_filter [_ Ht'%elem_of_hash_iter]%list_elem_of_filter.
    congruence.
  - intros n Hn. destruct (includes (an_capabilities a) c); [|by intros ?%elem_of_nil].
    intros ->%list_elem_of_singleton. apply list_elem_of_fmap in Hn as ([m t]&Hm&Hf).
    apply list_elem_of_filter in Hf as [_ Hin%elem_of_hash_iter]. simpl in Hm. congruence.
  - destruct (includes (an_capabilities a) c); [by apply NoDup_singleton|by apply NoDup_nil].
Qed.

(** Two nodes, each in its own directory and with its own iteration order,
    that agree on which nodes have a capability pick the same nodes for a key,
    in the same order; and each node they pick has the capability. *)
Theorem annuary_picks_agree `{FloatScore} (it it' : HashIter) (a b : Annuary) (id : list Z)
    (c : Capabilities) (n : nat) :
  an_peers a !! an_local a = None → an_peers b !! an_local b = None →
  (∀ m, m ∈ @nodes_with it c a ↔ m ∈ @nodes_with it' c b) →
  separates id (@nodes_with it c a) →
  @annuary_pick_top_n it _ id c n a = @annuary_pick_top_n it' _ id c n b ∧
  ∀ m, m ∈ @annuary_pick_top_n it _ id c n a → m ∈ @nodes_with it c a.
Proof.
  intros Ha Hb Hab Hs. split.
  - apply pick_top_n_perm; [exact Hs|].
    apply NoDup_Permutation; [by apply nodes_with_NoDup..|exact Hab].
  - intros m Hm. unfold annuary_pick_top_n, pick_top_n in Hm. fold (nodes_with c a) in Hm.
    apply elem_of_take in Hm as (i&Hi&_). apply list_elem_of_lookup_2 in Hi.
    by rewrite sort_by_score_perm in Hi.
Qed.

Definition demo_directory (local : NodeId) (others : list NodeId) : Annuary :=
  mkAnnuary (capabilities_of WorkerNode) local
    (list_to_map ((λ n, (n, mkPeerTracker Alive (capabilities_of WorkerNode) 0)) <$> others)) [].

Lemma annuary_picks_agree_witness :
  @annuary_pick_top_n canonical_iter score_is_hash [7]%Z (capabilities_of WorkerNode) 2
    (demo_directory node_a [node_b; node_c]) =
  @annuary_pick_top_n canonical_iter score_is_hash [7]%Z (capabilities_of WorkerNode) 2
    (demo_directory node_c [node_a; node_b]).
Proof.
  assert (∀ m, m ∈ @nodes_with canonical_iter (capabilities_of WorkerNode) (demo_directory node_a [node_b; node_c])
    ↔ m ∈ [node_a; node_b; node_c]) as E1.
  { intros m. change (nodes_with _ _) with [node_c; node_b; node_a]. rewrite !elem_of_cons. tauto. }
  assert (∀ m, m ∈ @nodes_with canonical_iter (capabilities_of WorkerNode) (demo_directory node_c [node_a; node_b])
    ↔ m ∈ [node_a; node_b; node_c]) as E2.
  { intros m. change (nodes_with _ _) with [node_a; node_b; node_c]. reflexivity. }
  apply (@annuary_picks_agree score_is_hash canonical_iter canonical_iter
    (demo_directory node_a [node_b; node_c]) (demo_directory node_c [node_a; node_b])).
  - reflexivity.
  - reflexivity.
  - intros m. rewrite E1, E2. reflexivity.
  - intros x y Hx Hy. apply demo_separates; [by apply E1|by apply E1].
Defined.

(** ** Asking a peer *)

Lemma capabilities_roundtrip e c :
  is_u8 (cap_bits c) → capabilities_from_value e (capabilities_to_value c) = inl c.
Proof.
  intros [H0 H1]. unfold capabilities_from_value, capabilities_to_value.
  change (2 ^ 8)%Z with 256%Z in H1. rewrite (proj2 (Z.leb_le _ _) H0), (proj2 (Z.ltb_lt _ _) H1). by destruct c.
Qed.

(** Through the post office of a process with nothing on its way, the call
    that a reported connection starts is answered in five turns of the client
    and the server with the capabilities of the directory that serves it; a
    peer that was not known is then known with these, and served under each
    capability they include. *)
Theorem peer_is_learned `{Broadcast} `{JsonCodec RpcMessage} `{HashIter} (serde_error : Value → string)
    (server : gmap string RpcExecutor) (r : Rpc) (served a : Annuary) (id : RpcId) (now later : Z) (n : NodeId) :
  rpc_idle r → server !! GET_CAPABILITIES = Some (get_capabilities served) →
  is_u8 (cap_bits (an_capabilities served)) → an_peers a !! n = None →
  let r' := rpc_run server (TurnCall id now GET_CAPABILITIES (void_to_value ()) n :: await_turns) r in
  ∃ res, rpc_await (capabilities_from_value serde_error) (length (rc_calls (rpc_client r))) (rpc_client r') = Some res ∧
    ∃ a', annuary_run [OnEvent (PeerConnected n); OnAnswer n res later] a = Some a' ∧
      peer_capabilities <$> an_peers a' !! n = Some (an_capabilities served) ∧
      ∀ c, includes (an_capabilities served) c = true → n ∈ nodes_with c a'.
Proof.
  intros Hi Hs Hu Hn r'. exists (Ok (an_capabilities served)). split.
  - destruct (rpc_completes server r id now GET_CAPABILITIES (void_to_value ()) n
      (inr (capabilities_to_value (an_capabilities served))) Hi) as [_ Hc].
    { by eapply execute_call_some. }
    unfold rpc_await. subst r'. rewrite Hc. by rewrite capabilities_roundtrip.
  - destruct (annuary_run [OnEvent (PeerConnected n); OnAnswer n (Ok (an_capabilities served)) later] a)
      as [a'|] eqn:E.
    2: { cbn in E. by rewrite decide_True in E by (apply elem_of_app; right; by left). }
    exists a'. split; [done|]. cbn in E. rewrite decide_True in E by (apply elem_of_app; right; by left).
    injection E as <-.
    assert (peer_capabilities <$> an_peers (insert_peer n (an_capabilities served) later
      (mkAnnuary (an_capabilities a) (an_local a) (an_peers a) (remove_first n (an_pending a ++ [n])))) !! n
      = Some (an_capabilities served)) as Hk.
    { rewrite insert_peer_known. cbn [an_peers]. rewrite Hn. simpl. by rewrite decide_True. }
    split; [exact Hk|]. intros c Hc. apply elem_of_nodes_with. left.
    apply fmap_Some in Hk as (t&Ht&Htc). exists t. by rewrite <- Htc.
Qed.

Lemma peer_is_learned_witness :
  ∃ res, rpc_await (capabilities_from_value (λ _, "")) 0
    (rpc_client (@rpc_run queues numbered {[ GET_CAPABILITIES := get_capabilities (demo_directory node_b []) ]}
      (TurnCall (mkRpcId (mkID 0 1)) 0 GET_CAPABILITIES Null node_b :: await_turns) demo_start)) = Some res.
Proof.
  destruct (@peer_is_learned queues numbered canonical_iter (λ _, "")
    {[ GET_CAPABILITIES := get_capabilities (demo_directory node_b []) ]} demo_start
    (demo_directory node_b []) (demo_directory node_a []) (mkRpcId (mkID 0 1)) 0 9 node_b) as (res&Hr&_).
  - exact (@rpc_start_idle queues numbered demo_start demo_start_ok).
  - reflexivity.
  - split; [discriminate|reflexivity].
  - reflexivity.
  - exists res. exact Hr.
Defined.
