(* ===== verification/Lease.v ===== *)
(** * Session leases ([marie-core/src/lease])

    One node at a time drives a session: it holds the session's lease, an
    expiry date and an epoch granted by a Raft group.  [authority.rs] is the
    replicated state machine, [storage.rs] the log and the snapshots that
    openraft drives, [client.rs] the callers' side, [server.rs] the choice of
    the node that initialises the group.

    Dates and durations are nanoseconds.  openraft and the transport are
    parameters; so is the JSON codec of a snapshot. *)

From S2P Require Import Prelude Ids Types Hash.
From stdpp Require Import sorting.
Local Open Scope Z_scope.

(** ** Messages ([protocol.rs]) *)

Inductive LeaseOp :=
  | Acquire (holder : NodeId) (ttl : Z)
  | Renew (holder : NodeId) (epoch : Z) (ttl : Z)
  | Release (holder : NodeId) (epoch : Z).

Record LeaseRequest := mkLeaseRequest {
  lr_request_id : ID; lr_session_id : SessionId; lr_op : LeaseOp }.

Inductive LeaseResult :=
  | Granted (epoch expires_at : Z)
  | Renewed (expires_at : Z)
  | Denied (current_holder : NodeId) (current_epoch : Z)
  | NotLeader (leader_hint : option NodeId).

Record LeaseResponse := mkLeaseResponse { lres_request_id : ID; lres_result : LeaseResult }.

(** ** The authority ([authority.rs]) *)

Record LeaseEntry := mkLeaseEntry { le_holder : NodeId; le_epoch : Z; le_expires_at : Z }.

Definition has_expired (e : LeaseEntry) (t : Z) : bool := le_expires_at e <=? t.

Record LeaseAuthority := mkAuthority {
  leases : gmap SessionId LeaseEntry;
  epochs : gmap SessionId Z }.

Definition authority_default : LeaseAuthority := mkAuthority ∅ ∅.

Record LeaseSnapshot := mkLeaseSnapshot {
  snap_leases : gmap SessionId LeaseEntry;
  snap_epochs : gmap SessionId Z }.

Definition lease_snapshot_default : LeaseSnapshot := mkLeaseSnapshot ∅ ∅.

Definition authority_snapshot (a : LeaseAuthority) : LeaseSnapshot :=
  mkLeaseSnapshot (leases a) (epochs a).
Definition authority_restore (snapshot : LeaseSnapshot) (a : LeaseAuthority) : LeaseAuthority :=
  mkAuthority (snap_leases snapshot) (snap_epochs snapshot).

(** [DateTime::default()], the epoch of Unix. *)
Definition date_default : Z := 0.

Definition is_holder (e : LeaseEntry) (holder : NodeId) (epoch : Z) : bool :=
  bool_decide (le_holder e = holder) && (le_epoch e =? epoch).

Definition release (sid : SessionId) (holder : NodeId) (epoch : Z) (a : LeaseAuthority) :
    LeaseResult * LeaseAuthority :=
  match leases a !! sid with
  | Some lease =>
      if is_holder lease holder epoch
      then (Renewed date_default, mkAuthority (delete sid (leases a)) (epochs a))
      else (Denied (le_holder lease) (le_epoch lease), a)
  | None => (Denied holder 0, a)
  end.

(** [now] is what [Utc::now()] returns inside the call; [now + ttl] is a date that
    chrono can write, which panics otherwise. *)
Definition renew (now : Z) (sid : SessionId) (holder : NodeId) (epoch ttl : Z)
    (a : LeaseAuthority) : LeaseResult * LeaseAuthority :=
  match leases a !! sid with
  | Some lease =>
      if is_holder lease holder epoch
      then (Renewed (now + ttl),
            mkAuthority
              (<[sid := mkLeaseEntry (le_holder lease) (le_epoch lease) (now + ttl)]> (leases a))
              (epochs a))
      else (Denied (le_holder lease) (le_epoch lease), a)
  | None => (Denied holder 0, a)
  end.

(** [epochs.entry(session_id).and_modify(|e| *e += 1).or_insert(1)] *)
Definition next_epoch (a : LeaseAuthority) (sid : SessionId) : Z :=
  match epochs a !! sid with
  | Some e => wrap64 (e + 1)
  | None => 1
  end.

Definition grant (now : Z) (sid : SessionId) (holder : NodeId) (ttl : Z) (a : LeaseAuthority) :
    LeaseResult * LeaseAuthority :=
  let epoch := next_epoch a sid in
  (Granted epoch (now + ttl),
   mkAuthority (<[sid := mkLeaseEntry holder epoch (now + ttl)]> (leases a))
               (<[sid := epoch]> (epochs a))).

Definition acquire (now : Z) (sid : SessionId) (holder : NodeId) (ttl : Z) (a : LeaseAuthority) :
    LeaseResult * LeaseAuthority :=
  match leases a !! sid with
  | Some lease =>
      if has_expired lease now then grant now sid holder ttl a
      else (Denied (le_holder lease) (le_epoch lease), a)
  | None => grant now sid holder ttl a
  end.

Definition handle_op (now : Z) (sid : SessionId) (op : LeaseOp) (a : LeaseAuthority) :
    LeaseResult * LeaseAuthority :=
  match op with
  | Acquire holder ttl => acquire now sid holder ttl a
  | Renew holder epoch ttl => renew now sid holder epoch ttl a
  | Release holder epoch => release sid holder epoch a
  end.

Definition handle_request (now : Z) (request : LeaseRequest) (a : LeaseAuthority) :
    LeaseResponse * LeaseAuthority :=
  let '(result, a) := handle_op now (lr_session_id request) (lr_op request) a in
  (mkLeaseResponse (lr_request_id request) result, a).

(** ** What openraft stores ([storage.rs]) *)

Record LogId := mkLogId { log_term : Z; log_index : Z }.

(** openraft's membership configuration is opaque here. *)
Class Membership := { membership : Type; membership_default : membership }.

Section raft.
Context `{Membership}.

Inductive EntryPayload :=
  | Blank
  | Normal (request : LeaseRequest)
  | MembershipChange (m : membership).

Record Entry := mkEntry { entry_log_id : LogId; payload : EntryPayload }.

Record StoredMembership := mkStoredMembership {
  sm_log_id : option LogId; sm_membership : membership }.

(** [LogStoreInner]; openraft's [Vote] is a term and a node. *)
Record LogStoreInner := mkLogStore {
  log : gmap Z Entry;
  vote : option (Z * Z);
  last_purged_log_id : option LogId }.

Definition log_store_default : LogStoreInner := mkLogStore ∅ None None.

(** A [BTreeMap] iterates by increasing key. *)
Definition key_le (a b : Z * Entry) : Prop := a.1 ≤ b.1.
Global Instance key_le_dec : RelDecision key_le.
Proof. intros a b. apply Z.le_dec. Defined.
Definition btree_values (m : gmap Z Entry) : list (Z * Entry) :=
  merge_sort key_le (map_to_list m).

(** The range is the indices from [lo] included to [hi] excluded. *)
Definition try_get_log_entries (lo hi : Z) (st : LogStoreInner) : list Entry :=
  snd <$> filter (λ p, lo ≤ p.1 ∧ p.1 < hi) (btree_values (log st)).

Record LogState := mkLogState {
  ls_last_purged_log_id : option LogId; ls_last_log_id : option LogId }.

Definition get_log_state (st : LogStoreInner) : LogState :=
  let last_log_id :=
    match last (btree_values (log st)) with
    | Some (_, e) => Some (entry_log_id e)
    | None => last_purged_log_id st
    end in
  mkLogState (last_purged_log_id st) last_log_id.

Definition save_vote (v : Z * Z) (st : LogStoreInner) : LogStoreInner :=
  mkLogStore (log st) (Some v) (last_purged_log_id st).
Definition read_vote (st : LogStoreInner) : option (Z * Z) := vote st.

Definition log_append (entries : list Entry) (st : LogStoreInner) : LogStoreInner :=
  mkLogStore
    (foldl (λ l e, <[log_index (entry_log_id e) := e]> l) (log st) entries)
    (vote st) (last_purged_log_id st).

Definition log_truncate (id : LogId) (st : LogStoreInner) : LogStoreInner :=
  mkLogStore (filter (λ p, p.1 < log_index id) (log st)) (vote st) (last_purged_log_id st).

Definition log_purge (id : LogId) (st : LogStoreInner) : LogStoreInner :=
  mkLogStore (filter (λ p, log_index id < p.1) (log st)) (vote st) (Some id).

(** *** The state machine *)

Record SnapshotMeta := mkSnapshotMeta {
  meta_last_log_id : option LogId;
  meta_last_membership : StoredMembership;
  meta_snapshot_id : string }.

Record StoredSnapshot := mkStoredSnapshot { ss_meta : SnapshotMeta; ss_data : string }.

Record StateMachineInner := mkStateMachine {
  authority : LeaseAuthority;
  last_applied : option LogId;
  last_membership : StoredMembership;
  current_snapshot : option StoredSnapshot }.

Definition state_machine_default : StateMachineInner :=
  mkStateMachine authority_default None (mkStoredMembership None membership_default) None.

(** One round of the loop of [apply]; [now] is this replica's clock when it
    applies the entry. *)
Definition apply_entry (now : Z) (e : Entry) (sm : StateMachineInner) :
    LeaseResult * StateMachineInner :=
  let last := Some (entry_log_id e) in
  match payload e with
  | Blank =>
      (NotLeader None,
       mkStateMachine (authority sm) last (last_membership sm) (current_snapshot sm))
  | MembershipChange m =>
      (NotLeader None,
       mkStateMachine (authority sm) last (mkStoredMembership last m) (current_snapshot sm))
  | Normal request =>
      let '(response, a) := handle_request now request (authority sm) in
      (lres_result response, mkStateMachine a last (last_membership sm) (current_snapshot sm))
  end.

(** [clock]: the reading of this replica's clock for each log index. *)
Fixpoint apply (clock : Z → Z) (entries : list Entry) (sm : StateMachineInner) :
    list LeaseResult * StateMachineInner :=
  match entries with
  | [] => ([], sm)
  | e :: entries =>
      let '(r, sm) := apply_entry (clock (log_index (entry_log_id e))) e sm in
      let '(rs, sm) := apply clock entries sm in
      (r :: rs, sm)
  end.

Definition applied_state (sm : StateMachineInner) : option LogId * StoredMembership :=
  (last_applied sm, last_membership sm).

(** [serde_json] on a snapshot; [None] is an error. *)
Class SnapshotJson := {
  snapshot_to_vec : LeaseSnapshot → option string;
  snapshot_from_slice : string → option LeaseSnapshot;
  snapshot_json_law s : ∃ d, snapshot_to_vec s = Some d ∧ snapshot_from_slice d = Some s }.

Section snapshots.
Context `{SnapshotJson}.

Definition install_snapshot (meta : SnapshotMeta) (data : string) (sm : StateMachineInner) :
    StateMachineInner :=
  let restored := default lease_snapshot_default (snapshot_from_slice data) in
  mkStateMachine (authority_restore restored (authority sm)) (meta_last_log_id meta)
    (meta_last_membership meta) (Some (mkStoredSnapshot meta data)).

Definition get_current_snapshot (sm : StateMachineInner) : option (SnapshotMeta * string) :=
  (λ s, (ss_meta s, ss_data s)) <$> current_snapshot sm.

(** [snapshot_id]: the index and the date, rendered. *)
Definition build_snapshot (snapshot_id : string) (sm : StateMachineInner) :
    (SnapshotMeta * string) * StateMachineInner :=
  let data := default "" (snapshot_to_vec (authority_snapshot (authority sm))) in
  let meta := mkSnapshotMeta (last_applied sm) (last_membership sm) snapshot_id in
  ((meta, data),
   mkStateMachine (authority sm) (last_applied sm) (last_membership sm)
     (Some (mkStoredSnapshot meta data))).
End snapshots.
End raft.

(** ** The client ([client.rs]) *)

(** What submitting to a node answers: the transport failed; the node's Raft
    answered; it pointed to a leader it may know; or it failed otherwise. *)
Inductive Submitted :=
  | Unreachable
  | Done (r : LeaseResult)
  | ForwardToLeader (leader_node : option NodeId)
  | RaftFailed.

Inductive LeaseError := NoLeasePeer | TransportError | SubmitFailed (tried : NodeId).

Section client.
(** [rpc_client.invoke::<SubmitLease>], and [annuary.nodes_with(Lease)]. *)
Context (invoke : NodeId → LeaseRequest → Submitted) (lease_nodes : list NodeId).

(** The state is [leader_hint]. *)
Definition candidate (leader_hint : option NodeId) : option NodeId :=
  match leader_hint with
  | Some hint => Some hint
  | None => head lease_nodes
  end.

Definition retry_on_forward (request : LeaseRequest) (error : Submitted) (tried : NodeId) :
    M (option NodeId) LeaseError LeaseResult :=
  let leader_node := match error with ForwardToLeader l => l | _ => None end in
  match leader_node with
  | None => throw (SubmitFailed tried)
  | Some target =>
      modify (λ _, Some target) ≫= λ _,
      match invoke target request with
      | Unreachable => throw TransportError
      | Done r => mret r
      | ForwardToLeader _ | RaftFailed => throw (SubmitFailed target)
      end
  end.

Definition submit (request : LeaseRequest) : M (option NodeId) LeaseError LeaseResult :=
  get ≫= λ hint,
  match candidate hint with
  | None => throw NoLeasePeer
  | Some target =>
      match invoke target request with
      | Unreachable => throw TransportError
      | Done r => mret r
      | error => retry_on_forward request error target
      end
  end.
End client.

(** ** Forming the group ([server.rs], [raft.rs]) *)

Definition LeaseNodeId_from (n : NodeId) : Z := stable_hash (node_bytes n).

(** [min_by_key]: the first of the least. *)
Fixpoint min_by_key (key : NodeId → Z) (best : NodeId) (l : list NodeId) : NodeId :=
  match l with
  | [] => best
  | n :: l => min_by_key key (if key n <? key best then n else best) l
  end.

(** The members to initialise the group with, when this node is to do it;
    [is_initialized] is what [raft.is_initialized()] answers ([None]: error).
    The members are keyed by their derived identifier. *)
Definition bootstrap (nodes_with_lease : list NodeId) (local : NodeId)
    (is_initialized : option bool) : option (gmap Z NodeId) :=
  let peers := if bool_decide (local ∈ nodes_with_lease) then nodes_with_lease
               else nodes_with_lease ++ [local] in
  let lowest := match peers with
                | [] => None
                | n :: l => Some (min_by_key LeaseNodeId_from n l)
                end in
  if bool_decide (lowest = Some local) then
    match is_initialized with
    | Some false => Some (foldl (λ m n, <[LeaseNodeId_from n := n]> m) ∅ peers)
    | _ => None
    end
  else None.
