(* ===== verification/LeaseLaws.v ===== *)
(** * Laws of the leases

    Exclusion while a lease runs, fencing by epochs, what each operation
    answers, the log storage, snapshots, and where replicas part. *)

From stdpp Require Import sorting.
From S2P Require Import Prelude Ids Types Hash Lease.
From Stdlib Require Import Ascii.
Local Open Scope Z_scope.

(** ** A run of the authority *)

Record TimedOp := mkTimedOp { t_now : Z; t_sid : SessionId; t_op : LeaseOp }.

Fixpoint run_ops (ops : list TimedOp) (a : LeaseAuthority) : list LeaseResult * LeaseAuthority :=
  match ops with
  | [] => ([], a)
  | o :: ops =>
      let '(r, a) := handle_op (t_now o) (t_sid o) (t_op o) a in
      let '(rs, a) := run_ops ops a in
      (r :: rs, a)
  end.

Definition granted_epoch (r : LeaseResult) : option Z :=
  match r with Granted e _ => Some e | _ => None end.

(** The epochs granted for a session, in the order of the run. *)
Fixpoint grants_of (sid : SessionId) (ops : list TimedOp) (a : LeaseAuthority) : list Z :=
  match ops with
  | [] => []
  | o :: ops =>
      let '(r, a') := handle_op (t_now o) (t_sid o) (t_op o) a in
      let rest := grants_of sid ops a' in
      if bool_decide (t_sid o = sid) then
        match granted_epoch r with Some e => e :: rest | None => rest end
      else rest
  end.

(** The requests that the holder of [e] makes on its own lease. *)
Definition by_holder (sid : SessionId) (e : LeaseEntry) (o : TimedOp) : bool :=
  bool_decide (t_sid o = sid) &&
  match t_op o with
  | Acquire _ _ => false
  | Renew h ep _ | Release h ep => is_holder e h ep
  end.

Lemma is_holder_spec e h ep : is_holder e h ep = true ↔ le_holder e = h ∧ le_epoch e = ep.
Proof. unfold is_holder. rewrite andb_true_iff, bool_decide_eq_true, Z.eqb_eq. done. Qed.

(** Every operation on one session leaves the others alone. *)
Lemma handle_op_frame now sid op a sid' :
  sid ≠ sid' →
  leases (handle_op now sid op a).2 !! sid' = leases a !! sid' ∧
  epochs (handle_op now sid op a).2 !! sid' = epochs a !! sid'.
Proof.
  intros Hne. destruct op; simpl; unfold acquire, renew, release, grant;
    repeat case_match; simpl;
    rewrite ?lookup_insert_ne, ?lookup_delete_ne by done; auto.
Qed.

(** A request that is neither the holder's nor late is refused, with the
    holder's name, and changes nothing. *)
Lemma handle_op_denied now sid op a e :
  leases a !! sid = Some e → now < le_expires_at e →
  by_holder sid e (mkTimedOp now sid op) = false →
  handle_op now sid op a = (Denied (le_holder e) (le_epoch e), a).
Proof.
  intros He Hnow Hb. unfold by_holder in Hb. rewrite bool_decide_true in Hb by done.
  simpl in Hb. destruct op; simpl; unfold acquire, renew, release; rewrite He.
  - unfold has_expired. by rewrite (proj2 (Z.leb_gt _ _)).
  - by rewrite Hb.
  - by rewrite Hb.
Qed.

(** C5: mutual exclusion.  While a lease runs, and as long as its holder
    neither renews nor releases it, whatever the other nodes ask the lease
    stays, and each of their requests on the session is refused with the
    holder's name and epoch. *)
Theorem lease_exclusive (ops : list TimedOp) (a : LeaseAuthority) (sid : SessionId) (e : LeaseEntry) :
  leases a !! sid = Some e →
  Forall (λ o, t_now o < le_expires_at e ∧ by_holder sid e o = false) ops →
  leases (run_ops ops a).2 !! sid = Some e ∧
  Forall2 (λ o r, t_sid o = sid → r = Denied (le_holder e) (le_epoch e)) ops (run_ops ops a).1.
Proof.
  revert a. induction ops as [|o ops IH]; intros a He Hall; simpl; [by split|].
  apply Forall_cons in Hall as [[Hnow Hb] Hall].
  destruct (handle_op _ _ _ a) as [r a'] eqn:E.
  assert (leases a' !! sid = Some e ∧ (t_sid o = sid → r = Denied (le_holder e) (le_epoch e)))
    as [He' Hr].
  { destruct (decide (t_sid o = sid)) as [<-|Hne].
    - rewrite (handle_op_denied _ _ _ a e) in E by (done || by destruct o). by simplify_eq.
    - split; [|done]. pose proof (handle_op_frame (t_now o) (t_sid o) (t_op o) a sid Hne) as [Hl _].
      rewrite E in Hl. simpl in Hl. by rewrite Hl. }
  destruct (IH a' He' Hall) as [Hl Hd]. destruct (run_ops ops a') as [rs a'']. simpl in *.
  split; [done|]. by constructor.
Qed.

(** ** Epochs *)

(** A lease carries the last epoch granted for its session. *)
Definition authority_wf (a : LeaseAuthority) : Prop :=
  ∀ sid e, leases a !! sid = Some e → epochs a !! sid = Some (le_epoch e).

Lemma handle_op_wf now sid op a : authority_wf a → authority_wf (handle_op now sid op a).2.
Proof.
  intros Hwf sid' e. destruct (decide (sid = sid')) as [<-|Hne].
  2: { destruct (handle_op_frame now sid op a sid' Hne) as [-> ->]. apply Hwf. }
  destruct op; simpl; unfold acquire, renew, release, grant; repeat case_match; simpl;
    rewrite ?lookup_insert_eq, ?lookup_delete_eq; try apply Hwf; try done;
    intros; simplify_eq/=; by auto.
Qed.

Lemma run_ops_wf ops a : authority_wf a → authority_wf (run_ops ops a).2.
Proof.
  revert a. induction ops as [|o ops IH]; intros a Hwf; simpl; [done|].
  pose proof (handle_op_wf (t_now o) (t_sid o) (t_op o) a Hwf) as Hwf'.
  destruct (handle_op _ _ _ a) as [r a']. specialize (IH a' Hwf').
  by destruct (run_ops ops a').
Qed.

Lemma handle_op_epoch now sid op a :
  let '(r, a') := handle_op now sid op a in
  match granted_epoch r with
  | Some e => e = next_epoch a sid ∧ epochs a' !! sid = Some e
  | None => epochs a' !! sid = epochs a !! sid
  end.
Proof.
  destruct op; simpl; unfold acquire, renew, release, grant; repeat case_match;
    simplify_eq/=; rewrite ?lookup_insert_eq; auto.
Qed.

Lemma seqZ_S m n : seqZ m (Z.of_nat (S n)) = m :: seqZ (m + 1) (Z.of_nat n).
Proof. rewrite seqZ_cons by lia. f_equal. f_equal; lia. Qed.

(** The epochs granted from a session whose counter stands at [k]. *)
Lemma grants_from ops a sid k :
  0 ≤ k → k + Z.of_nat (length ops) < 2 ^ 64 →
  epochs a !! sid = (if k =? 0 then None else Some k) →
  let n := length (grants_of sid ops a) in
  (n ≤ length ops)%nat ∧ grants_of sid ops a = seqZ (k + 1) (Z.of_nat n) ∧
  epochs (run_ops ops a).2 !! sid = (if k + Z.of_nat n =? 0 then None else Some (k + Z.of_nat n)).
Proof.
  revert a k. induction ops as [|o ops IH]; intros a k Hk Hlen He; simpl.
  { rewrite Z.add_0_r. auto. }
  simpl in Hlen. pose proof (handle_op_epoch (t_now o) (t_sid o) (t_op o) a) as Hstep.
  pose proof (handle_op_frame (t_now o) (t_sid o) (t_op o) a sid) as Hframe.
  destruct (handle_op _ _ _ a) as [r a'] eqn:E.
  assert (epochs a' !! sid = epochs a !! sid →
    let n := length (grants_of sid ops a') in
    (n ≤ S (length ops))%nat ∧ grants_of sid ops a' = seqZ (k + 1) (Z.of_nat n) ∧
    epochs (let '(rs, a'') := run_ops ops a' in (r :: rs, a'')).2 !! sid =
      (if k + Z.of_nat n =? 0 then None else Some (k + Z.of_nat n))) as Hsame.
  { intros Heq. rewrite He in Heq. destruct (IH a' k) as (Hn&Hg&Hr); [lia..|done|].
    split_and!; [lia|done|]. by destruct (run_ops ops a'). }
  case_bool_decide as Hs; [|by apply Hsame, Hframe].
  destruct (granted_epoch r) as [ep|]; [|subst sid; by apply Hsame].
  destruct Hstep as [-> Hep]. subst sid.
  assert (next_epoch a (t_sid o) = k + 1) as Hnext.
  { unfold next_epoch. rewrite He. destruct (Z.eqb_spec k 0) as [->|]; [done|].
    apply wrap64_id. unfold is_u64. lia. }
  rewrite Hnext in *. destruct (IH a' (k + 1)) as (Hn&Hg&Hr); [lia|lia| |].
  { by rewrite Hep, (proj2 (Z.eqb_neq _ _)) by lia. }
  simpl. split_and!; [lia| |].
  - by rewrite Hg at 1; rewrite seqZ_S.
  - clear Hsame. destruct (run_ops ops a'). simpl in *. rewrite Hr.
    by replace (k + 1 + _) with (k + Z.of_nat (S (length (grants_of (t_sid o) ops a')))) by lia.
Qed.

(** C6: fencing.  The epochs granted for a session are 1, 2, 3, ... in the
    order of the log: renewals, releases and expiries never reuse or skip
    one, and a lease always carries the last. *)
Theorem epochs_count_grants (ops : list TimedOp) (sid : SessionId) :
  Z.of_nat (length ops) < 2 ^ 64 →
  let a := (run_ops ops authority_default).2 in
  let n := length (grants_of sid ops authority_default) in
  grants_of sid ops authority_default = seqZ 1 (Z.of_nat n) ∧
  ∀ e, leases a !! sid = Some e → le_epoch e = Z.of_nat n.
Proof.
  intros Hlen a n. destruct (grants_from ops authority_default sid 0) as (_&Hg&Hr);
    [lia|lia|done|]. split; [exact Hg|]. intros e He.
  assert (authority_wf a) as Hwf by by apply run_ops_wf.
  apply Hwf in He. change (epochs a !! sid = (if 0 + Z.of_nat n =? 0 then None else Some (0 + Z.of_nat n))) in Hr.
  rewrite He in Hr. case_match; simplify_eq. lia.
Qed.

(** A node that lost its lease cannot use it again: once a session's
    counter is past its epoch, its renewals and releases are refused and
    change nothing, at any time. *)
Theorem stale_epoch_rejected (a : LeaseAuthority) (sid : SessionId) (latest epoch now ttl : Z)
    (holder : NodeId) :
  authority_wf a → epochs a !! sid = Some latest → epoch < latest →
  ∀ op, op = Renew holder epoch ttl ∨ op = Release holder epoch →
  (handle_op now sid op a).2 = a ∧ ∃ h ep, (handle_op now sid op a).1 = Denied h ep.
Proof.
  intros Hwf He Hlt op Hop.
  assert (∀ l, leases a !! sid = Some l → is_holder l holder epoch = false) as Hno.
  { intros l Hl. apply Hwf in Hl. rewrite He in Hl. injection Hl as ->.
    unfold is_holder. apply andb_false_iff. right. apply Z.eqb_neq. lia. }
  destruct Hop as [-> | ->]; simpl; unfold renew, release;
    destruct (leases a !! sid) as [l|] eqn:E; rewrite ?(Hno _ eq_refl); simpl; eauto.
Qed.

(** What the other theorems say of a lease rests on the caller's clock; each
    answer, precisely. *)
Lemma acquire_granted now sid holder ttl a r a' :
  acquire now sid holder ttl a = (r, a') →
  (∀ e, leases a !! sid = Some e → le_expires_at e ≤ now) →
  r = Granted (next_epoch a sid) (now + ttl) ∧
  leases a' !! sid = Some (mkLeaseEntry holder (next_epoch a sid) (now + ttl)) ∧
  epochs a' !! sid = Some (next_epoch a sid).
Proof.
  unfold acquire, grant, has_expired. intros E He.
  destruct (leases a !! sid) as [e|]; [rewrite (proj2 (Z.leb_le _ _)) in E by by apply He|];
    injection E as <- <-; simpl; by rewrite !lookup_insert_eq.
Qed.

(** Acquire, release, acquire again: the second grant carries the next
    epoch, whoever asks and whenever. *)
Theorem release_reacquire (a : LeaseAuthority) (sid : SessionId) (h h' : NodeId)
    (epoch now ttl : Z) (e : LeaseEntry) :
  authority_wf a → leases a !! sid = Some e → le_holder e = h → le_epoch e = epoch →
  epoch < 2 ^ 64 - 1 → 0 ≤ epoch →
  let a1 := (release sid h epoch a).2 in
  leases a1 !! sid = None ∧
  (acquire now sid h' ttl a1).1 = Granted (epoch + 1) (now + ttl) ∧
  leases (acquire now sid h' ttl a1).2 !! sid = Some (mkLeaseEntry h' (epoch + 1) (now + ttl)).
Proof.
  intros Hwf He Hh Hep Hb H0 a1.
  assert (a1 = mkAuthority (delete sid (leases a)) (epochs a)) as Ha1.
  { unfold a1, release. rewrite He. by rewrite (proj2 (is_holder_spec _ _ _)). }
  assert (next_epoch a1 sid = epoch + 1) as Hn.
  { unfold next_epoch. rewrite Ha1. simpl. rewrite (Hwf _ _ He), Hep. apply wrap64_id.
    unfold is_u64. lia. }
  assert (leases a1 !! sid = None) as Hl by by rewrite Ha1; simpl; rewrite lookup_delete_eq.
  split; [done|]. destruct (acquire now sid h' ttl a1) as [r a2] eqn:E. simpl.
  destruct (acquire_granted _ _ _ _ _ _ _ E) as (->&->&_); [by rewrite Hl|].
  by rewrite Hn.
Qed.

(** ** Replicas *)

Section replicas.
Context `{Membership}.

Lemma apply_app clock es es' sm :
  let '(rs, sm1) := apply clock es sm in
  let '(rs', sm2) := apply clock es' sm1 in
  apply clock (es ++ es') sm = (rs ++ rs', sm2).
Proof.
  revert sm. induction es as [|e es IH]; intros sm; simpl; [by destruct (apply _ _ _)|].
  destruct (apply_entry _ e sm) as [r sm1]. specialize (IH sm1).
  destruct (apply clock es sm1) as [rs sm2]. simpl.
  destruct (apply clock es' sm2) as [rs' sm3]. by rewrite IH.
Qed.

Lemma apply_cons_state clock e es sm :
  (apply clock (e :: es) sm).2 =
  (apply clock es (apply_entry (clock (log_index (entry_log_id e))) e sm).2).2.
Proof. simpl. destruct (apply_entry _ e sm) as [r sm1]. simpl. by destruct (apply _ _ _). Qed.

Lemma apply_normal now id req sm :
  (apply_entry now (mkEntry id (Normal req)) sm).2 =
  mkStateMachine (handle_op now (lr_session_id req) (lr_op req) (authority sm)).2 (Some id)
    (last_membership sm) (current_snapshot sm).
Proof.
  unfold apply_entry, handle_request. simpl. by destruct (handle_op _ _ _ _).
Qed.

Lemma apply_same_clock clock clock' es sm :
  (∀ e, e ∈ es → clock (log_index (entry_log_id e)) = clock' (log_index (entry_log_id e))) →
  apply clock es sm = apply clock' es sm.
Proof.
  revert sm. induction es as [|e es IH]; intros sm Hc; simpl; [done|].
  rewrite Hc by left. destruct (apply_entry _ e sm) as [r sm1].
  rewrite (IH sm1); [done|]. intros e' He'. apply Hc. by right.
Qed.

(** The state machine is not a function of the log: two replicas that
    apply the same two requests, one just before and the other just after
    the first lease expires, disagree for good on who holds the session. *)
Theorem replicas_diverge (sid : SessionId) (h h' : NodeId) (ttl t : Z) (r1 r2 : ID) (term : Z) :
  0 < ttl → h ≠ h' →
  let entries := [mkEntry (mkLogId term 1) (Normal (mkLeaseRequest r1 sid (Acquire h ttl)));
                  mkEntry (mkLogId term 2) (Normal (mkLeaseRequest r2 sid (Acquire h' ttl)))] in
  let fast := (apply (λ _, t) entries state_machine_default).2 in
  let slow := (apply (λ i, if i =? 1 then t else t + ttl) entries state_machine_default).2 in
  last_applied fast = last_applied slow ∧
  leases (authority fast) !! sid = Some (mkLeaseEntry h 1 (t + ttl)) ∧
  leases (authority slow) !! sid = Some (mkLeaseEntry h' 2 (t + ttl + ttl)).
Proof.
  intros Httl Hne entries fast slow.
  assert (∀ now, acquire now sid h ttl authority_default = grant now sid h ttl authority_default)
    as H1 by done.
  set (a1 := (grant t sid h ttl authority_default).2).
  assert (leases a1 !! sid = Some (mkLeaseEntry h 1 (t + ttl))) as Hl by apply lookup_insert_eq.
  assert (next_epoch a1 sid = 2) as Hn.
  { unfold next_epoch. change (epochs a1) with (<[sid := 1]> (∅ : gmap SessionId Z)).
    by rewrite lookup_insert_eq. }
  assert (acquire t sid h' ttl a1 = (Denied h 1, a1)) as H2.
  { unfold acquire, has_expired. rewrite Hl. simpl. by rewrite (proj2 (Z.leb_gt _ _)) by lia. }
  assert (acquire (t + ttl) sid h' ttl a1 = grant (t + ttl) sid h' ttl a1) as H3.
  { unfold acquire, has_expired. rewrite Hl. simpl. by rewrite Z.leb_refl. }
  unfold fast, slow, entries. rewrite !apply_cons_state. cbn [entry_log_id log_index].
  rewrite !apply_normal. cbn [Z.eqb Pos.eqb apply snd lr_session_id lr_op handle_op authority].
  change (authority state_machine_default) with authority_default. rewrite H1. fold a1.
  rewrite H2, H3. cbn [last_applied authority snd]. split; [done|]. split; [done|].
  unfold grant. rewrite Hn. cbn [leases snd]. apply lookup_insert_eq.
Qed.

(** ** The log store *)

Lemma elem_of_btree (m : gmap Z Entry) i e : (i, e) ∈ btree_values m ↔ m !! i = Some e.
Proof. unfold btree_values. by rewrite merge_sort_Permutation, elem_of_map_to_list. Qed.

Lemma btree_sorted (m : gmap Z Entry) : StronglySorted key_le (btree_values m).
Proof.
  apply StronglySorted_merge_sort.
  - intros a b c. unfold key_le. lia.
  - intros a b. unfold key_le. lia.
Qed.

Lemma btree_last (m : gmap Z Entry) i e :
  last (btree_values m) = Some (i, e) → m !! i = Some e ∧ ∀ j e', m !! j = Some e' → j ≤ i.
Proof.
  intros Hl. apply last_Some in Hl as [l Hl]. split.
  - apply elem_of_btree. rewrite Hl. apply elem_of_app. right. left.
  - intros j e' Hj. apply elem_of_btree in Hj. rewrite Hl in Hj.
    apply elem_of_app in Hj as [Hj|Hj%list_elem_of_singleton]; [|by simplify_eq].
    pose proof (btree_sorted m) as Hs. rewrite Hl in Hs.
    apply (StronglySorted_app_1_elem_of _ _ _ _ _ Hs Hj (list_elem_of_here _ _)).
Qed.

(** Every entry sits at its own index. *)
Definition log_wf (st : LogStoreInner) : Prop :=
  ∀ i e, log st !! i = Some e → log_index (entry_log_id e) = i.

Lemma log_append_lookup es st i :
  log (log_append es st) !! i =
    match last (filter (λ e, log_index (entry_log_id e) = i) es) with
    | Some e => Some e
    | None => log st !! i
    end.
Proof.
  simpl. generalize (log st). induction es as [|e es IH]; intros m; simpl; [done|].
  rewrite IH, filter_cons. case_decide as Hi.
  - rewrite last_cons. case_match; [done|]. rewrite <- Hi. apply lookup_insert_eq.
  - case_match; [done|]. by apply lookup_insert_ne.
Qed.

(** The log store does what openraft asks of it: a truncation keeps
    exactly the entries before the index, a purge exactly those after it,
    and the last log id is the one of the greatest index left, or the last
    purged one when nothing is left. *)
Theorem log_store_spec (st : LogStoreInner) (id : LogId) :
  log_wf st →
  (∀ i, log (log_truncate id st) !! i = if i <? log_index id then log st !! i else None) ∧
  (∀ i, log (log_purge id st) !! i = if log_index id <? i then log st !! i else None) ∧
  ls_last_purged_log_id (get_log_state (log_purge id st)) = Some id ∧
  (∀ l, ls_last_log_id (get_log_state st) = Some l →
     log st = ∅ ∧ last_purged_log_id st = Some l ∨
     (∃ e, log st !! log_index l = Some e ∧ entry_log_id e = l) ∧
     (∀ i, is_Some (log st !! i) → i ≤ log_index l)) ∧
  ((∀ i, is_Some (log st !! i) → i ≤ log_index id) →
     ls_last_log_id (get_log_state (log_purge id st)) = Some id).
Proof.
  intros Hwf. split_and!.
  - intros i. simpl. rewrite map_lookup_filter. destruct (log st !! i); simpl; [|by case_match].
    destruct (Z.ltb_spec i (log_index id)); [by rewrite option_guard_True|].
    rewrite option_guard_False; [done|]. simpl. lia.
  - intros i. simpl. rewrite map_lookup_filter. destruct (log st !! i); simpl; [|by case_match].
    destruct (Z.ltb_spec (log_index id) i); [by rewrite option_guard_True|].
    rewrite option_guard_False; [done|]. simpl. lia.
  - done.
  - intros l. simpl. destruct (last (btree_values (log st))) as [[i e]|] eqn:E.
    + intros [= <-]. apply btree_last in E as [Hi Hmax]. right.
      rewrite (Hwf _ _ Hi). split; [by exists e|]. intros j [e' Hj]. by eapply Hmax.
    + intros Hl. left. split; [|done]. apply map_empty. intros i.
      destruct (log st !! i) as [e|] eqn:Hi; [|done]. apply elem_of_btree in Hi.
      apply last_None in E. rewrite E in Hi. by apply elem_of_nil in Hi.
  - intros Hall. simpl. destruct (last _) as [[i e]|] eqn:E; [|done].
    apply btree_last in E as [Hi _]. apply map_lookup_filter_Some in Hi as [Hi Hlt].
    assert (i ≤ log_index id) by (apply Hall; by exists e). simpl in Hlt. lia.
Qed.

(** ** Snapshots *)

Context `{@SnapshotJson}.

(** A snapshot built by one replica and installed by another makes them
    equal: leases, epochs, last applied entry and membership; and building
    one changes nothing but the snapshot kept. *)
Theorem snapshot_roundtrip (sid : string) (sm sm' : StateMachineInner) :
  let '((meta, data), built) := build_snapshot sid sm in
  let installed := install_snapshot meta data sm' in
  authority installed = authority sm ∧ applied_state installed = applied_state sm ∧
  authority built = authority sm ∧ applied_state built = applied_state sm ∧
  get_current_snapshot installed = get_current_snapshot built.
Proof.
  unfold build_snapshot, install_snapshot.
  destruct (snapshot_json_law (authority_snapshot (authority sm))) as (d&->&Hd). simpl.
  rewrite Hd. by destruct (authority sm).
Qed.

(** A snapshot that does not decode is installed as an empty state, in
    silence: the counters restart, and the next grant of a session reuses
    epoch 1, which a former holder may still carry. *)
Theorem bad_snapshot_resets_epochs (meta : SnapshotMeta) (data : string) (sm : StateMachineInner)
    (sid : SessionId) (h : NodeId) (now ttl : Z) :
  snapshot_from_slice data = None →
  let installed := install_snapshot meta data sm in
  last_applied installed = meta_last_log_id meta ∧
  (acquire now sid h ttl (authority installed)).1 = Granted 1 (now + ttl).
Proof. intros Hd. unfold install_snapshot. rewrite Hd. split; [done|]. reflexivity. Qed.
End replicas.

(** ** The client *)

Section client_laws.
Context (invoke : NodeId → LeaseRequest → Submitted) (lease_nodes : list NodeId).

(** Submissions one after the other, on the same client. *)
Fixpoint submit_all (reqs : list LeaseRequest) (hint : option NodeId) :
    list (Res LeaseError LeaseResult) * option NodeId :=
  match reqs with
  | [] => ([], hint)
  | r :: reqs =>
      let '(res, hint) := submit invoke lease_nodes r hint in
      let '(rest, hint) := submit_all reqs hint in
      (res :: rest, hint)
  end.

(** A forwarded submission reaches the leader, which the client then
    addresses first. *)
Theorem forward_learns_leader (req req' : LeaseRequest) (n leader : NodeId) (r r' : LeaseResult) :
  head lease_nodes = Some n →
  invoke n req = ForwardToLeader (Some leader) →
  invoke leader req = Done r → invoke leader req' = Done r' →
  submit_all [req; req'] None = ([Ok r; Ok r'], Some leader).
Proof.
  intros Hn Hf Hr Hr'. simpl. unfold submit, candidate, mbind, m_bind. simpl.
  rewrite Hn, Hf. unfold retry_on_forward, mbind, m_bind. simpl. rewrite Hr. simpl.
  by rewrite Hr'.
Qed.

(** The leader a client once learned is never forgotten: when that node
    is gone, every submission fails, whatever the other nodes would
    answer. *)
Theorem dead_leader_blocks (reqs : list LeaseRequest) (dead : NodeId) :
  (∀ req, invoke dead req = Unreachable) →
  submit_all reqs (Some dead) = ((λ _, Err TransportError) <$> reqs, Some dead).
Proof.
  intros Hd. induction reqs as [|r reqs IH]; [done|]. simpl.
  unfold submit, candidate, mbind, m_bind. simpl. rewrite Hd. simpl. by rewrite IH.
Qed.
End client_laws.

(** ** The bootstrap *)

Lemma min_by_key_spec key best l :
  min_by_key key best l ∈ best :: l ∧ ∀ n, n ∈ best :: l → key (min_by_key key best l) ≤ key n.
Proof.
  revert best. induction l as [|n l IH]; intros best; simpl.
  { split; [left|]. by intros n ->%list_elem_of_singleton. }
  destruct (Z.ltb_spec (key n) (key best)) as [Hlt|Hge].
  - destruct (IH n) as [Hin Hmin]. split; [by right|]. intros m Hm.
    apply elem_of_cons in Hm as [->|Hm]; [|by apply Hmin]. etrans; [apply Hmin; left|lia].
  - destruct (IH best) as [Hin Hmin]. split.
    + apply elem_of_cons in Hin as [->|Hin]; [left|by right; right].
    + intros m Hm. rewrite !elem_of_cons in Hm. destruct Hm as [->|[->|Hm]].
      * apply Hmin. left.
      * etrans; [apply Hmin; left|done].
      * apply Hmin. by right.
Qed.

(** The peers a node counts, itself included. *)
Definition view (nodes : list NodeId) (local : NodeId) : list NodeId :=
  if bool_decide (local ∈ nodes) then nodes else nodes ++ [local].

Lemma elem_of_view nodes local n : n ∈ view nodes local ↔ n ∈ nodes ∨ n = local.
Proof.
  unfold view. case_bool_decide; [naive_solver|].
  by rewrite elem_of_app, list_elem_of_singleton.
Qed.

Definition ids_distinct (l : list NodeId) : Prop :=
  ∀ a b, a ∈ l → b ∈ l → LeaseNodeId_from a = LeaseNodeId_from b → a = b.

Lemma members_lookup l (m : gmap Z NodeId) k n :
  ids_distinct l →
  (∀ k n, m !! k = Some n → n ∈ l ∧ k = LeaseNodeId_from n) →
  ∀ l', (∀ x, x ∈ l' → x ∈ l) →
  foldl (λ m n, <[LeaseNodeId_from n := n]> m) m l' !! k = Some n ↔
  m !! k = Some n ∨ n ∈ l' ∧ k = LeaseNodeId_from n.
Proof.
  intros Hd Hm l'. revert m Hm. induction l' as [|x l' IH]; intros m Hm Hsub; simpl.
  { set_solver. }
  rewrite IH.
  - rewrite elem_of_cons. destruct (decide (k = LeaseNodeId_from x)) as [->|Hne].
    + rewrite lookup_insert_eq. split; [naive_solver|].
      intros [Hin|[[->|Hin] Hk]]; [|naive_solver..].
      left. f_equal. apply Hm in Hin as [Hin Hk]. apply Hd; [apply Hsub; left|done..].
    + rewrite lookup_insert_ne by done. naive_solver.
  - intros k' n' Hk'. apply lookup_insert_Some in Hk' as [[<- <-]|[_ Hk']]; [|by apply Hm].
    split; [apply Hsub; left|done].
  - intros y Hy. apply Hsub. by right.
Qed.

Lemma bootstrap_some nodes local ini m :
  bootstrap nodes local ini = Some m →
  ids_distinct (view nodes local) →
  ini = Some false ∧
  (∀ n, n ∈ view nodes local → LeaseNodeId_from local ≤ LeaseNodeId_from n) ∧
  ∀ k n, m !! k = Some n ↔ n ∈ view nodes local ∧ k = LeaseNodeId_from n.
Proof.
  unfold bootstrap. fold (view nodes local). intros Hb Hd.
  case_bool_decide as Hl; [|done]. destruct ini as [[]|]; [done| |done].
  injection Hb as <-. split; [done|]. split.
  - destruct (view nodes local) as [|x l]; [done|]. injection Hl as <-. apply min_by_key_spec.
  - intros k n. rewrite (members_lookup (view nodes local)); [|done| |done].
    + rewrite lookup_empty. naive_solver.
    + intros k' n'. by rewrite lookup_empty.
Qed.

(** Nodes that have discovered the same peers agree on who forms the
    group: at most one of them initialises it, and with all of them as
    members. *)
Theorem bootstrap_unique (nodes nodes' : list NodeId) (a b : NodeId) (i j : option bool)
    (m m' : gmap Z NodeId) :
  ids_distinct (view nodes a) →
  (∀ n, n ∈ view nodes a ↔ n ∈ view nodes' b) →
  bootstrap nodes a i = Some m → bootstrap nodes' b j = Some m' →
  a = b ∧ m = m' ∧ ∀ n, n ∈ view nodes a → m !! LeaseNodeId_from n = Some n.
Proof.
  intros Hd Hv Ha Hb.
  assert (ids_distinct (view nodes' b)) as Hd' by (intros x y Hx%Hv Hy%Hv; by apply Hd).
  apply bootstrap_some in Ha as (_&Hla&Hma); [|done].
  apply bootstrap_some in Hb as (_&Hlb&Hmb); [|done].
  assert (a ∈ view nodes a) as Hina by (apply elem_of_view; by right).
  assert (b ∈ view nodes' b) as Hinb by (apply elem_of_view; by right).
  split_and!.
  - apply Hd; [done|by apply Hv|]. specialize (Hla b ltac:(by apply Hv)).
    specialize (Hlb a ltac:(by apply Hv)). lia.
  - apply map_eq. intros k. apply option_eq. intros n. rewrite Hma, Hmb, Hv. done.
  - intros n Hn. by apply Hma.
Qed.

(** ** Examples *)

Definition demo_sid : SessionId := mkSessionId (mkID 0 1).
Definition demo_entry : LeaseEntry := mkLeaseEntry node_a 1 100.
Definition demo_held : LeaseAuthority :=
  mkAuthority {[ demo_sid := demo_entry ]} {[ demo_sid := 1 ]}.

Lemma demo_held_wf : authority_wf demo_held.
Proof.
  intros sid e He. simpl in *. apply lookup_singleton_Some in He as [<- <-]. apply lookup_singleton_eq.
Qed.

Lemma lease_exclusive_witness :
  leases (run_ops [mkTimedOp 50 demo_sid (Acquire node_b 10)] demo_held).2 !! demo_sid =
  Some demo_entry.
Proof.
  apply (lease_exclusive [mkTimedOp 50 demo_sid (Acquire node_b 10)] demo_held demo_sid demo_entry);
    [reflexivity|repeat constructor].
Defined.

Lemma epochs_count_grants_witness :
  grants_of demo_sid
    [mkTimedOp 0 demo_sid (Acquire node_a 10); mkTimedOp 10 demo_sid (Acquire node_b 10)]
    authority_default = [1; 2].
Proof.
  destruct (epochs_count_grants
    [mkTimedOp 0 demo_sid (Acquire node_a 10); mkTimedOp 10 demo_sid (Acquire node_b 10)] demo_sid)
    as [H _]; [reflexivity|exact H].
Defined.

Lemma stale_epoch_rejected_witness :
  ∃ h ep, (handle_op 7 demo_sid (Renew node_b 0 10) demo_held).1 = Denied h ep.
Proof.
  apply (stale_epoch_rejected demo_held demo_sid 1 0 7 10 node_b demo_held_wf);
    [reflexivity|reflexivity|by left].
Defined.

Lemma release_reacquire_witness :
  (acquire 5 demo_sid node_b 10 (release demo_sid node_a 1 demo_held).2).1 = Granted 2 15.
Proof.
  apply (release_reacquire demo_held demo_sid node_a node_b 1 5 10 demo_entry demo_held_wf);
    reflexivity || lia.
Defined.

Definition unit_membership : Membership := {| membership := unit; membership_default := tt |}.

Lemma replicas_diverge_witness :
  let ei := mkID 0 0 in
  last_applied
    (@apply unit_membership (λ _, 0)
       [mkEntry (mkLogId 1 1) (Normal (mkLeaseRequest ei demo_sid (Acquire node_a 5)));
        mkEntry (mkLogId 1 2) (Normal (mkLeaseRequest ei demo_sid (Acquire node_b 5)))]
       state_machine_default).2 = Some (mkLogId 1 2).
Proof.
  intros ei. destruct (@replicas_diverge unit_membership demo_sid node_a node_b 5 0 ei ei 1)
    as (H&_&_); [lia|discriminate|]. rewrite H. reflexivity.
Defined.

Lemma log_store_spec_witness :
  ls_last_purged_log_id
    (@get_log_state unit_membership (log_purge (mkLogId 1 3) log_store_default)) =
  Some (mkLogId 1 3).
Proof.
  destruct (@log_store_spec unit_membership log_store_default (mkLogId 1 3)) as (_&_&H&_);
    [|exact H]. intros i e Hi. discriminate Hi.
Defined.

(** A codec, through a numbering of the snapshots. *)
#[global] Instance LeaseEntry_eq_dec : EqDecision LeaseEntry. Proof. solve_decision. Defined.
#[global] Program Instance LeaseEntry_countable : Countable LeaseEntry :=
  inj_countable' (λ e, (le_holder e, le_epoch e, le_expires_at e))
    (λ p, mkLeaseEntry p.1.1 p.1.2 p.2) _.
Next Obligation. by intros []. Qed.

Fixpoint string_of_number (p : positive) : string :=
  match p with
  | xH => ""
  | xO p => String "0"%char (string_of_number p)
  | xI p => String "1"%char (string_of_number p)
  end.
Fixpoint number_of_string (s : string) : positive :=
  match s with
  | EmptyString => xH
  | String c s => if Ascii.eqb c "0"%char then xO (number_of_string s) else xI (number_of_string s)
  end.
Lemma number_of_string_of_number p : number_of_string (string_of_number p) = p.
Proof. induction p as [p IH|p IH|]; simpl; by rewrite ?IH. Qed.

Definition numbered_to_vec (s : LeaseSnapshot) : option string :=
  Some (string_of_number (encode (snap_leases s, snap_epochs s))).
Definition numbered_from_slice (d : string) : option LeaseSnapshot :=
  (λ p, mkLeaseSnapshot p.1 p.2) <$>
    (decode (number_of_string d) : option (gmap SessionId LeaseEntry * gmap SessionId Z)).
Lemma numbered_law s : ∃ d, numbered_to_vec s = Some d ∧ numbered_from_slice d = Some s.
Proof.
  exists (string_of_number (encode (snap_leases s, snap_epochs s))). split; [done|].
  unfold numbered_from_slice. rewrite number_of_string_of_number, decode_encode. by destruct s.
Qed.
Definition numbered_json : SnapshotJson :=
  {| snapshot_to_vec := numbered_to_vec; snapshot_from_slice := numbered_from_slice;
     snapshot_json_law := numbered_law |}.

Lemma bad_snapshot_resets_epochs_witness :
  (acquire 0 demo_sid node_b 5
     (authority (@install_snapshot unit_membership numbered_json
        (mkSnapshotMeta None (@mkStoredMembership unit_membership None tt) "0-0") ""
        (mkStateMachine demo_held None (@mkStoredMembership unit_membership None tt) None)))).1 = Granted 1 5.
Proof.
  apply (@bad_snapshot_resets_epochs unit_membership numbered_json
           (mkSnapshotMeta None (@mkStoredMembership unit_membership None tt) "0-0") ""
           (mkStateMachine demo_held None (@mkStoredMembership unit_membership None tt) None) demo_sid node_b 0 5).
  reflexivity.
Defined.

Lemma snapshot_roundtrip_witness :
  let '((meta, data), _) := @build_snapshot unit_membership numbered_json "1-1"
     (mkStateMachine demo_held (Some (mkLogId 1 1)) (@mkStoredMembership unit_membership None tt) None) in
  authority (@install_snapshot unit_membership numbered_json meta data state_machine_default)
  = demo_held.
Proof.
  exact (proj1 (@snapshot_roundtrip unit_membership numbered_json "1-1"
    (mkStateMachine demo_held (Some (mkLogId 1 1)) (@mkStoredMembership unit_membership None tt) None)
    state_machine_default)).
Defined.

Definition demo_invoke (n : NodeId) (_ : LeaseRequest) : Submitted :=
  if bool_decide (n = node_a) then ForwardToLeader (Some node_b)
  else if bool_decide (n = node_b) then Done (Granted 1 10) else Unreachable.
Definition demo_request : LeaseRequest :=
  mkLeaseRequest (mkID 0 0) demo_sid (Acquire node_c 10).

Lemma forward_learns_leader_witness :
  submit_all demo_invoke [node_a] [demo_request; demo_request] None =
  ([Ok (Granted 1 10); Ok (Granted 1 10)], Some node_b).
Proof.
  apply (forward_learns_leader demo_invoke [node_a] demo_request demo_request node_a node_b);
    reflexivity.
Defined.

Lemma dead_leader_blocks_witness :
  submit_all demo_invoke [node_b] [demo_request] (Some node_c) =
  ([Err TransportError], Some node_c).
Proof. apply (dead_leader_blocks demo_invoke [node_b] [demo_request] node_c). reflexivity. Defined.

Lemma demo_ids_distinct : ids_distinct [node_a; node_b].
Proof.
  intros a b Ha Hb. rewrite !elem_of_cons, elem_of_nil in Ha, Hb.
  destruct Ha as [->|[->|[]]], Hb as [->|[->|[]]]; intros E; try reflexivity;
    vm_compute in E; discriminate E.
Qed.

(** Either of the two nodes may be the one. *)
Lemma bootstrap_unique_witness :
  ∃ n m, bootstrap [node_a; node_b] n (Some false) = Some m ∧
    m !! LeaseNodeId_from node_a = Some node_a.
Proof.
  assert (∀ n m, n ∈ [node_a; node_b] → bootstrap [node_a; node_b] n (Some false) = Some m →
    m !! LeaseNodeId_from node_a = Some node_a) as H.
  { intros n m Hn Hb.
    assert (view [node_a; node_b] n = [node_a; node_b]) as Hv by (unfold view; by rewrite bool_decide_true).
    apply (bootstrap_unique [node_a; node_b] [node_a; node_b] n n (Some false) (Some false) m m);
      rewrite ?Hv; [apply demo_ids_distinct|done|done|done|left]. }
  destruct (bootstrap [node_a; node_b] node_a (Some false)) as [m|] eqn:E.
  - exists node_a, m. split; [exact E|]. apply (H node_a); [left|exact E].
  - destruct (bootstrap [node_a; node_b] node_b (Some false)) as [m|] eqn:E'.
    + exists node_b, m. split; [exact E'|]. apply (H node_b); [right; left|exact E'].
    + exfalso. vm_compute in E, E'. discriminate.
Defined.
