(* ===== verification/Streams.v ===== *)
(** * A pool of streams ([stream.rs])

    Handles push streams into a channel; the pool takes them from it and gives
    the next item of any of them.  A stream is a state and what polling it at a
    time gives; the streams of the program are timers. *)

From S2P Require Import Prelude.
Local Open Scope Z_scope.

Inductive Poll (T St : Type) := Pending | Ended | Item (x : T) (s : St).
Arguments Pending {T St}. Arguments Ended {T St}. Arguments Item {T St}.

Inductive TrySendError := Full | Closed.

Section pool.
Context {T St : Type} (poll : Z → St → Poll T St).

(** [DynamicStreamPool] and the handles that share its channel; a stream is
    numbered when it is pushed.  The pool holds a sender of its own. *)
Record Pool := mkPool {
  select_all : list (nat * St); rx : list (nat * St); capacity : nat; handles : nat; pushed : list St }.

(** [mpsc::channel(0)] panics. *)
Definition pool_new (capacity : nat) : Res () Pool :=
  if decide (capacity = 0%nat) then Panic else Ok (mkPool [] [] capacity 0 []).
Definition new_handle (p : Pool) : Pool := mkPool (select_all p) (rx p) (capacity p) (S (handles p)) (pushed p).
Definition drop_handle (p : Pool) : Pool := mkPool (select_all p) (rx p) (capacity p) (pred (handles p)) (pushed p).

(** [StreamHandle::try_push]; [push] waits for the same room. *)
Definition try_push (s : St) : M Pool TrySendError () := λ p,
  if decide (length (rx p) < capacity p)%nat
  then (Ok (), mkPool (select_all p) (rx p ++ [(length (pushed p), s)]) (capacity p) (handles p) (pushed p ++ [s]))
  else (Err Full, p).
(** [DynamicStreamPool::push] *)
Definition push_local (s : St) (p : Pool) : Pool :=
  mkPool (select_all p ++ [(length (pushed p), s)]) (rx p) (capacity p) (handles p) (pushed p ++ [s]).

(** [rx.recv()] gives [None] when no sender is left. *)
Definition senders (p : Pool) : nat := S (handles p).
Definition recv_closed (p : Pool) : bool := bool_decide (rx p = []) && bool_decide (senders p = 0%nat).

(** A turn of the loop of [next]: a stream is received, or one of those of the
    pool is polled, and what it gives is returned. *)
Definition receive (p : Pool) : Pool :=
  match rx p with
  | s :: rx => mkPool (select_all p ++ [s]) rx (capacity p) (handles p) (pushed p)
  | [] => p
  end.
Definition poll_source (i : nat) (now : Z) (p : Pool) : option (nat * T) * Pool :=
  match select_all p !! i with
  | Some (n, s) =>
      match poll now s with
      | Item x s => (Some (n, x), mkPool (<[i := (n, s)]> (select_all p)) (rx p) (capacity p) (handles p) (pushed p))
      | Ended => (None, mkPool (base.delete i (select_all p)) (rx p) (capacity p) (handles p) (pushed p))
      | Pending => (None, p)
      end
  | None => (None, p)
  end.
(** The last branch of the loop, and the end of the pool. *)
Definition next_ends (p : Pool) : bool := bool_decide (select_all p = []) && recv_closed p.

Inductive PoolStep := NewHandle | DropHandle | Push (s : St) | PushLocal (s : St) | Receive | PollSource (i : nat) (now : Z).
Definition pool_step (st : PoolStep) (p : Pool) : option (nat * T) * Pool :=
  match st with
  | NewHandle => (None, new_handle p)
  | DropHandle => (None, drop_handle p)
  | Push s => (None, run_state (try_push s) p)
  | PushLocal s => (None, push_local s p)
  | Receive => (None, receive p)
  | PollSource i now => poll_source i now p
  end.
Fixpoint pool_run (l : list PoolStep) (p : Pool) : list (nat * T) * Pool :=
  match l with
  | [] => ([], p)
  | st :: l =>
      let '(o, p) := pool_step st p in
      let '(out, p) := pool_run l p in
      (match o with Some x => x :: out | None => out end, p)
  end.

(** ** What a pool promises *)

(** A stream polled alone, at some times. *)
Inductive emits : St → list T → St → Prop :=
  | emits_nil s : emits s [] s
  | emits_snoc s l s1 now x s2 : emits s l s1 → poll now s1 = Item x s2 → emits s (l ++ [x]) s2.

Definition items_of (n : nat) (out : list (nat * T)) : list T := (filter (λ p, p.1 = n) out).*2.

(** Each stream that was pushed is in one place, or has ended; and it gave what
    the pool returned of it. *)
Record pool_ok (out : list (nat * T)) (p : Pool) : Prop := {
  places : NoDup (select_all p ++ rx p).*1;
  kept : ∀ n s, (n, s) ∈ select_all p ++ rx p → ∃ s0, pushed p !! n = Some s0 ∧ emits s0 (items_of n out) s;
  ended : ∀ n s0, pushed p !! n = Some s0 → n ∉ (select_all p ++ rx p).*1 →
    ∃ s now, emits s0 (items_of n out) s ∧ poll now s = Ended;
  none_else : ∀ n, (length (pushed p) ≤ n)%nat → items_of n out = [] }.

Lemma items_of_snoc n out m x : items_of n (out ++ [(m, x)]) = items_of n out ++ (if decide (m = n) then [x] else []).
Proof.
  unfold items_of. rewrite filter_app, fmap_app. f_equal. destruct (decide (m = n)) as [->|Hne].
  - by rewrite filter_cons_True.
  - by rewrite filter_cons_False.
Qed.

Lemma kept_lt out p n s : pool_ok out p → (n, s) ∈ select_all p ++ rx p → (n < length (pushed p))%nat.
Proof. intros Hp Hin. destruct (kept _ _ Hp _ _ Hin) as (s0&Hs&_). by eapply lookup_lt_Some. Qed.

(** Streams change places. *)
Lemma pool_ok_perm out p a b : pool_ok out p → a ++ b ≡ₚ select_all p ++ rx p → ∀ c h,
  pool_ok out (mkPool a b c h (pushed p)).
Proof.
  intros [H1 H2 H3 H4] Hab c h. split; cbn [select_all rx pushed]; [by rewrite Hab| | |done].
  - intros n s. rewrite Hab. apply H2.
  - intros n s0 Hs. rewrite Hab. by apply H3.
Qed.

(** A stream is pushed: it has the next number. *)
Lemma pool_ok_push out p a b s : pool_ok out p → a ++ b ≡ₚ (length (pushed p), s) :: (select_all p ++ rx p) → ∀ c h,
  pool_ok out (mkPool a b c h (pushed p ++ [s])).
Proof.
  intros Hp Hab c h. pose proof Hp as [H1 H2 H3 H4]. split; cbn [select_all rx pushed].
  - rewrite Hab, fmap_cons. apply NoDup_cons. split; [|done]. simpl. intros ([n s']&E&Hin)%list_elem_of_fmap. simpl in E. subst n.
    pose proof (kept_lt _ _ _ _ Hp Hin). lia.
  - intros n s'. rewrite Hab. intros [[= -> ->]|Hin]%elem_of_cons.
    + exists s. split; [by apply lookup_snoc_Some; right|]. rewrite H4 by lia. constructor.
    + destruct (H2 n s' Hin) as (s0&Hs&He). exists s0. split; [by apply lookup_app_l_Some|done].
  - intros n s0 Hs. rewrite Hab, fmap_cons. intros Hn. apply not_elem_of_cons in Hn as [Hn1 Hn].
    apply lookup_snoc_Some in Hs as [[_ Hs]|[-> _]]; [by apply H3|done].
  - intros n. rewrite length_app. simpl. intros Hn. apply H4. lia.
Qed.

Lemma pool_step_ok out st p : pool_ok out p →
  pool_ok (out ++ match (pool_step st p).1 with Some x => [x] | None => [] end) (pool_step st p).2.
Proof.
  intros Hp. assert (Hsame : ∀ c h, pool_ok out (mkPool (select_all p) (rx p) c h (pushed p))) by (by apply pool_ok_perm).
  destruct st as [| |s|s| |i now]; cbn [pool_step fst snd]; rewrite ?app_nil_r; try apply Hsame.
  - unfold run_state, try_push. case_decide; [|done]. cbn [snd]. apply pool_ok_push; [done|]. solve_Permutation.
  - apply pool_ok_push; [done|]. solve_Permutation.
  - unfold receive. destruct (rx p) as [|s r] eqn:E; [done|]. apply pool_ok_perm; [done|]. rewrite E. solve_Permutation.
  - unfold poll_source. destruct (select_all p !! i) as [[n s]|] eqn:Ei; [|by rewrite app_nil_r].
    pose proof (delete_Permutation _ _ _ Ei) as Hdel. pose proof Hp as [H1 H2 H3 H4].
    assert ((n, s) ∈ select_all p ++ rx p) as Hin by (apply elem_of_app; left; by eapply list_elem_of_lookup_2).
    destruct (H2 n s Hin) as (s0&Hs0&He). destruct (poll now s) as [| |x s'] eqn:Epoll; cbn [fst snd]; rewrite ?app_nil_r; [done| |].
    + assert (NoDup ((n, s) :: (base.delete i (select_all p) ++ rx p)).*1) as Hnd.
      { rewrite app_comm_cons, <- Hdel. done. }
      rewrite fmap_cons in Hnd. apply NoDup_cons in Hnd as [Hn Hnd].
      split; cbn [select_all rx pushed]; [done| | |done].
      * intros m t Hm. apply H2. rewrite Hdel, <- app_comm_cons. by right.
      * intros m t0 Hm Hnot. destruct (decide (m = n)) as [->|Hne].
        -- exists s, now. split; [|done]. congruence.
        -- apply H3; [done|]. rewrite Hdel, <- app_comm_cons, fmap_cons. simpl. intros [->|?]%elem_of_cons; done.
    + assert (<[i := (n, s')]> (select_all p) ≡ₚ (n, s') :: base.delete i (select_all p)) as Hins.
      { rewrite insert_take_drop, delete_take_drop by (by eapply lookup_lt_Some). solve_Permutation. }
      assert (NoDup ((n, s) :: (base.delete i (select_all p) ++ rx p)).*1) as Hnd.
      { rewrite app_comm_cons, <- Hdel. done. }
      split; cbn [select_all rx pushed].
      * by rewrite Hins, <- app_comm_cons.
      * intros m t. rewrite Hins, <- app_comm_cons, items_of_snoc. intros [[= -> ->]|Hm]%elem_of_cons.
        -- exists s0. split; [done|]. rewrite decide_True by done. by eapply emits_snoc.
        -- rewrite decide_False; [|].
           ++ rewrite app_nil_r. apply H2. rewrite Hdel, <- app_comm_cons. by right.
           ++ intros ->. rewrite fmap_cons in Hnd. apply NoDup_cons in Hnd as [Hnd _]. apply Hnd, list_elem_of_fmap. by exists (m, t).
      * intros m t0 Hm. rewrite Hins, <- app_comm_cons, fmap_cons, items_of_snoc. intros Hnot. apply not_elem_of_cons in Hnot as [Hne Hnot].
        rewrite decide_False by (by intros ->). rewrite app_nil_r. apply H3; [done|]. rewrite Hdel, <- app_comm_cons, fmap_cons.
        by intros [->|?]%elem_of_cons.
      * intros m Hm. rewrite items_of_snoc, (H4 m Hm), decide_False; [done|]. pose proof (kept_lt _ _ _ _ Hp Hin). lia.
Qed.
Lemma pool_run_ok l out p : pool_ok out p → pool_ok (out ++ (pool_run l p).1) (pool_run l p).2.
Proof.
  revert out p. induction l as [|st l IH]; intros out p Hp; simpl; [by rewrite app_nil_r|].
  pose proof (pool_step_ok out st p Hp) as Hs. destruct (pool_step st p) as [o p1]. cbn [fst snd] in Hs. specialize (IH _ _ Hs).
  destruct (pool_run l p1) as [out' p2]. cbn [fst snd] in *. by destruct o; rewrite <- app_assoc in IH.
Qed.

(** Whatever is pushed by the handles and the pool, received and polled, what the
    pool returned of each stream is what this stream gives, in its order, nothing
    lost nor repeated; the stream is still in the pool or on its way, unless it has
    ended; and the pool itself never ends, since it holds a sender of its channel. *)
Theorem pool_delivers (capacity : nat) (steps : list PoolStep) (p0 : Pool) :
  pool_new capacity = Ok p0 →
  let '(out, p) := pool_run steps p0 in
  (∀ n s0, pushed p !! n = Some s0 → ∃ s, emits s0 (items_of n out) s ∧
     ((n, s) ∈ select_all p ++ rx p ∨ ∃ now, poll now s = Ended)) ∧
  next_ends p = false.
Proof.
  unfold pool_new. intros Hnew. destruct (decide _) as [|Hcap]; [done|]. injection Hnew as <-.
  assert (pool_ok [] (mkPool [] [] capacity 0 [])) as Hp.
  { split; cbn; [constructor|by intros ? ? ?%elem_of_nil|by intros ? ? ?|done]. }
  pose proof (pool_run_ok steps _ _ Hp) as H. destruct (pool_run steps _) as [out p]. cbn [fst snd app] in H. split.
  - intros n s0 Hs0. destruct (decide (n ∈ (select_all p ++ rx p).*1)) as [Hin|Hn].
    + apply list_elem_of_fmap in Hin as ([m s]&->&Hin). destruct (kept _ _ H _ _ Hin) as (t0&Ht&He). exists s.
      simpl in *. simplify_eq. split; [done|by left].
    + destruct (ended _ _ H n s0 Hs0 Hn) as (s&now&He&Hend). exists s. split; [done|]. right. by exists now.
  - unfold next_ends, recv_closed. rewrite (bool_decide_false (senders p = 0%nat)) by done. by rewrite !andb_false_r.
Qed.
End pool.

(** ** Timers *)

(** [tokio::time::interval], whose first tick is at once. *)
Record Interval (T : Type) := mkInterval { next_tick : Z; period : Z; tick_value : T }.
Arguments mkInterval {T}. Arguments next_tick {T}. Arguments period {T}. Arguments tick_value {T}.

Definition poll_interval {T} (now : Z) (i : Interval T) : Poll T (Interval T) :=
  if next_tick i <=? now then Item (tick_value i) (mkInterval (next_tick i + period i) (period i) (tick_value i)) else Pending.

(** [StreamHandle::after], when it is awaited: [to_std] refuses a negative duration,
    [interval] an empty one. *)
Definition after {T} (now duration : Z) (value : T) : M (Pool (St := Interval T)) TrySendError () := λ p,
  if duration <=? 0 then (Panic, p) else try_push (mkInterval now duration value) p.

(** [after] does not wait: its value is given at once, and again after each
    period, for ever. *)
Theorem after_fires_at_once {T} (now duration : Z) (value : T) (n : nat) :
  0 < duration →
  emits poll_interval (mkInterval now duration value) (replicate n value)
    (mkInterval (now + Z.of_nat n * duration) duration value) ∧
  ∀ t, now + Z.of_nat n * duration <= t →
    poll_interval t (mkInterval (now + Z.of_nat n * duration) duration value) =
      Item value (mkInterval (now + Z.of_nat (S n) * duration) duration value).
Proof.
  intros Hd. assert (∀ m : nat, ∀ t, now + Z.of_nat m * duration <= t →
    poll_interval t (mkInterval (now + Z.of_nat m * duration) duration value) =
      Item value (mkInterval (now + Z.of_nat (S m) * duration) duration value)) as Hpoll.
  { intros m t Ht. unfold poll_interval. cbn [next_tick period tick_value]. rewrite (proj2 (Z.leb_le _ _) Ht). do 2 f_equal. lia. }
  split; [|apply Hpoll]. induction n as [|n IH].
  - replace (now + Z.of_nat 0 * duration) with now by lia. constructor.
  - rewrite replicate_S_end. eapply emits_snoc; [exact IH|]. apply Hpoll. reflexivity.
Qed.

Example timer_of_thirty_seconds :
  ∃ p, pool_new (St := Interval nat) 300 = Ok p ∧
  (pool_run poll_interval [NewHandle; Push (mkInterval 0 30 7%nat); Receive; PollSource 0 0; PollSource 0 10; PollSource 0 31] p).1
    = [(0, 7); (0, 7)]%nat.
Proof. eexists. split; reflexivity. Qed.

Lemma pool_delivers_witness :
  ∃ p, pool_new (St := Interval nat) 300 = Ok p ∧
  next_ends (pool_run poll_interval [Push (mkInterval 0 30 7%nat); Receive; PollSource 0 0] p).2 = false.
Proof.
  eexists. split; [reflexivity|].
  exact (proj2 (pool_delivers poll_interval 300 [Push (mkInterval 0 30 7%nat); Receive; PollSource 0 0] _ eq_refl)).
Defined.
