(* ===== verification/Worker.v ===== *)
(** * Workers ([marie-core/src/worker], [job/mod.rs])

    The messages ([protocol.rs]) and the worker itself ([server.rs]): it runs
    the jobs it accepts and publishes each change of their state. *)

From S2P Require Import Prelude Ids Json Types Hash.

(** ** Messages ([protocol.rs]) *)

Inductive WorkerEvent := JobUpdate (id : JobId) (state : JobState Value).

Definition WORKER_TOPIC : string := "/marie/workers/events".
Definition WorkerEvent_id (e : WorkerEvent) : string :=
  match e with JobUpdate id _ => ID_to_string (job_id_ id) end.
Definition WorkerEvent_topics (e : WorkerEvent) : list string := [WORKER_TOPIC].

Record JobAck := mkJobAck { worker_id : NodeId; ack_job_id : JobId }.

(** ** The worker ([server.rs]) *)

(** What calling an executor does: it may panic while decoding the
    arguments, before there is a future to guard; the future may panic; or it
    returns. *)
Inductive Execution :=
  | CallPanics
  | TaskPanics (msg : string)
  | Returns (r : Res string Value).

Definition JobExecutor := Value → Execution.

Record Worker := mkWorker {
  local_node_id : NodeId;
  events : list WorkerEvent;
  executors : gmap string JobExecutor;
  jobs : gmap JobId (JobState Value);
  spawned : list JobInstance }.

(** [register_job_executor]: [from_value] is [serde]'s decoder of the
    executor's arguments, [executor] the task on decoded ones. *)
Definition wrapped {Args : Type} (from_value : Value → option Args)
    (executor : Args → Execution) : JobExecutor := λ args,
  match from_value args with
  | None => CallPanics
  | Some args => executor args
  end.

Definition register_job_executor {Args : Type} (name : string)
    (from_value : Value → option Args) (executor : Args → Execution) (w : Worker) : Worker :=
  mkWorker (local_node_id w) (events w) (<[name := wrapped from_value executor]> (executors w))
    (jobs w) (spawned w).

Definition update_state (id : JobId) (state : JobState Value) (w : Worker) : Worker :=
  mkWorker (local_node_id w) (events w ++ [JobUpdate id state]) (executors w)
    (<[id := state]> (jobs w)) (spawned w).

Definition get_job_state (w : Worker) (id : JobId) : Res WorkerError (JobState Value) :=
  of_option (NoJobFound id) (jobs w !! id).

Definition execute_job (job : JobInstance) : M Worker Empty_set () :=
  get ≫= λ w,
  match executors w !! ji_name job with
  | None => modify (update_state (ji_id job) (Failed (NoJobExecutorFound (ji_name job))))
  | Some executor =>
      modify (update_state (ji_id job) (Running (local_node_id w))) ≫= λ _,
      match executor (ji_args job) with
      | CallPanics => panic
      | TaskPanics msg => modify (update_state (ji_id job) (Failed (Panicked msg)))
      | Returns (Ok value) => modify (update_state (ji_id job) (Completed value))
      | Returns (Err e) => modify (update_state (ji_id job) (Failed (ExecutionError e)))
      | Returns Panic => modify (update_state (ji_id job) (Failed (Panicked "")))
      end
  end.

Definition spawn_execution (job : JobInstance) (w : Worker) : Worker :=
  mkWorker (local_node_id w) (events w) (executors w) (jobs w) (spawned w ++ [job]).

Definition schedule_job (job : JobInstance) : M Worker WorkerError JobAck :=
  get ≫= λ w,
  match executors w !! ji_name job with
  | None =>
      modify (update_state (ji_id job) (Failed (NoJobExecutorFound (ji_name job)))) ≫= λ _,
      throw (NoJobExecutorFound (ji_name job))
  | Some _ =>
      modify (update_state (ji_id job) (Scheduled (local_node_id w))) ≫= λ _,
      modify (spawn_execution job) ≫= λ _,
      mret (mkJobAck (local_node_id w) (ji_id job))
  end.

(** The states that a worker gives to a job. *)
Definition announced (s : JobState Value) : Prop :=
  match s with
  | Scheduled _ | Running _ | Completed _ | Failed _ => True
  | Unknown | PendingScheduling _ _ | PendingAck _ | Probing _ => False
  end.

(** Whatever jobs a worker is given and runs, it announces only such states,
    and answers with them. *)
Definition announces (w : Worker) : Prop :=
  Forall (λ e, match e with JobUpdate _ s => announced s end) (events w) ∧ map_Forall (λ _, announced) (jobs w).

Lemma update_announces id s w : announced s → announces w → announces (update_state id s w).
Proof.
  intros Hs [He Hj]. split; simpl; [apply Forall_app; by repeat constructor|]. by apply map_Forall_insert_2.
Qed.

Lemma worker_announces job w : announces w →
  announces (schedule_job job w).2 ∧ announces (execute_job job w).2 ∧
  ∀ id s, get_job_state w id = Ok s → announced s.
Proof.
  intros Hw. unfold schedule_job, execute_job, get, modify, throw, panic, mbind, m_bind, mret, m_ret.
  split_and!; [destruct (executors w !! ji_name job); by apply update_announces| |].
  - destruct (executors w !! ji_name job) as [x|]; [|by apply update_announces].
    assert (announces (update_state (ji_id job) (Running (local_node_id w)) w)) as Hr by by apply update_announces.
    destruct (x (ji_args job)) as [|msg|[v|e|]]; by repeat apply update_announces.
  - intros id s. unfold get_job_state. destruct (jobs w !! id) eqn:E; [|done]. intros [= <-]. by apply (proj2 Hw id).
Qed.

(** The state a run leaves the job in, unless the call panics. *)
Definition outcome (job : JobInstance) (x : Execution) : option (JobState Value) :=
  match x with
  | CallPanics => None
  | TaskPanics msg => Some (Failed (Panicked msg))
  | Returns (Ok v) => Some (Completed v)
  | Returns (Err e) => Some (Failed (ExecutionError e))
  | Returns Panic => Some (Failed (Panicked ""))
  end.

Lemma schedule_job_ok w job x :
  executors w !! ji_name job = Some x →
  schedule_job job w =
    (Ok (mkJobAck (local_node_id w) (ji_id job)),
     spawn_execution job (update_state (ji_id job) (Scheduled (local_node_id w)) w)).
Proof.
  intros Hx. unfold schedule_job, get, modify, mbind, m_bind. simpl. by rewrite Hx.
Qed.

Lemma execute_job_ok w job x final :
  executors w !! ji_name job = Some x → outcome job (x (ji_args job)) = Some final →
  execute_job job w =
    (Ok (), update_state (ji_id job) final
              (update_state (ji_id job) (Running (local_node_id w)) w)).
Proof.
  intros Hx Ho. unfold execute_job, get, modify, mbind, m_bind. simpl. rewrite Hx.
  destruct (x (ji_args job)) as [|msg|[v|e|]]; by simplify_eq/=.
Qed.

(** A job that a worker accepts is acknowledged, run once, and its
    changes are published in order: scheduled, running, then its outcome,
    which is also what asking for its state answers. *)
Theorem job_runs_to_outcome (w : Worker) (job : JobInstance) (x : JobExecutor) (final : JobState Value) :
  executors w !! ji_name job = Some x →
  outcome job (x (ji_args job)) = Some final →
  let '(ack, w1) := schedule_job job w in
  let '(res, w2) := execute_job job w1 in
  ack = Ok (mkJobAck (local_node_id w) (ji_id job)) ∧
  spawned w1 = spawned w ++ [job] ∧ res = Ok () ∧
  has_terminated final = true ∧ get_job_state w2 (ji_id job) = Ok final ∧
  events w2 = events w ++
    [JobUpdate (ji_id job) (Scheduled (local_node_id w));
     JobUpdate (ji_id job) (Running (local_node_id w)); JobUpdate (ji_id job) final].
Proof.
  intros Hx Ho. rewrite (schedule_job_ok w job x Hx).
  rewrite (execute_job_ok _ job x final) by done.
  split_and!; try done.
  - destruct (x (ji_args job)) as [|msg|[v|e|]]; by simplify_eq/=.
  - unfold get_job_state. simpl. by rewrite lookup_insert_eq.
  - simpl. by rewrite <- !(assoc_L (++)).
Qed.

(** A job without an executor is refused, and its failure published. *)
Theorem unknown_job_refused (w : Worker) (job : JobInstance) :
  executors w !! ji_name job = None →
  let e := NoJobExecutorFound (ji_name job) in
  let '(ack, w1) := schedule_job job w in
  ack = Err e ∧ spawned w1 = spawned w ∧
  get_job_state w1 (ji_id job) = Ok (Failed e) ∧
  events w1 = events w ++ [JobUpdate (ji_id job) (Failed e)].
Proof.
  intros Hx e. assert (schedule_job job w = (Err e, update_state (ji_id job) (Failed e) w)) as ->.
  { unfold schedule_job, get, modify, throw, mbind, m_bind. simpl. by rewrite Hx. }
  unfold get_job_state. simpl. by rewrite lookup_insert_eq.
Qed.

(** A job whose arguments do not decode never ends: decoding happens when
    the executor is called, before the guard against panics is in place, so
    the task dies and the job is left running for good. *)
Theorem bad_arguments_leave_running {Args : Type} (w : Worker) (job : JobInstance)
    (from_value : Value → option Args) (executor : Args → Execution) :
  from_value (ji_args job) = None →
  let '(res, w1) :=
    execute_job job (register_job_executor (ji_name job) from_value executor w) in
  res = Panic ∧ get_job_state w1 (ji_id job) = Ok (Running (local_node_id w)) ∧
  events w1 = events w ++ [JobUpdate (ji_id job) (Running (local_node_id w))].
Proof.
  intros Hn. set (w0 := register_job_executor _ _ _ w).
  assert (execute_job job w0 = (Panic, update_state (ji_id job) (Running (local_node_id w0)) w0)) as ->.
  { unfold execute_job, get, modify, panic, mbind, m_bind. simpl. rewrite lookup_insert_eq.
    unfold wrapped. by rewrite Hn. }
  unfold get_job_state. simpl. by rewrite lookup_insert_eq.
Qed.

Definition demo_worker : Worker :=
  register_job_executor "double" (λ v, match v with Num _ => Some v | _ => None end)
    (λ v, Returns (Ok v)) (mkWorker node_a [] ∅ ∅ []).
Definition demo_job (v : Value) : JobInstance := mkJobInstance (mkJobId (mkID 0 1)) "double" v.

Lemma job_runs_to_outcome_witness :
  get_job_state (execute_job (demo_job (Num (NInt 4))) (schedule_job (demo_job (Num (NInt 4))) demo_worker).2).2
    (mkJobId (mkID 0 1)) = Ok (Completed (Num (NInt 4))).
Proof.
  apply (job_runs_to_outcome demo_worker (demo_job (Num (NInt 4)))
    (wrapped (λ v, match v with Num _ => Some v | _ => None end) (λ v, Returns (Ok v)))
    (Completed (Num (NInt 4))) eq_refl eq_refl).
Defined.

Lemma unknown_job_refused_witness :
  (schedule_job (mkJobInstance (mkJobId (mkID 0 1)) "nope" Null) demo_worker).1 =
  Err (NoJobExecutorFound "nope").
Proof.
  exact (proj1 (unknown_job_refused demo_worker
    (mkJobInstance (mkJobId (mkID 0 1)) "nope" Null) eq_refl)).
Defined.

Lemma bad_arguments_leave_running_witness :
  (execute_job (demo_job Null) demo_worker).1 = Panic.
Proof.
  exact (proj1 (bad_arguments_leave_running (mkWorker node_a [] ∅ ∅ []) (demo_job Null)
    (λ v, match v with Num _ => Some v | _ => None end) (λ v, Returns (Ok v)) eq_refl)).
Defined.
