(* ===== verification/WorkerClient.v ===== *)
(** * The client of the workers ([marie-core/src/worker/client.rs])

    A client hands jobs to the workers of the cluster and follows their state.
    Its spawned tasks and timers are an explicit list of pending work, of
    which a scheduler runs any element; the calls to a worker are parameters
    of the step that receives their answer. *)

From S2P Require Import Prelude Ids Json Types Hash Worker.

Inductive TimerEvent :=
  | ProbingTimeOutAt (id : JobId)
  | AckTimeOutAt (id : JobId)
  | ProbeAt (id : JobId).

(** A listener is the sender of a [watch] channel, by its index among the
    channels. *)
Record JobInfo := mkJobInfo {
  info_id : JobId; info_state : JobState Value; listeners : list nat }.

(** A spawned task, at its first step or waiting for a worker's answer. *)
Inductive Task :=
  | ScheduleJobStart (instance : JobInstance) (worker : NodeId)
  | ScheduleJobWait (id : JobId) (worker : NodeId)
  | ProbeStart (id : JobId) (worker : NodeId)
  | ProbeWait (id : JobId) (worker : NodeId).

(** A channel holds the last value sent; a handle is the job and a receiver of
    its channel, there as long as it is not dropped. *)
Record WorkerClient := mkClient {
  trackers : gmap JobId JobInfo;
  tasks : list Task;
  jobs_timers : list (Z * TimerEvent);
  channels : list (JobState Value);
  handles : list (JobId * nat) }.

(** [WorkerClient::new] *)
Definition client_new : WorkerClient := mkClient ∅ [] [] [] [].

Definition set_trackers (m : gmap JobId JobInfo) (c : WorkerClient) : WorkerClient :=
  mkClient m (tasks c) (jobs_timers c) (channels c) (handles c).
Definition set_tasks (ts : list Task) (c : WorkerClient) : WorkerClient :=
  mkClient (trackers c) ts (jobs_timers c) (channels c) (handles c).
Definition spawn_task (t : Task) (c : WorkerClient) : WorkerClient := set_tasks (tasks c ++ [t]) c.

(** [listener.send(state)]: without a receiver left it fails, and the channel
    keeps its value. *)
Definition send_state (s : JobState Value) (c : WorkerClient) (k : nat) : WorkerClient :=
  if decide (k ∈ (handles c).*2)
  then mkClient (trackers c) (tasks c) (jobs_timers c) (<[k := s]> (channels c)) (handles c)
  else c.

(** [jobs_timers.after(Duration::seconds(s), e);]: [after] is an [async fn] (its
    body is [Streams.after]) whose future is dropped without being awaited, so that
    its body never runs. *)
Definition after (s : Z) (e : TimerEvent) (c : WorkerClient) : WorkerClient := c.

Definition tracked (c : WorkerClient) (id : JobId) : option (JobState Value) :=
  info_state <$> trackers c !! id.

Definition handle_job_state (id : JobId) (state : JobState Value) (c : WorkerClient) :
    WorkerClient :=
  match trackers c !! id with
  | None => c
  | Some tracker =>
      let c := set_trackers (<[id := mkJobInfo (info_id tracker) state (listeners tracker)]> (trackers c)) c in
      let c := foldl (send_state state) c (listeners tracker) in
      match state with
      | PendingScheduling instance worker => spawn_task (ScheduleJobStart instance worker) c
      | PendingAck _ => after 30 (AckTimeOutAt id) c
      | Probing worker => after 30 (ProbingTimeOutAt id) (spawn_task (ProbeStart id worker) c)
      | Scheduled worker | Running worker =>
          after 30 (ProbeAt id) (spawn_task (ProbeStart id worker) c)
      | Unknown | Completed _ | Failed _ => c
      end
  end.

Definition handle_timer_event (event : TimerEvent) (c : WorkerClient) : WorkerClient :=
  match event with
  | ProbingTimeOutAt id =>
      match tracked c id with
      | None => c
      | Some state =>
          if is_probing state then handle_job_state id (Failed ProbingTimeOut) c else c
      end
  | ProbeAt id =>
      match tracked c id with
      | None => c
      | Some (Running worker) | Some (Scheduled worker) => handle_job_state id (Probing worker) c
      | Some _ => c
      end
  | AckTimeOutAt id =>
      match tracked c id with
      | None => c
      | Some state =>
          if is_pending_ack state then handle_job_state id (Failed AckTimeOut) c else c
      end
  end.

(** [run]: an event of a worker. *)
Definition handle_event (e : WorkerEvent) (c : WorkerClient) : WorkerClient :=
  match e with JobUpdate id state => handle_job_state id state c end.

(** [schedule_job], to its call and from its answer: the transport failed, or
    the worker answered. *)
Definition schedule_job (instance : JobInstance) (worker : NodeId) (c : WorkerClient) :
    WorkerClient :=
  spawn_task (ScheduleJobWait (ji_id instance) worker)
    (handle_job_state (ji_id instance) (PendingAck worker) c).

Definition schedule_job_answer (id : JobId) (worker : NodeId)
    (answer : Res string (Res WorkerError JobAck)) (c : WorkerClient) : WorkerClient :=
  match answer with
  | Err error => handle_job_state id (Failed (ScheduledError error)) c
  | Ok (Err error) => handle_job_state id (Failed error) c
  | Ok (Ok _) => handle_job_state id (Scheduled worker) c
  | _ => c
  end.

(** [probe_state], likewise. *)
Definition probe_state (id : JobId) (worker : NodeId) (c : WorkerClient) : WorkerClient :=
  match tracked c id with
  | None => c
  | Some state =>
      if has_terminated state then c
      else spawn_task (ProbeWait id worker) (handle_job_state id (Probing worker) c)
  end.

Definition probe_state_answer (id : JobId)
    (answer : Res string (Res WorkerError (JobState Value))) (c : WorkerClient) : WorkerClient :=
  match answer with
  | Ok (Ok state) => handle_job_state id state c
  | _ => c
  end.

(** [watch]: the new handle's channel is the tracker's only listener. *)
Definition watch (job_id : JobId) (initial : JobState Value) (c : WorkerClient) : WorkerClient :=
  let k := length (channels c) in
  handle_job_state job_id initial
    (mkClient (<[job_id := mkJobInfo job_id Unknown [k]]> (trackers c)) (tasks c) (jobs_timers c)
       (channels c ++ [Unknown]) (handles c ++ [(job_id, k)])).

(** [spawn]: [id] is the generated identifier, [worker] the first of the three
    nodes that [Annuary::pick_top_n] gives for it. *)
Definition spawn (id : JobId) (name : string) (args : Value) (workers : list NodeId) :
    M WorkerClient WorkerError JobId :=
  let instance := mkJobInstance id name args in
  lift (of_option NoWorkerAvailable (head workers)) ≫= λ worker,
  modify (watch id (PendingScheduling instance worker)) ≫= λ _,
  mret id.

(** [JobHandle] is [Clone]; a handle that is dropped leaves its channel. *)
Definition clone_handle (i : nat) (c : WorkerClient) : WorkerClient :=
  match handles c !! i with
  | Some h => mkClient (trackers c) (tasks c) (jobs_timers c) (channels c) (handles c ++ [h])
  | None => c
  end.
Definition drop_handle (i : nat) (c : WorkerClient) : WorkerClient :=
  mkClient (trackers c) (tasks c) (jobs_timers c) (channels c) (delete i (handles c)).

(** ** Steps *)

(** What a step is given from outside: the answer of a call, or an event. *)
Inductive Label :=
  | Tau
  | ScheduleReplied (answer : Res string (Res WorkerError JobAck))
  | ProbeReplied (answer : Res string (Res WorkerError (JobState Value)))
  | Announced (e : WorkerEvent).

(** What happens next: a caller spawns a job, under an identifier that no job
    has, or clones or drops a handle; a pending task runs, with the answer it
    gets; an event comes; or a timer of the pool fires, which stays in it. *)
Inductive step : Label → WorkerClient → WorkerClient → Prop :=
  | step_spawn c id name args workers :
      trackers c !! id = None → step Tau c (run_state (spawn id name args workers) c)
  | step_clone c i : step Tau c (clone_handle i c)
  | step_drop c i : step Tau c (drop_handle i c)
  | step_schedule c ts1 ts2 instance worker :
      tasks c = ts1 ++ ScheduleJobStart instance worker :: ts2 →
      step Tau c (schedule_job instance worker (set_tasks (ts1 ++ ts2) c))
  | step_schedule_answer c ts1 ts2 id worker answer :
      tasks c = ts1 ++ ScheduleJobWait id worker :: ts2 →
      step (ScheduleReplied answer) c (schedule_job_answer id worker answer (set_tasks (ts1 ++ ts2) c))
  | step_probe c ts1 ts2 id worker :
      tasks c = ts1 ++ ProbeStart id worker :: ts2 →
      step Tau c (probe_state id worker (set_tasks (ts1 ++ ts2) c))
  | step_probe_answer c ts1 ts2 id worker answer :
      tasks c = ts1 ++ ProbeWait id worker :: ts2 →
      step (ProbeReplied answer) c (probe_state_answer id answer (set_tasks (ts1 ++ ts2) c))
  | step_timer c s e : (s, e) ∈ jobs_timers c → step Tau c (handle_timer_event e c)
  | step_event c e : step (Announced e) c (handle_event e c).

Inductive steps : list Label → WorkerClient → WorkerClient → Prop :=
  | steps_refl c : steps [] c c
  | steps_next l ls c1 c2 c3 : step l c1 c2 → steps ls c2 c3 → steps (l :: ls) c1 c3.

(** ** What handling a state changes *)

Lemma foldl_send s c ks :
  foldl (send_state s) c ks =
    mkClient (trackers c) (tasks c) (jobs_timers c)
      (foldl (λ v k, if decide (k ∈ (handles c).*2) then <[k := s]> v else v) (channels c) ks) (handles c).
Proof.
  revert c. induction ks as [|k ks IH]; intros c; simpl; [by destruct c|].
  rewrite IH. unfold send_state. by case_decide.
Qed.

Lemma send_channels (alive : nat → Prop) `{!∀ k, Decision (alive k)} s (v : list (JobState Value)) ks k :
  foldl (λ v k, if decide (alive k) then <[k := s]> v else v) v ks !! k =
    if decide (k ∈ ks ∧ alive k) then (λ _, s) <$> v !! k else v !! k.
Proof.
  revert v. induction ks as [|k' ks IH]; intros v; cbn [foldl].
  - by rewrite decide_False by (by intros [?%elem_of_nil _]).
  - rewrite IH. assert ((k ∈ k' :: ks ∧ alive k) ↔ k = k' ∧ alive k ∨ k ∈ ks ∧ alive k) as Hiff
      by (rewrite elem_of_cons; tauto).
    destruct (decide (k = k')) as [<-|Hne].
    + destruct (decide (alive k)) as [Ha|Ha].
      * rewrite (decide_True (P := k ∈ k :: ks ∧ _)) by (split; [by left|done]).
        assert ((λ _, s) <$> <[k:=s]> v !! k = (λ _, s) <$> v !! k ∧ (is_Some (v !! k) → <[k:=s]> v !! k = Some s) ∧
          (v !! k = None → <[k:=s]> v !! k = None)) as (H1&H2&H3).
        { rewrite list_lookup_insert. destruct (v !! k) eqn:E.
          - apply lookup_lt_Some in E. by rewrite decide_True by done.
          - apply lookup_ge_None in E. rewrite decide_False by lia. split_and!; [done| |done]. by intros [? ?]. }
        case_decide; [done|]. destruct (v !! k) eqn:E; [by rewrite H2 by eauto|by rewrite H3].
      * apply decide_ext. tauto.
    + assert ((if decide (alive k') then <[k':=s]> v else v) !! k = v !! k) as ->
        by (destruct (decide (alive k')); [apply list_lookup_insert_ne; congruence|done]). apply decide_ext. tauto.
Qed.

(** The task that a state starts. *)
Definition started (id : JobId) (s : JobState Value) : list Task :=
  match s with
  | PendingScheduling instance worker => [ScheduleJobStart instance worker]
  | Probing w | Scheduled w | Running w => [ProbeStart id w]
  | Unknown | PendingAck _ | Completed _ | Failed _ => []
  end.

Lemma handle_eq id s c :
  handle_job_state id s c =
  match trackers c !! id with
  | None => c
  | Some info =>
      mkClient (<[id := mkJobInfo (info_id info) s (listeners info)]> (trackers c)) (tasks c ++ started id s)
        (jobs_timers c)
        (foldl (λ v k, if decide (k ∈ (handles c).*2) then <[k := s]> v else v) (channels c) (listeners info))
        (handles c)
  end.
Proof.
  unfold handle_job_state. destruct (trackers c !! id) as [info|]; [|done]. rewrite foldl_send.
  destruct s; simpl; unfold spawn_task, set_tasks, after; simpl; by rewrite ?app_nil_r.
Qed.

Lemma trackers_handle id s c id' :
  trackers (handle_job_state id s c) !! id' =
  match trackers c !! id' with
  | Some info =>
      Some (if bool_decide (id = id') then mkJobInfo (info_id info) s (listeners info) else info)
  | None => None
  end.
Proof.
  rewrite handle_eq. destruct (trackers c !! id) as [info|] eqn:E; simpl.
  - destruct (decide (id = id')) as [<-|Hne].
    + by rewrite bool_decide_true, E, lookup_insert_eq by done.
    + rewrite bool_decide_false, lookup_insert_ne by done. by case_match.
  - destruct (trackers c !! id') eqn:E'; [|done]. rewrite bool_decide_false; [done|].
    intros ->. by rewrite E in E'.
Qed.

Lemma tracked_handle id s c id' :
  tracked (handle_job_state id s c) id' =
  if bool_decide (id = id') then (λ _, s) <$> tracked c id' else tracked c id'.
Proof.
  unfold tracked. rewrite trackers_handle. destruct (trackers c !! id'); simpl; by case_match.
Qed.

(** ** Handles *)

(** Every handle holds the state of its job; a channel is of one job. *)
Record in_sync (c : WorkerClient) : Prop := {
  sync_handles : ∀ id k, (id, k) ∈ handles c → ∃ info, trackers c !! id = Some info ∧ k ∈ listeners info ∧
    channels c !! k = Some (info_state info);
  sync_listeners : ∀ id info k, trackers c !! id = Some info → k ∈ listeners info →
    k < length (channels c) ∧ ∀ id', (id', k) ∈ handles c → id' = id }.

Lemma sync_tasks ts c : in_sync c → in_sync (set_tasks ts c).
Proof. by intros []. Qed.
Lemma sync_spawn t c : in_sync c → in_sync (spawn_task t c).
Proof. apply sync_tasks. Qed.

(** What [handle_job_state] needs: the handles of its own job may still hold
    anything. *)
Record nearly (id : JobId) (c : WorkerClient) : Prop := {
  near_handles : ∀ id' k, (id', k) ∈ handles c → ∃ info, trackers c !! id' = Some info ∧ k ∈ listeners info ∧
    is_Some (channels c !! k) ∧ (id' ≠ id → channels c !! k = Some (info_state info));
  near_listeners : ∀ id' info k, trackers c !! id' = Some info → k ∈ listeners info →
    k < length (channels c) ∧ ∀ id'', (id'', k) ∈ handles c → id'' = id' }.

Lemma sync_nearly id c : in_sync c → nearly id c.
Proof. intros [Hh Hl]. split; [|done]. intros id' k (info&?&?&Hc)%Hh. exists info. rewrite Hc. eauto. Qed.

Lemma send_length (alive : nat → Prop) `{!∀ k, Decision (alive k)} s (v : list (JobState Value)) ks :
  length (foldl (λ v k, if decide (alive k) then <[k := s]> v else v) v ks) = length v.
Proof. revert v. induction ks as [|k ks IH]; intros v; simpl; [done|]. rewrite IH. case_decide; [apply length_insert|done]. Qed.

Lemma nearly_handle id s c : nearly id c → (∀ k, (id, k) ∈ handles c → is_Some (trackers c !! id)) →
  in_sync (handle_job_state id s c).
Proof.
  intros [Hh Hl] Hid. rewrite handle_eq. destruct (trackers c !! id) as [info|] eqn:Ei.
  2: { split; [|done]. intros id' k Hk. destruct (Hh id' k Hk) as (i&Hi&Hki&_&Hc). exists i. split_and!; try done.
       apply Hc. intros ->. congruence. }
  split; simpl.
  - intros id' k Hk. destruct (Hh id' k Hk) as (i&Hi&Hki&[v Hv]&Hc). rewrite send_channels.
    assert (k ∈ (handles c).*2) as Halive by (apply list_elem_of_fmap; by exists (id', k)).
    destruct (decide (id = id')) as [<-|Hne].
    + rewrite Ei in Hi. injection Hi as <-. rewrite lookup_insert_eq. eexists. split; [done|]. split; [done|]. simpl.
      by rewrite decide_True, Hv by done.
    + rewrite lookup_insert_ne by done. exists i. split; [done|]. split; [done|].
      rewrite decide_False; [by apply Hc|]. intros [Hin _]. apply Hne. symmetry. by apply (Hl id info k Ei Hin).
  - intros id' i k Hi Hk. rewrite send_length. destruct (decide (id = id')) as [<-|Hne].
    + rewrite lookup_insert_eq in Hi. injection Hi as <-. by apply (Hl id info k).
    + rewrite lookup_insert_ne in Hi by done. by apply (Hl id' i k).
Qed.

Lemma handle_in_sync id s c : in_sync c → in_sync (handle_job_state id s c).
Proof.
  intros Hc. apply nearly_handle; [by apply sync_nearly|]. intros k (info&Hi&_)%(sync_handles _ Hc). by exists info.
Qed.

Lemma watch_in_sync id s c : trackers c !! id = None → in_sync c → in_sync (watch id s c).
Proof.
  intros Hf [Hh Hl]. apply nearly_handle; [|intros k _; simpl; rewrite lookup_insert_eq; eauto].
  split; simpl.
  - intros id' k [Hk|[= -> ->]%list_elem_of_singleton]%elem_of_app.
    + destruct (Hh id' k Hk) as (i&Hi&Hki&Hc). exists i.
      rewrite lookup_insert_ne by (intros ->; congruence). split; [done|]. split; [done|].
      rewrite lookup_app_l by (by eapply lookup_lt_Some). rewrite Hc. eauto.
    + rewrite lookup_insert_eq. eexists. split; [done|]. split; [by left|]. split; [|done].
      rewrite lookup_app_r by done. by rewrite Nat.sub_diag.
  - intros id' i k Hi Hk. rewrite length_app. simpl.
    apply lookup_insert_Some in Hi as [[<- <-]|[Hne Hi]].
    + apply list_elem_of_singleton in Hk as ->. split; [lia|].
      intros id' [Hk|[= ->]%list_elem_of_singleton]%elem_of_app; [|done].
      destruct (Hh _ _ Hk) as (i&Hi&Hki&_). destruct (Hl _ _ _ Hi Hki). lia.
    + destruct (Hl id' i k Hi Hk) as [Hlt Hu]. split; [lia|].
      intros id'' [Hk'|[= -> ->]%list_elem_of_singleton]%elem_of_app; [by apply Hu|lia].
Qed.

Lemma spawn_in_sync id name args workers c :
  trackers c !! id = None → in_sync c → in_sync (run_state (spawn id name args workers) c).
Proof. intros Hf Hc. unfold spawn, run_state. destruct workers as [|w ws]; [done|]. by apply watch_in_sync. Qed.

Lemma clone_in_sync i c : in_sync c → in_sync (clone_handle i c).
Proof.
  intros [Hh Hl]. unfold clone_handle. destruct (handles c !! i) as [h|] eqn:Eh; [|done].
  assert (∀ id k, (id, k) ∈ handles c ++ [h] → (id, k) ∈ handles c) as Hin.
  { intros id k [?|<-%list_elem_of_singleton]%elem_of_app; [done|]. by eapply list_elem_of_lookup_2. }
  split; simpl; [eauto|]. intros id info k Hi Hk. destruct (Hl id info k Hi Hk). eauto.
Qed.

Lemma drop_in_sync i c : in_sync c → in_sync (drop_handle i c).
Proof.
  intros [Hh Hl]. assert (∀ h, h ∈ delete i (handles c) → h ∈ handles c) as Hin.
  { intros h Hd. rewrite list_elem_of_lookup in Hd |- *. destruct Hd as [j Hj].
    destruct (decide (j < i)); [rewrite list_lookup_delete_lt in Hj by done|rewrite list_lookup_delete_ge in Hj by lia]; eauto. }
  split; simpl; [eauto|]. intros id info k Hi Hk. destruct (Hl id info k Hi Hk). eauto.
Qed.

#[local] Hint Resolve handle_in_sync sync_tasks sync_spawn spawn_in_sync clone_in_sync drop_in_sync : worker.

Lemma step_in_sync l c c' : step l c c' → in_sync c → in_sync c'.
Proof.
  intros Hs Hc. destruct Hs;
    unfold schedule_job, schedule_job_answer, probe_state, probe_state_answer, handle_timer_event,
      handle_event; repeat case_match; auto with worker.
Qed.

(** ** No job is left idle *)

(** The task that will carry a job on from its state. *)
Definition has_work (ts : list Task) (id : JobId) (s : JobState Value) : Prop :=
  match s with
  | PendingScheduling instance w => ji_id instance = id ∧ ScheduleJobStart instance w ∈ ts
  | PendingAck _ => ∃ w, ScheduleJobWait id w ∈ ts
  | Probing w | Scheduled w | Running w => ProbeStart id w ∈ ts
  | Completed _ | Failed _ => True
  | Unknown => False
  end.

Definition busy_except (out : option JobId) (c : WorkerClient) : Prop :=
  ∀ id info, trackers c !! id = Some info → Some id ≠ out → has_work (tasks c) id (info_state info).
Notation busy := (busy_except None).

Definition task_job (t : Task) : JobId :=
  match t with
  | ScheduleJobStart instance _ => ji_id instance
  | ScheduleJobWait id _ | ProbeStart id _ | ProbeWait id _ => id
  end.

Lemma has_work_more ts ts' id s : ts ⊆ ts' → has_work ts id s → has_work ts' id s.
Proof. intros Hts. destruct s; simpl; naive_solver. Qed.

Lemma has_work_less ts1 t ts2 id s : task_job t ≠ id → has_work (ts1 ++ t :: ts2) id s → has_work (ts1 ++ ts2) id s.
Proof.
  intros Hne. assert (∀ t', task_job t' = id → t' ∈ ts1 ++ t :: ts2 → t' ∈ ts1 ++ ts2) as Hin.
  { intros t' Ht'. rewrite !elem_of_app, elem_of_cons. naive_solver. }
  destruct s; simpl; auto.
  - intros [? ?]. auto.
  - intros [w Hw]. exists w. auto.
Qed.

Lemma busy_weaken id c : busy c → busy_except (Some id) c.
Proof. intros Hb id' info Hi _. by apply Hb. Qed.

Lemma busy_remove t ts1 ts2 c : tasks c = ts1 ++ t :: ts2 → busy c → busy_except (Some (task_job t)) (set_tasks (ts1 ++ ts2) c).
Proof.
  intros Ht Hb id info Hi Hne. simpl in *. apply (has_work_less ts1 t ts2); [congruence|]. rewrite <- Ht. by apply Hb.
Qed.

Lemma busy_spawn o t c : busy_except o c → busy_except o (spawn_task t c).
Proof. intros Hb id info Hi Hne. eapply has_work_more; [|by apply Hb]. simpl. set_solver. Qed.

(** The states that leave a task to their job when they are handled. *)
Definition carried (id : JobId) (s : JobState Value) : Prop :=
  match s with
  | PendingScheduling instance _ => ji_id instance = id
  | Unknown | PendingAck _ => False
  | _ => True
  end.

Lemma carried_work id s ts : carried id s → has_work (ts ++ started id s) id s.
Proof. destruct s; simpl; try done; intros; rewrite ?elem_of_app, ?list_elem_of_singleton; auto. Qed.

Lemma handle_except id s c : busy_except (Some id) c → busy_except (Some id) (handle_job_state id s c).
Proof.
  intros Hb id' info. rewrite trackers_handle. destruct (trackers c !! id') as [i|] eqn:E; [|done].
  intros [= <-] Hne. rewrite bool_decide_false by congruence.
  eapply has_work_more; [|by apply Hb]. rewrite handle_eq. destruct (trackers c !! id); simpl; set_solver.
Qed.

Lemma handle_busy id s c : carried id s → busy_except (Some id) c → busy (handle_job_state id s c).
Proof.
  intros Hs Hb id' info Hi _. destruct (decide (id' = id)) as [->|Hne].
  - rewrite trackers_handle in Hi. rewrite handle_eq. destruct (trackers c !! id) as [i|]; [|done].
    injection Hi as <-. rewrite bool_decide_true by done. by apply carried_work.
  - by apply (handle_except id s c Hb id' info Hi); congruence.
Qed.

(** What workers say: the calls to schedule a job return, and the states that
    they announce are those that a worker gives to a job. *)
Definition orderly (l : Label) : Prop :=
  match l with
  | Tau => True
  | ScheduleReplied answer => answer ≠ Panic ∧ answer ≠ Ok Panic
  | ProbeReplied (Ok (Ok s)) => announced s
  | ProbeReplied _ => True
  | Announced (JobUpdate _ s) => announced s
  end.

Lemma announced_carried id s : announced s → carried id s.
Proof. by destruct s. Qed.

Lemma probe_busy id w c : busy_except (Some id) c → busy (probe_state id w c).
Proof.
  intros Hb. unfold probe_state, tracked. destruct (trackers c !! id) as [i|] eqn:E; simpl.
  - destruct (has_terminated (info_state i)) eqn:Ht; [|apply busy_spawn; by apply handle_busy].
    intros id' info Hi _. destruct (decide (id' = id)) as [->|Hne]; [|by apply Hb; congruence].
    rewrite E in Hi. injection Hi as <-. by destruct (info_state i).
  - intros id' info Hi _. apply Hb; [done|]. intros [= ->]. congruence.
Qed.

Lemma timer_busy e c : busy c → busy (handle_timer_event e c).
Proof.
  intros Hb. unfold handle_timer_event.
  destruct e; destruct (tracked c id) as [[]|]; simpl; try done; by apply handle_busy, busy_weaken.
Qed.

Lemma step_busy l c c' : step l c c' → orderly l → busy c → busy c'.
Proof.
  intros Hs Ho Hb. destruct Hs as [c id name args workers Hf|c i|c i|c ts1 ts2 instance w Ht|c ts1 ts2 id w answer Ht
    |c ts1 ts2 id w Ht|c ts1 ts2 id w answer Ht|c s e He|c [id s]]; simpl in Ho.
  - unfold spawn, run_state. destruct workers as [|w ws]; [done|]. apply handle_busy; [done|].
    intros id' info. simpl. rewrite lookup_insert_Some. intros [[<- _]|[_ Hi]] Hne; [done|]. by apply Hb.
  - unfold clone_handle. by destruct (handles c !! i).
  - done.
  - pose proof (busy_remove _ _ _ _ Ht Hb) as Hr. unfold schedule_job. simpl in Hr.
    apply (handle_except _ (PendingAck w)), (busy_spawn _ (ScheduleJobWait (ji_id instance) w)) in Hr.
    intros id info Hi _. destruct (decide (id = ji_id instance)) as [->|Hne]; [|by apply Hr; congruence].
    change (trackers (spawn_task ?t ?c)) with (trackers c) in Hi. rewrite trackers_handle in Hi.
    destruct (trackers _ !! _); [|done]. injection Hi as <-. rewrite bool_decide_true by done. simpl.
    exists w. apply elem_of_app. right. by left.
  - pose proof (busy_remove _ _ _ _ Ht Hb) as Hr. simpl in Hr. unfold schedule_job_answer.
    destruct Ho as [Ho1 Ho2]. destruct answer as [[ack|e|]|e|]; try done; by apply handle_busy.
  - by apply probe_busy, (busy_remove _ _ _ _ Ht Hb).
  - assert (busy (set_tasks (ts1 ++ ts2) c)) as Hr.
    { intros id' info Hi _. pose proof (Hb id' info Hi) as Hw. rewrite Ht in Hw. simpl. clear -Hw.
      assert (∀ t, t ∈ ts1 ++ ProbeWait id w :: ts2 → t = ProbeWait id w ∨ t ∈ ts1 ++ ts2) as Hin.
      { intros t. rewrite !elem_of_app, elem_of_cons. naive_solver. }
      destruct (info_state info); simpl in *; try (by destruct (Hin _ (Hw ltac:(done)))); try done; naive_solver. }
    unfold probe_state_answer. destruct answer as [[s|e|]|e|]; try done.
    apply handle_busy; [by apply announced_carried|by apply busy_weaken].
  - by apply timer_busy.
  - apply handle_busy; [by apply announced_carried|by apply busy_weaken].
Qed.

(** C36: whatever happens since a client was made - jobs spawned under new
    identifiers, handles cloned and dropped, tasks run, answered or lost,
    events and timers, in any order - every handle that is left holds the
    state of its job's tracker. And as long as the calls that schedule jobs
    return and the workers announce only states that a worker gives to a job,
    no job is left idle: one that has not ended has the task that will
    schedule it, wait for its acknowledgement or probe it. *)
Theorem handles_in_sync (ls : list Label) (c : WorkerClient) :
  steps ls client_new c →
  (∀ id k, (id, k) ∈ handles c → ∃ info, trackers c !! id = Some info ∧ channels c !! k = Some (info_state info)) ∧
  (Forall orderly ls → ∀ id info, trackers c !! id = Some info → has_work (tasks c) id (info_state info)).
Proof.
  assert (∀ c0, in_sync c0 → steps ls c0 c → in_sync c) as Hsync.
  { intros c0 Hc Hs. induction Hs; eauto using step_in_sync. }
  assert (∀ c0, busy c0 → steps ls c0 c → Forall orderly ls → busy c) as Hbusy.
  { clear Hsync. intros c0 Hc Hs. induction Hs as [|l ls c1 c2 c3 Hs _ IH]; [done|]. intros [? ?]%Forall_cons.
    apply IH; [by eapply step_busy|done]. }
  intros Hs. split.
  - intros id k Hk. assert (in_sync c) as Hc.
    { apply (Hsync client_new); [|done]. by split; [intros ? ? ?%elem_of_nil|]. }
    destruct (sync_handles c Hc id k Hk) as (info&Hi&_&Hv). by exists info.
  - intros Ho id info Hi. by apply (Hbusy client_new); [|done..].
Qed.

(** No timer is ever armed: whatever happens, the pool stays empty, so that no job
    fails for want of an answer and none is probed again for its age. *)
Lemma handle_timers id s c : jobs_timers (handle_job_state id s c) = jobs_timers c.
Proof. rewrite handle_eq. by destruct (trackers c !! id). Qed.
Theorem timers_never_armed (ls : list Label) (c c' : WorkerClient) :
  jobs_timers c = [] → steps ls c c' → jobs_timers c' = [].
Proof.
  intros Hc Hs. induction Hs as [|l ls c1 c2 c3 Hs _ IH]; [done|]. apply IH. clear IH c3. destruct Hs;
    unfold schedule_job, schedule_job_answer, probe_state, probe_state_answer, handle_timer_event, handle_event,
      spawn, clone_handle, run_state, watch in *;
    repeat case_match; cbn [spawn_task set_tasks jobs_timers] in *; rewrite ?handle_timers; try done.
  destruct workers; [done|]. etrans; [apply handle_timers|done].
Qed.

(** What a timer makes of the state of its job. *)
Definition timed_out (e : TimerEvent) (id : JobId) (s : JobState Value) : JobState Value :=
  match e, s with
  | AckTimeOutAt i, PendingAck _ => if bool_decide (i = id) then Failed AckTimeOut else s
  | ProbingTimeOutAt i, Probing _ => if bool_decide (i = id) then Failed ProbingTimeOut else s
  | ProbeAt i, (Running w | Scheduled w) => if bool_decide (i = id) then Probing w else s
  | _, _ => s
  end.

(** A timer acts only on the state it was armed for: an unacknowledged
    job fails, a probe without an answer fails its job, a job under way is
    probed; any other state of the job, and every other job, is left alone,
    in particular a job that has ended. *)
Theorem timers_respect_state (c : WorkerClient) (e : TimerEvent) (id : JobId) (s : JobState Value) :
  tracked c id = Some s →
  tracked (handle_timer_event e c) id = Some (timed_out e id s) ∧
  (has_terminated s = true → timed_out e id s = s).
Proof.
  intros Hs. split; [|by destruct e, s].
  destruct e as [i|i|i]; simpl; (destruct (decide (i = id)) as [->|Hne];
    [rewrite Hs, ?bool_decide_true by done; destruct s; simpl; rewrite ?tracked_handle, ?Hs,
       ?bool_decide_true by done; done|]);
    rewrite !bool_decide_false by done;
    destruct (tracked c i) as [[]|]; simpl; rewrite ?tracked_handle, ?bool_decide_false by done;
    rewrite Hs; by destruct s.
Qed.

(** Nothing protects a job that has ended: when the answer to its
    scheduling arrives after its completion was announced, the job is back to
    scheduled, for its handles too, and is probed again. *)
Theorem late_ack_revives (c : WorkerClient) (id : JobId) (info : JobInfo) (w : NodeId)
    (v : Value) (ack : JobAck) :
  trackers c !! id = Some info → in_sync c →
  let done := handle_event (JobUpdate id (Completed v)) c in
  let late := schedule_job_answer id w (Ok (Ok ack)) done in
  tracked done id = Some (Completed v) ∧ tracked late id = Some (Scheduled w) ∧
  (∀ k, (id, k) ∈ handles c → channels late !! k = Some (Scheduled w)) ∧
  tasks late = tasks c ++ [ProbeStart id w].
Proof.
  intros Hi Hc done late. unfold late, done. simpl.
  rewrite !tracked_handle, bool_decide_true by reflexivity. unfold tracked. rewrite Hi. simpl.
  split_and!; [reflexivity..| |].
  - intros k Hk. assert (in_sync (handle_job_state id (Scheduled w) (handle_job_state id (Completed v) c))) as Hl
      by by apply handle_in_sync, handle_in_sync.
    destruct (sync_handles _ Hl id k) as (i&Hti&_&Hch).
    { rewrite !handle_eq, Hi. simpl. by rewrite lookup_insert_eq. }
    rewrite Hch. rewrite !trackers_handle, Hi, bool_decide_true in Hti by reflexivity. by injection Hti as <-.
  - rewrite !handle_eq, Hi. simpl. rewrite lookup_insert_eq. simpl. by rewrite app_nil_r.
Qed.

Lemma probe_once ts1 ts2 c id w s :
  tracked c id = Some s → has_terminated s = false → tasks c = ts1 ++ ProbeStart id w :: ts2 →
  ∃ c', step Tau c c' ∧ tracked c' id = Some (Probing w) ∧
    tasks c' = (ts1 ++ ts2) ++ [ProbeStart id w; ProbeWait id w].
Proof.
  intros Hs Ht Hts.
  exists (probe_state id w (set_tasks (ts1 ++ ts2) c)).
  split; [by apply step_probe|]. unfold probe_state.
  change (tracked (set_tasks (ts1 ++ ts2) c) id) with (tracked c id).
  rewrite Hs, Ht. unfold tracked in *. rewrite handle_eq. simpl.
  destruct (trackers c !! id) as [info|]; [|done]. simpl. rewrite lookup_insert_eq. simpl.
  split; [done|]. by rewrite <- (assoc_L (++)).
Qed.

(** Probing feeds itself: starting a probe of a job that has not ended
    starts another one, before any answer; so the calls to the worker under
    way are as many as one likes. *)
Theorem probes_multiply (n : nat) (c : WorkerClient) (id : JobId) (w : NodeId) (s : JobState Value) :
  tracked c id = Some s → has_terminated s = false → ProbeStart id w ∈ tasks c →
  ∃ ls c', steps ls c c' ∧ tasks c' ≡ₚ tasks c ++ replicate n (ProbeWait id w).
Proof.
  revert c s. induction n as [|n IH]; intros c s Hs Ht Hin.
  { exists [], c. split; [constructor|by rewrite app_nil_r]. }
  apply list_elem_of_split in Hin as (ts1&ts2&Hts).
  destruct (probe_once ts1 ts2 c id w s Hs Ht Hts) as (c1&Hstep&Hs1&Hts1).
  destruct (IH c1 (Probing w) Hs1 eq_refl) as (ls&c'&Hsteps&Hts').
  { rewrite Hts1. apply elem_of_app. right. left. }
  exists (Tau :: ls), c'. split; [by econstructor|].
  rewrite Hts', Hts1, Hts. simpl. solve_Permutation.
Qed.

Definition demo_id : JobId := mkJobId (mkID 0 1).
Definition demo_client : WorkerClient := run_state (spawn demo_id "double" Null [node_a]) client_new.

Lemma demo_client_sync : in_sync demo_client.
Proof. apply spawn_in_sync; [reflexivity|]. by split; [intros ? ? ?%elem_of_nil|]. Qed.

(** A job is spawned, its handle cloned and dropped, and it is scheduled. *)
Lemma handles_in_sync_witness : ∃ c,
  handles c = [(demo_id, 0)] ∧ channels c !! 0 = Some (Scheduled node_a) ∧ ProbeStart demo_id node_a ∈ tasks c ∧
  (∀ id k, (id, k) ∈ handles c → ∃ info, trackers c !! id = Some info ∧ channels c !! k = Some (info_state info)) ∧
  ∀ id info, trackers c !! id = Some info → has_work (tasks c) id (info_state info).
Proof.
  set (w := mkJobInstance demo_id "double" Null).
  set (c1 := drop_handle 0 (clone_handle 0 demo_client)).
  set (c2 := schedule_job w node_a (set_tasks [] c1)).
  set (answer := Ok (Ok (mkJobAck node_a demo_id)) : Res string (Res WorkerError JobAck)).
  set (c3 := schedule_job_answer demo_id node_a answer (set_tasks [] c2)).
  exists c3. split; [reflexivity|]. split; [reflexivity|]. split; [vm_compute; left|].
  destruct (handles_in_sync [Tau; Tau; Tau; Tau; ScheduleReplied answer] c3) as [Hh Hw].
  - apply (steps_next _ _ _ demo_client); [by apply step_spawn|].
    eapply steps_next; [apply (step_clone _ 0)|]. eapply steps_next; [apply (step_drop _ 0)|].
    eapply steps_next; [apply (step_schedule _ [] [] w node_a); reflexivity|].
    eapply steps_next; [apply (step_schedule_answer _ [] [] demo_id node_a answer); reflexivity|]. apply steps_refl.
  - split; [exact Hh|]. apply Hw. repeat constructor; discriminate.
Defined.

Lemma timers_never_armed_witness :
  jobs_timers (handle_event (JobUpdate demo_id (Running node_a)) demo_client) = [].
Proof.
  apply (timers_never_armed [Announced (JobUpdate demo_id (Running node_a))] demo_client); [reflexivity|].
  eapply steps_next; [apply (step_event demo_client (JobUpdate demo_id (Running node_a)))|]. constructor.
Defined.

Lemma timers_respect_state_witness :
  tracked (handle_timer_event (AckTimeOutAt demo_id)
    (handle_job_state demo_id (PendingAck node_a) demo_client)) demo_id = Some (Failed AckTimeOut).
Proof.
  destruct (timers_respect_state (handle_job_state demo_id (PendingAck node_a) demo_client)
    (AckTimeOutAt demo_id) demo_id (PendingAck node_a)) as [H _]; [reflexivity|exact H].
Defined.

Lemma late_ack_revives_witness :
  tracked (schedule_job_answer demo_id node_a (Ok (Ok (mkJobAck node_a demo_id)))
    (handle_event (JobUpdate demo_id (Completed Null)) demo_client)) demo_id =
  Some (Scheduled node_a).
Proof.
  apply (late_ack_revives demo_client demo_id
    (mkJobInfo demo_id (PendingScheduling (mkJobInstance demo_id "double" Null) node_a) [0%nat])
    node_a Null (mkJobAck node_a demo_id)); [reflexivity|apply demo_client_sync].
Defined.

Lemma probes_multiply_witness :
  ∃ ls c', steps ls (handle_job_state demo_id (Running node_a) demo_client) c' ∧ length (tasks c') = 1002%nat.
Proof.
  destruct (probes_multiply 1000 (handle_job_state demo_id (Running node_a) demo_client) demo_id
    node_a (Running node_a)) as (ls&c'&Hs&Hl); [reflexivity|reflexivity| |].
  - simpl. right. left.
  - exists ls, c'. split; [exact Hs|]. rewrite (Permutation_length Hl). reflexivity.
Defined.
