(* ===== verification/FrameJob.v ===== *)
(** * The job of a frame, across the network ([session/worker.rs],
    [worker/server.rs], [worker/client.rs], [job/mod.rs])

    What the checkpointer asks of a worker: the arguments are encoded, decoded
    by the worker that has registered the job, executed, and the response is
    encoded and decoded in turn.  The whole has to be the call of the job. *)

From S2P Require Import Prelude Ids Json Channels Types Spec RunLog Catalog Domains Frames Wire Errors Tree Snapshots Sessions Hitl Checkpointer Secrets Models RunFrame Builtin Worker.

(** [RunFrame::NAME] *)
Definition RUN_FRAME : string := "/marie/sessions/jobs/run-frame".

Section job.
Context (channel_error : ChannelError → string) (sv : Services).

(** [Job::execute] of [RunFrame], as [core_job!] expands it: the response is
    encoded by the registration. *)
Definition run_frame_execution (a : RunFrameArgs) : Execution :=
  match run_frame_job sv a with
  | Ok r => Returns (Ok (frame_response_to_value r))
  | Err e => Returns (Err (channel_error e))
  | Panic => TaskPanics ""
  end.

Definition decode_args (v : Value) : option RunFrameArgs :=
  match run_frame_args_from_value v with Ok a => Some a | _ => None end.

(** [Job::register] *)
Definition register_run_frame (w : Worker) : Worker :=
  register_job_executor RUN_FRAME decode_args run_frame_execution w.

(** The instance that [WorkerClient::spawn] builds: it panics on arguments that
    have no JSON form. *)
Definition frame_job (i : JobId) (a : RunFrameArgs) : Res WorkerError JobInstance :=
  match run_frame_args_to_value a with
  | Ok v => Ok (mkJobInstance i RUN_FRAME v)
  | _ => Panic
  end.

(** What a [JobHandle] reads of a state. *)
Definition decode_response (v : Value) : FrameResponse + string :=
  match frame_response_from_value v with Ok r => inl r | _ => inr "malformed response"%string end.

(** The call that the job stands for. *)
Definition frame_job_outcome (a : RunFrameArgs) : JobState FrameResponse :=
  match run_frame_job sv a with
  | Ok r => Completed r
  | Err e => Failed (ExecutionError (channel_error e))
  | Panic => Failed (Panicked "")
  end.
End job.

(** ** Lemmas *)

Lemma registered sv channel_error w :
  executors (register_run_frame channel_error sv w) !! RUN_FRAME =
  Some (wrapped decode_args (run_frame_execution channel_error sv)).
Proof. unfold register_run_frame, register_job_executor. simpl. by rewrite lookup_insert_eq. Qed.

(** The updates of a run are contributed by its frame, and the entries that it
    adds to the journal are numbered by [u32] and hold no [null]. *)
Definition run_sendable (f : FrameId) (ctx : NodeContext) : Prop :=
  t_frame_id (nc_channels ctx) = f ∧ Forall (λ u, contributor u = f) (t_updates (nc_channels ctx)) ∧
  Forall sendable (into_new_logs (nc_logs ctx)).

(** An executor that goes through the context keeps it so. *)
Definition well_behaved (x : NodeExecutor) : Prop := ∀ f ctx ctx' r,
  run_sendable f ctx → x ctx = Ok (ctx', r) → run_sendable f ctx'.

Definition well_behaved_services (sv : Services) : Prop :=
  map_Forall (λ _, well_behaved) (sv_node_executors sv).

Lemma updates_sendable f (l : list ChannelUpdate) :
  sendable f → Forall (λ u, contributor u = f) l → sendable l.
Proof. intros Hf Hl. eapply Forall_impl; [exact Hl|]. intros u Hu. simpl in Hu. subst f. exact Hf. Qed.

Lemma write_sendable f ctx name v : run_sendable f ctx → run_sendable f (node_write ctx name v).
Proof.
  intros (Hf&Hu&Hl). split_and!; [done| |done].
  unfold node_write, tracker_write. simpl. apply Forall_app. split; [done|]. by constructor.
Qed.

Lemma reserve_sendable f ctx c :
  run_sendable f ctx → run_sendable f (set_logs ctx (reserve_log (nc_logs ctx) c).1).
Proof.
  intros (Hf&Hu&Hl). split_and!; [done..|]. unfold set_logs, reserve_log. simpl.
  unfold into_new_logs in *. simpl. case_decide; [|done].
  rewrite drop_app. apply Forall_app. split; [done|]. apply Forall_drop. constructor; [|done].
  split; [|done]. simpl. unfold wrap32. apply Z.mod_pos_bound. lia.
Qed.

Lemma ask_expert_well_behaved channel_error : well_behaved (ask_expert channel_error).
Proof.
  intros f ctx ctx' r Hc. unfold ask_expert.
  intros (expert&_&(task&_&Hx)%res_bind_ok)%res_bind_ok. revert Hx. unfold ask_one_expert.
  pose proof (reserve_sendable f ctx (ConsultExpertsLog [mkRequestAskExpert task expert]) Hc) as Hr.
  destruct (reserve_log _ _) as [l log] eqn:El. cbn zeta.
  intros (resolved&_&Hx)%res_bind_ok.
  destruct resolved as [[| | | |[|v vs]|]|]; simplify_eq; try done.
  destruct (as_str v); simplify_eq. by apply write_sendable.
Qed.

Lemma failed_sendable f updates msg :
  sendable f → Forall (λ u, contributor u = f) updates → frame_response_sendable (failed_response f updates msg).
Proof. intros Hf Hu. split_and!; [done|by eapply updates_sendable|constructor]. Qed.

Lemma resolve_tools_response sv f e l r :
  resolve_tools sv f e l = inl r → ∃ msg, r = failed_response f [] msg.
Proof.
  induction l as [|i l IH]; simpl; [done|].
  destruct (sv_tool sv i) as [?|[t|]]; [intros [= <-]; by eexists| |intros [= <-]; by eexists].
  by destruct (resolve_tools sv f e l); intros; simplify_eq; apply IH.
Qed.

Lemma run_expert_sendable sv f t r :
  sendable f → t_frame_id t = f → t_updates t = [] → run_expert sv f t = Ok r → frame_response_sendable r.
Proof.
  intros Hf Ht Hu. unfold run_expert.
  intros (e&_&(task&_&Hr)%res_bind_ok)%res_bind_ok. revert Hr.
  destruct (sv_expert sv e) as [?|[ex|]]; [intros [= <-]; by apply failed_sendable| |intros [= <-]; by apply failed_sendable].
  destruct (resolve_tools _ _ _ _) as [r'|ts] eqn:E.
  { intros [= <-]. apply resolve_tools_response in E as [msg ->]. by apply failed_sendable. }
  destruct (sv_model _ _ _ _); [intros [= <-]; by apply failed_sendable|].
  destruct (stream_failure _); intros [= <-].
  - apply failed_sendable; [done|]. unfold into_updates. by rewrite Hu.
  - split_and!; [done| |constructor]. apply (updates_sendable f); [done|].
    unfold into_updates, tracker_write. simpl. rewrite Hu. by constructor.
Qed.

(** What a job answers survives the network. *)
Lemma run_frame_job_sendable sv a r :
  well_behaved_services sv → sendable (rf_frame_id a) → run_frame_job sv a = Ok r →
  frame_response_sendable r.
Proof.
  intros Hw Hf. unfold run_frame_job. destruct (rf_data a); try done.
  - by apply run_expert_sendable.
  - unfold run_tool. destruct (tools_execute _ _ _ _); intros; simplify_eq; [|by apply failed_sendable].
    split_and!; [done| |constructor]. by apply (updates_sendable (rf_frame_id a)); [|constructor].
  - unfold run_node, graphs_execute.
    destruct (sv_graph sv g) as [|gr]; [intros [= <-]; by apply failed_sendable|].
    destruct (gs_nodes gr !! node_id) as [spec|]; [|intros [= <-]; by apply failed_sendable].
    destruct (sv_node_executors sv !! ns_kind spec) as [x|] eqn:E; [|intros [= <-]; by apply failed_sendable].
    destruct (x _) as [[ctx' res]|err|] eqn:Ex; intros [= <-]; [|by apply failed_sendable].
    apply (Hw _ _ E (rf_frame_id a)) in Ex as (_&Hu&Hl).
    + split_and!; [done|by apply (updates_sendable (rf_frame_id a))|done].
    + split_and!; [done|constructor|]. unfold into_new_logs, run_logs_new. simpl.
      rewrite drop_all. constructor.
Qed.

(** ** Properties *)

(** C21: Handing a frame to a worker is calling its job.  When the arguments
    survive the network, the instance built for them is accepted by any worker
    that has registered the job, and once it has run, the state that the worker
    reports decodes to exactly what the call gives: the response, the failure,
    or the panic. *)
Theorem remote_run_is_local (channel_error : ChannelError → string) (sv : Services) (w : Worker) (i : JobId)
    (a : RunFrameArgs) :
  is_hitl (rf_data a) = false → run_frame_args_sendable a → well_behaved_services sv →
  ∃ job, frame_job i a = Ok job ∧
    let w' := register_run_frame channel_error sv w in
    let w1 := run_state (schedule_job job) w' in
    let w2 := run_state (execute_job job) w1 in
    run_res (schedule_job job) w' = Ok (mkJobAck (local_node_id w) i) ∧
    run_res (execute_job job) w1 = Ok () ∧
    (s ← get_job_state w2 i; job_state_deserialize decode_response s) =
      Ok (frame_job_outcome channel_error sv a).
Proof.
  intros Hh Ha Hw. destruct (run_frame_args_encode a Hh) as (v&Hv&Hd). specialize (Hd Ha).
  exists (mkJobInstance i RUN_FRAME v). unfold frame_job. rewrite Hv. split; [done|].
  set (w' := register_run_frame channel_error sv w). cbv zeta.
  set (w1 := run_state _ w'). set (w2 := run_state _ w1). pose proof (registered sv channel_error w) as Hx.
  set (job := mkJobInstance i RUN_FRAME v) in *.
  pose proof (schedule_job_ok w' job _ Hx) as Hs.
  assert (∃ final, outcome job (wrapped decode_args (run_frame_execution channel_error sv) (ji_args job)) = Some final ∧
    job_state_deserialize decode_response final = Ok (frame_job_outcome channel_error sv a)) as (final&Ho&Hj).
  { unfold wrapped, decode_args, job. simpl. rewrite Hd. unfold run_frame_execution, frame_job_outcome.
    destruct (run_frame_job sv a) as [r|e|] eqn:Er; eexists; (split; [reflexivity|]); try done.
    unfold job_state_deserialize, decode_response.
    rewrite frame_response_roundtrip; [done|]. eapply run_frame_job_sendable; [done| |done]. apply Ha. }
  assert (w1 = spawn_execution job (update_state i (Scheduled (local_node_id w')) w')) as Hw1.
  { unfold w1, run_state. by rewrite Hs. }
  assert (executors w1 !! ji_name job = Some (wrapped decode_args (run_frame_execution channel_error sv))) as Hx1.
  { by rewrite Hw1. }
  pose proof (execute_job_ok w1 job _ final Hx1 Ho) as He.
  split_and!; [unfold run_res; by rewrite Hs|unfold run_res; by rewrite He|].
  unfold w2, run_state. rewrite He. unfold get_job_state. simpl. by rewrite lookup_insert_eq.
Qed.

(** The job of a question to a human cannot even be built. *)
Theorem question_job_panics (i : JobId) (a : RunFrameArgs) (h : HitlId) :
  rf_data a = KHitl h → frame_job i a = Panic.
Proof. intros Hd. unfold frame_job, run_frame_args_to_value. by rewrite Hd. Qed.

(** ** The node that asks an expert, on another worker *)

Definition no_channel (e : ChannelError) : string := "no channel".
Definition demo_remote_args : RunFrameArgs :=
  demo_ask_args [mkRunLog 0 demo_question (Some (Array [Str "42"]))].

Lemma demo_remote_sendable : run_frame_args_sendable demo_remote_args.
Proof.
  assert (ID_wf (mkID 0 1)) as Hi by done.
  split; [|split; [|split]]; [done|exact Hi| |done].
  constructor; [|constructor]. split; [by split|]. by split.
Qed.

Lemma demo_services_well_behaved :
  well_behaved_services (mkServices (λ _, inr None) (λ _, inr None) (λ _, inr demo_ask_graph) ∅
    {[ASK_EXPERT := ask_expert no_channel]} (λ _ _ _, inl "no model")).
Proof. intros k x Hx. cbn [sv_node_executors] in Hx. apply lookup_singleton_Some in Hx as [_ <-]. apply ask_expert_well_behaved. Qed.

Lemma remote_run_is_local_witness :
  ∃ job : JobInstance, ∃ w : Worker,
    (s ← get_job_state w (mkJobId (mkID 0 1)); job_state_deserialize decode_response s) =
    Ok (Completed (mkFrameResponse (fid 1) [mkChannelUpdate "answer" (Str "42") (fid 1)] [] FCompleted)).
Proof.
  destruct (remote_run_is_local no_channel _ (mkWorker NodeId_default [] ∅ ∅ []) (mkJobId (mkID 0 1))
    demo_remote_args eq_refl demo_remote_sendable demo_services_well_behaved) as (job&_&_&_&Hs).
  exists job. eexists. etrans; [exact Hs|]. vm_compute. reflexivity.
Defined.

Lemma question_job_panics_witness :
  frame_job (mkJobId (mkID 0 1))
    (mkRunFrameArgs sid0 (fid 1) ∅ [] (KHitl (mkHitlId (mkID 0 2)))) = Panic.
Proof. by apply (question_job_panics _ _ (mkHitlId (mkID 0 2))). Defined.
