(* ===== verification/Assembly.v ===== *)
(** * How a process is put together ([di.rs], [entrypoint.rs], the [construct] of each part)

    A container keeps one instance of each type and builds what it has not.  An
    instance is the handle that its clones share: a number of its own, the session
    it was made for, and the handles it holds.  What the parts do is modelled
    elsewhere; here is who shares what with whom. *)

From stdpp Require Import countable.
From S2P Require Import Prelude Ids Secrets.

(** ** Instances *)

(** The types that a container can keep; each one needs only types that come
    before it. *)
Inductive Ty :=
  | OwnNodeId | SecretManagerTy | SecretStore | PostMessageRouter | EventRouter | CapabilitiesTy | AnnuaryEventRouter
  | CatalogStore | SessionStore | SessionFrameStore | SessionLogStore | HitlStore | SessionSnapshotStore
  | CatalogTy | VaultTy | ToolsTy | GraphsTy | ModelsTy | ExpertsTy
  | PostOffice | EventBus | IdGeneratorTy | RpcClientTy | RpcServerTy | AnnuaryTy | WorkerClientTy | WorkerTy
  | SessionHitlsFactory | SessionSnapshotsFactory | SessionLogsFactory | FrameTreeFactory | SessionCheckpointerFactory
  | SessionControllerTy | SessionClientFactory
  (** what the factories make, and what the stores are made of *)
  | SessionHitls | SessionSnapshots | SessionLogs | FrameTree | SessionCheckpointer | SessionClient
  | PgStoreTy | CatalogMemory | SecretMemory | SessionMemory | FrameMemory | SnapshotMemory | HitlMemory | LogMemory.

Definition rank (t : Ty) : nat :=
  match t with
  | OwnNodeId => 0 | SecretManagerTy => 1 | SecretStore => 2 | PostMessageRouter => 3 | EventRouter => 4 | CapabilitiesTy => 5
  | AnnuaryEventRouter => 6 | CatalogStore => 7 | SessionStore => 8 | SessionFrameStore => 9 | SessionLogStore => 10
  | HitlStore => 11 | SessionSnapshotStore => 12
  | CatalogTy => 13 | VaultTy => 14 | ToolsTy => 15 | GraphsTy => 16 | ModelsTy => 17 | ExpertsTy => 18
  | PostOffice => 19 | EventBus => 20 | IdGeneratorTy => 21 | RpcClientTy => 22 | RpcServerTy => 23 | AnnuaryTy => 24
  | WorkerClientTy => 25 | WorkerTy => 26
  | SessionHitlsFactory => 27 | SessionSnapshotsFactory => 28 | SessionLogsFactory => 29 | FrameTreeFactory => 30
  | SessionCheckpointerFactory => 31 | SessionControllerTy => 32 | SessionClientFactory => 33
  | SessionHitls => 34 | SessionSnapshots => 35 | SessionLogs => 36 | FrameTree => 37 | SessionCheckpointer => 38 | SessionClient => 39
  | PgStoreTy => 40 | CatalogMemory => 41 | SecretMemory => 42 | SessionMemory => 43 | FrameMemory => 44 | SnapshotMemory => 45
  | HitlMemory => 46 | LogMemory => 47
  end.

(** What a container keeps one instance of. *)
Definition is_part (t : Ty) : bool := (rank t <? 34)%nat.

#[export] Instance ty_eq_dec : EqDecision Ty.
Proof. solve_decision. Defined.

Definition all_types : list Ty :=
  [OwnNodeId; SecretManagerTy; SecretStore; PostMessageRouter; EventRouter; CapabilitiesTy; AnnuaryEventRouter;
   CatalogStore; SessionStore; SessionFrameStore; SessionLogStore; HitlStore; SessionSnapshotStore;
   CatalogTy; VaultTy; ToolsTy; GraphsTy; ModelsTy; ExpertsTy;
   PostOffice; EventBus; IdGeneratorTy; RpcClientTy; RpcServerTy; AnnuaryTy; WorkerClientTy; WorkerTy;
   SessionHitlsFactory; SessionSnapshotsFactory; SessionLogsFactory; FrameTreeFactory; SessionCheckpointerFactory;
   SessionControllerTy; SessionClientFactory;
   SessionHitls; SessionSnapshots; SessionLogs; FrameTree; SessionCheckpointer; SessionClient;
   PgStoreTy; CatalogMemory; SecretMemory; SessionMemory; FrameMemory; SnapshotMemory; HitlMemory; LogMemory].
#[export] Instance ty_countable : Countable Ty.
Proof. apply (inj_countable rank (λ n, all_types !! n)). by intros []. Defined.

Inductive Inst := mkInst (i_ty : Ty) (i_id : nat) (i_session : option SessionId) (i_fields : list Inst).
Definition i_ty (i : Inst) : Ty := let 'mkInst t _ _ _ := i in t.
Definition i_id (i : Inst) : nat := let 'mkInst _ n _ _ := i in n.
Definition i_fields (i : Inst) : list Inst := let 'mkInst _ _ _ l := i in l.

(** The instance itself, and all that can be reached from it. *)
Inductive reach : Inst → Inst → Prop :=
  | reach_refl i : reach i i
  | reach_field i f j : f ∈ i_fields i → reach f j → reach i j.

(** ** The container *)

(** [next] numbers the instances that are made. *)
Record Container := mkContainer { c_map : gmap Ty Inst; c_next : nat }.

(** The code that uses a container takes its lock for one operation at a time: it
    looks a type up, or inserts an instance, and has released the lock when it goes
    on with what it saw.  [Number] gives a new instance a number of its own. *)
Inductive CM (A : Type) :=
  | Done (a : A)
  | Panicked
  | Look (t : Ty) (k : option Inst → CM A)
  | Insert (i : Inst) (k : CM A)
  | Number (k : nat → CM A).
Arguments Done {A} _.
Arguments Panicked {A}.
Arguments Look {A} _ _.
Arguments Insert {A} _ _.
Arguments Number {A} _.

Fixpoint cm_bind {A B} (k : A → CM B) (m : CM A) : CM B :=
  match m with
  | Done a => k a
  | Panicked => Panicked
  | Look t f => Look t (λ o, cm_bind k (f o))
  | Insert i m => Insert i (cm_bind k m)
  | Number f => Number (λ n, cm_bind k (f n))
  end.
#[export] Instance cm_ret : MRet CM := λ A a, Done a.
#[export] Instance cm_mbind : MBind CM := λ A B, cm_bind.

(** One operation, under the lock. *)
Definition inserted (i : Inst) (c : Container) : Container := mkContainer (<[i_ty i := i]> (c_map c)) (c_next c).
Definition numbered (c : Container) : Container := mkContainer (c_map c) (S (c_next c)).
Definition turn {A} (m : CM A) (c : Container) : CM A * Container :=
  match m with
  | Look t k => (k (c_map c !! t), c)
  | Insert i k => (k, inserted i c)
  | Number k => (k (c_next c), numbered c)
  | m => (m, c)
  end.

(** All of it, when nothing else uses the container meanwhile. *)
Fixpoint exec {A} (m : CM A) (c : Container) : Res Empty_set A * Container :=
  match m with
  | Done a => (Ok a, c)
  | Panicked => (Panic, c)
  | Look t k => exec (k (c_map c !! t)) c
  | Insert i k => exec k (inserted i c)
  | Number k => exec (k (c_next c)) (numbered c)
  end.

Definition fresh (t : Ty) (s : option SessionId) (fields : list Inst) : CM Inst := Number (λ n, Done (mkInst t n s fields)).

Definition try_get (t : Ty) : CM (option Inst) := Look t Done.
(** [Get::get]: [self.try_get().unwrap()] *)
Definition get_part (t : Ty) : CM Inst := o ← try_get t; match o with Some i => mret i | None => Panicked end.
Definition register (i : Inst) : CM () := Insert i (Done ()).

(** [Resolve::resolve]: the lock is not held while the instance is made. *)
Definition resolve (t : Ty) (construct : CM Inst) : CM Inst :=
  o ← try_get t;
  match o with
  | Some i => mret i
  | None => i ← construct; _ ← register i; mret i
  end.

(** A constructor takes its arguments one after the other. *)
Fixpoint gather (args : list (CM Inst)) : CM (list Inst) :=
  match args with
  | [] => mret []
  | m :: args => i ← m; l ← gather args; mret (i :: l)
  end.
Definition build (t : Ty) (s : option SessionId) (args : list (CM Inst)) : CM Inst :=
  fields ← gather args;
  fresh t s fields.

(** ** The constructors of the parts *)

(** [feature = "rpc-executor"] *)
Section parts.
Context (rpc_executor : bool).

Definition catalog_construct : CM Inst := build CatalogTy None [get_part CatalogStore].
Definition resolve_catalog : CM Inst := resolve CatalogTy catalog_construct.
Definition vault_construct : CM Inst := build VaultTy None [get_part SecretManagerTy; get_part SecretStore].
Definition resolve_vault : CM Inst := resolve VaultTy vault_construct.
Definition tools_construct : CM Inst := build ToolsTy None [resolve_catalog].
Definition resolve_tools : CM Inst := resolve ToolsTy tools_construct.
Definition graphs_construct : CM Inst := build GraphsTy None [resolve_catalog].
Definition resolve_graphs : CM Inst := resolve GraphsTy graphs_construct.
Definition models_construct : CM Inst := build ModelsTy None [resolve_vault; resolve_catalog].
Definition resolve_models : CM Inst := resolve ModelsTy models_construct.
Definition experts_construct : CM Inst := build ExpertsTy None [resolve_catalog; resolve_models; resolve_tools].
Definition resolve_experts : CM Inst := resolve ExpertsTy experts_construct.

Definition postoffice_construct : CM Inst := build PostOffice None [get_part PostMessageRouter].
Definition resolve_postoffice : CM Inst := resolve PostOffice postoffice_construct.
Definition bus_construct : CM Inst := build EventBus None [get_part EventRouter].
Definition resolve_bus : CM Inst := resolve EventBus bus_construct.
(** The seed is made of the identifier of the node, which the generator does not keep. *)
Definition id_construct : CM Inst := _ ← get_part OwnNodeId; fresh IdGeneratorTy None [].
Definition resolve_id : CM Inst := resolve IdGeneratorTy id_construct.
Definition rpc_client_construct : CM Inst := build RpcClientTy None [resolve_postoffice; resolve_id].
Definition resolve_rpc_client : CM Inst := resolve RpcClientTy rpc_client_construct.
(** [Get<PostOffice>], not [Resolve<PostOffice>]. *)
Definition rpc_server_construct : CM Inst := build RpcServerTy None [get_part PostOffice].
Definition resolve_rpc_server : CM Inst := resolve RpcServerTy rpc_server_construct.
(** The server only learns a procedure: the directory does not keep it. *)
Definition annuary_construct : CM Inst :=
  capabilities ← get_part CapabilitiesTy;
  router ← get_part AnnuaryEventRouter;
  rpc_client ← resolve_rpc_client;
  _ ← (if rpc_executor then _ ← resolve_rpc_server; mret () else mret ());
  fresh AnnuaryTy None [rpc_client; capabilities; router].
Definition resolve_annuary : CM Inst := resolve AnnuaryTy annuary_construct.
Definition worker_client_construct : CM Inst :=
  build WorkerClientTy None [resolve_rpc_client; resolve_annuary; resolve_bus; resolve_id].
Definition resolve_worker_client : CM Inst := resolve WorkerClientTy worker_client_construct.
Definition worker_construct : CM Inst := build WorkerTy None [get_part OwnNodeId; resolve_bus; resolve_rpc_server].
Definition resolve_worker : CM Inst := resolve WorkerTy worker_construct.

(** ** Factories

    A factory keeps the container, and takes its parts when it makes something. *)

Definition resolve_hitls_factory : CM Inst := resolve SessionHitlsFactory (fresh SessionHitlsFactory None []).
Definition hitls_create (s : SessionId) : CM Inst :=
  build SessionHitls (Some s) [resolve_id; resolve_bus; get_part HitlStore].
Definition resolve_snapshots_factory : CM Inst := resolve SessionSnapshotsFactory (fresh SessionSnapshotsFactory None []).
Definition snapshots_create (s : SessionId) : CM Inst := build SessionSnapshots (Some s) [get_part SessionSnapshotStore].
Definition resolve_logs_factory : CM Inst := resolve SessionLogsFactory (fresh SessionLogsFactory None []).
Definition logs_create (s : SessionId) : CM Inst :=
  build SessionLogs (Some s) [resolve_id; get_part SessionLogStore; resolve_bus].
Definition resolve_tree_factory : CM Inst := resolve FrameTreeFactory (fresh FrameTreeFactory None []).
Definition tree_create (s : SessionId) : CM Inst := build FrameTree (Some s) [get_part SessionFrameStore; resolve_graphs].

Definition checkpointer_factory_construct : CM Inst :=
  build SessionCheckpointerFactory None
    [resolve_hitls_factory; resolve_snapshots_factory; resolve_logs_factory; resolve_tree_factory].
Definition resolve_checkpointer_factory : CM Inst := resolve SessionCheckpointerFactory checkpointer_factory_construct.
Definition checkpointer_create (s : SessionId) : CM Inst :=
  build SessionCheckpointer (Some s)
    [hitls_create s; snapshots_create s; logs_create s; tree_create s;
     resolve_id; resolve_worker_client; resolve_bus; resolve_graphs; get_part SessionStore].

Definition controller_construct : CM Inst :=
  store ← get_part SessionStore;
  factory ← resolve_checkpointer_factory;
  _ ← (if rpc_executor then _ ← resolve_rpc_server; mret () else mret ());
  events ← resolve_bus;
  id ← resolve_id;
  fresh SessionControllerTy None [store; factory; events; id].
Definition resolve_controller : CM Inst := resolve SessionControllerTy controller_construct.

(** This one takes its parts at once. *)
Definition client_factory_construct : CM Inst :=
  build SessionClientFactory None [resolve_bus; resolve_rpc_client; resolve_annuary; get_part SessionStore].
Definition resolve_client_factory : CM Inst := resolve SessionClientFactory client_factory_construct.
Definition client_create (factory : Inst) (s : SessionId) : CM Inst := fresh SessionClient (Some s) (i_fields factory).

(** ** The local process *)

Inductive DatabaseMode := Postgres (url : string) | InMemory.

(** [container.register(..)] *)
Definition provide (t : Ty) (fields : list (CM Inst)) : CM Inst :=
  i ← build t None fields; _ ← register i; mret i.
Definition memory (t : Ty) : CM Inst := fresh t None [].

Record LocalMarie := mkLocalMarie {
  lm_tools : Inst; lm_graphs : Inst; lm_models : Inst; lm_experts : Inst; lm_sessions : Inst; lm_client_factory : Inst }.

(** The stores of the two modes; a handle of PostgreSQL is cloned. *)
Definition provide_stores (mode : DatabaseMode) : CM () :=
  match mode with
  | Postgres _ =>
      pg ← memory PgStoreTy;
      _ ← provide CatalogStore [mret pg]; _ ← provide SessionStore [mret pg]; _ ← provide SessionFrameStore [mret pg];
      _ ← provide SessionLogStore [mret pg]; _ ← provide HitlStore [mret pg]; mret ()
  | InMemory =>
      _ ← provide CatalogStore [memory CatalogMemory];
      _ ← provide SessionStore
            [memory SessionMemory; memory FrameMemory; memory SnapshotMemory; memory HitlMemory; memory LogMemory];
      _ ← provide SessionFrameStore [memory FrameMemory];
      _ ← provide SessionLogStore [memory LogMemory]; _ ← provide HitlStore [memory HitlMemory]; mret ()
  end.

Definition provide_base : CM () :=
  own ← provide OwnNodeId [];
  _ ← provide SecretManagerTy [];
  _ ← provide SecretStore [memory SecretMemory];
  _ ← provide PostMessageRouter []; _ ← provide EventRouter []; _ ← provide CapabilitiesTy [];
  _ ← provide AnnuaryEventRouter [mret own]; mret ().

Definition local_parts : CM LocalMarie :=
  tools ← resolve_tools; graphs ← resolve_graphs; models ← resolve_models; experts ← resolve_experts;
  sessions ← resolve_controller; client_factory ← resolve_client_factory;
  mret (mkLocalMarie tools graphs models experts sessions client_factory).

Definition empty_container : Container := mkContainer ∅ 0.

Inductive StartError := BadSecrets (e : SecretError) | NoDatabase.

(** [LocalMarie::new]; [connects] tells whether PostgreSQL can be reached. *)
Definition local_marie_new (connects : string → bool) (epochs : list (KeyEpoch * SecretKey)) (current : KeyEpoch)
    (mode : DatabaseMode) : Res StartError LocalMarie * Container :=
  match with_epochs epochs current with
  | Err e => (Err (BadSecrets e), empty_container)
  | Panic => (Panic, empty_container)
  | Ok _ =>
      let c := (exec provide_base empty_container).2 in
      if match mode with Postgres url => connects url | InMemory => true end then
        let '(r, c) := exec (_ ← provide_stores mode; local_parts) c in
        (map_err (λ e : Empty_set, match e with end) r, c)
      else (Err NoDatabase, c)
  end.
End parts.

(** ** What a container keeps *)

(** A part that can be reached is the one that the container keeps. *)
Definition shares (m : gmap Ty Inst) (i : Inst) : Prop :=
  ∀ j, reach i j → is_part (i_ty j) = true → m !! i_ty j = Some j.
Definition one_of_each (c : Container) : Prop :=
  ∀ t i, c_map c !! t = Some i → i_ty i = t ∧ shares (c_map c) i.

(** What was kept stays, and what is added has its rank between the two. *)
Record grows (lo hi : nat) (c c' : Container) : Prop := {
  grows_kept : c_map c ⊆ c_map c';
  grows_new : ∀ u, c_map c !! u = None → is_Some (c_map c' !! u) → lo ≤ rank u < hi }.

Lemma grows_refl lo hi c : grows lo hi c c.
Proof. split; [done|]. intros u -> [? [=]]. Qed.
Lemma grows_trans lo hi c1 c2 c3 : grows lo hi c1 c2 → grows lo hi c2 c3 → grows lo hi c1 c3.
Proof.
  intros [H1 N1] [H2 N2]. split; [by etrans|]. intros u Hu H3. destruct (c_map c2 !! u) eqn:E; [|by apply N2].
  apply N1; [done|by eexists].
Qed.
Lemma grows_weaken lo lo' hi hi' c c' : lo' ≤ lo → hi ≤ hi' → grows lo hi c c' → grows lo' hi' c c'.
Proof. intros Hl Hh [H N]. split; [done|]. intros u Hu Hs. specialize (N u Hu Hs). lia. Qed.

Lemma shares_mono m m' i : m ⊆ m' → shares m i → shares m' i.
Proof. intros Hm Hi j Hj Hp. eapply lookup_weaken; [by apply Hi|done]. Qed.
Lemma shares_field m i f : f ∈ i_fields i → shares m i → shares m f.
Proof. intros Hf Hi j Hj. apply Hi. by econstructor. Qed.
Lemma shares_fields m i : is_part (i_ty i) = false ∨ m !! i_ty i = Some i → Forall (shares m) (i_fields i) → shares m i.
Proof.
  intros Hi Hf j Hj Hp. inversion Hj as [|? f ? Hin Hr]; subst; [by destruct Hi as [Hi|Hi]; [congruence|]|].
  rewrite Forall_forall in Hf. by apply (Hf f Hin).
Qed.

(** What a process did not register is not added. *)
Lemma base_unchanged hi c c' : grows 13 hi c c' → c_map c !! SessionSnapshotStore = None → c_map c' !! SessionSnapshotStore = None.
Proof.
  intros Hg Hn. destruct (c_map c' !! SessionSnapshotStore) eqn:E; [|done].
  destruct (grows_new _ _ _ _ Hg SessionSnapshotStore Hn) as [Hlt _]; [by eexists|]. cbn in Hlt. lia.
Qed.

Lemma exec_bind {A B} (m : CM A) (k : A → CM B) c :
  exec (m ≫= k) c = let '(r, c1) := exec m c in match r with Ok a => exec (k a) c1 | Err e => (Err e, c1) | Panic => (Panic, c1) end.
Proof. unfold mbind, cm_mbind. revert c. induction m; intros c; simpl; auto. Qed.

(** What an operation of a container promises from [P], when it is alone. *)
Definition promises {A} (lo hi : nat) (P : Container → Prop) (m : CM A) (Q : A → Container → Prop) : Prop :=
  ∀ c r c', one_of_each c → P c → exec m c = (r, c') →
    one_of_each c' ∧ grows lo hi c c' ∧ ∀ a, r = Ok a → Q a c'.
Definition lasting (P : Container → Prop) : Prop := ∀ c c', c_map c ⊆ c_map c' → P c → P c'.
Definition anyway (c : Container) : Prop := True.

(** A handle to the part of type [t], which its holders share. *)
Definition gives (t : Ty) (i : Inst) (c : Container) : Prop := i_ty i = t ∧ shares (c_map c) i.
(** An instance that may not be kept yet, whose fields are shared. *)
Definition makes (t : Ty) (i : Inst) (c : Container) : Prop := i_ty i = t ∧ Forall (shares (c_map c)) (i_fields i).

Lemma promises_ret {A} lo hi (P : Container → Prop) (a : A) (Q : A → Container → Prop) :
  (∀ c, P c → Q a c) → promises lo hi P (mret a) Q.
Proof. intros HQ c r c' Hc HP [= <- <-]. split; [done|]. split; [apply grows_refl|]. intros ? [= <-]. by apply HQ. Qed.
Lemma promises_bind {A B} lo hi P (m : CM A) Q (k : A → CM B) R :
  promises lo hi P m Q → (∀ a, promises lo hi (Q a) (k a) R) → promises lo hi P (m ≫= k) R.
Proof.
  intros Hm Hk c r c' Hc HP. rewrite exec_bind. destruct (exec m c) as [r1 c1] eqn:E1.
  destruct (Hm _ _ _ Hc HP E1) as (Hc1&Hg1&Hq). destruct r1 as [a|[]|].
  - intros Ek. destruct (Hk a c1 r c' Hc1 (Hq a eq_refl) Ek) as (Hc2&Hg2&Hr). split; [done|]. split; [by eapply grows_trans|done].
  - intros [= <- <-]. split; [done|]. split; [done|]. by intros ? [=].
Qed.
Lemma promises_weaken {A} lo lo' hi hi' P P' (m : CM A) Q Q' :
  lo' ≤ lo → hi ≤ hi' → (∀ c, P' c → P c) → (∀ a c, Q a c → Q' a c) → promises lo hi P m Q → promises lo' hi' P' m Q'.
Proof.
  intros Hlo Hhi HP HQ Hm c r c' Hc Hc' E. destruct (Hm _ _ _ Hc (HP _ Hc') E) as (H1&H2&H3). split; [done|].
  split; [by eapply grows_weaken|]. intros a Ha. apply HQ. by apply H3.
Qed.
Lemma promises_frame {A} lo hi P F (m : CM A) Q :
  lasting F → promises lo hi P m Q → promises lo hi (λ c, P c ∧ F c) m (λ a c, Q a c ∧ F c).
Proof.
  intros HF Hm c r c' Hc [HP Hf] E. destruct (Hm _ _ _ Hc HP E) as (H1&H2&H3). split; [done|]. split; [done|].
  intros a Ha. split; [by apply H3|]. apply (HF c); [apply H2|done].
Qed.

Lemma gives_lasting t i : lasting (gives t i).
Proof. intros c c' Hm [Ht Hs]. split; [done|]. by eapply shares_mono. Qed.
Lemma makes_lasting t i : lasting (makes t i).
Proof. intros c c' Hm [Ht Hs]. split; [done|]. eapply Forall_impl; [done|]. intros f. by apply shares_mono. Qed.

Lemma get_part_gives lo hi t : promises lo hi anyway (get_part t) (gives t).
Proof.
  intros c r c' Hc _. unfold get_part, try_get. simpl. destruct (c_map c !! t) as [j|] eqn:E; intros [= <- <-];
    (split; [done|]; split; [apply grows_refl|]); intros i Hi; [|done]. injection Hi as <-. by apply Hc.
Qed.

Lemma fresh_makes lo hi t s fields P :
  (∀ c, P c → Forall (shares (c_map c)) fields) → promises lo hi P (fresh t s fields) (makes t).
Proof.
  intros HP c r c' Hc Hp [= <- <-]. split; [exact Hc|]. split; [split; [done|]|].
  - simpl. intros u Hu Hs. rewrite Hu in Hs. by destruct Hs.
  - intros i [= <-]. split; [done|]. exact (HP c Hp).
Qed.

(** The arguments of a constructor are shared when it gets them all. *)
Definition shared_arg (lo hi : nat) (m : CM Inst) : Prop := promises lo hi anyway m (λ i c, shares (c_map c) i).
Lemma args_shared lo hi args : Forall (shared_arg lo hi) args →
  promises lo hi anyway (gather args) (λ l c, Forall (shares (c_map c)) l).
Proof.
  induction 1 as [|m args Hm _ IH]; simpl; [apply promises_ret; constructor|].
  eapply promises_bind; [exact Hm|]. intros i.
  apply (promises_bind _ _ _ _ (λ l c, Forall (shares (c_map c)) l ∧ shares (c_map c) i)).
  - apply (promises_weaken lo lo hi hi (λ c, anyway c ∧ shares (c_map c) i) _ _
      (λ l c, Forall (shares (c_map c)) l ∧ shares (c_map c) i) _ (le_n _) (le_n _)); [done|done|].
    apply (promises_frame _ _ anyway (λ c, shares (c_map c) i)); [intros c c' Hcc; by apply shares_mono|exact IH].
  - intros l. apply promises_ret. intros c [Hl Hi]. by constructor.
Qed.

Lemma build_makes lo hi t s args : Forall (shared_arg lo hi) args → promises lo hi anyway (build t s args) (makes t).
Proof. intros Ha. eapply promises_bind; [by apply args_shared|]. intros l. by apply fresh_makes. Qed.

Lemma register_gives lo hi t i :
  is_part t = true → lo ≤ rank t < hi →
  promises lo hi (λ c, makes t i c ∧ c_map c !! t = None) (register i) (λ _, gives t i).
Proof.
  intros Hp Hr c r c' Hc [[Ht Hf] Hn] [= <- <-]. subst t. set (m := <[i_ty i := i]> (c_map c)).
  assert (c_map c ⊆ m) as Hsub by (by apply insert_subseteq).
  assert (shares m i) as Hi.
  { apply shares_fields; [right; by apply lookup_insert_eq|]. eapply Forall_impl; [done|]. intros f. by apply shares_mono. }
  split; [|split; [split; [done|]|by intros [] _]].
  - unfold one_of_each, inserted. cbn [c_map]. intros t j [[<- <-]|[Hne Hj]]%lookup_insert_Some; [done|]. destruct (Hc _ _ Hj) as [<- Hs]. split; [done|]. by eapply shares_mono.
  - simpl. intros u Hu Hs. destruct (decide (u = i_ty i)) as [->|Hne]; [done|]. unfold m in Hs.
    rewrite lookup_insert_ne in Hs by done. rewrite Hu in Hs. by destruct Hs.
Qed.

(** A part is built once: what builds it only adds parts that come before it. *)
Lemma resolve_gives lo hi t construct :
  is_part t = true → lo ≤ rank t < hi → promises lo (rank t) anyway construct (makes t) →
  promises lo hi anyway (resolve t construct) (gives t).
Proof.
  intros Hp Hr Hcon c r c' Hc _. unfold resolve, try_get. cbn [mbind cm_mbind cm_bind exec]. destruct (c_map c !! t) as [i|] eqn:E.
  - intros [= <- <-]. split; [done|]. split; [apply grows_refl|]. intros j [= <-]. by apply Hc.
  - change (cm_bind ?k construct) with (construct ≫= k). rewrite exec_bind. destruct (exec construct c) as [r1 c1] eqn:Ec. destruct (Hcon _ _ _ Hc I Ec) as (Hc1&Hg1&Hi).
    assert (grows lo hi c c1) as Hg by (eapply grows_weaken; [| |exact Hg1]; lia).
    destruct r1 as [i|[]|]; [|by intros [= <- <-]; split; [done|]; split; [done|]; intros ? [=]].
    specialize (Hi i eq_refl). assert (c_map c1 !! t = None) as Hn.
    { destruct (c_map c1 !! t) eqn:E1; [|done]. destruct (grows_new _ _ _ _ Hg1 t E) as [_ ?]; [by eexists|lia]. }
    rewrite exec_bind. destruct (exec (register i) c1) as [r2 c2] eqn:E2.
    destruct (register_gives lo hi t i Hp Hr _ _ _ Hc1 (conj Hi Hn) E2) as (Hc2&Hg2&Hgi).
    injection E2 as <- <-. intros [= <- <-]. split; [done|]. split; [by eapply grows_trans|]. intros j [= <-]. by apply (Hgi ()).
Qed.

(** ** Every constructor shares *)

Lemma shared_gives lo hi t m : promises lo hi anyway m (gives t) → shared_arg lo hi m.
Proof.
  apply (promises_weaken lo lo hi hi anyway anyway m (gives t) (λ i c, shares (c_map c) i) (le_n _) (le_n _)); [done|].
  by intros i c [].
Qed.

(** The parts that a process registers come first. *)
Definition registered : nat := 13.

Create HintDb parts discriminated.
#[local] Hint Resolve get_part_gives shared_gives : parts.
#[local] Hint Extern 2 (_ < _) => cbn [rank]; unfold registered in *; lia : parts.

Ltac args := repeat first [apply Forall_nil_2|apply Forall_cons_2]; eauto with parts.
Ltac part :=
  apply resolve_gives; [reflexivity|cbn [rank] in *; unfold registered; lia|];
  try (apply build_makes; args).

(** A constructor that keeps some of what it gets: [l] is what it holds. *)
Definition held (l : list Inst) (c : Container) : Prop := Forall (shares (c_map c)) l.
Lemma held_lasting l : lasting (held l).
Proof. intros c c' Hm Hl. eapply Forall_impl; [done|]. intros f. by apply shares_mono. Qed.
Lemma held_start {A} lo hi (m : CM A) Q : promises lo hi (held []) m Q → promises lo hi anyway m Q.
Proof. intros Hm c r c' Hc _. apply Hm; [done|constructor]. Qed.
Lemma held_skip {A B} lo hi l (m : CM A) Q (k : A → CM B) R :
  promises lo hi anyway m Q → (∀ a, promises lo hi (held l) (k a) R) → promises lo hi (held l) (m ≫= k) R.
Proof.
  intros Hm Hk. apply (promises_bind _ _ _ _ (λ a c, Q a c ∧ held l c)).
  - intros c r c' Hc Hl. apply (promises_frame _ _ anyway (held l) _ _ (held_lasting l) Hm); done.
  - intros a c r c' Hc [_ Hl]. by apply Hk.
Qed.
Lemma held_bind {B} lo hi l t m (k : Inst → CM B) R :
  promises lo hi anyway m (gives t) → (∀ i, promises lo hi (held (i :: l)) (k i) R) → promises lo hi (held l) (m ≫= k) R.
Proof.
  intros Hm Hk. apply (promises_bind _ _ _ _ (λ i c, gives t i c ∧ held l c)).
  - intros c r c' Hc Hl. apply (promises_frame _ _ anyway (held l) _ _ (held_lasting l) Hm); done.
  - intros i c r c' Hc [[_ Hi] Hl]. apply Hk; [done|]. by constructor.
Qed.
Lemma held_fresh lo hi l t s fields : fields ⊆ l → promises lo hi (held l) (fresh t s fields) (makes t).
Proof. intros Hin. apply fresh_makes. intros c Hl. apply Forall_forall. intros f Hf. unfold held in Hl. rewrite Forall_forall in Hl. by apply Hl, Hin. Qed.

Section wiring.
Context (rpc_executor : bool).
Notation keeps hi m t := (promises registered hi anyway m (gives t)).

Lemma catalog_gives hi : rank CatalogTy < hi → keeps hi resolve_catalog CatalogTy.
Proof. intros Hhi. part. Qed.
#[local] Hint Resolve catalog_gives : parts.
Lemma vault_gives hi : rank VaultTy < hi → keeps hi resolve_vault VaultTy.
Proof. intros Hhi. part. Qed.
#[local] Hint Resolve vault_gives : parts.
Lemma tools_gives hi : rank ToolsTy < hi → keeps hi resolve_tools ToolsTy.
Proof. intros Hhi. part. Qed.
Lemma graphs_gives hi : rank GraphsTy < hi → keeps hi resolve_graphs GraphsTy.
Proof. intros Hhi. part. Qed.
Lemma models_gives hi : rank ModelsTy < hi → keeps hi resolve_models ModelsTy.
Proof. intros Hhi. part. Qed.
#[local] Hint Resolve tools_gives graphs_gives models_gives : parts.
Lemma experts_gives hi : rank ExpertsTy < hi → keeps hi resolve_experts ExpertsTy.
Proof. intros Hhi. part. Qed.
Lemma postoffice_gives hi : rank PostOffice < hi → keeps hi resolve_postoffice PostOffice.
Proof. intros Hhi. part. Qed.
Lemma bus_gives hi : rank EventBus < hi → keeps hi resolve_bus EventBus.
Proof. intros Hhi. part. Qed.
Lemma id_gives hi : rank IdGeneratorTy < hi → keeps hi resolve_id IdGeneratorTy.
Proof. intros Hhi. part. eapply promises_bind; [apply get_part_gives|]. intros own. apply fresh_makes. constructor. Qed.
#[local] Hint Resolve experts_gives postoffice_gives bus_gives id_gives : parts.
Lemma rpc_client_gives hi : rank RpcClientTy < hi → keeps hi resolve_rpc_client RpcClientTy.
Proof. intros Hhi. part. Qed.
Lemma rpc_server_gives hi : rank RpcServerTy < hi → keeps hi resolve_rpc_server RpcServerTy.
Proof. intros Hhi. part. Qed.
#[local] Hint Resolve rpc_client_gives rpc_server_gives : parts.

(** The server of calls, where there is one. *)
Lemma serves_gives hi : rank RpcServerTy < hi →
  promises registered hi anyway (if rpc_executor then _ ← resolve_rpc_server; mret () else mret ()) (λ _, anyway).
Proof.
  intros Hhi. destruct rpc_executor; [|by apply promises_ret]. eapply promises_bind; [by apply rpc_server_gives|].
  intros i. by apply promises_ret.
Qed.
Lemma annuary_gives hi : rank AnnuaryTy < hi → keeps hi (resolve_annuary rpc_executor) AnnuaryTy.
Proof.
  intros Hhi. part. apply held_start. eapply held_bind; [apply get_part_gives|]. intros capabilities.
  eapply held_bind; [apply get_part_gives|]. intros router. eapply held_bind; [apply rpc_client_gives; cbn [rank]; lia|].
  intros client. eapply held_skip; [apply serves_gives; cbn [rank]; lia|]. intros _. apply held_fresh. set_solver.
Qed.
#[local] Hint Resolve annuary_gives : parts.
Lemma worker_client_gives hi : rank WorkerClientTy < hi → keeps hi (resolve_worker_client rpc_executor) WorkerClientTy.
Proof. intros Hhi. part. Qed.
Lemma worker_gives hi : rank WorkerTy < hi → keeps hi resolve_worker WorkerTy.
Proof. intros Hhi. part. Qed.
#[local] Hint Resolve worker_client_gives worker_gives : parts.

Lemma factory_gives hi t : is_part t = true → registered ≤ rank t < hi → keeps hi (resolve t (fresh t None [])) t.
Proof. intros Hp Hr. apply resolve_gives; [done|done|]. by apply fresh_makes. Qed.
Lemma hitls_factory_gives hi : rank SessionHitlsFactory < hi → keeps hi resolve_hitls_factory SessionHitlsFactory.
Proof. intros Hhi. apply factory_gives; [done|]. split; [cbn [rank]; unfold registered; lia|done]. Qed.
Lemma snapshots_factory_gives hi : rank SessionSnapshotsFactory < hi → keeps hi resolve_snapshots_factory SessionSnapshotsFactory.
Proof. intros Hhi. apply factory_gives; [done|]. split; [cbn [rank]; unfold registered; lia|done]. Qed.
Lemma logs_factory_gives hi : rank SessionLogsFactory < hi → keeps hi resolve_logs_factory SessionLogsFactory.
Proof. intros Hhi. apply factory_gives; [done|]. split; [cbn [rank]; unfold registered; lia|done]. Qed.
Lemma tree_factory_gives hi : rank FrameTreeFactory < hi → keeps hi resolve_tree_factory FrameTreeFactory.
Proof. intros Hhi. apply factory_gives; [done|]. split; [cbn [rank]; unfold registered; lia|done]. Qed.
#[local] Hint Resolve hitls_factory_gives snapshots_factory_gives logs_factory_gives tree_factory_gives : parts.
Lemma checkpointer_factory_gives hi :
  rank SessionCheckpointerFactory < hi → keeps hi resolve_checkpointer_factory SessionCheckpointerFactory.
Proof. intros Hhi. part. Qed.
Lemma controller_gives hi : rank SessionControllerTy < hi → keeps hi (resolve_controller rpc_executor) SessionControllerTy.
Proof.
  intros Hhi. part. apply held_start. eapply held_bind; [apply get_part_gives|]. intros store.
  eapply held_bind; [apply checkpointer_factory_gives; cbn [rank]; lia|]. intros factory.
  eapply held_skip; [apply serves_gives; cbn [rank]; lia|]. intros _.
  eapply held_bind; [apply bus_gives; cbn [rank]; lia|]. intros events.
  eapply held_bind; [apply id_gives; cbn [rank]; lia|]. intros id. apply held_fresh. set_solver.
Qed.
Lemma client_factory_gives hi : rank SessionClientFactory < hi → keeps hi (resolve_client_factory rpc_executor) SessionClientFactory.
Proof. intros Hhi. part. Qed.

(** What a factory makes is not kept, and shares what it holds. *)
Notation hands hi m t := (promises registered hi anyway m (makes t)).
Lemma made_shared lo hi t m : is_part t = false → promises lo hi anyway m (makes t) → shared_arg lo hi m.
Proof.
  intros Hp Hm c r c' Hc _ E. destruct (Hm _ _ _ Hc I E) as (H1&H2&H3). split; [done|]. split; [done|].
  intros i Hi. destruct (H3 i Hi) as [Ht Hf]. apply shares_fields; [left; by rewrite Ht|done].
Qed.
Lemma hitls_made s : hands 34 (hitls_create s) SessionHitls.
Proof. apply build_makes; args. Qed.
Lemma snapshots_made s : hands 34 (snapshots_create s) SessionSnapshots.
Proof. apply build_makes; args. Qed.
Lemma logs_made s : hands 34 (logs_create s) SessionLogs.
Proof. apply build_makes; args. Qed.
Lemma tree_made s : hands 34 (tree_create s) FrameTree.
Proof. apply build_makes; args. Qed.
Lemma checkpointer_made s : hands 34 (checkpointer_create rpc_executor s) SessionCheckpointer.
Proof.
  apply build_makes. do 4 (apply Forall_cons_2; [eapply made_shared; [|first [apply hitls_made|apply snapshots_made|apply logs_made|apply tree_made]]; done|]).
  args.
Qed.
End wiring.

(** ** Theorems *)

Section uses.
Context (rpc_executor : bool).

(** What the code of a process asks of its container: a part, or what a factory
    makes for a session. *)
Inductive Use := Takes (t : Ty) | Makes (t : Ty) (s : SessionId).

Definition take (t : Ty) : CM Inst :=
  match t with
  | CatalogTy => resolve_catalog | VaultTy => resolve_vault | ToolsTy => resolve_tools | GraphsTy => resolve_graphs
  | ModelsTy => resolve_models | ExpertsTy => resolve_experts | PostOffice => resolve_postoffice | EventBus => resolve_bus
  | IdGeneratorTy => resolve_id | RpcClientTy => resolve_rpc_client | RpcServerTy => resolve_rpc_server
  | AnnuaryTy => resolve_annuary rpc_executor | WorkerClientTy => resolve_worker_client rpc_executor | WorkerTy => resolve_worker
  | SessionHitlsFactory => resolve_hitls_factory | SessionSnapshotsFactory => resolve_snapshots_factory
  | SessionLogsFactory => resolve_logs_factory | FrameTreeFactory => resolve_tree_factory
  | SessionCheckpointerFactory => resolve_checkpointer_factory | SessionControllerTy => resolve_controller rpc_executor
  | SessionClientFactory => resolve_client_factory rpc_executor
  | t => get_part t
  end.
Definition make (t : Ty) (s : SessionId) : CM Inst :=
  match t with
  | SessionHitls => hitls_create s | SessionSnapshots => snapshots_create s | SessionLogs => logs_create s
  | FrameTree => tree_create s | SessionCheckpointer => checkpointer_create rpc_executor s
  | SessionClient => factory ← resolve_client_factory rpc_executor; client_create factory s
  | _ => Panicked
  end.
Definition use (u : Use) : CM Inst := match u with Takes t => take t | Makes t s => make t s end.

(** The instances that were handed out; a use that panics ends its task alone. *)
Fixpoint run_uses (us : list Use) (c : Container) : list Inst * Container :=
  match us with
  | [] => ([], c)
  | u :: us =>
      let '(r, c) := exec (use u) c in
      let '(l, c) := run_uses us c in
      (match r with Ok i => i :: l | _ => l end, c)
  end.

Lemma take_gives t : promises registered 34 anyway (take t) (gives t).
Proof.
  destruct t; cbn [take]; try apply get_part_gives;
    first [apply catalog_gives|apply vault_gives|apply tools_gives|apply graphs_gives|apply models_gives|apply experts_gives
          |apply postoffice_gives|apply bus_gives|apply id_gives|apply rpc_client_gives|apply rpc_server_gives|apply annuary_gives
          |apply worker_client_gives|apply worker_gives|apply hitls_factory_gives|apply snapshots_factory_gives
          |apply logs_factory_gives|apply tree_factory_gives|apply checkpointer_factory_gives|apply controller_gives
          |apply client_factory_gives]; cbn [rank]; lia.
Qed.

Lemma client_made s : promises registered 34 anyway (make SessionClient s) (makes SessionClient).
Proof.
  eapply promises_bind; [apply client_factory_gives; cbn [rank]; lia|]. intros f. apply fresh_makes.
  intros c [_ Hf]. apply Forall_forall. intros x Hx. by apply (shares_field _ f).
Qed.
Lemma use_shared u : shared_arg registered 34 (use u).
Proof.
  destruct u as [t|t s]; [eapply shared_gives, take_gives|]. simpl.
  destruct t; try (by intros c r c' Hc _ [= <- <-]; split; [done|]; split; [apply grows_refl|]; intros ? [=]);
    (eapply made_shared; [|first [apply hitls_made|apply snapshots_made|apply logs_made|apply tree_made|apply checkpointer_made|apply client_made]]; done).
Qed.

Lemma run_uses_shared us c : one_of_each c →
  let '(l, c') := run_uses us c in one_of_each c' ∧ grows registered 34 c c' ∧ Forall (shares (c_map c')) l.
Proof.
  revert c. induction us as [|u us IH]; intros c Hc; simpl; [split; [done|]; split; [apply grows_refl|constructor]|].
  destruct (exec (use u) c) as [r c1] eqn:E. destruct (use_shared u _ _ _ Hc I E) as (Hc1&Hg1&Hr). specialize (IH c1 Hc1).
  destruct (run_uses us c1) as [l c2]. destruct IH as (Hc2&Hg2&Hl). split; [done|]. split; [by eapply grows_trans|].
  destruct r as [i|[]|]; [|done]. constructor; [|done]. eapply shares_mono; [|by apply Hr]. apply Hg2.
Qed.

(** ** Tasks that use the container at the same time

    The tasks of a process run on several threads: between two operations of one
    of them, the others go on. *)

Record World := mkWorld { w_container : Container; w_tasks : list (CM Inst) }.
(** A use begins in a task of its own, or the [n]-th task does one operation. *)
Inductive Event := Begins (u : Use) | Turn (n : nat).
Definition tick (e : Event) (w : World) : World :=
  match e with
  | Begins u => mkWorld (w_container w) (w_tasks w ++ [use u])
  | Turn n =>
      match w_tasks w !! n with
      | Some m => let '(m, c) := turn m (w_container w) in mkWorld c (<[n := m]> (w_tasks w))
      | None => w
      end
  end.
Definition run_events (es : list Event) (w : World) : World := fold_left (λ w e, tick e w) es w.
(** What the tasks have been given. *)
Definition handed (w : World) (i : Inst) : Prop := Done i ∈ w_tasks w.

(** A handle agrees with what was kept at the start: wherever it has a part of a
    type that was kept, it is the one that was. *)
Definition agrees (m0 : gmap Ty Inst) (i : Inst) : Prop :=
  ∀ a k, reach i a → is_part (i_ty a) = true → m0 !! i_ty a = Some k → a = k.

Section concurrent.
Context (m0 : gmap Ty Inst).

(** What a task may rely on, and what it has to keep, whatever the others do. *)

Record holds (c : Container) : Prop := {
  holds_base : m0 ⊆ c_map c;
  holds_sound : ∀ t i, c_map c !! t = Some i → i_ty i = t ∧ agrees m0 i }.
Definition seen (t : Ty) (o : option Inst) : Prop :=
  match o with Some i => i_ty i = t ∧ agrees m0 i ∧ (∀ k, m0 !! t = Some k → i = k) | None => m0 !! t = None end.
Fixpoint safe {A} (Q : A → Prop) (m : CM A) : Prop :=
  match m with
  | Done a => Q a
  | Panicked => True
  | Look t k => ∀ o, seen t o → safe Q (k o)
  | Insert i k => agrees m0 i ∧ m0 !! i_ty i = None ∧ safe Q k
  | Number k => ∀ n, safe Q (k n)
  end.

Lemma bind_safe {A B} (Q : A → Prop) (R : B → Prop) m (k : A → CM B) :
  safe Q m → (∀ a, Q a → safe R (k a)) → safe R (m ≫= k).
Proof.
  intros Hm Hk. unfold mbind, cm_mbind. induction m as [a| |t f IH|i m IH|f IH]; simpl in *; auto.
  destruct Hm as (?&?&?). auto.
Qed.
Lemma safe_weaken {A} (Q R : A → Prop) m : safe Q m → (∀ a, Q a → R a) → safe R m.
Proof. intros Hm HQ. induction m as [a| |t f IH|i m IH|f IH]; simpl in *; auto. destruct Hm as (?&?&?). auto. Qed.

(** One operation of a task keeps what all rely on. *)
Lemma turn_holds {A} (Q : A → Prop) (m : CM A) c : holds c → safe Q m →
  let '(m', c') := turn m c in holds c' ∧ safe Q m'.
Proof.
  intros [Hb Hs] Hm. destruct m as [a| |t k|i k|k]; simpl in *.
  1-2: done.
  3: by split; [split|].
  - split; [done|]. apply Hm. unfold seen. destruct (c_map c !! t) as [i|] eqn:E.
    + destruct (Hs t i E) as [Ht Hi]. split_and!; [done|done|]. intros k0 Hk. pose proof (lookup_weaken _ _ _ _ Hk Hb). congruence.
    + by eapply lookup_weaken_None.
  - destruct Hm as (Hi&Hn&Hk). split; [|done]. split; simpl; [by apply insert_subseteq_r|].
    intros t j [[<- <-]|[_ Hj]]%lookup_insert_Some; [done|by apply Hs].
Qed.

(** ** Every constructor is safe *)

Definition part (t : Ty) (i : Inst) : Prop := i_ty i = t ∧ agrees m0 i.
Definition new_part (t : Ty) (i : Inst) : Prop := i_ty i = t ∧ Forall (agrees m0) (i_fields i).

Lemma agrees_fields i : is_part (i_ty i) = false ∨ m0 !! i_ty i = None → Forall (agrees m0) (i_fields i) → agrees m0 i.
Proof.
  intros Hi Hf a k Ha Hp Hk. inversion Ha as [|? f ? Hin Hr]; subst; [by destruct Hi; congruence|].
  rewrite Forall_forall in Hf. by apply (Hf f Hin).
Qed.
Lemma agrees_field i f : f ∈ i_fields i → agrees m0 i → agrees m0 f.
Proof. intros Hf Hi a k Ha. apply Hi. by econstructor. Qed.

Lemma safe_get_part t : safe (part t) (get_part t).
Proof. intros [i|] Ho; simpl; [|done]. by destruct Ho as (?&?&_). Qed.
Lemma safe_fresh t s l : Forall (agrees m0) l → safe (new_part t) (fresh t s l).
Proof. intros Hl n. by split. Qed.
Lemma safe_gather l : Forall (safe (agrees m0)) l → safe (Forall (agrees m0)) (gather l).
Proof.
  induction 1 as [|m l Hm _ IH]; simpl; [constructor|]. eapply bind_safe; [exact Hm|]. intros i Hi.
  eapply bind_safe; [exact IH|]. intros js Hjs. by constructor.
Qed.
Lemma safe_build t s l : Forall (safe (agrees m0)) l → safe (new_part t) (build t s l).
Proof. intros Hl. eapply bind_safe; [by apply safe_gather|]. intros fs. by apply safe_fresh. Qed.
Lemma safe_resolve t construct : safe (new_part t) construct → safe (part t) (resolve t construct).
Proof.
  intros Hc [i|] Ho; simpl; [by destruct Ho as (?&?&_)|]. change (cm_bind ?k construct) with (construct ≫= k).
  eapply bind_safe; [exact Hc|]. intros i [<- Hf]. assert (agrees m0 i) as Hi by (apply agrees_fields; auto). done.
Qed.
Lemma safe_arg t m : safe (part t) m → safe (agrees m0) m.
Proof. intros Hm. eapply safe_weaken; [exact Hm|]. by intros i []. Qed.
Lemma safe_made t m : is_part t = false → safe (new_part t) m → safe (agrees m0) m.
Proof. intros Ht Hm. eapply safe_weaken; [exact Hm|]. intros i [<- Hf]. apply agrees_fields; auto. Qed.
End concurrent.

Section tasks.
Context (m0 : gmap Ty Inst).

Lemma serves_safe : safe m0 (λ _, True) (if rpc_executor then _ ← resolve_rpc_server; mret () else mret ()).
Proof.
  destruct rpc_executor; [|done]. eapply (bind_safe _ (part m0 RpcServerTy)); [|done]. apply safe_resolve, safe_build.
  constructor; [|constructor]. apply (safe_arg _ PostOffice), safe_get_part.
Qed.

Ltac safe_step :=
  lazymatch goal with
  | |- Forall _ [] => apply Forall_nil_2
  | |- Forall _ (_ :: _) => apply Forall_cons_2
  | |- safe _ (part _ _) _ => first [apply safe_get_part|apply safe_resolve]
  | |- safe _ (new_part _ _) ((if _ then _ else _) ≫= _) => eapply bind_safe; [apply serves_safe|intros _ _]
  | |- safe _ (new_part _ _) (_ ≫= _) => eapply (bind_safe _ (agrees _)); [|intros ? ?]
  | |- safe _ (new_part _ _) id_construct => unfold id_construct
  | |- safe _ (new_part _ _) (annuary_construct _) => unfold annuary_construct
  | |- safe _ (new_part _ _) (controller_construct _) => unfold controller_construct
  | |- safe _ (new_part _ _) _ => first [apply safe_fresh|apply safe_build]
  | |- safe _ (agrees _) Panicked => exact I
  | |- safe _ (agrees _) _ => first [eapply safe_arg; safe_step|eapply safe_made; [|apply safe_build]; [reflexivity|]]
  | |- agrees _ _ => assumption
  end.

Lemma take_safe t : safe m0 (part m0 t) (take t).
Proof. destruct t; cbn [take]; repeat safe_step. Qed.
Lemma client_safe s : safe m0 (new_part m0 SessionClient) (make SessionClient s).
Proof.
  eapply bind_safe; [apply (take_safe SessionClientFactory)|]. intros f [_ Hf]. apply safe_fresh.
  apply Forall_forall. intros x Hx. by apply (agrees_field _ f).
Qed.
Lemma use_safe u : safe m0 (agrees m0) (use u).
Proof.
  destruct u as [t|t s]; simpl; [apply (safe_arg _ t), take_safe|].
  destruct t; try exact I; try (by apply (safe_made _ SessionClient), client_safe); cbn [make]; repeat safe_step.
Qed.

(** Whatever the tasks do, and in whatever order. *)
Lemma tick_holds e w : holds m0 (w_container w) → Forall (safe m0 (agrees m0)) (w_tasks w) →
  holds m0 (w_container (tick e w)) ∧ Forall (safe m0 (agrees m0)) (w_tasks (tick e w)).
Proof.
  intros Hc Ht. destruct e as [u|n]; simpl; [split; [done|]; apply Forall_app; split; [done|]; by constructor; [apply use_safe|]|].
  destruct (w_tasks w !! n) as [m|] eqn:E; [|done]. pose proof (turn_holds m0 (agrees m0) m (w_container w) Hc) as H.
  rewrite Forall_lookup in Ht. specialize (H (Ht _ _ E)). destruct (turn m (w_container w)) as [m' c']. destruct H as [Hc' Hm'].
  split; [done|]. apply Forall_insert; [by apply Forall_lookup|done].
Qed.
Lemma run_events_holds es w : holds m0 (w_container w) → Forall (safe m0 (agrees m0)) (w_tasks w) →
  holds m0 (w_container (run_events es w)) ∧ Forall (safe m0 (agrees m0)) (w_tasks (run_events es w)).
Proof. revert w. induction es as [|e es IH]; intros w Hc Ht; simpl; [done|]. apply IH; by apply tick_holds. Qed.
End tasks.

Lemma one_of_each_holds c : one_of_each c → holds (c_map c) c.
Proof.
  intros Hc. split; [done|]. intros t i Hi. destruct (Hc t i Hi) as [Ht Hs]. split; [done|].
  intros a k Ha Hp Hk. specialize (Hs a Ha Hp). congruence.
Qed.

(** A task alone does what [exec] says. *)
Lemma exec_turns {A} (m : CM A) c :
  ∃ n, Nat.iter n (λ '(m, c), turn m c) (m, c) =
    (match (exec m c).1 with Ok a => Done a | _ => Panicked end, (exec m c).2).
Proof.
  revert c. induction m as [a| |t k IH|i m IH|k IH]; intros c; [by exists 0|by exists 0|..];
    [destruct (IH (c_map c !! t) c) as [n Hn]|destruct (IH (inserted i c)) as [n Hn]|destruct (IH (c_next c) (numbered c)) as [n Hn]];
    exists (S n); by rewrite Nat.iter_succ_r.
Qed.

(** C38: a container that keeps one instance of each part it has, as that of a local
    process does once its stores are registered, hands out the same ones for ever.
    Whatever parts are then taken and whatever the factories make, one use after
    another, and even when some of these uses panic, two handles to a part of one
    type are the same handle, however deep in what was handed out: there is one
    catalogue, one bus of events, one generator of identifiers; and no use replaces
    what the container already kept.  When the uses overlap, each taking the lock of
    the container for one operation at a time and the others going on in between,
    this still holds of the parts that the container kept before they began: they are
    never replaced, and wherever a handle to one of their types is found in what was
    handed out, it is the one that was kept.  A part that was missing when the
    overlapping uses began is not promised to be made once. *)
Theorem container_shares (c : Container) :
  one_of_each c →
  (∀ us, let '(l, c') := run_uses us c in
    c_map c ⊆ c_map c' ∧
    ∀ i j a b, i ∈ l → j ∈ l → reach i a → reach j b → i_ty a = i_ty b → is_part (i_ty a) = true → a = b) ∧
  (∀ es, let w := run_events es (mkWorld c []) in
    c_map c ⊆ c_map (w_container w) ∧
    ∀ i a k, handed w i → reach i a → is_part (i_ty a) = true → c_map c !! i_ty a = Some k → a = k).
Proof.
  intros Hc. split.
  - intros us. pose proof (run_uses_shared us c Hc) as Hl. destruct (run_uses us c) as [l c']. destruct Hl as (_&Hg&Hl).
    split; [apply Hg|]. rewrite Forall_forall in Hl. intros i j a b Hi Hj Ha Hb E Hp.
    pose proof (Hl i Hi a Ha Hp) as Ea. rewrite E in Ea, Hp. pose proof (Hl j Hj b Hb Hp) as Eb. congruence.
  - intros es w. destruct (run_events_holds (c_map c) es (mkWorld c []) (one_of_each_holds c Hc)) as [[Hb _] Ht]; [constructor|].
    split; [exact Hb|]. intros i a k Hi. rewrite Forall_forall in Ht. by apply (Ht (Done i) Hi).
Qed.

(** A session has no checkpointer without a store of snapshots. *)
Lemma no_snapshots_panics s c : one_of_each c → c_map c !! SessionSnapshotStore = None →
  (exec (checkpointer_create rpc_executor s) c).1 = Panic.
Proof.
  intros Hc Hn. unfold checkpointer_create, build. rewrite exec_bind. cbn [gather]. rewrite exec_bind.
  destruct (exec (hitls_create s) c) as [r c1] eqn:E. destruct (hitls_made s _ _ _ Hc I E) as (_&Hg&_).
  destruct r as [i|[]|]; [|done]. pose proof (base_unchanged _ _ _ Hg Hn) as Hn1. rewrite !exec_bind.
  assert (exec (snapshots_create s) c1 = (Panic, c1)) as ->; [|done].
  unfold snapshots_create, get_part, try_get. simpl. by rewrite Hn1.
Qed.

Lemma run_uses_snapshots us c : one_of_each c → c_map c !! SessionSnapshotStore = None →
  one_of_each (run_uses us c).2 ∧ c_map (run_uses us c).2 !! SessionSnapshotStore = None.
Proof.
  intros Hc Hn. pose proof (run_uses_shared us c Hc) as H. destruct (run_uses us c) as [l c']. destruct H as (Hc'&Hg&_).
  split; [done|]. by apply (base_unchanged 34 c).
Qed.
End uses.

(** The container of a local process when its stores are registered. *)
Definition local_base (mode : DatabaseMode) : Container := (exec (provide_stores mode) (exec provide_base empty_container).2).2.

Ltac shared_now :=
  apply shares_fields; [first [left; reflexivity|right; vm_compute; reflexivity]|repeat (apply Forall_nil_2 || apply Forall_cons_2); shared_now].
Lemma local_base_shared mode : one_of_each (local_base mode).
Proof.
  intros t i Hi. assert (i_ty i = t ∧ Forall (shares (c_map (local_base mode))) (i_fields i)) as [<- Hf].
  { destruct mode, t; vm_compute in Hi; try discriminate Hi; injection Hi as <-; (split; [reflexivity|]); cbn [i_fields];
      repeat (apply Forall_nil_2 || apply Forall_cons_2); shared_now. }
  split; [done|]. apply shares_fields; [by right|done].
Qed.

Lemma local_base_no_snapshots mode : c_map (local_base mode) !! SessionSnapshotStore = None.
Proof. by destruct mode; vm_compute. Qed.

(** What [LocalMarie::new] answers, when its keys are right and its database there. *)
Lemma local_marie_new_eq rpc connects epochs current mode :
  (∃ m, with_epochs epochs current = Ok m) → match mode with Postgres url => connects url | InMemory => true end = true →
  local_marie_new rpc connects epochs current mode =
    (map_err (λ e : Empty_set, match e with end) (exec (local_parts rpc) (local_base mode)).1,
     (exec (local_parts rpc) (local_base mode)).2).
Proof.
  intros [m Hm] Hmode. unfold local_marie_new. rewrite Hm, Hmode, exec_bind.
  assert ((exec (provide_stores mode) (exec provide_base empty_container).2).1 = Ok ()) as Hok by (by destruct mode; vm_compute).
  rewrite (surjective_pairing (exec (provide_stores mode) _)), Hok. fold (local_base mode). cbv beta iota zeta. generalize (local_base mode). intros c. by destruct (exec (local_parts rpc) c).
Qed.

Lemma local_parts_shared rpc mode :
  let c := (exec (local_parts rpc) (local_base mode)).2 in
  one_of_each c ∧ c_map c !! SessionSnapshotStore = None.
Proof.
  intros c. destruct (exec (local_parts rpc) (local_base mode)) as [r c'] eqn:E.
  assert (promises registered 34 anyway (local_parts rpc) (λ _, anyway)) as Hp.
  { unfold local_parts. apply held_start.
    eapply held_skip; [apply (take_gives rpc ToolsTy)|]. intros tools. eapply held_skip; [apply (take_gives rpc GraphsTy)|]. intros graphs.
    eapply held_skip; [apply (take_gives rpc ModelsTy)|]. intros models. eapply held_skip; [apply (take_gives rpc ExpertsTy)|]. intros experts.
    eapply held_skip; [apply (take_gives rpc SessionControllerTy)|]. intros sessions.
    eapply held_skip; [apply (take_gives rpc SessionClientFactory)|]. intros factory. by apply promises_ret. }
  destruct (Hp _ _ _ (local_base_shared mode) I E) as (Hc&Hg&_). unfold c. split; [done|]. by eapply base_unchanged, local_base_no_snapshots.
Qed.

(** A container is built from the stores of either mode, with any features. *)
Definition demo_session : SessionId := mkSessionId (mkID 0 1).
Definition demo_uses : list Use := [Takes PostOffice; Takes AnnuaryTy; Makes SessionHitls demo_session; Takes WorkerTy].
Definition overlapping : list Event := [Begins (Takes EventBus); Begins (Takes WorkerTy)] ++ concat (replicate 9 [Turn 0; Turn 1]).
Lemma container_shares_witness :
  (let '(l, c') := run_uses true demo_uses (local_base InMemory) in
   (c_map (local_base InMemory) ⊆ c_map c' ∧
    ∀ i j a b, i ∈ l → j ∈ l → reach i a → reach j b → i_ty a = i_ty b → is_part (i_ty a) = true → a = b)) ∧
  length (run_uses true demo_uses (local_base InMemory)).1 = 4 ∧
  (let w := run_events true overlapping (mkWorld (local_base InMemory) []) in
   ∀ i a k, handed w i → reach i a → is_part (i_ty a) = true → c_map (local_base InMemory) !! i_ty a = Some k → a = k).
Proof.
  pose proof (container_shares true (local_base InMemory) (local_base_shared InMemory)) as [H1 H2].
  split; [exact (H1 demo_uses)|]. split; [vm_compute; reflexivity|]. exact (proj2 (H2 overlapping)).
Defined.

(** Two uses that overlap and miss the same part make one each, and the container
    keeps the last: those who take it later do not share with the first. *)
Definition race : list Event :=
  [Begins (Takes EventBus); Begins (Takes EventBus)] ++ concat (replicate 4 [Turn 0; Turn 1]) ++
  [Begins (Takes EventBus); Turn 2].
Theorem concurrent_resolves_make_two :
  ∃ first second, first ≠ second ∧ i_ty first = EventBus ∧ i_ty second = EventBus ∧
    w_tasks (run_events false race (mkWorld (local_base InMemory) [])) = [Done first; Done second; Done second].
Proof. do 2 eexists. split; [|split; [|split; [|vm_compute; reflexivity]]]; [discriminate|reflexivity..]. Qed.

(** C29: A local process cannot run a session.  With the feature that serves calls it
    is never put together: the server of calls takes a post office that nothing has
    made yet.  Without it, it is; but whatever was done before, making the
    checkpointer of a session panics, since no store of snapshots is registered. *)
Theorem local_sessions_panic (connects : string → bool) epochs current mode rpc :
  (∃ m, with_epochs epochs current = Ok m) → match mode with Postgres url => connects url | InMemory => true end = true →
  let '(r, c) := local_marie_new rpc connects epochs current mode in
  if rpc then r = Panic
  else (∃ marie, r = Ok marie) ∧ ∀ us s, (exec (checkpointer_create false s) (run_uses false us c).2).1 = Panic.
Proof.
  intros Hm Hmode. rewrite local_marie_new_eq by done. pose proof (local_parts_shared rpc mode) as Hc. cbv zeta in Hc.
  destruct rpc; [by destruct mode; vm_compute|]. split; [by destruct mode; vm_compute; eexists|]. intros us s.
  destruct Hc as [Hc Hn]. pose proof (run_uses_snapshots false us _ Hc Hn) as [Hc' Hn']. by apply no_snapshots_panics.
Qed.

Lemma local_sessions_panic_witness :
  (exec (checkpointer_create false demo_session)
     (run_uses false demo_uses (local_marie_new false (λ _, true) [(1, [])]%Z 1%Z InMemory).2).2).1 = Panic.
Proof.
  pose proof (local_sessions_panic (λ _, true) [(1, [])]%Z 1%Z InMemory false) as H.
  destruct (local_marie_new false (λ _, true) [(1, [])]%Z 1%Z InMemory) as [r c].
  apply H; [by eexists|done].
Defined.

(** Where a store keeps the entries of journals. *)
Definition field (t : Ty) (i : Inst) : option Inst := head (filter (λ f, i_ty f = t) (i_fields i)).
Definition log_place (store : option Inst) : option Inst :=
  i ← store; match field PgStoreTy i with Some pg => Some pg | None => field LogMemory i end.

(** In memory, the client of a session reads another journal than the one that the
    session writes; in PostgreSQL, the same. *)
Definition log_places (s : SessionId) : CM (option Inst * option Inst) :=
  marie ← local_parts false;
  client ← client_create (lm_client_factory marie) s;
  logs ← logs_create s;
  mret (log_place (field SessionStore client), log_place (field SessionLogStore logs)).
Theorem memory_view_blind s mode :
  ∃ read written, (exec (log_places s) (local_base mode)).1 = Ok (Some read, Some written) ∧
    match mode with InMemory => read ≠ written | Postgres _ => read = written end.
Proof. destruct mode; do 2 eexists; (split; [vm_compute; reflexivity|]); [done|discriminate]. Qed.

(** The secrets of a local process are in its memory, even when the rest is in PostgreSQL. *)
Example secrets_stay_in_memory url :
  field SecretMemory <$> (c_map (local_base (Postgres url)) !! SecretStore) = Some (Some (mkInst SecretMemory 2 None [])).
Proof. reflexivity. Qed.
