(* ===== verification/MacroLaws.v ===== *)
(** * What the macros accept

    Every parser of [Macros] ends; the fields of a channel are read in any
    order, exactly; a specification that is written down is read back; and the
    tokens of the specifications and nodes of the sources expand to the
    definitions that the other files give of them. *)

From Stdlib Require Import Ascii.
From S2P Require Import Prelude Ids Json Channels Types Spec Errors Macros Builtin FrameJob.

(** ** Every loop ends *)

Create HintDb parse.

Section safety.
Context `{Syn}.

Lemma safe_ret {A} (a : A) : safe (mret a).
Proof. intros ts. split; [done|]. unfold run_state. simpl. lia. Qed.
Lemma safe_throw {A} e : safe (throw e : P A).
Proof. intros ts. split; [done|]. unfold run_state. simpl. lia. Qed.
Lemma safe_gets {A} (f : list Token → A) : safe (gets f).
Proof. intros ts. split; [done|]. unfold run_state. simpl. lia. Qed.

Lemma parser_safe_bind {A B} (m : P A) (k : A → P B) : safe m → (∀ a, safe (k a)) → safe (m ≫= k).
Proof.
  intros Hm Hk ts. specialize (Hm ts). revert Hm. unfold run_res, run_state, mbind, m_bind.
  destruct (m ts) as [[a|e|] ts']; simpl; intros [? ?]; try done.
  destruct (Hk a ts') as [? Hl]. unfold run_state in Hl. split; [done|lia].
Qed.

Lemma safe_or_error {A} e (p : P A) : safe p → safe (or_error e p).
Proof.
  intros Hp ts. specialize (Hp ts). revert Hp. unfold run_res, run_state, or_error.
  by destruct (p ts) as [[] ?]; simpl; intros []; split.
Qed.
Lemma strict_or_error {A} e (p : P A) : strict p → strict (or_error e p).
Proof. intros Hp ts a ts'. unfold or_error. destruct (p ts) as [[] ?] eqn:E; intros; simplify_eq. by eapply Hp. Qed.

Lemma safe_if {A} (b : bool) (p q : P A) : safe p → safe q → safe (if b then p else q).
Proof. by destruct b. Qed.

Lemma safe_decide {A} (Q : Prop) `{Decision Q} (p q : P A) : safe p → safe q → safe (if decide Q then p else q).
Proof. by case_decide. Qed.

Lemma safe_delimited {A} d (p : P A) : safe p → safe (delimited d p).
Proof.
  intros Hp. apply parser_safe_bind; [apply parse_group_safe|]. intros l ts. unfold run_state. simpl.
  split; [apply (Hp l)|lia].
Qed.

Lemma strict_bind_l {A B} (m : P A) (k : A → P B) : strict m → (∀ a, safe (k a)) → strict (m ≫= k).
Proof.
  intros Hm Hk ts b ts' (a&ts1&Ha&Hb)%m_bind_ok. apply Hm in Ha. destruct (Hk a ts1) as [_ Hl].
  unfold run_state in Hl. rewrite Hb in Hl. simpl in Hl. lia.
Qed.

Lemma strict_bind_r {A B} (m : P A) (k : A → P B) : safe m → (∀ a, strict (k a)) → strict (m ≫= k).
Proof.
  intros Hm Hk ts b ts' (a&ts1&Ha&Hb)%m_bind_ok. apply Hk in Hb. destruct (Hm ts) as [_ Hl].
  unfold run_state in Hl. rewrite Ha in Hl. simpl in Hl. lia.
Qed.

(** [input.parse::<T>()?] of a token, whatever is done of the result. *)
Lemma safe_select {A} key (table : list (string * P A)) other :
  Forall (λ e, safe e.2) table → safe other → safe (select key table other).
Proof. intros Ht Ho. induction Ht as [|[n p] table Hp _ IH]; simpl; [done|]. by case_decide. Qed.

Lemma safe_turns {S} fuel (step : S → P S) s ts :
  (∀ s, safe (step s)) → (∀ s, strict (step s)) → length ts ≤ fuel →
  run_res (turns fuel step s) ts ≠ Panic ∧ length (run_state (turns fuel step s) ts) ≤ length ts.
Proof.
  intros Hs Hc. revert s ts. induction fuel as [|fuel IH]; intros s ts Hl.
  - destruct ts; [|simpl in Hl; lia]. split; [done|]. simpl. lia.
  - unfold run_res, run_state. cbn [turns]. unfold mbind at 1 3, m_bind at 1 3, is_empty, gets. simpl.
    destruct ts as [|t ts]; [by split; [|simpl; lia]|].
    unfold mbind, m_bind. destruct (Hs s (t :: ts)) as [Hn Hle]. unfold run_res, run_state in Hn, Hle.
    destruct (step s (t :: ts)) as [[s'|e|] ts'] eqn:E; simpl in *; [|by split|done].
    apply Hc in E. simpl in E. destruct (IH s' ts') as [? ?]; [lia|]. split; [done|].
    unfold run_state in *. lia.
Qed.

Lemma safe_until_empty {S} (step : S → P S) s :
  (∀ s, safe (step s)) → (∀ s, strict (step s)) → safe (until_empty step s).
Proof. intros Hs Hc ts. by apply safe_turns. Qed.
End safety.

#[export] Hint Resolve safe_ret safe_throw safe_gets parser_safe_bind safe_if safe_decide safe_delimited safe_or_error
  safe_select safe_until_empty : parse.
#[export] Hint Resolve parse_expr_safe parse_type_safe parse_pat_safe parse_block_safe parse_visibility_safe
  parse_outer_safe parse_ident_safe parse_keyword_safe parse_punct_safe parse_lit_str_safe parse_lit_bool_safe
  @parse_terminated_safe : parse.

(** Follows the shape of a parser. *)
Ltac solve_safe :=
  repeat match goal with
    | |- safe (_ ≫= _) => apply parser_safe_bind; [|intros ?]
    | |- safe (mret _) => apply safe_ret
    | |- safe (throw _) => apply safe_throw
    | |- safe (delimited _ _) => apply safe_delimited
    | |- safe (select _ _ _) => apply safe_select
    | |- Forall _ (_ :: _) => apply Forall_cons_2; cbn [snd]
    | |- Forall _ [] => apply Forall_nil_2
    | |- safe (if decide _ then _ else _) => apply safe_decide
    | |- safe (if ?b then _ else _) => apply safe_if
    | |- safe (match ?x with _ => _ end) => destruct x
    | |- safe _ => solve [eauto with parse nocore]
    | |- _ => progress intros
    end.

Section parsers.
Context `{Syn}.

Lemma safe_is_empty : safe is_empty. Proof. apply safe_gets. Qed.
Lemma safe_peek c : safe (peek c). Proof. apply safe_gets. Qed.
Lemma safe_peek_brace : safe peek_brace. Proof. apply safe_gets. Qed.
#[local] Hint Resolve safe_is_empty safe_peek safe_peek_brace : parse.

Lemma safe_optional_comma : safe optional_comma.
Proof. unfold optional_comma. solve_safe. Qed.
Lemma safe_fresh_key seen : safe (fresh_key seen).
Proof. unfold fresh_key. solve_safe. Qed.
Lemma strict_fresh_key seen : strict (fresh_key seen).
Proof. apply strict_bind_l; [apply parse_ident_strict|]. solve_safe. Qed.
#[local] Hint Resolve safe_optional_comma safe_fresh_key : parse.

Lemma safe_parse_channel : safe parse_channel.
Proof.
  unfold parse_channel. solve_safe. apply safe_until_empty; intros c; unfold channel_step.
  - unfold channel_field. solve_safe.
  - apply strict_bind_l; [apply strict_fresh_key|]. unfold channel_field. solve_safe.
Qed.
Lemma strict_parse_channel : strict parse_channel.
Proof.
  apply strict_bind_l; [apply parse_lit_str_strict|]. intros a. solve_safe.
  apply safe_until_empty; intros c; unfold channel_step.
  - unfold channel_field. solve_safe.
  - apply strict_bind_l; [apply strict_fresh_key|]. unfold channel_field. solve_safe.
Qed.

Lemma safe_parse_budget : safe parse_budget.
Proof.
  unfold parse_budget. solve_safe. apply safe_until_empty; intros [seen b]; unfold budget_step.
  - solve_safe.
  - apply strict_bind_l; [apply strict_fresh_key|]. solve_safe.
Qed.
#[local] Hint Resolve safe_parse_budget safe_parse_channel strict_parse_channel : parse.

Lemma safe_parse_spec : safe parse_spec.
Proof.
  unfold parse_spec. solve_safe. apply safe_until_empty; intros [seen b]; unfold spec_step.
  - solve_safe.
  - apply strict_bind_l; [apply strict_fresh_key|]. solve_safe.
Qed.

(** The loop over the types of a tuple goes on past a comma only. *)
Lemma safe_tuple_types fuel types ts :
  length ts < fuel →
  run_res (tuple_types fuel types) ts ≠ Panic ∧ length (run_state (tuple_types fuel types) ts) ≤ length ts.
Proof.
  revert types ts. induction fuel as [|fuel IH]; intros types ts Hl; [lia|].
  unfold run_res, run_state. cbn [tuple_types]. unfold peek, gets, mbind, m_bind.
  destruct (peek_punct ">" ts); [by split; [|simpl; lia]|].
  destruct (parse_type_safe ts) as [Hn Hle]. unfold run_res, run_state in Hn, Hle.
  destruct (parse_type ts) as [[ty|e|] ts1]; simpl in *; [|by split|done].
  destruct (peek_punct "," ts1); [|by split].
  destruct (parse_punct_safe "," ts1) as [Hn' Hle']. unfold run_res, run_state in Hn', Hle'.
  destruct (parse_punct "," ts1) as [[[]|e|] ts2] eqn:E; simpl in *; [|by split; [|lia]|done].
  apply parse_punct_strict in E. destruct (IH (types ++ [ty]) ts2) as [? ?]; [lia|].
  unfold run_res, run_state in *. split; [done|lia].
Qed.

Lemma safe_parse_named_field : safe parse_named_field.
Proof. unfold parse_named_field. solve_safe. Qed.
Lemma strict_parse_named_field : strict parse_named_field.
Proof. apply strict_bind_l; [apply parse_ident_strict|]. solve_safe. Qed.
#[local] Hint Resolve safe_parse_named_field strict_parse_named_field safe_parse_spec : parse.

Lemma safe_parse_self_fields : safe parse_self_fields.
Proof.
  unfold parse_self_fields. solve_safe. intros ts.
  destruct (safe_tuple_types (S (length ts)) [] ts) as [Hn Hl]; [lia|].
  unfold run_res, run_state, mbind, m_bind in *.
  by destruct (tuple_types _ _ ts) as [[] ?]; split.
Qed.
Lemma safe_parse_param : safe parse_param.
Proof. unfold parse_param. solve_safe. Qed.
#[local] Hint Resolve safe_parse_self_fields safe_parse_param : parse.
Lemma safe_parse_self : safe parse_self.
Proof. unfold parse_self. solve_safe. Qed.
Lemma safe_no_more {A} (a : A) : safe (no_more a).
Proof. unfold no_more. solve_safe. Qed.
Lemma safe_parse_head : safe parse_head.
Proof. unfold parse_head. solve_safe. Qed.
Lemma strict_parse_head : strict parse_head.
Proof.
  apply strict_bind_r; [apply parse_outer_safe|]. intros attrs.
  apply strict_bind_r; [apply parse_visibility_safe|]. intros _.
  apply strict_bind_l; [apply parse_keyword_strict|]. solve_safe.
Qed.
Lemma safe_parse_tail : safe parse_tail.
Proof. unfold parse_tail. solve_safe. Qed.
#[local] Hint Resolve safe_parse_self @safe_no_more safe_parse_head safe_parse_tail : parse.

Lemma safe_parse_items : safe parse_items.
Proof.
  unfold parse_items. apply safe_until_empty; intros l; unfold parse_item.
  - solve_safe.
  - apply strict_bind_l; [|solve_safe]. apply strict_bind_l; [apply strict_parse_head|]. solve_safe.
Qed.

Lemma safe_parse_node_items : safe parse_node_items.
Proof.
  unfold parse_node_items. apply safe_until_empty; intros l; unfold parse_node_item.
  - solve_safe.
  - apply strict_bind_l; [|solve_safe]. apply strict_bind_l; [apply strict_or_error, parse_ident_strict|]. solve_safe.
Qed.
End parsers.

(** ** What expansion can do *)

Section expansion.
Context `{Syn} (to_uppercase : string → string).

Lemma read_items_no_panic d items a : read_items d items a ≠ Panic.
Proof.
  revert a. induction items as [|m items IH]; intros a; simpl; [done|]. unfold literal.
  repeat case_match; simplify_eq; simpl; try done; apply IH.
Qed.
Lemma read_attrs_no_panic name d attrs a : read_attrs name d attrs a ≠ Panic.
Proof.
  revert a. induction attrs as [|attr attrs IH]; intros a; simpl; [done|].
  pose proof (read_items_no_panic d (attr_items attr).1 a). destruct (attr_is attr name).
  - destruct (read_items _ _ _); simpl; [by destruct (attr_items attr).2|done..].
  - by destruct (attr_is attr "doc").
Qed.

Lemma expand_one_panic k i :
  expand_one to_uppercase k i = Panic → format_ident (to_pascal_case to_uppercase (it_fn_name i)) = Panic.
Proof.
  unfold expand_one. pose proof (read_attrs_no_panic (attr_name k) (requires_description k) (it_attrs i) no_attrs).
  destruct (read_attrs _ _ _ _); simpl; try done. case_match; [done|]. by destruct (format_ident _).
Qed.
Lemma expand_node_one_panic crate_path i :
  expand_node_one to_uppercase crate_path i = Panic → format_ident (to_pascal_case to_uppercase (ni_fn_name i)) = Panic.
Proof.
  unfold expand_node_one. pose proof (read_attrs_no_panic "node" false (ni_attrs i) no_attrs).
  destruct (read_attrs _ _ _ _); simpl; try done. by destruct (format_ident _).
Qed.

Lemma expand_all_panic {A B} (parse : P (list A)) (one : A → Res MacroError B) ts :
  safe parse → expand_all parse one ts = Panic →
  ∃ items i, run_res parse ts = Ok items ∧ i ∈ items ∧ one i = Panic.
Proof.
  intros Hs. destruct (Hs ts) as [Hp _]. unfold expand_all.
  destruct (run_res parse ts) as [items| |]; simpl; [|done..]. intros Hx.
  cut (∃ i, i ∈ items ∧ one i = Panic); [intros (i&?&?); by exists items, i|].
  clear Hp. induction items as [|i items IH]; [done|].
  destruct (one i) eqn:E; [| |exists i; split; [by left|done]];
    (destruct IH as (j&?&?); [|exists j; split; [by right|done]]);
    revert Hx; by destruct ((fix go (items : list A) := _) items).
Qed.

(** C25: whatever tokens they are given, the macros come to an end: the parsers
    give a value or an error, their loops always with turns left; and an
    expansion panics only when it is given a function whose name, in Pascal
    case, is no identifier. *)
Theorem macros_terminate crate_path k ts :
  (run_res parse_spec ts ≠ Panic ∧ run_res parse_items ts ≠ Panic ∧ run_res parse_node_items ts ≠ Panic) ∧
  (expand to_uppercase k ts = Panic → ∃ items i, run_res parse_items ts = Ok items ∧ i ∈ items ∧
     format_ident (to_pascal_case to_uppercase (it_fn_name i)) = Panic) ∧
  (expand_node to_uppercase crate_path ts = Panic → ∃ items i, run_res parse_node_items ts = Ok items ∧ i ∈ items ∧
     format_ident (to_pascal_case to_uppercase (ni_fn_name i)) = Panic).
Proof.
  split; [split_and!; [apply safe_parse_spec|apply safe_parse_items|apply safe_parse_node_items]|split].
  - intros (items&i&?&?&Hi)%expand_all_panic; [|apply safe_parse_items]. exists items, i. eauto using expand_one_panic.
  - intros (items&i&?&?&Hi)%expand_all_panic; [|apply safe_parse_node_items].
    exists items, i. eauto using expand_node_one_panic.
Qed.
End expansion.

(** ** What the loops compute *)

(** A fold that stops at the first error. *)
Fixpoint fold_res {E S X} (f : S → X → Res E S) (s : S) (xs : list X) : Res E S :=
  match xs with
  | [] => Ok s
  | x :: xs => s ← f s x; fold_res f s xs
  end.

Section loops.
Context `{Syn} {S X : Type} (step : S → P S) (print : X → list Token) (f : S → X → Res MacroError S) (ok : X → Prop).
Context (Hprint : ∀ x, ok x → print x ≠ []).
Context (Hstep : ∀ s x rest, ok x → run_res (step s) (print x ++ rest) = f s x ∧
  (∀ s', f s x = Ok s' → run_state (step s) (print x ++ rest) = rest)).

Lemma turns_spec xs s fuel :
  Forall ok xs → length (concat (print <$> xs)) ≤ fuel →
  run_res (turns fuel step s) (concat (print <$> xs)) = fold_res f s xs ∧
  (∀ s', fold_res f s xs = Ok s' → run_state (turns fuel step s) (concat (print <$> xs)) = []).
Proof.
  intros Hxs. revert s fuel. induction Hxs as [|x xs Hx _ IH]; intros s fuel Hf; csimpl in *.
  - by destruct fuel.
  - destruct (print x) as [|t ts] eqn:Ht; [by apply Hprint in Ht|].
    destruct fuel as [|fuel]; [simpl in Hf; lia|].
    destruct (Hstep s x (concat (print <$> xs)) Hx) as [Hr Hs]. rewrite Ht in Hr, Hs.
    unfold run_res, run_state in *. cbn [turns]. unfold is_empty, gets, mbind at 1 3, m_bind at 1 3.
    simpl in Hr, Hs |- *. unfold mbind, m_bind, res_bind.
    destruct (step s _) as [r ts'] eqn:E. simpl in Hr, Hs. rewrite <- Hr.
    destruct r as [s'|e|]; [|done..]. rewrite (Hs s') by done. apply IH. simpl in Hf. rewrite length_app in Hf. lia.
Qed.

Lemma until_empty_spec xs s :
  Forall ok xs →
  run_res (until_empty step s) (concat (print <$> xs)) = fold_res f s xs ∧
  (∀ s', fold_res f s xs = Ok s' → run_state (until_empty step s) (concat (print <$> xs)) = []).
Proof. intros Hxs. unfold until_empty, run_res, run_state. by apply turns_spec. Qed.
End loops.

(** The tokens of a field of a channel, with the comma that ends it. *)
Definition field_key `{Syn} (f : Field) : string :=
  match f with
  | FReducer _ => "reducer" | FInherited _ => "inherited" | FExported _ => "exported" | FImported _ => "imported"
  | FDefault _ => "default" | FOverrides _ => "overrides"
  end.
Definition field_value `{Syn} (f : Field) : list Token :=
  match f with
  | FReducer e | FDefault e | FOverrides e => expr_tokens e
  | FInherited b | FExported b | FImported b => [TBool b]
  end.
Definition field_tokens `{Syn} (f : Field) : list Token :=
  TIdent (field_key f) :: TPunct ":" :: field_value f ++ [TPunct ","].
Definition field_ok `{Syn} (f : Field) : Prop :=
  match f with FReducer e | FDefault e | FOverrides e => expr_ok e | _ => True end.

(** ** What the primitives give *)

Section primitives.
Context `{Syn}.

Lemma parse_bind {A B} (m : P A) (k : A → P B) ts a ts' : m ts = (Ok a, ts') → (m ≫= k) ts = k a ts'.
Proof. intros Hm. unfold mbind, m_bind. by rewrite Hm. Qed.
Lemma bind_err {A B} (m : P A) (k : A → P B) ts e ts' : m ts = (Err e, ts') → (m ≫= k) ts = (Err e, ts').
Proof. intros Hm. unfold mbind, m_bind. by rewrite Hm. Qed.

Lemma optional_comma_eq ts : optional_comma (TPunct "," :: ts) = (Ok (), ts).
Proof.
  unfold optional_comma, peek, gets, mbind, m_bind. rewrite peek_punct_reads. apply parse_punct_reads.
Qed.
Lemma braces_eq {A} (p : P A) l ts : delimited Brace p (TGroup Brace l :: ts) = (run_res p l, ts).
Proof. unfold delimited. by rewrite (parse_bind _ _ _ _ _ (parse_group_reads _ _ _)). Qed.
Lemma fresh_key_eq seen k ts :
  k ∉ KEYWORDS → fresh_key seen (TIdent k :: ts) = (if decide (k ∈ seen) then Err (AlreadyDefined k) else Ok k, ts).
Proof.
  intros Hk. unfold fresh_key. rewrite (parse_bind _ _ _ _ _ (parse_ident_reads _ _ Hk)). by case_decide.
Qed.
Lemma expr_then_comma e ts :
  expr_ok e → parse_expr (expr_tokens e ++ TPunct "," :: ts) = (Ok e, TPunct "," :: ts).
Proof. intros He. by apply parse_expr_tokens. Qed.
Lemma expr_field {A} (C : Expr → A) e ts :
  expr_ok e → (parse_expr ≫= λ e, mret (C e)) (expr_tokens e ++ TPunct "," :: ts) = (Ok (C e), TPunct "," :: ts).
Proof. intros He. by rewrite (parse_bind _ _ _ _ _ (expr_then_comma e ts He)). Qed.
Lemma run_map {A B} (m : P A) (g : A → B) ts : run_res (s ← m; mret (g s)) ts = (s ← run_res m ts; Ok (g s)).
Proof. unfold run_res, mbind, m_bind. by destruct (m ts) as [[] ?]. Qed.
Lemma braces_field {A B} (p : P A) (C : A → B) l a ts :
  run_res p l = Ok a → (delimited Brace p ≫= λ x, mret (C x)) (TGroup Brace l :: ts) = (Ok (C a), ts).
Proof. intros Hr. unfold mbind, m_bind. by rewrite braces_eq, Hr. Qed.
End primitives.

Section channels.
Context `{Syn}.

Definition add_field (c : ChannelFields) (f : Field) : Res MacroError ChannelFields :=
  if decide (field_key f ∈ cf_seen c) then Err (AlreadyDefined (field_key f))
  else Ok (set_field f (see (field_key f) c)).

Lemma field_key_ident f : field_key f ∉ KEYWORDS.
Proof. destruct f; apply (bool_decide_unpack _); vm_compute; exact I. Qed.

Lemma channel_field_eq f ts :
  field_ok f → channel_field (field_key f) (field_value f ++ TPunct "," :: ts) = (Ok f, TPunct "," :: ts).
Proof.
  intros Hf. destruct f; try apply (expr_field _ _ _ Hf);
    exact (parse_bind parse_lit_bool _ _ _ _ (parse_lit_bool_reads b _)).
Qed.

Lemma channel_step_spec c f ts :
  field_ok f → run_res (channel_step c) (field_tokens f ++ ts) = add_field c f ∧
  (∀ c', add_field c f = Ok c' → run_state (channel_step c) (field_tokens f ++ ts) = ts).
Proof.
  intros Hf. unfold add_field, field_tokens. cbn [app]. rewrite <- (assoc_L (++)). cbn [app].
  pose proof (fresh_key_eq (cf_seen c) (field_key f) (TPunct ":" :: field_value f ++ TPunct "," :: ts)
    (field_key_ident f)) as Hk.
  unfold run_res, run_state, channel_step. case_decide as Hin.
  - by rewrite (bind_err _ _ _ _ _ Hk).
  - by rewrite (parse_bind _ _ _ _ _ Hk), (parse_bind _ _ _ _ _ (parse_punct_reads _ _)),
      (parse_bind _ _ _ _ _ (channel_field_eq f ts Hf)), (parse_bind _ _ _ _ _ (optional_comma_eq ts)).
Qed.

(** What a field given in the source leaves: the flags, when they are set. *)
Definition sets (f : Field) : Prop :=
  match f with FInherited b | FExported b | FImported b => b = true | _ => True end.
Definition holds (c : ChannelFields) (f : Field) : Prop :=
  match f with
  | FReducer e => cf_reducer c = Some e
  | FInherited b => cf_inherited c = b | FExported b => cf_exported c = b | FImported b => cf_imported c = b
  | FDefault e => cf_default c = Some e
  | FOverrides e => cf_overrides c = Some e
  end.
Definition all_seen (c : ChannelFields) : Prop := ∀ f, sets f → holds c f → field_key f ∈ cf_seen c.

Lemma add_field_spec c g c' :
  add_field c g = Ok c' → all_seen c → all_seen c' ∧ (∀ f, sets f → holds c' f ↔ f = g ∨ holds c f).
Proof.
  unfold add_field. case_decide as Hg; [done|]. intros [= <-] Hc. split.
  - intros f Hf Hh. specialize (Hc f Hf). destruct c, g, f; simpl in *; set_solver.
  - intros f Hf. specialize (Hc f Hf). destruct c, g, f; simpl in *; naive_solver.
Qed.

Lemma fold_fields_holds fs c c' :
  fold_res add_field c fs = Ok c' → all_seen c → ∀ f, sets f → holds c' f ↔ f ∈ fs ∨ holds c f.
Proof.
  revert c. induction fs as [|g fs IH]; intros c Hfs Hc f Hf; simpl in Hfs.
  - simplify_eq. set_solver.
  - destruct (add_field c g) as [c1| |] eqn:E; try done.
    destruct (add_field_spec _ _ _ E Hc) as [Hc1 Hh]. rewrite (IH c1) by done. rewrite Hh by done. set_solver.
Qed.

Lemma add_field_seen c g c' : add_field c g = Ok c' → cf_seen c' = field_key g :: cf_seen c.
Proof. unfold add_field. case_decide; [done|]. intros [= <-]. by destruct c, g. Qed.

Lemma fold_fields_app fs gs c :
  fold_res add_field c (fs ++ gs) = (fold_res add_field c fs ≫= λ c, fold_res add_field c gs).
Proof. revert c. induction fs as [|f fs IH]; intros c; simpl; [done|]. destruct (add_field c f); [apply IH|done..]. Qed.

Lemma fold_fields_ok fs c :
  NoDup (field_key <$> fs) → (∀ k, k ∈ cf_seen c → k ∉ field_key <$> fs) →
  ∃ c', fold_res add_field c fs = Ok c' ∧ (∀ k, k ∈ cf_seen c' ↔ k ∈ (field_key <$> fs) ∨ k ∈ cf_seen c).
Proof.
  revert c. induction fs as [|f fs IH]; intros c Hnd Hd; csimpl in *; [exists c; set_solver|].
  apply NoDup_cons in Hnd as [Hf Hnd].
  assert (add_field c f = Ok (set_field f (see (field_key f) c))) as E.
  { unfold add_field. rewrite decide_False; [done|]. set_solver. }
  rewrite E. apply add_field_seen in E. destruct (IH (set_field f (see (field_key f) c)) Hnd) as (c'&Hc&Hs).
  - rewrite E. set_solver.
  - exists c'. split; [done|]. intros k. rewrite Hs, E. set_solver.
Qed.

Definition channel_tokens (name : string) (fs : list Field) : list Token :=
  [TStr name; TPunct ":"; TGroup Brace (concat (field_tokens <$> fs))].

Lemma parse_channel_eq name fs ts :
  Forall field_ok fs →
  let r := (c ← fold_res add_field no_fields fs;
    match cf_reducer c with
    | None => Err ReducerRequired
    | Some r => Ok (mkChannelBlock name r (cf_inherited c) (cf_exported c) (cf_imported c) (cf_default c) (cf_overrides c))
    end) in
  run_res parse_channel (channel_tokens name fs ++ ts) = r ∧
  (∀ b, r = Ok b → run_state parse_channel (channel_tokens name fs ++ ts) = ts).
Proof.
  intros Hfs r. unfold channel_tokens. cbn [app]. unfold run_res, run_state, parse_channel.
  rewrite (parse_bind _ _ _ _ _ (parse_lit_str_reads _ _)), (parse_bind _ _ _ _ _ (parse_punct_reads _ _)).
  destruct (until_empty_spec channel_step field_tokens add_field field_ok (λ _ _, not_eq_sym (@nil_cons _ _ _))
    channel_step_spec fs no_fields Hfs) as [Hr _].
  subst r. unfold mbind, m_bind. rewrite braces_eq, Hr. destruct (fold_res _ _ fs) as [c|e|]; simpl; [|done..]. by destruct (cf_reducer c).
Qed.

Lemma no_fields_holds f : sets f → ¬ holds no_fields f.
Proof. destruct f; simpl; congruence. Qed.

(** A channel of [spec!] given by any fields in any order: the first key
    repeated is reported; the reducer is required; and otherwise the channel
    has each value that was given, and the defaults of those that were not. *)
Theorem parse_channel_exact name fs ts :
  Forall field_ok fs →
  let r := run_res parse_channel (channel_tokens name fs ++ ts) in
  (∀ pre f post, fs = pre ++ f :: post → NoDup (field_key <$> pre) → field_key f ∈ field_key <$> pre →
     r = Err (AlreadyDefined (field_key f))) ∧
  (NoDup (field_key <$> fs) → (∀ e, FReducer e ∉ fs) → r = Err ReducerRequired) ∧
  (NoDup (field_key <$> fs) → ∀ e, FReducer e ∈ fs → ∃ c, r = Ok c ∧ cb_name c = name ∧ cb_reducer c = e ∧
     (cb_inherited c = true ↔ FInherited true ∈ fs) ∧ (cb_exported c = true ↔ FExported true ∈ fs) ∧
     (cb_imported c = true ↔ FImported true ∈ fs) ∧ (∀ v, cb_default c = Some v ↔ FDefault v ∈ fs) ∧
     (∀ v, cb_overrides c = Some v ↔ FOverrides v ∈ fs) ∧
     run_state parse_channel (channel_tokens name fs ++ ts) = ts).
Proof.
  intros Hfs r. destruct (parse_channel_eq name fs ts Hfs) as [Hr Hts]. subst r. rewrite Hr.
  assert (∀ c', fold_res add_field no_fields fs = Ok c' → ∀ f, sets f → holds c' f ↔ f ∈ fs) as Hholds.
  { intros c' Hc f Hf. assert (all_seen no_fields) as Hno by (intros g Hg Hh; by destruct (no_fields_holds g Hg)).
    rewrite (fold_fields_holds _ _ _ Hc Hno f Hf).
    pose proof (no_fields_holds f Hf). tauto. }
  split_and!.
  - intros pre f post -> Hnd Hin. destruct (fold_fields_ok pre no_fields Hnd) as (c&Hc&Hs); [set_solver|].
    assert (add_field c f = Err (AlreadyDefined (field_key f))) as Hf
      by (unfold add_field; by rewrite decide_True by (apply Hs; auto)).
    rewrite fold_fields_app, Hc. simpl. by rewrite Hf.
  - intros Hnd He. destruct (fold_fields_ok fs no_fields Hnd) as (c&Hc&_); [set_solver|]. rewrite Hc. simpl.
    destruct (cf_reducer c) as [e|] eqn:E; [|done]. by destruct (He e); apply (Hholds c Hc (FReducer e)).
  - intros Hnd e He. destruct (fold_fields_ok fs no_fields Hnd) as (c&Hc&_); [set_solver|].
    specialize (Hholds c Hc). rewrite Hc in Hts |- *. simpl in Hts |- *.
    pose proof (Hholds (FReducer e) I) as Hre. simpl in Hre. apply Hre in He. rewrite He in Hts |- *.
    eexists. split; [done|]. simpl.
    pose proof (Hholds (FInherited true) eq_refl). pose proof (Hholds (FExported true) eq_refl).
    pose proof (Hholds (FImported true) eq_refl).
    split_and!; try done; [intros v; apply (Hholds (FDefault v) I)|intros v; apply (Hholds (FOverrides v) I)|by eapply Hts].
Qed.
End channels.

(** ** Specifications as they are written *)

Section written.
Context `{Syn}.

Definition channel_fields (c : ChannelBlock) : list Field :=
  [FReducer (cb_reducer c); FInherited (cb_inherited c); FExported (cb_exported c); FImported (cb_imported c)] ++
  (match cb_default c with Some e => [FDefault e] | None => [] end) ++
  (match cb_overrides c with Some e => [FOverrides e] | None => [] end).
Definition print_channel (c : ChannelBlock) : list Token :=
  channel_tokens (cb_name c) (channel_fields c) ++ [TPunct ","].
Definition opt_ok (e : option Expr) : Prop := match e with Some e => expr_ok e | None => True end.
Definition channel_ok (c : ChannelBlock) : Prop :=
  expr_ok (cb_reducer c) ∧ opt_ok (cb_default c) ∧ opt_ok (cb_overrides c).

Lemma parse_channel_fields c ts :
  channel_ok c → parse_channel (channel_tokens (cb_name c) (channel_fields c) ++ ts) = (Ok c, ts).
Proof.
  intros (Hr&Hd&Ho). destruct (parse_channel_eq (cb_name c) (channel_fields c) ts) as [Hres Hts].
  - destruct c as [n r i x m [d|] [o|]]; unfold channel_fields; simpl in *; repeat constructor; done.
  - rewrite (run_pair _ _ _ Hres). destruct c as [n r i x m [d|] [o|]]; simpl in *; by erewrite Hts.
Qed.

Lemma parse_channels l :
  Forall channel_ok l → run_res (parse_terminated parse_channel) (concat (print_channel <$> l)) = Ok l.
Proof.
  intros Hl. apply (parse_terminated_reads parse_channel (λ c, channel_tokens (cb_name c) (channel_fields c))).
  apply (Forall_impl _ _ _ Hl). intros c Hc ts. by apply parse_channel_fields.
Qed.

Definition print_entry (key op : string) (value : list Token) : list Token :=
  TIdent key :: TPunct op :: value ++ [TPunct ","].
Definition print_budget (b : BudgetBlock) : list Token :=
  (match bb_max_step b with Some e => print_entry "max_step" ":" (expr_tokens e) | None => [] end) ++
  (match bb_max_tokens b with Some e => print_entry "max_tokens" ":" (expr_tokens e) | None => [] end).
Definition budget_ok (b : BudgetBlock) : Prop := opt_ok (bb_max_step b) ∧ opt_ok (bb_max_tokens b).
Definition print_spec (b : SpecBlock) : list Token :=
  (match sb_budget b with Some x => print_entry "budget" "=" [TGroup Brace (print_budget x)] | None => [] end) ++
  print_entry "channels" "=" [TGroup Brace (concat (print_channel <$> sb_channels b))].
Definition spec_ok (b : SpecBlock) : Prop :=
  match sb_budget b with Some x => budget_ok x | None => True end ∧ Forall channel_ok (sb_channels b).

(** A loop over entries [key op value,]: each is read when its key is fresh,
    and changes the block by [e_update]. *)
Record Entry B := mkEntry { e_key : string; e_value : list Token; e_update : B → B }.
#[global] Arguments mkEntry {B}.
#[global] Arguments e_key {B}.
#[global] Arguments e_value {B}.
#[global] Arguments e_update {B}.

Section entries.
Context {B : Type} (op : string) (sel : B → string → P B).
Definition entry_step (s : list string * B) : P (list string * B) :=
  let '(seen, b) := s in
  key ← fresh_key seen; _ ← parse_punct op; b ← sel b key; _ ← optional_comma; mret (key :: seen, b).
Definition print_e (e : Entry B) : list Token := print_entry (e_key e) op (e_value e).
Definition add_entry (s : list string * B) (e : Entry B) : Res MacroError (list string * B) :=
  if decide (e_key e ∈ s.1) then Err (AlreadyDefined (e_key e)) else Ok (e_key e :: s.1, e_update e s.2).
Definition entry_ok (e : Entry B) : Prop :=
  e_key e ∉ KEYWORDS ∧
  ∀ b ts, sel b (e_key e) (e_value e ++ TPunct "," :: ts) = (Ok (e_update e b), TPunct "," :: ts).

Lemma entry_step_spec s e ts :
  entry_ok e → run_res (entry_step s) (print_e e ++ ts) = add_entry s e ∧
  (∀ s', add_entry s e = Ok s' → run_state (entry_step s) (print_e e ++ ts) = ts).
Proof.
  intros [Hk He]. destruct s as [seen b]. unfold run_res, run_state, entry_step, add_entry, print_e, print_entry.
  cbn [app fst snd]. rewrite <- (assoc_L (++)). cbn [app].
  pose proof (fresh_key_eq seen (e_key e) (TPunct op :: e_value e ++ TPunct "," :: ts) Hk) as Hkey.
  case_decide as Hin.
  - by rewrite (bind_err _ _ _ _ _ Hkey).
  - by rewrite (parse_bind _ _ _ _ _ Hkey), (parse_bind _ _ _ _ _ (parse_punct_reads _ _)), (parse_bind _ _ _ _ _ (He b ts)),
      (parse_bind _ _ _ _ _ (optional_comma_eq ts)).
Qed.

Lemma entries_spec es s :
  Forall entry_ok es → run_res (until_empty entry_step s) (concat (print_e <$> es)) = fold_res add_entry s es.
Proof. intros Hes. by apply (until_empty_spec _ _ _ _ (λ _ _, not_eq_sym (@nil_cons _ _ _)) entry_step_spec). Qed.
End entries.

Definition budget_entries (b : BudgetBlock) : list (Entry BudgetBlock) :=
  (match bb_max_step b with
   | Some e => [mkEntry "max_step" (expr_tokens e) (λ b, mkBudgetBlock (Some e) (bb_max_tokens b))] | None => [] end) ++
  (match bb_max_tokens b with
   | Some e => [mkEntry "max_tokens" (expr_tokens e) (λ b, mkBudgetBlock (bb_max_step b) (Some e))] | None => [] end).

Lemma not_keyword k : bool_decide (k ∉ KEYWORDS) = true → k ∉ KEYWORDS.
Proof. apply bool_decide_eq_true_1. Qed.

Lemma parse_budget_eq b : budget_ok b → run_res parse_budget (print_budget b) = Ok b.
Proof.
  intros [Hs Ht]. unfold parse_budget. rewrite run_map.
  assert (run_res (until_empty budget_step ([], mkBudgetBlock None None)) (print_budget b) =
    fold_res add_entry ([], mkBudgetBlock None None) (budget_entries b)) as ->.
  { rewrite <- (entries_spec ":" (λ b key, select key [
      ("max_step", e ← parse_expr; mret (mkBudgetBlock (Some e) (bb_max_tokens b)));
      ("max_tokens", e ← parse_expr; mret (mkBudgetBlock (bb_max_step b) (Some e)))] (throw (UnknownBudgetField key)))).
    - destruct b as [[s|] [t|]]; unfold print_budget, budget_entries; csimpl; by rewrite ?app_nil_r.
    - apply Forall_app. destruct b as [[s|] [t|]]; simpl in *; split; repeat first [apply Forall_nil_2|apply Forall_cons_2];
        (split; [by apply not_keyword|]); intros b ts;
        first [by apply (expr_field (λ e, mkBudgetBlock (Some e) (bb_max_tokens b)))
        |by apply (expr_field (λ e, mkBudgetBlock (bb_max_step b) (Some e)))]. }
  by destruct b as [[s|] [t|]].
Qed.

Definition spec_entries (b : SpecBlock) : list (Entry SpecBlock) :=
  (match sb_budget b with
   | Some x => [mkEntry "budget" [TGroup Brace (print_budget x)] (λ b, mkSpecBlock (Some x) (sb_channels b))]
   | None => [] end) ++
  [mkEntry "channels" [TGroup Brace (concat (print_channel <$> sb_channels b))]
    (λ b', mkSpecBlock (sb_budget b') (sb_channels b))].

Lemma parse_spec_eq b : spec_ok b → run_res parse_spec (print_spec b) = Ok b.
Proof.
  intros [Hb Hc].
  unfold parse_spec. rewrite run_map.
  assert (run_res (until_empty spec_step ([], mkSpecBlock None [])) (print_spec b) =
    fold_res add_entry ([], mkSpecBlock None []) (spec_entries b)) as ->.
  { rewrite <- (entries_spec "=" (λ b key, select key [
      ("budget", x ← delimited Brace parse_budget; mret (mkSpecBlock (Some x) (sb_channels b)));
      ("channels", l ← delimited Brace (parse_terminated parse_channel); mret (mkSpecBlock (sb_budget b) l))]
      (throw (UnknownSpecField key)))).
    - destruct b as [[x|] l]; unfold print_spec, spec_entries; csimpl; by rewrite ?app_nil_r.
    - apply Forall_app. destruct b as [[x|] l]; simpl in *; split; repeat first [apply Forall_nil_2|apply Forall_cons_2];
        (split; [by apply not_keyword|]); intros b ts;
        first [by apply (braces_field _ (λ x, mkSpecBlock (Some x) (sb_channels b))), parse_budget_eq
        |by apply (braces_field _ (λ l, mkSpecBlock (sb_budget b) l)), parse_channels]. }
  by destruct b as [[x|] l].
Qed.

(** ** The code of a specification *)

Section meaning.
Context (crate_path : Path) (ev : Eval).

(** The value that the last channel of a name gives to it. *)
Definition last_value (value : ChannelBlock → option Expr) (cs : list ChannelBlock) (name : string) : option Value :=
  last (omap (λ c, if decide (cb_name c = name) then value c else None) cs) ≫= eval_json ev.

(** What a specification that is written down means. *)
Record means (b : SpecBlock) (s : CommonSpec) : Prop := {
  means_budget : budget s =
    match sb_budget b with
    | Some x => mkBudget (eval_limit ev <$> bb_max_step x) (eval_limit ev <$> bb_max_tokens x)
    | None => mkBudget None None
    end;
  means_channels : spec_channels s =
    (λ c, mkChannelSpec (cb_name c) (eval_reducer ev (cb_reducer c))) <$> sb_channels b;
  means_inherited : inherited_channels s = cb_name <$> filter (λ c, cb_inherited c = true) (sb_channels b);
  means_exported : exported_channels s = cb_name <$> filter (λ c, cb_exported c = true) (sb_channels b);
  means_imported : imported_channels s = cb_name <$> filter (λ c, cb_imported c = true) (sb_channels b);
  means_default name : default_values s !! name = last_value cb_default (sb_channels b) name;
  means_overrides name : overrides_channels s !! name = last_value cb_overrides (sb_channels b) name
}.

(** Every value of the channels has a JSON. *)
Definition has_json (value : ChannelBlock → option Expr) (cs : list ChannelBlock) : Prop :=
  Forall (λ c, from_option (λ e, is_Some (eval_json ev e)) True (value c)) cs.
Definition serializable (b : SpecBlock) : Prop :=
  has_json cb_default (sb_channels b) ∧ has_json cb_overrides (sb_channels b).

#[export] Instance has_json_dec value cs : Decision (has_json value cs).
Proof. unfold has_json. apply Forall_dec. intros c. destruct (value c); simpl; apply _. Defined.

Lemma run_call_eq {A} f (k : list Code → Res () A) args : run_call f k (CCall f args) = k args.
Proof. unfold run_call. by rewrite decide_True. Qed.
Lemma run_struct_eq {A} p (k : list (string * Code) → Res () A) fields : run_struct p k (CStruct p fields) = k fields.
Proof. unfold run_struct. by rewrite decide_True. Qed.

Lemma run_name_eq n : run_name crate_path (channel_name crate_path n) = Ok n.
Proof. unfold run_name, channel_name. by rewrite run_call_eq. Qed.

Lemma run_names cs : mapM (run_name crate_path) ((λ c, channel_name crate_path (cb_name c)) <$> cs) = Ok (cb_name <$> cs).
Proof. induction cs as [|c cs IH]; [done|]. rewrite !fmap_cons. cbn [mapM]. by rewrite run_name_eq, IH. Qed.

Lemma run_channels cs :
  mapM (run_channel crate_path ev) (channel_spec crate_path <$> cs) =
    Ok ((λ c, mkChannelSpec (cb_name c) (eval_reducer ev (cb_reducer c))) <$> cs).
Proof.
  induction cs as [|c cs IH]; [done|]. rewrite !fmap_cons. cbn [mapM]. rewrite IH.
  unfold run_channel, channel_spec at 1. by rewrite run_call_eq.
Qed.

Lemma run_limit_eq e : run_limit ev (limit_code e) = Ok (eval_limit ev <$> e).
Proof. by destruct e. Qed.

Lemma run_budget_eq b :
  run_budget crate_path ev (budget_code crate_path b) = Ok
    match b with
    | Some x => mkBudget (eval_limit ev <$> bb_max_step x) (eval_limit ev <$> bb_max_tokens x)
    | None => mkBudget None None
    end.
Proof.
  destruct b as [[s t]|]; [|done]. unfold budget_code, run_budget. rewrite run_struct_eq.
  unfold run_field. simpl list_find. cbn [fst snd]. by rewrite !run_limit_eq.
Qed.

Definition entries_of (value : ChannelBlock → option Expr) (cs : list ChannelBlock) : list (ChannelName * Value) :=
  omap (λ c, v ← value c ≫= eval_json ev; Some (cb_name c, v)) cs.

Lemma run_entries value cs :
  mapM (run_entry crate_path ev) (omap (λ c, json_entry crate_path (cb_name c) <$> value c) cs) =
    if decide (has_json value cs) then Ok (entries_of value cs) else Panic.
Proof.
  induction cs as [|c cs IH]; [done|]. unfold entries_of. csimpl. fold (entries_of value cs).
  assert (has_json value (c :: cs) ↔ from_option (λ e, is_Some (eval_json ev e)) True (value c) ∧ has_json value cs)
    as Hc by (unfold has_json; by rewrite Forall_cons).
  destruct (value c) as [e|]; csimpl in *.
  - rewrite decide_True by done. cbn [mbind res_bind].
    destruct (eval_json ev e) as [v|]; csimpl.
    + change (@mapM _ _ ?m _ _ ?f ?l) with (@mapM _ (res_bind ()) m _ _ f l). rewrite IH. destruct (decide (has_json value cs)); [rewrite decide_True|rewrite decide_False]; try done; naive_solver.
    + rewrite decide_False; [done|]. intros [[? [=]] _]%Hc.
  - change (@mapM _ _ ?m _ _ ?f ?l) with (@mapM _ (res_bind ()) m _ _ f l). rewrite IH. by destruct (decide (has_json value cs)); [rewrite decide_True|rewrite decide_False]; try naive_solver.
Qed.

Lemma extend_last (l : list (ChannelName * Value)) m name :
  channels_extend m l !! name =
    match last (omap (λ p, if decide (p.1 = name) then Some p.2 else None) l) with Some v => Some v | None => m !! name end.
Proof.
  unfold channels_extend. induction l as [|[k v] l IH] using rev_ind; [done|].
  rewrite foldl_app, omap_app. csimpl. case_decide as Hk; simpl in Hk.
  - subst k. by rewrite last_snoc, lookup_insert_eq.
  - by rewrite app_nil_r, lookup_insert_ne, IH.
Qed.

Lemma entries_last value cs name :
  has_json value cs → channels_extend ∅ (entries_of value cs) !! name = last_value value cs name.
Proof.
  intros Hj. rewrite extend_last, lookup_empty. unfold last_value.
  assert (omap (λ p, if decide (p.1 = name) then Some p.2 else None) (entries_of value cs) =
    omap (eval_json ev) (omap (λ c, if decide (cb_name c = name) then value c else None) cs) ∧
    Forall (λ e, is_Some (eval_json ev e)) (omap (λ c, if decide (cb_name c = name) then value c else None) cs)) as [-> Hs].
  { induction Hj as [|c cs Hc _ [IH1 IH2]]; [by split|]. unfold entries_of. csimpl. fold (entries_of value cs).
    destruct (value c) as [e|]; csimpl in *; [destruct Hc as [v Hv]; rewrite Hv; csimpl|];
      case_decide; csimpl; rewrite ?Hv, IH1; split; try done. by constructor. }
  revert Hs. generalize (omap (λ c, if decide (cb_name c = name) then value c else None) cs) as es.
  intros es. induction es as [|e es _] using rev_ind; [done|]. intros [_ [[v Hv] _]%Forall_cons]%Forall_app.
  rewrite omap_app, last_snoc. csimpl. by rewrite Hv, last_snoc.
Qed.

Lemma run_values_eq value cs :
  run_values crate_path ev (CCall HASH_MAP_FROM [CArray (omap (λ c, json_entry crate_path (cb_name c) <$> value c) cs)]) =
    if decide (has_json value cs) then Ok (channels_extend ∅ (entries_of value cs)) else Panic.
Proof. unfold run_values. rewrite run_call_eq, run_entries. by case_decide. Qed.

Lemma run_spec_eq b :
  run_spec crate_path ev (common_spec_code crate_path b) =
    if decide (has_json cb_default (sb_channels b)) then
      if decide (has_json cb_overrides (sb_channels b)) then
        Ok (mkCommonSpec
          match sb_budget b with
          | Some x => mkBudget (eval_limit ev <$> bb_max_step x) (eval_limit ev <$> bb_max_tokens x)
          | None => mkBudget None None
          end
          ((λ c, mkChannelSpec (cb_name c) (eval_reducer ev (cb_reducer c))) <$> sb_channels b)
          (cb_name <$> filter (λ c, cb_inherited c = true) (sb_channels b))
          (cb_name <$> filter (λ c, cb_exported c = true) (sb_channels b))
          (cb_name <$> filter (λ c, cb_imported c = true) (sb_channels b))
          (channels_extend ∅ (entries_of cb_default (sb_channels b)))
          (channels_extend ∅ (entries_of cb_overrides (sb_channels b))))
      else Panic
    else Panic.
Proof.
  unfold run_spec, common_spec_code. rewrite run_struct_eq. unfold run_field. simpl list_find. cbn [fst snd run_vec].
  rewrite run_budget_eq. cbn [mbind res_bind]. unfold run_vec. rewrite run_channels, !run_names, !run_values_eq.
  by destruct (decide (has_json cb_default _)), (decide (has_json cb_overrides _)).
Qed.

(** C24: a specification that is written down is the one that [spec!] reads,
    and the code that it expands to evaluates to what the specification
    means: its budget, its channels and their reducers, the channels with each
    of the three flags, and for each name the default and the override of the
    last channel of this name that has one. It panics exactly when a default
    or an override has no JSON. *)
Theorem spec_block_roundtrip b :
  spec_ok b → run_res parse_spec (print_spec b) = Ok b ∧
  ∃ code, expand_spec crate_path (print_spec b) = Ok code ∧
    (serializable b → ∃ s, run_spec crate_path ev code = Ok s ∧ means b s) ∧
    (¬ serializable b → run_spec crate_path ev code = Panic).
Proof.
  intros Hb. pose proof (parse_spec_eq b Hb) as Hp. split; [done|].
  exists (common_spec_code crate_path b). unfold expand_spec. rewrite Hp, run_spec_eq. split_and!; [done| |].
  - intros [Hd Ho]. rewrite !decide_True by done. eexists. split; [done|]. constructor; try done; intros name.
    + by apply entries_last.
    + by apply entries_last.
  - intros Hs. case_decide; [|done]. case_decide; [|done]. by destruct Hs.
Qed.
End meaning.
End written.

(** ** A parser of expressions and types, and the tokens of the sources *)

Module Tokens.

(** Takes the next token when it is one of those wanted. *)
Definition next {A} (wanted : string) (f : Token → option A) : P A := λ ts,
  match ts with
  | t :: ts' => match f t with Some a => (Ok a, ts') | None => (Err (Unexpected wanted), ts) end
  | [] => (Err (Unexpected wanted), ts)
  end.
Definition punct (c : string) : P () :=
  next c (λ t, match t with TPunct c' => if decide (c = c') then Some () else None | _ => None end).
Definition keyword (k : string) : P () :=
  next k (λ t, match t with TIdent k' => if decide (k = k') then Some () else None | _ => None end).
Definition ident : P string :=
  next "identifier" (λ t, match t with TIdent s => if decide (s ∈ KEYWORDS) then None else Some s | _ => None end).
Definition lit_str : P string := next "string literal" (λ t, match t with TStr s => Some s | _ => None end).
Definition lit_bool : P bool := next "boolean literal" (λ t, match t with TBool b => Some b | _ => None end).
Definition is_delimiter (d d' : Delimiter) : bool :=
  match d, d' with
  | Brace, Brace | Parenthesis, Parenthesis | Bracket, Bracket => true
  | _, _ => false
  end.
Definition group (d : Delimiter) : P (list Token) :=
  next "delimiter" (λ t, match t with TGroup d' l => if is_delimiter d d' then Some l else None | _ => None end).
Definition at_group (d : Delimiter) (ts : list Token) : bool :=
  match ts with TGroup d' _ :: _ => is_delimiter d d' | _ => false end.

Lemma safe_next {A} e (f : Token → option A) : safe (next e f).
Proof.
  intros [|t ts]; unfold run_res, run_state; simpl; [split; [done|lia]|].
  destruct (f t); simpl; split; try done; lia.
Qed.
Lemma strict_next {A} e (f : Token → option A) : strict (next e f).
Proof. intros [|t ts] a ts'; simpl; [done|]. destruct (f t); intros; simplify_eq. lia. Qed.
Lemma punct_reads c ts : punct c (TPunct c :: ts) = (Ok (), ts).
Proof. unfold punct, next. by rewrite decide_True. Qed.
Lemma ident_reads s ts : s ∉ KEYWORDS → ident (TIdent s :: ts) = (Ok s, ts).
Proof. intros Hs. unfold ident, next. by rewrite decide_False. Qed.
Lemma group_reads d l ts : group d (TGroup d l :: ts) = (Ok l, ts).
Proof. by destruct d. Qed.

Definition terminated_step {A} (p : P A) (l : list A) : P (list A) :=
  a ← p; empty ← is_empty; _ ← (if empty : bool then mret () else punct ","); mret (l ++ [a]).
Definition terminated {A} (p : P A) : P (list A) := until_empty (terminated_step p) [].

Lemma safe_terminated_step {A} (p : P A) l : safe p → safe (terminated_step p l).
Proof.
  intros Hp. apply parser_safe_bind; [done|]. intros a. apply parser_safe_bind; [apply safe_gets|]. intros b.
  apply parser_safe_bind; [apply safe_if; [apply safe_ret|apply safe_next]|]. intros _. apply safe_ret.
Qed.
Lemma safe_terminated {A} (p : P A) : safe p → strict p → safe (terminated p).
Proof.
  intros Hp Hs. apply safe_until_empty; intros l; [by apply safe_terminated_step|].
  apply strict_bind_l; [done|]. intros a. apply parser_safe_bind; [apply safe_gets|]. intros b.
  apply parser_safe_bind; [apply safe_if; [apply safe_ret|apply safe_next]|]. intros _. apply safe_ret.
Qed.
Lemma fold_snoc {A} (l l' : list A) : fold_res (E := MacroError) (λ l a, Ok (l ++ [a])) l l' = Ok (l ++ l').
Proof. revert l. induction l' as [|a l' IH]; intros l; simpl; [by rewrite app_nil_r|]. by rewrite IH, <- (assoc_L (++)). Qed.
Lemma terminated_reads {A} (p : P A) print l :
  Forall (λ a, ∀ ts, p (print a ++ TPunct "," :: ts) = (Ok a, TPunct "," :: ts)) l →
  run_res (terminated p) (concat ((λ a, print a ++ [TPunct ","]) <$> l)) = Ok l.
Proof.
  intros Hl. etrans; [|exact (fold_snoc [] l)].
  apply (until_empty_spec (terminated_step p) (λ a, print a ++ [TPunct ","]) (λ l a, Ok (l ++ [a]))
    (λ a, ∀ ts, p (print a ++ TPunct "," :: ts) = (Ok a, TPunct "," :: ts))); [intros x _; by destruct (print x)| |done].
  intros l' a rest Ha. unfold run_res, run_state, terminated_step. rewrite <- (assoc_L (++)). cbn [app].
  rewrite (parse_bind _ _ _ _ _ (Ha rest)). unfold is_empty, gets, mbind, m_bind. rewrite punct_reads. by split.
Qed.

(** A byte of an identifier: those of other characters than ASCII are taken to
    be letters. *)
Definition ident_byte (c : ascii) : bool :=
  let b := nat_of_ascii c in
  ((48 <=? b) && (b <=? 57) || (65 <=? b) && (b <=? 90) || (97 <=? b) && (b <=? 122) || (b =? 95) || (128 <=? b))%nat.
Fixpoint ident_bytes (s : string) : bool :=
  match s with EmptyString => true | String c s => ident_byte c && ident_bytes s end.

(** [format_ident!] panics on a text that is not an identifier. *)
Definition identifier (s : string) : Res MacroError string :=
  match s with
  | EmptyString => Panic
  | String c _ =>
      let b := nat_of_ascii c in
      if ((48 <=? b) && (b <=? 57))%nat || negb (ident_bytes s) then Panic else Ok s
  end.


Fixpoint span (stop : Token → bool) (ts : list Token) : list Token * list Token :=
  match ts with
  | [] => ([], [])
  | t :: ts' => if stop t then ([], ts) else let '(l, rest) := span stop ts' in (t :: l, rest)
  end.
Definition is_punct (c : string) (t : Token) : bool :=
  match t with TPunct c' => bool_decide (c = c') | _ => false end.

Lemma is_punct_same c (ts : list Token) : is_punct c (TPunct c) = true.
Proof. by apply bool_decide_eq_true. Qed.

(** A type ends at a comma, an equals sign or a [>] outside of its brackets, or
    at a block. *)
Fixpoint type_span (depth : nat) (ts : list Token) : list Token * list Token :=
  match ts with
  | [] => ([], [])
  | t :: ts' =>
      let go d := let '(l, rest) := type_span d ts' in (t :: l, rest) in
      match t with
      | TGroup Brace _ => ([], ts)
      | _ =>
          if is_punct "<" t then go (S depth)
          else match depth with
          | O => if is_punct ">" t || is_punct "," t || is_punct "=" t then ([], ts) else go O
          | S d => if is_punct ">" t then go d else go depth
          end
      end
  end.

Definition one_or_more (wanted : string) (f : list Token → list Token * list Token) : P (list Token) := λ ts,
  match f ts with ([], _) => (Err (Unexpected wanted), ts) | (l, rest) => (Ok l, rest) end.

Lemma span_length stop ts : length (span stop ts).2 ≤ length ts.
Proof.
  induction ts as [|t ts IH]; simpl; [lia|]. destruct (stop t); simpl; [lia|].
  destruct (span stop ts); simpl in *; lia.
Qed.
Lemma type_span_length d ts : length (type_span d ts).2 ≤ length ts.
Proof.
  revert d. induction ts as [|t ts IH]; intros d; cbn [type_span]; [done|].
  assert (∀ d, length (let '(l, rest) := type_span d ts in (t :: l, rest)).2 ≤ length (t :: ts)) as Hgo.
  { intros d'. specialize (IH d'). destruct (type_span d' ts); simpl in *; lia. }
  destruct t as [| | | |[] l|]; cbv beta iota zeta; try done;
    (destruct (is_punct "<" _); [apply Hgo|]; destruct d; [|destruct (is_punct ">" _); apply Hgo];
     destruct (is_punct ">" _ || is_punct "," _ || is_punct "=" _); [done|apply Hgo]).
Qed.
Lemma safe_one_or_more wanted f : (∀ ts, length (f ts).2 ≤ length ts) → safe (one_or_more wanted f).
Proof.
  intros Hf ts. specialize (Hf ts). unfold run_res, run_state, one_or_more.
  destruct (f ts) as [[|t l] rest]; simpl in *; split; try done; lia.
Qed.

Definition parse_block_tokens : P (list Token) :=
  next "block" (λ t, match t with TGroup Brace l => Some l | _ => None end).
Definition parse_pub : P () := λ ts,
  match ts with TIdent s :: ts' => (Ok (), if decide (s = "pub") then ts' else ts) | _ => (Ok (), ts) end.
Fixpoint outer (ts : list Token) : list (list Token) * list Token :=
  match ts with
  | TPunct s :: ((TGroup Bracket l :: ts') as tail) =>
      if decide (s = "#") then let '(attrs, rest) := outer ts' in (l :: attrs, rest) else ([], ts)
  | _ => ([], ts)
  end.
Definition parse_attributes : P (list (list Token)) := λ ts, let '(attrs, rest) := outer ts in (Ok attrs, rest).

Lemma outer_length : ∀ ts, length (outer ts).2 ≤ length ts.
Proof.
  fix IH 1. intros [|[s|s|b|s|d l|n] [|[s'|s'|b'|s'|[] l'|n'] ts]]; simpl; try lia.
  case_decide; simpl; [|lia]. specialize (IH ts). destruct (outer ts); simpl in *. lia.
Qed.

Lemma span_app e rest :
  Forall (λ t, is_punct "," t = false) e → match rest with [] => True | t :: _ => t = TPunct "," end →
  span (is_punct ",") (e ++ rest) = (e, rest).
Proof.
  intros He Hr. induction He as [|t e Ht _ IH]; simpl.
  - destruct rest as [|t rest]; [done|]. by rewrite Hr.
  - by rewrite Ht, IH.
Qed.

Fixpoint metas (ts : list Token) : list Meta :=
  match ts with
  | TIdent p :: TPunct _ :: v :: ts =>
      mkMeta p (Some match v with TStr s => LitStr s | _ => LitOther end) ::
      match ts with TPunct _ :: ts' => metas ts' | _ => metas ts end
  | TIdent p :: _ => [mkMeta p None]
  | _ => []
  end.

Lemma safe_pub : safe parse_pub.
Proof.
  intros [|[s| | | | |] ts]; unfold run_res, run_state; simpl; try (split; [done|lia]).
  case_decide; simpl; split; try done; lia.
Qed.
Lemma safe_attributes : safe parse_attributes.
Proof.
  intros ts. pose proof (outer_length ts) as Hl. unfold run_res, run_state, parse_attributes. by destruct (outer ts).
Qed.
Lemma expr_back e rest :
  e ≠ [] ∧ Forall (λ t, is_punct "," t = false) e →
  match rest with [] => True | t :: _ => t = TPunct "," end →
  one_or_more "expression" (span (is_punct ",")) (e ++ rest) = (Ok e, rest).
Proof. intros [He Hc] Hr. unfold one_or_more. rewrite span_app by done. by destruct e. Qed.

#[export, refine] Instance tokens_syn : Syn := {|
  Expr := list Token; Ty := list Token; Pattern := list Token; Block := list Token; Attribute := list Token;
  parse_expr := one_or_more "expression" (span (is_punct ","));
  parse_type := one_or_more "type" (type_span 0);
  parse_pat := one_or_more "pattern" (span (is_punct ":"));
  parse_block := parse_block_tokens; parse_visibility := parse_pub; parse_outer := parse_attributes;
  parse_ident := ident; parse_keyword := keyword; parse_punct := punct;
  parse_lit_str := lit_str; parse_lit_bool := lit_bool; parse_group := group;
  peek_punct c ts := match ts with t :: _ => is_punct c t | [] => false end; peek_group := at_group;
  parse_terminated := @terminated;
  expr_tokens e := e; expr_ok e := e ≠ [] ∧ Forall (λ t, is_punct "," t = false) e;
  is_reference ty := match ty with TPunct "&" :: _ => true | _ => false end;
  attr_is a name := match a with TIdent s :: _ => bool_decide (s = name) | _ => false end;
  attr_items a := (match a with [_; TGroup Parenthesis l] => metas l | _ => [] end, None);
  format_ident := identifier
|}.
Proof.
  - exact (safe_one_or_more _ _ (span_length _)).
  - exact (safe_one_or_more _ _ (type_span_length 0)).
  - exact (safe_one_or_more _ _ (span_length _)).
  - exact (safe_next _ _).
  - exact safe_pub.
  - exact safe_attributes.
  - exact (safe_next _ _).
  - exact (strict_next _ _).
  - exact (λ c, safe_next _ _).
  - exact (λ c, strict_next _ _).
  - exact (λ c, safe_next _ _).
  - exact (λ c, strict_next _ _).
  - exact (safe_next _ _).
  - exact (strict_next _ _).
  - exact (safe_next _ _).
  - exact (λ d, safe_next _ _).
  - exact @safe_terminated.
  - exact ident_reads.
  - exact punct_reads.
  - exact is_punct_same.
  - done.
  - done.
  - exact group_reads.
  - exact @terminated_reads.
  - exact expr_back.
Defined.

Definition path (p : list string) : list Token := tail (p ≫= λ s, [TPunct "::"; TIdent s]).
Definition comma_separated (l : list (list Token)) : list Token := tail (l ≫= λ e, TPunct "," :: e).
Definition LAST : list Token := path ["Reducer"; "LastWriteWins"].
Definition APPEND : list Token := path ["Reducer"; "Append"].
Definition field (key : string) (value : list Token) : list Token := TIdent key :: TPunct ":" :: value.
Definition flag (key : string) : list Token := field key [TBool true].
Definition channel (name : string) (fields : list (list Token)) : list Token :=
  [TStr name; TPunct ":"; TGroup Brace (comma_separated fields)].
Definition channels (l : list (list Token)) : list Token :=
  [TIdent "channels"; TPunct "="; TGroup Brace (comma_separated l)].

(** The values of the expressions of the sources. *)
Definition reducer_of (e : list Token) : Reducer :=
  match last e with
  | Some (TIdent s) => if decide (s = "Append") then Append else LastWriteWins
  | _ => LastWriteWins
  end.
Definition ev : Eval := mkEval reducer_of (λ e, match e with [TOther _] => None | _ => Some (Array []) end) (λ _, 0%Z).

(** [core_spec!] and [core_node!] *)
Definition core : Path := ["crate"].
End Tokens.

(** ** The sources *)

Section sources.
Import Tokens.
#[local] Existing Instance tokens_syn.

Definition last_flags (name : string) (flags : list string) : list Token :=
  channel name (field "reducer" LAST :: (flag <$> flags)).
Definition append_flags (name : string) (flags : list string) : list Token :=
  channel name (field "reducer" APPEND :: (flag <$> flags)).
Definition DEFAULT_CONTEXT : list Token := path ["Context"; "default"] ++ [TGroup Parenthesis []].
Definition DEFAULT_VALUES : list Token :=
  [TIdent "Vec"; TPunct "::"; TPunct "<"; TIdent "Value"; TPunct ">"; TPunct "::"; TIdent "default"; TGroup Parenthesis []].

Definition shell_tokens : list Token := channels [
  last_flags "tool_result" ["imported"]; last_flags "expert_answer" ["imported"]; last_flags "hitl_answer" ["imported"]].
Definition graph_tokens : list Token := channels [last_flags "graph_result" ["exported"]].
Definition tool_tokens : list Token := channels [last_flags "tool_result" ["exported"]].
Definition tool_aggregator_tokens : list Token := channels [append_flags "tool_result" ["imported"; "exported"]].
Definition expert_tokens : list Token := channels [
  last_flags "expert_task" ["inherited"];
  last_flags "expert_answer" ["exported"; "imported"];
  channel "expert_context" [field "reducer" LAST; field "default" DEFAULT_CONTEXT];
  channel "tool_result" [field "reducer" LAST; field "default" DEFAULT_VALUES; flag "inherited"; flag "imported"] ++
    [TPunct ","]].
Definition expert_aggregator_tokens : list Token := channels [
  last_flags "expert_task" ["inherited"]; append_flags "expert_answer" ["inherited"; "imported"; "exported"]].

(** [async fn name(self: .., param) -> ret { .. }] *)
Definition fn_tokens (name : string) (self param ret body : list Token) : list Token :=
  [TIdent "async"; TIdent "fn"; TIdent name;
   TGroup Parenthesis ([TIdent "self"; TPunct ":"; TIdent "Self"] ++ self ++ TPunct "," :: param); TPunct "->"] ++
  ret ++ [TGroup Brace body].
Definition attr_tokens (l : list Token) : list Token := [TPunct "#"; TGroup Bracket l].
Definition angles (l : list Token) : list Token := TPunct "<" :: l ++ [TPunct ">"].

Definition ask_expert_body : list Token := [TOther 0].
Definition ask_expert_spec_tokens : list Token := channels [
  last_flags "task" ["inherited"]; last_flags "expert_id" ["inherited"];
  last_flags "answer" ["exported"] ++ [TPunct ","]] ++ [TPunct ","].
Definition ask_expert_tokens : list Token :=
  [TIdent "spec"; TPunct "="; TGroup Brace ask_expert_spec_tokens] ++
  fn_tokens "ask_expert" [] [TIdent "ctx"; TPunct ":"; TPunct "&"; TIdent "mut"; TIdent "NodeContext"]
    (path ["crate"; "Result"] ++ angles [TIdent "FrameResult"]) ask_expert_body.

Definition run_frame_fields : list (string * list Token) :=
  [("models", [TIdent "Models"]); ("tools", [TIdent "Tools"]); ("graphs", [TIdent "Graphs"]); ("experts", [TIdent "Experts"])].
Definition run_frame_tokens : list Token :=
  attr_tokens [TIdent "job"; TGroup Parenthesis [TIdent "name"; TPunct "="; TStr "/marie/sessions/jobs/run-frame"]] ++
  TIdent "pub" :: fn_tokens "run_frame"
    (angles [TGroup Brace (comma_separated ((λ f, TIdent f.1 :: TPunct ":" :: f.2) <$> run_frame_fields))])
    [TIdent "args"; TPunct ":"; TIdent "RunFrameArgs"] [TIdent "FrameResponse"] [TOther 0].

(** [to_uppercase] of an ASCII letter. *)
Definition ascii_upper (s : string) : string :=
  match s with
  | String c EmptyString =>
      let n := nat_of_ascii c in
      if ((97 <=? n) && (n <=? 122))%nat then String (ascii_of_nat (n - 32)) EmptyString else s
  | _ => s
  end.

(** The expansion succeeds, and gives the one item that satisfies [Q]. *)
Definition yields {A} (r : Res MacroError (list (MacroError + A))) (Q : A → Prop) : Prop :=
  match r with Ok [inr g] => Q g | _ => False end.

(** The specifications of the sources, as tokens, expand to the definitions
    that the rest of the development gives of them; the node [ask_expert] has
    its name and its specification, and borrows its context as it is written;
    and the job [run_frame] has the name that its attribute gives, with the
    struct, its fields and the struct of its parameters. *)
Theorem sources_expand :
  Forall (λ '(tokens, s), (code ← map_err (λ _, ()) (expand_spec core tokens); run_spec core ev code) = Ok s)
    [(shell_tokens, spec_shell); (graph_tokens, spec_graph); (tool_tokens, spec_tool);
     (tool_aggregator_tokens, spec_tool_aggregator); (expert_tokens, spec_expert);
     (expert_aggregator_tokens, spec_expert_aggregator)] ∧
  yields (expand_node ascii_upper core ask_expert_tokens) (λ g,
    gn_struct g = "AskExpert" ∧ gn_name g = ASK_EXPERT ∧ run_spec core ev (gn_spec g) = Ok ask_expert_spec ∧
    (match sc_executor (gn_self g) with UnitStruct => True | _ => False end) ∧
    (match (gn_ctx g).2 with AsWritten (TPunct "&" :: _) => True | _ => False end)) ∧
  yields (expand ascii_upper job_kind run_frame_tokens) (λ g,
    g_struct g = "RunFrame" ∧ g_name g = RUN_FRAME ∧
    (match sc_executor (g_self g) with BraceStruct l => l = run_frame_fields | _ => False end) ∧
    (match sc_non_executor (g_self g) with UnitStruct => True | _ => False end) ∧
    sc_args (g_self g) = Some ("RunFrameParams", run_frame_fields) ∧ g_wrapped g = true ∧
    (match g_third g with NoThird => True | _ => False end)).
Proof.
  split; [repeat constructor; vm_compute; reflexivity|]. split; vm_compute; repeat split.
Qed.

(** A function [async fn __(self: Self, args: A) -> R {}] is well written. *)
Definition underscores_tokens : list Token :=
  fn_tokens "__" [] [TIdent "args"; TPunct ":"; TIdent "A"] [TIdent "R"] [].

Definition panics {A} (r : Res MacroError A) : bool := match r with Panic => true | _ => false end.
Lemma panics_eq {A} (r : Res MacroError A) : panics r = true → r = Panic.
Proof. by destruct r. Qed.
Lemma underscores_panic : expand ascii_upper job_kind underscores_tokens = Panic.
Proof. apply panics_eq. vm_compute. reflexivity. Qed.

Lemma macros_terminate_witness : ∃ items i,
  run_res parse_items underscores_tokens = Ok items ∧ i ∈ items ∧
  format_ident (to_pascal_case ascii_upper (it_fn_name i)) = Panic.
Proof. exact (proj1 (proj2 (macros_terminate ascii_upper core job_kind underscores_tokens)) underscores_panic). Defined.

Definition expr (l : list Token) : @Expr tokens_syn := l.
Definition demo_fields : list Field := [FImported true; FReducer (expr LAST); FImported false].
Lemma parse_channel_exact_witness :
  run_res parse_channel (channel_tokens "c" demo_fields ++ []) = Err (AlreadyDefined "imported").
Proof.
  eapply (proj1 (parse_channel_exact "c" demo_fields [] _) [FImported true; FReducer (expr LAST)] (FImported false) []);
    [reflexivity|vm_compute; repeat constructor; vm_compute; set_solver|vm_compute; by left].
  Unshelve. repeat constructor; done.
Defined.

(** Two channels of one name; the budget is an expression without JSON. *)
Definition demo_block : SpecBlock :=
  mkSpecBlock (Some (mkBudgetBlock None (Some (expr [TOther 7]))))
    [mkChannelBlock "c" (expr LAST) true false false None (Some (expr [TStr "v"]));
     mkChannelBlock "d" (expr APPEND) false true true (Some (expr DEFAULT_VALUES)) None;
     mkChannelBlock "c" (expr LAST) false false false None None].
(** A default that [serde_json] refuses. *)
Definition panicking_block : SpecBlock :=
  mkSpecBlock None [mkChannelBlock "c" (expr LAST) true false false (Some (expr [TOther 7])) None].

Lemma spec_block_roundtrip_witness :
  (∃ code s, expand_spec core (print_spec demo_block) = Ok code ∧ run_spec core ev code = Ok s ∧
    inherited_channels s = ["c"] ∧ exported_channels s = ["d"] ∧ overrides_channels s !! "c" = Some (Array [])) ∧
  ∃ code, expand_spec core (print_spec panicking_block) = Ok code ∧ run_spec core ev code = Panic.
Proof.
  split.
  - destruct (spec_block_roundtrip core ev demo_block) as (_&code&Hc&Hs&_).
    { split; [split; [exact I|split; [done|by repeat constructor]]|]. repeat constructor; done. }
    destruct Hs as (s&Hs&Hm); [split; repeat constructor; eexists; reflexivity|].
    exists code, s. split; [exact Hc|]. split; [exact Hs|].
    rewrite (means_inherited _ _ _ Hm), (means_exported _ _ _ Hm), (means_overrides _ _ _ Hm).
    vm_compute. repeat split.
  - destruct (spec_block_roundtrip core ev panicking_block) as (_&code&Hc&_&Hp).
    { split; [exact I|]. repeat constructor; done. }
    exists code. split; [exact Hc|]. apply Hp. intros [[[? [=]] _]%Forall_cons _].
Defined.
End sources.
