(* ===== verification/Text.v ===== *)
(** * Text as the sequence of its characters

    The command line works on the [char]s of a [str]: a text is the list of
    its code points.  The operations of the standard library that it uses are
    here: white space, trimming, splitting, replacing, decimal numbers, and the
    encoding of a text in UTF-8. *)

From Stdlib Require Import Ascii String.
From S2P Require Import Prelude.
Local Open Scope Z_scope.

Notation Text := (list Z) (only parsing).

(** A literal of the source. *)
Definition chars (s : string) : Text := (λ c, Z.of_N (N_of_ascii c)) <$> list_ascii_of_string s.

Definition QUOTE : Z := 34.
Definition BACKSLASH : Z := 92.
Definition OPEN : Z := 91.
Definition CLOSE : Z := 93.
Definition COMMA : Z := 44.
Definition EQUALS : Z := 61.
Definition SPACE : Z := 32.

(** [char::is_whitespace]: the property [White_Space] of Unicode. *)
Definition is_whitespace (c : Z) : bool :=
  ((9 <=? c) && (c <=? 13)) || (c =? 32) || (c =? 133) || (c =? 160) || (c =? 5760) ||
  ((8192 <=? c) && (c <=? 8202)) || (c =? 8232) || (c =? 8233) || (c =? 8239) || (c =? 8287) ||
  (c =? 12288).

Fixpoint trim_start (s : Text) : Text :=
  match s with
  | [] => []
  | c :: s' => if is_whitespace c then trim_start s' else s
  end.

(** [str::trim] *)
Definition trim (s : Text) : Text := reverse (trim_start (reverse (trim_start s))).

(** [str::split_once] on a character. *)
Fixpoint split_once (sep : Z) (s : Text) : option (Text * Text) :=
  match s with
  | [] => None
  | c :: s =>
      if c =? sep then Some ([], s) else (λ p, (c :: p.1, p.2)) <$> split_once sep s
  end.

(** [str::split] on a character. *)
Fixpoint split_on (sep : Z) (current s : Text) : list Text :=
  match s with
  | [] => [current]
  | c :: s => if c =? sep then current :: split_on sep [] s else split_on sep (current ++ [c]) s
  end.

Definition starts_with (c : Z) (s : Text) : bool := bool_decide (head s = Some c).
Definition ends_with_char (c : Z) (s : Text) : bool := bool_decide (last s = Some c).

(** [&s[1..s.len() - 1]] *)
Definition inner (s : Text) : Text := removelast (tail s).

(** [slice::join] *)
Fixpoint join (sep : Text) (l : list Text) : Text :=
  match l with
  | [] => []
  | [s] => s
  | s :: l => s ++ sep ++ join sep l
  end.

(** ** Decimal numbers *)

Definition is_i64 (z : Z) : bool := (- 2 ^ 63 <=? z) && (z <? 2 ^ 63).

Definition decimal_digit (c : Z) : option Z := if (48 <=? c) && (c <=? 57) then Some (c - 48) else None.

Definition parse_decimal (ds : Text) : option Z :=
  foldl (λ o c, a ← o; d ← decimal_digit c; Some (10 * a + d)) (Some 0) ds.

(** [str::parse::<i64>]: an optional sign, then at least one digit. *)
Definition parse_i64 (s : Text) : option Z :=
  z ← match s with
      | [] => None
      | c :: ds =>
          if c =? 43 then match ds with [] => None | _ => parse_decimal ds end
          else if c =? 45 then match ds with [] => None | _ => Z.opp <$> parse_decimal ds end
          else parse_decimal s
      end;
  if is_i64 z then Some z else None.

(** [str::parse::<usize>] *)
Definition parse_usize (s : Text) : option Z :=
  z ← match s with
      | [] => None
      | c :: ds => if c =? 43 then match ds with [] => None | _ => parse_decimal ds end else parse_decimal s
      end;
  if z <? 2 ^ 64 then Some z else None.

(** [i64::to_string]; twenty digits are enough. *)
Fixpoint decimal_digits (k : nat) (z : Z) : Text :=
  match k with
  | O => []
  | S k => if z <? 10 then [48 + z] else decimal_digits k (z / 10) ++ [48 + z mod 10]
  end.
Definition decimal (z : Z) : Text :=
  if z <? 0 then 45 :: decimal_digits 20 (- z) else decimal_digits 20 z.

(** ** UTF-8 *)

Definition utf8_char (c : Z) : list Z :=
  if c <? 128 then [c]
  else if c <? 2048 then [Z.lor 192 (Z.shiftr c 6); Z.lor 128 (Z.land c 63)]
  else if c <? 65536 then
    [Z.lor 224 (Z.shiftr c 12); Z.lor 128 (Z.land (Z.shiftr c 6) 63); Z.lor 128 (Z.land c 63)]
  else [Z.lor 240 (Z.shiftr c 18); Z.lor 128 (Z.land (Z.shiftr c 12) 63);
        Z.lor 128 (Z.land (Z.shiftr c 6) 63); Z.lor 128 (Z.land c 63)].

(** The bytes of a [String]. *)
Definition utf8 (s : Text) : string :=
  string_of_list_ascii ((λ b, ascii_of_N (Z.to_N b)) <$> (s ≫= utf8_char)).

(** ** Lemmas *)

Lemma join_cons sep s s' l : join sep (s :: s' :: l) = s ++ sep ++ join sep (s' :: l).
Proof. done. Qed.

Definition is_space (c : Z) : Prop := is_whitespace c = true.
Notation solid c := (is_whitespace c = false) (only parsing).

Lemma trim_start_solid c s : solid c → trim_start (c :: s) = c :: s.
Proof. intros Hc. simpl. by rewrite Hc. Qed.

Lemma trim_start_spaces w s : Forall is_space w → trim_start (w ++ s) = trim_start s.
Proof. induction 1 as [|c w Hc _ IH]; simpl; [done|]. unfold is_space in Hc. by rewrite Hc. Qed.

(** A text that starts and ends with a solid character is trimmed already. *)
Definition trimmed (s : Text) : Prop :=
  (∃ c s', s = c :: s' ∧ solid c) ∧ (∃ c s', s = s' ++ [c] ∧ solid c).

Lemma trim_trimmed w s : Forall is_space w → trimmed s → trim (w ++ s) = s.
Proof.
  intros Hw [(c&s1&Hs1&Hc) (d&s2&Hs2&Hd)]. unfold trim. rewrite trim_start_spaces by done.
  assert (trim_start s = s) as -> by (rewrite Hs1; by apply trim_start_solid).
  rewrite Hs2, reverse_app. simpl. rewrite Hd. by rewrite <- (reverse_snoc s2 d), reverse_involutive.
Qed.

Lemma trim_id s : trimmed s → trim s = s.
Proof. apply (trim_trimmed []). constructor. Qed.

Lemma trim_nonblank s : (∃ c, c ∈ s ∧ solid c) → ∃ c, c ∈ trim s ∧ solid c.
Proof.
  assert (∀ s, (∃ c, c ∈ s ∧ solid c) → ∃ c, c ∈ trim_start s ∧ solid c) as Hstart.
  { intros t. induction t as [|d t IH]; intros (c&Hc&Hs); simpl; [by apply elem_of_nil in Hc|].
    destruct (is_whitespace d) eqn:Ed; [|by exists c].
    apply IH. exists c. split; [|done]. apply elem_of_cons in Hc as [->|]; [congruence|done]. }
  intros Hs. unfold trim. apply Hstart in Hs as (c&Hc&Hs).
  destruct (Hstart (reverse (trim_start s))) as (d&Hd&Hds); [exists c; by rewrite elem_of_reverse|].
  exists d. by rewrite elem_of_reverse.
Qed.

Lemma inner_wrap a b s : inner (a :: s ++ [b]) = s.
Proof. unfold inner. simpl. apply removelast_last. Qed.

Lemma decimal_digit_of d : 0 ≤ d < 10 → decimal_digit (48 + d) = Some d.
Proof.
  intros [H0 H1]. unfold decimal_digit. rewrite (proj2 (Z.leb_le _ _)), (proj2 (Z.leb_le _ _)) by lia.
  simpl. f_equal. lia.
Qed.

Lemma parse_decimal_digits k z : 0 ≤ z < 10 ^ Z.of_nat k → parse_decimal (decimal_digits k z) = Some z.
Proof.
  revert z. induction k as [|k IH]; intros z Hz; cbn [decimal_digits].
  { change (10 ^ Z.of_nat 0) with 1 in Hz. by assert (z = 0) as -> by lia. }
  destruct (Z.ltb_spec z 10).
  - unfold parse_decimal. cbn [foldl]. cbn [mbind option_bind]. rewrite decimal_digit_of by lia. cbn. f_equal.
  - rewrite Nat2Z.inj_succ, Z.pow_succ_r in Hz by lia.
    unfold parse_decimal. rewrite foldl_snoc. fold (parse_decimal (decimal_digits k (z / 10))).
    rewrite IH by (split; [apply Z.div_pos; lia|apply Z.div_lt_upper_bound; lia]). simpl.
    rewrite decimal_digit_of by (apply Z.mod_pos_bound; lia). simpl. f_equal. by rewrite <- Z.div_mod by lia.
Qed.

Lemma decimal_digits_chars k z : 0 ≤ z → Forall (λ c, 48 ≤ c ≤ 57) (decimal_digits k z).
Proof.
  revert z. induction k as [|k IH]; intros z Hz; cbn [decimal_digits]; [constructor|].
  destruct (Z.ltb_spec z 10); [by repeat constructor; lia|].
  apply Forall_app. split; [apply IH, Z.div_pos; lia|]. repeat constructor; [|].
  all: assert (0 ≤ z mod 10 < 10) by (apply Z.mod_pos_bound; lia); lia.
Qed.

Lemma decimal_digits_nonempty k z : decimal_digits (S k) z ≠ [].
Proof. cbn [decimal_digits]. destruct (z <? 10); [done|]. by destruct (decimal_digits k (z / 10)). Qed.

(** Printing a 64-bit integer and reading it back. *)
Lemma parse_i64_decimal z : is_i64 z = true → parse_i64 (decimal z) = Some z.
Proof.
  intros Hz. pose proof Hz as Hz'. unfold is_i64 in Hz'. apply andb_true_iff in Hz' as [Hlo%Z.leb_le Hhi%Z.ltb_lt].
  assert (2 ^ 63 < 10 ^ Z.of_nat 20) as Hp by done.
  unfold decimal, parse_i64. destruct (Z.ltb_spec z 0).
  - destruct (decimal_digits 20 (- z)) as [|c ds] eqn:E; [by destruct (decimal_digits_nonempty 19 _ E)|].
    change (45 =? 43) with false. change (45 =? 45) with true. cbv iota.
    rewrite <- E, parse_decimal_digits by lia. cbn. by rewrite Z.opp_involutive, Hz.
  - destruct (decimal_digits 20 z) as [|c ds] eqn:E; [by destruct (decimal_digits_nonempty 19 _ E)|].
    pose proof (decimal_digits_chars 20 z ltac:(lia)) as Hc. rewrite E in Hc. apply Forall_cons in Hc as [Hc _].
    rewrite (proj2 (Z.eqb_neq c 43)), (proj2 (Z.eqb_neq c 45)) by lia.
    rewrite <- E, parse_decimal_digits by lia. simpl. by rewrite Hz.
Qed.

Lemma digit_solid c : 48 ≤ c ≤ 57 → is_whitespace c = false.
Proof.
  intros Hc. unfold is_whitespace.
  repeat match goal with
  | |- context [?a <=? ?b] => destruct (Z.leb_spec a b); [try lia|try lia]
  | |- context [?a =? ?b] => destruct (Z.eqb_spec a b); [lia|]
  end; done.
Qed.

Lemma decimal_digits_last k z : 0 ≤ z → ∃ d s, decimal_digits (S k) z = s ++ [d] ∧ is_whitespace d = false.
Proof.
  intros Hz. cbn [decimal_digits]. destruct (Z.ltb_spec z 10).
  - exists (48 + z), []. split; [done|]. apply digit_solid. lia.
  - eexists _, _. split; [reflexivity|]. apply digit_solid.
    assert (0 ≤ z mod 10 < 10) by (apply Z.mod_pos_bound; lia). lia.
Qed.

(** A number starts with a digit or a sign, and ends with a digit. *)
Lemma decimal_shape z :
  ∃ c s, decimal z = c :: s ∧ is_whitespace c = false ∧ c ≠ QUOTE ∧ c ≠ OPEN ∧
    ∃ d s', decimal z = s' ++ [d] ∧ is_whitespace d = false.
Proof.
  unfold decimal. destruct (Z.ltb_spec z 0).
  - destruct (decimal_digits_last 19 (- z) ltac:(lia)) as (d&s&Hd&Hw).
    exists 45, (decimal_digits 20 (- z)). split_and!; [done..|].
    exists d, (45 :: s). split; [|done]. by rewrite Hd.
  - destruct (decimal_digits_last 19 z ltac:(lia)) as (d&s&Hd&Hw).
    pose proof (decimal_digits_chars 20 z ltac:(lia)) as Hc.
    destruct (decimal_digits 20 z) as [|c s'] eqn:E; [by destruct s|].
    apply Forall_cons in Hc as [Hc _]. exists c, s'. unfold QUOTE, OPEN.
    split_and!; [done|by apply digit_solid|lia|lia|]. by exists d, s.
Qed.

Lemma parse_usize_decimal z : 0 ≤ z < 2 ^ 64 → parse_usize (decimal z) = Some z.
Proof.
  intros Hz. assert (2 ^ 64 < 10 ^ Z.of_nat 20) as Hp by done.
  unfold decimal, parse_usize. destruct (Z.ltb_spec z 0); [lia|].
  destruct (decimal_digits 20 z) as [|c ds] eqn:E; [by destruct (decimal_digits_nonempty 19 _ E)|].
  pose proof (decimal_digits_chars 20 z ltac:(lia)) as Hc. rewrite E in Hc. apply Forall_cons in Hc as [Hc _].
  rewrite (proj2 (Z.eqb_neq c 43)) by lia. rewrite <- E, parse_decimal_digits by lia. cbn.
  by rewrite (proj2 (Z.ltb_lt _ _)) by lia.
Qed.

Lemma decimal_chars z : Forall (λ c, 48 ≤ c ≤ 57 ∨ c = 45) (decimal z).
Proof.
  unfold decimal. destruct (Z.ltb_spec z 0); [constructor; [by right|]|].
  all: eapply Forall_impl; [apply decimal_digits_chars; lia|]; intros c Hc; by left.
Qed.

Lemma split_on_plain sep current s rest :
  sep ∉ s → split_on sep current (s ++ rest) = split_on sep (current ++ s) rest.
Proof.
  revert current. induction s as [|c s IH]; intros current Hs; simpl; [by rewrite app_nil_r|].
  apply not_elem_of_cons in Hs as [Hc Hs]. rewrite (proj2 (Z.eqb_neq c sep)) by congruence.
  rewrite IH by done. by rewrite <- app_assoc.
Qed.

(** Splitting on a separator that no piece holds undoes joining. *)
Lemma split_on_join sep s l :
  Forall (λ t, sep ∉ t) (s :: l) → split_on sep [] (join [sep] (s :: l)) = s :: l.
Proof.
  revert s. induction l as [|s' l IH]; intros s [Hs Hl]%Forall_cons.
  - cbn [join]. rewrite <- (app_nil_r s) at 1. by rewrite split_on_plain.
  - rewrite join_cons, split_on_plain by done. cbn [app split_on]. rewrite Z.eqb_refl. by rewrite IH.
Qed.
