(* ===== verification/Cli.v ===== *)
(** * The grammar of the command line ([marie-cli/src/repl/tokenizer.rs],
    [args.rs], [error.rs])

    A line is cut into tokens; the tokens of a command are positional
    arguments followed by [key=value] flags, whose values are texts, booleans,
    comma-separated lists or the JSON values of a channel. *)

From Stdlib Require Import Ascii String.
From S2P Require Import Prelude Json Channels Text.
Local Open Scope Z_scope.

Inductive CliError :=
  | Usage (msg : string)
  | UnknownCommand (state command : string)
  | Marie (msg : string)
  | Io (msg : string).

(** ** The tokenizer *)

Inductive Mode := Normal | Quoted | Bracketed (depth : Z).

Definition UNCLOSED_QUOTE : string := "guillemet non fermé".
Definition UNCLOSED_BRACKET : string := "crochet non fermé".

(** The loop of [tokenize]: [has] is [has_current]; the depth of the brackets
    stays far below the bounds of its [u32]. *)
Fixpoint tokenize_loop (mode : Mode) (tokens : list Text) (current : Text) (has : bool) (line : Text) :
    Res CliError (list Text) :=
  match line with
  | [] =>
      match mode with
      | Quoted => Err (Usage UNCLOSED_QUOTE)
      | Bracketed _ => Err (Usage UNCLOSED_BRACKET)
      | Normal => Ok (if has then tokens ++ [current] else tokens)
      end
  | c :: line =>
      match mode with
      | Normal =>
          if is_whitespace c
          then (if has then tokenize_loop Normal (tokens ++ [current]) [] false line
                else tokenize_loop Normal tokens current has line)
          else if c =? QUOTE then tokenize_loop Quoted tokens (current ++ [c]) true line
          else if c =? OPEN then tokenize_loop (Bracketed 1) tokens (current ++ [c]) true line
          else tokenize_loop Normal tokens (current ++ [c]) true line
      | Quoted =>
          let other :=
            if c =? QUOTE then tokenize_loop Normal tokens (current ++ [c]) has line
            else tokenize_loop Quoted tokens (current ++ [c]) has line in
          match line with
          | d :: line' =>
              if (c =? BACKSLASH) && (d =? QUOTE)
              then tokenize_loop Quoted tokens (current ++ [QUOTE]) has line'
              else other
          | [] => other
          end
      | Bracketed depth =>
          if c =? OPEN then tokenize_loop (Bracketed (depth + 1)) tokens (current ++ [c]) has line
          else if c =? CLOSE
          then tokenize_loop (if depth <=? 1 then Normal else Bracketed (depth - 1)) tokens (current ++ [c]) has line
          else tokenize_loop (Bracketed depth) tokens (current ++ [c]) has line
      end
  end.

Definition tokenize (line : Text) : Res CliError (list Text) := tokenize_loop Normal [] [] false line.

(** ** Arguments *)

(** [replace]: a backslash before a quote is removed. *)
Fixpoint unescape (s : Text) : Text :=
  match s with
  | [] => []
  | c :: s' =>
      match s' with
      | d :: s'' => if (c =? BACKSLASH) && (d =? QUOTE) then QUOTE :: unescape s'' else c :: unescape s'
      | [] => [c]
      end
  end.

Definition is_quoted (s : Text) : bool :=
  (2 <=? length s)%nat && starts_with QUOTE s && ends_with_char QUOTE s.

Definition unquote (raw : Text) : Text :=
  let s := trim raw in if is_quoted s then unescape (inner s) else s.

Record CommandArgs := mkArgs { positionals : list Text; flags : gmap Text Text }.

(** The number of a message, as [usize] prints it. *)
Definition show_nat (n : nat) : string := utf8 (decimal (Z.of_nat n)).

Fixpoint parse_flags (tokens : list Text) (fs : gmap Text Text) : Res CliError (gmap Text Text) :=
  match tokens with
  | [] => Ok fs
  | token :: tokens =>
      match split_once EQUALS token with
      | None => Err (Usage ("argument invalide (attendu key=value): " ++ utf8 token)%string)
      | Some (key, value) =>
          match fs !! key with
          | Some _ => Err (Usage ("argument dupliqué: " ++ utf8 key)%string)
          | None => parse_flags tokens (<[key := value]> fs)
          end
      end
  end.

Definition parse_command_args (tokens : list Text) (n_positional : nat) : Res CliError CommandArgs :=
  if decide (length tokens < n_positional)%nat
  then Err (Usage ("attendu au moins " ++ show_nat n_positional ++
         " argument(s) positionnel(s), trouvé " ++ show_nat (length tokens))%string)
  else fs ← parse_flags (drop n_positional tokens) ∅;
       mret (mkArgs (unquote <$> take n_positional tokens) fs).

Definition positional (i : nat) (a : CommandArgs) : Res CliError Text :=
  of_option (Usage ("argument positionnel manquant #" ++ show_nat i)%string) (positionals a !! i).

Definition flag_str (key : Text) (a : CommandArgs) : option Text := flags a !! key.
Definition flag_text (key : Text) (a : CommandArgs) : option Text := unquote <$> flags a !! key.

Definition flag_bool_opt (key : Text) (a : CommandArgs) : Res CliError (option bool) :=
  match flag_str key a with
  | None => Ok None
  | Some v =>
      if decide (v = chars "true") then Ok (Some true)
      else if decide (v = chars "false") then Ok (Some false)
      else Err (Usage ("valeur booléenne invalide pour " ++ utf8 key ++ ": " ++ utf8 v)%string)
  end.

Definition flag_bool (key : Text) (absent : bool) (a : CommandArgs) : Res CliError bool :=
  o ← flag_bool_opt key a; mret (default absent o).

Definition flag_csv (key : Text) (a : CommandArgs) : list Text :=
  match flag_str key a with
  | None => []
  | Some s => filter (λ v, v ≠ []) (trim <$> split_on COMMA [] s)
  end.

Definition flag_reducer (key : Text) (a : CommandArgs) : Res CliError (option Reducer) :=
  match flag_str key a with
  | None => Ok None
  | Some v =>
      if decide (v = chars "append") then Ok (Some Append)
      else if decide (v = chars "lww") then Ok (Some LastWriteWins)
      else if decide (v = chars "max") then Ok (Some Max)
      else Err (Usage ("reducer inconnu: " ++ utf8 v ++ " (attendu append|lww|max)")%string)
  end.

(** ** The value of a channel *)

(** [str::parse::<f64>], as the bits of the double. *)
Class ParseF64 := { parse_f64 : Text → option Z }.

Fixpoint split_commas (depth : Z) (current s : Text) : list Text :=
  match s with
  | [] => [current]
  | c :: s =>
      if c =? OPEN then split_commas (depth + 1) (current ++ [c]) s
      else if c =? CLOSE then split_commas (depth - 1) (current ++ [c]) s
      else if (c =? COMMA) && (depth =? 0) then current :: split_commas depth [] s
      else split_commas depth (current ++ [c]) s
  end.

Definition split_top_level_commas (s : Text) : list Text := split_commas 0 [] s.

Section values.
Context `{ParseF64}.

Definition is_list (s : Text) : bool := starts_with OPEN s && ends_with_char CLOSE s.

(** The loop over the items of a list. *)
Definition parse_items (parse : Text → Res CliError Value) : list Text → Res CliError (list Value) :=
  fix go (items : list Text) : Res CliError (list Value) :=
    match items with
    | [] => Ok []
    | item :: items =>
        let item := trim item in
        if decide (item = []) then go items
        else v ← parse item; vs ← go items; mret (v :: vs)
    end.

Definition parse_scalar (s : Text) : Value :=
  match parse_i64 s with
  | Some i => Num (NInt i)
  | None =>
      match parse_f64 s with
      | Some f => json_of_f64 f
      | None => Str (utf8 s)
      end
  end.

(** [Panic] is what running out of fuel gives. *)
Fixpoint parse_value_fuel (fuel : nat) (raw : Text) : Res CliError Value :=
  match fuel with
  | O => Panic
  | S fuel =>
      let s := trim raw in
      if decide (s = []) then Ok (Str "")
      else if decide (s = [QUOTE; QUOTE]) then Ok (Str "")
      else if is_quoted s then Ok (Str (utf8 (unquote s)))
      else if is_list s then
        values ← parse_items (parse_value_fuel fuel) (split_top_level_commas (inner s)); mret (Array values)
      else Ok (parse_scalar s)
  end.

(** Every item of a list is shorter than the list. *)
Definition parse_value (raw : Text) : Res CliError Value := parse_value_fuel (S (length raw)) raw.

Definition flag_value (key : Text) (a : CommandArgs) : Res CliError (option Value) :=
  match flag_str key a with
  | None => Ok None
  | Some s => v ← parse_value s; mret (Some v)
  end.
End values.

(** ** The tokenizer reads back what is quoted *)

(** How a user writes a text as one argument. *)
Definition escape (s : Text) : Text := s ≫= λ c, if c =? QUOTE then [BACKSLASH; QUOTE] else [c].
Definition quoted (s : Text) : Text := QUOTE :: s ++ [QUOTE].
Definition quote (s : Text) : Text := quoted (escape s).

(** No backslash comes before a quote, the closing one included: elsewhere
    a backslash is a character like another. *)
Fixpoint no_escape (s : Text) : Prop :=
  match s with
  | [] => True
  | c :: s' => (c = BACKSLASH → ∃ d, head s' = Some d ∧ d ≠ QUOTE) ∧ no_escape s'
  end.

#[export] Instance no_escape_dec s : Decision (no_escape s).
Proof.
  induction s as [|c s IH]; simpl; [by left|]. apply and_dec; [|done].
  destruct (decide (c = BACKSLASH)) as [->|Hc]; [|by left].
  destruct s as [|d s]; simpl; [right; intros Hd; by destruct (Hd eq_refl) as (?&?&_)|].
  destruct (decide (d = QUOTE)) as [->|Hd]; [|left; by exists d].
  right. intros Hd. by destruct (Hd eq_refl) as (?&[= <-]&?).
Defined.

(** The characters of a bare word: no space, quote, or opening bracket. *)
Definition bare (s : Text) : Prop :=
  Forall (λ c, is_whitespace c = false ∧ c ≠ QUOTE ∧ c ≠ OPEN) s.

Lemma tokenize_bare tokens current has s rest :
  bare s → s ≠ [] →
  tokenize_loop Normal tokens current has (s ++ rest) = tokenize_loop Normal tokens (current ++ s) true rest.
Proof.
  intros Hs. revert current has. induction Hs as [|c s (Hw&Hq&Ho) Hs IH]; intros current has Hne; [done|].
  simpl. rewrite Hw, (proj2 (Z.eqb_neq _ _) Hq), (proj2 (Z.eqb_neq _ _) Ho).
  destruct s as [|d s]; [done|]. rewrite (IH _ true) by done. by rewrite <- app_assoc.
Qed.

Lemma tokenize_escaped tokens current s rest :
  no_escape s →
  tokenize_loop Quoted tokens current true (escape s ++ QUOTE :: rest) =
    tokenize_loop Normal tokens (current ++ s ++ [QUOTE]) true rest.
Proof.
  revert current. induction s as [|c s IH]; intros current Hs; unfold escape; simpl.
  - by destruct rest.
  - destruct Hs as [Hc Hs]. change (s ≫= _) with (escape s).
    destruct (Z.eqb_spec c QUOTE) as [->|Hq]; simpl.
    + rewrite IH by done. by rewrite <- app_assoc.
    + rewrite (proj2 (Z.eqb_neq c QUOTE)) by done.
      transitivity (tokenize_loop Quoted tokens (current ++ [c]) true (escape s ++ QUOTE :: rest)).
      { change (list_bind _ _ _ s) with (escape s). destruct (Z.eqb_spec c BACKSLASH) as [Hb|Hb].
        - destruct (Hc Hb) as (d&Hd&Hne). destruct s as [|d' s]; [done|]. injection Hd as ->.
          unfold escape. simpl. rewrite (proj2 (Z.eqb_neq d QUOTE)) by done. simpl.
          by rewrite (proj2 (Z.eqb_neq d QUOTE)) by done.
        - by destruct (escape s ++ QUOTE :: rest). }
      rewrite IH by done. by rewrite <- app_assoc.
Qed.

Lemma tokenize_quote tokens current has s rest :
  no_escape s →
  tokenize_loop Normal tokens current has (quote s ++ rest) =
    tokenize_loop Normal tokens (current ++ quoted s) true rest.
Proof.
  intros Hs. unfold quote, quoted. simpl. rewrite <- app_assoc. simpl.
  rewrite tokenize_escaped by done. by rewrite <- app_assoc.
Qed.

(** What a word of the line is, and the token it becomes. *)
Inductive Word :=
  | Plain (s : Text)                     (* word *)
  | InQuotes (s : Text)                  (* "some text" *)
  | Flag (key value : Text).             (* key="some text" *)

Definition word_line (w : Word) : Text :=
  match w with
  | Plain s => s
  | InQuotes s => quote s
  | Flag key value => key ++ EQUALS :: quote value
  end.

Definition word_token (w : Word) : Text :=
  match w with
  | Plain s => s
  | InQuotes s => quoted s
  | Flag key value => key ++ EQUALS :: quoted value
  end.

Definition word_ok (w : Word) : Prop :=
  match w with
  | Plain s => bare s ∧ s ≠ []
  | InQuotes s => no_escape s
  | Flag key value => bare key ∧ EQUALS ∉ key ∧ no_escape value
  end.

Lemma tokenize_word tokens w rest :
  word_ok w →
  tokenize_loop Normal tokens [] false (word_line w ++ rest) = tokenize_loop Normal tokens (word_token w) true rest.
Proof.
  destruct w as [s|s|k v]; cbn [word_line word_token word_ok].
  - intros [Hs Hne]. by rewrite tokenize_bare.
  - intros Hs. by rewrite tokenize_quote.
  - intros (Hk&_&Hv).
    replace ((k ++ EQUALS :: quote v) ++ rest) with ((k ++ [EQUALS]) ++ quote v ++ rest)
      by by rewrite <- !app_assoc.
    rewrite tokenize_bare, tokenize_quote; [by rewrite app_nil_l, <- app_assoc|done| |by destruct k].
    apply Forall_app. split; [done|by repeat constructor].
Qed.

Lemma tokenize_words tokens w ws :
  Forall word_ok (w :: ws) →
  tokenize_loop Normal tokens [] false (join [SPACE] (word_line <$> w :: ws)) =
    Ok (tokens ++ (word_token <$> w :: ws)).
Proof.
  revert tokens w. induction ws as [|w' ws IH]; intros tokens w [Hw Hws]%Forall_cons.
  - simpl. rewrite <- (app_nil_r (word_line w)), tokenize_word by done. done.
  - rewrite !fmap_cons, join_cons, tokenize_word by done.
    change ([SPACE] ++ ?l) with (SPACE :: l). cbn [tokenize_loop].
    change (is_whitespace SPACE) with true. cbv iota.
    change (word_line w' :: (word_line <$> ws)) with (word_line <$> w' :: ws). rewrite IH by done.
    by rewrite <- app_assoc.
Qed.

(** ** The arguments read back what was written *)

Lemma unescape_plain s : no_escape s → unescape s = s.
Proof.
  induction s as [|c s IH]; [done|]. intros [Hc Hs]. simpl. destruct s as [|d s]; [done|].
  rewrite IH by done. destruct (Z.eqb_spec c BACKSLASH) as [Hb|]; [|done].
  destruct (Hc Hb) as (d'&[= <-]&Hd). by rewrite (proj2 (Z.eqb_neq d QUOTE)).
Qed.

Lemma trimmed_wrap a b s : is_whitespace a = false → is_whitespace b = false → trimmed (a :: s ++ [b]).
Proof. intros Ha Hb. split; [by exists a, (s ++ [b])|by exists b, (a :: s)]. Qed.

Lemma trimmed_quoted s : trimmed (quoted s).
Proof. by apply trimmed_wrap. Qed.

Lemma is_quoted_quoted s : is_quoted (quoted s) = true.
Proof.
  unfold is_quoted, quoted, starts_with, ends_with_char. rewrite app_comm_cons, last_snoc.
  rewrite !bool_decide_true by done. rewrite !andb_true_r. apply Nat.leb_le. rewrite length_app. simpl. lia.
Qed.

Lemma unquote_quoted s : no_escape s → unquote (quoted s) = s.
Proof.
  intros Hs. unfold unquote. rewrite trim_id by apply trimmed_quoted. rewrite is_quoted_quoted.
  unfold quoted. rewrite inner_wrap. by apply unescape_plain.
Qed.

Lemma trimmed_bare s : bare s → s ≠ [] → trimmed s.
Proof.
  intros Hs Hne. split.
  - destruct s as [|c s]; [done|]. apply Forall_cons in Hs as [(?&_) _]. eauto.
  - destruct s as [|c s _] using rev_ind; [done|]. apply Forall_app in Hs as [_ [(?&_) _]%Forall_cons]. eauto.
Qed.

Lemma unquote_bare s : bare s → s ≠ [] → unquote s = s.
Proof.
  intros Hs Hne. unfold unquote. rewrite trim_id by by apply trimmed_bare.
  assert (is_quoted s = false) as ->; [|done]. unfold is_quoted, starts_with.
  destruct s as [|c s]; [done|]. apply Forall_cons in Hs as [(_&Hq&_) _].
  simpl head. rewrite (bool_decide_false (Some c = _)) by congruence. by rewrite andb_false_r.
Qed.

Lemma split_once_key key value : EQUALS ∉ key → split_once EQUALS (key ++ EQUALS :: value) = Some (key, value).
Proof.
  induction key as [|c key IH]; [done|]. intros [Hc Hk]%not_elem_of_cons. simpl.
  rewrite (proj2 (Z.eqb_neq c EQUALS)) by congruence. by rewrite IH.
Qed.

Lemma parse_flags_spec kvs fs :
  Forall (λ kv, EQUALS ∉ kv.1) kvs → NoDup kvs.*1 → (∀ k, k ∈ kvs.*1 → fs !! k = None) →
  parse_flags ((λ kv, kv.1 ++ EQUALS :: kv.2) <$> kvs) fs = Ok (list_to_map kvs ∪ fs).
Proof.
  revert fs. induction kvs as [|[k v] kvs IH]; intros fs He Hnd Hfs; simpl.
  - by rewrite (left_id_L ∅ (∪)).
  - apply Forall_cons in He as [Hk He]. apply NoDup_cons in Hnd as [Hn Hnd]. simpl in *.
    rewrite split_once_key, Hfs by (done || by left). rewrite IH; [|done..|].
    + f_equal. rewrite <- insert_union_l, insert_union_r; [done|].
      by apply not_elem_of_list_to_map_1.
    + intros k' Hk'. rewrite lookup_insert_ne by (intros ->; done). apply Hfs. by right.
Qed.

(** The text that a positional word gives. *)
Definition word_text (w : Word) : Text :=
  match w with Plain s | InQuotes s => s | Flag key value => key ++ EQUALS :: value end.
Definition is_positional (w : Word) : Prop := match w with Flag _ _ => False | _ => True end.

Lemma unquote_word w : word_ok w → is_positional w → unquote (word_token w) = word_text w.
Proof. destruct w; simpl; [|intros ? _; by apply unquote_quoted|done]. intros [? ?] _. by apply unquote_bare. Qed.

Notation flag_word kv := (Flag kv.1 kv.2).

(** A command is read back as it was written: whatever the texts, spaces,
    equal signs, brackets and quotes included, that a user passes as quoted
    arguments and quoted flags, with distinct flag names and no backslash
    before a quote or at the end of a text, the tokens of the
    line parse to exactly these positional arguments and these flags. *)
Theorem command_roundtrip (ps : list Word) (kvs : list (Text * Text)) :
  Forall word_ok ps → Forall is_positional ps →
  Forall (λ kv, word_ok (flag_word kv)) kvs → NoDup kvs.*1 →
  ∃ tokens args,
    tokenize (join [SPACE] (word_line <$> ps ++ ((λ kv, flag_word kv) <$> kvs))) = Ok tokens ∧
    parse_command_args tokens (length ps) = Ok args ∧
    positionals args = word_text <$> ps ∧
    ∀ key, flag_text key args = (list_to_map kvs : gmap Text Text) !! key.
Proof.
  intros Hps Hpos Hkv Hnd. set (ws := ps ++ ((λ kv, flag_word kv) <$> kvs)).
  exists (word_token <$> ws), (mkArgs (word_text <$> ps) (list_to_map ((λ kv, (kv.1, quoted kv.2)) <$> kvs))).
  assert (Forall word_ok ws) as Hws by (apply Forall_app; split; [done|by apply Forall_fmap]).
  split_and!.
  - unfold tokenize. destruct ws as [|w ws]; [done|]. by rewrite tokenize_words.
  - unfold parse_command_args, ws. rewrite length_fmap, length_app, decide_False by lia.
    rewrite fmap_app, drop_app_length', take_app_length' by by rewrite length_fmap.
    assert (word_token <$> ((λ kv, flag_word kv) <$> kvs) =
      (λ kv, kv.1 ++ EQUALS :: kv.2) <$> ((λ kv : Text * Text, (kv.1, quoted kv.2)) <$> kvs)) as ->.
    { by rewrite <- !list_fmap_compose. }
    rewrite parse_flags_spec.
    + cbn. do 2 f_equal; [|by rewrite (right_id_L ∅ (∪))]. rewrite <- list_fmap_compose.
      apply list_fmap_ext. intros i w Hi. apply unquote_word.
      * by eapply Forall_lookup_1 in Hps.
      * by eapply Forall_lookup_1 in Hpos.
    + apply Forall_fmap. eapply Forall_impl; [exact Hkv|]. by intros kv (_&?&_).
    + by rewrite <- list_fmap_compose.
    + intros k _. apply lookup_empty.
  - done.
  - intros key. unfold flag_text. cbn [flags]. clear -Hkv. induction kvs as [|[k v] kvs IH]; [done|].
    apply Forall_cons in Hkv as [(_&_&Hv) Hkv]. cbn [fmap list_fmap list_to_map foldr curry]. simpl.
    destruct (decide (key = k)) as [->|Hne].
    + rewrite !lookup_insert_eq. simpl. by rewrite unquote_quoted.
    + rewrite !lookup_insert_ne by done. by apply IH.
Qed.

(** ** Reading a value *)

Lemma length_trim_start s : (length (trim_start s) ≤ length s)%nat.
Proof. induction s as [|c s IH]; simpl; [done|]. destruct (is_whitespace c); simpl; lia. Qed.

Lemma length_trim s : (length (trim s) ≤ length s)%nat.
Proof. unfold trim. rewrite length_reverse. etrans; [apply length_trim_start|]. rewrite length_reverse. apply length_trim_start. Qed.

Lemma length_inner s : s ≠ [] → (length (inner s) < length s)%nat.
Proof.
  unfold inner. destruct s as [|c s]; [done|]. intros _. simpl.
  destruct s as [|d s _] using rev_ind; simpl; [lia|]. rewrite removelast_last, length_app. simpl. lia.
Qed.

Lemma length_split_commas depth current s item :
  item ∈ split_commas depth current s → (length item ≤ length current + length s)%nat.
Proof.
  revert depth current. induction s as [|c s IH]; intros depth current; simpl.
  - intros ->%list_elem_of_singleton. lia.
  - assert (∀ d, item ∈ split_commas d (current ++ [c]) s → length item ≤ length current + S (length s))%nat as Hp.
    { intros d Hi%IH. rewrite length_app in Hi. simpl in Hi. lia. }
    destruct (c =? OPEN); [apply Hp|]. destruct (c =? CLOSE); [apply Hp|].
    destruct ((c =? COMMA) && (depth =? 0)); [|apply Hp].
    intros [->|Hi%IH]%elem_of_cons; simpl in *; lia.
Qed.

Section value_laws.
Context `{ParseF64}.

Lemma parse_items_ok parse items :
  (∀ item, item ∈ items → ∃ v, parse (trim item) = Ok v) → ∃ vs, parse_items parse items = Ok vs.
Proof.
  induction items as [|item items IH]; intros Hp; simpl; [by eexists|].
  destruct IH as [vs Hvs]; [intros i Hi; apply Hp; by right|].
  case_decide; [by eexists|]. destruct (Hp item) as [v Hv]; [by left|].
  exists (v :: vs). cbn. rewrite Hv. cbn. by rewrite Hvs.
Qed.

Lemma parse_items_ext parse parse' items :
  (∀ item, item ∈ items → parse (trim item) = parse' (trim item)) →
  parse_items parse items = parse_items parse' items.
Proof.
  induction items as [|item items IH]; intros Hp; simpl; [done|].
  rewrite Hp by by left. rewrite IH; [done|]. intros i Hi. apply Hp. by right.
Qed.

Lemma list_item_short raw item :
  is_list (trim raw) = true → item ∈ split_top_level_commas (inner (trim raw)) →
  (length (trim item) < length raw)%nat.
Proof.
  intros Hl Hi%length_split_commas. simpl in Hi.
  pose proof (length_trim item). pose proof (length_trim raw).
  assert (length (inner (trim raw)) < length (trim raw))%nat; [|lia].
  apply length_inner. intros E. by rewrite E in Hl.
Qed.

Lemma parse_value_fuel_ok fuel raw :
  (length raw < fuel)%nat →
  (∃ v, parse_value_fuel fuel raw = Ok v) ∧
  ∀ fuel', (length raw < fuel')%nat → parse_value_fuel fuel' raw = parse_value_fuel fuel raw.
Proof.
  revert raw. induction fuel as [|fuel IH]; intros raw Hf; [lia|].
  assert (∀ item, is_list (trim raw) = true → item ∈ split_top_level_commas (inner (trim raw)) →
    (length (trim item) < fuel)%nat) as Hs.
  { intros item Hl Hi. pose proof (list_item_short raw item Hl Hi). lia. }
  split.
  - cbn [parse_value_fuel]. do 2 (case_decide; [by eexists|]). destruct (is_quoted (trim raw)); [by eexists|].
    destruct (is_list (trim raw)) eqn:El; [|by eexists].
    destruct (parse_items_ok (parse_value_fuel fuel) (split_top_level_commas (inner (trim raw)))) as [vs ->].
    { intros item Hi. apply IH. by apply Hs. }
    by eexists.
  - intros [|fuel'] Hf'; [lia|]. cbn [parse_value_fuel]. do 2 (case_decide; [done|]).
    destruct (is_quoted (trim raw)); [done|]. destruct (is_list (trim raw)) eqn:El; [|done].
    f_equal. apply parse_items_ext. intros item Hi. apply IH; [by apply Hs|].
    pose proof (list_item_short raw item El Hi). lia.
Qed.

(** The equations of [parse_value], without the fuel. *)
Lemma parse_value_list raw :
  is_quoted (trim raw) = false → is_list (trim raw) = true →
  parse_value raw =
    (values ← parse_items parse_value (split_top_level_commas (inner (trim raw))); mret (Array values)).
Proof.
  intros Hq Hl. unfold parse_value at 1. cbn [parse_value_fuel].
  rewrite decide_False by (intros E; by rewrite E in Hl).
  rewrite decide_False by (intros E; by rewrite E in Hl).
  rewrite Hq, Hl. f_equal. apply parse_items_ext. intros item Hi. symmetry.
  apply parse_value_fuel_ok; [by apply list_item_short|lia].
Qed.

Lemma parse_value_quoted s :
  no_escape s → parse_value (quoted s) = Ok (Str (utf8 s)).
Proof.
  intros Hs. unfold parse_value. cbn [parse_value_fuel]. rewrite trim_id by apply trimmed_quoted.
  rewrite decide_False by done. rewrite is_quoted_quoted, unquote_quoted by done.
  case_decide as E; [|done]. unfold quoted in E. destruct s as [|c s]; [done|]. by destruct s.
Qed.

Lemma parse_value_int z : is_i64 z = true → parse_value (decimal z) = Ok (Num (NInt z)).
Proof.
  intros Hz. pose proof (parse_i64_decimal z Hz) as Hp.
  assert (∃ c s, decimal z = c :: s ∧ is_whitespace c = false ∧ c ≠ QUOTE ∧ c ≠ OPEN ∧
    ∃ d s', decimal z = s' ++ [d] ∧ is_whitespace d = false) as (c&s&Hc&Hw&Hq&Ho&d&s'&Hd&Hdw).
  { apply decimal_shape. }
  unfold parse_value. cbn [parse_value_fuel].
  rewrite trim_id by (split; [by exists c, s|by exists d, s']).
  assert (decimal z ≠ []) by by rewrite Hc. rewrite decide_False by done.
  rewrite decide_False by (rewrite Hc; intros [= E _]; by apply Hq).
  assert (is_quoted (decimal z) = false) as ->.
  { unfold is_quoted, starts_with. rewrite Hc. simpl head. rewrite bool_decide_false by (intros [= E]; by apply Hq). by rewrite andb_false_r. }
  assert (is_list (decimal z) = false) as ->.
  { unfold is_list, starts_with. rewrite Hc. simpl head. by rewrite bool_decide_false by (intros [= E]; by apply Ho). }
  unfold parse_scalar. by rewrite Hp.
Qed.
End value_laws.

(** Reading a value ends, for every text, with a value and never with an
    error, and the fuel given, one more than the length, is as good as any. *)
Theorem parse_value_total `{ParseF64} (raw : Text) :
  (∃ v, parse_value raw = Ok v) ∧
  ∀ fuel, (length raw < fuel)%nat → parse_value_fuel fuel raw = parse_value raw.
Proof. apply parse_value_fuel_ok. lia. Qed.

(** ** How a value is written *)

Inductive Literal :=
  | LInt (z : Z)
  | LText (t : Text)
  | LList (l : list Literal).

Section literal_ind.
Context (P : Literal → Prop) (Hint : ∀ z, P (LInt z)) (Htext : ∀ t, P (LText t))
  (Hlist : ∀ l, Forall P l → P (LList l)).

Fixpoint literal_ind' (v : Literal) : P v :=
  match v with
  | LInt z => Hint z
  | LText t => Htext t
  | LList l => Hlist l ((fix go (l : list Literal) : Forall P l :=
      match l with [] => Forall_nil_2 _ | v :: l => Forall_cons_2 _ _ _ (literal_ind' v) (go l) end) l)
  end.
End literal_ind.

Fixpoint render (v : Literal) : Text :=
  match v with
  | LInt z => decimal z
  | LText t => quoted t
  | LList l => OPEN :: join [COMMA; SPACE] (map render l) ++ [CLOSE]
  end.

Fixpoint value_of (v : Literal) : Value :=
  match v with
  | LInt z => Num (NInt z)
  | LText t => Str (utf8 t)
  | LList l => Array (map value_of l)
  end.

(** No bracket and no comma: inside a list, quotes do not protect them. *)
Definition list_char (c : Z) : bool := negb ((c =? OPEN) || (c =? CLOSE) || (c =? COMMA)).

Fixpoint literal_ok (v : Literal) : bool :=
  match v with
  | LInt z => is_i64 z
  | LText t => forallb list_char t && bool_decide (no_escape t)
  | LList l => forallb literal_ok l
  end.

Lemma split_commas_plain depth current s rest :
  forallb list_char s = true →
  split_commas depth current (s ++ rest) = split_commas depth (current ++ s) rest.
Proof.
  revert current. induction s as [|c s IH]; intros current; simpl; [by rewrite app_nil_r|].
  intros [Hc Hs]%andb_true_iff. unfold list_char in Hc. rewrite negb_true_iff, !orb_false_iff in Hc.
  destruct Hc as [[-> ->] ->]. simpl. rewrite IH by done. by rewrite <- app_assoc.
Qed.

(** A text whose brackets are balanced, and whose commas are inside them. *)
Definition balanced (s : Text) : Prop := ∀ depth current rest,
  0 ≤ depth → split_commas depth current (s ++ rest) = split_commas depth (current ++ s) rest.

Lemma split_commas_inside depth current l rest :
  0 < depth → Forall balanced l →
  split_commas depth current (join [COMMA; SPACE] l ++ rest) =
    split_commas depth (current ++ join [COMMA; SPACE] l) rest.
Proof.
  intros Hd Hl. revert current. induction Hl as [|s l Hs Hl IH]; intros current.
  - simpl. by rewrite app_nil_r.
  - destruct l as [|s' l]; [simpl; apply Hs; lia|]. rewrite join_cons, <- app_assoc, Hs by lia.
    change (([COMMA; SPACE] ++ ?x) ++ ?y) with (COMMA :: SPACE :: x ++ y).
    cbn [split_commas]. change (COMMA =? OPEN) with false. change (COMMA =? CLOSE) with false.
    change (SPACE =? OPEN) with false. change (SPACE =? CLOSE) with false.
    change (SPACE =? COMMA) with false. rewrite (proj2 (Z.eqb_neq depth 0)) by lia.
    rewrite andb_false_r. cbn [andb]. rewrite IH. by rewrite <- !app_assoc.
Qed.

Lemma balanced_list l : Forall balanced l → balanced (OPEN :: join [COMMA; SPACE] l ++ [CLOSE]).
Proof.
  intros Hl depth current rest Hd. cbn [app split_commas]. change (OPEN =? OPEN) with true. cbv iota.
  rewrite <- app_assoc, split_commas_inside by (done || lia). cbn [app split_commas].
  change (CLOSE =? OPEN) with false. change (CLOSE =? CLOSE) with true. cbv iota.
  replace (depth + 1 - 1) with depth by lia. by rewrite <- !app_assoc.
Qed.

Lemma split_commas_items current s l :
  Forall balanced (s :: l) →
  split_commas 0 current (join [COMMA; SPACE] (s :: l)) = (current ++ s) :: (cons SPACE <$> l).
Proof.
  revert current s. induction l as [|s' l IH]; intros current s [Hs Hl]%Forall_cons.
  - cbn [join fmap list_fmap]. rewrite <- (app_nil_r s) at 1. by rewrite Hs.
  - rewrite join_cons, Hs by done. change ([COMMA; SPACE] ++ ?x) with (COMMA :: SPACE :: x).
    cbn [split_commas]. change (COMMA =? OPEN) with false. change (COMMA =? CLOSE) with false.
    change (SPACE =? OPEN) with false. change (SPACE =? CLOSE) with false.
    change ((COMMA =? COMMA) && (0 =? 0)) with true. change ((SPACE =? COMMA) && (0 =? 0)) with false. cbv iota.
    rewrite app_nil_l, IH by done. done.
Qed.

Lemma render_trimmed v : literal_ok v = true → trimmed (render v).
Proof.
  destruct v as [z|t|l]; simpl; intros Hv; [|apply trimmed_quoted|by apply trimmed_wrap].
  destruct (decimal_shape z) as (c&s&Hc&Hw&_&_&d&s'&Hd&Hdw). split; eauto.
Qed.

Lemma decimal_list_chars z : forallb list_char (decimal z) = true.
Proof.
  apply forallb_forall. intros c Hc%list_elem_of_In.
  pose proof (proj1 (Forall_forall _ _) (decimal_chars z) c Hc) as Hr. simpl in Hr.
  unfold list_char. rewrite negb_true_iff, !orb_false_iff, !Z.eqb_neq. unfold OPEN, CLOSE, COMMA. lia.
Qed.

Lemma render_balanced v : literal_ok v = true → balanced (render v).
Proof.
  induction v as [z|t|l IH] using literal_ind'; cbn [literal_ok render].
  - intros _ depth current rest _. apply split_commas_plain, decimal_list_chars.
  - intros [Ht _]%andb_true_iff depth current rest _. apply split_commas_plain.
    unfold quoted. simpl. rewrite forallb_app, Ht. done.
  - intros Hl. apply balanced_list. induction IH as [|v l Hv _ IH]; simpl in *; [constructor|].
    apply andb_true_iff in Hl as [Hv' Hl']. constructor; auto.
Qed.

Lemma parse_items_cons `{ParseF64} w v items :
  Forall is_space w → literal_ok v = true → parse_value (render v) = Ok (value_of v) →
  parse_items parse_value ((w ++ render v) :: items) =
    (vs ← parse_items parse_value items; mret (value_of v :: vs)).
Proof.
  intros Hw Hv Hp. cbn [parse_items]. rewrite trim_trimmed by (done || by apply render_trimmed).
  rewrite decide_False; [by rewrite Hp|]. intros E. destruct (render_trimmed v Hv) as [(c&s&Hc&_) _].
  by rewrite E in Hc.
Qed.

(** Numbers, texts and lists nested to any depth are read back from how
    they are written, provided that no text in them holds a bracket, a comma
    or a backslash before a quote, the closing one included. *)
Theorem parse_value_roundtrip `{ParseF64} (v : Literal) :
  literal_ok v = true → parse_value (render v) = Ok (value_of v).
Proof.
  induction v as [z|t|l IH] using literal_ind'; cbn [literal_ok].
  - apply parse_value_int.
  - intros [_ Ht]%andb_true_iff. apply parse_value_quoted. by apply bool_decide_eq_true in Ht.
  - intros Hl. assert (trim (render (LList l)) = render (LList l)) as Et by by apply trim_id, (render_trimmed (LList l)).
    assert (starts_with QUOTE (render (LList l)) = false) as Eq by done.
    rewrite parse_value_list; rewrite Et.
    2: { unfold is_quoted. rewrite Eq. by rewrite andb_false_r. }
    2: { unfold is_list, starts_with, ends_with_char. cbn [render]. rewrite app_comm_cons, last_snoc.
         by rewrite !bool_decide_true. }
    cbn [render value_of]. rewrite inner_wrap. unfold split_top_level_commas.
    destruct l as [|v l]; [done|].
    assert (Forall balanced (map render (v :: l))) as Hb.
    { apply Forall_fmap, Forall_forall. intros w Hw. apply render_balanced.
      exact (proj1 (forallb_forall _ _) Hl w (proj1 (list_elem_of_In _ _) Hw)). }
    cbn [map] in *. rewrite split_commas_items by done. cbn [app].
    assert (parse_items parse_value (render v :: (cons SPACE <$> map render l)) =
      Ok (map value_of (v :: l))) as ->; [|done].
    apply Forall_cons in IH as [Hv IH]. cbn [forallb] in Hl. apply andb_true_iff in Hl as [Hv' Hl'].
    rewrite (parse_items_cons [] v); [|done|done|by apply Hv]. cbn [map].
    enough (parse_items parse_value (cons SPACE <$> map render l) = Ok (map value_of l)) as -> by done.
    clear -IH Hl'. induction IH as [|w l Hw _ IH]; [done|]. cbn [forallb] in Hl'. apply andb_true_iff in Hl' as [Hw' Hl'].
    cbn [map fmap list_fmap]. change (SPACE :: render w) with ([SPACE] ++ render w).
    rewrite parse_items_cons; [|by repeat constructor|done|by apply Hw]. by rewrite IH.
Qed.

(** ** Reading arguments does not panic *)

Lemma parse_command_args_no_panic tokens n : parse_command_args tokens n ≠ Panic.
Proof.
  unfold parse_command_args. case_decide; [done|]. generalize (∅ : gmap Text Text).
  induction (drop n tokens) as [|t ts IH]; intros fs; simpl; [done|].
  destruct (split_once EQUALS t) as [[k v]|]; [|done]. destruct (fs !! k); [done|]. apply IH.
Qed.
Lemma positional_no_panic i a : positional i a ≠ Panic.
Proof. unfold positional. by destruct (positionals a !! i). Qed.
Lemma flag_bool_opt_no_panic k a : flag_bool_opt k a ≠ Panic.
Proof. unfold flag_bool_opt. destruct (flag_str k a); [|done]. by repeat case_decide. Qed.
Lemma flag_bool_no_panic k b a : flag_bool k b a ≠ Panic.
Proof. unfold flag_bool. pose proof (flag_bool_opt_no_panic k a). by destruct (flag_bool_opt k a). Qed.
Lemma flag_reducer_no_panic k a : flag_reducer k a ≠ Panic.
Proof. unfold flag_reducer. destruct (flag_str k a); [|done]. by repeat case_decide. Qed.
Lemma parse_value_no_panic `{ParseF64} s : parse_value s ≠ Panic.
Proof. destruct (parse_value_fuel_ok (S (length s)) s) as [[v Hv] _]; [lia|]. unfold parse_value. by rewrite Hv. Qed.
Lemma flag_value_no_panic `{ParseF64} k a : flag_value k a ≠ Panic.
Proof.
  unfold flag_value. destruct (flag_str k a) as [s|]; [|done]. pose proof (parse_value_no_panic s).
  by destruct (parse_value s).
Qed.

Create HintDb args.
#[export] Hint Resolve parse_command_args_no_panic positional_no_panic flag_bool_opt_no_panic
  flag_bool_no_panic flag_reducer_no_panic parse_value_no_panic flag_value_no_panic : args.

(** ** Where the grammar is not what it says *)

(** A bare word that reads as a double that is not finite, such as [nan] or
    [infinity], is neither a number nor a text: it is [null]. *)
Lemma parse_value_not_finite `{ParseF64} (s : Text) (b : Z) :
  trimmed s → is_quoted s = false → is_list s = false → parse_i64 s = None →
  parse_f64 s = Some b → f64_finite b = false →
  parse_value s = Ok Null.
Proof.
  intros Ht Hq Hl Hi Hf Hb. unfold parse_value. cbn [parse_value_fuel].
  rewrite trim_id, Hq, Hl by done. destruct Ht as [(c&s'&->&Hc) _]. rewrite decide_False by done.
  rewrite decide_False by (intros E; by rewrite E in Hq). unfold parse_scalar. rewrite Hi, Hf.
  unfold json_of_f64. by rewrite Hb.
Qed.

(** The quotes of a text do not protect it inside a list: its comma cuts it,
    and its bracket keeps the list open. *)
Definition no_doubles : ParseF64 := {| parse_f64 := λ _, None |}.
Definition in_quotes (s : string) : Text := quoted (chars s).

Example list_text_is_cut :
  @parse_value no_doubles (OPEN :: in_quotes "a,b" ++ [CLOSE]) =
    Ok (Array [Str (utf8 (QUOTE :: chars "a")); Str (utf8 (chars "b" ++ [QUOTE]))]).
Proof. reflexivity. Qed.

Example list_text_keeps_open :
  tokenize (OPEN :: in_quotes "a[b" ++ [CLOSE]) = Err (Usage UNCLOSED_BRACKET) ∧
  tokenize (in_quotes "a[b") = Ok [in_quotes "a[b"].
Proof. split; reflexivity. Qed.

(** A backslash before a quote is taken away twice. *)
Example backslash_is_lost :
  ∃ t, tokenize (QUOTE :: [BACKSLASH; BACKSLASH; QUOTE; QUOTE]) = Ok [t] ∧ unquote t = [QUOTE].
Proof. eexists. split; reflexivity. Qed.

(** ** Witnesses *)

Lemma command_roundtrip_witness :
  ∃ tokens args,
    tokenize (join [SPACE] (word_line <$> [Plain (chars "create"); InQuotes (chars "be nice = [ok]")] ++
      [Flag (chars "prompt") (chars "say " ++ QUOTE :: chars "hi" ++ [QUOTE])])) = Ok tokens ∧
    parse_command_args tokens 2 = Ok args ∧
    flag_text (chars "prompt") args = Some (chars "say " ++ QUOTE :: chars "hi" ++ [QUOTE]).
Proof.
  destruct (command_roundtrip [Plain (chars "create"); InQuotes (chars "be nice = [ok]")]
    [(chars "prompt", chars "say " ++ QUOTE :: chars "hi" ++ [QUOTE])]) as (tokens&args&Ht&Ha&_&Hf).
  - repeat constructor; discriminate.
  - repeat constructor.
  - constructor; [|constructor]. split_and!; [repeat constructor; discriminate| |];
      apply (bool_decide_unpack _); vm_compute; exact I.
  - apply NoDup_singleton.
  - exists tokens, args. split; [exact Ht|]. split; [exact Ha|]. exact (Hf (chars "prompt")).
Defined.

Lemma parse_value_roundtrip_witness :
  @parse_value no_doubles (render (LList [LInt (-12); LList []; LText (chars "a b")])) =
    Ok (Array [Num (NInt (-12)); Array []; Str "a b"]).
Proof.
  exact (@parse_value_roundtrip no_doubles (LList [LInt (-12); LList []; LText (chars "a b")]) eq_refl).
Defined.
