(* ===== verification/LiveSession.v ===== *)
(** * Following a session ([marie-cli/src/states/executing_session.rs])

    The command line shows the logs of a session as they come and asks the
    user the questions of its requests.  It is a state machine fed with the
    lines typed at a prompt and the events of the session's subscription. *)

From S2P Require Import Prelude Ids Json Types Frames Wire Errors Sessions Hitl Text.

(** The end of the input is a line like any other, an empty one
    ([unwrap_or_default]), at every prompt. *)
Inductive LiveInput :=
  | Typed (line : list Z)
  | Arrived (e : SessionEvent).

Inductive LiveOutput :=
  | Shown (l : SessionLog)
  | Replied (id : HitlId) (answers : Answers).

(** What the task waits for: an event, or a line for the first of the
    questions that are left.  [lines] are those of a long text so far. *)
Inductive LivePhase :=
  | Watching
  | AskingText (id : HitlId)
  | Asking (id : HitlId) (qs : list Question) (answers : Answers) (lines : list (list Z))
  | Ended.

(** [to_ask] are the pending requests that the view had, and are still to be
    asked; [view_ended] is whether its status was terminal. *)
Record Live := mkLive { phase : LivePhase; to_ask : list PendingHitl; view_ended : bool }.

(** [is_terminal] *)
Definition is_terminal (s : SessionStatus) : bool :=
  match s with StArchived | StFailed _ => true | _ => false end.

Definition resolve_option (options : list string) (raw : list Z) : string :=
  match parse_usize raw with
  | Some idx =>
      if ((1 <=? idx) && (idx <=? Z.of_nat (length options)))%Z
      then default "" (options !! Z.to_nat (idx - 1)) else utf8 raw
  | None => utf8 raw
  end.

Definition NEWLINE : Z := 10.
Definition DOT : list Z := [46%Z].

Definition checked (options : list string) (raw : list Z) : list string :=
  resolve_option options <$> filter (λ s, s ≠ []) (trim <$> split_on COMMA [] raw).

(** The answer that a line completes, if it does. *)
Definition answer_with (k : QuestionKind) (lines : list (list Z)) (line : list Z) : option Answer :=
  match k with
  | LongText => if decide (line = DOT) then Some (Single (utf8 (join [NEWLINE] lines))) else None
  | Checkboxes options => Some (Multiple (checked options line))
  | Select options | Radio options => Some (Single (resolve_option options (trim line)))
  | ShortText | FileUpload _ => Some (Single (utf8 line))
  end.

(** [ask_hitl], up to its first prompt: with no question it is over at once. *)
Definition start_asking (id : HitlId) (h : Hitl) : LivePhase + Answers :=
  match h with
  | Types.Text => inl (AskingText id)
  | Questions [] => inr ∅
  | Questions qs => inl (Asking id qs ∅ [])
  end.

(** The loop over the pending requests, then the test of the view's status. *)
Fixpoint ask_next (pendings : list PendingHitl) (ended : bool) : Live * list LiveOutput :=
  match pendings with
  | [] => (mkLive (if ended then Ended else Watching) [] ended, [])
  | p :: pendings =>
      match start_asking (ph_id p) (ph_hitl p) with
      | inl ph => (mkLive ph pendings ended, [])
      | inr answers =>
          let '(l, outs) := ask_next pendings ended in (l, Replied (ph_id p) answers :: outs)
      end
  end.

(** [run_live], up to its first wait. *)
Definition live_start (v : SessionView) : Live * list LiveOutput :=
  let '(l, outs) := ask_next (v_pendings v) (is_terminal (v_status v)) in (l, (Shown <$> v_logs v) ++ outs).

(** The reply is sent; a request of the main loop has no pending after it,
    and goes back to watching without testing the view's status again. *)
Definition reply_with (id : HitlId) (answers : Answers) (l : Live) : Live * list LiveOutput :=
  let '(l', outs) := ask_next (to_ask l) (view_ended l) in (l', Replied id answers :: outs).

(** The branch of the main loop. *)
Definition on_watched (e : SessionEvent) (l : Live) : Live * list LiveOutput :=
  match e with
  | EvLogCreated log | EvLogUpdated log => (l, [Shown log])
  | EvHitlRequested r =>
      match start_asking (hreq_id r) (hreq_hitl r) with
      | inl ph => (mkLive ph (to_ask l) (view_ended l), [])
      | inr answers => (l, [Replied (hreq_id r) answers])
      end
  | EvHitlAnswered _ => (l, [])
  | EvStatusUpdated _ st => (if is_terminal st then mkLive Ended (to_ask l) (view_ended l) else l, [])
  end.

(** The branch of [read_with_live_events]: only logs are kept. *)
Definition on_prompt (e : SessionEvent) (l : Live) : Live * list LiveOutput :=
  match e with
  | EvLogCreated log | EvLogUpdated log => (l, [Shown log])
  | _ => (l, [])
  end.

Definition on_line (line : list Z) (l : Live) : Live * list LiveOutput :=
  match phase l with
  | AskingText id => reply_with id {["text" := Single (utf8 line)]} l
  | Asking id (q :: qs) answers lines =>
      match answer_with (q_kind q) lines line with
      | None => (mkLive (Asking id (q :: qs) answers (lines ++ [line])) (to_ask l) (view_ended l), [])
      | Some a =>
          let answers := <[q_key q := a]> answers in
          match qs with
          | [] => reply_with id answers l
          | _ => (mkLive (Asking id qs answers []) (to_ask l) (view_ended l), [])
          end
      end
  | _ => (l, [])
  end.

Definition live_step (i : LiveInput) (l : Live) : Live * list LiveOutput :=
  match phase l, i with
  | Ended, _ => (l, [])
  | Watching, Arrived e => on_watched e l
  | Watching, Typed _ => (l, [])
  | _, Arrived e => on_prompt e l
  | _, Typed line => on_line line l
  end.

Fixpoint live_run (ins : list LiveInput) (l : Live) : Live * list LiveOutput :=
  match ins with
  | [] => (l, [])
  | i :: ins =>
      let '(l, outs) := live_step i l in
      let '(l, outs') := live_run ins l in (l, outs ++ outs')
  end.

(** ** What a prompt does with its inputs *)

Definition lines_of (ins : list LiveInput) : list (list Z) :=
  omap (λ i, match i with Typed line => Some line | Arrived _ => None end) ins.

Definition prompting (l : Live) : Prop :=
  match phase l with AskingText _ | Asking _ _ _ _ => True | Watching | Ended => False end.

Definition logs_shown (e : SessionEvent) : list LiveOutput :=
  match e with EvLogCreated log | EvLogUpdated log => [Shown log] | _ => [] end.

Definition replied_ids (outs : list LiveOutput) : list HitlId :=
  omap (λ o, match o with Replied id _ => Some id | Shown _ => None end) outs.

Lemma replied_ids_app outs outs' : replied_ids (outs ++ outs') = replied_ids outs ++ replied_ids outs'.
Proof. apply omap_app. Qed.

Lemma logs_reply_nothing e : replied_ids (logs_shown e) = [].
Proof. by destruct e. Qed.

Lemma prompt_event e l : prompting l → live_step (Arrived e) l = (l, logs_shown e).
Proof. unfold prompting, live_step. destruct (phase l); try done; intros _; by destruct e. Qed.

Lemma prompt_line line l : prompting l → live_step (Typed line) l = on_line line l.
Proof. unfold prompting, live_step. by destruct (phase l). Qed.

Lemma live_run_app ins ins' l :
  live_run (ins ++ ins') l =
    let '(l1, outs) := live_run ins l in let '(l2, outs') := live_run ins' l1 in (l2, outs ++ outs').
Proof.
  revert l. induction ins as [|i ins IH]; intros l; simpl; [by destruct (live_run ins' l)|].
  destruct (live_step i l) as [l0 o0]. rewrite IH. destruct (live_run ins l0) as [l1 o1].
  destruct (live_run ins' l1) as [l2 o2]. by rewrite app_assoc.
Qed.

(** Up to the line that is typed, a prompt only shows logs. *)
Lemma prompt_run ins line rest l :
  prompting l → lines_of ins = line :: rest →
  ∃ outs ins', lines_of ins' = rest ∧ replied_ids outs = [] ∧
    live_run ins l =
      let '(l1, o1) := on_line line l in let '(l2, o2) := live_run ins' l1 in (l2, outs ++ o1 ++ o2).
Proof.
  intros Hp. induction ins as [|i ins IH]; [done|]. destruct i as [line'|e]; simpl.
  - intros [= -> Hr]. exists [], ins. split_and!; [done..|]. rewrite prompt_line by done.
    destruct (on_line line l) as [l1 o1]. by destruct (live_run ins l1).
  - intros Hl. destruct (IH Hl) as (outs&ins'&Hr&Hno&Heq). exists (logs_shown e ++ outs), ins'.
    split_and!; [done|by rewrite replied_ids_app, logs_reply_nothing, Hno|].
    rewrite prompt_event, Heq by done. destruct (on_line line l) as [l1 o1].
    destruct (live_run ins' l1). by rewrite <- app_assoc.
Qed.

(** ** Answers that a user can type *)

Section typing.
Context `{Unicode}.

(** The option that a line picks: by its number, from one, or by its text
    where this is not a number; the spaces around do not matter. *)
Definition picks (options : list string) (line : list Z) (o : string) : Prop :=
  (∃ i, trim line = decimal i ∧ (1 ≤ i < 2 ^ 64)%Z ∧ options !! Z.to_nat (i - 1) = Some o) ∨
  (parse_usize (trim line) = None ∧ o = utf8 (trim line) ∧ o ∈ options).

(** The lines that answer a question, and the answer that they mean. *)
Inductive typed_as : QuestionKind → list (list Z) → Answer → Prop :=
  | typed_short line : typed_as ShortText [line] (Single (utf8 line))
  | typed_long body :
      Forall (λ line, line ≠ DOT) body →
      typed_as LongText (body ++ [DOT]) (Single (utf8 (join [NEWLINE] body)))
  | typed_select options line o : picks options line o → typed_as (Select options) [line] (Single o)
  | typed_radio options line o : picks options line o → typed_as (Radio options) [line] (Single o)
  | typed_boxes options pieces os :
      Forall2 (λ p o, COMMA ∉ p ∧ trim p ≠ [] ∧ picks options p o) pieces os →
      typed_as (Checkboxes options) [join [COMMA] pieces] (Multiple os)
  | typed_file accept line :
      fits (FileUpload accept) (Single (utf8 line)) →
      typed_as (FileUpload accept) [line] (Single (utf8 line)).

Lemma picks_option options line o : picks options line o → o ∈ options.
Proof. intros [(i&_&_&Ho)|(_&_&Ho)]; [by eapply list_elem_of_lookup_2|done]. Qed.

Lemma picks_resolved options line o : picks options line o → resolve_option options (trim line) = o.
Proof.
  unfold resolve_option. intros [(i&->&Hi&Ho)|(->&->&_)]; [|done].
  rewrite parse_usize_decimal by lia. pose proof (lookup_lt_Some _ _ _ Ho) as Hl.
  rewrite (proj2 (Z.leb_le _ _)), (proj2 (Z.leb_le i _)) by lia. simpl. by rewrite Ho.
Qed.

Lemma checked_pieces options pieces os :
  Forall2 (λ p o, COMMA ∉ p ∧ trim p ≠ [] ∧ picks options p o) pieces os →
  checked options (join [COMMA] pieces) = os.
Proof.
  intros Hp. unfold checked. destruct pieces as [|p ps]; [by apply Forall2_nil_inv_l in Hp as ->|].
  rewrite split_on_join.
  2: { clear -Hp. remember (p :: ps) as l. clear Heql. induction Hp as [|? ? ? ? (Hc&_)]; by constructor. }
  remember (p :: ps) as l. clear Heql. induction Hp as [|q o l os (_&Hne&Hq) _ IH]; [done|].
  rewrite fmap_cons, filter_cons, decide_True by done. rewrite fmap_cons, (picks_resolved _ _ _ Hq). by f_equal.
Qed.

Lemma typed_fits k lines a : typed_as k lines a → fits k a.
Proof.
  destruct 1 as [| |options line o Ho|options line o Ho|options ps os Hos|]; try done; constructor;
    try by eapply picks_option.
  induction Hos as [|? ? ? ? (_&_&Ho) _ IH]; constructor; [by eapply picks_option|done].
Qed.

(** Where the machine goes once a question is answered. *)
Definition answered (id : HitlId) (q : Question) (qs : list Question) (a : Answer) (answers : Answers) (l : Live) :
    Live * list LiveOutput :=
  match qs with
  | [] => reply_with id (<[q_key q := a]> answers) l
  | _ => (mkLive (Asking id qs (<[q_key q := a]> answers) []) (to_ask l) (view_ended l), [])
  end.

Lemma on_line_answers id q qs answers lines line a l :
  phase l = Asking id (q :: qs) answers lines → answer_with (q_kind q) lines line = Some a →
  on_line line l = answered id q qs a answers l.
Proof. intros Hp Ha. unfold on_line. rewrite Hp, Ha. by destruct qs. Qed.

Lemma long_text_run body id q qs answers lines ins rest l :
  q_kind q = LongText → Forall (λ line, line ≠ DOT) body →
  phase l = Asking id (q :: qs) answers lines → lines_of ins = body ++ DOT :: rest →
  ∃ outs ins', lines_of ins' = rest ∧ replied_ids outs = [] ∧
    live_run ins l =
      let '(l1, o1) := answered id q qs (Single (utf8 (join [NEWLINE] (lines ++ body)))) answers l in
      let '(l2, o2) := live_run ins' l1 in (l2, outs ++ o1 ++ o2).
Proof.
  intros Hk Hb. revert lines ins l. induction Hb as [|line body Hline Hb IH]; intros lines ins l Hp Hins.
  - destruct (prompt_run ins DOT rest l) as (outs&ins'&Hr&Hno&Heq); [by unfold prompting; rewrite Hp|done|].
    exists outs, ins'. split_and!; [done..|]. rewrite Heq, app_nil_r.
    rewrite (on_line_answers id q qs answers lines DOT (Single (utf8 (join [NEWLINE] lines))) l Hp); [done|].
    unfold answer_with. by rewrite Hk, decide_True.
  - destruct (prompt_run ins line (body ++ DOT :: rest) l) as (outs&ins1&Hr&Hno&Heq);
      [by unfold prompting; rewrite Hp|done|].
    assert (on_line line l = (mkLive (Asking id (q :: qs) answers (lines ++ [line])) (to_ask l) (view_ended l), [])) as Ho.
    { unfold on_line. rewrite Hp. unfold answer_with. by rewrite Hk, decide_False. }
    rewrite Ho in Heq.
    destruct (IH (lines ++ [line]) ins1 (mkLive (Asking id (q :: qs) answers (lines ++ [line]))
      (to_ask l) (view_ended l)) eq_refl Hr) as (outs'&ins'&Hr'&Hno'&Heq'). exists (outs ++ outs'), ins'.
    split_and!; [done|by rewrite replied_ids_app, Hno, Hno'|]. rewrite Heq, Heq', <- (app_assoc lines). unfold answered, reply_with. cbn [to_ask view_ended app].
    destruct qs; [destruct (ask_next _ _) as [l1 o1]; destruct (live_run ins' l1)|destruct (live_run ins' _)];
      by rewrite <- app_assoc.
Qed.

Lemma one_line_run id q qs answers line a ins rest l :
  phase l = Asking id (q :: qs) answers [] → lines_of ins = line :: rest →
  answer_with (q_kind q) [] line = Some a →
  ∃ outs ins', lines_of ins' = rest ∧ replied_ids outs = [] ∧
    live_run ins l =
      let '(l1, o1) := answered id q qs a answers l in
      let '(l2, o2) := live_run ins' l1 in (l2, outs ++ o1 ++ o2).
Proof.
  intros Hp Hins Ha. destruct (prompt_run ins line rest l) as (outs&ins'&Hr&Hno&Heq);
    [by unfold prompting; rewrite Hp|done|].
  exists outs, ins'. split_and!; [done..|]. rewrite Heq. by rewrite (on_line_answers id q qs answers [] line a l Hp Ha).
Qed.

Lemma question_run id q qs answers b a ins rest l :
  typed_as (q_kind q) b a → phase l = Asking id (q :: qs) answers [] → lines_of ins = b ++ rest →
  ∃ outs ins', lines_of ins' = rest ∧ replied_ids outs = [] ∧
    live_run ins l =
      let '(l1, o1) := answered id q qs a answers l in
      let '(l2, o2) := live_run ins' l1 in (l2, outs ++ o1 ++ o2).
Proof.
  intros Ht Hp Hins. remember (q_kind q) as k eqn:Hk. symmetry in Hk.
  destruct Ht as [line|body Hb|options line o Ho|options line o Ho|options ps os Hos|accept line Hf];
    [| rewrite <- app_assoc in Hins; by apply (long_text_run body id q qs answers [] ins rest l) | | | |];
    (eapply one_line_run; [done|exact Hins|]; rewrite Hk; simpl); [done| | | |done].
  - by rewrite (picks_resolved _ _ _ Ho).
  - by rewrite (picks_resolved _ _ _ Ho).
  - by rewrite (checked_pieces _ _ _ Hos).
Qed.
End typing.

Section asking.
Context `{Unicode}.

(** The answers that the user gave, each under the key of its question. *)
Definition answers_of (qs : list Question) (given : list Answer) : Answers :=
  list_to_map (zip (q_key <$> qs) given).

Lemma answers_of_notin qs given k : k ∉ q_key <$> qs → answers_of qs given !! k = None.
Proof.
  intros Hk. apply not_elem_of_list_to_map_1. contradict Hk.
  apply list_elem_of_fmap in Hk as ([k' a]&->&Hin). by apply elem_of_zip_l in Hin.
Qed.

(** The questions left are answered by the blocks of lines left; what was
    answered before is kept. *)
Lemma asking_run id q qs answers blocks given ins l :
  Forall3 (λ q b a, typed_as (q_kind q) b a) (q :: qs) blocks given → NoDup (q_key <$> q :: qs) →
  phase l = Asking id (q :: qs) answers [] → lines_of ins = concat blocks →
  ∃ shown rest, replied_ids shown = [] ∧
    (live_run ins l).2 = shown ++ Replied id (answers_of (q :: qs) given ∪ answers) :: rest.
Proof.
  revert q answers blocks given ins l. induction qs as [|q' qs IH]; intros q answers blocks given ins l Hb Hnd Hp Hins;
    apply Forall3_cons_inv_l in Hb as (b&bs&a&gs&->&->&Ht&Hb); simpl in Hins;
    destruct (question_run id q _ answers b a ins (concat bs) l Ht Hp Hins) as (outs&ins'&Hr&Hno&Heq);
    unfold answered in Heq.
  - inversion Hb; subst. unfold reply_with in Heq.
    destruct (ask_next _ _) as [l1 o1]. destruct (live_run ins' l1) as [l2 o2].
    exists outs, (o1 ++ o2). split; [done|]. rewrite Heq. cbn [snd].
    unfold answers_of. simpl. by rewrite <- insert_union_l, map_empty_union.
  - set (l1 := mkLive _ _ _) in Heq. rewrite fmap_cons in Hnd. apply NoDup_cons in Hnd as [Hn Hnd].
    destruct (IH q' (<[q_key q := a]> answers) bs gs ins' l1 Hb Hnd eq_refl Hr) as (shown&rest&Hs&Hrun).
    destruct (live_run ins' l1) as [l2 o2]. exists (outs ++ shown), rest.
    split; [by rewrite replied_ids_app, Hno, Hs|]. rewrite Heq. cbn [snd] in *. rewrite Hrun, <- app_assoc.
    rewrite <- insert_union_r by by apply answers_of_notin. by rewrite insert_union_l.
Qed.

Lemma answers_of_fit qs blocks given :
  Forall3 (λ q b a, typed_as (q_kind q) b a) qs blocks given → NoDup (q_key <$> qs) →
  Forall (λ q, ∃ a, answers_of qs given !! q_key q = Some a ∧ fits (q_kind q) a) qs.
Proof.
  induction 1 as [|q b a qs bs given Ht _ IH]; [constructor|]. rewrite fmap_cons. intros [Hn Hnd]%NoDup_cons.
  unfold answers_of. simpl. fold (answers_of qs given). constructor.
  - exists a. split; [apply lookup_insert_eq|by eapply typed_fits].
  - apply Forall_forall. intros q' Hq'. destruct (proj1 (Forall_forall _ _) (IH Hnd) q' Hq') as (a'&Ha&Hf).
    exists a'. split; [|done]. rewrite lookup_insert_ne; [done|]. intros He. apply Hn. rewrite He.
    by apply list_elem_of_fmap_2.
Qed.
End asking.

(** C18: a user who answers each question of a request as it asks, by a text,
    the number or the text of an option, several of them with commas, or a
    file name, gets the request replied to, whatever events come in between:
    its first reply holds, under the key of each question, the answer that
    was typed for it, provided that the keys are distinct. The request
    accepts these answers, and a service that holds the request announces
    them. *)
Theorem typed_answers_accepted `{Xoshiro} `{Unicode} (id : HitlId) (qs : list Question)
    (blocks : list (list (list Z))) (given : list Answer)
    (ins : list LiveInput) (l : Live) (ph : LivePhase) :
  Forall3 (λ q b a, typed_as (q_kind q) b a) qs blocks given → NoDup (q_key <$> qs) →
  start_asking id (Questions qs) = inl ph → phase l = ph → lines_of ins = concat blocks →
  (∃ shown rest, replied_ids shown = [] ∧
    (live_run ins l).2 = shown ++ Replied id (answers_of qs given) :: rest) ∧
  validate_answers qs (answers_of qs given) = Ok (answers_of qs given) ∧
  ∀ (s : SessionHitls) (f : HitlFrame),
    h_store s !! (h_session_id s, id) = Some f → hf_session_id f = h_session_id s → hf_id f = id →
    hf_hitl f = Questions qs →
    run_res (reply id (answers_of qs given)) s = Ok id ∧
    h_events (run_state (reply id (answers_of qs given)) s) =
      h_events s ++ [EvHitlAnswered (mkHitlResponse (h_session_id s) id (answers_of qs given))].
Proof.
  intros Hb Hnd Hs Hp Hins. pose proof (answers_of_fit _ _ _ Hb Hnd) as Hfit. split_and!.
  - destruct qs as [|q qs]; [done|]. injection Hs as <-.
    destruct (asking_run id q qs ∅ blocks given ins l Hb Hnd Hp Hins) as (shown&rest&Hno&Hrun).
    exists shown, rest. split; [done|]. by rewrite Hrun, map_union_empty.
  - by apply validate_answers_spec.
  - intros s f Hf Hsid Hid Hq. apply (reply_spec s id (answers_of qs given) f Hf Hsid Hid). by rewrite Hq.
Qed.

(** ** What a prompt loses *)

Definition requested_ids (ins : list LiveInput) : list HitlId :=
  omap (λ i, match i with Arrived (EvHitlRequested r) => Some (hreq_id r) | _ => None end) ins.

(** The requests that are still to be answered. *)
Definition open_ids (l : Live) : list HitlId :=
  match phase l with AskingText id | Asking id _ _ _ => [id] | _ => [] end ++ (ph_id <$> to_ask l).

Lemma requested_ids_cons i ins : requested_ids (i :: ins) = requested_ids [i] ++ requested_ids ins.
Proof. apply (omap_app _ [i]). Qed.

Lemma start_asking_id id h ph : start_asking id h = inl ph →
  (ph = AskingText id ∨ ∃ qs, ph = Asking id qs ∅ []).
Proof. destruct h as [[|q qs]|]; [done| |]; intros [= <-]; eauto. Qed.

Lemma ask_next_ids ps ended l outs :
  ask_next ps ended = (l, outs) → open_ids l ⊆ ph_id <$> ps ∧ replied_ids outs ⊆ ph_id <$> ps ∧ view_ended l = ended ∧
    (phase l = Ended → ended = true).
Proof.
  revert l outs. induction ps as [|p ps IH]; intros l outs; simpl.
  - intros [= <- <-]. by destruct ended; split_and!; try done; set_solver.
  - destruct (start_asking (ph_id p) (ph_hitl p)) as [ph|answers] eqn:Es.
    + intros [= <- <-]. unfold open_ids. simpl.
      by destruct (start_asking_id _ _ _ Es) as [->|[qs ->]]; split_and!; try done; set_solver.
    + destruct (ask_next ps ended) as [l' outs']. intros [= <- <-].
      destruct (IH _ _ eq_refl) as (Ho&Hr&Hv&He). split_and!; [set_solver| |done|done].
      unfold replied_ids. simpl. fold (replied_ids outs'). set_solver.
Qed.

Lemma live_step_ids i l :
  open_ids (live_step i l).1 ⊆ open_ids l ++ requested_ids [i] ∧
  replied_ids (live_step i l).2 ⊆ open_ids l ++ requested_ids [i].
Proof.
  assert (∀ id answers, id ∈ open_ids l → (ph_id <$> to_ask l) ⊆ open_ids l →
    open_ids (reply_with id answers l).1 ⊆ open_ids l ∧ replied_ids (reply_with id answers l).2 ⊆ open_ids l) as Hreply.
  { intros id answers Hid Hsub. unfold reply_with. destruct (ask_next _ _) as [l' outs] eqn:E.
    destruct (ask_next_ids _ _ _ _ E) as (Ho&Hr&_&_). simpl. unfold replied_ids. simpl. fold (replied_ids outs).
    set_solver. }
  assert ((ph_id <$> to_ask l) ⊆ open_ids l) as Hsub by (unfold open_ids; set_solver).
  unfold live_step. destruct (phase l) as [|id|id [|q qs] answers lines|] eqn:Ep.
  - destruct i as [line|[r|r|log|log|sid st]]; simpl; [set_solver|set_solver| |set_solver|set_solver|].
    + destruct (start_asking (hreq_id r) (hreq_hitl r)) as [ph|a] eqn:Es; simpl; [|unfold replied_ids; simpl; set_solver].
      assert (open_ids (mkLive ph (to_ask l) (view_ended l)) ⊆ hreq_id r :: (ph_id <$> to_ask l)).
      { unfold open_ids. simpl. by destruct (start_asking_id _ _ _ Es) as [->|[qs ->]]. }
      unfold requested_ids. simpl. set_solver.
    + destruct (is_terminal st); unfold open_ids; simpl; set_solver.
  - assert (id ∈ open_ids l) by (unfold open_ids; rewrite Ep; by left).
    destruct i as [line|e]; [|destruct e; simpl; set_solver]. unfold on_line. rewrite Ep. rewrite app_nil_r. by apply Hreply.
  - destruct i as [line|e]; [|destruct e; simpl; set_solver]. unfold on_line. rewrite Ep. simpl. set_solver.
  - assert (id ∈ open_ids l) as Hid by (unfold open_ids; rewrite Ep; by left).
    destruct i as [line|e]; [|destruct e; simpl; set_solver]. unfold on_line. rewrite Ep, app_nil_r.
    assert (∀ qs answers lines, open_ids (mkLive (Asking id qs answers lines) (to_ask l) (view_ended l)) ⊆ open_ids l).
    { intros. unfold open_ids. rewrite Ep. done. }
    destruct (answer_with (q_kind q) lines line) as [a|]; [|simpl; set_solver].
    destruct qs as [|q' qs]; [by apply Hreply|simpl; set_solver].
  - simpl. set_solver.
Qed.

Lemma live_run_ids ins l :
  replied_ids (live_run ins l).2 ⊆ open_ids l ++ requested_ids ins.
Proof.
  revert l. induction ins as [|i ins IH]; intros l; cbn [live_run]; [set_solver|].
  rewrite requested_ids_cons. destruct (live_step_ids i l) as [Ho Hr]. destruct (live_step i l) as [l1 o1]. specialize (IH l1).
  destruct (live_run ins l1) as [l2 o2]. cbn [fst snd] in *. rewrite replied_ids_app. set_solver.
Qed.

(** A request that arrives while the user is being asked another one is
    lost: nothing is shown, and whatever comes next, unless the same request
    is announced again, it is never answered. *)
Theorem prompt_loses_request (r : HitlRequest) (l : Live) (ins : list LiveInput) (answers : Answers) :
  prompting l → hreq_id r ∉ open_ids l → hreq_id r ∉ requested_ids ins →
  live_step (Arrived (EvHitlRequested r)) l = (l, []) ∧
  Replied (hreq_id r) answers ∉ (live_run (Arrived (EvHitlRequested r) :: ins) l).2.
Proof.
  intros Hp Ho Hr. split; [by apply prompt_event|]. cbn [live_run]. rewrite prompt_event by done.
  cbn [logs_shown]. pose proof (live_run_ids ins l) as Hids. destruct (live_run ins l) as [l' outs]. simpl in *.
  intros Hin. assert (hreq_id r ∈ replied_ids outs) as Hid.
  { apply list_elem_of_omap. by exists (Replied (hreq_id r) answers). }
  apply Hids, elem_of_app in Hid as [?|?]; done.
Qed.

(** A long text is only ended by a line with a single dot: at the end of the
    input, where every line read is empty, it is never ended. *)
Lemma long_text_needs_dot id q qs answers lines ins l :
  q_kind q = LongText → phase l = Asking id (q :: qs) answers lines →
  Forall (λ line, line ≠ DOT) (lines_of ins) →
  phase (live_run ins l).1 = Asking id (q :: qs) answers (lines ++ lines_of ins) ∧
  replied_ids (live_run ins l).2 = [].
Proof.
  intros Hk. revert lines l. induction ins as [|i ins IH]; intros lines l Hp Hl; simpl.
  - by rewrite app_nil_r.
  - assert (prompting l) as Hpr by (unfold prompting; by rewrite Hp). destruct i as [line|e]; simpl in *.
    + apply Forall_cons in Hl as [Hne Hl]. rewrite prompt_line by done. unfold on_line. rewrite Hp.
      unfold answer_with. rewrite Hk, decide_False by done.
      destruct (IH (lines ++ [line]) (mkLive (Asking id (q :: qs) answers (lines ++ [line])) (to_ask l) (view_ended l))
        eq_refl Hl) as [Hp' Hr']. destruct (live_run ins _) as [l' outs]. simpl in *.
      split; [|done]. by rewrite Hp', <- app_assoc.
    + rewrite prompt_event by done. destruct (IH lines l Hp Hl) as [Hp' Hr'].
      destruct (live_run ins l) as [l' outs]. simpl in *. split; [done|].
      rewrite replied_ids_app, Hr'. by destruct e.
Qed.

(** ** Witnesses *)

Definition h1 : HitlId := mkHitlId (mkID 1 1).
Definition h2 : HitlId := mkHitlId (mkID 1 2).
Definition two_questions : list Question :=
  [env_question; mkQuestion "note" "Why?" LongText].
Definition demo_asking : Live := mkLive (Asking h1 two_questions ∅ []) [] false.
Definition late_request : HitlRequest := mkHitlRequest sid0 h2 (Questions [env_question]).

Lemma typed_answers_accepted_witness :
  ∃ shown rest, replied_ids shown = [] ∧
    (live_run [Arrived (EvHitlRequested late_request); Typed (decimal 2); Typed (chars "fix"); Typed DOT] demo_asking).2
      = shown ++ Replied h1 {["env" := Single "staging"; "note" := Single "fix"]} :: rest.
Proof.
  destruct (@typed_answers_accepted counter_rng ascii_only h1 two_questions [[decimal 2]; [chars "fix"; DOT]]
    [Single "staging"; Single "fix"]
    [Arrived (EvHitlRequested late_request); Typed (decimal 2); Typed (chars "fix"); Typed DOT] demo_asking
    (Asking h1 two_questions ∅ [])) as (Hr&_&_).
  - constructor; [|constructor; [|constructor]].
    + apply typed_select. left. exists 2%Z. split; [reflexivity|]. split; [split; reflexivity || discriminate|reflexivity].
    + apply (typed_long [chars "fix"]). constructor; [discriminate|constructor].
  - apply (bool_decide_unpack _). vm_compute. exact I.
  - reflexivity.
  - reflexivity.
  - reflexivity.
  - exact Hr.
Defined.

Lemma prompt_loses_request_witness :
  Replied h2 {["env" := Single "prod"]} ∉
    (live_run [Arrived (EvHitlRequested late_request); Typed (decimal 2); Typed DOT; Typed (decimal 1)] demo_asking).2.
Proof.
  apply (prompt_loses_request late_request demo_asking [Typed (decimal 2); Typed DOT; Typed (decimal 1)]).
  - exact I.
  - apply (bool_decide_unpack _). vm_compute. exact I.
  - apply (bool_decide_unpack _). vm_compute. exact I.
Defined.
