(* ===== verification/Repl.v ===== *)
(** * The command line ([marie-cli/src/repl/mod.rs], [state.rs], [completer.rs],
    [states/root.rs], [local_connected.rs], [editing_graph.rs],
    [editing_node.rs])

    A stack of states, each with its own commands: connected to an instance,
    editing one of its graphs, editing a node of that graph, or following a
    session.  The instance is behind an interface: a call per operation. *)

From Stdlib Require Import Ascii String.
From S2P Require Import Prelude Ids Json Channels Types Spec Catalog Domains Frames Wire Errors Sessions Models Text Cli.

(** ** The instance *)

Inductive DatabaseMode := InMemoryMode | Postgres (url : string).

Inductive NewSessionArgs :=
  | NewShell (expert : ExpertId)
  | NewGraph (graph_id : GraphId) (initial : gmap ChannelName Value).

(** The calls that the commands make, by the type of their result. *)
Inductive Call : Type → Type :=
  | ListSessions : Call (list Session)
  | CreateSession (args : NewSessionArgs) : Call SessionId
  | DeleteSession (id : SessionId) : Call ()
  | ListModels : Call (list EncryptedModel)
  | InsertModel (m : CreateModel) : Call ()
  | DeleteModel (id : ModelId) : Call ()
  | ListExperts : Call (list Expert)
  | CreateExpert (e : Expert) : Call CatalogItemRef
  | DeleteExpert (id : ExpertId) : Call ()
  | GetExpert (id : ExpertId) : Call (option Expert)
  | ReplaceExpert (e : Expert) : Call CatalogItemRef
  | ListTools : Call (list Tool)
  | ListGraphs : Call (list GraphSpec)
  | GraphLatest (id : GraphId) : Call (option GraphRef)
  | GraphReplace (g : GraphSpec) : Call GraphRef
  | GraphInsert (g : GraphSpec) : Call GraphRef.

(** [W] is the world of the instances; an error is its [Debug] text. *)
Class LocalMarie (W : Type) := {
  Handle : Type;
  new_marie : DatabaseMode → M W string Handle;
  call_marie : ∀ {A}, Handle → Call A → M W string A
}.

(** ** States *)

Inductive SessionKind :=
  | Live (id : SessionId)
  | Consult (expert : ExpertId) (task : string).

(** A command of the completer; its usage line is only printed. *)
Notation CommandSpec := string (only parsing).

Definition ROOT_COMMANDS : list CommandSpec := ["connect local"; "connect remote"; "help"; "exit"]%string.
Definition LOCAL_CONNECTED_COMMANDS : list CommandSpec :=
  ["list sessions"; "create session shell"; "create session execute graph"; "create session consult expert";
   "delete session"; "list models"; "create model"; "delete model"; "list experts"; "create expert";
   "delete expert"; "set expert"; "list tools"; "list graphs"; "create graph"; "disconnect"]%string.
Definition EXECUTING_SESSION_COMMANDS : list CommandSpec := ["(aucune)"]%string.
Definition EDITING_GRAPH_COMMANDS : list CommandSpec :=
  ["set entry"; "list nodes"; "create node"; "connect"; "disconnect"; "save"]%string.
Definition EDITING_NODE_COMMANDS : list CommandSpec := ["add channel"; "set channel"; "save"]%string.

Section repl.
Context {W : Type} `{LocalMarie W} `{ParseF64}.

Inductive ReplState :=
  | Root
  | LocalConnected (marie : Handle)
  | ExecutingSession (marie : Handle) (kind : SessionKind)
  | EditingGraph (marie : Handle) (spec : GraphSpec)
  | EditingNode (node_id : GraphNodeId) (spec : NodeSpec).

(** What a command prints: a message, or what a listing shows. *)
Inductive Printed :=
  | Message (s : string)
  | ShownSessions (l : list Session)
  | ShownModels (l : list EncryptedModel)
  | ShownExperts (l : list Expert)
  | ShownTools (l : list Tool)
  | ShownGraphs (l : list GraphSpec)
  | ShownNodes (g : GraphSpec).

(** [ReplState::commands] *)
Definition commands (s : ReplState) : list CommandSpec :=
  match s with
  | Root => ROOT_COMMANDS
  | LocalConnected _ => LOCAL_CONNECTED_COMMANDS
  | ExecutingSession _ _ => EXECUTING_SESSION_COMMANDS
  | EditingGraph _ _ => EDITING_GRAPH_COMMANDS
  | EditingNode _ _ => EDITING_NODE_COMMANDS
  end.

(** [ReplState::label]; the [Debug] form of a node's name is a parameter. *)
Context (node_debug : GraphNodeId → string).
Definition label (s : ReplState) : string :=
  match s with
  | Root => "root"
  | LocalConnected _ => "local"
  | ExecutingSession _ (Live id) => "session:" ++ ID_to_string (session_id_ id)
  | ExecutingSession _ (Consult expert _) => "consult:" ++ expert
  | EditingGraph _ spec => "graph:" ++ gs_id spec
  | EditingNode node_id _ => "node:" ++ node_debug node_id
  end%string.

(** [Repl]: the vector of states from its end, the table shared with the
    completer, what was printed, and the world. *)
Record Repl := mkRepl {
  stack : list ReplState;
  completer_table : list CommandSpec;
  printed : list Printed;
  world : W }.
Notation RM := (M Repl CliError).

Definition top : RM ReplState := λ r,
  match stack r with s :: _ => (Ok s, r) | [] => (Panic, r) end.

Definition set_stack (l : list ReplState) (r : Repl) : Repl := mkRepl l (completer_table r) (printed r) (world r).

Definition sync_completer_table : RM () := λ r,
  match stack r with
  | s :: _ => (Ok (), mkRepl (stack r) (commands s) (printed r) (world r))
  | [] => (Panic, r)
  end.

Definition push (s : ReplState) : RM () :=
  _ ← modify (λ r, set_stack (s :: stack r) r); sync_completer_table.

(** [None] at the bottom of the stack, which is never popped. *)
Definition pop : RM (option ReplState) := λ r,
  match stack r with
  | s :: _ :: _ => (_ ← sync_completer_table; mret (Some s)) (set_stack (tail (stack r)) r)
  | _ => (Ok None, r)
  end.

Definition print (p : Printed) : RM () := modify (λ r,
  mkRepl (stack r) (completer_table r) (printed r ++ [p]) (world r)).
Definition print_line (s : string) : RM () := print (Message s).

(** [.await.map_err(CliError::from_err)] *)
Definition in_world {A} (m : M W string A) : RM A := λ r,
  let '(x, w) := m (world r) in
  (map_err Marie x, mkRepl (stack r) (completer_table r) (printed r) w).
Definition ask {A} (h : Handle) (c : Call A) : RM A := in_world (call_marie h c).

Notation word i t := (utf8 <$> (t : list Text) !! i).
Definition usage {A} (msg : string) : RM A := throw (Usage msg).

(** [&tokens[n..]] panics when there are fewer tokens. *)
Definition arguments (tokens : list Text) (from n_positional : nat) : RM CommandArgs :=
  if decide (length tokens < from) then panic else lift (parse_command_args (drop from tokens) n_positional).
Definition arg (i : nat) (a : CommandArgs) : RM string := s ← lift (positional i a); mret (utf8 s).
Definition text_flag (key : string) (a : CommandArgs) : option string := utf8 <$> flag_text (chars key) a.
Definition required (key : string) (a : CommandArgs) : RM string :=
  lift (of_option (Usage (key ++ " manquant")) (text_flag key a)).

(** The error of a command that the state does not have. *)
Definition unknown_command {A} (tokens : list Text) : RM A :=
  s ← top; throw (UnknownCommand (label s) (utf8 (join [SPACE] tokens))).

(** ** [states/root.rs] *)

Context (database_url : option string).

Definition connect_local (tokens : list Text) : RM () :=
  args ← arguments tokens 2 1;
  mode ← arg 0 args;
  database_mode ←
    (if decide (mode = "in-memory"%string) then mret InMemoryMode
     else if decide (mode = "postgres"%string)
     then lift (of_option (Usage "DATABASE_URL doit être défini dans l'environnement (ou le fichier .env) pour connect local postgres")
                  (Postgres <$> database_url))
     else usage ("mode de base de données inconnu: " ++ mode ++ " (attendu in-memory|postgres)"));
  marie ← in_world (new_marie database_mode);
  _ ← print_line "connecté (local)";
  push (LocalConnected marie).

Definition connect_remote (tokens : list Text) : RM () :=
  args ← arguments tokens 2 1;
  addr ← arg 0 args;
  print_line ("connect remote n'est pas encore implémenté (adresse demandée: " ++ addr ++ ")").

(** The [match] of a [dispatch]: the first branch whose words the tokens
    start with. *)
Definition starts_with_words (words : list string) (tokens : list Text) : bool :=
  bool_decide (take (length words) tokens = chars <$> words).

Fixpoint route {A} (table : list (list string * RM A)) (otherwise : RM A) (tokens : list Text) : RM A :=
  match table with
  | [] => otherwise
  | (words, handler) :: table =>
      if starts_with_words words tokens then handler else route table otherwise tokens
  end.

Definition root_dispatch (tokens : list Text) : RM () :=
  route [(["connect"; "local"]%string, connect_local tokens);
         (["connect"; "remote"]%string, connect_remote tokens);
         (["connect"]%string, usage "connect local <in-memory|postgres> | connect remote <addr>")]
    (unknown_command tokens) tokens.

(** ** [states/local_connected.rs] *)

Context `{HashIter}.

(** The channels of a graph's first frame: every flag, read as a value. *)
Definition initial_channels (args : CommandArgs) : RM (gmap ChannelName Value) :=
  kvs ← mmap (λ kv : Text * Text, v ← lift (parse_value kv.2); mret (utf8 kv.1, v)) (hash_iter (flags args));
  mret (foldl (λ m kv, <[kv.1 := kv.2]> m) ∅ kvs).

Definition start_session (h : Handle) (args : NewSessionArgs) : RM () :=
  i ← ask h (CreateSession args);
  _ ← print_line ("session créée: " ++ ID_to_string (session_id_ i));
  push (ExecutingSession h (Live i)).

Definition create_session (h : Handle) (tokens : list Text) : RM () :=
  route [
    (["shell"]%string,
      args ← arguments tokens 3 1; expert ← arg 0 args; start_session h (NewShell expert));
    (["execute"; "graph"]%string,
      args ← arguments tokens 4 1; graph_id ← arg 0 args; initial ← initial_channels args;
      start_session h (NewGraph graph_id initial));
    (["consult"; "expert"]%string,
      args ← arguments tokens 4 2; expert ← arg 0 args; task ← arg 1 args;
      push (ExecutingSession h (Consult expert task)))]
    (usage ("create session shell <expert-id> | create session execute graph <graph-id> [channel=value ...]" ++
            " | create session consult expert <expert-id> " ++ utf8 (quoted (chars "<task>"))))
    (drop 2 tokens).

(** The text of an [IdError], through [Debug]. *)
Context (id_error_debug : IdError → string).

Definition delete_session (h : Handle) (tokens : list Text) : RM () :=
  args ← arguments tokens 2 1;
  text ← arg 0 args;
  i ← lift (map_err (λ e, Marie (id_error_debug e)) (SessionId_from_str text));
  _ ← ask h (DeleteSession i);
  print_line "session supprimée".

Definition create_model (h : Handle) (tokens : list Text) : RM () :=
  args ← arguments tokens 2 2;
  i ← arg 0 args;
  kind ← arg 1 args;
  if decide (kind ≠ "openai-compat"%string)
  then usage "seul le type de modèle 'openai-compat' est supporté"
  else
    base_url ← required "base-url" args;
    client_id ← required "client-id" args;
    api_key ← required "api-key" args;
    model ← required "model" args;
    _ ← ask h (InsertModel (CreateOpenAICompatible i base_url client_id api_key model (text_flag "system-prompt" args)));
    print_line "modèle créé".

Definition delete_model (h : Handle) (tokens : list Text) : RM () :=
  args ← arguments tokens 2 1; i ← arg 0 args;
  _ ← ask h (DeleteModel i); print_line "modèle supprimé".

Definition create_expert (h : Handle) (tokens : list Text) : RM () :=
  args ← arguments tokens 2 1;
  i ← arg 0 args;
  model_id ← required "model" args;
  prompt ← required "prompt" args;
  _ ← ask h (CreateExpert (mkExpert i prompt model_id (utf8 <$> flag_csv (chars "allowed-tools") args)));
  print_line "expert créé".

Definition delete_expert (h : Handle) (tokens : list Text) : RM () :=
  args ← arguments tokens 2 1; i ← arg 0 args;
  _ ← ask h (DeleteExpert i); print_line "expert supprimé".

Definition set_expert (h : Handle) (tokens : list Text) : RM () :=
  args ← arguments tokens 2 1;
  i ← arg 0 args;
  found ← ask h (GetExpert i);
  e ← lift (of_option (Usage ("expert introuvable: " ++ i)) found);
  let e := mkExpert (ex_id e) (default (ex_prompt e) (text_flag "prompt" args))
             (default (ex_model_id e) (text_flag "model" args))
             (match flag_str (chars "allowed-tools") args with
              | Some _ => utf8 <$> flag_csv (chars "allowed-tools") args
              | None => ex_allowed_tools e
              end) in
  _ ← ask h (ReplaceExpert e);
  print_line "expert mis à jour".

Definition START_NODE : GraphNodeId := "start".

Definition create_graph (h : Handle) (tokens : list Text) : RM () :=
  args ← arguments tokens 2 1;
  i ← arg 0 args;
  push (EditingGraph h (graph_spec_new i START_NODE spec_default)).

Definition list_of {A} (h : Handle) (c : Call (list A)) (show : list A → Printed) : RM () :=
  l ← ask h c; print (show l).

Definition local_dispatch (h : Handle) (tokens : list Text) : RM () :=
  route [
    (["list"; "sessions"]%string, list_of h ListSessions ShownSessions);
    (["create"; "session"]%string, create_session h tokens);
    (["delete"; "session"]%string, delete_session h tokens);
    (["list"; "models"]%string, list_of h ListModels ShownModels);
    (["create"; "model"]%string, create_model h tokens);
    (["delete"; "model"]%string, delete_model h tokens);
    (["list"; "experts"]%string, list_of h ListExperts ShownExperts);
    (["create"; "expert"]%string, create_expert h tokens);
    (["delete"; "expert"]%string, delete_expert h tokens);
    (["set"; "expert"]%string, set_expert h tokens);
    (["list"; "tools"]%string, list_of h ListTools ShownTools);
    (["list"; "graphs"]%string, list_of h ListGraphs ShownGraphs);
    (["create"; "graph"]%string, create_graph h tokens);
    (["disconnect"]%string, _ ← pop; mret ())]
    (unknown_command tokens) tokens.

(** ** [states/editing_graph.rs] *)

(** [let Some(EditingGraph { spec, .. }) = repl.stack.last_mut() else
    { unreachable!() }], then a change of the graph in place. *)
Definition edit_graph (f : GraphSpec → GraphSpec) : RM () := λ r,
  match stack r with
  | EditingGraph h g :: rest => (Ok (), set_stack (EditingGraph h (f g) :: rest) r)
  | _ => (Panic, r)
  end.

Definition set_entry_to (n : GraphNodeId) (g : GraphSpec) : GraphSpec :=
  mkGraphSpec (gs_id g) (gs_nodes g) (gs_edges g) n (gs_common g).
Definition remove_edges (n : GraphNodeId) (g : GraphSpec) : GraphSpec :=
  mkGraphSpec (gs_id g) (gs_nodes g) (base.delete n (gs_edges g)) (gs_entry g) (gs_common g).

Definition set_entry (tokens : list Text) : RM () :=
  args ← arguments tokens 2 1; n ← arg 0 args; edit_graph (set_entry_to n).

Definition list_nodes : RM () :=
  s ← top; match s with EditingGraph _ g => print (ShownNodes g) | _ => panic end.

Definition create_node (tokens : list Text) : RM () :=
  args ← arguments tokens 2 2; n ← arg 0 args; kind ← arg 1 args;
  push (EditingNode n (mkNodeSpec kind spec_default)).

Definition connect_nodes (tokens : list Text) : RM () :=
  args ← arguments tokens 1 2; a ← arg 0 args; b ← arg 1 args;
  edit_graph (λ g, add_edge g a b).

(** The second node must be given, and is not looked at. *)
Definition disconnect_nodes (tokens : list Text) : RM () :=
  args ← arguments tokens 1 2; a ← arg 0 args; edit_graph (remove_edges a).

Definition save_graph : RM () :=
  s ← pop;
  match s with
  | Some (EditingGraph h g) =>
      existing ← ask h (GraphLatest (gs_id g));
      _ ← match existing with
          | Some _ => ask h (GraphReplace g)
          | None => ask h (GraphInsert g)
          end;
      print_line "graphe sauvegardé"
  | _ => panic
  end.

Definition graph_dispatch (tokens : list Text) : RM () :=
  route [
    (["set"; "entry"]%string, set_entry tokens);
    (["list"; "nodes"]%string, list_nodes);
    (["create"; "node"]%string, create_node tokens);
    (["connect"]%string, connect_nodes tokens);
    (["disconnect"]%string, disconnect_nodes tokens);
    (["save"]%string, save_graph)]
    (unknown_command tokens) tokens.

(** ** [states/editing_node.rs] *)

Definition edit_node {A} (f : CommonSpec → Res CliError (A * CommonSpec)) : RM A := λ r,
  match stack r with
  | EditingNode n spec :: rest =>
      match f (ns_common spec) with
      | Ok (a, common) => (Ok a, set_stack (EditingNode n (mkNodeSpec (ns_kind spec) common) :: rest) r)
      | Err e => (Err e, r)
      | Panic => (Panic, r)
      end
  | _ => (Panic, r)
  end.

Definition push_if {A} (b : bool) (l : list A) (x : A) : list A := if b then l ++ [x] else l.

Definition with_channel (name : ChannelName) (reducer : Reducer) (exported inherited imported : bool)
    (default_value : option Value) (c : CommonSpec) : CommonSpec :=
  mkCommonSpec (budget c) (spec_channels c ++ [mkChannelSpec name reducer])
    (push_if inherited (inherited_channels c) name) (push_if exported (exported_channels c) name)
    (push_if imported (imported_channels c) name)
    (match default_value with Some v => <[name := v]> (default_values c) | None => default_values c end)
    (overrides_channels c).

Definition add_channel (tokens : list Text) : RM () :=
  args ← arguments tokens 2 1;
  name ← arg 0 args;
  reducer ← lift (flag_reducer (chars "reducer") args);
  exported ← lift (flag_bool (chars "exported") false args);
  inherited ← lift (flag_bool (chars "inherited") false args);
  imported ← lift (flag_bool (chars "imported") false args);
  default_value ← lift (flag_value (chars "default") args);
  edit_node (λ c, Ok ((), with_channel name (default LastWriteWins reducer) exported inherited imported default_value c)).

Definition set_membership (name : ChannelName) (present : option bool) (l : list ChannelName) : list ChannelName :=
  match present with
  | None => l
  | Some present =>
      let already := bool_decide (name ∈ l) in
      if present && negb already then l ++ [name]
      else if negb present && already then filter (λ n, n ≠ name) l
      else l
  end.

(** The first channel of that name; only its reducer can change. *)
Definition change_channel (name : ChannelName) (reducer : option Reducer) (exported inherited imported : option bool)
    (c : CommonSpec) : Res CliError (() * CommonSpec) :=
  match list_find (λ x, cs_name x = name) (spec_channels c) with
  | None => Err (Usage ("canal introuvable: " ++ name))
  | Some (idx, ch) =>
      Ok ((), mkCommonSpec (budget c)
        (<[idx := mkChannelSpec name (default (cs_reducer ch) reducer)]> (spec_channels c))
        (set_membership name inherited (inherited_channels c)) (set_membership name exported (exported_channels c))
        (set_membership name imported (imported_channels c)) (default_values c) (overrides_channels c))
  end.

Definition set_channel (tokens : list Text) : RM () :=
  args ← arguments tokens 2 1;
  name ← arg 0 args;
  reducer ← lift (flag_reducer (chars "reducer") args);
  exported ← lift (flag_bool_opt (chars "exported") args);
  inherited ← lift (flag_bool_opt (chars "inherited") args);
  imported ← lift (flag_bool_opt (chars "imported") args);
  edit_node (change_channel name reducer exported inherited imported).

Definition save_node : RM () :=
  s ← pop;
  match s with
  | Some (EditingNode n spec) =>
      _ ← edit_graph (λ g, add_node g n spec); print_line "noeud enregistré"
  | _ => panic
  end.

Definition node_dispatch (tokens : list Text) : RM () :=
  route [
    (["add"; "channel"]%string, add_channel tokens);
    (["set"; "channel"]%string, set_channel tokens);
    (["save"]%string, save_node)]
    (unknown_command tokens) tokens.

(** ** The loop of [Repl::run] *)

Definition dispatch (tokens : list Text) : RM () :=
  s ← top;
  match s with
  | Root => root_dispatch tokens
  | LocalConnected h => local_dispatch h tokens
  | EditingGraph _ _ => graph_dispatch tokens
  | EditingNode _ _ => node_dispatch tokens
  | ExecutingSession _ _ => panic
  end.

(** What [read_line] gives. *)
Inductive ReplInput := Line (line : Text) | Interrupted | Eof | ReadFailed (msg : string).

(** The text that [CliError] displays, less the [Debug] line of the verbose
    mode. *)
Definition show_error (e : CliError) : string :=
  match e with
  | Usage msg | Marie msg | Io msg => msg
  | UnknownCommand state command =>
      utf8 [QUOTE] ++ command ++ utf8 [QUOTE] ++ " n'est pas valide dans l'état '" ++ state ++ "' — essayez 'help'"
  end%string.

Definition print_error (e : CliError) : RM () := print_line ("erreur: " ++ show_error e).

(** [true] ends the loop. *)
Definition handle_eof : RM bool :=
  s ← top;
  match s with
  | Root => mret true
  | LocalConnected _ => _ ← pop; mret false
  | EditingGraph _ _ | EditingNode _ _ =>
      _ ← print_line "abandon de l'édition (non sauvegardé)"; _ ← pop; mret false
  | ExecutingSession _ _ => mret false
  end.

(** A command that fails is reported, and the loop goes on. *)
Definition attempt (m : RM ()) : RM bool := λ r,
  match m r with
  | (Ok _, r) => (Ok false, r)
  | (Err e, r) => (_ ← print_error e; mret false) r
  | (Panic, r) => (Panic, r)
  end.

(** Each command with its usage line. *)
Definition print_help : RM () := s ← top; mfor (commands s) print_line.

Definition is_root (s : ReplState) : bool := match s with Root => true | _ => false end.

Definition on_repl_line (line : Text) : RM bool :=
  let line := trim line in
  if decide (line = []) then mret false
  else match tokenize line with
  | Err e => _ ← print_error e; mret false
  | Panic => panic
  | Ok tokens =>
      s ← top;
      if decide (head tokens = Some (chars "help")) then _ ← print_help; mret false
      else if bool_decide (head tokens = Some (chars "exit")) && is_root s then mret true
      else attempt (dispatch tokens)
  end.

(** [executing_session::run], whose conversation is its own file ([LiveSession]);
    that it comes back, and without a panic, is assumed here. *)
Context (run_executing : Handle → SessionKind → W → W).

(** One turn of the loop.  A session is left before it is followed. *)
Definition repl_turn (i : ReplInput) : RM bool :=
  s ← top;
  match s with
  | ExecutingSession h kind =>
      _ ← modify (λ r, set_stack (tail (stack r)) r); _ ← sync_completer_table;
      _ ← modify (λ r, mkRepl (stack r) (completer_table r) (printed r) (run_executing h kind (world r)));
      mret false
  | _ =>
      match i with
      | Line line => on_repl_line line
      | Interrupted => _ ← print_line "^C"; mret false
      | Eof => handle_eof
      | ReadFailed msg => _ ← print_line ("erreur d'entrée: " ++ msg); mret true
      end
  end.

Definition repl_new (w : W) : Repl := mkRepl [Root] (commands Root) [] w.

(** [ReplHelper::complete]: what is left to type of each command. *)
Definition complete (input : string) (r : Repl) : list string :=
  (λ name, String.substring (String.length input) (String.length name - String.length input) name) <$>
    filter (λ name, (String.length input <? String.length name)%nat && String.prefix input name = true)
      (completer_table r).

(** ** What the stack holds *)

Inductive well_stacked : list ReplState → Prop :=
  | ws_root : well_stacked [Root]
  | ws_local h : well_stacked [LocalConnected h; Root]
  | ws_session h k : well_stacked [ExecutingSession h k; LocalConnected h; Root]
  | ws_graph h g : well_stacked [EditingGraph h g; LocalConnected h; Root]
  | ws_node n spec h g : well_stacked [EditingNode n spec; EditingGraph h g; LocalConnected h; Root].

(** The states are [l], and the completer offers the commands of the top. *)
Definition at_stack (l : list ReplState) (r : Repl) : Prop :=
  stack r = l ∧ Some (completer_table r) = commands <$> head l.

Definition repl_wf (r : Repl) : Prop := ∃ l, well_stacked l ∧ at_stack l r.

(** A computation that leaves the stack as it is, and panics only when [p]
    holds. *)
Definition quiet {A} (p : Prop) (l : list ReplState) (m : RM A) : Prop :=
  ∀ r, at_stack l r → match m r with (Panic, _) => p | (_, r') => at_stack l r' end.

(** One that leaves it well formed. *)
Definition settles {A} (p : Prop) (l : list ReplState) (m : RM A) : Prop :=
  ∀ r, at_stack l r → match m r with (Panic, _) => p | (_, r') => repl_wf r' end.

Context (p : Prop).

Lemma quiet_settles {A} l (m : RM A) : well_stacked l → quiet p l m → settles p l m.
Proof. intros Hl Hm r Hr. specialize (Hm r Hr). destruct (m r) as [[a|e|] r']; [by exists l|by exists l|done]. Qed.

Lemma quiet_ret {A} l (a : A) : quiet p l (mret a).
Proof. by intros r Hr. Qed.
Lemma quiet_throw {A} l e : quiet p l (throw e : RM A).
Proof. by intros r Hr. Qed.
Lemma quiet_lift {A} l (x : Res CliError A) : x ≠ Panic → quiet p l (lift x).
Proof. intros Hx r Hr. by destruct x. Qed.
Lemma quiet_print l x : quiet p l (print x).
Proof. by intros r Hr. Qed.
Lemma quiet_bind {A B} l (m : RM A) (k : A → RM B) : quiet p l m → (∀ a, quiet p l (k a)) → quiet p l (m ≫= k).
Proof.
  intros Hm Hk r Hr. specialize (Hm r Hr). unfold mbind, m_bind. destruct (m r) as [[a|e|] r']; [|done|done].
  by apply Hk.
Qed.
Lemma settles_bind {A B} l (m : RM A) (k : A → RM B) :
  well_stacked l → quiet p l m → (∀ a, settles p l (k a)) → settles p l (m ≫= k).
Proof.
  intros Hl Hm Hk r Hr. specialize (Hm r Hr). unfold mbind, m_bind.
  destruct (m r) as [[a|e|] r']; [by apply Hk|by exists l|done].
Qed.
Lemma quiet_top l s : head l = Some s → quiet p l top.
Proof. intros Hs r [Hr Ht]. unfold top. rewrite Hr. destruct l; [done|]. by split. Qed.
Lemma quiet_in_world {A} l (m : M W string A) : (∀ w, (m w).1 ≠ Panic) → quiet p l (in_world m).
Proof.
  intros Hm r Hr. unfold in_world. specialize (Hm (world r)). destruct (m (world r)) as [[a|e|] w]; simpl in *;
    [by destruct Hr|by destruct Hr|done].
Qed.

Lemma settles_push {l} s : well_stacked (s :: l) → settles p l (push s).
Proof. intros Hs r [Hr Ht]. simpl. exists (s :: l). split; [done|]. by split; simpl; rewrite ?Hr. Qed.

Lemma pop_eq s s' l r :
  stack r = s :: s' :: l → pop r = (Ok (Some s), mkRepl (s' :: l) (commands s') (printed r) (world r)).
Proof. intros Hr. unfold pop. by rewrite Hr. Qed.

Lemma settles_pop {A} s s' l (k : option ReplState → RM A) :
  settles p (s' :: l) (k (Some s)) → settles p (s :: s' :: l) (pop ≫= k).
Proof.
  intros Hk r [Hr Ht]. unfold mbind, m_bind. rewrite (pop_eq s s' l) by done. apply Hk. by split.
Qed.

Lemma quiet_arguments l tokens from n : (from ≤ length tokens)%nat → quiet p l (arguments tokens from n).
Proof. intros Hf. unfold arguments. rewrite decide_False by lia. apply quiet_lift. auto with args. Qed.
Lemma quiet_arg l i a : quiet p l (arg i a).
Proof. apply quiet_bind; [apply quiet_lift; auto with args|]. intros. apply quiet_ret. Qed.
Lemma quiet_required l key a : quiet p l (required key a).
Proof. apply quiet_lift. by destruct (text_flag key a). Qed.
Lemma quiet_unknown {A} l tokens s : head l = Some s → quiet p l (unknown_command tokens : RM A).
Proof. intros Hs. apply quiet_bind; [by eapply quiet_top|]. intros. apply quiet_throw. Qed.
Lemma quiet_mmap {A B} l (f : A → RM B) xs : (∀ x, quiet p l (f x)) → quiet p l (mmap f xs).
Proof.
  intros Hf. induction xs as [|x xs IH]; [apply quiet_ret|]. apply quiet_bind; [done|]. intros y.
  apply quiet_bind; [done|]. intros. apply quiet_ret.
Qed.
Lemma quiet_mfor {A} l (f : A → RM ()) xs : (∀ x, quiet p l (f x)) → quiet p l (mfor xs f).
Proof. intros Hf. induction xs as [|x xs IH]; [apply quiet_ret|]. by apply quiet_bind. Qed.

Create HintDb repl.
Hint Resolve quiet_ret quiet_throw quiet_print quiet_arguments quiet_arg quiet_required quiet_unknown
  quiet_mmap quiet_mfor : repl.

Lemma starts_with_words_length words tokens : starts_with_words words tokens = true → (length words ≤ length tokens)%nat.
Proof.
  unfold starts_with_words. intros Ht%bool_decide_eq_true. apply (f_equal length) in Ht.
  rewrite length_take, length_fmap in Ht. lia.
Qed.

Lemma settles_route l (table : list (list string * RM ())) otherwise tokens :
  Forall (λ e, starts_with_words e.1 tokens = true → settles p l e.2) table → settles p l otherwise →
  settles p l (route table otherwise tokens).
Proof.
  intros Ht Ho. induction Ht as [|[words m] table Hm Ht IH]; simpl; [done|].
  destruct (starts_with_words words tokens) eqn:E; [|done]. by apply Hm.
Qed.
End repl.

#[export] Hint Resolve quiet_ret quiet_throw quiet_print quiet_arguments quiet_arg quiet_required quiet_unknown
  quiet_mmap quiet_mfor : repl.

(** ** The stack stays well formed *)

Section safety.
Context {W : Type} `{LocalMarie W} `{ParseF64} `{HashIter}.
Context (node_debug : GraphNodeId → string) (database_url : option string) (id_error_debug : IdError → string).
(** The operations of an instance return their errors, but for the creation of a session. *)
Definition creates {A} (c : Call A) : bool := match c with CreateSession _ => true | _ => false end.
Context (new_ok : ∀ mode w, (new_marie mode w).1 ≠ Panic).
Context (call_ok : ∀ A h (c : Call A) w, creates c = false → (call_marie h c w).1 ≠ Panic).

Lemma quiet_ask {A} p l h (c : Call A) : creates c = false → quiet p l (ask h c).
Proof. intros Hc. apply quiet_in_world. intros w. by apply call_ok. Qed.
Lemma quiet_create (p : Prop) l h args : p → quiet p l (ask h (CreateSession args)).
Proof.
  intros Hp r Hr. unfold ask, in_world. destruct (call_marie h (CreateSession args) (world r)) as [[a|e|] w]; simpl;
    [by destruct Hr|by destruct Hr|done].
Qed.
Lemma quiet_list_of {A} p l h (c : Call (list A)) show : creates c = false → quiet p l (list_of h c show).
Proof. intros Hc. apply quiet_bind; [by apply quiet_ask|]. intros. apply quiet_print. Qed.
Hint Resolve quiet_ask quiet_list_of : repl.

(** Goes through the arguments of a command, up to its last step. *)
Ltac quietly :=
  repeat first
    [ apply settles_bind; [solve [constructor]|solve [eauto with repl args]|intros ?]
    | apply quiet_bind; [solve [eauto with repl args]|intros ?] ].
(** The branches of a route, each with the number of tokens it has. *)
Ltac routed :=
  apply settles_route; [|apply quiet_settles; [constructor|solve [apply quiet_throw|eauto with repl]]];
  repeat apply Forall_cons_2; [..|apply Forall_nil_2]; cbn [fst snd]; intros Hw;
  pose proof (starts_with_words_length _ _ Hw) as Hl; cbn [length] in Hl.

Lemma settles_root p tokens : settles p [Root] (root_dispatch node_debug database_url tokens).
Proof.
  routed.
  - unfold connect_local. quietly. apply settles_bind; [constructor| |intros mode].
    + repeat case_decide; [apply quiet_ret| |apply quiet_throw]. apply quiet_lift. by destruct database_url.
    + apply settles_bind; [constructor|by apply quiet_in_world|intros h].
      apply settles_bind; [constructor|apply quiet_print|intros _]. apply settles_push. constructor.
  - apply quiet_settles; [constructor|]. unfold connect_remote. quietly. apply quiet_print.
  - apply quiet_settles; [constructor|apply quiet_throw].
Qed.

Notation connected h := [LocalConnected h; Root].

Lemma settles_start (p : Prop) h args : p → settles p (connected h) (start_session h args).
Proof.
  intros Hp. unfold start_session. apply settles_bind; [constructor|by apply quiet_create|intros i]. apply settles_bind; [constructor|apply quiet_print|intros _].
  apply settles_push. constructor.
Qed.

Lemma settles_session (p : Prop) h tokens :
  p → (2 ≤ length tokens)%nat → settles p (connected h) (create_session h tokens).
Proof.
  intros Hp Ht. unfold create_session. routed; rewrite length_drop in Hl.
  - apply settles_bind; [constructor|apply quiet_arguments; lia|intros args].
    apply settles_bind; [constructor|apply quiet_arg|intros expert]. by apply settles_start.
  - apply settles_bind; [constructor|apply quiet_arguments; lia|intros args].
    apply settles_bind; [constructor|apply quiet_arg|intros g].
    apply settles_bind; [constructor| |by intros; apply settles_start].
    apply quiet_bind; [|intros; apply quiet_ret]. apply quiet_mmap. intros [k v].
    apply quiet_bind; [apply quiet_lift; auto with args|intros; apply quiet_ret].
  - apply settles_bind; [constructor|apply quiet_arguments; lia|intros args]. quietly.
    apply settles_push. constructor.
Qed.

Lemma quiet_create_model p l h tokens : (2 ≤ length tokens)%nat → quiet p l (create_model h tokens).
Proof.
  intros Ht. unfold create_model. quietly. case_decide; [apply quiet_throw|]. quietly. apply quiet_print.
Qed.

Lemma quiet_set_expert p l h tokens : (2 ≤ length tokens)%nat → quiet p l (set_expert h tokens).
Proof.
  intros Ht. unfold set_expert. quietly. apply quiet_bind; [apply quiet_lift; by destruct a1|intros e].
  quietly. apply quiet_print.
Qed.

Lemma quiet_delete_session l h tokens : (2 ≤ length tokens)%nat → quiet True l (delete_session id_error_debug h tokens).
Proof.
  intros Ht. unfold delete_session. quietly. apply quiet_bind; [|intros; quietly; apply quiet_print].
  intros r Hr. unfold lift. by destruct (SessionId_from_str a0).
Qed.

Definition deletes_session (tokens : list Text) : Prop :=
  starts_with_words ["delete"; "session"]%string tokens = true.
Definition creates_session (tokens : list Text) : Prop :=
  starts_with_words ["create"; "session"]%string tokens = true.
Definition changes_session (tokens : list Text) : Prop := deletes_session tokens ∨ creates_session tokens.

Lemma settles_local h tokens :
  settles (changes_session tokens) (connected h) (local_dispatch node_debug id_error_debug h tokens).
Proof.
  routed; try (apply quiet_settles; [constructor|by eauto with repl]).
  - apply settles_session; [by right|done].
  - intros r Hr. pose proof (quiet_delete_session (connected h) h tokens Hl r Hr) as Hq.
    destruct (delete_session _ h tokens r) as [[a|e|] r'];
      [exists (connected h); split; [constructor|done]..|by left].
  - apply quiet_settles; [constructor|by apply quiet_create_model].
  - apply quiet_settles; [constructor|]. unfold delete_model. quietly. apply quiet_print.
  - apply quiet_settles; [constructor|]. unfold create_expert. quietly. apply quiet_print.
  - apply quiet_settles; [constructor|]. unfold delete_expert. quietly. apply quiet_print.
  - apply quiet_settles; [constructor|by apply quiet_set_expert].
  - unfold create_graph. quietly. apply settles_push. constructor.
  - apply settles_pop, quiet_settles; [constructor|apply quiet_ret].
Qed.

Notation editing h g := [EditingGraph h g; LocalConnected h; Root].

Lemma settles_edit_graph p l h g f :
  (∀ g, well_stacked (EditingGraph h g :: l)) → settles p (EditingGraph h g :: l) (edit_graph f).
Proof.
  intros Hl r [Hr Ht]. unfold edit_graph. rewrite Hr. exists (EditingGraph h (f g) :: l). by split.
Qed.

Lemma settles_save_graph p h g : settles p (editing h g) save_graph.
Proof.
  apply settles_pop. apply settles_bind; [constructor|by apply quiet_ask|intros o].
  apply settles_bind; [constructor| |intros; apply quiet_settles; [constructor|apply quiet_print]].
  destruct o; by apply quiet_ask.
Qed.

Lemma settles_graph p h g tokens : settles p (editing h g) (graph_dispatch node_debug tokens).
Proof.
  routed.
  - unfold set_entry. quietly. apply settles_edit_graph. constructor.
  - apply quiet_settles; [constructor|]. intros r [Hr Ht]. unfold list_nodes, top, mbind, m_bind. rewrite Hr. by split.
  - unfold create_node. quietly. apply settles_push. constructor.
  - unfold connect_nodes. quietly. apply settles_edit_graph. constructor.
  - unfold disconnect_nodes. quietly. apply settles_edit_graph. constructor.
  - apply settles_save_graph.
Qed.

Lemma settles_edit_node p n spec h g (f : CommonSpec → Res CliError (() * CommonSpec)) :
  (∀ c, f c ≠ Panic) → settles p (EditingNode n spec :: editing h g) (edit_node f).
Proof.
  intros Hf r [Hr Ht]. unfold edit_node. rewrite Hr. pose proof (Hf (ns_common spec)).
  destruct (f (ns_common spec)) as [[a c]|e|]; [| |done].
  - exists (EditingNode n (mkNodeSpec (ns_kind spec) c) :: editing h g). split; [constructor|by split].
  - exists (EditingNode n spec :: editing h g). split; [constructor|by split].
Qed.

Lemma settles_node p n spec h g tokens :
  settles p (EditingNode n spec :: editing h g) (node_dispatch node_debug tokens).
Proof.
  routed.
  - unfold add_channel.
    repeat (apply settles_bind; [constructor|eauto with repl; apply quiet_lift; auto with args|intros ?]).
    by apply settles_edit_node.
  - unfold set_channel.
    repeat (apply settles_bind; [constructor|eauto with repl; apply quiet_lift; auto with args|intros ?]).
    apply settles_edit_node. intros c. unfold change_channel. by destruct (list_find _ _) as [[]|].
  - apply settles_pop. intros r [Hr Ht]. unfold mbind, m_bind, edit_graph. rewrite Hr.
    eexists. split; [apply ws_graph|]. by split.
Qed.

Lemma settles_dispatch l tokens :
  well_stacked l → (∀ h k rest, l ≠ ExecutingSession h k :: rest) →
  settles (changes_session tokens) l (dispatch node_debug database_url id_error_debug tokens).
Proof.
  intros Hl Hne r Hr. pose proof Hr as [Hst _]. unfold dispatch, top, mbind, m_bind. rewrite Hst.
  destruct Hl as [|h|h k|h g|n spec h g].
  - exact (settles_root _ tokens r Hr).
  - exact (settles_local h tokens r Hr).
  - by destruct (Hne h k [LocalConnected h; Root]).
  - exact (settles_graph _ h g tokens r Hr).
  - exact (settles_node _ n spec h g tokens r Hr).
Qed.

Lemma settles_attempt p l (m : M Repl CliError ()) : settles p l m → settles p l (attempt m).
Proof.
  intros Hm r Hr. specialize (Hm r Hr). unfold attempt. destruct (m r) as [[[]|e|] r']; [done| |done].
  destruct Hm as (l'&Hl&Hs&Ht). exists l'. split; [done|]. by split.
Qed.

Lemma tokenize_no_panic line : tokenize line ≠ Panic.
Proof.
  unfold tokenize. generalize Normal as mode, ([] : list Text) as tokens, ([] : Text) as current, false as has.
  induction line as [line IH] using (induction_ltof1 _ length); unfold ltof in IH.
  intros mode tokens current has. destruct line as [|c line]; [by destruct mode|]. simpl.
  assert (∀ mode tokens current has, tokenize_loop mode tokens current has line ≠ Panic) as H1'.
  { intros. apply IH. simpl. lia. }
  destruct mode as [| |d]; [repeat case_match; auto| |repeat case_match; auto].
  destruct line as [|d line']; [case_match; auto|]. destruct (_ && _); [|case_match; auto].
  apply IH. simpl. lia.
Qed.

(** The input is a command that deletes or creates a session. *)
Definition session_input (i : ReplInput) : Prop :=
  match i with
  | Line line => ∃ tokens, tokenize (trim line) = Ok tokens ∧ changes_session tokens
  | _ => False
  end.

Lemma settles_eof p l :
  well_stacked l → (∀ h k rest, l ≠ ExecutingSession h k :: rest) → settles p l handle_eof.
Proof.
  intros Hl Hne r Hr. pose proof Hr as [Hst _]. unfold handle_eof, top, mbind at 1, m_bind at 1. rewrite Hst.
  destruct Hl as [|h|h k|h g|n spec h g].
  - exists [Root]. split; [constructor|done].
  - refine (settles_pop p (LocalConnected h) Root [] (λ _, mret false) _ r Hr). apply quiet_settles; [constructor|apply quiet_ret].
  - by destruct (Hne h k [LocalConnected h; Root]).
  - refine (settles_bind p _ (print_line _) (λ _, _ ← pop; mret false) _ _ _ r Hr);
      [apply ws_graph|apply quiet_print|intros _].
    apply settles_pop, quiet_settles; [apply ws_local|apply quiet_ret].
  - refine (settles_bind p _ (print_line _) (λ _, _ ← pop; mret false) _ _ _ r Hr);
      [apply ws_node|apply quiet_print|intros _].
    apply settles_pop, quiet_settles; [apply ws_graph|apply quiet_ret].
Qed.

Lemma settles_line l line :
  well_stacked l → (∀ h k rest, l ≠ ExecutingSession h k :: rest) →
  settles (session_input (Line line)) l (on_repl_line node_debug database_url id_error_debug line).
Proof.
  intros Hl Hne. assert (∃ s rest, l = s :: rest) as (s&rest&->) by (destruct Hl; eauto).
  unfold on_repl_line. case_decide; [apply quiet_settles; [done|apply quiet_ret]|].
  pose proof (tokenize_no_panic (trim line)) as Hnp.
  destruct (tokenize (trim line)) as [tokens|e|] eqn:Et; [| |done].
  2: { apply quiet_settles; [done|]. apply quiet_bind; [apply quiet_print|intros; apply quiet_ret]. }
  apply settles_bind; [done|by eapply quiet_top|intros s']. case_decide.
  { apply quiet_settles; [done|]. apply quiet_bind; [|intros; apply quiet_ret].
    apply quiet_bind; [by eapply quiet_top|]. intros. apply quiet_mfor. intros. apply quiet_print. }
  destruct (_ && _); [apply quiet_settles; [done|apply quiet_ret]|].
  intros r Hr. pose proof (settles_attempt _ _ _ (settles_dispatch _ tokens Hl Hne) r Hr) as Hs.
  destruct (attempt _ r) as [[b|e|] r']; [done|done|]. by exists tokens.
Qed.
End safety.

(** C34: whatever is typed, the stack of the command line keeps the shape that
    its [unreachable!] rely on, graph over instance over root, node over
    graph, session over instance, and the completer always offers the commands
    of the state on top; and as long as making a process, the calls of it that
    create no session, and the conversation of a session do not panic, no turn
    panics, but for a line that deletes a session, whose identifier is not read as
    such, or creates one. *)
Theorem repl_stack_safe {W : Type} `{LocalMarie W} `{ParseF64} `{HashIter} (node_debug : GraphNodeId → string)
    (database_url : option string) (id_error_debug : IdError → string) (run_executing : Handle → SessionKind → W → W)
    (i : ReplInput) (r : Repl) :
  (∀ mode w, (new_marie mode w).1 ≠ Panic) → (∀ A h (c : Call A) w, creates c = false → (call_marie h c w).1 ≠ Panic) →
  repl_wf r →
  match repl_turn node_debug database_url id_error_debug run_executing i r with
  | (Panic, _) => session_input i
  | (_, r') => repl_wf r'
  end.
Proof.
  intros Hnew Hcall (l&Hl&Hr). pose proof Hr as [Hst Htab].
  unfold repl_turn, top, mbind at 1, m_bind at 1. rewrite Hst.
  assert (∀ m, (∀ h k rest, l ≠ ExecutingSession h k :: rest) → m = match i with
      | Line line => on_repl_line node_debug database_url id_error_debug line
      | Interrupted => _ ← print_line "^C"; mret false
      | Eof => handle_eof
      | ReadFailed msg => _ ← print_line ("erreur d'entrée: " ++ msg); mret true
      end → settles (session_input i) l m) as Hturn.
  { intros m Hne ->. destruct i as [line| | |msg].
    - by apply settles_line.
    - apply quiet_settles; [done|]. apply quiet_bind; [apply quiet_print|intros; apply quiet_ret].
    - by apply settles_eof.
    - apply quiet_settles; [done|]. apply quiet_bind; [apply quiet_print|intros; apply quiet_ret]. }
  destruct Hl as [|h|h k|h g|n spec h g]; try (by refine (Hturn _ _ eq_refl r Hr)).
  unfold mbind, m_bind, modify, sync_completer_table, set_stack. cbn. rewrite Hst.
  exists [LocalConnected h; Root]. split; [constructor|by split].
Qed.

(** ** Editing a graph by typing *)

Lemma starts_solid s : trimmed s → ∃ c s', s = c :: s' ∧ is_whitespace c = false.
Proof. by intros [? _]. Qed.

Lemma trimmed_app s m s' : trimmed s → trimmed s' → trimmed (s ++ m ++ s').
Proof.
  intros [(c&t&->&Hc) _] [_ (d&t'&->&Hd)]. split.
  - by exists c, (t ++ m ++ t' ++ [d]).
  - exists d, (c :: t ++ m ++ t'). split; [|done]. by rewrite <- !app_comm_cons, <- !app_assoc.
Qed.

Lemma word_line_trimmed w : word_ok w → trimmed (word_line w).
Proof.
  destruct w as [s|s|k v]; cbn [word_ok word_line].
  - intros [? ?]. by apply trimmed_bare.
  - intros _. apply trimmed_quoted.
  - intros (Hk&_&_). destruct k as [|c k].
    + unfold quote, quoted. rewrite app_nil_l. by apply (trimmed_wrap EQUALS QUOTE (QUOTE :: escape v)).
    + apply Forall_cons in Hk as [(Hc&_) _]. split; [by exists c, (k ++ EQUALS :: quote v)|].
      exists QUOTE, ((c :: k) ++ EQUALS :: QUOTE :: escape v). split; [|done].
      unfold quote, quoted. by rewrite <- app_assoc.
Qed.

Lemma words_trimmed w ws : Forall word_ok (w :: ws) → trimmed (join [SPACE] (word_line <$> w :: ws)).
Proof.
  revert w. induction ws as [|w' ws IH]; intros w [Hw Hws]%Forall_cons; [by apply word_line_trimmed|].
  rewrite !fmap_cons, join_cons. apply trimmed_app; [by apply word_line_trimmed|].
  rewrite <- fmap_cons. by apply IH.
Qed.

(** A line of words is the tokens of the words. *)
Lemma tokenize_line w ws :
  Forall word_ok (w :: ws) →
  trim (join [SPACE] (word_line <$> w :: ws)) = join [SPACE] (word_line <$> w :: ws) ∧
  tokenize (join [SPACE] (word_line <$> w :: ws)) = Ok (word_token <$> w :: ws) ∧
  join [SPACE] (word_line <$> w :: ws) ≠ [].
Proof.
  intros Hws. pose proof (words_trimmed w ws Hws) as Ht. split_and!; [by apply trim_id|by apply tokenize_words|].
  destruct Ht as [(c&s&->&_) _]. done.
Qed.

Lemma parse_positionals ws :
  Forall word_ok ws → Forall is_positional ws →
  parse_command_args (word_token <$> ws) (length ws) = Ok (mkArgs (word_text <$> ws) ∅).
Proof.
  intros Hok Hpos. unfold parse_command_args. rewrite length_fmap, decide_False by lia.
  rewrite drop_ge, take_ge by by rewrite length_fmap. cbn. do 2 f_equal. rewrite <- list_fmap_compose.
  apply list_fmap_ext. intros i w Hi. apply unquote_word.
  - by eapply Forall_lookup_1 in Hok.
  - by eapply Forall_lookup_1 in Hpos.
Qed.

(** What a user does to a graph, and the lines that do it. *)
Inductive Edit :=
  | ESetEntry (n : Text)
  | EConnect (a b : Text)
  | EDisconnect (a b : Text)
  | ECreateNode (n kind : Text).

Definition bare_word (s : string) : Word := Plain (chars s).
Definition command_line (ws : list Word) : Text := join [SPACE] (word_line <$> ws).

Definition edit_lines (e : Edit) : list Text :=
  match e with
  | ESetEntry n => [command_line [bare_word "set"; bare_word "entry"; InQuotes n]]
  | EConnect a b => [command_line [bare_word "connect"; InQuotes a; InQuotes b]]
  | EDisconnect a b => [command_line [bare_word "disconnect"; InQuotes a; InQuotes b]]
  | ECreateNode n kind =>
      [command_line [bare_word "create"; bare_word "node"; InQuotes n; InQuotes kind]; command_line [bare_word "save"]]
  end%string.

Definition edit_ok (e : Edit) : Prop :=
  match e with
  | ESetEntry n => no_escape n
  | EConnect a b | EDisconnect a b | ECreateNode a b => no_escape a ∧ no_escape b
  end.

#[export] Instance edit_ok_dec e : Decision (edit_ok e).
Proof. destruct e; simpl; apply _. Defined.

(** What each edit means. *)
Definition apply_edit (g : GraphSpec) (e : Edit) : GraphSpec :=
  match e with
  | ESetEntry n => mkGraphSpec (gs_id g) (gs_nodes g) (gs_edges g) (utf8 n) (gs_common g)
  | EConnect a b => mkGraphSpec (gs_id g) (gs_nodes g) (<[utf8 a := utf8 b]> (gs_edges g)) (gs_entry g) (gs_common g)
  | EDisconnect a _ => mkGraphSpec (gs_id g) (gs_nodes g) (base.delete (utf8 a) (gs_edges g)) (gs_entry g) (gs_common g)
  | ECreateNode n kind =>
      mkGraphSpec (gs_id g) (<[utf8 n := mkNodeSpec (utf8 kind) spec_default]> (gs_nodes g)) (gs_edges g) (gs_entry g)
        (gs_common g)
  end.

Lemma bare_chars_ok s : forallb (λ c, negb (is_whitespace c) && negb (c =? QUOTE)%Z && negb (c =? OPEN)%Z) (chars s) = true →
  chars s ≠ [] → word_ok (bare_word s).
Proof.
  intros Hs Hne. split; [|done]. apply Forall_forall. intros c Hc.
  pose proof (proj1 (forallb_forall _ _) Hs c (proj1 (list_elem_of_In _ _) Hc)) as Hb.
  rewrite !andb_true_iff, !negb_true_iff, !Z.eqb_neq in Hb. tauto.
Qed.

Section editing.
Context {W : Type} `{LocalMarie W} `{ParseF64} `{HashIter}.
Context (node_debug : GraphNodeId → string) (database_url : option string) (id_error_debug : IdError → string).
Context (run_executing : Handle → SessionKind → W → W).
Notation turn := (repl_turn node_debug database_url id_error_debug run_executing).

(** The lines of a session, typed one after the other. *)
Fixpoint repl_lines (lines : list Text) (r : Repl) : Res CliError bool * Repl :=
  match lines with
  | [] => (Ok false, r)
  | line :: lines =>
      match turn (Line line) r with
      | (Ok false, r) => repl_lines lines r
      | (x, r) => (x, r)
      end
  end.

Lemma line_turn w ws s rest r :
  Forall word_ok (w :: ws) → stack r = s :: rest → (∀ h k, s ≠ ExecutingSession h k) →
  word_token w ≠ chars "help" → word_token w ≠ chars "exit" →
  turn (Line (command_line (w :: ws))) r =
    attempt (dispatch node_debug database_url id_error_debug (word_token <$> w :: ws)) r.
Proof.
  intros Hws Hs Hne Hh He. destruct (tokenize_line w ws Hws) as (Ht&Htok&Hnil).
  unfold repl_turn, top, mbind at 1, m_bind at 1. rewrite Hs.
  transitivity (on_repl_line node_debug database_url id_error_debug (command_line (w :: ws)) r);
    [by destruct s; try done; destruct (Hne marie kind)|].
  unfold on_repl_line, command_line. rewrite Ht, decide_False, Htok by done.
  unfold top, mbind, m_bind. rewrite Hs. rewrite fmap_cons. cbn [head].
  rewrite decide_False by congruence. rewrite bool_decide_false by congruence. done.
Qed.

Lemma arguments_words ws from n tokens r :
  drop from tokens = word_token <$> ws → n = length ws → (from ≤ length tokens)%nat →
  Forall word_ok ws → Forall is_positional ws →
  arguments (W:=W) tokens from n r = (Ok (mkArgs (word_text <$> ws) ∅), r).
Proof.
  intros Hd -> Hl Hok Hpos. unfold arguments. rewrite decide_False by lia.
  unfold lift. by rewrite Hd, parse_positionals.
Qed.

(** Runs a line that the graph editor routes to [handler], whose arguments
    are the words [ws]. *)
Ltac run_command handler ws :=
  match goal with |- context [mkRepl (?s :: ?rest) _ _ _] => rewrite (line_turn _ _ s rest); [|by repeat constructor|done..] end;
  match goal with |- context [attempt (dispatch _ _ _ ?toks) ?r] =>
    let Hd := fresh in
    assert (dispatch node_debug database_url id_error_debug toks r = handler toks r) as Hd by reflexivity;
    unfold attempt; rewrite Hd; clear Hd
  end;
  unfold set_entry, connect_nodes, disconnect_nodes, create_node; unfold mbind at 1, m_bind at 1;
  rewrite (arguments_words ws) by (done || (simpl; lia) || by repeat constructor).

Lemma edit_run e r h g rest :
  edit_ok e → stack r = EditingGraph h g :: rest →
  repl_lines (edit_lines e) r =
    (Ok false, mkRepl (EditingGraph h (apply_edit g e) :: rest)
       (match e with ECreateNode _ _ => EDITING_GRAPH_COMMANDS | _ => completer_table r end)
       (match e with ECreateNode _ _ => printed r ++ [Message "noeud enregistré"] | _ => printed r end) (world r)).
Proof.
  intros He Hs. destruct r as [st tab out w]. simpl in Hs. subst st.
  assert (∀ s, forallb (λ c, negb (is_whitespace c) && negb (c =? QUOTE)%Z && negb (c =? OPEN)%Z) (chars s) = true →
    chars s ≠ [] → word_ok (bare_word s)) as Hb by apply bare_chars_ok.
  destruct e as [n|a b|a b|n kind]; cbn [edit_lines repl_lines edit_ok] in *.
  - run_command set_entry [InQuotes n]. done.
  - destruct He as [Ha Hb']. run_command connect_nodes [InQuotes a; InQuotes b]. done.
  - destruct He as [Ha Hb']. run_command disconnect_nodes [InQuotes a; InQuotes b]. done.
  - destruct He as [Ha Hb']. run_command create_node [InQuotes n; InQuotes kind].
    transitivity (match turn (Line (command_line [bare_word "save"]))
        (mkRepl (EditingNode (utf8 n) (mkNodeSpec (utf8 kind) spec_default) :: EditingGraph h g :: rest)
          EDITING_NODE_COMMANDS out w) with
      | (Ok false, r) => repl_lines [] r | (x, r) => (x, r) end); [reflexivity|].
    rewrite (line_turn (bare_word "save") []
      (EditingNode (utf8 n) (mkNodeSpec (utf8 kind) spec_default)) (EditingGraph h g :: rest));
      [|by repeat constructor|done..]. done.
Qed.

Lemma repl_lines_app l l' r r' :
  repl_lines l r = (Ok false, r') → repl_lines (l ++ l') r = repl_lines l' r'.
Proof.
  revert r. induction l as [|line l IH]; intros r; simpl; [by intros [= ->]|].
  destruct (turn (Line line) r) as [[[]|e|] r1]; try done. apply IH.
Qed.

Lemma edits_run es r h g rest :
  Forall edit_ok es → stack r = EditingGraph h g :: rest →
  ∃ r', repl_lines (concat (edit_lines <$> es)) r = (Ok false, r') ∧
    stack r' = EditingGraph h (foldl apply_edit g es) :: rest ∧ world r' = world r.
Proof.
  intros Hes. revert r g. induction Hes as [|e es He Hes IH]; intros r g Hs; [by exists r|].
  pose proof (edit_run e r h g rest He Hs) as Hr.
  destruct (IH (mkRepl (EditingGraph h (apply_edit g e) :: rest)
    (match e with ECreateNode _ _ => EDITING_GRAPH_COMMANDS | _ => completer_table r end)
    (match e with ECreateNode _ _ => printed r ++ [Message "noeud enregistré"] | _ => printed r end) (world r))
    (apply_edit g e)) as (r'&Hr'&Hs'&Hw); [done|].
  exists r'. rewrite fmap_cons. cbn [concat]. split_and!; [|done|done].
  by rewrite (repl_lines_app _ _ _ _ Hr).
Qed.

(** The calls that saving a graph makes. *)
Definition save_calls (h : Handle) (g : GraphSpec) : M W string () :=
  existing ← call_marie h (GraphLatest (gs_id g));
  _ ← match existing with
      | Some _ => call_marie h (GraphReplace g)
      | None => call_marie h (GraphInsert g)
      end;
  mret ().

Lemma in_world_bind {A B} (m : M W string A) (k : A → M W string B) (r : Repl) :
  in_world (m ≫= k) r = (in_world m ≫= λ a, in_world (k a)) r.
Proof. unfold in_world, mbind, m_bind. destruct r as [st tab out w]. simpl. by destruct (m w) as [[a|e|] w']. Qed.

Lemma save_run h g rest s r :
  stack r = EditingGraph h g :: s :: rest →
  turn (Line (command_line [bare_word "save"])) r =
    attempt (in_world (save_calls h g) ≫= λ _, print_line "graphe sauvegardé")
      (mkRepl (s :: rest) (commands s) (printed r) (world r)).
Proof.
  intros Hs. assert (Forall word_ok [bare_word "save"]) as Hok by by repeat constructor.
  rewrite (line_turn (bare_word "save") [] (EditingGraph h g) (s :: rest)); [|done..].
  destruct r as [st tab out w]. simpl in Hs. subst st.
  assert (dispatch node_debug database_url id_error_debug (word_token <$> [bare_word "save"])
    (mkRepl (EditingGraph h g :: s :: rest) tab out w) = save_graph (mkRepl (EditingGraph h g :: s :: rest) tab out w))
    as Hd by reflexivity.
  unfold attempt. rewrite Hd. clear Hd. unfold save_graph, save_calls, ask, in_world, mbind, m_bind. simpl.
  destruct (call_marie h (GraphLatest (gs_id g)) w) as [[[e|]|e|] w1]; simpl; try done.
  - by destruct (call_marie h (GraphReplace g) w1) as [[?|?|] ?].
  - by destruct (call_marie h (GraphInsert g) w1) as [[?|?|] ?].
Qed.

(** A save that fails loses the graph that was edited: the state that held it
    is gone already. *)
Lemma failed_save_drops_graph h g rest s r e w :
  stack r = EditingGraph h g :: s :: rest → save_calls h g (world r) = (Err e, w) →
  turn (Line (command_line [bare_word "save"])) r =
    (Ok false, mkRepl (s :: rest) (commands s) (printed r ++ [Message ("erreur: " ++ e)%string]) w).
Proof.
  intros Hs Hc. rewrite (save_run h g rest s r Hs). unfold attempt, in_world, mbind, m_bind. simpl.
  by rewrite Hc.
Qed.

(** Creating a graph, typing edits, and saving. *)
Definition graph_session (id : Text) (es : list Edit) : list Text :=
  command_line [bare_word "create"; bare_word "graph"; InQuotes id]
    :: concat (edit_lines <$> es) ++ [command_line [bare_word "save"]].

Lemma create_graph_run id h rest r :
  no_escape id → stack r = LocalConnected h :: rest →
  turn (Line (command_line [bare_word "create"; bare_word "graph"; InQuotes id])) r =
    (Ok false, mkRepl (EditingGraph h (graph_spec_new (utf8 id) START_NODE spec_default) :: LocalConnected h :: rest)
       EDITING_GRAPH_COMMANDS (printed r) (world r)).
Proof.
  intros Hi Hs. rewrite (line_turn _ _ (LocalConnected h) rest); [|by repeat constructor|done..].
  destruct r as [st tab out w]. simpl in Hs. subst st.
  set (toks := word_token <$> _).
  assert (dispatch node_debug database_url id_error_debug toks (mkRepl (LocalConnected h :: rest) tab out w) =
    create_graph h toks (mkRepl (LocalConnected h :: rest) tab out w)) as Hd by reflexivity.
  unfold attempt. rewrite Hd. unfold create_graph. unfold mbind at 1, m_bind at 1.
  rewrite (arguments_words [InQuotes id]) by (done || (simpl; lia) || by repeat constructor). done.
Qed.

Lemma session_run id es h rest r :
  no_escape id → Forall edit_ok es → stack r = LocalConnected h :: rest →
  let g := foldl apply_edit (graph_spec_new (utf8 id) START_NODE spec_default) es in
  ∃ out, repl_lines (graph_session id es) r =
    (let '(x, r') := attempt (in_world (save_calls h g) ≫= λ _, print_line "graphe sauvegardé")
       (mkRepl (LocalConnected h :: rest) LOCAL_CONNECTED_COMMANDS out (world r)) in
     match x with Ok false => (Ok false, r') | _ => (x, r') end).
Proof.
  intros Hi Hes Hs g. unfold graph_session. cbn [repl_lines]. rewrite (create_graph_run id h rest r) by done.
  destruct (edits_run es (mkRepl (EditingGraph h (graph_spec_new (utf8 id) START_NODE spec_default)
    :: LocalConnected h :: rest) EDITING_GRAPH_COMMANDS (printed r) (world r)) h
    (graph_spec_new (utf8 id) START_NODE spec_default) (LocalConnected h :: rest) Hes eq_refl) as (r'&Hr'&Hs'&Hw).
  rewrite (repl_lines_app _ _ _ _ Hr'). fold g in Hs'. cbn [repl_lines world] in *.
  rewrite (save_run h g rest (LocalConnected h) r' Hs'), Hw. exists (printed r').
  by destruct (attempt _ _) as [[[]|e|] r1].
Qed.
End editing.

(** ** The instance of one catalogue of graphs in memory *)

Section graph_instance.
Context {S : Type} `{StoreCatalog S} `{JsonCodec GraphSpec}.
(** The [Debug] text of an error of the catalogue. *)
Context (catalog_debug : CatalogError → string).

Definition shown {A} (m : M (Domain S CommonSpec) CatalogError A) : M (Domain S CommonSpec) string A := λ d,
  let '(x, d) := m d in (map_err catalog_debug x, d).

(** The calls on graphs are those of [graph/domain.rs]; the others are not
    served. *)
Definition graph_calls : LocalMarie (Domain S CommonSpec) := {|
  Handle := ();
  new_marie := λ _, mret ();
  call_marie := λ A _ c,
    match c in Call T return M (Domain S CommonSpec) string T with
    | ListGraphs => shown graphs_list
    | GraphLatest id => shown (graphs_latest id)
    | GraphReplace g => shown (graphs_replace g)
    | GraphInsert g => shown (graphs_insert g)
    | _ => throw "not served"
    end |}.
End graph_instance.

(** C12: a graph that a user creates, edits and saves by typing commands is the
    latest version of its identifier in the catalogue, and it is the new graph
    changed by each edit in turn; the names may hold spaces, quotes, brackets
    and backslashes, but no backslash before a quote or at their end (it
    would be read as an escape and lost, or would leave the quote open); the
    user is back in the instance's state. *)
Theorem typed_graph_is_saved `{HI : HashIter} `{JsonCodec GraphSpec} `{ParseF64} (node_debug : GraphNodeId → string)
    (database_url : option string) (id_error_debug : IdError → string) (catalog_debug : CatalogError → string)
    (h : @Handle _ (graph_calls catalog_debug)) (id : Text) (es : list Edit) (rest : list (@ReplState _ (graph_calls catalog_debug)))
    (r : @Repl (Domain (gmap (string * string) (list StoredItem)) CommonSpec) (graph_calls catalog_debug)) :
  no_escape id → Forall edit_ok es → stack r = LocalConnected h :: rest →
  ∃ r' ref,
    repl_lines node_debug database_url id_error_debug (λ _ _ w, w) (graph_session id es) r = (Ok false, r') ∧
    stack r' = LocalConnected h :: rest ∧
    graphs_latest (utf8 id) (world r') = (Ok (Some ref), world r') ∧
    graphs_get ref (world r') =
      (Ok (foldl apply_edit (graph_spec_new (utf8 id) START_NODE spec_default) es), world r').
Proof.
  intros Hi Hes Hs. set (g := foldl apply_edit _ es).
  assert (gs_id g = utf8 id) as Hg.
  { unfold g. clear. change (utf8 id) with (gs_id (graph_spec_new (utf8 id) START_NODE spec_default)) at 2.
    generalize (graph_spec_new (utf8 id) START_NODE spec_default). induction es as [|e es IH]; intros g; [done|].
    simpl. rewrite IH. by destruct e. }
  destruct (session_run node_debug database_url id_error_debug (λ _ _ w, w) id es h rest r Hi Hes Hs) as (out&->).
  fold g. destruct (graphs_insert_latest g (world r)) as (ref&d'&Hins&Hlat&Hget).
  assert (save_calls (H:=graph_calls catalog_debug) h g (world r) = (Ok (), d')) as Hsave.
  { unfold save_calls, mbind, m_bind. cbn [call_marie graph_calls]. unfold shown. rewrite graphs_latest_in_memory.
    cbn [map_err]. pose proof (graphs_replace_active g (world r)) as Hr.
    destruct (last_active _); cbn [fmap option_fmap option_map]; [rewrite Hr|]; by rewrite Hins. }
  unfold attempt, in_world, mbind, m_bind. cbn [world]. rewrite Hsave. cbn.
  eexists _, ref. split_and!; [done|done|by rewrite <- Hg|done].
Qed.

(** ** Witnesses *)

Global Instance Reducer_eq_dec' : EqDecision Reducer. Proof. solve_decision. Defined.
Global Instance Reducer_countable : Countable Reducer.
Proof.
  apply (inj_countable' (λ r, match r with LastWriteWins => 0%Z | Append => 1%Z | Max => 2%Z end)
    (λ z, match z with 0%Z => LastWriteWins | 1%Z => Append | _ => Max end)). by intros [].
Defined.
Global Instance ChannelSpec_eq_dec' : EqDecision ChannelSpec. Proof. solve_decision. Defined.
Global Instance ChannelSpec_countable : Countable ChannelSpec.
Proof.
  apply (inj_countable' (λ c, (cs_name c, cs_reducer c)) (λ p, mkChannelSpec p.1 p.2)). by intros [].
Defined.
Global Instance Budget_eq_dec' : EqDecision Budget. Proof. solve_decision. Defined.
Global Instance CommonSpec_eq_dec' : EqDecision CommonSpec. Proof. solve_decision. Defined.
Global Instance CommonSpec_countable : Countable CommonSpec.
Proof.
  apply (inj_countable' (λ c, (max_step (budget c), max_tokens (budget c), spec_channels c, inherited_channels c,
      exported_channels c, imported_channels c, default_values c, overrides_channels c))
    (λ '(s, t, ch, i, e, m, d, o), mkCommonSpec (mkBudget s t) ch i e m d o)). by intros [[] ? ? ? ? ? ?].
Defined.
Global Instance NodeSpec_eq_dec' : EqDecision NodeSpec. Proof. solve_decision. Defined.
Global Instance NodeSpec_countable : Countable NodeSpec.
Proof. apply (inj_countable' (λ n, (ns_kind n, ns_common n)) (λ p, mkNodeSpec p.1 p.2)). by intros []. Defined.
Global Instance GraphSpec_eq_dec' : EqDecision GraphSpec. Proof. solve_decision. Defined.
Global Instance GraphSpec_countable : Countable GraphSpec.
Proof.
  apply (inj_countable' (λ g, (gs_id g, gs_nodes g, gs_edges g, gs_entry g, gs_common g))
    (λ '(i, n, e, s, c), mkGraphSpec i n e s c)). by intros [].
Defined.

(** An instance that serves nothing. *)
Definition offline : LocalMarie () := {|
  Handle := (); new_marie := λ _, mret (); call_marie := λ A _ _, throw "offline" |}.

Lemma repl_stack_safe_witness :
  ∃ r' : @Repl () offline,
    @repl_turn () offline no_doubles (λ n, n) None canonical_iter (λ _, "bad id") (λ _ _ w, w)
      (Line (chars "connect local in-memory")) (repl_new ()) = (Ok false, r') ∧ repl_wf r'.
Proof.
  pose proof (@repl_stack_safe () offline no_doubles canonical_iter (λ n, n) None (λ _, "bad id") (λ _ _ w, w)
    (Line (chars "connect local in-memory")) (repl_new ())) as Hw.
  eexists. split; [reflexivity|]. apply Hw.
  - discriminate.
  - discriminate.
  - exists [Root]. split; [constructor|split; reflexivity].
Defined.

(** The identifier of a session is cut at its sixteenth byte: a name of
    thirty-two bytes with a two-byte character there takes the program down. *)
Example delete_session_panics :
  run_res (@repl_turn () offline no_doubles (λ n, n) None canonical_iter (λ _, "bad id") (λ _ _ w, w)
    (Line (chars "delete session " ++ replicate 15 97%Z ++ [233%Z] ++ replicate 15 97%Z)))
    (mkRepl [LocalConnected (H:=offline) (); Root] LOCAL_CONNECTED_COMMANDS [] ()) = Panic.
Proof. reflexivity. Qed.

Definition demo_edits : list Edit :=
  [ECreateNode (chars "ask me") (chars "ask\expert"); EConnect (chars "ask me") (chars "end");
   ESetEntry (chars "ask me"); EDisconnect (chars "ask me") (chars "elsewhere")].
Definition empty_graphs : Domain (gmap (string * string) (list StoredItem)) CommonSpec := mkDomain ∅ ∅.
Notation demo_graph_calls := (@graph_calls _ (@InMemory.store canonical_iter) numbered (λ _, "error")).

(** The last edit names a node that [ask me] is not connected to; its edge is
    gone all the same. *)
Lemma typed_graph_is_saved_witness :
  ∃ r' ref,
    @repl_lines _ demo_graph_calls no_doubles canonical_iter (λ n, n) None (λ _, "bad id") (λ _ _ w, w)
      (graph_session (chars "g 1") demo_edits)
      (@mkRepl _ demo_graph_calls [LocalConnected (H:=demo_graph_calls) (); Root] LOCAL_CONNECTED_COMMANDS [] empty_graphs)
    = (Ok false, r') ∧
    @graphs_get _ (@InMemory.store canonical_iter) numbered ref (world r') =
      (Ok (mkGraphSpec "g 1" {["ask me" := mkNodeSpec "ask\expert" spec_default]} ∅ "ask me" spec_default), world r').
Proof.
  destruct (@typed_graph_is_saved canonical_iter numbered no_doubles (λ n, n) None (λ _, "bad id") (λ _, "error")
    () (chars "g 1") demo_edits [Root]
    (@mkRepl _ demo_graph_calls [LocalConnected (H:=demo_graph_calls) (); Root] LOCAL_CONNECTED_COMMANDS [] empty_graphs))
    as (r'&ref&Hr&_&_&Hg).
  - apply (bool_decide_unpack _). vm_compute. exact I.
  - apply (bool_decide_unpack _). vm_compute. exact I.
  - reflexivity.
  - exists r', ref. split; [exact Hr|exact Hg].
Defined.
