(* ===== verification/HitlForm.v ===== *)
(** * The form of a request in a browser ([marie-leptos/src/hitl_form.rs])

    One widget per question, each of which changes the answers of the form when
    it is used; and the path of a file that is sent with an answer
    ([marie-web-example/src/dto.rs]).  The questions and answers of the page
    ([QuestionView], [AnswerView]) have the variants of those of [Types]. *)

From Stdlib Require Import Ascii.
From S2P Require Import Prelude Ids Json Types Frames Errors Sessions Hitl.

(** ** Events *)

(** What a widget reports: a text typed, an option of a menu, a radio button,
    a box with its new state, or the name of a file whose content was sent. *)
Inductive FormEvent :=
  | Typed (key value : string)
  | Selected (key value : string)
  | Chosen (key option : string)
  | Checked (key option : string) (checked : bool)
  | Uploaded (key filename : string).

Definition event_key (e : FormEvent) : string :=
  match e with Typed k _ | Selected k _ | Chosen k _ | Checked k _ _ | Uploaded k _ => k end.

(** [HitlQuestion]: the events of the widget of a question.  A menu offers the
    empty choice besides its options; [accept] only guides the choice of a file. *)
Inductive emits (q : Question) : FormEvent → Prop :=
  | emits_short v : q_kind q = ShortText → emits q (Typed (q_key q) v)
  | emits_long v : q_kind q = LongText → emits q (Typed (q_key q) v)
  | emits_select options v : q_kind q = Select options → v = "" ∨ v ∈ options → emits q (Selected (q_key q) v)
  | emits_radio options v : q_kind q = Radio options → v ∈ options → emits q (Chosen (q_key q) v)
  | emits_check options v b : q_kind q = Checkboxes options → v ∈ options → emits q (Checked (q_key q) v b)
  | emits_upload accept name : q_kind q = FileUpload accept → emits q (Uploaded (q_key q) name).

(** [single_value] *)
Definition single_value (answers : Answers) (key : string) : string :=
  match answers !! key with Some (Single value) => value | _ => "" end.

(** [prop:checked] of a radio button and of a box. *)
Definition radio_checked (answers : Answers) (key option : string) : bool :=
  match answers !! key with Some (Single value) => bool_decide (value = option) | _ => false end.
Definition box_checked (answers : Answers) (key option : string) : bool :=
  match answers !! key with Some (Multiple values) => bool_decide (option ∈ values) | _ => false end.

(** The values of a group of boxes after one of them changes. *)
Definition toggle (option : string) (checked : bool) (values : list string) : list string :=
  if checked then if decide (option ∈ values) then values else values ++ [option]
  else filter (λ value, value ≠ option) values.

Definition form_event (e : FormEvent) (answers : Answers) : Answers :=
  match e with
  | Typed k v | Selected k v | Chosen k v | Uploaded k v => <[k := Single v]> answers
  | Checked k v b =>
      (* [entry(key).or_insert_with(|| Multiple(Vec::new()))] *)
      let entry := default (Multiple []) (answers !! k) in
      <[k := match entry with Multiple values => Multiple (toggle v b values) | Single _ => entry end]> answers
  end.

Definition form_run (es : list FormEvent) (answers : Answers) : Answers := foldl (λ m e, form_event e m) answers es.

(** ** What the answers are *)

(** The answer to one question, from the events of its widget alone. *)
Definition answer_event (o : option Answer) (e : FormEvent) : option Answer :=
  match e with
  | Typed _ v | Selected _ v | Chosen _ v | Uploaded _ v => Some (Single v)
  | Checked _ v b =>
      match default (Multiple []) o with
      | Multiple values => Some (Multiple (toggle v b values))
      | Single v => Some (Single v)
      end
  end.

Lemma form_event_lookup e answers k :
  form_event e answers !! k = if decide (event_key e = k) then answer_event (answers !! k) e else answers !! k.
Proof.
  destruct e as [k' v|k' v|k' v|k' v b|k' v]; simpl; destruct (decide (k' = k)) as [->|Hk];
    rewrite ?lookup_insert_eq, ?lookup_insert_ne by done; try done.
  by destruct (answers !! k) as [[s|l]|].
Qed.

Lemma form_run_lookup es answers k :
  form_run es answers !! k = foldl answer_event (answers !! k) (filter (λ e, event_key e = k) es).
Proof.
  revert answers. induction es as [|e es IH]; intros answers; simpl; [done|].
  rewrite IH, form_event_lookup, filter_cons. by case_decide.
Qed.

(** The last event of a widget. *)
Definition last_event (es : list FormEvent) (k : string) : option FormEvent :=
  last (filter (λ e, event_key e = k) es).

Lemma answer_last l o e : (∀ k v b, e ≠ Checked k v b) → foldl answer_event o (l ++ [e]) = answer_event None e.
Proof. intros He. rewrite foldl_app. simpl. by destruct e; try destruct (He key option checked). Qed.

Lemma toggle_incl v b l (options : list string) : v ∈ options → Forall (.∈ options) l → Forall (.∈ options) (toggle v b l).
Proof.
  intros Hv Hl. unfold toggle. destruct b.
  - case_decide; [done|]. apply Forall_app. by repeat constructor.
  - rewrite Forall_forall in *. intros x [_ Hx]%list_elem_of_filter. auto.
Qed.

Lemma boxes_answer (options : list string) l :
  Forall (λ e, ∃ k v b, e = Checked k v b ∧ v ∈ options) l → l ≠ [] →
  ∃ vs, foldl answer_event None l = Some (Multiple vs) ∧ Forall (.∈ options) vs.
Proof.
  induction l as [|e l IH] using rev_ind; [done|]. intros [Hl [(k&v&b&->&Hv) _]%Forall_cons]%Forall_app _.
  rewrite foldl_app. simpl. destruct l as [|e l].
  - exists (toggle v b []). split; [done|]. by apply toggle_incl.
  - destruct IH as (vs&->&Hvs); [done..|]. exists (toggle v b vs). split; [done|]. by apply toggle_incl.
Qed.

Section accepted.
Context `{Unicode}.

(** The widget of [q] was used, and its last event is acceptable: an option
    and not the empty choice, a file whose name suits the question. *)
Definition settled (es : list FormEvent) (q : Question) : Prop :=
  match q_kind q, last_event es (q_key q) with
  | _, None => False
  | Select options, Some (Selected _ v) => v ∈ options
  | FileUpload accept, Some (Uploaded _ name) => fits (FileUpload accept) (Single name)
  | _, Some _ => True
  end.

Lemma settled_iff q l :
  Forall (emits q) l →
  (∃ a, foldl answer_event None l = Some a ∧ fits (q_kind q) a) ↔
  match q_kind q, last l with
  | _, None => False
  | Select options, Some (Selected _ v) => v ∈ options
  | FileUpload accept, Some (Uploaded _ name) => fits (FileUpload accept) (Single name)
  | _, Some _ => True
  end.
Proof.
  intros Hl. destruct l as [|e l _] using rev_ind.
  { simpl. split; [by intros (a&?&_)|by destruct (q_kind q)]. }
  rewrite last_snoc. apply Forall_app in Hl as Hle. destruct Hle as [_ [He _]%Forall_cons].
  destruct (q_kind q) as [| |options|options|options|accept] eqn:Hk.
  5: { split; [done|]. intros _. destruct (boxes_answer options (l ++ [e])) as (vs&Hvs&Hin).
    - apply (Forall_impl _ _ _ Hl). intros e' He'. inversion He'; simplify_eq; try congruence.
      do 3 eexists. split; [done|]. congruence.
    - by destruct l.
    - exists (Multiple vs). split; [done|]. by constructor. }
  all: rewrite answer_last by (intros k v b ->; inversion He; congruence).
  all: inversion He; simplify_eq; try congruence; simpl.
  - split; [done|]. intros _. eexists. split; [done|constructor].
  - split; [done|]. intros _. eexists. split; [done|constructor].
  - split; [intros (a&[= <-]&Hf); by inversion Hf|]. intros Hv. eexists. split; [done|by constructor].
  - split; [done|]. intros _. eexists. split; [done|]. constructor. congruence.
  - split; [by intros (a&[= <-]&Hf)|]. intros Hf. by eexists.
Qed.

Lemma emits_key q e : emits q e → event_key e = q_key q.
Proof. by destruct 1. Qed.

Lemma same_key (qs : list Question) q q' :
  NoDup (q_key <$> qs) → q ∈ qs → q' ∈ qs → q_key q = q_key q' → q = q'.
Proof.
  intros Hnd [i Hi]%list_elem_of_lookup [j Hj]%list_elem_of_lookup Hk.
  assert (i = j) as ->; [|congruence].
  eapply NoDup_lookup; [exact Hnd|rewrite list_lookup_fmap, Hi; done|rewrite list_lookup_fmap, Hj; simpl; congruence].
Qed.

(** Whatever is done with the widgets of a form, in any order, the answers
    it sends are accepted by the service exactly when each of its widgets was
    used and was left on an option, or on a file with a suitable name: texts,
    radio buttons and boxes always give an answer of the right shape. *)
Theorem form_answers_accepted (qs : list Question) (es : list FormEvent) :
  NoDup (q_key <$> qs) → Forall (λ e, Exists (λ q, emits q e) qs) es →
  validate_answers qs (form_run es ∅) = Ok (form_run es ∅) ↔ Forall (settled es) qs.
Proof.
  intros Hnd Hes. rewrite validate_answers_spec.
  cut (Forall (λ q, ∃ a, form_run es ∅ !! q_key q = Some a ∧ fits (q_kind q) a) qs ↔ Forall (settled es) qs); [tauto|].
  rewrite !Forall_forall. apply forall_proper. intros q.
  cut (q ∈ qs → ((∃ a, form_run es ∅ !! q_key q = Some a ∧ fits (q_kind q) a) ↔ settled es q)); [tauto|].
  intros Hq. rewrite form_run_lookup, lookup_empty. apply settled_iff, Forall_forall.
  intros e [Hk He]%list_elem_of_filter. rewrite Forall_forall in Hes.
  apply Hes, Exists_exists in He as (q'&Hq'&He). pose proof (emits_key _ _ He).
  by rewrite (same_key qs q q') by (done || congruence).
Qed.
End accepted.

(** ** The path of a file *)

(** [segment.rsplit(['/', '\\']).next()]: what follows the last separator. *)
Definition is_separator (c : ascii) : bool := bool_decide (c = "/"%char ∨ c = "\"%char).
Fixpoint last_segment (current s : string) : string :=
  match s with
  | EmptyString => current
  | String c s => if is_separator c then last_segment "" s else last_segment (current +:+ String c "") s
  end.

Definition sanitize (segment : string) : string :=
  let candidate := last_segment "" segment in
  if bool_decide (candidate = "" ∨ candidate = "." ∨ candidate = "..") then "_" else candidate.

Definition hitl_upload_path (request_id key filename : string) : string :=
  "hitl/" +:+ request_id +:+ "/" +:+ sanitize key +:+ "/" +:+ sanitize filename.

(** A name of a file or of a directory: no separator, and neither the
    directory nor its parent. *)
Definition plain_name (s : string) : Prop :=
  all_chars (λ c, negb (is_separator c)) s = true ∧ s ≠ "" ∧ s ≠ "." ∧ s ≠ "..".

Lemma append_cons c s t : String c s +:+ t = String c (s +:+ t).
Proof. reflexivity. Qed.
Lemma append_nil s : s +:+ "" = s.
Proof. induction s as [|c s IH]; [done|]. by rewrite append_cons, IH. Qed.
Lemma append_snoc s c t : (s +:+ String c "") +:+ t = s +:+ String c t.
Proof. induction s as [|c' s IH]; [done|]. by rewrite !append_cons, IH. Qed.

Lemma all_chars_app f s s' : all_chars f (s +:+ s') = all_chars f s && all_chars f s'.
Proof. induction s as [|c s IH]; [done|]. rewrite append_cons. simpl. by rewrite IH, andb_assoc. Qed.

Lemma last_segment_plain current s :
  all_chars (λ c, negb (is_separator c)) current = true →
  all_chars (λ c, negb (is_separator c)) (last_segment current s) = true.
Proof.
  revert current. induction s as [|c s IH]; intros current Hc; simpl; [done|].
  destruct (is_separator c) eqn:E; [by apply IH|]. apply IH. rewrite all_chars_app, Hc. simpl. by rewrite E.
Qed.

Lemma last_segment_same current s :
  all_chars (λ c, negb (is_separator c)) s = true → last_segment current s = current +:+ s.
Proof.
  revert current. induction s as [|c s IH]; intros current; simpl; [by rewrite append_nil|].
  intros [Hc Hs]%andb_prop. destruct (is_separator c); [done|]. by rewrite IH, append_snoc.
Qed.

Lemma sanitize_plain s : plain_name (sanitize s).
Proof.
  unfold sanitize. case_bool_decide as Hs; [done|]. split; [by apply last_segment_plain|]. tauto.
Qed.

(** A file that is sent with an answer stays in the directory of its
    request: the path is that directory and two plain names, whatever the key
    of the question and the name of the file hold; names that were plain are
    kept. *)
Theorem upload_path_confined (request_id key filename : string) :
  ∃ dir file, hitl_upload_path request_id key filename = "hitl/" +:+ request_id +:+ "/" +:+ dir +:+ "/" +:+ file ∧
    plain_name dir ∧ plain_name file ∧ (plain_name key → dir = key) ∧ (plain_name filename → file = filename).
Proof.
  assert (∀ s, plain_name s → sanitize s = s) as Hkeep.
  { intros s (Hs&Hne). unfold sanitize. rewrite last_segment_same by done. simpl.
    rewrite bool_decide_false; [done|tauto]. }
  exists (sanitize key), (sanitize filename). split_and!; try apply sanitize_plain; auto.
Qed.

Example demo_upload_path :
  hitl_upload_path "7" "../../etc" "C:\notes\plan.md" = "hitl/7/etc/plan.md" ∧
  hitl_upload_path "7" "cv" ".." = "hitl/7/cv/_".
Proof. split; reflexivity. Qed.

(** ** A form that is filled *)

Definition q_env : Question := mkQuestion "env" "" (Select ["dev"; "prod"]).
Definition q_who : Question := mkQuestion "who" "" (Checkboxes ["a"; "b"]).
Definition demo_questions : list Question := [mkQuestion "why" "" ShortText; q_env; q_who].
Definition demo_events : list FormEvent :=
  [Typed "why" "x"; Checked "who" "a" true; Selected "env" ""; Selected "env" "prod"; Checked "who" "a" false].

Lemma demo_emits : Forall (λ e, Exists (λ q, emits q e) demo_questions) demo_events.
Proof.
  repeat apply Forall_cons_2; [..|apply Forall_nil_2].
  - by apply Exists_cons_hd, emits_short.
  - by apply Exists_cons_tl, Exists_cons_tl, Exists_cons_hd, (emits_check q_who ["a"; "b"] "a"); [|left].
  - by apply Exists_cons_tl, Exists_cons_hd, (emits_select q_env ["dev"; "prod"] ""); [|left].
  - apply Exists_cons_tl, Exists_cons_hd, (emits_select q_env ["dev"; "prod"] "prod"); [done|]. right. set_solver.
  - by apply Exists_cons_tl, Exists_cons_tl, Exists_cons_hd, (emits_check q_who ["a"; "b"] "a"); [|left].
Qed.

Lemma form_answers_accepted_witness :
  @validate_answers ascii_only demo_questions (form_run demo_events ∅) = Ok (form_run demo_events ∅).
Proof.
  apply (@form_answers_accepted ascii_only demo_questions demo_events).
  - apply (bool_decide_unpack _). vm_compute. exact I.
  - exact demo_emits.
  - repeat apply Forall_cons_2; [exact I|right; left|exact I|apply Forall_nil_2].
Defined.
