(* ===== verification/Socket.v ===== *)
(** * The web socket of a browser ([marie-axum/src/ws.rs], [protocol.rs])

    One loop serves a connection: it pushes the forms and the session events of
    the cluster, and answers each message it can read.  A form is remembered
    when it is pushed, since answering it takes the form itself.  The clients
    of the cluster belong to a version of [marie-core] that is not in the
    repository: they are an interface, and what is asked of them is recorded. *)

From S2P Require Import Prelude Ids Json Types Models.

(** ** What the loop calls *)

(** [AgentFrame]: [dispatch] gives every field of it. *)
Record AgentFrame {AgentStatus : Type} := mkAgentFrame {
  af_session_id : SessionId; af_id : ID; af_model : string; af_status : AgentStatus;
  af_allowed_tools : list string; af_context : list ContextEntry; af_stdio : string; af_stderr : string }.
Arguments AgentFrame : clear implicits.
Arguments mkAgentFrame {AgentStatus}.

(** [SessionClient], [HitlClient], [SwarmNetwork] and [generate_id]: a call per
    function, by the type of its result; an error is its text. *)
Inductive WsCall {Form Job Mode AgentStatus : Type} : Type → Type :=
  | SessionsAcquire (id : SessionId) : WsCall (() + string)
  | SessionsRemove (id : SessionId) : WsCall ()
  | SessionsFrame (id : SessionId) (local_id : ID) : WsCall (option (AgentFrame AgentStatus))
  | SessionsPutFrame (id : SessionId) (local_id : ID) (frame : AgentFrame AgentStatus) : WsCall (() + string)
  | SessionsCurrentMode (id : SessionId) : WsCall Mode
  | HitlAnswerForm (form : Form) (answers : gmap string Answer) : WsCall (() + string)
  | SpawnJob (job : Job) : WsCall (() + string)
  | GenerateId : WsCall ID.
Arguments WsCall : clear implicits.

(** [W] is the rest of the cluster. *)
Class WsUpstream (W : Type) := {
  HumanInputRequest : Type;
  form_id : HumanInputRequest → ID;
  UpJob : Type;
  (** [Job { id, kind: JobKind::RunAgent(GlobalAgentId::new(session, local)) }] *)
  run_agent_job : ID → SessionId → ID → UpJob;
  SessionMode : Type;
  AgentStatus : Type;
  Initial : AgentStatus;
  WsSessionEvent : Type;
  call_ws : ∀ {A}, WsCall HumanInputRequest UpJob SessionMode AgentStatus A → M W Empty_set A
}.

Section socket.
Context {W : Type} `{WsUpstream W}.
Notation Call := (WsCall HumanInputRequest UpJob SessionMode AgentStatus).

(** ** The protocol ([protocol.rs]) *)

Inductive ClientMessage :=
  | SubscribeSession (session_id : SessionId)
  | UnsubscribeSession (session_id : SessionId)
  | GetFrame (session_id : SessionId) (local_id : ID)
  | HitlAnswer (request_id : ID) (answers : gmap string Answer)
  | SubmitJob (job : UpJob)
  | SendMessage (session_id : SessionId) (model_id : string) (allowed_tools : list string) (text : string)
  | GetMode (session_id : SessionId).

Record FrameSnapshot := mkFrameSnapshot {
  fs_session_id : SessionId; fs_id : ID; fs_model_id : string; fs_status : AgentStatus;
  fs_allowed_tools : list string; fs_context : list ContextEntry; fs_stdio : string; fs_stderr : string }.

(** [FrameSnapshot::from] *)
Definition frame_snapshot (f : AgentFrame AgentStatus) : FrameSnapshot :=
  mkFrameSnapshot (af_session_id f) (af_id f) (af_model f) (af_status f) (af_allowed_tools f) (af_context f)
    (af_stdio f) (af_stderr f).

Inductive ServerMessage :=
  | SessionEvent (e : WsSessionEvent)
  | PushHitlRequest (r : HumanInputRequest)
  | FrameReply (session_id : SessionId) (local_id : ID) (frame : option FrameSnapshot)
  | Ack (in_reply_to : string)
  | ErrorReply (in_reply_to message : string)
  | MessageSent (session_id : SessionId) (local_id : ID)
  | ModeReply (session_id : SessionId) (mode : SessionMode).

(** ** A connection *)

(** What the loop meets and does outside of itself: a form that the cluster
    gives it, a call with its result, or a message handed to the socket. *)
Inductive WsAction :=
  | WsGiven (r : HumanInputRequest)
  | WsAsked {A} (c : Call A) (r : A)
  | WsSent (m : ServerMessage).

Inductive WsPhase := WsRunning | WsStopped | WsPanicked.

Record Connection := mkConnection {
  ws_phase : WsPhase; registry : gmap ID HumanInputRequest; ws_trace : list WsAction; ws_world : W }.
Notation WM := (M Connection Empty_set).

(** [HitlRegistry::default()] *)
Definition ws_connect (w : W) : Connection := mkConnection WsRunning ∅ [] w.

Definition set_registry (r : gmap ID HumanInputRequest) (c : Connection) : Connection :=
  mkConnection (ws_phase c) r (ws_trace c) (ws_world c).
Definition set_ws_phase (p : WsPhase) (c : Connection) : Connection :=
  mkConnection p (registry c) (ws_trace c) (ws_world c).
Definition record_ws (x : WsAction) (c : Connection) : Connection :=
  mkConnection (ws_phase c) (registry c) (ws_trace c ++ [x]) (ws_world c).

(** [HitlRegistry::remember] and [HitlRegistry::take] *)
Definition remember (r : HumanInputRequest) : WM () :=
  modify (λ c, record_ws (WsGiven r) (set_registry (<[form_id r := r]> (registry c)) c)).
Definition take_form (i : ID) : WM (option HumanInputRequest) := λ c,
  (Ok (registry c !! i), set_registry (base.delete i (registry c)) c).

Definition ws_ask {A} (call : Call A) : WM A := λ c,
  match call_ws call (ws_world c) with
  | (Ok a, w) => (Ok a, mkConnection (ws_phase c) (registry c) (ws_trace c ++ [WsAsked call a]) w)
  | (_, w) => (Panic, mkConnection (ws_phase c) (registry c) (ws_trace c) w)
  end.

(** [match call { Ok(()) => reply, Err(error) => Error { in_reply_to, message } }] *)
Definition ws_reply_with (call : Call (() + string)) (in_reply_to : string) (reply : ServerMessage) : WM ServerMessage :=
  r ← ws_ask call; mret (match r with inl _ => reply | inr msg => ErrorReply in_reply_to msg end).

Definition UNKNOWN_FORM : string := "formulaire inconnu de cette connexion (jamais reçu, ou déjà répondu)".

(** [dispatch] *)
Definition ws_dispatch (m : ClientMessage) : WM ServerMessage :=
  match m with
  | SubscribeSession i => ws_reply_with (SessionsAcquire i) "subscribe_session" (Ack "subscribe_session")
  | UnsubscribeSession i => _ ← ws_ask (SessionsRemove i); mret (Ack "unsubscribe_session")
  | GetFrame i local_id =>
      frame ← ws_ask (SessionsFrame i local_id); mret (FrameReply i local_id (frame_snapshot <$> frame))
  | HitlAnswer request_id answers =>
      form ← take_form request_id;
      match form with
      | None => mret (ErrorReply "hitl_answer" UNKNOWN_FORM)
      | Some form => ws_reply_with (HitlAnswerForm form answers) "hitl_answer" (Ack "hitl_answer")
      end
  | SubmitJob job => ws_reply_with (SpawnJob job) "submit_job" (Ack "submit_job")
  | SendMessage i model_id allowed_tools text =>
      local_id ← ws_ask GenerateId;
      put ← ws_ask (SessionsPutFrame i local_id
        (mkAgentFrame i local_id model_id Initial allowed_tools [mkEntry RoleUser text] "" ""));
      match put with
      | inr msg => mret (ErrorReply "send_message" msg)
      | inl _ =>
          job_id ← ws_ask GenerateId;
          ws_reply_with (SpawnJob (run_agent_job job_id i local_id)) "send_message" (MessageSent i local_id)
      end
  | GetMode i => mode ← ws_ask (SessionsCurrentMode i); mret (ModeReply i mode)
  end.

(** What a turn of the loop of [serve] is given: an item of the merged stream,
    the end of it, a text that parses to a message, another frame, or the end
    of the socket.  [sent] tells whether the socket takes what is sent. *)
Inductive WsTurn :=
  | EventForm (r : HumanInputRequest) (sent : bool)
  | EventSession (e : WsSessionEvent) (sent : bool)
  | EventsEnd
  | TextMessage (m : ClientMessage) (sent : bool)
  | UnreadableFrame
  | SocketEnd.

(** [serde_json::to_string]: the text of a message, where it has one. *)
Context (to_string : ServerMessage → option string).

(** [send], then [if .. .is_err() { break; }]: a message without a text is
    dropped and the loop goes on; one that the socket does not take is not
    recorded. *)
Definition ws_send (m : ServerMessage) (sent : bool) : WM () :=
  modify (λ c,
    match to_string m with
    | None => c
    | Some _ => if sent then record_ws (WsSent m) c else set_ws_phase WsStopped c
    end).

Definition ws_turn (t : WsTurn) (c : Connection) : Connection :=
  match ws_phase c with
  | WsRunning =>
      let after (r : Res Empty_set () * Connection) :=
        match r with (Ok _, c) => c | (_, c) => set_ws_phase WsPanicked c end in
      match t with
      | EventForm r sent => after ((_ ← remember r; ws_send (PushHitlRequest r) sent) c)
      | EventSession e sent => after (ws_send (SessionEvent e) sent c)
      | TextMessage m sent => after ((reply ← ws_dispatch m; ws_send reply sent) c)
      | UnreadableFrame => c
      | EventsEnd | SocketEnd => set_ws_phase WsStopped c
      end
  | _ => c
  end.

Definition ws_run (ts : list WsTurn) (c : Connection) : Connection := foldl (λ c t, ws_turn t c) c ts.

(** ** Forms *)

(** The form that an action answers, the form that it pushes, and the form
    that comes in. *)
Definition answered_form (x : WsAction) : option HumanInputRequest :=
  match x with WsAsked (HitlAnswerForm r _) _ => Some r | _ => None end.
Definition pushed_form (x : WsAction) : option HumanInputRequest :=
  match x with WsSent (PushHitlRequest r) => Some r | _ => None end.
Definition given_form (x : WsAction) : option HumanInputRequest :=
  match x with WsGiven r => Some r | _ => None end.
Definition times (i : ID) (l : list HumanInputRequest) : nat := length (filter (λ r, form_id r = i) l).

(** The forms that can be written on the socket. *)
Definition written (l : list HumanInputRequest) : list HumanInputRequest :=
  filter (λ r, is_Some (to_string (PushHitlRequest r))) l.

(** After the actions of [t], the action [x] answers only a form that came in,
    under an identifier that came in more often than it was answered, when
    every form that came in and can be written was pushed. *)
Definition answer_due (t : list WsAction) (x : WsAction) : Prop :=
  ∀ r, answered_form x = Some r →
    r ∈ omap given_form t ∧ times (form_id r) (omap answered_form t) < times (form_id r) (omap given_form t) ∧
    omap pushed_form t = written (omap given_form t).
Definition answers_due (t : list WsAction) : Prop :=
  ∀ before x after, t = before ++ x :: after → answer_due before x.

Definition forms_ok (c : Connection) : Prop :=
  answers_due (ws_trace c) ∧
  (ws_phase c = WsRunning →
    omap pushed_form (ws_trace c) = written (omap given_form (ws_trace c)) ∧ ∀ i,
    (∀ r, registry c !! i = Some r → form_id r = i ∧ r ∈ omap given_form (ws_trace c)) ∧
    times i (omap answered_form (ws_trace c)) + (if decide (is_Some (registry c !! i)) then 1 else 0) ≤
      times i (omap given_form (ws_trace c))).

Definition neutral (x : WsAction) : Prop := answered_form x = None ∧ pushed_form x = None ∧ given_form x = None.

Lemma answers_due_snoc t x : answers_due t → answer_due t x → answers_due (t ++ [x]).
Proof.
  intros Ht Hx before y after Heq. destruct after as [|z after _] using rev_ind.
  - apply app_inj_tail in Heq as [<- <-]. done.
  - rewrite app_comm_cons, (assoc_L (++)) in Heq. apply app_inj_tail in Heq as [-> _]. by eapply Ht.
Qed.

Lemma times_snoc i l r : times i (l ++ [r]) = times i l + (if decide (form_id r = i) then 1 else 0).
Proof. unfold times. rewrite filter_app, length_app, filter_cons, filter_nil. by case_decide. Qed.

Lemma omap_snoc {A B} (f : A → option B) l x :
  omap f (l ++ [x]) = omap f l ++ match f x with Some y => [y] | None => [] end.
Proof. rewrite omap_app. simpl. by destruct (f x). Qed.

(** A state that differs by neutral actions. *)
Definition neutral_step (c c' : Connection) : Prop :=
  registry c' = registry c ∧ ws_phase c' = ws_phase c ∧
  ∃ l, Forall neutral l ∧ ws_trace c' = ws_trace c ++ l.

#[local] Instance neutral_step_preorder : PreOrder neutral_step.
Proof.
  split.
  - intros c. split_and!; [done..|]. exists []. by rewrite app_nil_r.
  - intros c1 c2 c3 (Hr&Hp&l&Hl&Ht) (Hr'&Hp'&l'&Hl'&Ht'). split_and!; [congruence..|]. exists (l ++ l').
    rewrite Ht', Ht, <- (assoc_L (++)). by split; [apply Forall_app|].
Qed.

Lemma neutral_step_ok c c' : neutral_step c c' → forms_ok c → forms_ok c'.
Proof.
  destruct c as [p r t w], c' as [p' r' t' w']. unfold neutral_step, forms_ok. simpl.
  intros (->&->&l&Hl&->) Hc. induction l as [|x l IH] using rev_ind; [by rewrite app_nil_r|].
  apply Forall_app in Hl as [Hl [(Ha&Hp&Hg) _]%Forall_cons]. destruct (IH Hl) as [Hd Hr].
  rewrite (assoc_L (++)). split.
  - apply answers_due_snoc; [done|]. intros r0. by rewrite Ha.
  - by rewrite !omap_snoc, Ha, Hp, Hg, !app_nil_r.
Qed.

Definition neutral_call {A} (call : Call A) : Prop := match call with HitlAnswerForm _ _ => False | _ => True end.

(** A computation all of whose actions are neutral. *)
Definition quiet {A} (m : WM A) : Prop := ∀ c, neutral_step c (run_state m c).

Lemma ws_quiet_ret {A} (a : A) : quiet (mret a). Proof. intros c. reflexivity. Qed.
Lemma ws_quiet_bind {A B} (m : WM A) (k : A → WM B) : quiet m → (∀ a, quiet (k a)) → quiet (m ≫= k).
Proof.
  intros Hm Hk c. specialize (Hm c). unfold run_state, mbind, m_bind in *. destruct (m c) as [[a| |] c']; try done.
  etrans; [done|apply Hk].
Qed.
Lemma ws_quiet_ask {A} (call : Call A) : neutral_call call → quiet (ws_ask call).
Proof.
  intros Hn c. unfold run_state, ws_ask. destruct (call_ws call (ws_world c)) as [[a| |] w]; simpl.
  - split_and!; [done..|]. exists [WsAsked call a]. split; [|done]. constructor; [|done]. by destruct call.
  - split_and!; [done..|]. exists []. by rewrite app_nil_r.
  - split_and!; [done..|]. exists []. by rewrite app_nil_r.
Qed.
Lemma quiet_reply call s m : neutral_call call → quiet (ws_reply_with call s m).
Proof. intros Hn. apply ws_quiet_bind; [by apply ws_quiet_ask|]. intros a. apply ws_quiet_ret. Qed.

Lemma dispatch_quiet m : (∀ i a, m ≠ HitlAnswer i a) → quiet (ws_dispatch m).
Proof.
  intros Hm. destruct m; simpl; try by apply quiet_reply.
  - apply ws_quiet_bind; [by apply ws_quiet_ask|]. intros a. apply ws_quiet_ret.
  - apply ws_quiet_bind; [by apply ws_quiet_ask|]. intros a. apply ws_quiet_ret.
  - by destruct (Hm request_id answers).
  - apply ws_quiet_bind; [by apply ws_quiet_ask|]. intros local_id. apply ws_quiet_bind; [by apply ws_quiet_ask|].
    intros [[]|msg]; [|apply ws_quiet_ret]. apply ws_quiet_bind; [by apply ws_quiet_ask|]. intros job_id. by apply quiet_reply.
  - apply ws_quiet_bind; [by apply ws_quiet_ask|]. intros a. apply ws_quiet_ret.
Qed.

(** A message that is no form leaves the forms as they are. *)
Lemma sent_ok m c : (∀ r, m ≠ PushHitlRequest r) → forms_ok c → forms_ok (record_ws (WsSent m) c).
Proof.
  intros Hm [Hd Hr]. split; simpl.
  - by apply answers_due_snoc.
  - intros Hp. rewrite !omap_snoc. simpl. rewrite !app_nil_r.
    destruct m; rewrite ?app_nil_r; try by apply Hr. by destruct (Hm r).
Qed.

Lemma stopped_ok p c : p ≠ WsRunning → forms_ok c → forms_ok (set_ws_phase p c).
Proof. by intros Hp [Hd _]. Qed.

Lemma send_ok m sent c : (∀ r, m ≠ PushHitlRequest r) → forms_ok c → forms_ok (run_state (ws_send m sent) c).
Proof.
  intros Hm Hc. unfold run_state, ws_send, modify. simpl. destruct (to_string m); [|done].
  destruct sent; [by apply sent_ok|by apply stopped_ok].
Qed.

Lemma push_ok r sent c :
  ws_phase c = WsRunning → forms_ok c → forms_ok (run_state (_ ← remember r; ws_send (PushHitlRequest r) sent) c).
Proof.
  intros Hp [Hd Hr]. destruct (Hr Hp) as [Hpush Hi]. clear Hr.
  assert (∀ t, omap given_form t = omap given_form (ws_trace c) ++ [r] → omap answered_form t = omap answered_form (ws_trace c) →
    ∀ i, (∀ r', <[form_id r := r]> (registry c) !! i = Some r' → form_id r' = i ∧ r' ∈ omap given_form t) ∧
      times i (omap answered_form t) + (if decide (is_Some (<[form_id r := r]> (registry c) !! i)) then 1 else 0) ≤
        times i (omap given_form t)) as Hreg.
  { intros t -> -> i. destruct (Hi i) as [Hri Ht]. rewrite times_snoc. destruct (decide (form_id r = i)) as [He|He].
    - rewrite He, lookup_insert_eq, decide_True by done. split; [|destruct (decide (is_Some (registry c !! i))); lia].
      intros r' [= <-]. split; [done|]. apply elem_of_app. right. by left.
    - rewrite lookup_insert_ne by done. split; [|lia]. intros r' [? ?]%Hri. split; [done|]. by apply elem_of_app; left. }
  unfold run_state, mbind, m_bind, remember, ws_send, modify. simpl.
  assert (answers_due (ws_trace c ++ [WsGiven r])) as Hd1 by by apply answers_due_snoc.
  destruct (to_string (PushHitlRequest r)) as [text|] eqn:Ht; [destruct sent|]; split; simpl; try done.
  - by apply answers_due_snoc.
  - intros _. split; [|apply Hreg; rewrite !omap_snoc; simpl; by rewrite ?app_nil_r].
    rewrite !omap_snoc. simpl. rewrite !app_nil_r, Hpush. unfold written.
    by rewrite filter_app, filter_cons, decide_True, filter_nil by by rewrite Ht.
  - intros _. split; [|apply Hreg; rewrite !omap_snoc; simpl; by rewrite ?app_nil_r].
    rewrite !omap_snoc. simpl. rewrite !app_nil_r, Hpush. unfold written.
    rewrite filter_app, filter_cons, decide_False, filter_nil; [by rewrite app_nil_r|]. rewrite Ht. by intros [? [=]].
Qed.

Lemma take_ok i r a res c :
  ws_phase c = WsRunning → registry c !! i = Some r → forms_ok c →
  let c' := set_registry (base.delete i (registry c)) c in
  forms_ok c' ∧ forms_ok (record_ws (WsAsked (HitlAnswerForm r a) res) c').
Proof.
  intros Hp Hi [Hd Hr] c'. destruct (Hr Hp) as [Hpush Hr']. clear Hr. rename Hr' into Hr.
  pose proof (Hr i) as [Hreg Ht]. destruct (Hreg r Hi) as [Hid Hin].
  rewrite decide_True in Ht by done.
  assert (∀ j, (∀ r', base.delete i (registry c) !! j = Some r' → form_id r' = j ∧ r' ∈ omap given_form (ws_trace c)) ∧
    times j (omap answered_form (ws_trace c)) + (if decide (i = j) then 1 else 0) +
      (if decide (is_Some (base.delete i (registry c) !! j)) then 1 else 0) ≤ times j (omap given_form (ws_trace c)))
    as Hnew.
  { intros j. destruct (Hr j) as [Hregj Htj]. destruct (decide (i = j)) as [<-|Hj].
    - rewrite lookup_delete_eq. split; [done|]. rewrite (decide_False (P := is_Some None)) by (by intros [? ?]). lia.
    - rewrite lookup_delete_ne by done. split; [done|lia]. }
  split.
  - split; [done|]. intros _. split; [done|]. intros j. destruct (Hnew j). split; [done|]. simpl. lia.
  - split; simpl.
    + apply answers_due_snoc; [done|]. intros r' [= <-]. rewrite Hid. split_and!; [done|lia|done].
    + intros _. rewrite !omap_snoc. simpl. rewrite !app_nil_r. split; [done|]. intros j.
      destruct (Hnew j) as [? Hj]. split; [done|]. rewrite times_snoc, Hid. lia.
Qed.

Lemma reply_no_form m c reply c' r : ws_dispatch m c = (Ok reply, c') → reply ≠ PushHitlRequest r.
Proof.
  assert (∀ call s (a : ServerMessage) c0, a ≠ PushHitlRequest r →
    ws_reply_with call s a c0 = (Ok reply, c') → reply ≠ PushHitlRequest r) as Hreply.
  { intros call s a c0 Ha ([[]|msg]&c1&_&[= <- _])%m_bind_ok; done. }
  destruct m; simpl; try by apply Hreply.
  - by intros (?&?&_&[= <- _])%m_bind_ok.
  - by intros (?&?&_&[= <- _])%m_bind_ok.
  - intros ([form|]&?&_&Hk)%m_bind_ok; [by eapply Hreply, Hk|by injection Hk as <- _].
  - intros (?&?&_&([[]|msg]&?&_&Hk)%m_bind_ok)%m_bind_ok; [|by injection Hk as <- _].
    apply m_bind_ok in Hk as (?&?&_&Hk). by eapply Hreply, Hk.
  - by intros (?&?&_&[= <- _])%m_bind_ok.
Qed.

Lemma dispatch_ok m c : ws_phase c = WsRunning → forms_ok c → forms_ok (run_state (ws_dispatch m) c).
Proof.
  intros Hp Hc. destruct m as [| | |i a| | |]; try by apply (neutral_step_ok c), Hc; apply dispatch_quiet.
  unfold run_state, ws_dispatch, mbind, m_bind, take_form. destruct (registry c !! i) as [r|] eqn:Hi; simpl.
  - unfold ws_reply_with, ws_ask, mbind, m_bind. simpl.
    destruct (call_ws _ _) as [[res| |] w]; simpl; try apply (proj2 (take_ok i r a _ c Hp Hi Hc));
      apply (proj1 (take_ok i r a (inl ()) c Hp Hi Hc)).
  - assert (set_registry (base.delete i (registry c)) c = c) as ->; [|done].
    destruct c. unfold set_registry. simpl in *. by rewrite delete_id.
Qed.

Lemma turn_forms_ok t c : forms_ok c → forms_ok (ws_turn t c).
Proof.
  intros Hc. unfold ws_turn. destruct (ws_phase c) eqn:Hp; try done.
  assert (∀ r : Res Empty_set () * Connection, forms_ok r.2 →
    forms_ok (match r with (Ok _, c) => c | (_, c) => set_ws_phase WsPanicked c end)) as Hafter.
  { intros [[] c']; simpl; [done|..]; by apply stopped_ok. }
  destruct t; try done; try by apply stopped_ok.
  - by apply Hafter, push_ok.
  - apply Hafter. by apply send_ok.
  - apply Hafter. pose proof (dispatch_ok m c Hp Hc) as Hd. unfold run_state in Hd.
    unfold mbind, m_bind. destruct (ws_dispatch m c) as [[reply| |] c'] eqn:E; try done.
    apply send_ok; [|done]. intros r. by eapply reply_no_form.
Qed.

(** C28: Whatever the connection is given, in whatever order, a form is answered
    only if the cluster gave it to this connection before, under an identifier
    that it gave more often than it was answered: no form is answered twice,
    and none of another connection. When a form is answered, the forms pushed
    to the browser are exactly those given that can be written as JSON, in
    order; one that cannot is remembered without being pushed, and can be
    answered all the same. *)
Theorem forms_answered_once (ts : list WsTurn) (w : W) :
  answers_due (ws_trace (ws_run ts (ws_connect w))).
Proof.
  assert (forms_ok (ws_connect w)) as Hc.
  { split; simpl; [by intros [] ? ?|]. intros _. split; [done|]. intros i. rewrite lookup_empty. split; [done|].
    by rewrite decide_False by (by intros [? ?]). }
  revert Hc. generalize (ws_connect w). induction ts as [|t ts IH]; intros c Hc; simpl; [apply Hc|].
  apply IH. by apply turn_forms_ok.
Qed.

(** ** Answers *)

(** An answer to a form that waits is passed on; an answer that the cluster
    refuses is reported, and the form is forgotten: the next answer to it is
    refused as one to an unknown form. *)
Theorem refused_answer_is_final (c : Connection) (i : ID) (r : HumanInputRequest) (a a' : gmap string Answer)
    (msg : string) (w : W) :
  ws_phase c = WsRunning → registry c !! i = Some r →
  call_ws (HitlAnswerForm r a) (ws_world c) = (Ok (inr msg), w) →
  (∀ why, is_Some (to_string (ErrorReply "hitl_answer" why))) →
  ws_trace (ws_run [TextMessage (HitlAnswer i a) true; TextMessage (HitlAnswer i a') true] c) =
    ws_trace c ++ [WsAsked (HitlAnswerForm r a) (inr msg); WsSent (ErrorReply "hitl_answer" msg);
                   WsSent (ErrorReply "hitl_answer" UNKNOWN_FORM)].
Proof.
  intros Hp Hi Hcall Htext. destruct c as [p reg t w0]. simpl in *. subst p.
  destruct (Htext msg) as [t1 Ht1], (Htext UNKNOWN_FORM) as [t2 Ht2].
  unfold ws_run. cbn [foldl]. unfold ws_turn at 2. cbn [ws_phase].
  unfold mbind, m_bind, ws_dispatch, take_form, ws_reply_with, ws_ask, mbind, m_bind. simpl. rewrite Hi. simpl.
  rewrite Hcall. simpl. rewrite Ht1. simpl. unfold ws_turn. simpl. unfold mbind, m_bind. simpl.
  rewrite lookup_delete_eq. simpl. rewrite Ht2. simpl.
  by rewrite <- !(assoc_L (++)).
Qed.

(** ** Messages *)

(** A message that is sent makes a frame whose context is its text, and a job
    for that frame; when the job is refused the frame stays, without a run. *)
Theorem send_message_spec (c : Connection) (i : SessionId) (model text : string) (tools : list string)
    (local job_id : ID) (r : () + string) (w1 w2 w3 w4 : W) :
  let frame := mkAgentFrame i local model Initial tools [mkEntry RoleUser text] "" "" in
  call_ws GenerateId (ws_world c) = (Ok local, w1) →
  call_ws (SessionsPutFrame i local frame) w1 = (Ok (inl ()), w2) →
  call_ws GenerateId w2 = (Ok job_id, w3) →
  call_ws (SpawnJob (run_agent_job job_id i local)) w3 = (Ok r, w4) →
  ws_dispatch (SendMessage i model tools text) c =
    (Ok (match r with inl _ => MessageSent i local | inr msg => ErrorReply "send_message" msg end),
     mkConnection (ws_phase c) (registry c)
       (ws_trace c ++ [WsAsked GenerateId local; WsAsked (SessionsPutFrame i local frame) (inl ());
                       WsAsked GenerateId job_id; WsAsked (SpawnJob (run_agent_job job_id i local)) r]) w4).
Proof.
  intros frame H1 H2 H3 H4. subst frame. unfold ws_dispatch, ws_reply_with, ws_ask, mbind, m_bind. simpl.
  rewrite H1. simpl. rewrite H2. simpl. rewrite H3. simpl. rewrite H4. simpl. by rewrite <- !(assoc_L (++)).
Qed.
End socket.

(** ** A concrete cluster: it refuses every answer *)

Definition demo_call {A} (call : WsCall (ID * string) ID () bool A) : M nat Empty_set A := λ n,
  match call in WsCall _ _ _ _ A return Res Empty_set A * nat with
  | HitlAnswerForm _ _ => (Ok (inr "réponse invalide"), n)
  | SessionsAcquire _ | SessionsPutFrame _ _ _ | SpawnJob _ => (Ok (inl ()), n)
  | SessionsRemove _ => (Ok (), n)
  | SessionsFrame _ _ => (Ok None, n)
  | SessionsCurrentMode _ => (Ok (), n)
  | GenerateId => (Ok (mkID 0 (Z.of_nat n)), S n)
  end.
#[export] Instance demo_upstream : WsUpstream nat := {|
  HumanInputRequest := ID * string; form_id := fst; UpJob := ID; run_agent_job := λ j _ _, j;
  SessionMode := (); AgentStatus := bool; Initial := false; WsSessionEvent := ();
  call_ws := @demo_call |}.

Definition demo_form : @HumanInputRequest nat _ := (mkID 0 7, "form").

Definition all_texts : @ServerMessage nat _ → option string := λ _, Some "{}".

(** A form that is pushed, answered badly, and answered again. *)
Example demo_socket :
  let f := demo_form in
  ws_trace (ws_run all_texts [EventForm f true; TextMessage (HitlAnswer (mkID 0 7) ∅) true;
                    TextMessage (HitlAnswer (mkID 0 7) ∅) true] (ws_connect 0)) =
  [WsGiven f; WsSent (PushHitlRequest f); WsAsked (HitlAnswerForm f ∅) (inr "réponse invalide");
   WsSent (ErrorReply "hitl_answer" "réponse invalide"); WsSent (ErrorReply "hitl_answer" UNKNOWN_FORM)].
Proof. reflexivity. Qed.

(** A form that cannot be written is not pushed, and can be answered. *)
Example unseen_form_answered :
  let f := demo_form in
  ws_trace (ws_run (λ m, match m with PushHitlRequest _ => None | _ => Some "{}" end)
    [EventForm f true; TextMessage (HitlAnswer (mkID 0 7) ∅) true] (ws_connect 0)) =
  [WsGiven f; WsAsked (HitlAnswerForm f ∅) (inr "réponse invalide");
   WsSent (ErrorReply "hitl_answer" "réponse invalide")].
Proof. reflexivity. Qed.

Lemma refused_answer_is_final_witness : ∃ c,
  ws_phase c = WsRunning ∧
  ws_trace (ws_run all_texts [TextMessage (HitlAnswer (mkID 0 7) ∅) true; TextMessage (HitlAnswer (mkID 0 7) ∅) true] c) =
    ws_trace c ++ [WsAsked (HitlAnswerForm demo_form ∅) (inr "réponse invalide");
                   WsSent (ErrorReply "hitl_answer" "réponse invalide"); WsSent (ErrorReply "hitl_answer" UNKNOWN_FORM)].
Proof.
  exists (mkConnection WsRunning {[ mkID 0 7 := demo_form ]} [] 0%nat). split; [done|].
  apply (refused_answer_is_final all_texts _ _ demo_form ∅ ∅ "réponse invalide" 0%nat); [reflexivity..|].
  intros why. by eexists.
Defined.

Lemma send_message_spec_witness : ∃ c', ws_dispatch (SendMessage (mkSessionId (mkID 0 1)) "m" [] "hi") (ws_connect 0) =
  (Ok (MessageSent (mkSessionId (mkID 0 1)) (mkID 0 0)), c').
Proof.
  eexists. exact (send_message_spec (ws_connect 0) (mkSessionId (mkID 0 1)) "m" "hi" [] (mkID 0 0) (mkID 0 1) (inl ())
    1 1 2 2 eq_refl eq_refl eq_refl eq_refl).
Defined.
