(* ===== verification/Chat.v ===== *)
(** * The page of a session ([marie-web-example/src/components/chat_view.rs], [dto.rs])

    The page keeps signals: what is known of the session that is open, the
    workspaces, the forms that wait.  Handlers of the page and of the socket
    change them at once; what is asked of the server runs as tasks, whose steps
    mingle with the handlers in any order.  A task that sends takes the socket
    out of its cell and puts it back, and drops its messages when it finds the
    cell empty.  The calls of [api.rs] are answered by the environment. *)

From stdpp Require Import pretty.
From S2P Require Import Prelude Ids Json Types HitlForm.

(** ** The messages ([dto.rs]) *)

Inductive ClientMessageDto :=
  | SubscribeSession (session_id : string)
  | UnsubscribeSession (session_id : string)
  | GetFrame (session_id local_id : string)
  | HitlAnswer (request_id : string) (answers : Answers)
  | SendMessage (session_id model_id : string) (allowed_tools : list string) (text : string)
  | GetMode (session_id : string).

Inductive YieldStatusDto :=
  | WaitingToolReply (tool_call_id : string) | WaitingChildren (children : list string) | RunExhausted.
Inductive AgentStatusDto := Initial | Paused | Running | Failed | Yielding (inner : YieldStatusDto) | Finished.

Inductive RoleDto := System | User | Assistant | Tool.
Record FrameSnapshotDto := mkFrameDto {
  fd_session_id : string; fd_id : string; fd_model_id : string; fd_status : AgentStatusDto;
  fd_allowed_tools : list string; fd_context : list (RoleDto * string); fd_stdio : string; fd_stderr : string }.

Record ToolCallDto := mkToolCallDto { tc_id : string; tc_name : string; tc_parameters : option Value }.
Inductive SessionLogSpecDto := AgentMessage (label message : string) | LogToolCall (call : ToolCallDto).
Record SessionLogDto := mkLogDto { ld_id : string; ld_data : SessionLogSpecDto }.

Record HitlRequestDto := mkRequestDto { rd_id : string; rd_agent_id : string * string; rd_questions : list Question }.
Definition rd_session_id (r : HitlRequestDto) : string := (rd_agent_id r).1.

Inductive SessionEventDto :=
  | Created (session_id : string)
  | FrameStatusChanged (session_id local_id : string) (status : AgentStatusDto)
  | LogAppended (session_id : string) (log : SessionLogDto)
  | ModeChanged (session_id : string) (mode : Value)
  | Removed (session_id : string)
  | ValueChanged (session_id key : string) (value : Value)
  | ValueRemoved (session_id key : string).

Inductive ServerMessageDto :=
  | SessionEvent (e : SessionEventDto)
  | HitlRequest (r : HitlRequestDto)
  | FrameMessage (session_id local_id : string) (frame : option FrameSnapshotDto)
  | Ack (in_reply_to : string)
  | ErrorMessage (in_reply_to message : string)
  | MessageSent (session_id local_id : string)
  | ModeMessage (session_id : string) (mode : Value).

Definition event_session (e : SessionEventDto) : string :=
  match e with
  | Created s | FrameStatusChanged s _ _ | LogAppended s _ | ModeChanged s _ | Removed s
  | ValueChanged s _ _ | ValueRemoved s _ => s
  end.

(** ** What is shown *)

(** [AgentStatusView::label] and [detail], on the statuses that are mirrored. *)
Definition status_label (s : AgentStatusDto) : string :=
  match s with
  | Initial => "initial" | Paused => "paused" | Running => "running" | Failed => "failed"
  | Finished => "finished" | Yielding _ => "yielding"
  end.
Definition status_detail (s : AgentStatusDto) : option string :=
  match s with
  | Yielding (WaitingToolReply i) => Some ("waiting tool reply: " +:+ i)
  | Yielding (WaitingChildren l) => Some ("waiting children: " +:+ String.concat ", " l)
  | Yielding RunExhausted => Some "run exhausted"
  | _ => None
  end.
Definition role_label (r : RoleDto) : string :=
  match r with System => "system" | User => "user" | Assistant => "assistant" | Tool => "tool" end.

(** [mode.get("mode").and_then(Value::as_str)] *)
Definition get_str (v : Value) (key : string) : option string :=
  match v with Object m => match obj_get key m with Some (Str s) => Some s | _ => None end | _ => None end.
(** The length of an array. *)
Definition array_len (v : Value) (key : string) : nat :=
  match v with
  | Object m => match obj_get key m with Some (Array l) => length l | _ => O end
  | _ => O
  end.
Definition mode_label (mode : Value) : string :=
  match get_str mode "mode" with
  | None => "inconnu"
  | Some other =>
      if decide (other = "orchestration") then
        "orchestration (stratégie : " +:+ default "?" (get_str mode "strategy") +:+ ", " +:+
          pretty.pretty (array_len mode "children") +:+ " enfant(s))"
      else if decide (other = "state_graph") then
        "graphe d'états (nœud courant : " +:+ default "?" (get_str mode "current") +:+ ")"
      else other
  end.
Definition mode_accepts_message (mode : Value) : bool :=
  match get_str mode "mode" with
  | Some s => bool_decide (s = "simple" ∨ s = "orchestration")
  | None => false
  end.

(** ** The page *)

(** What is asked of the server, by the stage that waits for its answer. *)
Inductive Task :=
  | StartSend (ms : list ClientMessageDto)       (* the socket is not taken yet *)
  | Sending (ms : list ClientMessageDto)         (* the task holds the socket *)
  | OpenVars (s : string) | OpenFiles (s : string) | OpenWorkspace (s : string) | OpenWorkspaceVars (s w : string)
  | NewSession (workspace : option string) | CreateWorkspace | DeleteWorkspace (w : string)
  | SetSessionVar (s key : string) (value : Value)
  | SetWorkspaceVar (w key : string) (value : Value)
  | ReadFile (s path : string) | WriteFile (s path content : string) | CreateFile (s path : string) | ListFiles (s : string)
  | ReadUpload (request : HitlRequestDto) (key filename : string) | Upload (request : HitlRequestDto) (key filename : string).

(** The answer that a task is given. *)
Inductive Answered :=
  | Refused (error : string)
  | Done
  | Vars (m : gmap string Value)
  | Files (paths : list string)
  | Workspace (w : option string)
  | SessionOf (w s : string)
  | Content (c : option string).

(** What is known of the session that is open. *)
Record Opened := mkOpened {
  op_session : option string; op_workspace : option string; op_frames : gmap string FrameSnapshotDto;
  op_logs : list SessionLogDto; op_session_vars : gmap string Value; op_workspace_vars : gmap string Value;
  op_file_paths : list string; op_mode : option Value }.

Record Chat := mkChat {
  ch_socket : bool;                              (* the cell holds the socket *)
  ch_sent : list ClientMessageDto;
  ch_tasks : list Task;
  ch_status : string;
  ch_opened : Opened;
  ch_workspaces : list string; ch_selected : option string;
  ch_pending : list HitlRequestDto; ch_answers : Answers;
  ch_file : option string; ch_content : string }.

Definition set_opened (f : Opened → Opened) (c : Chat) : Chat :=
  mkChat (ch_socket c) (ch_sent c) (ch_tasks c) (ch_status c) (f (ch_opened c)) (ch_workspaces c) (ch_selected c)
    (ch_pending c) (ch_answers c) (ch_file c) (ch_content c).
Definition set_status (s : string) (c : Chat) : Chat :=
  mkChat (ch_socket c) (ch_sent c) (ch_tasks c) s (ch_opened c) (ch_workspaces c) (ch_selected c)
    (ch_pending c) (ch_answers c) (ch_file c) (ch_content c).
Definition set_socket (b : bool) (sent : list ClientMessageDto) (c : Chat) : Chat :=
  mkChat b sent (ch_tasks c) (ch_status c) (ch_opened c) (ch_workspaces c) (ch_selected c)
    (ch_pending c) (ch_answers c) (ch_file c) (ch_content c).
Definition set_tasks (l : list Task) (c : Chat) : Chat :=
  mkChat (ch_socket c) (ch_sent c) l (ch_status c) (ch_opened c) (ch_workspaces c) (ch_selected c)
    (ch_pending c) (ch_answers c) (ch_file c) (ch_content c).
Definition set_workspaces (l : list string) (sel : option string) (c : Chat) : Chat :=
  mkChat (ch_socket c) (ch_sent c) (ch_tasks c) (ch_status c) (ch_opened c) l sel
    (ch_pending c) (ch_answers c) (ch_file c) (ch_content c).
Definition set_forms (l : list HitlRequestDto) (a : Answers) (c : Chat) : Chat :=
  mkChat (ch_socket c) (ch_sent c) (ch_tasks c) (ch_status c) (ch_opened c) (ch_workspaces c) (ch_selected c)
    l a (ch_file c) (ch_content c).
Definition set_file (f : option string) (content : string) (c : Chat) : Chat :=
  mkChat (ch_socket c) (ch_sent c) (ch_tasks c) (ch_status c) (ch_opened c) (ch_workspaces c) (ch_selected c)
    (ch_pending c) (ch_answers c) f content.

(** [spawn_local] *)
Definition spawn (t : Task) (c : Chat) : Chat := set_tasks (ch_tasks c ++ [t]) c.

(** [current_session.get_untracked().as_deref() == Some(session_id)] *)
Definition is_open (s : string) (c : Chat) : bool := bool_decide (op_session (ch_opened c) = Some s).

Definition set_frames (f : gmap string FrameSnapshotDto) (o : Opened) : Opened :=
  mkOpened (op_session o) (op_workspace o) f (op_logs o) (op_session_vars o) (op_workspace_vars o) (op_file_paths o) (op_mode o).
Definition set_logs (l : list SessionLogDto) (o : Opened) : Opened :=
  mkOpened (op_session o) (op_workspace o) (op_frames o) l (op_session_vars o) (op_workspace_vars o) (op_file_paths o) (op_mode o).
Definition set_session_vars (m : gmap string Value) (o : Opened) : Opened :=
  mkOpened (op_session o) (op_workspace o) (op_frames o) (op_logs o) m (op_workspace_vars o) (op_file_paths o) (op_mode o).
Definition set_workspace_vars (m : gmap string Value) (o : Opened) : Opened :=
  mkOpened (op_session o) (op_workspace o) (op_frames o) (op_logs o) (op_session_vars o) m (op_file_paths o) (op_mode o).
Definition set_file_paths (l : list string) (o : Opened) : Opened :=
  mkOpened (op_session o) (op_workspace o) (op_frames o) (op_logs o) (op_session_vars o) (op_workspace_vars o) l (op_mode o).
Definition set_workspace (w : option string) (o : Opened) : Opened :=
  mkOpened (op_session o) w (op_frames o) (op_logs o) (op_session_vars o) (op_workspace_vars o) (op_file_paths o) (op_mode o).
Definition set_mode (m : option Value) (o : Opened) : Opened :=
  mkOpened (op_session o) (op_workspace o) (op_frames o) (op_logs o) (op_session_vars o) (op_workspace_vars o) (op_file_paths o) m.

Section page.
(** [serde_json::from_str], and the tools that a text lists: split at commas,
    trimmed, without the empty ones. *)
Context (parse_json : string → option Value) (parse_tools : string → list string).

(** [on_message] of [ensure_socket] *)
Definition on_message (m : ServerMessageDto) (c : Chat) : Chat :=
  match m with
  | FrameMessage _ _ (Some frame) => set_opened (λ o, set_frames (<[fd_id frame := frame]> (op_frames o)) o) c
  | SessionEvent (FrameStatusChanged s local_id _) =>
      if is_open s c then spawn (StartSend [GetFrame s local_id]) c else c
  | SessionEvent (LogAppended s log) => if is_open s c then set_opened (λ o, set_logs (op_logs o ++ [log]) o) c else c
  | SessionEvent (ValueChanged s key value) =>
      if is_open s c then set_opened (λ o, set_session_vars (<[key := value]> (op_session_vars o)) o) c else c
  | SessionEvent (ValueRemoved s key) =>
      if is_open s c then set_opened (λ o, set_session_vars (base.delete key (op_session_vars o)) o) c else c
  | SessionEvent (ModeChanged s mode) | ModeMessage s mode =>
      if is_open s c then set_opened (set_mode (Some mode)) c else c
  | HitlRequest r =>
      if existsb (λ r', bool_decide (rd_id r' = rd_id r)) (ch_pending c) then c
      else set_forms (ch_pending c ++ [r]) (ch_answers c) c
  | _ => c
  end.

(** [ensure_socket]: connects once. *)
Definition ensure_socket (connected : () + string) (c : Chat) : Chat :=
  if ch_socket c then c
  else match connected with
       | inl _ => set_socket true (ch_sent c) c
       | inr error => set_status ("connexion websocket échouée : " +:+ error) c
       end.

(** [do_open] *)
Definition do_open (s : string) (c : Chat) : Chat :=
  let c := set_opened (λ _, mkOpened (Some s) None ∅ [] ∅ ∅ [] None) c in
  let c := set_status ("ouverture de la session " +:+ s +:+ "…") c in
  spawn (OpenVars s) (spawn (StartSend [SubscribeSession s; GetMode s]) c).

Inductive PageEvent :=
  | OpenClick (session_id : string)
  | NewSessionClick
  | CreateWorkspaceClick
  | DeleteWorkspaceClick (w : string)
  | SelectWorkspace (w : string)
  | SendClick (model_id tools text : string)
  | AddSessionVar (key raw : string)
  | AddWorkspaceVar (key raw : string)
  | OpenFileClick (path : string)
  | EditFile (content : string)
  | SaveFileClick
  | CreateFileClick (path : string)
  | UseWidget (e : FormEvent)
  | FileSelected (key filename : string)
  | SubmitForm.

(** [serde_json::from_str(&raw).unwrap_or(Value::String(raw))] *)
Definition typed_value (raw : string) : Value := default (Str raw) (parse_json raw).

Definition on_page (e : PageEvent) (c : Chat) : Chat :=
  match e with
  | OpenClick s => if decide (s = "") then c else do_open s c
  | NewSessionClick => spawn (NewSession (ch_selected c)) c
  | CreateWorkspaceClick => spawn CreateWorkspace c
  | DeleteWorkspaceClick w => spawn (DeleteWorkspace w) c
  | SelectWorkspace w => set_workspaces (ch_workspaces c) (Some w) c
  | SendClick model_id tools text =>
      match op_session (ch_opened c) with
      | None => c
      | Some s =>
          if decide (model_id = "" ∨ text = "") then c
          else spawn (StartSend [SendMessage s model_id (parse_tools tools) text]) c
      end
  | AddSessionVar key raw =>
      match op_session (ch_opened c) with
      | None => c
      | Some s => if decide (key = "") then c else spawn (SetSessionVar s key (typed_value raw)) c
      end
  | AddWorkspaceVar key raw =>
      match op_workspace (ch_opened c) with
      | None => c
      | Some w => if decide (key = "") then c else spawn (SetWorkspaceVar w key (typed_value raw)) c
      end
  | OpenFileClick path =>
      match op_session (ch_opened c) with
      | None => c
      | Some s => spawn (ReadFile s path) (set_file (Some path) (ch_content c) c)
      end
  | EditFile content => set_file (ch_file c) content c
  | SaveFileClick =>
      match op_session (ch_opened c), ch_file c with
      | Some s, Some path => spawn (WriteFile s path (ch_content c)) c
      | _, _ => c
      end
  | CreateFileClick path =>
      match op_session (ch_opened c) with
      | None => c
      | Some s => if decide (path = "") then c else spawn (CreateFile s path) c
      end
  | UseWidget e => set_forms (ch_pending c) (form_event e (ch_answers c)) c
  | FileSelected key filename =>
      match ch_pending c with
      | [] => c
      | request :: _ => spawn (ReadUpload request key filename) c
      end
  | SubmitForm =>
      match ch_pending c with
      | [] => c
      | request :: _ =>
          let c := spawn (StartSend [HitlAnswer (rd_id request) (ch_answers c)]) c in
          set_forms (filter (λ r, rd_id r ≠ rd_id request) (ch_pending c)) ∅ c
      end
  end.

(** One step of a task, taken out of the list: the tasks that go on, and the
    page it leaves.  [None]: not an answer to this task. *)
Definition task_step (t : Task) (a : Answered) (c : Chat) : option (list Task * Chat) :=
  let failed (text error : string) := Some ([], set_status (text +:+ error) c) in
  match t, a with
  | StartSend ms, Done =>
      if ch_socket c then Some ([Sending ms], set_socket false (ch_sent c) c) else Some ([], c)
  | Sending (m :: ms), (Done | Refused _) =>
      let sent := match a with Done => ch_sent c ++ [m] | _ => ch_sent c end in
      match ms with
      | [] => Some ([], set_socket true sent c)
      | _ => Some ([Sending ms], set_socket (ch_socket c) sent c)
      end
  | OpenVars s, Vars m => Some ([OpenFiles s], set_opened (set_session_vars m) c)
  | OpenVars s, Refused error =>
      Some ([OpenFiles s], set_status ("échec de lecture des vars de session : " +:+ error) c)
  | OpenFiles s, Files paths => Some ([OpenWorkspace s], set_opened (set_file_paths paths) c)
  | OpenFiles s, Refused error =>
      Some ([OpenWorkspace s], set_status ("échec de la liste des fichiers : " +:+ error) c)
  | OpenWorkspace s, Workspace (Some w) => Some ([OpenWorkspaceVars s w], set_opened (set_workspace (Some w)) c)
  | OpenWorkspace s, Workspace None =>
      Some ([], set_status ("session " +:+ s +:+ " ouverte") (set_opened (set_workspace None) c))
  | OpenWorkspace s, Refused _ => Some ([], set_status ("session " +:+ s +:+ " ouverte") c)
  | OpenWorkspaceVars s _, Vars m =>
      Some ([], set_status ("session " +:+ s +:+ " ouverte") (set_opened (set_workspace_vars m) c))
  | OpenWorkspaceVars s _, Refused _ => Some ([], set_status ("session " +:+ s +:+ " ouverte") c)
  | NewSession _, SessionOf w s =>
      let l := ch_workspaces c in
      let c := set_workspaces (if decide (w ∈ l) then l else l ++ [w]) (Some w) c in
      Some ([], do_open s c)
  | NewSession _, Refused error => failed "création de session échouée : " error
  | CreateWorkspace, Workspace (Some w) => Some ([], set_workspaces (ch_workspaces c ++ [w]) (Some w) c)
  | CreateWorkspace, Refused error => failed "échec de création du workspace : " error
  | DeleteWorkspace w, (Done | Refused _) =>
      let c := match a with
               | Refused error => set_status ("échec de suppression du workspace : " +:+ error) c
               | _ => c
               end in
      let l := filter (λ w', w' ≠ w) (ch_workspaces c) in
      Some ([], set_workspaces l (if decide (ch_selected c = Some w) then None else ch_selected c) c)
  | SetSessionVar _ _ _, Done => Some ([], c)
  | SetSessionVar _ _ _, Refused error => failed "échec d'écriture de la var : " error
  | SetWorkspaceVar _ key value, Done =>
      Some ([], set_opened (λ o, set_workspace_vars (<[key := value]> (op_workspace_vars o)) o) c)
  | SetWorkspaceVar _ _ _, Refused error => failed "échec d'écriture de la var de workspace : " error
  | ReadFile _ _, Content content => Some ([], set_file (ch_file c) (default "" content) c)
  | ReadFile _ _, Refused error => failed "échec de lecture du fichier : " error
  | (WriteFile s _ _ | CreateFile s _), Done => Some ([ListFiles s], c)
  | WriteFile _ _ _, Refused error => failed "échec d'écriture du fichier : " error
  | CreateFile _ _, Refused error => failed "échec de création du fichier : " error
  | ListFiles _, Files paths => Some ([], set_opened (set_file_paths paths) c)
  | ListFiles _, Refused _ => Some ([], c)
  | ReadUpload request key filename, Done => Some ([Upload request key filename], c)
  | ReadUpload _ _ _, Refused error => failed "échec de lecture du fichier : " error
  | Upload _ key filename, Done => Some ([], set_forms (ch_pending c) (<[key := Single filename]> (ch_answers c)) c)
  | Upload _ _ _, Refused error => failed "échec de téléversement : " error
  | _, _ => None
  end.

(** What happens to the page once it is mounted. *)
Inductive ChatStep :=
  | Receive (m : ServerMessageDto)
  | Page (e : PageEvent)
  | Poll (i : nat) (a : Answered).

Definition chat_step (st : ChatStep) (c : Chat) : Chat :=
  match st with
  | Receive m => on_message m c
  | Page e => on_page e c
  | Poll i a =>
      match ch_tasks c !! i with
      | None => c
      | Some t =>
          match task_step t a (set_tasks (base.delete i (ch_tasks c)) c) with
          | Some (ts, c) => set_tasks (ch_tasks c ++ ts) c
          | None => c
          end
      end
  end.

Definition chat_run (l : list ChatStep) (c : Chat) : Chat := foldl (λ c st, chat_step st c) c l.
End page.

Definition page_new : Chat := mkChat false [] [] "" (mkOpened None None ∅ [] ∅ ∅ [] None) [] None [] ∅ None "".
(** The effect that runs when the page is mounted. *)
Definition page_mount (connected : () + string) : Chat := ensure_socket connected page_new.

(** ** The socket *)

Definition is_sending (t : Task) : bool := match t with Sending _ => true | _ => false end.
Definition holders (l : list Task) : nat := length (filter is_sending l).
Definition well_sending (t : Task) : Prop := match t with Sending ms => ms ≠ [] | StartSend ms => ms ≠ [] | _ => True end.

(** The socket is in its cell or with one task, which has something to send;
    and no form waits twice. *)
Definition chat_ok (c : Chat) : Prop :=
  holders (ch_tasks c) + (if ch_socket c then 1 else 0) = 1 ∧
  Forall well_sending (ch_tasks c) ∧
  NoDup (rd_id <$> ch_pending c).

Lemma holders_app l k : holders (l ++ k) = holders l + holders k.
Proof. unfold holders. by rewrite filter_app, length_app. Qed.

Lemma holders_delete l i t : l !! i = Some t → holders l = holders (base.delete i l) + (if is_sending t then 1 else 0).
Proof.
  intros Hi. unfold holders. rewrite (delete_Permutation l i t Hi) at 1. rewrite filter_cons.
  case_decide; destruct (is_sending t); simpl in *; try done; lia.
Qed.

Section socket.
Context (parse_json : string → option Value) (parse_tools : string → list string).
Notation step := (chat_step parse_json parse_tools).
Notation run := (chat_run parse_json parse_tools).

(** Only the tasks that send concern the socket. *)
Lemma spawn_ok t c : is_sending t = false → well_sending t → chat_ok c → chat_ok (spawn t c).
Proof.
  intros Ht Hw (Hs&Hf&Hp). split_and!; simpl; [|by apply Forall_app; split; [|constructor]|done].
  rewrite holders_app. unfold holders at 2. rewrite filter_cons, Ht. simpl. lia.
Qed.

Lemma do_open_ok s c : chat_ok c → chat_ok (do_open s c).
Proof. intros Hc. unfold do_open. apply spawn_ok; [done..|]. by apply spawn_ok. Qed.

Lemma message_ok m c : chat_ok c → chat_ok (on_message m c).
Proof.
  intros Hc. destruct m as [[]|r|? ? []| | | |]; simpl; try done; try (by case_match).
  - case_match; [|done]. by apply spawn_ok.
  - destruct (existsb _ _) eqn:He; [done|]. destruct Hc as (Hs&Hf&Hp). split_and!; [done..|]. simpl.
    rewrite fmap_app. apply NoDup_app. split_and!; [done| |apply NoDup_singleton].
    intros i (r'&->&Hr)%list_elem_of_fmap Hi%list_elem_of_singleton. apply not_true_iff_false in He. apply He.
    apply existsb_exists. exists r'. split; [by apply list_elem_of_In|]. by apply bool_decide_eq_true.
Qed.

Lemma page_ok e c : chat_ok c → chat_ok (on_page parse_json parse_tools e c).
Proof.
  intros Hc. destruct e; simpl; try done; try by apply spawn_ok.
  - case_decide; [done|]. by apply do_open_ok.
  - destruct (op_session _); [|done]. case_decide; [done|]. by apply spawn_ok.
  - destruct (op_session _); [|done]. case_decide; [done|]. by apply spawn_ok.
  - destruct (op_workspace _); [|done]. case_decide; [done|]. by apply spawn_ok.
  - destruct (op_session _); [|done]. by apply spawn_ok.
  - destruct (op_session _), (ch_file c); try done. by apply spawn_ok.
  - destruct (op_session _); [|done]. case_decide; [done|]. by apply spawn_ok.
  - destruct (ch_pending c); [done|]. by apply spawn_ok.
  - destruct (ch_pending c) as [|request rest] eqn:Hp; [done|].
    assert (chat_ok (spawn (StartSend [HitlAnswer (rd_id request) (ch_answers c)]) c)) as (Hs&Hf&Hn) by by apply spawn_ok.
    split_and!; [done..|]. change (NoDup (rd_id <$> filter (λ r, rd_id r ≠ rd_id request) (request :: rest))).
    rewrite <- Hp. eapply sublist_NoDup; [apply Hc|]. apply fmap_sublist, sublist_filter.
Qed.

Lemma task_ok t a c ts c' :
  task_step t a c = Some (ts, c') → well_sending t → Forall well_sending (ch_tasks c) → NoDup (rd_id <$> ch_pending c) →
  holders (ch_tasks c) + (if is_sending t then 1 else 0) + (if ch_socket c then 1 else 0) = 1 →
  chat_ok (set_tasks (ch_tasks c' ++ ts) c').
Proof.
  intros Hstep Ht Hf Hp Hh.
  assert (∀ c ts, chat_ok c → Forall (λ t, is_sending t = false ∧ well_sending t) ts → chat_ok (set_tasks (ch_tasks c ++ ts) c))
    as Hquiet.
  { clear. intros c ts Hc Hts. revert c Hc. induction Hts as [|t ts [Ht Hw] _ IH]; intros c Hc.
    - destruct c. unfold set_tasks, chat_ok in *. simpl in *. by rewrite app_nil_r.
    - specialize (IH (spawn t c) (spawn_ok t c Ht Hw Hc)). unfold spawn, set_tasks, chat_ok in *. simpl in *.
      by rewrite <- (assoc_L (++)) in IH. }
  destruct t as [ms|ms| | | | | | | | | | | | | | |]; try (
    simpl in Hh; assert (chat_ok c) as Hc by (split_and!; [lia|done|done]);
      destruct a as [e0| |m0|l0|[w0|]|w0 s0|c0]; simpl in Hstep; simplify_eq;
      apply Hquiet; try (by repeat constructor); try done; by apply do_open_ok).
  - destruct a; try done. simpl in Hstep. destruct (ch_socket c) eqn:Es; simplify_eq.
    + split_and!; simpl; [|by apply Forall_app; split; [|constructor]|done].
      rewrite holders_app. simpl in Hh. unfold holders at 2. simpl. lia.
    + apply Hquiet; [|constructor]. split_and!; try done. rewrite Es. simpl in Hh. lia.
  - destruct ms as [|m ms]; [done|]. simpl in Hh. destruct (ch_socket c) eqn:Es; [lia|].
    destruct a; try done; simpl in Hstep; destruct ms as [|m' ms]; simplify_eq; simpl;
      split_and!; simpl; rewrite ?app_nil_r, ?holders_app; try done; try lia;
      try (apply Forall_app; split; [done|by constructor]); unfold holders at 2; simpl; rewrite ?Es; lia.
Qed.

Lemma step_ok st c : chat_ok c → chat_ok (step st c).
Proof.
  intros Hc. destruct st as [m|e|i a]; simpl; [by apply message_ok|by apply page_ok|].
  destruct (ch_tasks c !! i) as [t|] eqn:Hi; [|done].
  destruct (task_step t a _) as [[ts c']|] eqn:E; [|done].
  destruct Hc as (Hh&Hf&Hp). eapply task_ok; [exact E|..]; simpl.
  - rewrite Forall_lookup in Hf. by eapply Hf.
  - rewrite Forall_forall in *. intros t' Ht'. apply Hf. eapply elem_of_submseteq; [exact Ht'|].
    apply sublist_submseteq, sublist_delete.
  - done.
  - by rewrite <- (holders_delete _ _ _ Hi).
Qed.

(** C30: Once the page is connected, whatever the user, the server and the tasks
    do in whatever order, the socket is in its cell or with exactly one task
    that has something left to send: it is never lost, and never used by two
    tasks at once.  No form waits twice. *)
Theorem chat_keeps_socket (l : list ChatStep) :
  let c := run l (page_mount (inl ())) in
  holders (ch_tasks c) = (if ch_socket c then 0 else 1) ∧
  Forall (λ t, t ≠ Sending []) (ch_tasks c) ∧ NoDup (rd_id <$> ch_pending c).
Proof.
  cut (chat_ok (run l (page_mount (inl ())))).
  { intros (Hh&Hf&Hp) c. subst c. split_and!; [destruct (ch_socket _); lia| |done].
    eapply Forall_impl; [exact Hf|]. by intros t Ht ->. }
  assert (chat_ok (page_mount (inl ()))) as H0 by (split_and!; [done|constructor|constructor]).
  revert H0. generalize (page_mount (inl ())). unfold chat_run. induction l as [|st l IH]; intros c Hc; simpl; [done|].
  apply IH. by apply step_ok.
Qed.

(** What the server says of a session that is not open changes nothing on
    the page, frames apart; and what it says of the session that is open
    changes that session only. *)
Theorem other_sessions_ignored (e : SessionEventDto) (mode : Value) (c : Chat) :
  (op_session (ch_opened c) ≠ Some (event_session e) →
     on_message (SessionEvent e) c = c ∧ on_message (ModeMessage (event_session e) mode) c = c) ∧
  ∃ o ts, on_message (SessionEvent e) c = set_tasks (ch_tasks c ++ ts) (set_opened (λ _, o) c) ∧
    op_session o = op_session (ch_opened c) ∧ op_workspace o = op_workspace (ch_opened c) ∧
    op_workspace_vars o = op_workspace_vars (ch_opened c) ∧ op_file_paths o = op_file_paths (ch_opened c) ∧
    ∀ t, t ∈ ts → ∃ local_id, t = StartSend [GetFrame (event_session e) local_id].
Proof.
  split.
  - intros Hs. unfold on_message, is_open. rewrite bool_decide_false by done.
    by destruct e; simpl in *; rewrite ?bool_decide_false by done.
  - destruct c as [so se ta st [os ow ofr ol osv owv ofp om] ws sel pe an fi co].
    destruct e as [s|s l status|s log|s m|s|s key v|s key]; simpl; try (destruct (is_open s _));
      try (by eexists (mkOpened os ow ofr ol osv owv ofp om), []; unfold set_tasks, set_opened; simpl; rewrite app_nil_r;
             split_and!; [done..|intros t []%not_elem_of_nil]);
      try (by eexists (mkOpened os ow ofr _ _ owv ofp _), []; unfold set_tasks, set_opened; simpl; rewrite app_nil_r;
             split_and!; [done..|intros t []%not_elem_of_nil]).
    eexists (mkOpened os ow ofr ol osv owv ofp om), [StartSend [GetFrame s l]]. split_and!; try done.
    intros t ->%list_elem_of_singleton. by eexists.
Qed.

(** ** What goes wrong *)

(** A form that is submitted while another task holds the socket disappears
    from the page, and its answer is never sent. *)
Theorem busy_socket_drops_answer (c : Chat) (r : HitlRequestDto) (rest : list HitlRequestDto) :
  ch_socket c = false → ch_pending c = r :: rest →
  let c' := run [Page SubmitForm; Poll (length (ch_tasks c)) Done] c in
  ch_sent c' = ch_sent c ∧ ch_tasks c' = ch_tasks c ∧ rd_id r ∉ rd_id <$> ch_pending c' ∧ ch_answers c' = ∅.
Proof.
  intros Hs Hp. unfold chat_run. cbn [foldl chat_step on_page]. rewrite Hp. cbn [ch_tasks set_forms spawn set_tasks].
  rewrite lookup_app_r, Nat.sub_diag by lia. cbn [lookup list_lookup]. unfold task_step. cbn [ch_socket set_tasks set_forms spawn].
  rewrite Hs. simpl. split_and!; try done.
  - rewrite app_nil_r. assert (base.delete (length (ch_tasks c)) (ch_tasks c ++ [StartSend [HitlAnswer (rd_id r) (ch_answers c)]]) = ch_tasks c) as ->; [|done].
    by rewrite delete_middle, app_nil_r.
  - intros (r'&Hid&[Hne _]%list_elem_of_filter)%list_elem_of_fmap. congruence.
Qed.

(** The answer to what was asked for a session that was left fills the page of
    the session that is open now. *)
Theorem late_answer_fills_page (c : Chat) (i : nat) (s s' : string) (m : gmap string Value) :
  ch_tasks c !! i = Some (OpenVars s) → op_session (ch_opened c) = Some s' →
  let c' := run [Poll i (Vars m)] c in
  op_session (ch_opened c') = Some s' ∧ op_session_vars (ch_opened c') = m.
Proof. intros Hi Hs. unfold chat_run. simpl. rewrite Hi. by simpl. Qed.

(** So does a frame, whatever its session. *)
Theorem foreign_frame_is_shown (c : Chat) (s local_id : string) (f : FrameSnapshotDto) :
  op_frames (ch_opened (run [Receive (FrameMessage s local_id (Some f))] c)) !! fd_id f = Some f.
Proof. unfold chat_run. simpl. apply lookup_insert_eq. Qed.
End socket.

(** ** A page *)

Definition demo_request : HitlRequestDto := mkRequestDto "7" ("s", "f") [mkQuestion "q" "" ShortText].
Definition demo_run : list ChatStep → Chat :=
  λ l, chat_run (λ _, None) (λ _, []) l (page_mount (inl ())).

Example demo_chat :
  let c := demo_run [Receive (HitlRequest demo_request); Page (OpenClick "s"); Page (UseWidget (Typed "q" "yes"));
                     Page SubmitForm; Poll 0 Done; Poll 2 Done; Poll 2 Done; Poll 1 Done; Poll 1 Done] in
  ch_sent c = [SubscribeSession "s"; GetMode "s"; HitlAnswer "7" {["q" := Single "yes"]}] ∧ ch_pending c = [].
Proof. vm_compute. split; reflexivity. Qed.

Lemma busy_socket_drops_answer_witness :
  let c := demo_run [Receive (HitlRequest demo_request); Page (OpenClick "s"); Poll 0 Done] in
  ch_sent (chat_run (λ _, None) (λ _, []) [Page SubmitForm; Poll 2 Done] c) = [].
Proof.
  intros c. apply (busy_socket_drops_answer (λ _, None) (λ _, []) c demo_request []); reflexivity.
Defined.

Lemma late_answer_fills_page_witness :
  let c := demo_run [Page (OpenClick "a"); Page (OpenClick "b")] in
  op_session (ch_opened (chat_run (λ _, None) (λ _, []) [Poll 1 (Vars {["x" := Null]})] c)) = Some "b".
Proof.
  intros c. apply (late_answer_fills_page (λ _, None) (λ _, []) c 1 "a" "b" {["x" := Null]}); reflexivity.
Defined.

Lemma other_sessions_ignored_witness :
  let c := demo_run [Page (OpenClick "a")] in
  on_message (SessionEvent (ValueChanged "b" "x" Null)) c = c.
Proof.
  intros c. apply (proj1 (other_sessions_ignored (ValueChanged "b" "x" Null) Null c)).
  apply (bool_decide_unpack _). vm_compute. exact I.
Defined.
