(* ===== verification/Editor.v ===== *)
(** * The editor of graphs in a browser ([marie-leptos/src/state_graph_editor.rs])

    A canvas shows nodes and edges, and changes them: a double click makes a
    node, the handle of a node is dragged to another to join them, a body is
    dragged to move it, and a right click deletes.  Each handler of an event of
    the mouse is a function of the nodes, the edges and the drag in progress. *)

From stdpp Require Import pretty.
From S2P Require Import Prelude.

(** The operations of [f64] that the file uses. *)
Class Doubles := {
  D : Type;
  d_int : Z → D;                       (* [f64::from(i32)], and the literals *)
  d_add : D → D → D; d_sub : D → D → D; d_mul : D → D → D; d_div : D → D → D;
  d_abs : D → D; d_sqrt : D → D; d_min : D → D → D; d_max : D → D → D;
  d_eqb : D → D → bool; d_leb : D → D → bool; d_ltb : D → D → bool; d_epsilon : D
}.

Section editor.
Context `{Doubles}.

(** ** The graph ([types.rs]) *)

Inductive ExecutableView :=
  | Rust (id : string) | Python (source : string) | Rune (source : string) | Agent (expert_id task : string).
Definition executable_label (e : ExecutableView) : string :=
  match e with Rust _ => "rust" | Python _ => "python" | Rune _ => "rune" | Agent _ _ => "agent" end.

Record NodeView := mkNodeView { nv_id : string; nv_x : D; nv_y : D; nv_action : option ExecutableView }.
Record EdgeView := mkEdgeView { ev_from : string; ev_to : string; ev_guard : option ExecutableView }.

(** ** Geometry *)

Definition NODE_WIDTH : D := d_int 140.
Definition NODE_HEIGHT : D := d_int 48.
Definition HANDLE_RADIUS : D := d_int 7.
Definition HANDLE_HIT_RADIUS : D := d_add HANDLE_RADIUS (d_int 4).
Definition HANDLE_OFFSET_X : D := d_add (d_div NODE_WIDTH (d_int 2)) (d_int 18).
Definition EDGE_HIT_DISTANCE : D := d_int 6.

(** [iter().position(..)] *)
Fixpoint position {A} (f : A → bool) (l : list A) : option nat :=
  match l with
  | [] => None
  | a :: l => if f a then Some O else S <$> position f l
  end.

Definition square (a : D) : D := d_mul a a.
Definition hypotenuse (dx dy : D) : D := d_sqrt (d_add (square dx) (square dy)).

Definition node_at (nodes : list NodeView) (x y : D) : option nat :=
  position (λ n, d_leb (d_abs (d_sub x (nv_x n))) (d_div NODE_WIDTH (d_int 2)) &&
                 d_leb (d_abs (d_sub y (nv_y n))) (d_div NODE_HEIGHT (d_int 2))) nodes.

Definition handle_at (nodes : list NodeView) (x y : D) : option nat :=
  position (λ n, d_leb (hypotenuse (d_sub x (d_add (nv_x n) HANDLE_OFFSET_X)) (d_sub y (nv_y n))) HANDLE_HIT_RADIUS) nodes.

(** [t.clamp(0.0, 1.0)] *)
Definition clamp01 (t : D) : D := if d_ltb t (d_int 0) then d_int 0 else if d_ltb (d_int 1) t then d_int 1 else t.

Definition distance_to_segment (px py x1 y1 x2 y2 : D) : D :=
  let dx := d_sub x2 x1 in
  let dy := d_sub y2 y1 in
  let len_sq := d_add (d_mul dx dx) (d_mul dy dy) in
  let t := if d_eqb len_sq (d_int 0) then d_int 0
           else d_div (d_add (d_mul (d_sub px x1) dx) (d_mul (d_sub py y1) dy)) len_sq in
  let t := clamp01 t in
  hypotenuse (d_sub px (d_add x1 (d_mul t dx))) (d_sub py (d_add y1 (d_mul t dy))).

Definition find_node (nodes : list NodeView) (id : string) : option NodeView :=
  snd <$> list_find (λ n, nv_id n = id) nodes.

Definition edge_at (nodes : list NodeView) (edges : list EdgeView) (x y : D) : option nat :=
  position (λ e,
    match find_node nodes (ev_from e), find_node nodes (ev_to e) with
    | Some a, Some b => d_leb (distance_to_segment x y (nv_x a) (nv_y a) (nv_x b) (nv_y b)) EDGE_HIT_DISTANCE
    | _, _ => false
    end) edges.

(** ** Events *)

Inductive DragState :=
  | MovingNode (index : nat) (grab_dx grab_dy : D)
  | DrawingEdge (from_index : nat) (cursor : D * D).

Record Editor := mkEditor { ed_nodes : list NodeView; ed_edges : list EdgeView; ed_drag : option DragState }.
Notation EM := (M Editor Empty_set).

Definition set_nodes (l : list NodeView) (s : Editor) : Editor := mkEditor l (ed_edges s) (ed_drag s).
Definition set_edges (l : list EdgeView) (s : Editor) : Editor := mkEditor (ed_nodes s) l (ed_drag s).
Definition set_drag (d : option DragState) (s : Editor) : Editor := mkEditor (ed_nodes s) (ed_edges s) d.

(** [nodes[index]], which panics out of range. *)
Definition node_of (index : nat) : EM NodeView :=
  nodes ← gets ed_nodes; match nodes !! index with Some n => mret n | None => panic end.

Definition on_mouse_down (x y : D) : EM () :=
  nodes ← gets ed_nodes;
  match handle_at nodes x y with
  | Some index => modify (set_drag (Some (DrawingEdge index (x, y))))
  | None =>
      match node_at nodes x y with
      | Some index =>
          n ← node_of index;
          modify (set_drag (Some (MovingNode index (d_sub x (nv_x n)) (d_sub y (nv_y n)))))
      | None => mret ()
      end
  end.

Definition move_node (x y : D) (n : NodeView) : NodeView := mkNodeView (nv_id n) x y (nv_action n).

Definition on_mouse_move (x y : D) : EM () :=
  drag ← gets ed_drag;
  match drag with
  | None => mret ()
  | Some (MovingNode index dx dy) =>
      modify (λ s, set_nodes (alter (move_node (d_sub x dx) (d_sub y dy)) index (ed_nodes s)) s)
  | Some (DrawingEdge from_index _) => modify (set_drag (Some (DrawingEdge from_index (x, y))))
  end.

Definition join_nodes (from_index target_index : nat) : EM () :=
  from ← node_of from_index;
  target ← node_of target_index;
  modify (λ s,
    if existsb (λ e, bool_decide (ev_from e = nv_id from) && bool_decide (ev_to e = nv_id target)) (ed_edges s) then s
    else set_edges (ed_edges s ++ [mkEdgeView (nv_id from) (nv_id target) None]) s).

Definition on_mouse_up (x y : D) : EM () :=
  s ← get;
  _ ← (match ed_drag s with
       | Some (DrawingEdge from_index _) =>
           match node_at (ed_nodes s) x y with
           | Some target_index => if decide (target_index = from_index) then mret () else join_nodes from_index target_index
           | None => mret ()
           end
       | _ => mret ()
       end);
  modify (set_drag None).

Definition on_mouse_leave : EM () := modify (set_drag None).

(** The first free identifier of the form [node-n]. *)
Fixpoint free_id (fuel : nat) (existing : list NodeView) (n : nat) : option string :=
  match fuel with
  | O => None
  | S fuel =>
      let candidate := "node-" +:+ pretty n in
      if decide (candidate ∈ nv_id <$> existing) then free_id fuel existing (S n) else Some candidate
  end.
Definition unique_node_id (existing : list NodeView) : option string :=
  free_id (S (length existing)) existing (length existing + 1).

Definition on_dbl_click (x y : D) : EM () :=
  nodes ← gets ed_nodes;
  match node_at nodes x y with
  | Some _ => mret ()
  | None =>
      match unique_node_id nodes with
      | Some id => modify (set_nodes (nodes ++ [mkNodeView id x y None]))
      | None => panic
      end
  end.

Definition on_context_menu (x y : D) : EM () :=
  s ← get;
  match node_at (ed_nodes s) x y with
  | Some index =>
      n ← node_of index;
      modify (λ s, set_edges (filter (λ e, ev_from e ≠ nv_id n ∧ ev_to e ≠ nv_id n) (ed_edges s))
                     (set_nodes (filter (λ m, nv_id m ≠ nv_id n) (ed_nodes s)) s))
  | None =>
      match edge_at (ed_nodes s) (ed_edges s) x y with
      | Some index => modify (λ s, set_edges (base.delete index (ed_edges s)) s)
      | None => mret ()
      end
  end.

Inductive MouseEvent :=
  | MouseDown (x y : D) | MouseMove (x y : D) | MouseUp (x y : D) | MouseLeave
  | DblClick (x y : D) | ContextMenu (x y : D).

Definition editor_event (e : MouseEvent) : EM () :=
  match e with
  | MouseDown x y => on_mouse_down x y
  | MouseMove x y => on_mouse_move x y
  | MouseUp x y => on_mouse_up x y
  | MouseLeave => on_mouse_leave
  | DblClick x y => on_dbl_click x y
  | ContextMenu x y => on_context_menu x y
  end.

Definition editor_run (es : list MouseEvent) : EM () := mfor es editor_event.

(** ** What is drawn *)

(** Where an edge meets the border of a node. *)
Definition edge_anchor (from_x from_y to_x to_y : D) : D * D :=
  let dx := d_sub to_x from_x in
  let dy := d_sub to_y from_y in
  if d_eqb dx (d_int 0) && d_eqb dy (d_int 0) then (from_x, from_y)
  else
    let scale_x := d_div (d_div NODE_WIDTH (d_int 2)) (d_max (d_abs dx) d_epsilon) in
    let scale_y := d_div (d_div NODE_HEIGHT (d_int 2)) (d_max (d_abs dy) d_epsilon) in
    let scale := d_min scale_x scale_y in
    (d_add from_x (d_mul dx scale), d_add from_y (d_mul dy scale)).

(** An edge, solid when it is guarded; the edge in progress; a node with the
    text of its action. *)
Inductive Shape :=
  | ShapeEdge (from to : D * D) (guarded : bool)
  | ShapePending (from cursor : D * D)
  | ShapeNode (id : string) (x y : D) (is_entry : bool) (label : option string).

Definition draw_edge (nodes : list NodeView) (e : EdgeView) : option Shape :=
  a ← find_node nodes (ev_from e);
  b ← find_node nodes (ev_to e);
  Some (ShapeEdge (edge_anchor (nv_x a) (nv_y a) (nv_x b) (nv_y b)) (edge_anchor (nv_x b) (nv_y b) (nv_x a) (nv_y a))
          (bool_decide (is_Some (ev_guard e)))).

Definition draw (nodes : list NodeView) (edges : list EdgeView) (entry : option string) (drag : option DragState) : list Shape :=
  omap (draw_edge nodes) edges ++
  (match drag with
   | Some (DrawingEdge from_index cursor) =>
       match nodes !! from_index with
       | Some a => [ShapePending (d_add (nv_x a) HANDLE_OFFSET_X, nv_y a) cursor]
       | None => []
       end
   | _ => []
   end) ++
  ((λ n, ShapeNode (nv_id n) (nv_x n) (nv_y n) (bool_decide (entry = Some (nv_id n))) (executable_label <$> nv_action n))
     <$> nodes).

(** ** Identifiers *)

Lemma node_id_inj (n m : nat) : "node-" +:+ pretty n = "node-" +:+ pretty m → n = m.
Proof. intros Heq. apply (inj pretty). by injection Heq. Qed.

Lemma free_id_spec fuel existing n :
  match free_id fuel existing n with
  | Some id => ∃ k, n ≤ k < n + fuel ∧ id = "node-" +:+ pretty k ∧ id ∉ nv_id <$> existing ∧
                 ∀ j, n ≤ j < k → "node-" +:+ pretty j ∈ nv_id <$> existing
  | None => ∀ j, n ≤ j < n + fuel → "node-" +:+ pretty j ∈ nv_id <$> existing
  end.
Proof.
  revert n. induction fuel as [|fuel IH]; intros n; simpl; [lia|]. case_decide as Hin.
  - specialize (IH (S n)). destruct (free_id fuel existing (S n)) as [id|].
    + destruct IH as (k&Hk&->&Hid&Hj). exists k. split_and!; [lia|lia|done|done|].
      intros j Hj'. destruct (decide (j = n)) as [->|]; [done|]. apply Hj. lia.
    + intros j Hj. destruct (decide (j = n)) as [->|]; [done|]. apply IH. lia.
  - exists n. split_and!; [lia|lia|done|done|]. lia.
Qed.

(** One identifier more than there are nodes cannot all be taken. *)
Lemma unique_node_id_spec existing :
  ∃ k, unique_node_id existing = Some ("node-" +:+ pretty k) ∧ length existing < k ≤ 2 * length existing + 1 ∧
    "node-" +:+ pretty k ∉ nv_id <$> existing ∧
    ∀ j, length existing < j < k → "node-" +:+ pretty j ∈ nv_id <$> existing.
Proof.
  unfold unique_node_id. pose proof (free_id_spec (S (length existing)) existing (length existing + 1)) as Hs.
  destruct (free_id _ _ _) as [id|].
  - destruct Hs as (k&Hk&->&Hid&Hj). exists k. split_and!; [done|lia|lia|done|]. intros j ?. apply Hj. lia.
  - exfalso.
    set (ids := (λ j : nat, "node-" +:+ pretty j) <$> seq (length existing + 1) (S (length existing))).
    assert (NoDup ids) as Hnd by (apply NoDup_fmap; [intros ? ?; apply node_id_inj|apply NoDup_seq]).
    assert (ids ⊆+ nv_id <$> existing) as Hsub%submseteq_length.
    { apply NoDup_submseteq; [done|]. intros id (j&->&Hj)%list_elem_of_fmap. apply elem_of_seq in Hj. apply Hs. lia. }
    unfold ids in Hsub. rewrite !length_fmap, length_seq in Hsub. lia.
Qed.

(** ** The graph stays well formed *)

(** Identifiers name one node each; edges join two distinct nodes of the graph,
    and no two of them the same way. *)
Definition graph_ok (s : Editor) : Prop :=
  NoDup (nv_id <$> ed_nodes s) ∧
  Forall (λ e, ev_from e ∈ nv_id <$> ed_nodes s ∧ ev_to e ∈ nv_id <$> ed_nodes s ∧ ev_from e ≠ ev_to e) (ed_edges s) ∧
  NoDup ((λ e, (ev_from e, ev_to e)) <$> ed_edges s).

(** The drag in progress is on a node that is there. *)
Definition drag_ok (s : Editor) : Prop :=
  match ed_drag s with
  | Some (MovingNode i _ _) | Some (DrawingEdge i _) => i < length (ed_nodes s)
  | None => True
  end.

Lemma position_lt {A} (f : A → bool) l i : position f l = Some i → i < length l.
Proof.
  revert i. induction l as [|a l IH]; intros i; simpl; [done|]. destruct (f a); [intros [= <-]; lia|].
  intros (j&Hj&->)%fmap_Some. specialize (IH j Hj). lia.
Qed.

Lemma node_of_run i s :
  node_of i s = (match ed_nodes s !! i with Some n => Ok n | None => Panic end, s).
Proof. unfold node_of, gets, mbind, m_bind. by destruct (ed_nodes s !! i). Qed.

Lemma mouse_down_spec x y s :
  (graph_ok s → graph_ok (run_state (on_mouse_down x y) s)) ∧ run_res (on_mouse_down x y) s ≠ Panic ∧
  (drag_ok s → drag_ok (run_state (on_mouse_down x y) s)).
Proof.
  unfold on_mouse_down, run_res, run_state, gets, mbind, m_bind.
  destruct (handle_at (ed_nodes s) x y) as [i|] eqn:Hh; simpl.
  { apply position_lt in Hh. done. }
  destruct (node_at (ed_nodes s) x y) as [i|] eqn:Hn; simpl; [|done].
  apply position_lt in Hn. rewrite node_of_run.
  destruct (lookup_lt_is_Some_2 _ _ Hn) as [n ->]. done.
Qed.

Lemma mouse_move_spec x y s :
  (graph_ok s → graph_ok (run_state (on_mouse_move x y) s)) ∧ run_res (on_mouse_move x y) s ≠ Panic ∧
  (drag_ok s → drag_ok (run_state (on_mouse_move x y) s)).
Proof.
  destruct s as [nodes edges [[i dx dy|i c]|]]; unfold on_mouse_move, run_res, run_state, gets, mbind, m_bind; simpl; try done.
  unfold graph_ok, drag_ok. simpl. rewrite length_alter.
  assert (nv_id <$> alter (move_node (d_sub x dx) (d_sub y dy)) i nodes = nv_id <$> nodes) as ->; [|done].
  rewrite (list_fmap_alter nv_id _ id) by (by apply Forall_true). by apply list_alter_id.
Qed.

Lemma ids_of_lookup (nodes : list NodeView) i n : nodes !! i = Some n → nv_id n ∈ nv_id <$> nodes.
Proof. intros Hi. apply list_elem_of_fmap_2. by eapply list_elem_of_lookup_2. Qed.

Lemma join_nodes_spec i j s n m :
  ed_nodes s !! i = Some n → ed_nodes s !! j = Some m → i ≠ j →
  run_res (join_nodes i j) s = Ok () ∧ ed_nodes (run_state (join_nodes i j) s) = ed_nodes s ∧
  (graph_ok s → graph_ok (run_state (join_nodes i j) s)).
Proof.
  intros Hi Hj Hij. unfold join_nodes, run_res, run_state, mbind, m_bind. rewrite !node_of_run, Hi, Hj. simpl.
  destruct (existsb _ (ed_edges s)) eqn:Hex; [done|]. split_and!; [done..|].
  intros (Hids&Hends&Hnd). unfold graph_ok. simpl. split_and!; [done| |].
  - apply Forall_app. split; [done|]. constructor; [|done]. simpl.
    split_and!; [by eapply ids_of_lookup..|]. intros Heq. apply Hij.
    eapply NoDup_lookup; [exact Hids|rewrite list_lookup_fmap, Hi; done|rewrite list_lookup_fmap, Hj; simpl; congruence].
  - rewrite fmap_app. apply NoDup_app. split_and!; [done| |apply NoDup_singleton].
    intros p (e&->&He)%list_elem_of_fmap Hin%list_elem_of_singleton. apply not_true_iff_false in Hex. apply Hex.
    apply existsb_exists. exists e. split; [by apply list_elem_of_In|]. simpl in Hin. injection Hin as -> ->.
    by rewrite !bool_decide_true.
Qed.

Lemma mouse_up_spec x y s :
  (graph_ok s → graph_ok (run_state (on_mouse_up x y) s)) ∧ (drag_ok s → run_res (on_mouse_up x y) s ≠ Panic) ∧
  (drag_ok s → drag_ok (run_state (on_mouse_up x y) s)).
Proof.
  unfold on_mouse_up, run_res, run_state, get, mbind, m_bind. simpl.
  destruct (ed_drag s) as [[i dx dy|i c]|] eqn:Hd; simpl; [done| |done].
  destruct (node_at (ed_nodes s) x y) as [j|] eqn:Hn; [|done]. case_decide as Hij; [done|].
  apply position_lt in Hn. destruct (lookup_lt_is_Some_2 _ _ Hn) as [m Hm].
  unfold drag_ok. rewrite Hd. destruct (ed_nodes s !! i) as [n|] eqn:Hi.
  - destruct (join_nodes_spec i j s n m Hi Hm) as (Hr&_&Hg); [done|]. apply run_pair in Hr. rewrite Hr. simpl. done.
  - apply lookup_ge_None in Hi. unfold join_nodes, mbind, m_bind. rewrite node_of_run, (proj2 (lookup_ge_None _ _)) by done.
    simpl. split_and!; [done|lia|lia].
Qed.

Lemma dbl_click_spec x y s :
  (graph_ok s → graph_ok (run_state (on_dbl_click x y) s)) ∧ run_res (on_dbl_click x y) s ≠ Panic ∧
  (drag_ok s → drag_ok (run_state (on_dbl_click x y) s)).
Proof.
  unfold on_dbl_click, run_res, run_state, gets, mbind, m_bind. simpl. destruct (node_at _ x y); [done|].
  destruct (unique_node_id_spec (ed_nodes s)) as (k&->&_&Hid&_). simpl. split_and!; [|done|].
  - intros (Hids&Hends&Hnd). unfold graph_ok. simpl. rewrite fmap_app. split_and!; [| |done].
    + apply NoDup_app. split_and!; [done| |apply NoDup_singleton]. by intros i Hi ->%list_elem_of_singleton.
    + eapply Forall_impl; [exact Hends|]. intros e (?&?&?). rewrite !elem_of_app. auto.
  - unfold drag_ok. simpl. rewrite length_app. destruct (ed_drag s) as [[]|]; simpl; lia.
Qed.

Lemma edges_sublist nodes (edges edges' : list EdgeView) d d' :
  edges' `sublist_of` edges → graph_ok (mkEditor nodes edges d) → graph_ok (mkEditor nodes edges' d').
Proof.
  intros Hs (Hids&Hends&Hnd). split_and!; [done| |].
  - simpl in *. rewrite Forall_forall in *. intros e He. apply Hends. eapply elem_of_submseteq; [exact He|by apply sublist_submseteq].
  - simpl. eapply sublist_NoDup; [exact Hnd|]. by apply fmap_sublist.
Qed.

Lemma context_menu_spec x y s :
  (graph_ok s → graph_ok (run_state (on_context_menu x y) s)) ∧ run_res (on_context_menu x y) s ≠ Panic ∧
  (ed_drag s = None → drag_ok (run_state (on_context_menu x y) s)).
Proof.
  destruct s as [nodes edges d]. unfold on_context_menu, run_res, run_state, get, mbind, m_bind. simpl.
  destruct (node_at nodes x y) as [i|] eqn:Hn.
  - apply position_lt in Hn. rewrite node_of_run. simpl. destruct (lookup_lt_is_Some_2 _ _ Hn) as [n Hi]. rewrite Hi.
    simpl. split_and!; [|done|by intros ->].
    intros (Hids&Hends&Hnd). split_and!; simpl.
    + eapply sublist_NoDup; [exact Hids|]. apply fmap_sublist, sublist_filter.
    + rewrite Forall_forall in *. intros e [[Hf Ht] He]%list_elem_of_filter. destruct (Hends e He) as (H1&H2&H3).
      assert (∀ id, id ≠ nv_id n → id ∈ nv_id <$> nodes → id ∈ nv_id <$> filter (λ m, nv_id m ≠ nv_id n) nodes) as Hkeep.
      { intros id Hid (m&->&Hm)%list_elem_of_fmap. apply list_elem_of_fmap_2, list_elem_of_filter. done. }
      split_and!; [by apply Hkeep..|done].
    + eapply sublist_NoDup; [exact Hnd|]. apply fmap_sublist, sublist_filter.
  - destruct (edge_at nodes edges x y) as [i|]; simpl; [|by split_and!; [| |intros ->]].
    split_and!; [|done|by intros ->]. apply edges_sublist, sublist_delete.
Qed.

(** No right click falls in the middle of a drag. *)
Fixpoint calm (es : list MouseEvent) (s : Editor) : Prop :=
  match es with
  | [] => True
  | e :: es =>
      match e with ContextMenu _ _ => ed_drag s = None | _ => True end ∧ calm es (run_state (editor_event e) s)
  end.

Lemma event_ok e s :
  (graph_ok s → graph_ok (run_state (editor_event e) s)) ∧
  (drag_ok s → match e with ContextMenu _ _ => ed_drag s = None | _ => True end →
   run_res (editor_event e) s ≠ Panic ∧ drag_ok (run_state (editor_event e) s)).
Proof.
  destruct e as [x y|x y|x y| |x y|x y]; simpl.
  - destruct (mouse_down_spec x y s) as (?&?&?). auto.
  - destruct (mouse_move_spec x y s) as (?&?&?). auto.
  - destruct (mouse_up_spec x y s) as (?&?&?). auto.
  - by unfold on_mouse_leave, run_res, run_state.
  - destruct (dbl_click_spec x y s) as (?&?&?). auto.
  - destruct (context_menu_spec x y s) as (?&?&?). auto.
Qed.

(** Whatever the mouse does, in any order, the graph that is edited stays
    well formed: each identifier names one node, edges join two distinct nodes
    that are there, and no two of them join the same nodes the same way.  When
    no right click falls in the middle of a drag, no event panics either: a new
    node always finds an identifier. *)
Theorem editor_keeps_graph (es : list MouseEvent) (s : Editor) :
  graph_ok s →
  graph_ok (run_state (editor_run es) s) ∧
  (drag_ok s → calm es s → run_res (editor_run es) s = Ok () ∧ drag_ok (run_state (editor_run es) s)).
Proof.
  unfold editor_run. revert s. induction es as [|e es IH]; intros s Hs; simpl; [done|].
  destruct (event_ok e s) as [Hg Hd]. specialize (Hg Hs). unfold run_res, run_state, mbind, m_bind in *.
  destruct (editor_event e s) as [[[]|[]|] s'] eqn:E; simpl in *.
  - specialize (IH s' Hg). split; [apply IH|]. intros Hdrag [He Hes]. apply IH; [by apply Hd|done].
  - split; [done|]. intros Hdrag [He Hes]. by destruct (Hd Hdrag He).
Qed.
End editor.

(** ** A canvas of whole coordinates *)

#[export] Instance integers : Doubles := {|
  D := Z; d_int z := z; d_add := Z.add; d_sub := Z.sub; d_mul := Z.mul; d_div := Z.div;
  d_abs := Z.abs; d_sqrt := Z.sqrt; d_min := Z.min; d_max := Z.max;
  d_eqb := Z.eqb; d_leb := Z.leb; d_ltb := Z.ltb; d_epsilon := 1%Z
|}.

Definition node (id : string) (x y : Z) : NodeView := mkNodeView id (x : D) (y : D) None.
Definition at_ (e : D → D → MouseEvent) (x y : Z) : MouseEvent := e (x : D) (y : D).
Definition empty_editor : Editor := mkEditor [] [] None.

(** Two nodes are made and joined. *)
Definition joined : list MouseEvent :=
  [at_ DblClick 100 100; at_ DblClick 400 100; at_ MouseDown 188 100;
   at_ MouseMove 300 100; at_ MouseUp 390 110].
Example demo_editor :
  run_state (editor_run joined) empty_editor =
    mkEditor [node "node-1" 100 100; node "node-2" 400 100] [mkEdgeView "node-1" "node-2" None] None.
Proof. vm_compute. reflexivity. Qed.

Lemma empty_ok : graph_ok empty_editor.
Proof. split_and!; by constructor. Qed.

Lemma editor_keeps_graph_witness :
  graph_ok (run_state (editor_run joined) empty_editor) ∧ run_res (editor_run joined) empty_editor = Ok ().
Proof.
  split; [apply (editor_keeps_graph joined empty_editor empty_ok)|].
  apply (editor_keeps_graph joined empty_editor empty_ok); [exact I|vm_compute; tauto].
Defined.

(** A right click presses the mouse too, which starts a drag: deleting a node
    leaves a drag on its index, and the node that takes its place moves. *)
Theorem deleting_moves_another :
  let s := mkEditor [node "a" 100 100; node "b" 400 100] [] None in
  ed_nodes (run_state (editor_run
    [at_ MouseDown 100 100; at_ ContextMenu 100 100; at_ MouseMove 110 105]) s) =
    [node "b" 110 105].
Proof. vm_compute. reflexivity. Qed.

(** An edge that is drawn from the handle of a node, over another that is
    deleted meanwhile, ends with an index out of range. *)
Theorem deleting_panics :
  let s := mkEditor [node "a" 488 100; node "b" 500 100; node "c" 400 100] [] None in
  run_res (editor_run
    [at_ MouseDown 488 100; at_ ContextMenu 488 100; at_ MouseUp 488 100]) s = Panic.
Proof. vm_compute. reflexivity. Qed.
