(* ===== verification/Api.v ===== *)
(** * The server behind the pages ([marie-web-example/src/api.rs], [hitl_upload.rs], [dto.rs])

    Functions of the server that the pages call: each reads its identifiers,
    calls a client of the cluster, and converts what the catalogues keep to and
    from what the pages show. *)

From S2P Require Import Prelude Ids Json Types Secrets Editor.

(** ** What the pages exchange ([dto.rs]) *)

Record ModelDto := mkModelDto {
  md_id : string; md_base_url : string; md_client_id : string; md_api_key : string; md_model : string;
  md_system_prompt : option string }.
Record ToolDto := mkToolDto {
  td_id : string; td_name : string; td_description : string; td_parameters_schema : Value; td_scope : string }.
Record ExpertDto := mkExpertDto {
  xd_id : string; xd_prompt : string; xd_model_id : string; xd_allowed_tools : list string }.

(** [ExecutableDto] has the constructors of [ExecutableView], and of
    [Executable]. *)
Inductive ExecutableDto :=
  | DtoRust (id : string) | DtoPython (source : string) | DtoRune (source : string) | DtoAgent (expert_id task : string).
Record NodeDto := mkNodeDto { nd_id : string; nd_action : option ExecutableDto }.
Record EdgeDto := mkEdgeDto { ed_from : string; ed_to : string; ed_guard : option ExecutableDto }.
Record StateGraphDto := mkGraphDto {
  gd_id : string; gd_entry : string; gd_nodes : list NodeDto; gd_edges : list EdgeDto }.

(** ** What the clients of the cluster keep

    The declarations of an earlier [marie-core]: [api.rs] builds them and takes
    them apart with all of their fields. *)

Inductive Declared := OpenAICompatible (base_url client_id api_key model : string) (system_prompt : option string).
Inductive ToolScope := Global | SessionScope.
Record ToolSignature := mkSignature { sg_name : string; sg_description : string; sg_parameters_schema : Value }.
Record ToolDeclaration := mkToolDecl { tc_signature : ToolSignature; tc_scope : ToolScope }.
Inductive Executable :=
  | ExecRust (id : string) | ExecPython (source : string) | ExecRune (source : string) | ExecAgent (expert_id task : string).

(** Its identifiers, nodes and edges, which it reads and makes through
    functions. *)
Class OldTypes := {
  OldId : Type; id_new : string → OldId; id_text : OldId → string;
  GraphNode : Type; node_new : string → option Executable → GraphNode; gn_id : GraphNode → string;
  gn_action : GraphNode → option Executable;
  GraphEdge : Type; edge_new : string → string → option Executable → GraphEdge; ge_from : GraphEdge → string;
  ge_to : GraphEdge → string; ge_guard : GraphEdge → option Executable;
  id_text_new : ∀ s, id_text (id_new s) = s;
  node_new_ok : ∀ i a, gn_id (node_new i a) = i ∧ gn_action (node_new i a) = a;
  edge_new_ok : ∀ f t g, ge_from (edge_new f t g) = f ∧ ge_to (edge_new f t g) = t ∧ ge_guard (edge_new f t g) = g
}.

Section api.
Context `{OldTypes}.

Record ExpertDeclaration := mkExpertDecl { xc_prompt : string; xc_model_id : OldId; xc_allowed_tools : list OldId }.
Record StateGraphDeclaration := mkGraphDecl { gc_nodes : list GraphNode; gc_edges : list GraphEdge; gc_entry : string }.

(** ** Conversions *)

Definition model_from_dto (d : ModelDto) : Declared :=
  OpenAICompatible (md_base_url d) (md_client_id d) (md_api_key d) (md_model d) (md_system_prompt d).
Definition model_to_dto (id : OldId) (m : Declared) : ModelDto :=
  let 'OpenAICompatible base_url client_id api_key model system_prompt := m in
  mkModelDto (id_text id) base_url client_id api_key model system_prompt.

Definition unknown_scope (other : string) : string :=
  "portée de tool inconnue : '" +:+ other +:+ "' (attendu 'global' ou 'session')".
Definition tool_from_dto (d : ToolDto) : Res string ToolDeclaration :=
  scope ← (if decide (td_scope d = "global") then Ok Global
           else if decide (td_scope d = "session") then Ok SessionScope else Err (unknown_scope (td_scope d)));
  Ok (mkToolDecl (mkSignature (td_name d) (td_description d) (td_parameters_schema d)) scope).
Definition tool_to_dto (id : OldId) (decl : ToolDeclaration) : ToolDto :=
  let s := tc_signature decl in
  mkToolDto (id_text id) (sg_name s) (sg_description s) (sg_parameters_schema s)
    (match tc_scope decl with Global => "global" | SessionScope => "session" end).

Definition expert_from_dto (d : ExpertDto) : ExpertDeclaration :=
  mkExpertDecl (xd_prompt d) (id_new (xd_model_id d)) (id_new <$> xd_allowed_tools d).
Definition expert_to_dto (id : OldId) (decl : ExpertDeclaration) : ExpertDto :=
  mkExpertDto (id_text id) (xc_prompt decl) (id_text (xc_model_id decl)) (id_text <$> xc_allowed_tools decl).

Definition executable_from_dto (d : ExecutableDto) : Executable :=
  match d with
  | DtoRust id => ExecRust id
  | DtoPython source => ExecPython source
  | DtoRune source => ExecRune source
  | DtoAgent expert_id task => ExecAgent expert_id task
  end.
Definition executable_to_dto (e : Executable) : ExecutableDto :=
  match e with
  | ExecRust id => DtoRust id
  | ExecPython source => DtoPython source
  | ExecRune source => DtoRune source
  | ExecAgent expert_id task => DtoAgent expert_id task
  end.

Definition node_from_dto (d : NodeDto) : GraphNode := node_new (nd_id d) (executable_from_dto <$> nd_action d).
Definition node_to_dto (n : GraphNode) : NodeDto := mkNodeDto (gn_id n) (executable_to_dto <$> gn_action n).
Definition edge_from_dto (d : EdgeDto) : GraphEdge := edge_new (ed_from d) (ed_to d) (executable_from_dto <$> ed_guard d).
Definition edge_to_dto (e : GraphEdge) : EdgeDto := mkEdgeDto (ge_from e) (ge_to e) (executable_to_dto <$> ge_guard e).
Definition state_graph_from_dto (d : StateGraphDto) : StateGraphDeclaration :=
  mkGraphDecl (node_from_dto <$> gd_nodes d) (edge_from_dto <$> gd_edges d) (gd_entry d).
Definition state_graph_to_dto (id : OldId) (decl : StateGraphDeclaration) : StateGraphDto :=
  mkGraphDto (id_text id) (gc_entry decl) (node_to_dto <$> gc_nodes decl) (edge_to_dto <$> gc_edges decl).

(** ** Clients

    The error of a client is its text: [to_server_fn_error]. *)

Record CatalogClient (W T : Type) := mkClient {
  client_list : M W string (list (OldId * T));
  client_set : string → T → M W string ();
  client_remove : string → M W string () }.

Record Clients (W : Type) := mkClients {
  model_client : CatalogClient W Declared; tool_client : CatalogClient W ToolDeclaration;
  expert_client : CatalogClient W ExpertDeclaration; state_graph_client : CatalogClient W StateGraphDeclaration;
  ws_create_session : ID → M W string ID; rpc_session_workspace : ID → M W string (option ID);
  ws_acquire : ID → M W string (); ws_remove : ID → M W string ();
  session_values : ID → M W string (gmap string Value); session_set_value : ID → string → Value → M W string ();
  session_remove_value : ID → string → M W string ();
  ws_values : ID → M W string (gmap string Value); ws_set_value : ID → string → Value → M W string ();
  ws_remove_value : ID → string → M W string ();
  session_list_files : ID → M W string (list string); session_read_file : ID → string → M W string (option (list Z));
  session_write_file : ID → string → list Z → M W string (); session_delete_file : ID → string → M W string () }.
End api.
Arguments client_list {_ W T}. Arguments client_set {_ W T}. Arguments client_remove {_ W T}.
Arguments model_client {_ W}. Arguments tool_client {_ W}. Arguments expert_client {_ W}. Arguments state_graph_client {_ W}.
Arguments ws_create_session {_ W}. Arguments rpc_session_workspace {_ W}. Arguments ws_acquire {_ W}. Arguments ws_remove {_ W}.
Arguments session_values {_ W}. Arguments session_set_value {_ W}. Arguments session_remove_value {_ W}.
Arguments ws_values {_ W}. Arguments ws_set_value {_ W}. Arguments ws_remove_value {_ W}.
Arguments session_list_files {_ W}. Arguments session_read_file {_ W}. Arguments session_write_file {_ W}. Arguments session_delete_file {_ W}.

(** ** Identifiers *)

(** The texts of the errors of [ID::from_str]. *)
Definition id_error_text (e : IdError) : string :=
  match e with
  | BadLength => "ID parsing error : expecting a 32 long string"
  | ParseInt Empty => "cannot parse integer from empty string"
  | ParseInt InvalidDigit => "invalid digit found in string"
  | ParseInt PosOverflow => "number too large to fit in target type"
  | BadBytes => ""
  end.
Definition bad_id (raw : string) (e : IdError) : string :=
  "identifiant invalide '" +:+ raw +:+ "' : " +:+ id_error_text e.
Definition parse_id (raw : string) : Res string ID := map_err (bad_id raw) (ID_from_str raw).

(** ** The functions of the server *)

Section server.
Context `{OldTypes} `{Xoshiro} {W : Type} (c : Clients W) (from_utf8_lossy : list Z → string).
Notation SM := (M W string).

(** [entropy] is what the generator of [generate_id] is seeded with. *)
Definition api_create_session (workspace_id : option string) (entropy : option (list Z)) : SM (string * string) :=
  workspace ← lift (match workspace_id with Some raw => parse_id raw | None => Ok (generate_id entropy) end);
  session ← ws_create_session c workspace;
  mret (ID_to_string workspace, ID_to_string session).

Definition api_session_workspace (session_id : string) : SM (option string) :=
  session ← lift (parse_id session_id);
  workspace ← rpc_session_workspace c session;
  mret (ID_to_string <$> workspace).

Definition api_create_workspace (entropy : option (list Z)) : SM string :=
  let workspace := generate_id entropy in
  _ ← ws_acquire c workspace; mret (ID_to_string workspace).

Definition api_delete_workspace (workspace_id : string) : SM () :=
  workspace ← lift (parse_id workspace_id); ws_remove c workspace.

Definition api_session_vars (session_id : string) : SM (gmap string Value) :=
  session ← lift (parse_id session_id); session_values c session.
Definition api_set_session_var (session_id key : string) (value : Value) : SM () :=
  session ← lift (parse_id session_id); session_set_value c session key value.
Definition api_delete_session_var (session_id key : string) : SM () :=
  session ← lift (parse_id session_id); session_remove_value c session key.

Definition api_workspace_vars (workspace_id : string) : SM (gmap string Value) :=
  workspace ← lift (parse_id workspace_id); ws_values c workspace.
Definition api_set_workspace_var (workspace_id key : string) (value : Value) : SM () :=
  workspace ← lift (parse_id workspace_id); ws_set_value c workspace key value.
Definition api_delete_workspace_var (workspace_id key : string) : SM () :=
  workspace ← lift (parse_id workspace_id); ws_remove_value c workspace key.

Definition api_list_files (session_id : string) : SM (list string) :=
  session ← lift (parse_id session_id); session_list_files c session.
Definition api_read_file (session_id path : string) : SM (option string) :=
  session ← lift (parse_id session_id);
  bytes ← session_read_file c session path;
  mret (from_utf8_lossy <$> bytes).
Definition api_write_file (session_id path content : string) : SM () :=
  session ← lift (parse_id session_id); session_write_file c session path (as_bytes content).
Definition api_delete_file (session_id path : string) : SM () :=
  session ← lift (parse_id session_id); session_delete_file c session path.

(** [hitl_upload.rs], [write_binary_file]: a route, whose answer is a status. *)
Inductive Response := StatusOk | BadRequest (text : string) | BadGateway (text : string).
Definition write_binary_file (session_id path : string) (body : list Z) : M W Empty_set Response :=
  match ID_from_str session_id with
  | Err e => mret (BadRequest (bad_id session_id e))
  | Panic => panic
  | Ok session => λ w,
      match session_write_file c session path body w with
      | (Ok _, w) => (Ok StatusOk, w)
      | (Err e, w) => (Ok (BadGateway e), w)
      | (Panic, w) => (Panic, w)
      end
  end.

(** The four catalogues: [list_models], [put_model], [delete_model], and so on. *)
Definition list_with {T X} (client : CatalogClient W T) (to_dto : OldId → T → X) : SM (list X) :=
  items ← client_list client; mret ((λ x, to_dto x.1 x.2) <$> items).

Definition list_models : SM (list ModelDto) := list_with (model_client c) model_to_dto.
Definition put_model (model : ModelDto) : SM () := client_set (model_client c) (md_id model) (model_from_dto model).
Definition delete_model (id : string) : SM () := client_remove (model_client c) id.

Definition list_tools : SM (list ToolDto) := list_with (tool_client c) tool_to_dto.
Definition put_tool (tool : ToolDto) : SM () :=
  decl ← lift (tool_from_dto tool); client_set (tool_client c) (td_id tool) decl.
Definition delete_tool (id : string) : SM () := client_remove (tool_client c) id.

Definition list_experts : SM (list ExpertDto) := list_with (expert_client c) expert_to_dto.
Definition put_expert (expert : ExpertDto) : SM () :=
  client_set (expert_client c) (xd_id expert) (expert_from_dto expert).
Definition delete_expert (id : string) : SM () := client_remove (expert_client c) id.

Definition list_state_graphs : SM (list StateGraphDto) := list_with (state_graph_client c) state_graph_to_dto.
Definition put_state_graph (graph : StateGraphDto) : SM () :=
  client_set (state_graph_client c) (gd_id graph) (state_graph_from_dto graph).
Definition delete_state_graph (id : string) : SM () := client_remove (state_graph_client c) id.
End server.

(** ** Conversions lose nothing *)

Section conversions.
Context `{OldTypes}.

Lemma model_dto_id id (d : ModelDto) : model_to_dto (id_new id) (model_from_dto d) =
  mkModelDto id (md_base_url d) (md_client_id d) (md_api_key d) (md_model d) (md_system_prompt d).
Proof. unfold model_to_dto, model_from_dto. by rewrite id_text_new. Qed.

Lemma tool_dto_id (d : ToolDto) decl : tool_from_dto d = Ok decl → tool_to_dto (id_new (td_id d)) decl = d.
Proof.
  unfold tool_from_dto, tool_to_dto. rewrite id_text_new. destruct d as [i n ds s sc]. simpl.
  case_decide as Hg; [intros [= <-]; by subst|]. case_decide as Hs; [intros [= <-]; by subst|done].
Qed.

Lemma expert_dto_id (d : ExpertDto) : expert_to_dto (id_new (xd_id d)) (expert_from_dto d) = d.
Proof.
  unfold expert_to_dto, expert_from_dto. destruct d as [i p m ts]. simpl. rewrite !id_text_new. f_equal.
  rewrite <- list_fmap_compose. etrans; [|apply list_fmap_id]. apply list_fmap_ext. intros k t _. apply id_text_new.
Qed.

Lemma executable_dto_id d : executable_to_dto (executable_from_dto d) = d.
Proof. by destruct d. Qed.
Lemma action_dto_id (o : option ExecutableDto) : executable_to_dto <$> (executable_from_dto <$> o) = o.
Proof. destruct o as [d|]; [|done]. simpl. by rewrite executable_dto_id. Qed.

Lemma node_dto_id d : node_to_dto (node_from_dto d) = d.
Proof.
  unfold node_to_dto, node_from_dto. destruct (node_new_ok (nd_id d) (executable_from_dto <$> nd_action d)) as [-> ->].
  rewrite action_dto_id. by destruct d.
Qed.
Lemma edge_dto_id d : edge_to_dto (edge_from_dto d) = d.
Proof.
  unfold edge_to_dto, edge_from_dto.
  destruct (edge_new_ok (ed_from d) (ed_to d) (executable_from_dto <$> ed_guard d)) as (->&->&->).
  rewrite action_dto_id. by destruct d.
Qed.

Lemma graph_dto_id (d : StateGraphDto) : state_graph_to_dto (id_new (gd_id d)) (state_graph_from_dto d) = d.
Proof.
  unfold state_graph_to_dto, state_graph_from_dto. destruct d as [i e ns es]. simpl. rewrite id_text_new. f_equal.
  - rewrite <- list_fmap_compose. etrans; [|apply list_fmap_id]. apply list_fmap_ext. intros k n _. apply node_dto_id.
  - rewrite <- list_fmap_compose. etrans; [|apply list_fmap_id]. apply list_fmap_ext. intros k n _. apply edge_dto_id.
Qed.
End conversions.

Lemma lift_ok {S E A} (r : Res E A) (s s' : S) a : lift r s = (Ok a, s') → r = Ok a ∧ s = s'.
Proof. by intros [= -> ->]. Qed.

(** ** The catalogues *)

(** What a client promises: [content] is what it keeps, by identifier. *)
Record client_ok `{OldTypes} {W T} (client : CatalogClient W T) (content : W → gmap string T) : Prop := {
  list_ok : ∀ w l w', client_list client w = (Ok l, w') →
    w' = w ∧ l ≡ₚ (λ x, (id_new x.1, x.2)) <$> map_to_list (content w);
  set_ok : ∀ id t w w', client_set client id t w = (Ok (), w') → content w' = <[id := t]> (content w);
  remove_ok : ∀ id w w', client_remove client id w = (Ok (), w') → content w' = base.delete id (content w) }.

Section catalogues.
Context `{OldTypes} {W T X : Type} (client : CatalogClient W T) (content : W → gmap string T).
Context (to_dto : OldId → T → X) (dto_id : X → string) (Hclient : client_ok client content).
Context (Hid : ∀ i t, dto_id (to_dto i t) = id_text i).

Lemma elem_of_list_with w l w' x : list_with client to_dto w = (Ok l, w') →
  w' = w ∧ (x ∈ l ↔ ∃ i t, content w !! i = Some t ∧ x = to_dto (id_new i) t).
Proof.
  unfold list_with. intros (items&w1&Hl&[= <- <-])%m_bind_ok. apply (list_ok _ _ Hclient) in Hl as [-> Hp]. split; [done|].
  rewrite Hp, !list_elem_of_fmap. split.
  - intros ([i t]&->&([i' t']&[= -> ->]&Hin%elem_of_map_to_list)%list_elem_of_fmap). by exists i', t'.
  - intros (i&t&Ht&->). exists (id_new i, t). split; [done|]. apply list_elem_of_fmap. exists (i, t).
    split; [done|]. by apply elem_of_map_to_list.
Qed.

Lemma put_listed (id : string) (t : T) (d : X) w w1 l0 w2 l w3 :
  to_dto (id_new id) t = d → list_with client to_dto w = (Ok l0, w1) → client_set client id t w1 = (Ok (), w2) →
  list_with client to_dto w2 = (Ok l, w3) → ∀ x, x ∈ l ↔ x = d ∨ x ∈ l0 ∧ dto_id x ≠ id.
Proof.
  intros Hd Hl0 Hset Hl x. apply (elem_of_list_with _ _ _ x) in Hl0 as [-> Hl0].
  apply (elem_of_list_with _ _ _ x) in Hl as [-> Hl]. rewrite Hl, Hl0, (set_ok _ _ Hclient _ _ _ _ Hset). split.
  - intros (i&t'&Hi&->). apply lookup_insert_Some in Hi as [[<- <-]|[Hne Hi]]; [by left|]. right.
    split; [by exists i, t'|]. rewrite Hid, id_text_new. done.
  - intros [->|[(i&t'&Hi&->) Hne]]; [exists id, t; by rewrite lookup_insert_eq|].
    rewrite Hid, id_text_new in Hne. exists i, t'. by rewrite lookup_insert_ne.
Qed.

Lemma removed_unlisted (id : string) w w1 l0 w2 l w3 :
  list_with client to_dto w = (Ok l0, w1) → client_remove client id w1 = (Ok (), w2) →
  list_with client to_dto w2 = (Ok l, w3) → ∀ x, x ∈ l ↔ x ∈ l0 ∧ dto_id x ≠ id.
Proof.
  intros Hl0 Hset Hl x. apply (elem_of_list_with _ _ _ x) in Hl0 as [-> Hl0].
  apply (elem_of_list_with _ _ _ x) in Hl as [-> Hl]. rewrite Hl, Hl0, (remove_ok _ _ Hclient _ _ _ Hset). split.
  - intros (i&t'&Hi&->). apply lookup_delete_Some in Hi as [Hne Hi]. split; [by exists i, t'|]. by rewrite Hid, id_text_new.
  - intros [(i&t'&Hi&->) Hne]. rewrite Hid, id_text_new in Hne. exists i, t'. by rewrite lookup_delete_ne.
Qed.
End catalogues.

(** What is put in a catalogue is listed as it was put, in place of what had its
    identifier, and the rest of the list stays; what is deleted is listed no more.
    A tool whose scope is neither of the two is refused, and nothing changes. *)
Theorem put_is_listed `{OldTypes} {W} (c : Clients W) models tools experts graphs (w1 w2 w3 w4 : W) :
  client_ok (model_client c) models → client_ok (tool_client c) tools → client_ok (expert_client c) experts →
  client_ok (state_graph_client c) graphs →
  (∀ d l0 l, list_models c w1 = (Ok l0, w2) → put_model c d w2 = (Ok (), w3) → list_models c w3 = (Ok l, w4) →
    ∀ x, x ∈ l ↔ x = d ∨ x ∈ l0 ∧ md_id x ≠ md_id d) ∧
  (∀ d l0 l, list_tools c w1 = (Ok l0, w2) → put_tool c d w2 = (Ok (), w3) → list_tools c w3 = (Ok l, w4) →
    ∀ x, x ∈ l ↔ x = d ∨ x ∈ l0 ∧ td_id x ≠ td_id d) ∧
  (∀ d l0 l, list_experts c w1 = (Ok l0, w2) → put_expert c d w2 = (Ok (), w3) → list_experts c w3 = (Ok l, w4) →
    ∀ x, x ∈ l ↔ x = d ∨ x ∈ l0 ∧ xd_id x ≠ xd_id d) ∧
  (∀ d l0 l, list_state_graphs c w1 = (Ok l0, w2) → put_state_graph c d w2 = (Ok (), w3) →
    list_state_graphs c w3 = (Ok l, w4) → ∀ x, x ∈ l ↔ x = d ∨ x ∈ l0 ∧ gd_id x ≠ gd_id d) ∧
  (∀ id l0 l, list_models c w1 = (Ok l0, w2) → delete_model c id w2 = (Ok (), w3) → list_models c w3 = (Ok l, w4) →
    ∀ x, x ∈ l ↔ x ∈ l0 ∧ md_id x ≠ id) ∧
  ∀ d, td_scope d ≠ "global" → td_scope d ≠ "session" → put_tool c d w1 = (Err (unknown_scope (td_scope d)), w1).
Proof.
  intros Hm Ht Hx Hg. split_and!.
  - intros d l0 l. eapply (put_listed _ _ model_to_dto md_id Hm); [by intros ? []|]. rewrite model_dto_id. by destruct d.
  - intros d l0 l Hl0 (decl&w&[Hd <-]%lift_ok&Hs)%m_bind_ok Hl.
    eapply (put_listed _ _ tool_to_dto td_id Ht); [done|by apply tool_dto_id|exact Hl0|exact Hs|exact Hl].
  - intros d l0 l. eapply (put_listed _ _ expert_to_dto xd_id Hx); [done|apply expert_dto_id].
  - intros d l0 l. eapply (put_listed _ _ state_graph_to_dto gd_id Hg); [done|apply graph_dto_id].
  - intros id l0 l. eapply (removed_unlisted _ _ model_to_dto md_id Hm). by intros ? [].
  - intros d Hd Hd'. unfold put_tool, tool_from_dto, lift, mbind, m_bind. by rewrite !decide_False.
Qed.

(** ** Identifiers that are refused *)

(** What a call answers whose identifier is not one: an error, or a panic when
    the text is cut in the middle of a character. *)
Definition refused {A} (raw : string) : Res string A :=
  match ID_from_str raw with Err e => Err (bad_id raw e) | _ => Panic end.

(** A call whose identifier does not parse answers that, and reaches no client:
    the cluster is as it was. *)
Theorem bad_ids_touch_nothing `{OldTypes} `{Xoshiro} {W} (c : Clients W) lossy (raw : string) (w : W) :
  (∀ i, ID_from_str raw ≠ Ok i) →
  (∀ entropy, api_create_session c (Some raw) entropy w = (refused raw, w)) ∧
  api_session_workspace c raw w = (refused raw, w) ∧ api_delete_workspace c raw w = (refused raw, w) ∧
  api_session_vars c raw w = (refused raw, w) ∧ api_workspace_vars c raw w = (refused raw, w) ∧
  (∀ k v, api_set_session_var c raw k v w = (refused raw, w) ∧ api_set_workspace_var c raw k v w = (refused raw, w)) ∧
  (∀ k, api_delete_session_var c raw k w = (refused raw, w) ∧ api_delete_workspace_var c raw k w = (refused raw, w)) ∧
  api_list_files c raw w = (refused raw, w) ∧
  (∀ p, api_read_file c lossy raw p w = (refused raw, w) ∧ api_delete_file c raw p w = (refused raw, w)) ∧
  (∀ p t, api_write_file c raw p t w = (refused raw, w)) ∧
  ∀ p b, write_binary_file c raw p b w =
    (match ID_from_str raw with Err e => Ok (BadRequest (bad_id raw e)) | _ => Panic end, w).
Proof.
  intros Hbad. unfold api_create_session, api_session_workspace, api_delete_workspace, api_session_vars, api_workspace_vars,
    api_set_session_var, api_set_workspace_var, api_delete_session_var, api_delete_workspace_var, api_list_files,
    api_read_file, api_delete_file, api_write_file, write_binary_file, refused, parse_id, lift, mbind, m_bind.
  destruct (ID_from_str raw) as [i|e|]; [by destruct (Hbad i)| |]; by split_and!.
Qed.

(** ** Catalogues in memory *)

Definition memory_old : OldTypes.
Proof.
  refine {| OldId := string; id_new := λ s, s; id_text := λ s, s;
    GraphNode := string * option Executable; node_new := λ i a, (i, a); gn_id := fst; gn_action := snd;
    GraphEdge := string * string * option Executable; edge_new := λ f t g, (f, t, g);
    ge_from := λ e, e.1.1; ge_to := λ e, e.1.2; ge_guard := snd |}; done.
Defined.
#[local] Existing Instance memory_old.
#[local] Existing Instance counter_rng.

Definition memory_client {W T} (proj : W → gmap string T) (inj : gmap string T → W → W) : CatalogClient W T :=
  mkClient _ _ (λ w, (Ok (map_to_list (proj w)), w)) (λ id t w, (Ok (), inj (<[id := t]> (proj w)) w))
    (λ id w, (Ok (), inj (base.delete id (proj w)) w)).

Lemma memory_client_ok {W T} (proj : W → gmap string T) (inj : gmap string T → W → W) :
  (∀ m w, proj (inj m w) = m) → client_ok (memory_client proj inj) proj.
Proof.
  intros Hp. split.
  - intros w l w' [= <- <-]. split; [done|]. simpl. rewrite (list_fmap_ext _ id); [by rewrite list_fmap_id|by intros ? []].
  - intros id t w w' [= <-]. apply Hp.
  - intros id w w' [= <-]. apply Hp.
Qed.

Definition Cats : Type :=
  gmap string Declared * gmap string ToolDeclaration * gmap string ExpertDeclaration * gmap string StateGraphDeclaration.
Definition memory_clients : Clients Cats :=
  mkClients _ (memory_client (λ w, w.1.1.1) (λ m w, (m, w.1.1.2, w.1.2, w.2)))
    (memory_client (λ w, w.1.1.2) (λ m w, (w.1.1.1, m, w.1.2, w.2)))
    (memory_client (λ w, w.1.2) (λ m w, (w.1.1.1, w.1.1.2, m, w.2)))
    (memory_client (λ w, w.2) (λ m w, (w.1.1.1, w.1.1.2, w.1.2, m)))
    (λ i, mret i) (λ _, mret None) (λ _, mret ()) (λ _, mret ()) (λ _, mret ∅) (λ _ _ _, mret ()) (λ _ _, mret ())
    (λ _, mret ∅) (λ _ _ _, mret ()) (λ _ _, mret ()) (λ _, mret []) (λ _ _, mret None) (λ _ _ _, mret ()) (λ _ _, mret ()).

Definition demo_tool : ToolDto := mkToolDto "t" "search" "finds" (Object []) "session".

Lemma put_is_listed_witness :
  ∃ w l, put_tool memory_clients demo_tool (∅, ∅, ∅, ∅) = (Ok (), w) ∧ list_tools memory_clients w = (Ok l, w) ∧ demo_tool ∈ l.
Proof.
  eexists _, _. split; [reflexivity|]. split; [reflexivity|].
  refine (proj2 (proj1 (proj2 (put_is_listed memory_clients _ _ _ _ (∅, ∅, ∅, ∅) (∅, ∅, ∅, ∅) _ _ _ _ _ _))
    demo_tool [] _ _ _ _ demo_tool) (or_introl eq_refl)); try (by apply memory_client_ok); reflexivity.
Defined.

(** An identifier that is one character short. *)
Lemma bad_ids_touch_nothing_witness :
  api_list_files memory_clients "0123456789abcdef0123456789abcde" (∅, ∅, ∅, ∅) =
    (Err "identifiant invalide '0123456789abcdef0123456789abcde' : ID parsing error : expecting a 32 long string", (∅, ∅, ∅, ∅)).
Proof.
  destruct (bad_ids_touch_nothing memory_clients (λ _, "") "0123456789abcdef0123456789abcde" (∅, ∅, ∅, ∅))
    as (_&_&_&_&_&_&_&Hl&_); [by vm_compute|exact Hl].
Defined.
