(* ===== verification/Panel.v ===== *)
(** * The page of the catalogues ([marie-web-example/src/components/config_panel.rs])

    Four sections, one for each catalogue: a list, a status, a form.  What is
    asked of the server runs as tasks; a task asks once, and its answer comes
    back when it comes, so that the answers of two tasks can overtake each other.
    The last section edits a graph: its nodes and edges are drawn ([Editor]), and
    a row below the drawing chooses what each of them runs. *)

From Stdlib Require Import Ascii.
From stdpp Require Import pretty.
From S2P Require Import Prelude Ids Json Types Secrets ErrorChain Vfs Editor Api.

(** ** A section *)

(** What a section is made of: the three functions of the server, its form and
    what the form makes, and the texts of its failures.  The section of the
    experts also asks for the models, which its form offers. *)
Record Kind (W F I X : Type) := mkKind {
  k_list : M W string (list X);
  k_put : X → M W string ();
  k_delete : string → M W string ();
  k_other : option (M W string (F → F) * string);
  k_input : I → F → F;
  k_dto : F → string + X;
  k_id : X → string;
  k_load_failed : string; k_create_failed : string }.
Arguments mkKind {W F I X}. Arguments k_list {W F I X}. Arguments k_put {W F I X}. Arguments k_delete {W F I X}.
Arguments k_other {W F I X}. Arguments k_input {W F I X}. Arguments k_dto {W F I X}.
Arguments k_id {W F I X}. Arguments k_load_failed {W F I X}. Arguments k_create_failed {W F I X}.

Inductive Call (X : Type) := CallList | CallOther | CallPut (x : X) | CallDelete (id : string).
Arguments CallList {X}. Arguments CallOther {X}. Arguments CallPut {X}. Arguments CallDelete {X}.
Inductive Answer (F X : Type) :=
  | GotList (r : string + list X) | GotOther (r : string + (F → F)) | GotPut (r : string + ()) | GotDelete (r : string + ()).
Arguments GotList {F X}. Arguments GotOther {F X}. Arguments GotPut {F X}. Arguments GotDelete {F X}.

(** The signals, the rows of the list, the calls that have not reached the server yet, and the answers
    that have not come back yet. *)
Record Panel (F X : Type) := mkPanel {
  p_items : list X; p_rows : list X; p_status : string; p_form : F; p_asking : list (Call X); p_answers : list (Answer F X) }.
Arguments mkPanel {F X}. Arguments p_items {F X}. Arguments p_rows {F X}. Arguments p_status {F X}.
Arguments p_form {F X}.
Arguments p_asking {F X}. Arguments p_answers {F X}.

Definition DELETE_FAILED : string := "échec de suppression : ".

Section panel.
Context {W F I X : Type} (k : Kind W F I X) (panicked : string).
Notation P := (Panel F X).

(** What a page gets of a call of the server, whose panic is an error. *)
Definition reply {A} (r : Res string A) : string + A :=
  match r with Ok a => inr a | Err e => inl e | Panic => inl panicked end.

Definition set_status (s : string) (p : P) : P := 
  mkPanel (p_items p) (p_rows p) s (p_form p) (p_asking p) (p_answers p).
(** [For]: a row whose key stays is kept as it was drawn, and a new one is drawn. *)
Definition keyed_rows (rows l : list X) : list X := (λ x, default x (find (λ r, bool_decide (k_id k r = k_id k x)) rows)) <$> l.
Definition set_items (l : list X) (p : P) : P :=
  mkPanel l (keyed_rows (p_rows p) l) (p_status p) (p_form p) (p_asking p) (p_answers p).
Definition set_form (f : F) (p : P) : P := 
  mkPanel (p_items p) (p_rows p) (p_status p) f (p_asking p) (p_answers p).
Definition spawn_local (c : Call X) (p : P) : P :=
  mkPanel (p_items p) (p_rows p) (p_status p) (p_form p) (p_asking p ++ [c]) (p_answers p).

Definition refresh : P → P := spawn_local CallList.

(** [Effect::new]: a section asks for its list when it is mounted. *)
Definition mount_section (form : F) : P :=
  let p := refresh (mkPanel [] [] "" form [] []) in
  match k_other k with Some _ => spawn_local CallOther p | None => p end.

Definition on_create (p : P) : P :=
  match k_dto k (p_form p) with
  | inl text => set_status text p
  | inr x => spawn_local (CallPut x) p
  end.

(** A call reaches the server. *)
Definition call (c : Call X) (w : W) : Answer F X * W :=
  match c with
  | CallList => let '(r, w) := k_list k w in (GotList (reply r), w)
  | CallOther => match k_other k with
                 | Some (m, _) => let '(r, w) := m w in (GotOther (reply r), w)
                 | None => (GotOther (inr id), w)
                 end
  | CallPut x => let '(r, w) := k_put k x w in (GotPut (reply r), w)
  | CallDelete id => let '(r, w) := k_delete k id w in (GotDelete (reply r), w)
  end.

(** The rest of a task, once its answer has come. *)
Definition resume (a : Answer F X) (p : P) : P :=
  match a with
  | GotList (inr l) => set_items l p
  | GotList (inl e) => set_status (k_load_failed k +:+ e) p
  | GotOther (inr f) => set_form (f (p_form p)) p
  | GotOther (inl e) => match k_other k with Some (_, text) => set_status (text +:+ e) p | None => p end
  | GotPut (inr _) => refresh p
  | GotPut (inl e) => set_status (k_create_failed k +:+ e) p
  | GotDelete (inr _) => refresh p
  | GotDelete (inl e) => refresh (set_status (DELETE_FAILED +:+ e) p)
  end.

Inductive PanelStep :=
  | Input (i : I) | Create | Delete (id : string)
  | Asked (i : nat) (* the call [i] reaches the server *)
  | Answered (i : nat) (* the answer [i] comes back *).

Definition panel_step (st : PanelStep) (s : P * W) : P * W :=
  let '(p, w) := s in
  match st with
  | Input i => (set_form (k_input k i (p_form p)) p, w)
  | Create => (on_create p, w)
  | Delete id => (spawn_local (CallDelete id) p, w)
  | Asked i =>
      match p_asking p !! i with
      | Some c =>
          let '(a, w) := call c w in
          (mkPanel (p_items p) (p_rows p) (p_status p) (p_form p) (base.delete i (p_asking p)) (p_answers p ++ [a]), w)
      | None => (p, w)
      end
  | Answered i =>
      match p_answers p !! i with
      | Some a => (resume a (mkPanel (p_items p) (p_rows p) (p_status p) (p_form p) (p_asking p) (base.delete i (p_answers p))), w)
      | None => (p, w)
      end
  end.

Definition panel_run (l : list PanelStep) (s : P * W) : P * W := foldl (λ s st, panel_step st s) s l.
End panel.
Arguments PanelStep : clear implicits.
Arguments Input {I}. Arguments Create {I}. Arguments Delete {I}. Arguments Asked {I}. Arguments Answered {I}.

(** ** What runs in a node or an edge ([ExecutableEditor]) *)

Record ExecutableEditor := mkExecEditor { ee_kind : string; ee_a : string; ee_b : string }.

Definition exec_mount (initial : option ExecutableView) : ExecutableEditor :=
  mkExecEditor
    (match initial with
     | None => "none" | Some (Rust _) => "rust" | Some (Python _) => "python" | Some (Rune _) => "rune"
     | Some (Agent _ _) => "agent"
     end)
    (match initial with
     | Some (Rust id) => id | Some (Python source) | Some (Rune source) => source | Some (Agent expert_id _) => expert_id
     | None => ""
     end)
    (match initial with Some (Agent _ task) => task | _ => "" end).

(** [emit] *)
Definition exec_value (e : ExecutableEditor) : option ExecutableView :=
  if decide (ee_kind e = "rust") then Some (Rust (ee_a e))
  else if decide (ee_kind e = "python") then Some (Python (ee_a e))
  else if decide (ee_kind e = "rune") then Some (Rune (ee_a e))
  else if decide (ee_kind e = "agent") then Some (Agent (ee_a e) (ee_b e))
  else None.

Inductive ExecEvent := SetKind (s : string) | SetA (s : string) | SetB (s : string).
Definition exec_event (ev : ExecEvent) (e : ExecutableEditor) : ExecutableEditor :=
  match ev with
  | SetKind s => mkExecEditor s (ee_a e) (ee_b e)
  | SetA s => mkExecEditor (ee_kind e) s (ee_b e)
  | SetB s => mkExecEditor (ee_kind e) (ee_a e) s
  end.

Lemma exec_mount_value v : exec_value (exec_mount v) = v.
Proof. by destruct v as [[]|]. Qed.

(** ** The four forms *)

Section forms.
Context (from_str : string → string + Value) (trim : string → string).

Record ModelForm := mkModelForm {
  mf_id : string; mf_base_url : string; mf_client_id : string; mf_api_key : string; mf_model_name : string;
  mf_system_prompt : string }.
Inductive ModelInput :=
  | ModelId (s : string) | BaseUrl (s : string) | ClientId (s : string) | ApiKey (s : string) | ModelName (s : string)
  | SystemPrompt (s : string).
Definition model_input (i : ModelInput) (f : ModelForm) : ModelForm :=
  let 'mkModelForm a b c d e p := f in
  match i with
  | ModelId s => mkModelForm s b c d e p | BaseUrl s => mkModelForm a s c d e p | ClientId s => mkModelForm a b s d e p
  | ApiKey s => mkModelForm a b c s e p | ModelName s => mkModelForm a b c d s p | SystemPrompt s => mkModelForm a b c d e s
  end.
Definition model_form_new : ModelForm := mkModelForm "" "" "" "" "" "".
Definition model_dto (f : ModelForm) : string + ModelDto :=
  inr (mkModelDto (mf_id f) (mf_base_url f) (mf_client_id f) (mf_api_key f) (mf_model_name f)
         (if decide (mf_system_prompt f = "") then None else Some (mf_system_prompt f))).

Record ToolForm := mkToolForm {
  tf_id : string; tf_name : string; tf_description : string; tf_parameters_schema : string; tf_scope : string }.
Inductive ToolInput :=
  | ToolIdIn (s : string) | ToolName (s : string) | ToolDescription (s : string) | Schema (s : string) | Scope (s : string).
Definition tool_input (i : ToolInput) (f : ToolForm) : ToolForm :=
  let 'mkToolForm a b c d e := f in
  match i with
  | ToolIdIn s => mkToolForm s b c d e | ToolName s => mkToolForm a s c d e | ToolDescription s => mkToolForm a b s d e
  | Schema s => mkToolForm a b c s e | Scope s => mkToolForm a b c d s
  end.
Definition tool_form_new : ToolForm := mkToolForm "" "" "" "{}" "global".
Definition tool_dto (f : ToolForm) : string + ToolDto :=
  match from_str (tf_parameters_schema f) with
  | inr schema => inr (mkToolDto (tf_id f) (tf_name f) (tf_description f) schema (tf_scope f))
  | inl error => inl ("parameters_schema invalide : " +:+ error)
  end.

Record ExpertForm := mkExpertForm {
  xf_models : list ModelDto; xf_id : string; xf_prompt : string; xf_model_id : string; xf_allowed_tools : string }.
Inductive ExpertInput := ExpertIdIn (s : string) | Prompt (s : string) | ModelIdIn (s : string) | AllowedTools (s : string).
Definition expert_input (i : ExpertInput) (f : ExpertForm) : ExpertForm :=
  let 'mkExpertForm m a b c d := f in
  match i with
  | ExpertIdIn s => mkExpertForm m s b c d | Prompt s => mkExpertForm m a s c d
  | ModelIdIn s => mkExpertForm m a b s d | AllowedTools s => mkExpertForm m a b c s
  end.
Definition expert_form_new : ExpertForm := mkExpertForm [] "" "" "" "".
Definition set_models (l : list ModelDto) (f : ExpertForm) : ExpertForm :=
  mkExpertForm l (xf_id f) (xf_prompt f) (xf_model_id f) (xf_allowed_tools f).
Definition allowed_tools_of (text : string) : list string := filter (λ t, t ≠ "") (trim <$> split_at "," text).
Definition expert_dto (f : ExpertForm) : string + ExpertDto :=
  inr (mkExpertDto (xf_id f) (xf_prompt f) (xf_model_id f) (allowed_tools_of (xf_allowed_tools f))).
End forms.

(** ** The form of a graph *)

Section graph_form.
Context `{Doubles}.

Definition executable_view_to_dto (v : ExecutableView) : ExecutableDto :=
  match v with
  | Rust id => DtoRust id
  | Python source => DtoPython source
  | Rune source => DtoRune source
  | Agent expert_id task => DtoAgent expert_id task
  end.

(** [list.iter_mut().find(..)]: the first that matches is changed. *)
Fixpoint update_first {A} (f : A → bool) (g : A → A) (l : list A) : list A :=
  match l with [] => [] | a :: l => if f a then g a :: l else a :: update_first f g l end.

Definition set_node_action (node_id : string) (action : option ExecutableView) (nodes : list NodeView) : list NodeView :=
  update_first (λ n, bool_decide (nv_id n = node_id)) (λ n, mkNodeView (nv_id n) (nv_x n) (nv_y n) action) nodes.
Definition set_edge_guard (from to : string) (guard : option ExecutableView) (edges : list EdgeView) : list EdgeView :=
  update_first (λ e, bool_decide (ev_from e = from) && bool_decide (ev_to e = to))
    (λ e, mkEdgeView (ev_from e) (ev_to e) guard) edges.

(** The rows below the drawing, by the key that each has in its list; the row of
    an edge holds the two ends that it was made with. *)
Record GraphForm := mkGraphForm {
  gf_id : string; gf_entry : string; gf_editor : Editor;
  gf_nodes : gmap string ExecutableEditor; gf_edges : gmap string (string * string * ExecutableEditor) }.

Definition edge_key (e : EdgeView) : string := ev_from e +:+ "->" +:+ ev_to e.

(** [For]: a row whose key stays is kept, a new one is mounted, and the others
    are dropped. *)
Definition node_rows (nodes : list NodeView) (rows : gmap string ExecutableEditor) : gmap string ExecutableEditor :=
  list_to_map ((λ n, (nv_id n, default (exec_mount (nv_action n)) (rows !! nv_id n))) <$> nodes).
Definition edge_rows (edges : list EdgeView) (rows : gmap string (string * string * ExecutableEditor)) :
    gmap string (string * string * ExecutableEditor) :=
  list_to_map ((λ e, (edge_key e, default (ev_from e, ev_to e, exec_mount (ev_guard e)) (rows !! edge_key e))) <$> edges).

Definition with_editor (ed : Editor) (f : GraphForm) : GraphForm :=
  mkGraphForm (gf_id f) (gf_entry f) ed (node_rows (ed_nodes ed) (gf_nodes f)) (edge_rows (ed_edges ed) (gf_edges f)).

Inductive GraphInput :=
  | GraphIdIn (s : string) | Entry (s : string) | Mouse (e : MouseEvent)
  | NodeRow (key : string) (ev : ExecEvent) | EdgeRow (key : string) (ev : ExecEvent).

Definition graph_input (i : GraphInput) (f : GraphForm) : GraphForm :=
  match i with
  | GraphIdIn s => mkGraphForm s (gf_entry f) (gf_editor f) (gf_nodes f) (gf_edges f)
  | Entry s => mkGraphForm (gf_id f) s (gf_editor f) (gf_nodes f) (gf_edges f)
  | Mouse e => with_editor (run_state (editor_event e) (gf_editor f)) f
  | NodeRow key ev =>
      match gf_nodes f !! key with
      | Some row =>
          let row := exec_event ev row in
          let ed := set_nodes (set_node_action key (exec_value row) (ed_nodes (gf_editor f))) (gf_editor f) in
          with_editor ed (mkGraphForm (gf_id f) (gf_entry f) ed (<[key := row]> (gf_nodes f)) (gf_edges f))
      | None => f
      end
  | EdgeRow key ev =>
      match gf_edges f !! key with
      | Some (from, to, row) =>
          let row := exec_event ev row in
          let ed := set_edges (set_edge_guard from to (exec_value row) (ed_edges (gf_editor f))) (gf_editor f) in
          with_editor ed (mkGraphForm (gf_id f) (gf_entry f) ed (gf_nodes f) (<[key := (from, to, row)]> (gf_edges f)))
      | None => f
      end
  end.

Definition graph_form_new : GraphForm := mkGraphForm "" "" (mkEditor [] [] None) ∅ ∅.

Definition node_dto (n : NodeView) : NodeDto := mkNodeDto (nv_id n) (executable_view_to_dto <$> nv_action n).
Definition edge_dto (e : EdgeView) : EdgeDto := mkEdgeDto (ev_from e) (ev_to e) (executable_view_to_dto <$> ev_guard e).
Definition graph_dto (f : GraphForm) : string + StateGraphDto :=
  inr (mkGraphDto (gf_id f) (gf_entry f) (node_dto <$> ed_nodes (gf_editor f)) (edge_dto <$> ed_edges (gf_editor f))).
End graph_form.

(** ** The four sections *)

Section sections.
Context `{OldTypes} `{Doubles} {W : Type} (c : Clients W).
Context (from_str : string → string + Value) (trim : string → string).

Definition models_failed : string := "échec de chargement des modèles : ".

Definition models_section : Kind W ModelForm ModelInput ModelDto :=
  mkKind (list_models c) (put_model c) (delete_model c) None model_input model_dto md_id
    models_failed "échec de création du modèle : ".
Definition tools_section : Kind W ToolForm ToolInput ToolDto :=
  mkKind (list_tools c) (put_tool c) (delete_tool c) None tool_input (tool_dto from_str) td_id
    "échec de chargement des tools : " "échec de création du tool : ".
Definition experts_section : Kind W ExpertForm ExpertInput ExpertDto :=
  mkKind (list_experts c) (put_expert c) (delete_expert c)
    (Some (models ← list_models c; mret (set_models models), models_failed)) expert_input (expert_dto trim) xd_id
    "échec de chargement des experts : " "échec de création de l'expert : ".
Definition graphs_section : Kind W GraphForm GraphInput StateGraphDto :=
  mkKind (list_state_graphs c) (put_state_graph c) (delete_state_graph c) None graph_input graph_dto gd_id
    "échec de chargement des graphes : " "échec de création du graphe : ".
End sections.

(** ** What a section shows *)

Section shows.
Context {W F I X : Type} (k : Kind W F I X) (panicked : string) (shown : W → list X).
(** The server always lists, and a publication that fails leaves the list as it
    was. *)
Context (Hlist : ∀ w, k_list k w = (Ok (shown w), w)).
Context (Hput : ∀ x w, run_res (k_put k x) w ≠ Ok () → shown (run_state (k_put k x) w) = shown w).
Context (Hother : ∀ m text w, k_other k = Some (m, text) → run_state m w = w).
Notation P := (Panel F X).

Definition is_list (a : Answer F X) : bool := match a with GotList _ => true | _ => false end.
Definition refreshes (a : Answer F X) : Prop := match a with GotPut (inr _) | GotDelete _ => True | _ => False end.

(** What is shown is the list, or will be: a call for the list is on its way, an
    answer that refreshes will come, or the last list that will come is the one
    that the server keeps. *)
Definition current (s : P * W) : Prop :=
  CallList ∈ p_asking s.1 ∨ Exists refreshes (p_answers s.1) ∨
  last (filter (λ a, is_list a = true) (p_answers s.1)) = Some (GotList (inr (shown s.2))) ∨
  (filter (λ a, is_list a = true) (p_answers s.1) = [] ∧ p_items s.1 = shown s.2).

(** Answers come back in the order in which the server gave them. *)
Definition in_order (st : PanelStep I) : Prop := match st with Answered i => i = 0 | _ => True end.

Lemma current_spawn c p w : current (p, w) → current (spawn_local c p, w).
Proof. intros [Ha|Hr]; [left; simpl; apply elem_of_app; by left|right; exact Hr]. Qed.

Lemma current_refresh p w : current (refresh p, w).
Proof. left. simpl. apply elem_of_app. right. by apply list_elem_of_singleton. Qed.

(** The list has one row for each of its items, with its key. *)
Definition keyed (p : P) : Prop := k_id k <$> p_rows p = k_id k <$> p_items p.

Lemma keyed_rows_ids rows l : k_id k <$> keyed_rows k rows l = k_id k <$> l.
Proof.
  unfold keyed_rows. rewrite <- list_fmap_compose. apply list_fmap_ext. intros i x _. simpl.
  destruct (find _ rows) as [r|] eqn:E; [|done]. by apply find_some in E as [_ E%bool_decide_eq_true].
Qed.

Lemma step_keyed st p w : keyed p → keyed (panel_step k panicked st (p, w)).1.
Proof.
  intros Hk. destruct st as [i| |id|i|i]; simpl; [exact Hk| |exact Hk| |].
  - unfold on_create. by destruct (k_dto k _).
  - destruct (p_asking p !! i); [|exact Hk]. by destruct (call _ _ _ w).
  - destruct (p_answers p !! i) as [a|]; [|exact Hk].
    destruct a as [[e|l]|[e|f]|[e|[]]|[e|[]]]; try exact Hk; [apply keyed_rows_ids|]. simpl. by destruct (k_other k) as [[]|].
Qed.

Lemma asked_keeps p w i : current (p, w) → current (panel_step k panicked (Asked i) (p, w)).
Proof.
  intros Hc. simpl. destruct (p_asking p !! i) as [c|] eqn:Ei; [|exact Hc].
  assert (∀ c', c' ∈ p_asking p → c' ≠ c → c' ∈ base.delete i (p_asking p)) as Hrest.
  { intros c' [j Hj]%list_elem_of_lookup Hne. apply list_elem_of_lookup.
    destruct (decide (j < i)); [exists j; by rewrite list_lookup_delete_lt|].
    assert (j ≠ i) by congruence. exists (j - 1). rewrite list_lookup_delete_ge by lia.
    by replace (S (j - 1)) with j by lia. }
  unfold current in *. cbn [fst snd] in *. destruct c as [| |x|id]; unfold call.
  - rewrite Hlist. right; right; left. cbn. by rewrite filter_app, filter_cons_True, filter_nil, last_snoc.
  - destruct (k_other k) as [[m text]|] eqn:Eo; [|].
    + pose proof (Hother m text w eq_refl) as Hw. unfold run_state in Hw. destruct (m w) as [r w']. simpl in *. subst w'.
      rewrite filter_app, filter_cons_False, filter_nil, app_nil_r by done. destruct Hc as [Ha|[Hr|Hc]]; [left|right; left|by right; right].
      * by apply Hrest. * apply Exists_app. by left.
    + cbn. rewrite filter_app, filter_cons_False, filter_nil, app_nil_r by done. destruct Hc as [Ha|[Hr|Hc]]; [left|right; left|by right; right].
      * by apply Hrest. * apply Exists_app. by left.
  - pose proof (Hput x w) as Hp. unfold run_res, run_state in Hp. destruct (k_put k x w) as [[[]|e|] w'] eqn:Ep; simpl in Hp |- *.
    { right; left. apply Exists_app. right. by left. }
    all: rewrite filter_app, filter_cons_False, filter_nil, app_nil_r, Hp by done;
      destruct Hc as [Ha|[Hr|Hc]]; [left; by apply Hrest|right; left; apply Exists_app; by left|by right; right].
  - destruct (k_delete k id w) as [r w']. simpl. right; left. apply Exists_app. right. by left.
Qed.

Lemma answered_keeps p w i : i = 0 → current (p, w) → current (panel_step k panicked (Answered i) (p, w)).
Proof.
  intros -> Hc. simpl. destruct p as [items rows status form asking [|a answers]]; simpl; [exact Hc|].
  unfold current in Hc. cbn [fst snd p_asking p_answers p_items] in Hc.
  destruct a as [[e|l]|[e|f]|[e|[]]|[e|[]]]; simpl; try apply current_refresh.
  all: unfold current; cbn [fst snd p_asking p_answers p_items set_status set_items set_form].
  - destruct Hc as [Ha|[[[]|Hr]%Exists_cons|Hc]]; [by left|by right; left|].
    rewrite filter_cons_True in Hc by done. destruct (filter _ answers) as [|b l] eqn:Ef.
    + destruct Hc as [Hc|[Hc _]]; done.
    + right; right; left. destruct Hc as [Hc|[Hc _]]; [exact Hc|done].
  - destruct Hc as [Ha|[[[]|Hr]%Exists_cons|Hc]]; [by left|by right; left|].
    rewrite filter_cons_True in Hc by done. destruct (filter _ answers) as [|b l'] eqn:Ef.
    + right; right; right. split; [done|]. destruct Hc as [Hc|[Hc _]]; [by injection Hc as ->|done].
    + right; right; left. destruct Hc as [Hc|[Hc _]]; [exact Hc|done].
  - destruct (k_other k) as [[m text]|];
      (destruct Hc as [Ha|[[[]|Hr]%Exists_cons|Hc]]; [by left|by right; left|]);
      rewrite filter_cons_False in Hc by done; by right; right.
  - destruct Hc as [Ha|[[[]|Hr]%Exists_cons|Hc]]; [by left|by right; left|].
    rewrite filter_cons_False in Hc by done. by right; right.
  - destruct Hc as [Ha|[[[]|Hr]%Exists_cons|Hc]]; [by left|by right; left|].
    rewrite filter_cons_False in Hc by done. by right; right.
Qed.
End shows.

(** Whatever is typed, created and deleted in a section, and however the
    calls of its tasks reach the server, once every call has been answered and the
    answers came back in the order in which they were given the list of the section
    is the one that the server keeps, and the page has one row for each of its
    items, with its identifier. *)
Theorem panel_shows_catalogue {W F I X} (k : Kind W F I X) (panicked : string) (shown : W → list X) (form : F)
    (steps : list (PanelStep I)) (w w' : W) (p : Panel F X) :
  (∀ w, k_list k w = (Ok (shown w), w)) →
  (∀ x w, run_res (k_put k x) w ≠ Ok () → shown (run_state (k_put k x) w) = shown w) →
  (∀ m text w, k_other k = Some (m, text) → run_state m w = w) →
  Forall in_order steps → panel_run k panicked steps (mount_section k form, w) = (p, w') →
  p_asking p = [] → p_answers p = [] →
  p_items p = shown w' ∧ k_id k <$> p_rows p = k_id k <$> shown w'.
Proof.
  intros Hlist Hput Hother Hsteps Hrun Ha Hans.
  assert (current shown (p, w') ∧ keyed k p) as [Hc Hk].
  { change p with (p, w').1 at 2. rewrite <- Hrun.
    assert (current shown (mount_section k form, w) ∧ keyed k (mount_section k form, w).1) as Hc.
    { unfold mount_section. split; [|by destruct (k_other k)].
      destruct (k_other k); [apply current_spawn|]; apply current_refresh. }
    revert Hc. generalize (mount_section k form, w). clear Hrun Ha Hans.
    induction Hsteps as [|st steps Hst _ IH]; intros s [Hc Hk]; simpl; [done|]. apply IH. destruct s as [q v].
    split; [|by apply step_keyed]. destruct st as [i| |id|i|i].
    - exact Hc.
    - unfold panel_step, on_create. destruct (k_dto k _); [exact Hc|by apply current_spawn].
    - by apply current_spawn.
    - by apply asked_keeps.
    - by apply answered_keeps. }
  assert (p_items p = shown w') as Hp; [|split; [exact Hp|by rewrite <- Hp]]. destruct Hc as [Hc|[Hc|[Hc|[_ Hc]]]].
  - simpl in Hc. rewrite Ha in Hc. by apply elem_of_nil in Hc.
  - simpl in Hc. rewrite Hans in Hc. by apply Exists_nil in Hc.
  - simpl in Hc. by rewrite Hans in Hc.
  - exact Hc.
Qed.

(** ** The rows of a graph *)

Section rows.
Context `{Doubles}.

(** No identifier of a node holds the end of the arrow of a key. *)
Definition plain_id (id : string) : Prop := ">"%char ∉ String.list_ascii_of_string id.

Lemma key_inj a b c d : plain_id a → plain_id b → a +:+ "->" +:+ c = b +:+ "->" +:+ d → a = b ∧ c = d.
Proof.
  revert b. induction a as [|x a IH]; intros [|y b] Ha Hb; simpl.
  - intros [= He]. split; [done|exact He].
  - intros [= <- He]. destruct b as [|z b]; simpl in He; [done|]. injection He as <- _. exfalso. apply Hb. simpl. set_solver.
  - intros [= -> He]. destruct a as [|z a]; simpl in He; [done|]. injection He as -> _. exfalso. apply Ha. simpl. set_solver.
  - intros [= -> He]. destruct (IH b) as [-> ->]; [|..|exact He|done].
    + unfold plain_id in *. simpl in Ha. set_solver.
    + unfold plain_id in *. simpl in Hb. set_solver.
Qed.

Lemma pretty_go_plain x s : plain_id s → plain_id (pretty_N_go x s).
Proof.
  revert s. induction (N.lt_wf_0 x) as [x _ IH]; intros s Hs. destruct (decide (x = 0)%N) as [->|Hx].
  { by rewrite pretty_N_go_0. }
  rewrite pretty_N_go_step by lia. apply IH; [apply N.div_lt; lia|].
  unfold plain_id in *. simpl. apply not_elem_of_cons. split; [|exact Hs].
  unfold pretty_N_char. repeat case_match; done.
Qed.

Lemma node_id_plain (n : nat) : plain_id ("node-" +:+ pretty n).
Proof.
  assert (plain_id (pretty n)) as Hp.
  { unfold pretty, pretty_nat, pretty, pretty_N. case_decide; [|apply pretty_go_plain]; unfold plain_id; simpl; set_solver. }
  unfold plain_id in *. simpl. set_solver.
Qed.

Lemma update_first_fmap {A K} `{EqDecision K} (key : A → K) (x : K) (g : A → A) (l : list A) :
  NoDup (key <$> l) →
  update_first (λ a, bool_decide (key a = x)) g l = (λ a, if decide (key a = x) then g a else a) <$> l.
Proof.
  induction l as [|a l IH]; simpl; [done|]. intros [Ha Hl]%NoDup_cons. case_bool_decide as Hx.
  - rewrite decide_True by done. f_equal. symmetry. etrans; [|apply list_fmap_id]. apply list_fmap_ext.
    intros i b Hb. rewrite decide_False; [done|]. intros Hbx. apply Ha, list_elem_of_fmap. exists b.
    split; [congruence|by eapply list_elem_of_lookup_2].
  - rewrite decide_False by done. f_equal. by apply IH.
Qed.

Lemma set_node_action_fmap id v nodes : NoDup (nv_id <$> nodes) → set_node_action id v nodes =
  (λ n, if decide (nv_id n = id) then mkNodeView (nv_id n) (nv_x n) (nv_y n) v else n) <$> nodes.
Proof. apply update_first_fmap. Qed.

Definition ends (e : EdgeView) : string * string := (ev_from e, ev_to e).
Lemma set_edge_guard_fmap from to v edges : NoDup (ends <$> edges) → set_edge_guard from to v edges =
  (λ e, if decide (ends e = (from, to)) then mkEdgeView (ev_from e) (ev_to e) v else e) <$> edges.
Proof.
  intros Hn. rewrite <- (update_first_fmap ends (from, to)) by done. unfold set_edge_guard.
  induction edges as [|e edges IH]; simpl; [done|]. unfold ends at 1.
  replace (bool_decide ((ev_from e, ev_to e) = (from, to)))
    with (bool_decide (ev_from e = from) && bool_decide (ev_to e = to)).
  - destruct (_ && _); [done|]. f_equal. apply IH. simpl in Hn. by apply NoDup_cons in Hn as [_ ?].
  - repeat case_bool_decide; simpl; naive_solver.
Qed.

Lemma lookup_node_rows nodes rows n : NoDup (nv_id <$> nodes) → n ∈ nodes →
  node_rows nodes rows !! nv_id n = Some (default (exec_mount (nv_action n)) (rows !! nv_id n)).
Proof.
  intros Hn Hin. unfold node_rows. apply elem_of_list_to_map_1.
  - by rewrite <- list_fmap_compose.
  - apply list_elem_of_fmap. by exists n.
Qed.
Lemma node_rows_dom nodes rows id : is_Some (node_rows nodes rows !! id) → id ∈ nv_id <$> nodes.
Proof.
  intros [r Hr%elem_of_list_to_map_2]. apply list_elem_of_fmap in Hr as (n&[= -> _]&Hin). apply list_elem_of_fmap.
  by exists n.
Qed.
Lemma lookup_edge_rows edges rows e : NoDup (edge_key <$> edges) → e ∈ edges →
  edge_rows edges rows !! edge_key e = Some (default (ev_from e, ev_to e, exec_mount (ev_guard e)) (rows !! edge_key e)).
Proof.
  intros Hn Hin. unfold edge_rows. apply elem_of_list_to_map_1.
  - by rewrite <- list_fmap_compose.
  - apply list_elem_of_fmap. by exists e.
Qed.
Lemma edge_rows_dom edges rows key : is_Some (edge_rows edges rows !! key) → key ∈ edge_key <$> edges.
Proof.
  intros [r Hr%elem_of_list_to_map_2]. apply list_elem_of_fmap in Hr as (n&[= -> _]&Hin). apply list_elem_of_fmap.
  by exists n.
Qed.

(** Each node and each edge has one row, which shows what it runs. *)
Definition rows_ok (f : GraphForm) : Prop :=
  let nodes := ed_nodes (gf_editor f) in let edges := ed_edges (gf_editor f) in
  graph_ok (gf_editor f) ∧ Forall (λ n, plain_id (nv_id n)) nodes ∧
  (∀ n, n ∈ nodes → ∃ row, gf_nodes f !! nv_id n = Some row ∧ exec_value row = nv_action n) ∧
  (∀ e, e ∈ edges → ∃ row, gf_edges f !! edge_key e = Some (ev_from e, ev_to e, row) ∧ exec_value row = ev_guard e) ∧
  (∀ id, is_Some (gf_nodes f !! id) → id ∈ nv_id <$> nodes) ∧
  (∀ key, is_Some (gf_edges f !! key) → key ∈ edge_key <$> edges).

(** The keys of the edges of a graph are distinct. *)
Lemma edge_keys_NoDup ed : graph_ok ed → Forall (λ n, plain_id (nv_id n)) (ed_nodes ed) →
  NoDup (edge_key <$> ed_edges ed) ∧
  ∀ e, e ∈ ed_edges ed → plain_id (ev_from e).
Proof.
  intros (_&Hends&Hnd) Hplain.
  assert (∀ e, e ∈ ed_edges ed → plain_id (ev_from e)) as Hp.
  { intros e He. rewrite Forall_forall in Hends. setoid_rewrite Forall_forall in Hplain.
    destruct (Hends e He) as ((n&->&Hn)%list_elem_of_fmap&_). by apply Hplain. }
  split; [|exact Hp]. revert Hnd Hp. generalize (ed_edges ed). intros l.
  induction l as [|e l IH]; simpl; intros Hnd Hp; [constructor|]. apply NoDup_cons in Hnd as [He Hnd].
  apply NoDup_cons. split; [|apply IH; [done|intros e' He'; apply Hp; by right]].
  intros (e'&Hk&He')%list_elem_of_fmap. apply key_inj in Hk as [Hf Ht]; [|apply Hp; by left|apply Hp; by right].
  apply He, list_elem_of_fmap. exists e'. split; [congruence|done].
Qed.

(** The form follows the editor when what stays keeps what it runs, and what is
    new runs nothing. *)
Lemma with_editor_ok (f : GraphForm) (ed : Editor) : graph_ok ed → Forall (λ n, plain_id (nv_id n)) (ed_nodes ed) →
  (∀ n, n ∈ ed_nodes ed → match gf_nodes f !! nv_id n with Some row => exec_value row = nv_action n | None => True end) →
  (∀ e, e ∈ ed_edges ed → match gf_edges f !! edge_key e with
     | Some (from, to, row) => from = ev_from e ∧ to = ev_to e ∧ exec_value row = ev_guard e | None => True end) →
  rows_ok (with_editor ed f).
Proof.
  intros Hg Hp Hn He. destruct (edge_keys_NoDup ed Hg Hp) as [Hkeys _]. pose proof Hg as (Hids&_).
  split; [done|]. split; [done|]. split; [|split; [|split]]; simpl.
  - intros n Hin. rewrite lookup_node_rows by done. eexists. split; [done|]. specialize (Hn n Hin).
    destruct (gf_nodes f !! nv_id n); [done|]. apply exec_mount_value.
  - intros e Hin. rewrite lookup_edge_rows by done. specialize (He e Hin).
    destruct (gf_edges f !! edge_key e) as [[[from to] row]|]; simpl.
    + destruct He as (->&->&He). by exists row.
    + eexists. split; [done|]. apply exec_mount_value.
  - apply node_rows_dom.
  - apply edge_rows_dom.
Qed.

(** An event of the mouse changes what no node nor edge runs: those that are left
    ran it before, and those that are new run nothing. *)
Definition nodes_kept (s s' : Editor) : Prop :=
  ∀ n, n ∈ ed_nodes s' →
    (∃ m, m ∈ ed_nodes s ∧ nv_id m = nv_id n ∧ nv_action m = nv_action n) ∨
    (nv_id n ∉ nv_id <$> ed_nodes s ∧ nv_action n = None ∧ plain_id (nv_id n)).
Definition edges_kept (s s' : Editor) : Prop :=
  ∀ e, e ∈ ed_edges s' →
    e ∈ ed_edges s ∨ (ends e ∉ ends <$> ed_edges s ∧ ev_guard e = None ∧ ev_from e ∈ nv_id <$> ed_nodes s).

Lemma nodes_kept_sub s s' : (∀ n, n ∈ ed_nodes s' → n ∈ ed_nodes s) → nodes_kept s s'.
Proof. intros Hs n Hn. left. exists n. auto. Qed.
Lemma edges_kept_sub s s' : (∀ e, e ∈ ed_edges s' → e ∈ ed_edges s) → edges_kept s s'.
Proof. intros Hs e He. left. auto. Qed.
Lemma kept_same s s' : ed_nodes s' = ed_nodes s → ed_edges s' = ed_edges s → nodes_kept s s' ∧ edges_kept s s'.
Proof.
  intros Hn He. split; [apply nodes_kept_sub|apply edges_kept_sub]; [by rewrite Hn|by rewrite He].
Qed.

Lemma join_nodes_kept i j s : nodes_kept s (run_state (join_nodes i j) s) ∧ edges_kept s (run_state (join_nodes i j) s).
Proof.
  unfold join_nodes, run_state, mbind, m_bind. rewrite node_of_run.
  destruct (ed_nodes s !! i) as [n|] eqn:Hi; [|by apply kept_same]. rewrite node_of_run.
  destruct (ed_nodes s !! j) as [m|] eqn:Hj; [|by apply kept_same]. simpl.
  destruct (existsb _ (ed_edges s)) eqn:Hex; [by apply kept_same|]. split; [by apply nodes_kept_sub|].
  intros e [He| ->%list_elem_of_singleton]%elem_of_app; [by left|right]. split; [|split; [done|by eapply ids_of_lookup]].
  intros (e'&Heq&He')%list_elem_of_fmap. apply not_true_iff_false in Hex. apply Hex, existsb_exists. exists e'.
  split; [by apply list_elem_of_In|]. unfold ends in Heq. simpl in Heq. injection Heq as -> ->.
  by rewrite !bool_decide_true.
Qed.

Lemma drag_kept s s' d : nodes_kept s s' ∧ edges_kept s s' → nodes_kept s (set_drag d s') ∧ edges_kept s (set_drag d s').
Proof. done. Qed.

Lemma editor_event_kept e s : nodes_kept s (run_state (editor_event e) s) ∧ edges_kept s (run_state (editor_event e) s).
Proof.
  destruct e as [x y|x y|x y| |x y|x y]; simpl.
  - unfold on_mouse_down, run_state, gets, mbind, m_bind. destruct (handle_at _ x y); simpl; [by apply kept_same|].
    destruct (node_at _ x y) as [i|]; [|by apply kept_same]. rewrite node_of_run.
    destruct (ed_nodes s !! i); by apply kept_same.
  - unfold on_mouse_move, run_state, gets, mbind, m_bind. simpl. destruct (ed_drag s) as [[i dx dy|i cur]|]; [|by apply kept_same..].
    split; [|by apply edges_kept_sub]. intros n [j Hj]%list_elem_of_lookup. left. simpl in Hj.
    destruct (decide (i = j)) as [->|Hij].
    + rewrite list_lookup_alter_eq in Hj. apply fmap_Some in Hj as (m&Hm&->). exists m.
      split; [by eapply list_elem_of_lookup_2|done].
    + rewrite list_lookup_alter_ne in Hj by done. exists n. split; [by eapply list_elem_of_lookup_2|done].
  - unfold on_mouse_up, run_state, get, mbind, m_bind. simpl. destruct (ed_drag s) as [[i dx dy|i cur]|]; [by apply kept_same| |by apply kept_same].
    destruct (node_at _ x y) as [j|]; [|by apply kept_same]. case_decide; [by apply kept_same|].
    pose proof (join_nodes_kept i j s) as Hk. unfold run_state in Hk. destruct (join_nodes i j s) as [[[]|[]|] s']; exact Hk.
  - by apply kept_same.
  - unfold on_dbl_click, run_state, gets, mbind, m_bind. destruct (node_at _ x y); [by apply kept_same|].
    destruct (unique_node_id_spec (ed_nodes s)) as (k&->&_&Hid&_). simpl. split; [|by apply edges_kept_sub].
    intros n [Hn| ->%list_elem_of_singleton]%elem_of_app; [left; by exists n|right]. split; [exact Hid|].
    split; [done|apply node_id_plain].
  - unfold on_context_menu, run_state, get, mbind, m_bind. destruct (node_at _ x y) as [i|].
    + rewrite node_of_run. destruct (ed_nodes s !! i) as [n|]; [|by apply kept_same]. simpl.
      split; [apply nodes_kept_sub|apply edges_kept_sub]; simpl; by intros ? [_ ?]%list_elem_of_filter.
    + destruct (edge_at _ _ x y) as [i|]; [|by apply kept_same]. split; [by apply nodes_kept_sub|].
      apply edges_kept_sub. simpl. intros e He. eapply elem_of_submseteq; [exact He|apply sublist_submseteq, sublist_delete].
Qed.

Lemma graph_ok_same ed ed' : nv_id <$> ed_nodes ed' = nv_id <$> ed_nodes ed → ends <$> ed_edges ed' = ends <$> ed_edges ed →
  graph_ok ed → graph_ok ed'.
Proof.
  intros Hn He (Hids&Hends&Hnd). split; [by rewrite Hn|].
  split; [|change (NoDup (ends <$> ed_edges ed')); by rewrite He]. rewrite Hn.
  rewrite Forall_forall in Hends |- *. intros e Hin.
  assert (ends e ∈ ends <$> ed_edges ed) as (e'&[= Hf Ht]&Hin')%list_elem_of_fmap.
  { rewrite <- He. apply list_elem_of_fmap. by exists e. }
  rewrite Hf, Ht. by apply Hends.
Qed.

Lemma graph_input_ok i f : rows_ok f → rows_ok (graph_input i f).
Proof.
  intros Hf. pose proof Hf as (Hg&Hp&Hn&He&Hdn&Hde). destruct i as [s|s|e|key ev|key ev]; simpl; [exact Hf..| | |].
  - destruct (event_ok e (gf_editor f)) as [Hg' _]. specialize (Hg' Hg).
    destruct (editor_event_kept e (gf_editor f)) as [Hkn Hke]. apply with_editor_ok; [done| | |].
    + apply Forall_forall. intros n [(m&Hm&<-&_)|(_&_&?)]%Hkn; [|done]. rewrite Forall_forall in Hp. by apply Hp.
    + intros n [(m&Hm&<-&<-)|(Hnew&_)]%Hkn.
      * by destruct (Hn m Hm) as (row&->&?).
      * destruct (gf_nodes f !! nv_id n) eqn:E; [|done]. exfalso. apply Hnew, Hdn. by rewrite E.
    + intros e' [Hin|(Hnew&_&Hfrom)]%Hke; [by destruct (He e' Hin) as (row&->&?)|].
      destruct (gf_edges f !! edge_key e') as [[[]]|] eqn:E; [|done]. exfalso.
      destruct (list_elem_of_fmap edge_key (ed_edges (gf_editor f)) (edge_key e')) as [Hx _].
      destruct Hx as (e2&Hk&He2); [apply Hde; by rewrite E|].
      destruct (edge_keys_NoDup _ Hg Hp) as [_ Hpf]. apply key_inj in Hk as [Hk1 Hk2]; [| |by apply Hpf].
      * apply Hnew, list_elem_of_fmap. exists e2. unfold ends. split; [congruence|done].
      * apply list_elem_of_fmap in Hfrom as (m&->&Hm). rewrite Forall_forall in Hp. by apply Hp.
  - destruct (gf_nodes f !! key) as [row|] eqn:E; [|exact Hf]. pose proof Hg as (Hids&_).
    rewrite set_node_action_fmap by done. set (upd := λ n : NodeView, if decide (nv_id n = key) then _ else n).
    assert (nv_id <$> (upd <$> ed_nodes (gf_editor f)) = nv_id <$> ed_nodes (gf_editor f)) as Hsame.
    { rewrite <- list_fmap_compose. apply list_fmap_ext. intros ? n _. simpl. unfold upd. by case_decide. }
    apply with_editor_ok; simpl.
    + apply (graph_ok_same (gf_editor f)); [exact Hsame|reflexivity|exact Hg].
    + apply Forall_forall. intros n (m&->&Hm)%list_elem_of_fmap. rewrite Forall_forall in Hp. specialize (Hp m Hm).
      unfold upd. by case_decide.
    + intros n (m&->&Hm)%list_elem_of_fmap. unfold upd. destruct (decide (nv_id m = key)) as [<-|Hne]; simpl.
      * by rewrite lookup_insert_eq.
      * rewrite lookup_insert_ne by congruence. by destruct (Hn m Hm) as (r&->&?).
    + intros e' Hin. by destruct (He e' Hin) as (r&->&?).
  - destruct (gf_edges f !! key) as [[[from to] row]|] eqn:E; [|exact Hf]. pose proof Hg as (_&_&Hnd).
    rewrite set_edge_guard_fmap by done. set (upd := λ e : EdgeView, if decide (ends e = (from, to)) then _ else e).
    assert (ends <$> (upd <$> ed_edges (gf_editor f)) = ends <$> ed_edges (gf_editor f)) as Hsame.
    { rewrite <- list_fmap_compose. apply list_fmap_ext. intros ? e _. simpl. unfold upd. by case_decide. }
    apply with_editor_ok; simpl.
    + apply (graph_ok_same (gf_editor f)); [reflexivity|exact Hsame|exact Hg].
    + exact Hp.
    + intros n Hm. by destruct (Hn n Hm) as (r&->&?).
    + intros e' (e2&->&He2)%list_elem_of_fmap. destruct (He e2 He2) as (r&Hr&Hv).
      assert (edge_key (upd e2) = edge_key e2) as -> by (unfold upd; by case_decide).
      assert (edge_key e2 = key ↔ ends e2 = (from, to)) as Hkey.
      { split.
        - intros Hk. rewrite Hk, E in Hr. unfold ends. congruence.
        - intros [= Hf1 Ht1]. assert (is_Some (gf_edges f !! key)) as Hs by (by rewrite E).
          apply Hde, list_elem_of_fmap in Hs as (e3&->&He3). destruct (He e3 He3) as (r3&Hr3&_). rewrite E in Hr3.
          unfold edge_key. congruence. }
      unfold upd. destruct (decide (ends e2 = (from, to))) as [Hends|Hne].
      * rewrite (proj2 Hkey Hends), lookup_insert_eq. unfold ends in Hends. by simplify_eq/=.
      * rewrite lookup_insert_ne by (intros Hk; by apply Hne, Hkey). by rewrite Hr.
Qed.
End rows.

(** C31: Whatever is drawn, dragged, deleted and chosen in the form of a graph, two
    nodes never have the same name, an edge always joins two nodes of the form,
    two nodes are joined at most once in a direction, and each node and each edge
    has one row, which shows what the graph that is sent runs there: no row stays
    behind for a node or an edge that is gone, and none shows what another runs. *)
Theorem rows_show_graph `{Doubles} (inputs : list GraphInput) :
  rows_ok (foldl (λ f i, graph_input i f) graph_form_new inputs).
Proof.
  assert (rows_ok graph_form_new) as Hf.
  { split; [split_and!; constructor|]. split; [constructor|]. simpl.
    split_and!; intros x Hx; try (by apply elem_of_nil in Hx); by destruct Hx as [? ?%lookup_empty_Some]. }
  revert Hf. generalize graph_form_new. induction inputs as [|i inputs IH]; intros f Hf; simpl; [done|].
  apply IH, graph_input_ok, Hf.
Qed.

(** ** Examples *)

#[local] Existing Instance memory_old.

Definition demo_model : ModelDto := mkModelDto "m" "http://m" "" "" "gpt" None.
Definition models_page : Kind Cats ModelForm ModelInput ModelDto := models_section memory_clients.
Definition listed_models (w : Cats) : list ModelDto := (λ x, model_to_dto (H := memory_old) x.1 x.2) <$> map_to_list (w.1.1.1).
Definition no_cats : Cats := (∅, ∅, ∅, ∅).
Definition create_demo : list (PanelStep ModelInput) :=
  [Input (ModelId "m"); Input (BaseUrl "http://m"); Input (ModelName "gpt"); Create].

Lemma panel_shows_catalogue_witness :
  let s := panel_run models_page "" (create_demo ++ [Asked 0; Asked 0; Answered 0; Answered 0; Asked 0; Answered 0])
    (mount_section models_page model_form_new, no_cats) in p_items s.1 = listed_models s.2 ∧ listed_models s.2 = [demo_model].
Proof.
  split; [|by vm_compute]. refine (proj1 (panel_shows_catalogue models_page "" listed_models model_form_new
    (create_demo ++ [Asked 0; Asked 0; Answered 0; Answered 0; Asked 0; Answered 0]) no_cats _ _ _ _ _ _ _ _ _)).
  - reflexivity.
  - intros x w Hx. by destruct Hx.
  - done.
  - repeat constructor.
  - apply surjective_pairing.
  - by vm_compute.
  - by vm_compute.
Defined.

(** The answer of an older call that comes after that of a newer one is the one
    that the page shows: the model that was created is kept by the server, and
    the page does not list it. *)
Lemma overtaken_list_stays :
  let s := panel_run models_page "" (create_demo ++ [Asked 0; Asked 0; Answered 1; Asked 0; Answered 1; Answered 0])
    (mount_section models_page model_form_new, no_cats) in
  p_items s.1 = [] ∧ p_asking s.1 = [] ∧ p_answers s.1 = [] ∧ listed_models s.2 = [demo_model].
Proof. vm_compute. done. Qed.

(** The row of an item that is published again is kept as it was drawn: the server
    keeps the new model, the list of the section has it, and the page shows the
    old one. *)
Lemma replaced_row_stays :
  let s := panel_run models_page "" (create_demo ++ [Asked 0; Asked 0; Answered 0; Answered 0; Asked 0; Answered 0;
      Input (ModelName "gpt2"); Create; Asked 0; Answered 0; Asked 0; Answered 0])
    (mount_section models_page model_form_new, no_cats) in
  md_model <$> p_items s.1 = ["gpt2"] ∧ p_items s.1 = listed_models s.2 ∧ p_rows s.1 = [demo_model].
Proof. vm_compute. done. Qed.

(** The entry is a name that was chosen: the node may be deleted since, and the
    graph that is sent has an entry and no node. *)
Lemma entry_of_deleted_node :
  graph_dto (foldl (λ f i, graph_input i f) graph_form_new
    [GraphIdIn "g"; Mouse (at_ DblClick 100 100); Entry "node-1"; Mouse (at_ ContextMenu 100 100)])
  = inr (mkGraphDto "g" "node-1" [] []).
Proof. vm_compute. done. Qed.

(** The action of a node is chosen in its row, and sent. *)
Example demo_graph_form :
  graph_dto (foldl (λ f i, graph_input i f) graph_form_new
    ((Mouse <$> joined) ++ [Entry "node-1"; NodeRow "node-2" (SetKind "rune"); NodeRow "node-2" (SetA "1+1");
      EdgeRow "node-1->node-2" (SetKind "rust"); Mouse (at_ MouseDown 100 100); Mouse (at_ MouseMove 120 90)]))
  = inr (mkGraphDto "" "node-1" [mkNodeDto "node-1" None; mkNodeDto "node-2" (Some (DtoRune "1+1"))]
      [mkEdgeDto "node-1" "node-2" (Some (DtoRust ""))]).
Proof. vm_compute. done. Qed.
