(* ===== verification/Mux.v ===== *)
(** * Channels over one web socket ([marie-ws/src/layer.rs], [protocol.rs])

    Several channels of messages share a connection: a message leaves in an
    envelope that names its channel, and a receiver keeps the envelopes of its
    own channel and ignores the rest. *)

From S2P Require Import Prelude Ids Json Broadcast Wire.

(** [serde_json::to_vec] and [from_slice], over JSON values. *)
Class JsonBytes := {
  json_to_vec : Value → list Z;
  json_from_slice : list Z → option Value;
  json_from_to_vec : ∀ v, json_from_slice (json_to_vec v) = Some v;
  json_to_vec_bytes : ∀ v, Forall (λ b, 0 ≤ b < 2 ^ 8)%Z (json_to_vec v)
}.

(** ** The protocol *)

Inductive RawMessage := RawText (s : string) | RawBytes (l : list Z).
Record Muxed := mkMuxed { mx_channel : string; mx_payload : list Z }.

(** [Vec<u8>] is an array of numbers. *)
Definition wire_u8 : Wire Z.
Proof.
  refine {| to_value := uint_to_value; from_value := uint_from_value 8; sendable := λ z, (0 ≤ z < 2 ^ 8)%Z |}.
  intros z. apply uint_roundtrip.
Defined.
#[local] Existing Instance wire_u8.

Definition muxed_to_value (m : Muxed) : Value :=
  Object (struct [("channel", to_value (mx_channel m)); ("payload", to_value (mx_payload m))]).
Definition muxed_from_value (v : Value) : Res () Muxed :=
  m ← as_object v; channel ← field "channel" m; payload ← field "payload" m; Ok (mkMuxed channel payload).

#[export] Instance wire_muxed : Wire Muxed.
Proof.
  refine {| to_value := muxed_to_value; from_value := muxed_from_value; sendable := λ m, sendable (mx_payload m) |}.
  intros [c p] Hp. unfold muxed_to_value, muxed_from_value. wire_fields; auto.
Defined.

(** The value that bytes hold, [.ok()]. *)
Definition decode_slice {A} `{JsonBytes} `{Wire A} (l : list Z) : option A :=
  v ← json_from_slice l; match from_value v with Ok a => Some a | _ => None end.

Section mux.
Context `{Broadcast} `{JsonBytes}.
Notation Link := (sender RawMessage).

(** [Sender::send] fails when nobody receives. *)
Context (has_receiver : Link → bool) (has_receiver_spec : ∀ s r, is_Some (unread s r) → has_receiver s = true).

(** [WsRawSender::start_send] *)
Definition start_send (raw : RawMessage) : M Link () () := λ s,
  if has_receiver s then (Ok (), broadcast_send raw s) else (Err (), s).

(** [tx.with(..)]: the envelope of a message. *)
Definition envelope (channel : string) (msg : Value) : RawMessage :=
  RawBytes (json_to_vec (muxed_to_value (mkMuxed channel (json_to_vec msg)))).
Definition mux_send (channel : string) (msg : Value) : M Link () () := start_send (envelope channel msg).

(** The closure of [rx.filter_map(..)]. *)
Definition mux_accept {R} `{Wire R} (channel : string) (raw : RawMessage) : option R :=
  match raw with
  | RawText _ => None
  | RawBytes bytes =>
      muxed ← (decode_slice bytes : option Muxed);
      if decide (mx_channel muxed = channel) then decode_slice (mx_payload muxed) else None
  end.

(** The next message of a receiver: raw messages are taken until one is
    accepted.  [turns] bounds them. *)
Fixpoint mux_poll {R} `{Wire R} (turns : nat) (r : receiver) (channel : string) (s : Link) : option R * Link :=
  match turns with
  | O => (None, s)
  | S turns =>
      match broadcast_recv r s with
      | (None, s) => (None, s)
      | (Some raw, s) => match mux_accept channel raw with Some a => (Some a, s) | None => mux_poll turns r channel s end
      end
  end.

(** As many turns as there are messages to read. *)
Definition mux_next {R} `{Wire R} (r : receiver) (channel : string) (s : Link) : option R * Link :=
  mux_poll (length (default [] (unread s r))) r channel s.

(** Every message that a receiver is given, until none is left. *)
Fixpoint mux_drain {R} `{Wire R} (fuel : nat) (r : receiver) (channel : string) (s : Link) : list R :=
  match fuel with
  | O => []
  | S fuel =>
      match mux_next r channel s with
      | (Some a, s) => a :: mux_drain fuel r channel s
      | (None, _) => []
      end
  end.

(** ** What a channel carries *)

Lemma decode_slice_eq {A} `{Wire A} (v : Value) :
  decode_slice (json_to_vec v) = match from_value v with Ok a => Some a | _ => None end.
Proof. unfold decode_slice. by rewrite json_from_to_vec. Qed.

Lemma mux_accept_envelope {R} `{Wire R} channel channel' msg :
  mux_accept channel (envelope channel' msg) =
    (if decide (channel' = channel) then match from_value msg with Ok a => Some a | _ => None end else None : option R).
Proof.
  unfold mux_accept, envelope. rewrite decode_slice_eq.
  pose proof (wire_roundtrip (mkMuxed channel' (json_to_vec msg)) (json_to_vec_bytes msg)) as Hw.
  change (to_value (mkMuxed channel' (json_to_vec msg))) with (muxed_to_value (mkMuxed channel' (json_to_vec msg))) in Hw.
  rewrite Hw. simpl.
  by rewrite decode_slice_eq.
Qed.

Lemma mux_next_spec {R} `{Wire R} r channel s raws :
  unread s r = Some raws →
  match mux_next r channel s : option R * Link with
  | (Some a, s') => ∃ skipped raw rest, raws = skipped ++ raw :: rest ∧ omap (mux_accept (R := R) channel) skipped = [] ∧
                      mux_accept channel raw = Some a ∧ unread s' r = Some rest
  | (None, _) => omap (mux_accept (R := R) channel) raws = []
  end.
Proof.
  unfold mux_next. intros Hu. rewrite Hu. simpl. revert s Hu.
  induction raws as [|raw raws IH]; intros s Hu; simpl; [done|].
  destruct (broadcast_recv r s) as [o s'] eqn:Hrecv. destruct (unread_recv _ _ _ _ Hrecv) as (->&Hu'&_).
  rewrite Hu in Hu' |- *. simpl in Hu' |- *. destruct (mux_accept channel raw) as [a|] eqn:Ha.
  - by exists [], raw, raws.
  - specialize (IH s' Hu'). destruct (mux_poll _ r channel s') as [[a|] s''].
    + destruct IH as (skipped&raw'&rest&->&Hs&Hr&Hrest). exists (raw :: skipped), raw', rest.
      split_and!; try done. simpl. by rewrite Ha.
    + done.
Qed.

Lemma mux_drain_spec {R} `{Wire R} fuel r channel s raws :
  unread s r = Some raws → length raws ≤ fuel →
  mux_drain fuel r channel s = omap (mux_accept (R := R) channel) raws.
Proof.
  revert s raws. induction fuel as [|fuel IH]; intros s raws Hu Hf; [by destruct raws; [|simpl in Hf; lia]|].
  simpl. pose proof (mux_next_spec r channel s raws Hu) as Hn.
  destruct (mux_next r channel s) as [[a|] s'].
  - destruct Hn as (skipped&raw&rest&->&Hs&Hr&Hrest). rewrite omap_app, Hs. cbn [app omap list_omap]. rewrite Hr.
    f_equal. apply IH; [done|]. rewrite length_app in Hf. simpl in Hf. lia.
  - by rewrite Hn.
Qed.

(** The messages that senders of any channels give to a connection. *)
Definition send_all (sends : list (string * Value)) : M Link () () := mfor sends (λ m, mux_send m.1 m.2).

(** What is left to read of messages that come one at a time. *)
Lemma lastn_app {A} n (l k : list A) : lastn n (lastn n l ++ k) = lastn n (l ++ k).
Proof.
  induction k as [|x k IH] using rev_ind; [rewrite !app_nil_r; unfold lastn; rewrite length_drop, drop_drop; f_equal; lia|].
  rewrite !(assoc_L (++)). by rewrite <- lastn_snoc, IH, lastn_snoc.
Qed.

Lemma send_all_unread sends s r raws :
  unread s r = Some raws → length raws ≤ capacity s →
  run_res (send_all sends) s = Ok () ∧
  unread (run_state (send_all sends) s) r =
    Some (lastn (capacity s) (raws ++ ((λ m, envelope m.1 m.2) <$> sends))).
Proof.
  revert s raws. induction sends as [|m sends IH]; intros s raws Hu Hc.
  - unfold send_all, run_res, run_state. simpl. by rewrite app_nil_r, lastn_all.
  - destruct (IH (broadcast_send (envelope m.1 m.2) s) (lastn (capacity s) (raws ++ [envelope m.1 m.2])))
      as [Hr Hs]; [by rewrite unread_send, Hu|rewrite capacity_send, length_lastn; lia|].
    assert (∀ A (f : Res () () * Link → A), f (send_all (m :: sends) s) = f (send_all sends (broadcast_send (envelope m.1 m.2) s))) as Hone.
    { intros A f. unfold send_all. cbn [mfor]. unfold mbind at 1, m_bind at 1, mux_send at 1, start_send.
      by rewrite (has_receiver_spec s r) by by rewrite Hu. }
    unfold run_res, run_state in *. rewrite !Hone. split; [exact Hr|].
    rewrite Hs, capacity_send, lastn_app, <- (assoc_L (++)). done.
Qed.

(** A receiver of a channel gets the messages that were sent on it, whole
    and in order, and nothing of the other channels, whatever they carry and
    however their messages mingle; the connection loses messages only when more
    wait than it holds, the oldest first. *)
Theorem mux_delivers {R} `{Wire R} (sends : list (string * Value)) (msgs : list R) (s : Link) (r : receiver)
    (channel : string) (fuel : nat) :
  unread s r = Some [] → (snd <$> filter (λ m, m.1 = channel) sends) = to_value <$> msgs → Forall sendable msgs →
  length sends ≤ capacity s → length sends ≤ fuel →
  run_res (send_all sends) s = Ok () ∧ mux_drain fuel r channel (run_state (send_all sends) s) = msgs.
Proof.
  intros Hu Hm Hs Hc Hf. destruct (send_all_unread sends s r [] Hu) as [Hr Hs']; [simpl; lia|]. split; [done|].
  simpl in Hs'. rewrite lastn_all in Hs' by by rewrite length_fmap.
  erewrite mux_drain_spec; [|exact Hs'|by rewrite length_fmap].
  clear -Hm Hs. revert msgs Hm Hs. induction sends as [|[c v] sends IH]; intros msgs Hm Hs.
  - by destruct msgs.
  - rewrite fmap_cons. cbn [omap list_omap fst snd]. rewrite mux_accept_envelope. rewrite filter_cons in Hm. simpl in Hm. case_decide as Hch.
    + destruct msgs as [|a msgs]; [done|]. csimpl in Hm. injection Hm as -> Hm.
      apply Forall_cons in Hs as [Ha Hs]. rewrite wire_roundtrip by done. f_equal. by apply IH.
    + by apply IH.
Qed.
End mux.

(** ** A concrete connection *)

Fixpoint bits_of (p : positive) : list Z :=
  match p with xH => [2%Z] | xO p => 0%Z :: bits_of p | xI p => 1%Z :: bits_of p end.
Fixpoint of_bits (l : list Z) : option positive :=
  match l with
  | [2%Z] => Some xH
  | b :: l => p ← of_bits l; Some (if decide (b = 0%Z) then xO p else xI p)
  | [] => None
  end.
Lemma of_bits_of p : of_bits (bits_of p) = Some p.
Proof.
  induction p as [p IH|p IH|]; [| |done]; cbn [bits_of of_bits]; rewrite IH; done.
Qed.
Lemma bits_of_bytes p : Forall (λ b, 0 ≤ b < 2 ^ 8)%Z (bits_of p).
Proof. induction p as [p IH|p IH|]; repeat constructor; try done. Qed.

#[export] Instance demo_bytes : JsonBytes.
Proof.
  refine {| json_to_vec := λ v, bits_of (countable.encode v);
            json_from_slice := λ l, of_bits l ≫= countable.decode |}.
  - intros v. rewrite of_bits_of. apply countable.decode_encode.
  - intros v. apply bits_of_bytes.
Defined.

(** Two channels whose messages mingle, one of them with another type. *)
Definition demo_sends : list (string * Value) :=
  [("chat", Str "a"); ("jobs", Num (NInt 1)); ("chat", Str "b"); ("jobs", Null)].
Lemma mux_delivers_witness :
  let s := (@broadcast_subscribe queues RawMessage (@broadcast_channel queues RawMessage 16)).2 in
  @mux_drain queues demo_bytes string _ 8 0%nat "chat" (run_state (@send_all queues demo_bytes (λ _, true) demo_sends) s) =
    ["a"; "b"].
Proof.
  intros s.
  apply (@mux_delivers queues demo_bytes (λ _, true) (λ _ _ _, eq_refl) string _ demo_sends ["a"; "b"] s 0%nat "chat" 8);
    [reflexivity|reflexivity|by repeat constructor|simpl; lia|simpl; lia].
Defined.
